(* ===== verification/_CoqProject ===== *)
-Q . S2P
Prelude.v
Utf8.v
Labgob.v
LabgobCheck.v
LabgobProps.v
LabgobWitness.v
Persister.v
Raft.v
RaftLog.v
RaftNode.v
RaftProps.v
RaftService.v
RaftElection.v
RaftCluster.v
RaftMatching.v
RaftCommit.v
RaftSafety.v
RaftApply.v
RaftOrigin.v
Labrpc.v
TestNet.v
RaftConfig.v
RaftConfigProps.v
RaftChecks.v
RaftTester.v
RaftWitness.v
ClusterWitness.v
TesterWitness.v
RaftFindings.v
RequestServer.v
RequestProps.v
KVServer.v
KVModel.v
KVProps.v
ShardCtrler.v
ShardBalance.v
ShardProps.v
ShardTypes.v
Replicated.v
ReplicatedProps.v
ReplicatedOrigin.v
ReplicatedKV.v
ServiceConfig.v
ServiceNet.v
ServiceConfigProps.v
ServiceHosts.v
ServiceWitness.v
HarnessWitness.v
ReplicatedWitness.v
Clerk.v
ShardKV.v
ShardKVProps.v
Bitset.v
ClerkWitness.v
Checker.v
CheckerList.v
CheckerSound.v
CheckerLink.v
CheckerProps.v
CheckerSearch.v
CheckerComplete.v
CheckerInfo.v
CheckerPartials.v
CheckerKV.v
CheckerWitness.v
KVPoints.v
KVClients.v
KVLinear.v
KVHistory.v
KVHistoryWitness.v
MapReduce.v
MrApps.v
