(* ===== verification/Prelude.v ===== *)
(** * The 6.824 labs: Raft, the services on it, and the tools that test them

    This library models the Go program under [src/src] and proves what makes its parts
    correct.  The program is a stack.  [raft] replicates a log of commands over the peers of
    a cluster and hands committed commands to a service.  [kvraft] is a key/value service on
    Raft, [shardctrler] a service that assigns ten shards to replica groups; both are used
    through clerks ([client.go]), and [shardkv/client.go] uses both.  All calls go through
    [labrpc], a network that may lose, delay and reorder them, values are encoded by
    [labgob].  The tests of [kvraft] give histories to the linearizability checker
    [porcupine] with the model [models/kv.go].  [mr], [mrapps] and [main/mrsequential.go] are
    a MapReduce.

    ** Conventions

    A region of the code that runs under a lock is one function from the state before to the
    state after; a goroutine that does more than one such region is a program counter in a
    step machine, so that interleavings are sequences of steps.  [None] is a run-time panic
    (index out of range, nil dereference, [log.Fatalf]) or, for a step of a machine, a step
    that is not possible now.  An [int] is a [Z] without bound, except where the width
    matters: words of bit sets, the counters of [labrpc], the hash of [mr].  Random numbers,
    the iteration order of Go maps, the result of the unstable [sort.Sort] and scheduling are
    arguments.  Loops of the code without a bound take [fuel]; [Running] says that the loop
    has not ended, and theorems show how much is enough: the rebalancing loop ends within
    [balanceFuel] = 100 rounds (the sum of the squares of ten counts is at most 100 and each
    round lowers it), a clerk ends within one round over its servers, the loops of the
    MapReduce driver end within the length of their input.  [encoding/gob] is not part of
    the repository: it is the class [Gob], whose laws are what the code relies on, with an
    instance that shows that they can hold.

    ** Files

    - [Prelude]: Go slices, loops and decimal printing, the tactics and hints.
    - [Utf8]: runes, [unicode.IsLetter] and [strings.FieldsFunc] of Go's standard library.
    - [Labgob]: the class [Gob] and the sample codec.
    - [LabgobCheck], [LabgobProps], [LabgobWitness]: [labgob/labgob.go], the encoder and decoder
      with the checks that warn about lower-case fields and defaults; types and values are
      trees, recursive types go through names.
    - [Persister]: [raft/persister.go].
    - [Raft]: [raft/raft.go], one definition per locked region: [RequestVote],
      [AppendEntries], [InstallSnapshot], [Snapshot], [CondInstallSnapshot], [Start],
      [updateApplied], [handleAppendEntriesReply], [Make]; [elect] is [electArgs] (the request)
      and [electReply] (the reply), [onRound] is [onRoundBegin], [onRoundSnapshotReply] and
      [onRoundEntriesReply]; the tickers are [tickElect] and [tickHeartbeat].
    - [RaftLog]: the log algorithms against their specifications.
    - [RaftNode]: the operations of one peer as one machine ([nodeExec]), the shape invariant
      [wf], the durability invariant.
    - [RaftProps]: no operation panics; the rules of [AppendEntries] (merge, idempotence,
      conflict information, replication), the commit index of a follower.
    - [RaftService]: the commit rule of the leader, application in order, snapshots, crash
      recovery.
    - [RaftElection]: a cluster with messages, crashes and elections; one vote per term and
      election safety.
    - [RaftCluster]: that cluster with log replication: the calls of [onRound] with entries and
      with snapshots, their replies, and the installation of a snapshot by the service;
      [RaftMatching]: log matching; [RaftCommit]: what is committed, elections and entries keep
      it; [RaftSafety]: snapshots keep it, leader completeness and state machine safety;
      [RaftApply]: what the peers hand to their services;
      [ClusterWitness]: runs of this cluster.
    - [TestNet], [RaftConfig]: [raft/config.go], the tester of the Raft tests: the network of the
      peers, crashes and restarts, the appliers with their checks, [checkOneLeader],
      [checkTerms], [wait], [one].  [RaftConfigProps]: the network connects who it should, a
      restarted peer is the one that crashed; [RaftChecks]: what the checks promise;
      [RaftTester]: the cluster of [RaftCluster] under the tester with [applier], which accepts it;
      [TesterWitness]: runs.
    - [RaftWitness], [RaftFindings]: concrete runs; two leaders in a term, a committed entry
      lost, a term lost with a snapshot, a panic after a restart.
    - [RequestServer]: the request path of both services (handlers, wait channels,
      [fetchApply]) as a machine over the class [Service]; [RequestProps]: answers belong to
      their requests, the answer is never blocked.
    - [KVServer], [KVModel], [KVProps]: [kvraft/server.go], [models/kv.go]; exactly-once
      refinement of a plain map, linearizability of the log in the sense of [models/kv.go],
      the answers of the whole machine, snapshots.
    - [ShardCtrler], [ShardBalance], [ShardProps], [ShardTypes]: [shardctrler/server.go];
      rebalancing is independent of map order and even, replicas agree, queries, duplicates,
      every configuration is well typed.
    - [Replicated]: the whole stack, the cluster of [RaftCluster] with a server of
      [RequestServer] on each peer, over the classes [Replicates] and [ReplicatedLaws] of what
      a service promises; [ReplicatedProps]: all servers follow one log; [RaftOrigin],
      [ReplicatedOrigin]: its commands come from requests; [ReplicatedKV]: both services keep the
      laws; [ReplicatedWitness]: a run.
    - [KVClients]: that stack for [kvraft] with the clerks of [kvraft/client.go] and the record
      that the tests keep of their calls; [KVLinear]: every call that has returned has a place in
      the log; [KVPoints]: operations with places in a log are linearizable; [KVHistory]: the
      record is, and the checker accepts it; [KVHistoryWitness]: runs.
    - [ServiceConfig]: [kvraft/config.go] and its copy [shardctrler/config.go], the harnesses of
      the service tests, over the class [Hosted] of what they need of a server.  [ServiceNet]:
      which servers the switches of the network link; [ServiceConfigProps]: the whole life of a
      test, against the laws [HostedLaws]; [ServiceHosts]: both servers keep these laws;
      [HarnessWitness]: runs.
    - [ServiceWitness]: concrete runs of both services; two departures of the controller.
    - [Clerk], [ClerkWitness]: the three clients; they return, and with what.
    - [ShardKV], [ShardKVProps]: [shardkv/server.go], of which there is only the frame, and the
      harness [shardkv/config.go]: names, joining, restarts; it works for groups of three only,
      and the empty handlers never satisfy a clerk.
    - [Bitset]: [porcupine/bitset.go] (its witness is in [ClerkWitness]).
    - [Checker], [CheckerList], [CheckerSound], [CheckerLink], [CheckerProps],
      [CheckerWitness]: [porcupine/checker.go], [model.go], [porcupine.go] with the pointers
      of its linked list; the verdict [Ok] is sound.  [CheckerSearch], [CheckerComplete]: the
      search terminates and its cache loses nothing, so that the verdict decides
      linearizability.  [CheckerInfo], [CheckerPartials]: the verbose entry points, the
      partial linearizations and [computeVisualizationData].  [CheckerKV]: the checker with
      [models/kv.go] as the model.
    - [Labrpc]: [labrpc/labrpc.go]; a call that returns true was executed exactly once, a
      deleted server is silent.
    - [MapReduce]: [mr/worker.go], [main/mrsequential.go], word count and indexer; the driver
      with word count counts words.
    - [MrApps]: the applications of [mrapps] that test a MapReduce, and the stubs of [mr].  The
      output of [crash.go] is that of [nocrash.go] ([crash_output_is_nocrash]), [jobcount.go]
      counts calls ([jobcount_counts_calls]), [nparallel] counts the workers that run at the
      same time ([nparallel_counts]).

    ** What is proved

    The program has defects that the theorems about it must keep clear of.  Machines have all
    the steps of the code; what a run must keep clear of is a predicate on its steps, and runs
    show where the code breaks without it.

    - [sendsInTerm]: no [elect] goroutine sends a request of a later term than its own (else two
      leaders of a term: [two_leaders_reachable]);
    - [soundStep]: also, an installed snapshot describes an entry of some peer, with which the log
      of the peer agrees, and a peer crashes only while the term of its snapshot is the one on
      its disk ([CondInstallSnapshot] does not store the term: [installed_term_lost]);
    - [safeStep]: [sendsInTerm], a leader that moves its commit index moves it to an entry of its own
      term (else committed entries are lost: [committed_entry_lost]), the term of a snapshot is
      on the disk when the peer crashes or sends it, and services take snapshots up to the commit
      index;
    - besides, [lastApplied] is not behind the snapshot, which a restart can bring about
      ([restart_apply_panics]): a hypothesis on the peers that apply, or, in [rsafe] for the
      services, on when [updateApplied] runs.

    Raft: with [sendsInTerm] a cluster elects at most one leader per term, over any losses and
    crashes ([election_safety], [one_vote_per_term]); what is stored survives crashes
    ([crash_recovery]); operations of a well-formed peer with indexes in range return a
    well-formed peer ([node_no_panic]).  With [soundStep] logs match ([log_matching]); with
    [safeStep] an applied entry is in the log of every later leader ([leader_completeness]) and no
    two peers apply different commands at an index ([state_machine_safety]), also after snapshots
    were installed.  The tester: in the tests without snapshots, with [sendsInTerm] and commits of
    the leader's own term, no check of [applier] fails ([tester_accepts]); with [sendsInTerm] no
    test stops about two leaders ([checkOneLeader_never_two]); the
    network of the tester is wired as the tests believe ([tester_network]), a restart keeps what
    was stored ([restart_recovers]), and [one] returns only after an agreement ([one_agreed]).
    In the harnesses of the services a partition of an odd number of servers, at least three,
    isolates the leader with a minority ([kv_partition_isolates]) and a stopped server recovers
    ([kvserver_restart]).
    Services: on a given log, in which clients number their requests in order, the key/value
    service is the sequential one, whatever duplicates the log
    holds, and answers go to the request they belong to.  Commands of the shard controller must be
    in range ([opOk]), and its distributions are even when no Move named a group there is not
    ([ownersKnown], [movesKnown]): [dealMove] checks neither.  The stack: with [rsafe] all servers
    of a cluster follow one growing log
    ([servers_share_log]).  With clerks that try one server after the other, the
    key/value service is linearizable in real time ([kv_linearizable]), and when all calls have
    returned the checker of the tests says so ([checker_accepts_kv]).
    Tools: the checker decides linearizability of histories with at least one partition and its
    output can be visualised; the network's
    at-most-once execution and reply rules; the checks of [labgob] end and complain once.

    ** What is not modelled

    Timing: timers and sleeps only decide which step comes next.  All [*_test.go] but the
    record of calls in [kvraft/test_test.go], the random strings and the seeds of the
    harnesses, the JSON and HTML output of [porcupine/visualization.go], debug output
    ([raft/util.go]), the start of processes and the sockets of [mr] ([mr/worker.go]'s [Worker]
    is empty), and [main/*] of absent labs.  The runs of the tester are those of [applier]; of
    [applierSnap] there is the definition only.  Failures of the file system in [MrApps].
    Overflow of terms, indexes and request numbers ([int], 64 bits). *)
From stdpp Require Export base gmap strings list list_monad numbers option pretty.
From Stdlib Require Export ZArith Lia Ascii.
From Stdlib Require Init.Byte.

Abbreviation byte := Init.Byte.byte.

Declare Scope go_scope.
Delimit Scope go_scope with go.
Open Scope go_scope.
Open Scope Z_scope.

Create HintDb go discriminated.

(** ** Go slices

    A Go [int] used as an index is a [Z]; [None] is the run-time panic
    "index out of range" or "slice bounds out of range". *)
Section slices.
Context {A : Type}.
Implicit Types (l : list A) (i : Z) (x : A).

Definition len l : Z := Z.of_nat (length l).

Definition go_index l i : option A :=
if bool_decide (0 ≤ i) then l !! Z.to_nat i else None.

Definition go_store l i x : option (list A) :=
if bool_decide (0 ≤ i < len l) then Some (<[Z.to_nat i := x]> l) else None.

Definition slice_from l i : option (list A) :=
if bool_decide (0 ≤ i ≤ len l) then Some (drop (Z.to_nat i) l) else None.

Definition slice_to l i : option (list A) :=
if bool_decide (0 ≤ i ≤ len l) then Some (take (Z.to_nat i) l) else None.

(** [copy(dst, src)]: the new contents of [dst] *)
Definition go_copy (dst src : list A) : list A :=
  take (length dst) src ++ drop (length src) dst.

(** [make([]A, n)], with the zero value of [A] *)
Definition go_make (n : Z) (zero : A) : option (list A) :=
  if bool_decide (0 ≤ n) then Some (replicate (Z.to_nat n) zero) else None.
End slices.

#[global] Arguments len : simpl never.
#[global] Arguments go_index : simpl never.
#[global] Arguments go_store : simpl never.
#[global] Arguments slice_from : simpl never.
#[global] Arguments slice_to : simpl never.
#[global] Arguments go_copy : simpl never.
#[global] Arguments go_make : simpl never.

Notation "l .[ i ]" := (go_index l i)
  (at level 1, left associativity, format "l .[ i ]") : go_scope.
Notation "l .[ i '<~' x ]" := (go_store l i x)
  (at level 1, left associativity, format "l .[ i  '<~'  x ]") : go_scope.

(** [for i := from; i < from + n; i++ { s = body(i, s) }], the body may panic. *)
Fixpoint go_for_from {S} (i : Z) (n : nat) (body : Z → S → option S) (s : S) : option S :=
  match n with
  | O => Some s
  | Datatypes.S n => s' ← body i s; go_for_from (i + 1) n body s'
  end.

(** [for i := 0; i < n; i++ { s = body(i, s) }]. *)
Definition go_for {S} (n : nat) (body : Z → S → option S) (s : S) : option S :=
  go_for_from 0 n body s.

(** [for _, x := range l { s = body(x, s) }] for a body that does not panic. *)
Definition go_range {A S} (l : list A) (body : A → S → S) (s : S) : S :=
  foldl (λ s x, body x s) s l.

(** Case analysis on the boolean tests that model the conditions of the code:
    every test in the goal or in a hypothesis becomes its proposition. *)
Ltac bool_prop :=
  repeat match goal with
  | H : context [bool_decide _] |- _ => rewrite bool_decide_eq_true in H
  | H : context [bool_decide _] |- _ => rewrite bool_decide_eq_false in H
  | H : context [_ && _ = true] |- _ => rewrite andb_true_iff in H
  | H : context [_ && _ = false] |- _ => rewrite andb_false_iff in H
  | H : context [_ || _ = true] |- _ => rewrite orb_true_iff in H
  | H : context [_ || _ = false] |- _ => rewrite orb_false_iff in H
  | H : context [negb _ = true] |- _ => rewrite negb_true_iff in H
  | H : context [negb _ = false] |- _ => rewrite negb_false_iff in H
  | H : context [_ >? _] |- _ => rewrite Z.gtb_ltb in H
  | H : context [_ >=? _] |- _ => rewrite Z.geb_leb in H
  | H : context [(_ <? _) = true] |- _ => rewrite Z.ltb_lt in H
  | H : context [(_ <? _) = false] |- _ => rewrite Z.ltb_ge in H
  | H : context [(_ <=? _) = true] |- _ => rewrite Z.leb_le in H
  | H : context [(_ <=? _) = false] |- _ => rewrite Z.leb_gt in H
  | H : context [(_ =? _) = true] |- _ => rewrite Z.eqb_eq in H
  | H : context [(_ =? _) = false] |- _ => rewrite Z.eqb_neq in H
  end.

(** Splits one conditional and normalises its condition. *)
Ltac case_if :=
  match goal with
  | |- context [if ?b then _ else _] => let E := fresh "Hif" in destruct b eqn:E
  | _ : context [if ?b then _ else _] |- _ => let E := fresh "Hif" in destruct b eqn:E
  end; bool_prop.

(** The same for the conditional of one hypothesis. *)
Ltac case_if_in H :=
  match type of H with
  | context [if ?b then _ else _] => let E := fresh "Hif" in destruct b eqn:E
  end; bool_prop.

Section slice_lemmas.
Context {A : Type}.
Implicit Types (l : list A) (i : Z) (x : A).

Lemma len_nonneg l : 0 ≤ len l.
Proof. unfold len; lia. Qed.

Lemma len_app l k : len (l ++ k) = len l + len k.
Proof. unfold len; rewrite length_app; lia. Qed.

Lemma len_cons x l : len (x :: l) = 1 + len l.
Proof. unfold len; simpl; lia. Qed.

Lemma len_snoc l x : len (l ++ [x]) = len l + 1.
Proof. unfold len; rewrite length_app; simpl; lia. Qed.

Lemma len_nil : len (@nil A) = 0.
Proof. done. Qed.

Lemma len_take l i : 0 ≤ i ≤ len l → len (take (Z.to_nat i) l) = i.
Proof. unfold len; rewrite length_take; lia. Qed.

Lemma len_drop l i : 0 ≤ i ≤ len l → len (drop (Z.to_nat i) l) = len l - i.
Proof. unfold len; rewrite length_drop; lia. Qed.

Lemma go_index_nonneg l i : 0 ≤ i → l.[i] = l !! Z.to_nat i.
Proof. intros; unfold go_index; by rewrite bool_decide_true. Qed.

Lemma go_index_of_nat l (n : nat) : l.[Z.of_nat n] = l !! n.
Proof. rewrite go_index_nonneg by lia; by rewrite Nat2Z.id. Qed.

Lemma go_index_Some_lt l i x : l.[i] = Some x → 0 ≤ i < len l.
Proof.
  unfold go_index, len; case_bool_decide; [|done].
  intros ?%lookup_lt_Some; lia.
Qed.

Lemma go_index_lt_Some l i : 0 ≤ i < len l → ∃ x, l.[i] = Some x.
Proof.
  unfold len; intros ?; rewrite go_index_nonneg by lia.
  apply lookup_lt_is_Some; lia.
Qed.

Lemma go_index_is_Some l i : is_Some (l.[i]) ↔ 0 ≤ i < len l.
Proof.
  split; [intros [x ?]; eauto using go_index_Some_lt|].
  intros [x ?]%go_index_lt_Some; eauto.
Qed.

Lemma go_index_None l i : l.[i] = None ↔ ¬ 0 ≤ i < len l.
Proof. rewrite eq_None_not_Some, go_index_is_Some; done. Qed.

Lemma go_index_app_l l k i : i < len l → (l ++ k).[i] = l.[i].
Proof.
  intros; unfold go_index, len in *; case_bool_decide; [|done].
  by rewrite lookup_app_l by lia.
Qed.

Lemma go_index_app_r l k i : len l ≤ i → (l ++ k).[i] = k.[i - len l].
Proof.
  intros; unfold go_index, len in *.
  rewrite !bool_decide_true by lia; rewrite lookup_app_r by lia.
  f_equal; lia.
Qed.

Lemma go_index_cons x l i : 1 ≤ i → (x :: l).[i] = l.[i - 1].
Proof.
  intros; rewrite !go_index_nonneg by lia.
  by replace (Z.to_nat i) with (S (Z.to_nat (i - 1))) by lia.
Qed.

Lemma go_index_drop l i j : 0 ≤ i → 0 ≤ j → (drop (Z.to_nat i) l).[j] = l.[i + j].
Proof.
  intros; unfold go_index; rewrite !bool_decide_true by lia.
  rewrite lookup_drop; f_equal; lia.
Qed.

Lemma go_index_take l i j : 0 ≤ j < i → (take (Z.to_nat i) l).[j] = l.[j].
Proof.
  intros; unfold go_index; rewrite !bool_decide_true by lia.
  rewrite lookup_take_lt by lia; done.
Qed.

Lemma go_store_Some l i x : 0 ≤ i < len l → l.[i <~ x] = Some (<[Z.to_nat i := x]> l).
Proof. intros; unfold go_store; by rewrite bool_decide_true. Qed.

Lemma go_store_inv l i x k :
  l.[i <~ x] = Some k → 0 ≤ i < len l ∧ k = <[Z.to_nat i := x]> l.
Proof. unfold go_store; case_bool_decide; [|done]. by intros [= <-]. Qed.

Lemma len_insert l (n : nat) x : len (<[n := x]> l) = len l.
Proof. unfold len; by rewrite length_insert. Qed.

Lemma go_index_insert_eq l i x : 0 ≤ i < len l → (<[Z.to_nat i := x]> l).[i] = Some x.
Proof.
  unfold len; intros; rewrite go_index_nonneg by lia.
  apply list_lookup_insert_eq; lia.
Qed.

Lemma go_index_insert_ne l i j x : i ≠ j → 0 ≤ i → (<[Z.to_nat i := x]> l).[j] = l.[j].
Proof.
  intros; unfold go_index; case_bool_decide; [|done].
  apply list_lookup_insert_ne; lia.
Qed.

Lemma slice_from_Some l i : 0 ≤ i ≤ len l → slice_from l i = Some (drop (Z.to_nat i) l).
Proof. intros; unfold slice_from; by rewrite bool_decide_true. Qed.

Lemma slice_to_Some l i : 0 ≤ i ≤ len l → slice_to l i = Some (take (Z.to_nat i) l).
Proof. intros; unfold slice_to; by rewrite bool_decide_true. Qed.

Lemma slice_from_inv l i k :
  slice_from l i = Some k → 0 ≤ i ≤ len l ∧ k = drop (Z.to_nat i) l.
Proof. unfold slice_from; case_bool_decide; [|done]. by intros [= <-]. Qed.

Lemma slice_to_inv l i k :
  slice_to l i = Some k → 0 ≤ i ≤ len l ∧ k = take (Z.to_nat i) l.
Proof. unfold slice_to; case_bool_decide; [|done]. by intros [= <-]. Qed.

Lemma go_copy_same_length (dst src : list A) : length dst = length src → go_copy dst src = src.
Proof.
  intros Hlen; unfold go_copy. rewrite <-Hlen, drop_all, take_ge by lia. apply app_nil_r.
Qed.

Lemma go_make_Some n x : 0 ≤ n → go_make n x = Some (replicate (Z.to_nat n) x).
Proof. intros; unfold go_make; by rewrite bool_decide_true. Qed.

Lemma len_pos_ne_nil l : 0 < len l ↔ l ≠ [].
Proof. destruct l; unfold len; simpl; split; try done; lia. Qed.

Lemma go_list_eq l k :
  len l = len k → (∀ i, 0 ≤ i < len l → l.[i] = k.[i]) → l = k.
Proof.
  unfold len; intros Hlen Heq; apply list_eq; intros n.
  destruct (decide (n < length l)%nat) as [Hlt|Hge].
  - specialize (Heq (Z.of_nat n)); rewrite !go_index_of_nat in Heq; apply Heq; lia.
  - rewrite !lookup_ge_None_2 by lia; done.
Qed.
End slice_lemmas.

Create Rewrite HintDb slices.
#[export] Hint Rewrite @len_app @len_cons @len_nil @len_insert : slices.
#[export] Hint Resolve len_nonneg : go.

(** Total-correctness rule for [go_for]: an invariant indexed by the loop counter. *)
Lemma go_for_from_inv {S} (P : Z → S → Prop) (body : Z → S → option S) n i s :
  P i s →
  (∀ j s, i ≤ j < i + Z.of_nat n → P j s → ∃ s', body j s = Some s' ∧ P (j + 1) s') →
  ∃ s', go_for_from i n body s = Some s' ∧ P (i + Z.of_nat n) s'.
Proof.
  revert i s; induction n as [|n IH]; intros i s HP Hbody; simpl.
  { exists s; split; [done|]. by rewrite Z.add_0_r. }
  destruct (Hbody i s) as (s' & -> & HP'); [lia|done|]; simpl.
  destruct (IH (i + 1) s') as (s'' & -> & HP''); [done|intros; apply Hbody; [lia|done]|].
  exists s''; split; [done|].
  by replace (i + Z.of_nat (Datatypes.S n)) with (i + 1 + Z.of_nat n) by lia.
Qed.

Lemma go_for_inv {S} (P : Z → S → Prop) (body : Z → S → option S) n s :
  P 0 s →
  (∀ j s, 0 ≤ j < Z.of_nat n → P j s → ∃ s', body j s = Some s' ∧ P (j + 1) s') →
  ∃ s', go_for n body s = Some s' ∧ P (Z.of_nat n) s'.
Proof. intros; by apply go_for_from_inv. Qed.

(** Partial-correctness rule. *)
Lemma go_for_from_preserves {S} (P : S → Prop) (body : Z → S → option S) n i s s' :
  P s → (∀ j s s', P s → body j s = Some s' → P s') →
  go_for_from i n body s = Some s' → P s'.
Proof.
  intros HP Hbody; revert i s HP; induction n as [|n IH]; intros i s HP; simpl.
  { by intros [= <-]. }
  intros (s1 & Hb & Hrest)%bind_Some. eauto.
Qed.

(** Every round of a loop that ended was run, from a state with the invariant. *)
Lemma go_for_from_call {S} (P : S → Prop) (body : Z → S → option S) n i s s' j :
  P s → (∀ j s s', P s → body j s = Some s' → P s') → go_for_from i n body s = Some s' → i ≤ j < i + Z.of_nat n →
  ∃ s1 s2, P s1 ∧ body j s1 = Some s2.
Proof.
  intros HP Hbody; revert i s HP; induction n as [|n IH]; intros i s HP; [lia|]. simpl.
  intros (s1 & Hb & Hrest)%bind_Some Hj. destruct (decide (j = i)) as [->|]; [by exists s, s1|].
  apply (IH (i + 1) s1); [by eapply Hbody|done|lia].
Qed.

(** A list of length [n] all of whose entries are [x]. *)
Lemma go_index_replicate {A} (n : nat) (x : A) i :
  0 ≤ i < Z.of_nat n → (replicate n x).[i] = Some x.
Proof. intros; rewrite go_index_nonneg by lia. apply lookup_replicate_2; lia. Qed.

Lemma len_replicate {A} (n : nat) (x : A) : len (replicate n x) = Z.of_nat n.
Proof. unfold len; by rewrite length_replicate. Qed.

Lemma go_filled_replicate {A} (n : nat) (x : A) l :
  length l = n → (∀ i, 0 ≤ i < Z.of_nat n → l.[i] = Some x) → l = replicate n x.
Proof.
  intros Hlen Hall; apply go_list_eq; [unfold len; rewrite length_replicate; lia|].
  intros i Hi; unfold len in Hi. rewrite Hall, go_index_replicate by lia. done.
Qed.

(** ** Loops without a bound: [fuel] bounds the iterations a definition looks at, [Running]
    says that the loop has not ended within them, [Panicked] is a run-time panic. *)
Inductive Loop (A : Type) := Returned (a : A) | Running | Panicked.
Arguments Returned {A} _.
Arguments Running {A}.
Arguments Panicked {A}.

#[global] Instance Loop_ret : MRet Loop := @Returned.
#[global] Instance Loop_bind : MBind Loop := λ A B f m,
  match m with Returned a => f a | Running => Running | Panicked => Panicked end.

(** [for _, x := range l { s = body(x, s) }] for a body that may panic or not return. *)
Fixpoint go_each {A S} (body : A → S → Loop S) (l : list A) (s : S) : Loop S :=
  match l with
  | [] => Returned s
  | x :: l => s ← body x s; go_each body l s
  end.

Lemma go_each_app {A S} (body : A → S → Loop S) l k s :
  go_each body (l ++ k) s = (s ← go_each body l s; go_each body k s).
Proof.
  revert s. induction l as [|x l IH]; intros s; [done|]. simpl. destruct (body x s); simpl; [apply IH|done..].
Qed.

Lemma go_each_flat_map {A B S} (body : B → S → Loop S) (f : A → list B) l s :
  go_each body (flat_map f l) s = go_each (λ x, go_each body (f x)) l s.
Proof.
  revert s. induction l as [|x l IH]; intros s; [done|]. simpl. rewrite go_each_app.
  destruct (go_each body (f x) s); simpl; [apply IH|done..].
Qed.

Lemma go_each_ext {A S} (body body' : A → S → Loop S) l s :
  (∀ x s, x ∈ l → body x s = body' x s) → go_each body l s = go_each body' l s.
Proof.
  revert s. induction l as [|x l IH]; intros s H; [done|]. simpl. rewrite H by (by left).
  destruct (body' x s); simpl; [apply IH|done..]. intros y s' Hy. apply H. by right.
Qed.

(** ** [fmt.Sprint] on integers is decimal printing; a separator that is not a
    digit keeps the printed fields apart. *)
Definition Sprint (z : Z) : string := pretty z.

Fixpoint no_char (c : Ascii.ascii) (s : string) : Prop :=
  match s with
  | EmptyString => True
  | String d s => d ≠ c ∧ no_char c s
  end.

Lemma no_char_pretty_N_go c x s :
  (∀ d, pretty_N_char d ≠ c) → no_char c s → no_char c (pretty_N_go x s).
Proof.
  intros Hc. revert s; induction (N.lt_wf_0 x) as [x _ IH]; intros s Hs.
  assert (x = 0 ∨ 0 < x)%N as [->|?] by lia; [by rewrite pretty_N_go_0|].
  rewrite pretty_N_go_step by done. apply IH; [by apply N.div_lt|]. by split.
Qed.

Lemma no_char_pretty_pos c (p : positive) : (∀ d, pretty_N_char d ≠ c) → no_char c (pretty p).
Proof.
  intros Hc. unfold pretty, pretty_positive, pretty, pretty_N.
  case_decide; [done|]. by apply no_char_pretty_N_go.
Qed.

Lemma no_comma_Sprint z : no_char ","%char (Sprint z).
Proof.
  assert (∀ d, pretty_N_char d ≠ ","%char) as Hc by (intros d; unfold pretty_N_char; by repeat case_match).
  destruct z as [|p|p]; [done|by apply no_char_pretty_pos|]. split; [done|by apply no_char_pretty_pos].
Qed.

(** The sign is in front of negative numbers only. *)
Lemma no_dash_Sprint z : 0 ≤ z → no_char "-"%char (Sprint z).
Proof.
  assert (∀ d, pretty_N_char d ≠ "-"%char) as Hc by (intros d; unfold pretty_N_char; by repeat case_match).
  intros Hz. destruct z as [|p|p]; [done|by apply no_char_pretty_pos|lia].
Qed.

Lemma no_char_app_inj c s1 s2 t1 t2 :
  no_char c s1 → no_char c s2 →
  s1 +:+ String c t1 = s2 +:+ String c t2 → s1 = s2 ∧ t1 = t2.
Proof.
  revert s2; induction s1 as [|d s1 IH]; intros [|e s2] H1 H2 Heq;
    simpl in *; simplify_eq/=; try naive_solver.
Qed.

(** [go_inv] inverts every hypothesis that says a computation returned: it splits
    binds, conditionals and pairs until only facts about the basic operations remain. *)
Ltac go_inv_step :=
  match goal with
  | H : Some _ = Some _ |- _ => injection H as H; subst
  | H : (_, _) = (_, _) |- _ => injection H as H; subst
  | H : None = Some _ |- _ => discriminate H
  | H : Some _ = None |- _ => discriminate H
  | H : go_store _ _ _ = Some _ |- _ =>
      let Hr := fresh "Hr" in apply go_store_inv in H as [Hr H]; subst
  | H : slice_from _ _ = Some _ |- _ =>
      let Hr := fresh "Hr" in apply slice_from_inv in H as [Hr H]; subst
  | H : slice_to _ _ = Some _ |- _ =>
      let Hr := fresh "Hr" in apply slice_to_inv in H as [Hr H]; subst
  | H : mbind _ _ = Some _ |- _ =>
      let x := fresh "x" in let Hx := fresh "Hx" in
      apply bind_Some in H as (x & Hx & H)
  | H : (let '(_, _) := ?p in _) = Some _ |- _ => destruct p
  | H : (if ?b then _ else _) = Some _ |- _ =>
      let E := fresh "Hif" in destruct b eqn:E
  | H : match ?o with Some _ => _ | None => _ end = Some _ |- _ =>
      let E := fresh "Hopt" in destruct o eqn:E
  end.
Ltac go_inv := repeat (progress (repeat go_inv_step; simpl in * )).
