(* ===== verification/Utf8.v ===== *)
(** UTF-8 as Go's standard library decodes it: [utf8.DecodeRuneInString], on which
    [labgob/labgob.go] calls [unicode.IsUpper], and the range over a string and
    [strings.FieldsFunc], with which [mrapps/wc.go] and [mrapps/indexer.go] find words.

    A string is its bytes.  Bytes that are not the encoding of a rune count one by one, each as
    [RuneError]. *)
From S2P Require Import Prelude.
#[local] Open Scope Z_scope.

Definition RuneError : Z := 0xFFFD.

Definition continuation (lo hi : Z) (b : Z) : bool := (lo <=? b) && (b <=? hi).

(** The first rune and the number of its bytes. *)
Definition decode (bs : list Z) : Z * nat :=
  match bs with
  | [] => (RuneError, 0%nat)
  | b0 :: rest =>
      if b0 <? 0x80 then (b0, 1%nat) else
      match rest with
      | b1 :: rest' =>
          if (0xC2 <=? b0) && (b0 <=? 0xDF) then
            if continuation 0x80 0xBF b1
            then (Z.lor (Z.shiftl (Z.land b0 0x1F) 6) (Z.land b1 0x3F), 2%nat) else (RuneError, 1%nat)
          else
          match rest' with
          | b2 :: rest'' =>
              if (0xE0 <=? b0) && (b0 <=? 0xEF) then
                if continuation (if b0 =? 0xE0 then 0xA0 else 0x80) (if b0 =? 0xED then 0x9F else 0xBF) b1
                   && continuation 0x80 0xBF b2
                then (Z.lor (Z.shiftl (Z.land b0 0x0F) 12) (Z.lor (Z.shiftl (Z.land b1 0x3F) 6) (Z.land b2 0x3F)), 3%nat)
                else (RuneError, 1%nat)
              else
              match rest'' with
              | b3 :: _ =>
                  if (0xF0 <=? b0) && (b0 <=? 0xF4)
                     && continuation (if b0 =? 0xF0 then 0x90 else 0x80) (if b0 =? 0xF4 then 0x8F else 0xBF) b1
                     && continuation 0x80 0xBF b2 && continuation 0x80 0xBF b3
                  then (Z.lor (Z.shiftl (Z.land b0 0x07) 18)
                         (Z.lor (Z.shiftl (Z.land b1 0x3F) 12) (Z.lor (Z.shiftl (Z.land b2 0x3F) 6) (Z.land b3 0x3F))), 4%nat)
                  else (RuneError, 1%nat)
              | [] => (RuneError, 1%nat)
              end
          | [] => (RuneError, 1%nat)
          end
      | [] => (RuneError, 1%nat)
      end
  end.

Definition DecodeRune (bs : list Z) : Z := (decode bs).1.

Definition byteOf (c : ascii) : Z := Z.of_nat (nat_of_ascii c).

Definition DecodeRuneInString (s : string) : Z := DecodeRune (map byteOf (String.list_ascii_of_string s)).

(** The range over a string: its runes, each with its bytes. *)
Fixpoint runesFrom (fuel : nat) (s : list ascii) : list (Z * list ascii) :=
  match fuel, s with
  | S fuel, _ :: _ => let '(r, width) := decode (map byteOf s) in (r, take width s) :: runesFrom fuel (drop width s)
  | _, _ => []
  end.

Definition runes (s : list ascii) : list (Z * list ascii) := runesFrom (length s) s.

(** [strings.FieldsFunc]: [word] is the field that has been started. *)
Fixpoint fieldsFrom (f : Z → bool) (word : list ascii) (rs : list (Z * list ascii)) : list (list ascii) :=
  let flush := match word with [] => [] | _ => [word] end in
  match rs with
  | [] => flush
  | (r, bytes) :: rs => if f r then flush ++ fieldsFrom f [] rs else fieldsFrom f (word ++ bytes) rs
  end.

Definition FieldsFunc (s : string) (f : Z → bool) : list string :=
  map String.string_of_list_ascii (fieldsFrom f [] (runes (String.list_ascii_of_string s))).

(** [unicode.IsLetter]: the letters of Latin-1; the table of those after it is an argument. *)
Definition IsLetter (table : Z → bool) (r : Z) : bool :=
  if r <=? 0xFF then
    continuation 0x41 0x5A r || continuation 0x61 0x7A r || (r =? 0xAA) || (r =? 0xB5) || (r =? 0xBA)
    || continuation 0xC0 0xD6 r || continuation 0xD8 0xF6 r || continuation 0xF8 0xFF r
  else table r.

(** ** What the range and the fields are *)
Lemma decode_width bs : bs ≠ [] → (1 ≤ (decode bs).2)%nat.
Proof. intros H. unfold decode. repeat (case_match; simpl; try done; try lia). Qed.

(** No byte gets lost. *)
Lemma runesFrom_bytes fuel s : (length s ≤ fuel)%nat → concat (map snd (runesFrom fuel s)) = s.
Proof.
  revert s. induction fuel as [|fuel IH]; intros [|c s] Hf; simpl in Hf; [done|lia|done|].
  cbn [runesFrom]. pose proof (decode_width (map byteOf (c :: s)) ltac:(done)) as Hw.
  destruct (decode (map byteOf (c :: s))) as [r width]. cbn [snd fst] in Hw. cbn [map concat snd].
  rewrite IH; [apply take_drop|]. rewrite length_drop. simpl. lia.
Qed.

Lemma runes_bytes s : concat (map snd (runes s)) = s.
Proof. by apply runesFrom_bytes. Qed.

Lemma runesFrom_nonempty fuel s : Forall (λ r, r.2 ≠ []) (runesFrom fuel s).
Proof.
  revert s. induction fuel as [|fuel IH]; intros [|c s]; try constructor. cbn [runesFrom].
  pose proof (decode_width (map byteOf (c :: s)) ltac:(done)) as Hw.
  destruct (decode (map byteOf (c :: s))) as [r width]. cbn [snd fst] in Hw. constructor; [|done].
  simpl. by destruct width; [lia|].
Qed.

(** The fields are the runes that are not separators: taken together, all of them, in order;
    each alone, some of them, and at least one. *)
Lemma fieldsFrom_concat f word rs :
  concat (fieldsFrom f word rs) = word ++ concat (map snd (filter (λ r, f r.1 = false) rs)).
Proof.
  revert word. induction rs as [|[r bytes] rs IH]; intros word; simpl.
  - by destruct word; simpl; rewrite ?app_nil_r.
  - destruct (f r) eqn:Hr.
    + rewrite concat_app, IH, filter_cons_False by (simpl; congruence).
      by destruct word; simpl; rewrite ?app_nil_r.
    + rewrite IH, filter_cons_True by done. simpl. by rewrite app_assoc.
Qed.

Definition madeOf (f : Z → bool) (rs : list (Z * list ascii)) (w : list ascii) : Prop :=
  ∃ part, w = concat (map snd part) ∧ part ⊆ rs ∧ part ≠ [] ∧ Forall (λ r, f r.1 = false) part.

Lemma fieldsFrom_made f rs0 rs word :
  rs ⊆ rs0 → Forall (λ r, r.2 ≠ []) rs → (word = [] ∨ madeOf f rs0 word) →
  Forall (madeOf f rs0) (fieldsFrom f word rs).
Proof.
  revert word. induction rs as [|[r bytes] rs IH]; intros word Hsub Hne Hword; simpl.
  - destruct Hword as [->|Hw]; [constructor|]. destruct word; by repeat constructor.
  - apply Forall_cons in Hne as [Hb Hne]. simpl in Hb. destruct (f r) eqn:Hr.
    + apply Forall_app. split; [|by apply IH; [set_solver| |left]].
      destruct Hword as [->|Hw]; [constructor|]. destruct word; by repeat constructor.
    + apply IH; [set_solver|done|]. right. assert ((r, bytes) ∈ rs0) by set_solver.
      destruct Hword as [->|(part & -> & Hp & _ & Hf)].
      * exists [(r, bytes)]. split_and!; [simpl; by rewrite app_nil_r|set_solver|done|by repeat constructor].
      * exists (part ++ [(r, bytes)]). split_and!; [by rewrite map_app, concat_app; simpl; rewrite app_nil_r|set_solver| |].
        -- by destruct part.
        -- apply Forall_app. split; [done|by repeat constructor].
Qed.

(** The words of a text, on which the MapReduce applications agree. *)
Theorem FieldsFunc_spec s f :
  let rs := runes (String.list_ascii_of_string s) in
  let fields := map String.list_ascii_of_string (FieldsFunc s f) in
  concat fields = concat (map snd (filter (λ r, f r.1 = false) rs)) ∧ Forall (madeOf f rs) fields.
Proof.
  simpl. unfold FieldsFunc. rewrite map_map.
  rewrite (map_ext _ id); [|intros; apply String.list_ascii_of_string_of_list_ascii]. rewrite map_id. split.
  - apply fieldsFrom_concat.
  - apply fieldsFrom_made; [done|apply runesFrom_nonempty|by left].
Qed.
