(* ===== verification/Labgob.v ===== *)
(** The gob codec as an interface.

    [labgob.LabEncoder.Encode] and [labgob.LabDecoder.Decode] hand every value to
    [encoding/gob], which is not part of the repository; what the repository relies
    on is the class [Gob]: a value that was encoded is read back from the front of the
    stream, the rest of the stream is left for the next [Decode], every encoded value
    takes at least one byte, and [Decode] at the end of the stream is an error.
    [SampleGob] gives a concrete codec with these laws. *)
From S2P Require Import Prelude.
#[local] Open Scope Z_scope.

Class Gob (A : Type) := {
  gob_enc : A → list byte;
  gob_dec : list byte → option (A * list byte);
  gob_dec_enc : ∀ a rest, gob_dec (gob_enc a ++ rest) = Some (a, rest);
  gob_enc_nonempty : ∀ a, gob_enc a ≠ [];
  gob_dec_nil : gob_dec [] = None;
}.

Lemma gob_dec_enc_last `{Gob A} (a : A) : gob_dec (gob_enc a) = Some (a, []).
Proof. rewrite <-(app_nil_r (gob_enc a)). apply gob_dec_enc. Qed.

(** A concrete codec: unary numbers, length-prefixed lists. *)
Module SampleGob.
Import Init.Byte.

Definition nat_enc (n : nat) : list byte := replicate n x01 ++ [x00].

Fixpoint nat_dec (l : list byte) : option (nat * list byte) :=
  match l with
  | [] => None
  | x01 :: l => '(n, rest) ← nat_dec l; Some (S n, rest)
  | _ :: l => Some (O, l)
  end.

Lemma nat_dec_enc n rest : nat_dec (nat_enc n ++ rest) = Some (n, rest).
Proof.
  unfold nat_enc; induction n as [|n IH]; [done|].
  simpl. by rewrite IH.
Qed.

Lemma nat_enc_nonempty n : nat_enc n ≠ [].
Proof. by destruct n. Qed.

#[export] Program Instance gob_nat : Gob nat :=
  {| gob_enc := nat_enc; gob_dec := nat_dec |}.
Next Obligation. apply nat_dec_enc. Qed.
Next Obligation. apply nat_enc_nonempty. Qed.
Next Obligation. done. Qed.

(** Transport along an injection with a partial inverse. *)
Program Definition gob_iso `{Gob A} {B} (f : B → A) (g : A → B) (Hgf : ∀ b, g (f b) = b) :
  Gob B :=
  {| gob_enc b := gob_enc (f b); gob_dec l := '(a, rest) ← gob_dec l; Some (g a, rest) |}.
Next Obligation. intros. simpl. rewrite gob_dec_enc. simpl. by rewrite Hgf. Qed.
Next Obligation. intros. apply gob_enc_nonempty. Qed.
Next Obligation. intros. simpl. by rewrite gob_dec_nil. Qed.

#[export] Program Instance gob_pair `{Gob A, Gob B} : Gob (A * B) :=
  {| gob_enc p := gob_enc p.1 ++ gob_enc p.2;
     gob_dec l := '(a, l) ← gob_dec l; '(b, l) ← gob_dec l; Some ((a, b), l) |}.
Next Obligation.
  intros A ? B ? [a b] rest; simpl.
  rewrite <-app_assoc, gob_dec_enc; simpl. by rewrite gob_dec_enc.
Qed.
Next Obligation.
  intros A ? B ? [a b]; simpl; intros [? ?]%app_eq_nil. by eapply gob_enc_nonempty.
Qed.
Next Obligation. intros; simpl. by rewrite gob_dec_nil. Qed.

Fixpoint list_dec `{Gob A} (n : nat) (l : list byte) : option (list A * list byte) :=
  match n with
  | O => Some ([], l)
  | S n => '(a, l) ← gob_dec l; '(k, l) ← list_dec n l; Some (a :: k, l)
  end.

Lemma list_dec_enc `{Gob A} (k : list A) rest :
  list_dec (length k) (concat (map gob_enc k) ++ rest) = Some (k, rest).
Proof.
  induction k as [|a k IH]; [done|]; simpl.
  rewrite <-app_assoc, gob_dec_enc; simpl. by rewrite IH.
Qed.

#[export] Program Instance gob_list `{Gob A} : Gob (list A) :=
  {| gob_enc k := nat_enc (length k) ++ concat (map gob_enc k);
     gob_dec l := '(n, l) ← nat_dec l; list_dec n l |}.
Next Obligation.
  intros; simpl. rewrite <-app_assoc, nat_dec_enc; simpl. apply list_dec_enc.
Qed.
Next Obligation. intros A ? a; simpl. by destruct a. Qed.
Next Obligation. done. Qed.

Definition Z_code (z : Z) : nat * nat := if z <? 0 then (1%nat, Z.to_nat (- z)) else (O, Z.to_nat z).
Definition Z_decode (p : nat * nat) : Z :=
  match p.1 with O => Z.of_nat p.2 | _ => - Z.of_nat p.2 end.
Lemma Z_decode_code z : Z_decode (Z_code z) = z.
Proof. unfold Z_code; case_if; unfold Z_decode; simpl; lia. Qed.
#[export] Instance gob_Z : Gob Z := gob_iso Z_code Z_decode Z_decode_code.

Definition option_code {A} (o : option A) : list A := match o with Some a => [a] | None => [] end.
#[export] Instance gob_option `{Gob A} : Gob (option A) :=
  gob_iso option_code head (λ o, ltac:(by destruct o)).

Definition string_code (s : string) : list nat :=
  map nat_of_ascii (String.list_ascii_of_string s).
Definition string_decode (l : list nat) : string :=
  String.string_of_list_ascii (map ascii_of_nat l).
Lemma string_decode_code s : string_decode (string_code s) = s.
Proof.
  unfold string_decode, string_code.
  rewrite map_map, (map_ext _ id), map_id by apply ascii_nat_embedding.
  apply String.string_of_list_ascii_of_string.
Qed.
#[export] Instance gob_string : Gob string :=
  gob_iso string_code string_decode string_decode_code.

#[export] Instance gob_gmap `{Countable K, Gob (list (K * V))} : Gob (gmap K V) :=
  gob_iso map_to_list list_to_map (list_to_map_to_list (M := gmap K)).
End SampleGob.
