(* ===== verification/LabgobCheck.v ===== *)
(** Model of [src/src/labgob/labgob.go]: the wrapper around [encoding/gob] that warns about
    field names that [gob] would leave out ([checkType]) and about decoding into memory that
    is not at its default values ([checkDefault]).

    [reflect.Type] values are identities in a table, so that recursive types are cyclic
    there; pointers of [reflect.Value] are addresses in a heap, which has a value at each
    address, so that values may be cyclic as well.  The three global variables are the record [Checks], the lines printed
    included.  [unicode.IsUpper] is an argument. *)
From S2P Require Import Prelude Utf8 Labgob.
From stdpp Require Import fin_maps fin_sets relations.
From Stdlib Require Import Floats.SpecFloat.
#[local] Open Scope Z_scope.

(** ** Types and values as [reflect] shows them *)
Abbreviation TypeId := nat (only parsing).
Abbreviation Address := nat (only parsing).

Inductive TypeShape :=
  | TStruct (fields : list (string * TypeId))
  | TSlice (elem : TypeId)
  | TArray (n : Z) (elem : TypeId)
  | TPtr (elem : TypeId)
  | TMap (key elem : TypeId)
  | TOther.

Record GoType := mkGoType { t_Name : string; t_shape : TypeShape }.

Inductive Basic := BBool (b : bool) | BInt (z : Z) | BFloat (f : spec_float) | BString (s : string).

Record FieldInfo := mkField { f_Name : string; f_Embedded : bool }.

Inductive Value :=
  | VStruct (fields : list (FieldInfo * Value))
  | VPtr (target : option Address)
  | VBasic (tname : string) (b : Basic)
  | VOther.

(** [reflect.DeepEqual(reflect.Zero(t).Interface(), ...)] on a basic value. *)
Definition isZero (b : Basic) : bool :=
  match b with
  | BBool b => negb b
  | BInt z => z =? 0
  | BFloat f => SFeqb f (S754_zero false)
  | BString s => String.eqb s ""
  end.

(** The bits of a [reflect.Value] that say it came from a field that is not exported. *)
Record RO := mkRO { stickyRO : bool; embedRO : bool }.

(** ** The state and what is printed *)
Inductive Message := LowerCase (field type : string) | NonDefault (what : string).

Record Checks := mkChecks {
  errorCount : Z;
  checked : gset TypeId;
  printed : list Message }.

Definition complain (m : Message) (s : Checks) : Checks :=
  mkChecks (errorCount s + 1) (checked s) (printed s ++ [m]).
Definition mark (t : TypeId) (s : Checks) : Checks :=
  mkChecks (errorCount s) ({[t]} ∪ checked s) (printed s).

Section labgob.
Context (IsUpper : Z → bool) (types : gmap TypeId GoType).

Definition capital (name : string) : bool := IsUpper (DecodeRuneInString name).

Fixpoint checkType (fuel : nat) (t : TypeId) (s : Checks) : Loop Checks :=
  match fuel with
  | O => Running
  | S fuel =>
    match types !! t with
    | None => Panicked
    | Some d =>
        if bool_decide (t ∈ checked s) then Returned s else
        let s := mark t s in
        match t_shape d with
        | TStruct fields =>
            go_each (λ f s,
              let s := if negb (capital f.1) then complain (LowerCase f.1 (t_Name d)) s else s in
              checkType fuel f.2 s) fields s
        | TSlice elem | TArray _ elem | TPtr elem => checkType fuel elem s
        | TMap key elem => s ← checkType fuel elem s; checkType fuel key s
        | TOther => Returned s
        end
    end
  end.

(** [reflect.TypeOf(value)]; the type of a nil interface has no [Kind]. *)
Definition checkValue (fuel : nat) (typeOf : option TypeId) (s : Checks) : Loop Checks :=
  match typeOf with Some t => checkType fuel t s | None => Panicked end.

(** [Value.Field], the bits of the field *)
Definition fieldRO (f : FieldInfo) (ro : RO) : RO :=
  if capital (f_Name f) then mkRO (stickyRO ro) false
  else if f_Embedded f then mkRO (stickyRO ro) true
  else mkRO true false.

(** [Value.Interface] *)
Definition canInterface (ro : RO) : bool := negb (stickyRO ro || embedRO ro).

Definition fieldName (name : string) (f : FieldInfo) : string :=
  if negb (String.eqb name "") then (name +:+ "." +:+ f_Name f)%string else f_Name f.

Section values.
Context (heap : Address → Value).

Fixpoint checkDefault1 (fuel : nat) (value : Value) (ro : RO) (depth : Z) (name : string) (s : Checks) : Loop Checks :=
  match fuel with
  | O => Running
  | S fuel =>
    if depth >? 3 then Returned s else
    match value with
    | VStruct fields =>
        go_each (λ f s,
          checkDefault1 fuel f.2 (fieldRO f.1 ro) (depth + 1) (fieldName name f.1) s) fields s
    | VPtr None => Returned s
    | VPtr (Some a) =>
        checkDefault1 fuel (heap a) ro (depth + 1) name s
    | VBasic tname b =>
        if negb (canInterface ro) then Panicked else
        if negb (isZero b) then
          let what := if String.eqb name "" then tname else name in
          Returned (if errorCount s <? 1 then complain (NonDefault what) s
                    else mkChecks (errorCount s + 1) (checked s) (printed s))
        else Returned s
    | VOther => Returned s
    end
  end.

Definition checkDefault (fuel : nat) (value : option Value) (s : Checks) : Loop Checks :=
  match value with
  | None => Returned s
  | Some v => checkDefault1 fuel v (mkRO false false) 1 "" s
  end.
End values.

(** ** The wrappers *)
Section coders.
Context `{Gob A}.

(** The writer of an encoder and the reader of a decoder are buffers. *)
Definition Encode (fuel : nat) (typeOf : option TypeId) (e : A) (w : list byte) (s : Checks) :
    Loop (Checks * list byte) :=
  s ← checkValue fuel typeOf s; Returned (s, w ++ gob_enc e).

(** [value.Interface()] first: a value from a field that is not exported panics. *)
Definition EncodeValue (fuel : nat) (ro : RO) (typeOf : option TypeId) (e : A) (w : list byte) (s : Checks) :
    Loop (Checks * list byte) :=
  if negb (canInterface ro) then Panicked else
  s ← checkValue fuel typeOf s; Returned (s, w ++ gob_enc e).

Definition Decode (heap : Address → Value) (fuel : nat) (typeOf : option TypeId) (e : option Value)
    (r : list byte) (s : Checks) : Loop (Checks * option (A * list byte)) :=
  s ← checkValue fuel typeOf s; s ← checkDefault heap fuel e s; Returned (s, gob_dec r).
End coders.

(** [gob.Register] and [gob.RegisterName] change a table of [encoding/gob]. *)
Definition Register {G} (gobRegister : TypeId → G → G) (fuel : nat) (typeOf : option TypeId) (s : Checks) (g : G) :
    Loop (Checks * G) :=
  match typeOf with
  | Some t => s ← checkType fuel t s; Returned (s, gobRegister t g)
  | None => Panicked
  end.

Definition RegisterName {G} (gobRegisterName : string → TypeId → G → G) (name : string) (fuel : nat)
    (typeOf : option TypeId) (s : Checks) (g : G) : Loop (Checks * G) :=
  match typeOf with
  | Some t => s ← checkType fuel t s; Returned (s, gobRegisterName name t g)
  | None => Panicked
  end.
End labgob.
