(* ===== verification/LabgobProps.v ===== *)
(** What [labgob] checks: every type that can be reached from a value's type is complained
    about once, whatever cycles the types have; the default check counts exactly the
    non-default values within its depth; a decode into a fresh variable after an encode is
    silent and gives the value back; a field that is not exported makes [Decode] panic. *)
From S2P Require Import Prelude Labgob LabgobCheck.
From stdpp Require Import fin_maps fin_sets relations.
#[local] Open Scope Z_scope.

Section types.
Context (IsUpper : Z → bool) (types : gmap TypeId GoType).

(** The types a type is made of. *)
Definition parts (d : GoType) : list TypeId :=
  match t_shape d with
  | TStruct fields => map snd fields
  | TSlice e | TArray _ e | TPtr e => [e]
  | TMap k e => [e; k]
  | TOther => []
  end.

Definition refersTo (t u : TypeId) : Prop := ∃ d, types !! t = Some d ∧ u ∈ parts d.

(** The table holds every type that it mentions. *)
Definition tableOk : Prop := ∀ t u, refersTo t u → is_Some (types !! u).

(** The lines a type earns. *)
Definition complaintsOf (d : GoType) : list Message :=
  match t_shape d with
  | TStruct fields =>
      map (λ f, LowerCase f.1 (t_Name d)) (filter (λ f, capital IsUpper f.1 = false) fields)
  | _ => []
  end.

Definition complaints (t : TypeId) : list Message :=
  match types !! t with Some d => complaintsOf d | None => [] end.

Lemma complaints_none new : (∀ u, u ∈ new → complaints u = []) → flat_map complaints new = [].
Proof using Type.
  induction new as [|u new IH]; intros H; [done|]. simpl. rewrite H by (by left). apply IH.
  intros v Hv. apply H. by right.
Qed.

(** From [s] to [s'] the checks worked off the types [us], where [own] lines belong to a type
    that was marked before. *)
Definition explored (s : Checks) (us : list TypeId) (own : list Message) (s' : Checks) : Prop :=
  ∃ new out, NoDup new ∧ checked s' = checked s ∪ list_to_set new ∧
    (∀ u, u ∈ new → u ∉ checked s) ∧ (∀ u, u ∈ us → u ∈ checked s') ∧
    (∀ u, u ∈ new → ∃ r, r ∈ us ∧ rtc refersTo r u) ∧
    (∀ u v, u ∈ new → refersTo u v → v ∈ checked s') ∧
    printed s' = printed s ++ out ∧ out ≡ₚ own ++ flat_map complaints new ∧
    errorCount s' = errorCount s + len out.

Lemma explored_nil s : explored s [] [] s.
Proof using Type.
  exists [], []. split_and!; try done; try set_solver.
  - constructor.
  - by rewrite app_nil_r.
  - rewrite len_nil. lia.
Qed.

Lemma explored_complain s m : explored s [] [m] (complain m s).
Proof using Type.
  exists [], [m]. split_and!; try done; try set_solver. constructor.
Qed.

Lemma explored_seen s t : t ∈ checked s → explored s [t] [] s.
Proof using Type.
  intros Ht. exists [], []. split_and!; try done; try set_solver.
  - constructor.
  - by rewrite app_nil_r.
  - rewrite len_nil. lia.
Qed.

Lemma explored_app s us own s1 vs own' s2 :
  explored s us own s1 → explored s1 vs own' s2 → explored s (us ++ vs) (own ++ own') s2.
Proof using Type.
  intros (n1 & o1 & Hnd1 & Hc1 & Hf1 & Hu1 & Hr1 & Hcl1 & Hp1 & Ho1 & He1).
  intros (n2 & o2 & Hnd2 & Hc2 & Hf2 & Hu2 & Hr2 & Hcl2 & Hp2 & Ho2 & He2).
  exists (n1 ++ n2), (o1 ++ o2). split_and!.
  - apply NoDup_app. split_and!; [done| |done]. intros u H1 H2. apply (Hf2 u H2). set_solver.
  - rewrite Hc2, Hc1, list_to_set_app_L. set_solver.
  - intros u [H|H]%elem_of_app; [by apply Hf1|]. specialize (Hf2 u H). set_solver.
  - intros u [H|H]%elem_of_app; [|by apply Hu2]. rewrite Hc2. specialize (Hu1 u H). set_solver.
  - intros u [H|H]%elem_of_app;
      [destruct (Hr1 u H) as (r & ? & ?)|destruct (Hr2 u H) as (r & ? & ?)]; exists r; set_solver.
  - intros u v [H|H]%elem_of_app Hv; [|by eapply Hcl2]. rewrite Hc2. specialize (Hcl1 u v H Hv). set_solver.
  - by rewrite Hp2, Hp1, app_assoc.
  - rewrite Ho1, Ho2, flat_map_app. solve_Permutation.
  - rewrite He2, He1, len_app. lia.
Qed.

(** Marking a type and working off its parts works off the type. *)
Lemma explored_mark s t d s' :
  types !! t = Some d → t ∉ checked s → explored (mark t s) (parts d) (complaintsOf d) s' →
  explored s [t] [] s'.
Proof using Type.
  intros Hd Ht (new & out & Hnd & Hc & Hf & Hu & Hr & Hcl & Hp & Ho & He). simpl in *.
  exists (t :: new), out. split_and!.
  - constructor; [|done]. intros Hin. apply (Hf t Hin). set_solver.
  - rewrite Hc. set_solver.
  - intros u [->|H]%elem_of_cons; [done|]. specialize (Hf u H). set_solver.
  - intros u ->%list_elem_of_singleton. rewrite Hc. set_solver.
  - intros u [->|H]%elem_of_cons; exists t; (split; [by left|]); [done|].
    destruct (Hr u H) as (r & Hin & Hpath). apply rtc_l with r; [|done]. by exists d.
  - intros u v [->|H]%elem_of_cons Hv; [|by eapply Hcl].
    destruct Hv as (d' & Hd' & Hin). apply Hu. congruence.
  - done.
  - rewrite Ho. simpl. unfold complaints at 2. by rewrite Hd.
  - done.
Qed.

Lemma explored_grows s us own s' : explored s us own s' → checked s ⊆ checked s'.
Proof using Type. intros (new & out & _ & -> & _). set_solver. Qed.

(** How many types of the table have not been checked. *)
Definition unchecked (s : Checks) : nat := size (dom types ∖ checked s).

Lemma unchecked_grows s s' : checked s ⊆ checked s' → (unchecked s' ≤ unchecked s)%nat.
Proof using Type. intros H. unfold unchecked. apply subseteq_size. set_solver. Qed.

Lemma unchecked_mark s t : is_Some (types !! t) → t ∉ checked s → (unchecked (mark t s) < unchecked s)%nat.
Proof using Type.
  intros Ht%elem_of_dom Hn. unfold unchecked. apply subset_size. simpl. set_solver.
Qed.

Lemma checkType_explores fuel : ∀ t s,
  tableOk → is_Some (types !! t) → (unchecked s < fuel)%nat →
  ∃ s', checkType IsUpper types fuel t s = Returned s' ∧ explored s [t] [] s'.
Proof using Type.
  induction fuel as [|fuel IH]; intros t s Hok [d Hd] Hfuel; [lia|]. simpl. rewrite Hd.
  case_bool_decide as Ht; [by eauto using explored_seen|].
  pose proof (unchecked_mark s t (mk_is_Some _ _ Hd) Ht) as Hmark.
  assert (∀ u s1, u ∈ parts d → checked (mark t s) ⊆ checked s1 →
    ∃ s2, checkType IsUpper types fuel u s1 = Returned s2 ∧ explored s1 [u] [] s2) as Hpart.
  { intros u s1 Hu Hs1%unchecked_grows. apply IH; [done| |lia]. apply (Hok t). by exists d. }
  enough (∃ s', match t_shape d with
      | TStruct fields => go_each (λ f s, let s := if negb (capital IsUpper f.1) then complain (LowerCase f.1 (t_Name d)) s else s in
              checkType IsUpper types fuel f.2 s) fields (mark t s)
      | TSlice elem | TArray _ elem | TPtr elem => checkType IsUpper types fuel elem (mark t s)
      | TMap key elem => s ← checkType IsUpper types fuel elem (mark t s); checkType IsUpper types fuel key s
      | TOther => Returned (mark t s) end = Returned s' ∧ explored (mark t s) (parts d) (complaintsOf d) s')
    as (s' & Hrun & Hs'); [by eauto using explored_mark|].
  unfold parts, complaintsOf in *. destruct (t_shape d) as [fields|e|n e|e|k e|].
  - clear Hmark Hd Hfuel. revert Hpart. generalize (mark t s). clear Ht.
    induction fields as [|f fields IHf]; intros s0 Hpart; simpl; [by eauto using explored_nil|].
    set (s1 := if negb (capital IsUpper f.1) then complain (LowerCase f.1 (t_Name d)) s0 else s0).
    set (own := if decide (capital IsUpper f.1 = false) then [LowerCase f.1 (t_Name d)] else []).
    assert (explored s0 [] own s1) as Hs1.
    { unfold s1, own. case_decide as Hc; [rewrite Hc; apply explored_complain|].
      apply not_false_iff_true in Hc. rewrite Hc. apply explored_nil. }
    destruct (Hpart f.2 s1) as (s2 & Hs2 & He2); [by left|by eapply explored_grows|].
    unfold mbind in *. simpl. rewrite Hs2. simpl.
    pose proof (explored_app _ _ _ _ _ _ _ Hs1 He2) as H02.
    destruct (IHf s2) as (s3 & Hs3 & He3).
    { intros u s' Hu Hgrow. apply Hpart; [by right|]. apply explored_grows in H02. set_solver. }
    exists s3. split; [done|]. pose proof (explored_app _ _ _ _ _ _ _ H02 He3) as H.
    rewrite app_nil_r in H. rewrite filter_cons. unfold own in H. case_decide; simpl; exact H.
  - destruct (Hpart e (mark t s)) as (s' & ? & ?); [by left|done|eauto].
  - destruct (Hpart e (mark t s)) as (s' & ? & ?); [by left|done|eauto].
  - destruct (Hpart e (mark t s)) as (s' & ? & ?); [by left|done|eauto].
  - destruct (Hpart e (mark t s)) as (s1 & Hs1 & He1); [by left|done|]. unfold mbind in *. simpl. rewrite Hs1. simpl.
    destruct (Hpart k s1) as (s2 & -> & He2); [by right; left|by eapply explored_grows|].
    exists s2. split; [done|]. apply (explored_app _ _ _ _ _ _ _ He1 He2).
  - eauto using explored_nil.
Qed.

(** Between two calls of [checkType] the checked types are closed. *)
Definition checkedClosed (s : Checks) : Prop := ∀ t u, t ∈ checked s → refersTo t u → u ∈ checked s.

Lemma checkedClosed_path s t u : checkedClosed s → rtc refersTo t u → t ∈ checked s → u ∈ checked s.
Proof using Type. intros Hcl. induction 1; eauto. Qed.

Lemma unchecked_all s : (unchecked s ≤ size types)%nat.
Proof using Type.
  unfold unchecked. rewrite <-size_dom. apply subseteq_size. set_solver.
Qed.

Lemma checkValue_visits fuel t s :
  tableOk → is_Some (types !! t) → checkedClosed s → (size types < fuel)%nat →
  ∃ s' new out, checkValue IsUpper types fuel (Some t) s = Returned s' ∧
    NoDup new ∧ (∀ u, u ∈ new ↔ rtc refersTo t u ∧ u ∉ checked s) ∧
    checked s' = checked s ∪ list_to_set new ∧ checkedClosed s' ∧
    printed s' = printed s ++ out ∧ out ≡ₚ flat_map complaints new ∧
    errorCount s' = errorCount s + len out.
Proof using Type.
  intros Hok Ht Hcl Hfuel. pose proof (unchecked_all s) as Hall.
  destruct (checkType_explores fuel t s Hok Ht) as (s' & Hrun & new & out & Hnd & Hc & Hf & Hu & Hr & Hn & Hp & Ho & He); [lia|].
  assert (checkedClosed s') as Hcl'.
  { intros u v Hu' Huv. rewrite Hc in Hu'. apply elem_of_union in Hu' as [Hu'|Hu'%elem_of_list_to_set].
    - rewrite Hc. apply elem_of_union_l. by apply (Hcl u).
    - by apply (Hn u). }
  exists s', new, out. split_and!; try done. intros u. split.
  - intros Hin. split; [|by apply Hf]. by destruct (Hr u Hin) as (r & ->%list_elem_of_singleton & ?).
  - intros [Hpath Hno]. assert (u ∈ checked s') as Hin.
    { eapply checkedClosed_path; [done..|]. apply Hu. by left. }
    rewrite Hc in Hin. apply elem_of_union in Hin as [?|?%elem_of_list_to_set]; done.
Qed.

Lemma checkTypes_explore fuel ts : ∀ s,
  tableOk → Forall (λ t, is_Some (types !! t)) ts → (size types < fuel)%nat →
  ∃ s', go_each (λ t, checkValue IsUpper types fuel (Some t)) ts s = Returned s' ∧ explored s ts [] s'.
Proof using Type.
  induction ts as [|t ts IH]; intros s Hok Hts Hfuel; [by eauto using explored_nil|].
  apply Forall_cons in Hts as [Ht Hts]. pose proof (unchecked_all s).
  destruct (checkType_explores fuel t s Hok Ht) as (s1 & Hs1 & He1); [lia|].
  destruct (IH s1 Hok Hts Hfuel) as (s2 & Hs2 & He2). exists s2. split.
  - simpl. unfold mbind. rewrite Hs1. exact Hs2.
  - exact (explored_app _ _ _ _ _ _ _ He1 He2).
Qed.

(** Every type complains once.  Whatever values are encoded, decoded and registered from
    the start of the program on, in whatever order, and also when types refer to themselves
    or each other: the checks return, and the lines printed are one line for each field with
    a name that is not capitalised of each type that can be reached from the types of these
    values, each type once; [errorCount] counts the lines. *)
Theorem complains_once fuel ts :
  tableOk → Forall (λ t, is_Some (types !! t)) ts → (size types < fuel)%nat →
  ∃ s' seen, go_each (λ t, checkValue IsUpper types fuel (Some t)) ts (mkChecks 0 ∅ []) = Returned s' ∧
    NoDup seen ∧ (∀ u, u ∈ seen ↔ ∃ t, t ∈ ts ∧ rtc refersTo t u) ∧
    printed s' ≡ₚ flat_map complaints seen ∧ errorCount s' = len (printed s').
Proof using Type.
  intros Hok Hts Hfuel.
  destruct (checkTypes_explore fuel ts (mkChecks 0 ∅ []) Hok Hts Hfuel)
    as (s' & Hrun & new & out & Hnd & Hc & _ & Hu & Hr & Hn & Hp & Ho & He).
  simpl in *. exists s', new. split_and!; [done|done| |by rewrite Hp, Ho|by rewrite Hp].
  assert (∀ u, u ∈ checked s' → u ∈ new) as Hin.
  { intros u. rewrite Hc. intros [?%elem_of_empty|?%elem_of_list_to_set]%elem_of_union; done. }
  intros u. split; [apply Hr|]. intros (t & Ht & Hpath). apply Hin.
  apply (checkedClosed_path s' t); [|done|by apply Hu].
  intros v w Hv Hvw. by apply (Hn v); [apply Hin|].
Qed.
End types.

(** ** [checkDefault] *)
Section values.
Context (IsUpper : Z → bool) (heap : Address → Value).

Record Leaf := mkLeaf { l_name : string; l_ro : RO; l_type : string; l_value : Basic }.

(** The basic values inside a value, pointers followed, down to [levels] levels, in the order
    of the fields. *)
Fixpoint leaves (levels : nat) (v : Value) (ro : RO) (name : string) : list Leaf :=
  match levels with
  | O => []
  | S levels =>
      match v with
      | VStruct fields => flat_map (λ f, leaves levels f.2 (fieldRO IsUpper f.1 ro) (fieldName name f.1)) fields
      | VPtr (Some a) => leaves levels (heap a) ro name
      | VBasic t b => [mkLeaf name ro t b]
      | VPtr None | VOther => []
      end
  end.

Definition visible (l : Leaf) : bool := canInterface (l_ro l).
Definition nonDefault (l : Leaf) : bool := negb (isZero (l_value l)).
Definition whatOf (l : Leaf) : string := if String.eqb (l_name l) "" then l_type l else l_name l.

Definition report (l : Leaf) (s : Checks) : Loop Checks :=
  if negb (visible l) then Panicked else
  if nonDefault l then
    Returned (if errorCount s <? 1 then complain (NonDefault (whatOf l)) s
              else mkChecks (errorCount s + 1) (checked s) (printed s))
  else Returned s.

Lemma checkDefault1_leaves fuel : ∀ v ro depth name s, (Z.to_nat (4 - depth) < fuel)%nat →
  checkDefault1 IsUpper heap fuel v ro depth name s =
  go_each report (leaves (Z.to_nat (4 - depth)) v ro name) s.
Proof using Type.
  induction fuel as [|fuel IH]; intros v ro depth name s Hfuel; [lia|]. simpl.
  destruct (Z.gtb_spec depth 3) as [Hd|Hd]; [by replace (Z.to_nat (4 - depth)) with O by lia|].
  assert (Z.to_nat (4 - depth) = S (Z.to_nat (4 - (depth + 1)))) as Hs by lia.
  rewrite Hs. simpl. destruct v as [fields|[a|]|t b|]; try done.
  - rewrite go_each_flat_map. apply go_each_ext. intros f s' _. apply IH. lia.
  - apply IH. lia.
  - unfold report, visible, nonDefault, whatOf; simpl. by destruct (canInterface ro), (isZero b).
Qed.

(** The line printed for the first non-default value, unless something was reported before. *)
Definition firstWarning (s : Checks) (ls : list Leaf) : list Message :=
  if errorCount s <? 1 then
    match filter (λ l, nonDefault l = true) ls with l :: _ => [NonDefault (whatOf l)] | [] => [] end
  else [].

Lemma report_all ls : ∀ s, 0 ≤ errorCount s → Forall (λ l, visible l = true) ls →
  ∃ s', go_each report ls s = Returned s' ∧ checked s' = checked s ∧
    errorCount s' = errorCount s + len (filter (λ l, nonDefault l = true) ls) ∧
    printed s' = printed s ++ firstWarning s ls.
Proof using Type.
  unfold firstWarning. induction ls as [|l ls IH]; intros s Hpos Hvis.
  { exists s. split_and!; [done|done|unfold len; simpl; lia|]. simpl. by case_if; rewrite app_nil_r. }
  apply Forall_cons in Hvis as [Hl Hvis]. simpl. rewrite filter_cons. unfold report at 2. rewrite Hl. simpl.
  destruct (nonDefault l); cbn [mbind Loop_bind].
  - rewrite decide_True by done. rewrite len_cons. destruct (Z.ltb_spec (errorCount s) 1) as [H1|H1].
    + edestruct (IH (complain (NonDefault (whatOf l)) s)) as (s' & -> & Hc & He & Hp); [simpl; lia|done|].
      exists s'. split; [done|]. simpl in *. split_and!; [done|lia|]. rewrite Hp.
      destruct (Z.ltb_spec (errorCount s + 1) 1); [lia|]. by rewrite app_nil_r.
    + edestruct (IH (mkChecks (errorCount s + 1) (checked s) (printed s))) as (s' & -> & Hc & He & Hp); [simpl; lia|done|].
      exists s'. split; [done|]. simpl in *. split_and!; [done|lia|]. rewrite Hp.
      by destruct (Z.ltb_spec (errorCount s + 1) 1); [lia|].
  - rewrite decide_False by done. by apply IH.
Qed.

Lemma report_hidden ls : ∀ s, Exists (λ l, visible l = false) ls → go_each report ls s = Panicked.
Proof using Type.
  induction ls as [|l ls IH]; intros s H; [by inversion H|]. simpl. unfold report at 2.
  destruct (visible l) eqn:Hl; simpl; [|done].
  apply Exists_cons in H as [H|H]; [congruence|]. destruct (nonDefault l); simpl; by apply IH.
Qed.

Definition topRO : RO := mkRO false false.

Lemma checkDefault_leaves fuel v s : (4 ≤ fuel)%nat →
  checkDefault IsUpper heap fuel (Some v) s = go_each report (leaves 3 v topRO "") s.
Proof using Type. intros H. unfold checkDefault. by rewrite checkDefault1_leaves by (simpl; lia). Qed.

(** [checkDefault] adds to [errorCount] the number of basic values that are not at
    their default, among those that struct fields and pointers lead to within three levels,
    prints one line, about the first of them, when nothing was counted before, and ends
    although values may be cyclic. *)
Theorem checkDefault_counts v s :
  0 ≤ errorCount s → Forall (λ l, visible l = true) (leaves 3 v topRO "") →
  ∃ s', checkDefault IsUpper heap 4 (Some v) s = Returned s' ∧ checked s' = checked s ∧
    errorCount s' = errorCount s + len (filter (λ l, nonDefault l = true) (leaves 3 v topRO "")) ∧
    printed s' = printed s ++ firstWarning s (leaves 3 v topRO "").
Proof using Type. intros Hpos Hvis. rewrite checkDefault_leaves by lia. by apply report_all. Qed.
End values.

Section coders.
Context `{Gob A} (IsUpper : Z → bool) (types : gmap TypeId GoType) (heap : Address → Value).

(** [Decode] stops the program instead of warning: a basic value, default or not, in a
    field that is not exported makes [Value.Interface] panic. *)
Theorem lower_case_field_panics fuel t v (r : list byte) s :
  tableOk types → is_Some (types !! t) → (size types < fuel)%nat → (4 ≤ fuel)%nat →
  Exists (λ l, visible l = false) (leaves IsUpper heap 3 v topRO "") →
  Decode (A := A) IsUpper types heap fuel (Some t) (Some v) r s = Panicked.
Proof using Type.
  intros Hok Ht Hfuel H4 Hex. unfold Decode, checkValue. pose proof (unchecked_all types s).
  destruct (checkType_explores IsUpper types fuel t s Hok Ht) as (s1 & -> & _); [lia|].
  cbn [mbind Loop_bind]. by rewrite checkDefault_leaves, report_hidden.
Qed.

(** Encoding a value and decoding it into a fresh variable gives the value back and
    leaves the rest of the stream; the decoder prints nothing and counts nothing. *)
Theorem fresh_decode_silent fuel t p n v (e : A) w rest s :
  tableOk types → is_Some (types !! t) → types !! p = Some (mkGoType n (TPtr t)) →
  0 ≤ errorCount s → checkedClosed types s → (size types < fuel)%nat → (4 ≤ fuel)%nat →
  Forall (λ l, visible l = true ∧ nonDefault l = false) (leaves IsUpper heap 3 v topRO "") →
  ∃ s1 s2 bs, Encode IsUpper types fuel (Some t) e w s = Returned (s1, w ++ bs) ∧
    Decode IsUpper types heap fuel (Some p) (Some v) (bs ++ rest) s1 = Returned (s2, Some (e, rest)) ∧
    printed s2 = printed s1 ∧ errorCount s2 = errorCount s1 ∧ checkedClosed types s2.
Proof using Type.
  intros Hok Ht Hp Hpos Hcl Hfuel H4 Hfresh.
  destruct (checkValue_visits IsUpper types fuel t s Hok Ht Hcl Hfuel)
    as (s1 & new1 & out1 & Hrun1 & _ & Hnew1 & Hc1 & Hcl1 & _ & _ & He1).
  assert (t ∈ checked s1) as Ht1.
  { rewrite Hc1. destruct (decide (t ∈ checked s)); [set_solver|]. apply elem_of_union_r, elem_of_list_to_set, Hnew1. done. }
  destruct (checkValue_visits IsUpper types fuel p s1 Hok ltac:(eauto) Hcl1 Hfuel)
    as (s2 & new2 & out2 & Hrun2 & _ & Hnew2 & Hc2 & Hcl2 & Hp2 & Ho2 & He2).
  assert (out2 = []) as ->.
  { apply Permutation_nil. symmetry. rewrite Ho2. rewrite complaints_none; [done|]. intros u Hu%Hnew2.
    destruct Hu as [Hpath Hu]. inversion Hpath as [|? q ? (d & Hd & Hq) Hrest]; subst; [by unfold complaints; rewrite Hp|].
    destruct Hu. apply (checkedClosed_path types s1 t); [done| |done].
    rewrite Hp in Hd. injection Hd as <-. simpl in Hq. by apply list_elem_of_singleton in Hq as ->. }
  destruct (report_all (leaves IsUpper heap 3 v topRO "") s2) as (s3 & Hrun3 & Hc3 & He3 & Hp3).
  { rewrite He2, He1. unfold len. lia. }
  { eapply Forall_impl; [exact Hfresh|]. by intros ? []. }
  assert (filter (λ l, nonDefault l = true) (leaves IsUpper heap 3 v topRO "") = []) as Hnone.
  { clear -Hfresh. induction Hfresh as [|l ls [_ Hl] _ IH]; [done|]. rewrite filter_cons.
    by rewrite decide_False by congruence. }
  unfold firstWarning in Hp3. rewrite Hnone in He3, Hp3. rewrite len_nil in He2. rewrite len_nil in He3.
  exists s1, s3, (gob_enc e). split_and!.
  - unfold Encode, checkValue in *. by rewrite Hrun1.
  - unfold Decode. rewrite Hrun2. cbn [mbind Loop_bind]. rewrite checkDefault_leaves, Hrun3 by done. simpl.
    by rewrite gob_dec_enc.
  - rewrite Hp3, Hp2. case_if; by rewrite !app_nil_r.
  - lia.
  - intros u1 u2. rewrite !Hc3. apply Hcl2.
Qed.
End coders.
