(* ===== verification/LabgobWitness.v ===== *)
(** Runs of [labgob] on the types and values of its own tests, and on recursive types. *)
From S2P Require Import Prelude Labgob LabgobCheck LabgobProps.
From stdpp Require Import fin_maps relations.
#[local] Open Scope Z_scope.

#[local] Existing Instance SampleGob.gob_nat.

Definition upperLetter (r : Z) : bool := (65 <=? r) && (r <=? 90).

(** [[]map[*T4]int], [[]map[T4]int] and a pointer to it, a list node that points to its own
    type, a struct with a field of an exported type only, and pointers to them. *)
Definition sampleTypes : gmap TypeId GoType := list_to_map [
  (0%nat, mkGoType "" (TSlice 1)); (1%nat, mkGoType "" (TMap 2 3)); (2%nat, mkGoType "" (TPtr 4));
  (3%nat, mkGoType "int" TOther); (4%nat, mkGoType "T4" (TStruct [("Yes", 3%nat); ("no", 3%nat)]));
  (5%nat, mkGoType "" (TSlice 6)); (6%nat, mkGoType "" (TMap 4 3)); (7%nat, mkGoType "" (TPtr 5));
  (8%nat, mkGoType "Node" (TStruct [("Next", 9%nat); ("val", 3%nat)])); (9%nat, mkGoType "" (TPtr 8));
  (10%nat, mkGoType "DD" (TStruct [("X", 3%nat)])); (11%nat, mkGoType "" (TPtr 10))].

Definition tableOkb (types : gmap TypeId GoType) : bool :=
  forallb (λ p, forallb (λ u, bool_decide (is_Some (types !! u))) (parts p.2)) (map_to_list types).

Lemma tableOkb_spec types : tableOkb types = true → tableOk types.
Proof.
  unfold tableOkb. rewrite forallb_forall. intros H t u (d & Hd%elem_of_map_to_list & Hu).
  apply list_elem_of_In in Hd. specialize (H _ Hd). rewrite forallb_forall in H.
  apply list_elem_of_In in Hu. specialize (H _ Hu). by apply bool_decide_eq_true in H.
Qed.

Lemma sampleTypes_ok : tableOk sampleTypes.
Proof. apply tableOkb_spec. by vm_compute. Qed.

Definition start : Checks := mkChecks 0 ∅ [].

(** The test TestCapital, followed by a recursive type: two lines. *)
Example two_complaints :
  (s ← go_each (λ t, checkValue upperLetter sampleTypes 20 (Some t)) [0; 7; 8]%nat start; Returned (printed s)) =
  Returned [LowerCase "no" "T4"; LowerCase "val" "Node"].
Proof. by vm_compute. Qed.

Lemma complains_once_witness :
  ∃ s' seen, go_each (λ t, checkValue upperLetter sampleTypes 20 (Some t)) [0; 7; 8]%nat start = Returned s' ∧
    NoDup seen ∧ 9%nat ∈ seen ∧ printed s' = [LowerCase "no" "T4"; LowerCase "val" "Node"] ∧
    printed s' ≡ₚ flat_map (complaints upperLetter sampleTypes) seen.
Proof.
  destruct (complains_once upperLetter sampleTypes 20 [0; 7; 8]%nat) as (s' & seen & Hrun & Hnd & Hin & Hp & He).
  - exact sampleTypes_ok.
  - repeat constructor; vm_compute; eauto.
  - apply Nat.ltb_lt. vm_compute. reflexivity.
  - exists s', seen. split; [exact Hrun|]. split; [exact Hnd|]. split.
    + apply Hin. exists 8%nat. split; [right; right; left|]. apply rtc_once.
      exists (mkGoType "Node" (TStruct [("Next", 9%nat); ("val", 3%nat)])). split; [vm_compute; reflexivity|left].
    + split; [|exact Hp]. pose proof two_complaints as H. unfold start in *. rewrite Hrun in H. injection H as H. exact H.
Defined.

(** Memory of the test TestDefault: a reply at 0 that was used before, one at 1 that was not,
    a value of T4 at 2. *)
Definition sampleHeap (a : Address) : Value :=
  match a with
  | O => VStruct [(mkField "X" false, VBasic "int" (BInt 99))]
  | 1%nat => VStruct [(mkField "X" false, VBasic "int" (BInt 0))]
  | _ => VStruct [(mkField "Yes" false, VBasic "int" (BInt 0)); (mkField "no" false, VBasic "int" (BInt 0))]
  end.

Lemma checkDefault_counts_witness :
  ∃ s', checkDefault upperLetter sampleHeap 4 (Some (VPtr (Some 0%nat))) start = Returned s' ∧
    errorCount s' = 1 ∧ printed s' = [NonDefault "X"].
Proof.
  destruct (checkDefault_counts upperLetter sampleHeap (VPtr (Some 0%nat)) start) as (s' & Hrun & _ & He & Hp).
  - vm_compute. discriminate.
  - repeat constructor.
  - exists s'. split; [exact Hrun|]. split; [exact He|exact Hp].
Defined.

Lemma lower_case_field_panics_witness :
  Decode (A := nat) upperLetter sampleTypes sampleHeap 20 (Some 4%nat) (Some (VPtr (Some 2%nat))) [] start = Panicked.
Proof.
  apply (lower_case_field_panics upperLetter sampleTypes sampleHeap 20 4 (VPtr (Some 2%nat)) [] start).
  - exact sampleTypes_ok.
  - vm_compute. eauto.
  - apply Nat.ltb_lt. vm_compute. reflexivity.
  - lia.
  - right. left. vm_compute. reflexivity.
Defined.

Lemma fresh_decode_silent_witness :
  ∃ s1 s2 bs, Encode (A := nat) upperLetter sampleTypes 20 (Some 10%nat) 7%nat [] start = Returned (s1, [] ++ bs) ∧
    Decode (A := nat) upperLetter sampleTypes sampleHeap 20 (Some 11%nat) (Some (VPtr (Some 1%nat))) (bs ++ []) s1 =
      Returned (s2, Some (7%nat, [])) ∧
    printed s2 = printed s1 ∧ errorCount s2 = errorCount s1 ∧ checkedClosed sampleTypes s2.
Proof.
  apply (fresh_decode_silent upperLetter sampleTypes sampleHeap 20 10 11 "").
  - exact sampleTypes_ok.
  - vm_compute. eauto.
  - vm_compute. reflexivity.
  - vm_compute. discriminate.
  - intros t u H. inversion H.
  - apply Nat.ltb_lt. vm_compute. reflexivity.
  - lia.
  - repeat constructor.
Defined.
