(* ===== verification/Persister.v ===== *)
(** Model of [src/src/raft/persister.go]: the stable storage of one Raft peer.

    A [Persister] keeps two byte slices.  Every writer and reader clones, so a saved
    slice is never shared with the caller: the slices are modelled as values ([nil] and
    the empty slice are the same value, the code never tells them apart: [readPersist]
    tests [len(data) < 1] as well).  The mutex makes every method atomic. *)
From S2P Require Import Prelude.
#[local] Open Scope Z_scope.

Record Persister := mkPersister {
  raftstate : list byte;
  snapshot : list byte;
}.

Definition MakePersister : Persister := mkPersister [] [].

(** [x := make([]byte, len(orig)); copy(x, orig)] *)
Definition clone (orig : list byte) : list byte :=
  go_copy (replicate (length orig) Init.Byte.x00) orig.

Definition Copy (ps : Persister) : Persister := mkPersister (raftstate ps) (snapshot ps).

Definition SaveRaftState (ps : Persister) (st : list byte) : Persister :=
  mkPersister (clone st) (snapshot ps).

Definition ReadRaftState (ps : Persister) : list byte := clone (raftstate ps).

Definition RaftStateSize (ps : Persister) : Z := len (raftstate ps).

Definition SaveStateAndSnapshot (ps : Persister) (st snap : list byte) : Persister :=
  mkPersister (clone st) (clone snap).

Definition ReadSnapshot (ps : Persister) : list byte := clone (snapshot ps).

Definition SnapshotSize (ps : Persister) : Z := len (snapshot ps).

Lemma clone_id l : clone l = l.
Proof. apply go_copy_same_length, length_replicate. Qed.

Lemma ReadRaftState_Save ps st : ReadRaftState (SaveRaftState ps st) = st.
Proof. unfold ReadRaftState, SaveRaftState; simpl. by rewrite !clone_id. Qed.

Lemma ReadRaftState_SaveBoth ps st snap :
  ReadRaftState (SaveStateAndSnapshot ps st snap) = st.
Proof. unfold ReadRaftState, SaveStateAndSnapshot; simpl. by rewrite !clone_id. Qed.

Lemma ReadSnapshot_Save ps st : ReadSnapshot (SaveRaftState ps st) = ReadSnapshot ps.
Proof. done. Qed.

Lemma ReadSnapshot_SaveBoth ps st snap :
  ReadSnapshot (SaveStateAndSnapshot ps st snap) = snap.
Proof. unfold ReadSnapshot, SaveStateAndSnapshot; simpl. by rewrite !clone_id. Qed.

#[export] Hint Rewrite clone_id ReadRaftState_Save ReadRaftState_SaveBoth
  ReadSnapshot_Save ReadSnapshot_SaveBoth : slices.
