(* ===== verification/Raft.v ===== *)
(** Model of [src/src/raft/raft.go]: the state of one Raft peer and its operations.

    Every region the code runs under [rf.mu] is one definition from the peer's state to
    its next state, together with what it starts ([Effect]: the [go] statements, in
    order, and the timer resets).  [None] is a run-time panic.  Terms, indexes and
    counts are Go [int]s, modelled as unbounded [Z].  [Command : interface{}] is an
    [option C], [None] being [nil].  A [chan struct{}] of capacity one is a [bool],
    true when it holds a token. *)
From S2P Require Import Prelude Labgob Persister.
#[local] Open Scope Z_scope.

(** [rf.state] *)
Inductive Role := FOLLOWER | CANDIDATE | LEADER.

#[export] Instance Role_eq_dec : EqDecision Role.
Proof. solve_decision. Defined.

(** The [go] statements and timer resets of the code. *)
Inductive Effect (M : Type) :=
  | GoElect
  | GoBroadcast (isHeartbeat : bool)
  | GoOnRound (server : Z)
  | GoTrySend (server : Z)
  | GoApply (msg : M)
  | ResetHeartbeatTimer
  | ResetElectTimer.
Arguments GoElect {M}.
Arguments GoBroadcast {M} _.
Arguments GoOnRound {M} _.
Arguments GoTrySend {M} _.
Arguments GoApply {M} _.
Arguments ResetHeartbeatTimer {M}.
Arguments ResetElectTimer {M}.

Section raft_data.
Context {C : Type}.

Record ApplyMsg := mkApplyMsg {
  CommandValid : bool;
  am_Command : option C;
  CommandIndex : Z;
  SnapshotValid : bool;
  am_Snapshot : list byte;
  SnapshotTerm : Z;
  SnapshotIndex : Z;
}.

Record Log := mkLog { Command : option C; Term : Z }.

(** [Log{}], the zero value that [make([]Log, n)] fills with *)
Definition zero_Log : Log := mkLog None 0.

Record Raft := mkRaft {
  peers : nat;                 (* len(rf.peers) *)
  persister : Persister;
  me : Z;
  dead : bool;
  currentTerm : Z;
  votedFor : Z;
  log : list Log;
  lastIncludedIndex : Z;
  lastIncludedTerm : Z;
  lastApplied : Z;
  commitIndex : Z;
  nextIndex : list Z;
  matchIndex : list Z;
  state : Role;
  aeChan : list bool;
  commitChan : bool;
}.

Record RequestVoteArgs := mkRVArgs {
  rva_Term : Z;
  rva_CandidateId : Z;
  rva_LastLogIndex : Z;
  rva_LastLogTerm : Z;
}.

Record RequestVoteReply := mkRVReply {
  rvr_Term : Z;
  rvr_VoteGranted : bool;
  rvr_SendTerm : Z;
}.

Record AppendEntriesArgs := mkAEArgs {
  aea_Term : Z;
  aea_LeaderId : Z;
  aea_PrevLogIndex : Z;
  aea_PrevLogTerm : Z;
  aea_Entries : list Log;
  aea_LeaderCommit : Z;
}.

Record AppendEntriesReply := mkAEReply {
  aer_SendTerm : Z;
  aer_Term : Z;
  aer_Success : bool;
  aer_ConflictTerm : Z;
  aer_ConflictIndex : Z;
}.

Record InstallSnapshotArgs := mkISArgs {
  isa_Term : Z;
  isa_LeaderId : Z;
  isa_LastIncludedIndex : Z;
  isa_LastIncludedTerm : Z;
  isa_Data : list byte;
}.

Record InstallSnapshotReply := mkISReply { isr_Term : Z }.

(** *** Assignments to the fields of [rf] *)
Definition set_persister (v : Persister) (rf : Raft) : Raft :=
  mkRaft (peers rf) v (me rf) (dead rf) (currentTerm rf) (votedFor rf) (log rf)
    (lastIncludedIndex rf) (lastIncludedTerm rf) (lastApplied rf) (commitIndex rf)
    (nextIndex rf) (matchIndex rf) (state rf) (aeChan rf) (commitChan rf).
Definition set_dead (v : bool) (rf : Raft) : Raft :=
  mkRaft (peers rf) (persister rf) (me rf) v (currentTerm rf) (votedFor rf) (log rf)
    (lastIncludedIndex rf) (lastIncludedTerm rf) (lastApplied rf) (commitIndex rf)
    (nextIndex rf) (matchIndex rf) (state rf) (aeChan rf) (commitChan rf).
Definition set_currentTerm (v : Z) (rf : Raft) : Raft :=
  mkRaft (peers rf) (persister rf) (me rf) (dead rf) v (votedFor rf) (log rf)
    (lastIncludedIndex rf) (lastIncludedTerm rf) (lastApplied rf) (commitIndex rf)
    (nextIndex rf) (matchIndex rf) (state rf) (aeChan rf) (commitChan rf).
Definition set_votedFor (v : Z) (rf : Raft) : Raft :=
  mkRaft (peers rf) (persister rf) (me rf) (dead rf) (currentTerm rf) v (log rf)
    (lastIncludedIndex rf) (lastIncludedTerm rf) (lastApplied rf) (commitIndex rf)
    (nextIndex rf) (matchIndex rf) (state rf) (aeChan rf) (commitChan rf).
Definition set_log (v : list Log) (rf : Raft) : Raft :=
  mkRaft (peers rf) (persister rf) (me rf) (dead rf) (currentTerm rf) (votedFor rf) v
    (lastIncludedIndex rf) (lastIncludedTerm rf) (lastApplied rf) (commitIndex rf)
    (nextIndex rf) (matchIndex rf) (state rf) (aeChan rf) (commitChan rf).
Definition set_lastIncludedIndex (v : Z) (rf : Raft) : Raft :=
  mkRaft (peers rf) (persister rf) (me rf) (dead rf) (currentTerm rf) (votedFor rf) (log rf)
    v (lastIncludedTerm rf) (lastApplied rf) (commitIndex rf)
    (nextIndex rf) (matchIndex rf) (state rf) (aeChan rf) (commitChan rf).
Definition set_lastIncludedTerm (v : Z) (rf : Raft) : Raft :=
  mkRaft (peers rf) (persister rf) (me rf) (dead rf) (currentTerm rf) (votedFor rf) (log rf)
    (lastIncludedIndex rf) v (lastApplied rf) (commitIndex rf)
    (nextIndex rf) (matchIndex rf) (state rf) (aeChan rf) (commitChan rf).
Definition set_lastApplied (v : Z) (rf : Raft) : Raft :=
  mkRaft (peers rf) (persister rf) (me rf) (dead rf) (currentTerm rf) (votedFor rf) (log rf)
    (lastIncludedIndex rf) (lastIncludedTerm rf) v (commitIndex rf)
    (nextIndex rf) (matchIndex rf) (state rf) (aeChan rf) (commitChan rf).
Definition set_commitIndex (v : Z) (rf : Raft) : Raft :=
  mkRaft (peers rf) (persister rf) (me rf) (dead rf) (currentTerm rf) (votedFor rf) (log rf)
    (lastIncludedIndex rf) (lastIncludedTerm rf) (lastApplied rf) v
    (nextIndex rf) (matchIndex rf) (state rf) (aeChan rf) (commitChan rf).
Definition set_nextIndex (v : list Z) (rf : Raft) : Raft :=
  mkRaft (peers rf) (persister rf) (me rf) (dead rf) (currentTerm rf) (votedFor rf) (log rf)
    (lastIncludedIndex rf) (lastIncludedTerm rf) (lastApplied rf) (commitIndex rf)
    v (matchIndex rf) (state rf) (aeChan rf) (commitChan rf).
Definition set_matchIndex (v : list Z) (rf : Raft) : Raft :=
  mkRaft (peers rf) (persister rf) (me rf) (dead rf) (currentTerm rf) (votedFor rf) (log rf)
    (lastIncludedIndex rf) (lastIncludedTerm rf) (lastApplied rf) (commitIndex rf)
    (nextIndex rf) v (state rf) (aeChan rf) (commitChan rf).
Definition set_state (v : Role) (rf : Raft) : Raft :=
  mkRaft (peers rf) (persister rf) (me rf) (dead rf) (currentTerm rf) (votedFor rf) (log rf)
    (lastIncludedIndex rf) (lastIncludedTerm rf) (lastApplied rf) (commitIndex rf)
    (nextIndex rf) (matchIndex rf) v (aeChan rf) (commitChan rf).
Definition set_aeChan (v : list bool) (rf : Raft) : Raft :=
  mkRaft (peers rf) (persister rf) (me rf) (dead rf) (currentTerm rf) (votedFor rf) (log rf)
    (lastIncludedIndex rf) (lastIncludedTerm rf) (lastApplied rf) (commitIndex rf)
    (nextIndex rf) (matchIndex rf) (state rf) v (commitChan rf).
Definition set_commitChan (v : bool) (rf : Raft) : Raft :=
  mkRaft (peers rf) (persister rf) (me rf) (dead rf) (currentTerm rf) (votedFor rf) (log rf)
    (lastIncludedIndex rf) (lastIncludedTerm rf) (lastApplied rf) (commitIndex rf)
    (nextIndex rf) (matchIndex rf) (state rf) (aeChan rf) v.
End raft_data.

Arguments ApplyMsg : clear implicits.
Arguments Log : clear implicits.
Arguments Raft : clear implicits.
Arguments AppendEntriesArgs : clear implicits.
#[export] Instance Log_eq_dec `{EqDecision C} : EqDecision (Log C).
Proof. solve_decision. Defined.

(** [min] and [max] *)
Definition min_int (x y : Z) : Z := if x >? y then y else x.
Definition max_int (x y : Z) : Z := if x >? y then x else y.

Section raft.
Context {C : Type} `{!Gob Z, !Gob (list (Log C))}.
Implicit Types (rf : Raft C).
Abbreviation Raft := (Raft C).
Abbreviation Eff := (Effect (ApplyMsg C)).

(** *** Indexes *)
Definition realIndex rf (logicIndex : Z) : Z := logicIndex - lastIncludedIndex rf.
Definition logicIndex rf (realIndex : Z) : Z := realIndex + lastIncludedIndex rf.
Definition getLastLogIndex rf : Z := logicIndex rf (len (log rf) - 1).
Definition getFirstLogIndex rf : Z := logicIndex rf 1.

(** [rf.log[len(rf.log)-1]] *)
Definition lastLog rf : option (Log C) := (log rf).[len (log rf) - 1].

(** [printState]: [Debug] is false, so the only thing left of the call is the evaluation
    of its arguments, which indexes the log. *)
Definition printState rf : option unit := _ ← lastLog rf; Some tt.

(** *** Persistence *)
Definition raftState rf : list byte :=
  gob_enc (currentTerm rf) ++ gob_enc (votedFor rf) ++ gob_enc (lastIncludedIndex rf) ++
  gob_enc (lastIncludedTerm rf) ++ gob_enc (log rf).

Definition persist rf : Raft := set_persister (SaveRaftState (persister rf) (raftState rf)) rf.

(** The five [Decode] calls of [readPersist], in order; [None] when one of them fails. *)
Definition decodeState (data : list byte) : option (Z * Z * Z * Z * list (Log C)) :=
  '(term, d) ← gob_dec data;
  '(voted, d) ← gob_dec d;
  '(lii, d) ← gob_dec d;
  '(lit, d) ← gob_dec d;
  '(lg, _) ← gob_dec d;
  Some (term, voted, lii, lit, lg).

Definition readPersist rf (data : list byte) : Raft :=
  if len data <? 1 then rf else
  match decodeState data with
  | None => rf
  | Some (term, voted, lii, lit, lg) =>
      set_log lg (set_lastApplied lii (set_lastIncludedTerm lit (set_lastIncludedIndex lii
        (set_votedFor voted (set_currentTerm term rf)))))
  end.

(** *** Role changes *)
Definition toLeader rf : option (Raft * list Eff) :=
  let rf := set_state LEADER rf in
  rf ← go_for (peers rf) (λ i rf,
         nx ← (nextIndex rf).[i <~ logicIndex rf (len (log rf))];
         mx ← (matchIndex rf).[i <~ 0];
         Some (set_matchIndex mx (set_nextIndex nx rf))) rf;
  _ ← printState rf;
  Some (rf, [GoBroadcast true; ResetHeartbeatTimer]).

Definition toFollower rf (term voted : Z) : option Raft :=
  let rf := persist (set_votedFor voted (set_currentTerm term (set_state FOLLOWER rf))) in
  _ ← printState rf;
  Some rf.

Definition toCandidate rf : option (Raft * list Eff) :=
  let rf := set_state CANDIDATE rf in
  let rf := set_currentTerm (currentTerm rf + 1) rf in
  let rf := set_votedFor (me rf) rf in
  let rf := persist rf in
  _ ← printState rf;
  Some (rf, [GoElect]).

(** true when the log of [rf] is more recent than the candidate's *)
Definition isFreshThan rf (LastLogIndex lastLogTerm : Z) : option bool :=
  l ← lastLog rf;
  Some (if (lastLogTerm >? Term l)
           || ((lastLogTerm =? Term l) && (LastLogIndex >=? getLastLogIndex rf))
        then false else true).

Definition GetState rf : Z * bool := (currentTerm rf, bool_decide (state rf = LEADER)).

(** *** Snapshots *)
Definition CondInstallSnapshot rf (lastIncTerm lastIncIndex : Z) (snap : list byte) :
    option (Raft * bool) :=
  if lastIncIndex <=? commitIndex rf then Some (rf, false) else
  lg ← (if getLastLogIndex rf <=? lastIncIndex then go_make 1 zero_Log
        else newLog ← go_make (getLastLogIndex rf - lastIncIndex + 1) zero_Log;
             src ← slice_from (log rf) (realIndex rf lastIncIndex);
             Some (go_copy newLog src));
  lg ← lg.[0 <~ mkLog None lastIncTerm];
  let rf := set_lastIncludedIndex lastIncIndex (set_lastApplied lastIncIndex
              (set_commitIndex lastIncIndex (set_log lg rf))) in
  Some (set_persister (SaveStateAndSnapshot (persister rf) (raftState rf) snap) rf, true).

Definition Snapshot rf (index : Z) (snap : list byte) : option Raft :=
  if index <=? lastIncludedIndex rf then Some rf else
  let start := realIndex rf index in
  newLog ← go_make (len (log rf) - start) zero_Log;
  src ← slice_from (log rf) start;
  let rf := set_lastIncludedIndex index (set_log (go_copy newLog src) rf) in
  l0 ← (log rf).[0];
  let rf := set_lastIncludedTerm (Term l0) rf in
  let rf := if lastIncludedIndex rf >? lastApplied rf
            then set_lastApplied (lastIncludedIndex rf) rf else rf in
  lg ← (log rf).[0 <~ mkLog None (Term l0)];
  let rf := set_log lg rf in
  Some (set_persister (SaveStateAndSnapshot (persister rf) (raftState rf) snap) rf).

(** *** Elections *)

(** The body of the loop of [elect] that runs under the lock, for a peer that is not [me] *)
Definition electArgs rf : option RequestVoteArgs :=
  l ← lastLog rf;
  Some (mkRVArgs (currentTerm rf) (me rf) (getLastLogIndex rf) (Term l)).

(** The locked part of the goroutine [elect] starts for a peer, run when the call
    returned [ok]; [cnt] is the variable that the goroutines of one [elect] share. *)
Definition electReply rf (cnt : Z) (reply : RequestVoteReply) :
    option (Raft * Z * list Eff) :=
  if currentTerm rf <? rvr_Term reply then
    rf ← toFollower rf (rvr_Term reply) (-1); Some (rf, cnt, [])
  else if bool_decide (state rf ≠ CANDIDATE) || negb (rvr_SendTerm reply =? currentTerm rf)
          || negb (rvr_VoteGranted reply) then Some (rf, cnt, [])
  else
    let cnt := cnt + 1 in
    if cnt >=? Z.of_nat (peers rf) `quot` 2 + 1 then
      '(rf, eff) ← toLeader rf; Some (rf, cnt, eff)
    else Some (rf, cnt, []).

Definition RequestVote rf (args : RequestVoteArgs) :
    option (Raft * RequestVoteReply * list Eff) :=
  rf ← (if currentTerm rf <? rva_Term args then toFollower rf (rva_Term args) (-1) else Some rf);
  let reply := mkRVReply (currentTerm rf) false 0 in
  if (currentTerm rf >? rva_Term args)
     || ((currentTerm rf =? rva_Term args) && negb (votedFor rf =? -1)
         && negb (votedFor rf =? rva_CandidateId args)) then Some (rf, reply, [])
  else
    fresh ← isFreshThan rf (rva_LastLogIndex args) (rva_LastLogTerm args);
    if fresh : bool then Some (rf, reply, [])
    else
      let rf := set_votedFor (rva_CandidateId args) rf in
      Some (persist rf, mkRVReply (rvr_Term reply) true (rvr_SendTerm reply), [ResetElectTimer]).

(** [sendRequestVote] stamps the reply with the term of the request *)
Definition stampVote (args : RequestVoteArgs) (reply : RequestVoteReply) : RequestVoteReply :=
  mkRVReply (rvr_Term reply) (rvr_VoteGranted reply) (rva_Term args).

(** *** Log replication *)

(** [trySendChan(rf.aeChan[server])]: a token is put unless there is one *)
Definition trySendAe rf (server : Z) : option Raft :=
  _ ← (aeChan rf).[server];
  ch ← (aeChan rf).[server <~ true];
  Some (set_aeChan ch rf).

(** [trySendChan(rf.commitChan)] *)
Definition trySendCommit rf : Raft := set_commitChan true rf.

Definition broadcastAppendEntries rf (isHeartbeat : bool) : list Eff :=
  if bool_decide (state rf ≠ LEADER) then [] else
  omap (λ server : nat,
          if Z.of_nat server =? me rf then None
          else Some (if isHeartbeat then GoOnRound (Z.of_nat server)
                     else GoTrySend (Z.of_nat server)))
       (seq 0 (peers rf)).

(** What [onRound] sends: a snapshot, with the [lastIncludedIndex] it captured, or entries. *)
Inductive RoundCall :=
  | SendSnapshot (args : InstallSnapshotArgs) (lastIncludedIndex : Z)
  | SendEntries (args : AppendEntriesArgs C).

(** [onRound] up to the release of the lock before the RPC; [Some None] when not leader *)
Definition onRoundBegin rf (server : Z) : option (option RoundCall) :=
  _ ← (aeChan rf).[server];
  if bool_decide (state rf ≠ LEADER) then Some None else
  nx ← (nextIndex rf).[server];
  let prevLogIndex := nx - 1 in
  if prevLogIndex <? lastIncludedIndex rf then
    Some (Some (SendSnapshot
      (mkISArgs (currentTerm rf) (me rf) (lastIncludedIndex rf) (lastIncludedTerm rf)
                (snapshot (persister rf))) (lastIncludedIndex rf)))
  else
    let index := realIndex rf prevLogIndex in
    prev ← (log rf).[index];
    entries ← (if getLastLogIndex rf >? prevLogIndex
               then suffix ← slice_from (log rf) (index + 1);
                    fresh ← go_make (len suffix) zero_Log;
                    Some (go_copy fresh suffix)
               else Some []);
    Some (Some (SendEntries
      (mkAEArgs (currentTerm rf) (me rf) prevLogIndex (Term prev) entries (commitIndex rf)))).

(** The two loops that walk the log backwards,
    [for ; i > 0; i-- { if stop(rf.log[i]) { break } }]: the final [i] *)
Fixpoint scanBack (stop : Log C → bool) (lg : list (Log C)) (i : nat) : option nat :=
  match i with
  | O => Some O
  | S i' => l ← lg !! i; if stop l then Some i else scanBack stop lg i'
  end.

(** The commit rule at the end of [handleAppendEntriesReply] *)
Definition countMatch rf (newCommit : Z) : option Z :=
  go_for (peers rf) (λ s cnt,
    if s =? me rf then Some cnt else
    m ← (matchIndex rf).[s]; Some (if m >=? newCommit then cnt + 1 else cnt)) 1.

Definition handleAppendEntriesReply rf (args : AppendEntriesArgs C)
    (reply : AppendEntriesReply) (server : Z) : option Raft :=
  _ ← (if negb (len (aea_Entries args) =? 0) then printState rf else Some tt);
  rf ← (if currentTerm rf <? aer_Term reply then toFollower rf (aer_Term reply) (-1) else Some rf);
  if bool_decide (state rf ≠ LEADER) || negb (aer_SendTerm reply =? currentTerm rf) then Some rf
  else if negb (aer_Success reply) then
    rf ← (if aer_ConflictTerm reply =? -1 then
            nx ← (nextIndex rf).[server <~ aer_ConflictIndex reply]; Some (set_nextIndex nx rf)
          else
            i ← scanBack (λ l, Term l =? aer_ConflictTerm reply) (log rf)
                  (Z.to_nat (len (log rf) - 1));
            li ← (log rf).[Z.of_nat i];
            nx ← (nextIndex rf).[server <~
                    if (Z.of_nat i =? 0) || negb (Term li =? aer_ConflictTerm reply)
                    then aer_ConflictIndex reply else logicIndex rf (Z.of_nat i + 1)];
            Some (set_nextIndex nx rf));
    trySendAe rf server
  else
    nx ← (nextIndex rf).[server <~ logicIndex rf (len (log rf))];
    let rf := set_nextIndex nx rf in
    oldMatchIndex ← (matchIndex rf).[server];
    let sent := aea_PrevLogIndex args + len (aea_Entries args) in
    mx ← (matchIndex rf).[server <~ if oldMatchIndex <? sent then sent else oldMatchIndex];
    let rf := set_matchIndex mx rf in
    newMatch ← (matchIndex rf).[server];
    newNext ← (nextIndex rf).[server];
    rf ← (if negb (newMatch + 1 =? newNext) then trySendAe rf server else Some rf);
    if oldMatchIndex =? newMatch then Some rf else
    let newCommit := newMatch in
    if (commitIndex rf <? newCommit) && (currentTerm rf =? aer_Term reply) then
      cnt ← countMatch rf newCommit;
      if cnt >=? Z.of_nat (peers rf) `quot` 2 + 1
      then Some (trySendCommit (set_commitIndex newCommit rf)) else Some rf
    else Some rf.

(** [sendAppendEntries] stamps the reply with the term of the request *)
Definition stampAppend (args : AppendEntriesArgs C) (reply : AppendEntriesReply) :
    AppendEntriesReply :=
  mkAEReply (aea_Term args) (aer_Term reply) (aer_Success reply)
    (aer_ConflictTerm reply) (aer_ConflictIndex reply).

(** [onRound] after the RPC: [None] is a call that failed *)
Definition onRoundSnapshotReply rf (server lastIncIndex : Z)
    (reply : option InstallSnapshotReply) : option Raft :=
  match reply with
  | None => trySendAe rf server
  | Some reply =>
      if currentTerm rf <? isr_Term reply then toFollower rf (isr_Term reply) (-1) else
      m ← (matchIndex rf).[server];
      mx ← (matchIndex rf).[server <~ max_int lastIncIndex m];
      nx ← (nextIndex rf).[server <~ getLastLogIndex rf + 1];
      Some (set_nextIndex nx (set_matchIndex mx rf))
  end.

Definition onRoundEntriesReply rf (server : Z) (args : AppendEntriesArgs C)
    (reply : option AppendEntriesReply) : option Raft :=
  match reply with
  | None => trySendAe rf server
  | Some reply => handleAppendEntriesReply rf args (stampAppend args reply) server
  end.

(** The loop of [AppendEntries] that compares the entries with the log:
    [for ; index < len(rf.log) && index <= end; index++]; the result is the final [index]
    and [newLog].  [fuel] is [len(rf.log) - index]. *)
Fixpoint matchEntries (lg entries : list (Log C)) (pli end_ : Z) (fuel : nat) (index : Z) :
    option (Z * bool) :=
  match fuel with
  | O => Some (index, false)
  | S fuel =>
      if (index <? len lg) && (index <=? end_) then
        l ← lg.[index];
        e ← entries.[index - pli - 1];
        if negb (Term l =? Term e) then Some (index, true)
        else matchEntries lg entries pli end_ fuel (index + 1)
      else Some (index, false)
  end.

(** The part of [AppendEntries] after the checks, for the log only *)
Definition mergeEntries (lg entries : list (Log C)) (pli end_ : Z) : option (list (Log C) * bool) :=
  '(index, newLog) ← matchEntries lg entries pli end_ (Z.to_nat (len lg - (pli + 1))) (pli + 1);
  if newLog || (index =? len lg) then
    kept ← slice_to lg (pli + 1);
    Some (kept ++ entries, true)
  else Some (lg, false).

Definition AppendEntries rf (args : AppendEntriesArgs C) :
    option (Raft * AppendEntriesReply * list Eff) :=
  _ ← (if len (aea_Entries args) >? 0 then printState rf else Some tt);
  rf ← (if (currentTerm rf <? aea_Term args)
           || (bool_decide (state rf = CANDIDATE) && (currentTerm rf =? aea_Term args))
        then toFollower rf (aea_Term args) (-1) else Some rf);
  let term := currentTerm rf in
  if currentTerm rf >? aea_Term args then Some (rf, mkAEReply 0 term false 0 0, []) else
  let eff := [ResetElectTimer] in
  let pli := realIndex rf (aea_PrevLogIndex args) in
  if (aea_PrevLogIndex args >? getLastLogIndex rf) || (pli <? 0) then
    Some (rf, mkAEReply 0 term false (-1) (getLastLogIndex rf + 1), eff)
  else
  lp ← (log rf).[pli];
  if negb (Term lp =? aea_PrevLogTerm args) then
    i ← scanBack (λ l, negb (Term l =? Term lp)) (log rf) (Z.to_nat pli);
    Some (rf, mkAEReply 0 term false (Term lp) (logicIndex rf (Z.of_nat i + 1)), eff)
  else
  let last := aea_PrevLogIndex args + len (aea_Entries args) in
  '(lg, changed) ← mergeEntries (log rf) (aea_Entries args) pli (realIndex rf last);
  let rf := if changed : bool then persist (set_log lg rf) else rf in
  let rf := if aea_LeaderCommit args >? commitIndex rf
            then trySendCommit (set_commitIndex (min_int (aea_LeaderCommit args) last) rf)
            else rf in
  Some (rf, mkAEReply 0 term true 0 0, eff).

Definition InstallSnapshot rf (args : InstallSnapshotArgs) :
    option (Raft * InstallSnapshotReply * list Eff) :=
  rf ← (if currentTerm rf <? isa_Term args then toFollower rf (isa_Term args) (-1) else Some rf);
  let reply := mkISReply (currentTerm rf) in
  if currentTerm rf >? isa_Term args then Some (rf, reply, []) else
  if commitIndex rf >=? isa_LastIncludedIndex args then Some (rf, reply, [ResetElectTimer]) else
  Some (rf, reply, [ResetElectTimer;
    GoApply (mkApplyMsg false None 0 true (isa_Data args) (isa_LastIncludedTerm args)
               (isa_LastIncludedIndex args))]).

(** *** Applying *)

(** One iteration of the loop of [updateApplied], after the token was received from
    [commitChan]: the new state and the messages sent on [applyChan], in order *)
Definition updateApplied rf : option (Raft * list (ApplyMsg C)) :=
  let rf := set_commitChan false rf in
  msg ← (if lastApplied rf <? commitIndex rf then
           go_for (Z.to_nat (commitIndex rf - lastApplied rf)) (λ i msg,
             let lastApplied' := lastApplied rf + i + 1 in
             l ← (log rf).[realIndex rf lastApplied'];
             Some (msg ++ [mkApplyMsg true (Command l) lastApplied' false [] 0 0])) []
         else Some []);
  Some (set_lastApplied (commitIndex rf) rf, msg).

Definition Start rf (command : C) : Raft * (Z * Z * bool) * list Eff :=
  if bool_decide (state rf = LEADER) then
    let rf' := persist (set_log (log rf ++ [mkLog (Some command) (currentTerm rf)]) rf) in
    (rf', (logicIndex rf' (len (log rf') - 1), currentTerm rf, true), [GoBroadcast false])
  else (rf, (-1, currentTerm rf, false), []).

Definition Kill rf : Raft := set_dead true rf.
Definition killed rf : bool := dead rf.

(** *** Timers: the two cases of the [select] of [ticker] *)
Definition tickHeartbeat rf : list Eff :=
  if bool_decide (state rf = LEADER) then [GoBroadcast true; ResetHeartbeatTimer] else [].

Definition tickElect rf : option (Raft * list Eff) :=
  if bool_decide (state rf ≠ LEADER) then
    '(rf, eff) ← toCandidate rf; Some (rf, eff ++ [ResetElectTimer])
  else Some (rf, [ResetElectTimer]).

(** [Make]; the goroutines it starts ([aeSender], [ticker], [updateApplied]) are the
    loops around the operations above. *)
Definition Make (npeers : nat) (me : Z) (ps : Persister) : option Raft :=
  let rf := mkRaft npeers ps me false 0 (-1) [zero_Log] 0 0 0 0
              (replicate npeers 0) (replicate npeers 0) FOLLOWER
              (replicate npeers false) false in
  rf ← go_for npeers (λ i rf,
         nx ← (nextIndex rf).[i <~ len (log rf)];
         ch ← (aeChan rf).[i <~ false];
         Some (set_aeChan ch (set_nextIndex nx rf))) rf;
  let rf := readPersist rf (ReadRaftState ps) in
  l0 ← (log rf).[0];
  lg ← (log rf).[0 <~ mkLog (Command l0) (lastIncludedTerm rf)];
  Some (set_log lg rf).
End raft.
Arguments RoundCall : clear implicits.
