(* ===== verification/RaftLog.v ===== *)
(** The log algorithms of [raft.go], away from the rest of the peer's state:
    the backward scans for a conflicting term and the forward scan with which
    [AppendEntries] merges entries into the log, each against its specification. *)
From S2P Require Import Prelude Labgob Persister Raft.
#[local] Open Scope Z_scope.

Section log_algorithms.
Context {C : Type}.
Implicit Types (lg entries : list (Log C)) (pli index : Z).

(** ** Backward scans *)
Lemma scanBack_spec stop lg (i : nat) :
  (i < length lg)%nat →
  ∃ k : nat, scanBack stop lg i = Some k ∧ (k ≤ i)%nat ∧
    (∀ j l, (k < j ≤ i)%nat → lg !! j = Some l → stop l = false) ∧
    (k ≠ O → ∃ l, lg !! k = Some l ∧ stop l = true).
Proof.
  induction i as [|i IH]; intros Hi; simpl.
  { exists O; split_and!; [done|lia|lia|done]. }
  destruct (lookup_lt_is_Some_2 lg (S i) Hi) as [l Hl]; rewrite Hl; simpl.
  destruct (stop l) eqn:Hs.
  { exists (S i); split_and!; [done|lia|lia|eauto]. }
  destruct IH as (k & -> & Hk & Hno & Hyes); [lia|].
  exists k; split_and!; [done|lia| |done].
  intros j l' Hj Hl'. destruct (decide (j = S i)) as [->|]; [congruence|].
  eapply Hno; [|done]; lia.
Qed.

(** ** The forward scan of [AppendEntries] *)

(** The entries agree with the log, by term, at the positions before [index]. *)
Definition agreesUpTo lg entries pli index : Prop :=
  ∀ j l e, pli + 1 ≤ j < index → lg.[j] = Some l → entries.[j - pli - 1] = Some e →
    Term l = Term e.

Lemma matchEntries_spec lg entries pli fuel index :
  pli + 1 ≤ index ≤ len lg → fuel = Z.to_nat (len lg - index) → 0 ≤ pli →
  index ≤ pli + len entries + 1 →
  agreesUpTo lg entries pli index →
  ∃ index' newLog,
    matchEntries lg entries pli (pli + len entries) fuel index = Some (index', newLog) ∧
    index ≤ index' ≤ len lg ∧ index' ≤ pli + len entries + 1 ∧
    agreesUpTo lg entries pli index' ∧
    (newLog = true → ∃ l e, lg.[index'] = Some l ∧ entries.[index' - pli - 1] = Some e ∧
                            Term l ≠ Term e) ∧
    (newLog = false → index' = len lg ∨ index' = pli + len entries + 1).
Proof.
  revert index; induction fuel as [|fuel IH]; intros index Hi Hf Hp He Hag; simpl.
  { exists index, false; split_and!; [done|lia..|done|done|lia]. }
  destruct (decide (index ≤ pli + len entries)) as [Hle|Hgt].
  2:{ replace ((index <? len lg) && (index <=? pli + len entries)) with false by lia.
      exists index, false; split_and!; [done|lia..|done|done|lia]. }
  replace ((index <? len lg) && (index <=? pli + len entries)) with true by lia.
  destruct (go_index_lt_Some lg index) as [l Hl]; [lia|].
  destruct (go_index_lt_Some entries (index - pli - 1)) as [e Hee]; [lia|].
  rewrite Hl, Hee; simpl.
  destruct (Term l =? Term e) eqn:Ht; simpl.
  - destruct (IH (index + 1)) as (i' & nl & -> & ? & ? & ? & ? & ?); [lia..| |].
    + intros j l' e' Hj Hl' He'. destruct (decide (j = index)) as [->|].
      * rewrite Hl in Hl'; rewrite Hee in He'; simplify_eq. bool_prop; lia.
      * eapply Hag; [|done..]; lia.
    + exists i', nl; split_and!; [done|lia..|done|done|done].
  - exists index, true; split_and!; [done|lia..|done| |done].
    intros _; exists l, e; bool_prop; done.
Qed.

Lemma agreesUpTo_start lg entries pli : agreesUpTo lg entries pli (pli + 1).
Proof. intros j l e Hj; lia. Qed.

(** ** The receiver's rule of the Raft paper: delete an existing entry that conflicts
    with a new one, and all that follow it; append the entries not already there. *)
Fixpoint graft (old new : list (Log C)) : list (Log C) :=
  match old, new with
  | o :: old', n :: new' => if Term o =? Term n then o :: graft old' new' else new
  | [], _ => new
  | _, [] => old
  end.

(** Logs that hold the same entry wherever they hold the same term at the same index. *)
Definition matching (old new : list (Log C)) : Prop :=
  ∀ (j : nat) o n, old !! j = Some o → new !! j = Some n → Term o = Term n → o = n.

Lemma graft_all_agree old new :
  (∀ (j : nat) o n, old !! j = Some o → new !! j = Some n → Term o = Term n) →
  map Term (graft old new) =
    map Term (if (length new <? length old)%nat then old else new).
Proof.
  revert new; induction old as [|o old IH]; intros [|n new] Hag; simpl; [done..|].
  rewrite (Hag O o n eq_refl eq_refl), Z.eqb_refl; simpl.
  rewrite IH by (intros j; apply (Hag (S j))).
  change (S (length new) <? S (length old))%nat with (length new <? length old)%nat.
  case_if; simpl; [done|]. by rewrite (Hag O o n eq_refl eq_refl).
Qed.

Lemma graft_disagree old new (k : nat) o n :
  (∀ (j : nat) o n, (j < k)%nat → old !! j = Some o → new !! j = Some n → Term o = Term n) →
  old !! k = Some o → new !! k = Some n → Term o ≠ Term n →
  map Term (graft old new) = map Term new.
Proof.
  revert old new; induction k as [|k IH]; intros [|o' old] [|n' new] Hag Ho Hn Hne;
    simplify_eq/=.
  { by rewrite (proj2 (Z.eqb_neq _ _) Hne). }
  rewrite (Hag O o' n' ltac:(lia) eq_refl eq_refl), Z.eqb_refl; simpl.
  rewrite (Hag O o' n' ltac:(lia) eq_refl eq_refl). f_equal.
  apply IH; [|done..]. intros j; intros. eapply (Hag (S j)); [lia|done..].
Qed.

Lemma matching_tail o old n new : matching (o :: old) (n :: new) → matching old new.
Proof. intros H j; apply (H (S j)). Qed.

(** With matching logs the grafted list is determined by its terms. *)
Lemma graft_same_terms old new :
  matching old new → map Term (graft old new) = map Term new → graft old new = new.
Proof.
  revert new; induction old as [|o old IH]; intros [|n new] Hm Heq; simpl in *; [done..|].
  destruct (Term o =? Term n) eqn:Ht; [|done]. bool_prop.
  assert (o = n) as -> by (by eapply (Hm O)). f_equal. simpl in Heq.
  apply IH; [by eapply matching_tail|congruence].
Qed.

Lemma graft_shorter old new :
  (∀ (j : nat) o n, old !! j = Some o → new !! j = Some n → Term o = Term n) →
  (length new < length old)%nat → graft old new = old.
Proof.
  revert new; induction old as [|o old IH]; intros [|n new] Hag Hlt; simpl in *; [lia..|done|].
  rewrite (Hag O o n eq_refl eq_refl), Z.eqb_refl. f_equal. apply IH; [|lia].
  intros j; apply (Hag (S j)).
Qed.

(** ** [mergeEntries] *)
Lemma agreesUpTo_drop lg entries pli index :
  0 ≤ pli → agreesUpTo lg entries pli index →
  ∀ (j : nat) o n, Z.of_nat j < index - pli - 1 →
    drop (Z.to_nat (pli + 1)) lg !! j = Some o → entries !! j = Some n → Term o = Term n.
Proof.
  intros Hp Hag j o n Hj Ho Hn.
  apply (Hag (pli + 1 + Z.of_nat j)); [lia|..].
  - rewrite go_index_nonneg by lia. rewrite lookup_drop in Ho.
    rewrite <-Ho. f_equal; lia.
  - replace (pli + 1 + Z.of_nat j - pli - 1) with (Z.of_nat j) by lia.
    by rewrite go_index_of_nat.
Qed.

(** The code keeps the log when every entry is already there and more follow it;
    otherwise it cuts the log after [pli] and appends all the entries. *)
Lemma mergeEntries_cases lg entries pli :
  0 ≤ pli < len lg →
  let old := drop (Z.to_nat (pli + 1)) lg in
  let kept := take (Z.to_nat (pli + 1)) lg in
  (mergeEntries lg entries pli (pli + len entries) = Some (lg, false) ∧
   (length entries < length old)%nat ∧
   ∀ (j : nat) o n, old !! j = Some o → entries !! j = Some n → Term o = Term n) ∨
  (mergeEntries lg entries pli (pli + len entries) = Some (kept ++ entries, true) ∧
   map Term (graft old entries) = map Term entries).
Proof.
  intros Hp old kept. unfold mergeEntries.
  pose proof (len_nonneg entries) as He0.
  destruct (matchEntries_spec lg entries pli (Z.to_nat (len lg - (pli + 1))) (pli + 1))
    as (i & nl & -> & Hi & Hi' & Hag & Ht & Hf); [lia|done|lia..|apply agreesUpTo_start|].
  simpl. pose proof (agreesUpTo_drop lg entries pli i ltac:(lia) Hag) as Hag'.
  assert (length old = Z.to_nat (len lg - (pli + 1))) as Hlo.
  { unfold old. rewrite length_drop. unfold len; lia. }
  destruct nl; simpl.
  - right. rewrite slice_to_Some by lia. split; [done|].
    destruct (Ht eq_refl) as (l & e & Hl & He & Hne).
    assert (pli + 1 ≤ i) by lia.
    pose proof (go_index_Some_lt _ _ _ Hl). pose proof (go_index_Some_lt _ _ _ He).
    apply (graft_disagree _ _ (Z.to_nat (i - pli - 1)) l e); [|..|done].
    + intros j o n Hj; apply Hag'; lia.
    + unfold old; rewrite lookup_drop, <-Hl, go_index_nonneg by lia. f_equal; lia.
    + by rewrite <-He, go_index_nonneg by lia.
  - destruct (i =? len lg) eqn:Hil; bool_prop.
    + right. rewrite slice_to_Some by lia. split; [done|].
      rewrite graft_all_agree.
      * destruct (length entries <? length old)%nat eqn:Hlt; [|done].
        apply Nat.ltb_lt in Hlt. unfold len in *; lia.
      * intros j o n Ho Hn; apply (Hag' j); [|done..].
        apply lookup_lt_Some in Ho; lia.
    + left. destruct (Hf eq_refl) as [|Hend]; [lia|]. split_and!; [done| |].
      * unfold len in *; lia.
      * intros j o n Ho Hn; apply (Hag' j); [|done..].
        apply lookup_lt_Some in Hn. unfold len in *; lia.
Qed.

Lemma mergeEntries_total lg entries pli :
  0 ≤ pli < len lg → ∃ r, mergeEntries lg entries pli (pli + len entries) = Some r.
Proof.
  intros Hp; destruct (mergeEntries_cases lg entries pli Hp) as [(-> & _)|(-> & _)]; eauto.
Qed.

(** Whatever the two logs hold: the result is the log as it was or the entries in place of what
    follows [pli], it has the terms of the rule, and with matching logs it is the rule's. *)
Definition mergedBy (old new merged : list (Log C)) : Prop :=
  (merged = old ∨ merged = new) ∧ map Term merged = map Term (graft old new) ∧
  (matching old new → merged = graft old new).

Lemma mergeEntries_merged lg entries pli :
  0 ≤ pli < len lg →
  ∃ merged changed, mergeEntries lg entries pli (pli + len entries) =
      Some (take (Z.to_nat (pli + 1)) lg ++ merged, changed) ∧
    mergedBy (drop (Z.to_nat (pli + 1)) lg) entries merged.
Proof.
  intros Hp; destruct (mergeEntries_cases lg entries pli Hp) as [(-> & Hlt & Hag)|(-> & Ht)].
  - exists (drop (Z.to_nat (pli + 1)) lg), false. rewrite take_drop. split; [done|].
    split_and!; [by left|by rewrite graft_shorter|by rewrite graft_shorter].
  - exists entries, true. split; [done|]. split_and!; [by right|done|].
    intros Hm. by rewrite graft_same_terms.
Qed.

(** What a merge keeps and what it leaves behind. *)
Lemma mergeEntries_result lg entries pli lg' changed :
  0 ≤ pli < len lg →
  mergeEntries lg entries pli (pli + len entries) = Some (lg', changed) →
  pli < len lg' ∧ pli + len entries < len lg' ∧
  (∀ j, j ≤ pli → lg'.[j] = lg.[j]) ∧
  (∀ j e, 0 ≤ j → entries.[j] = Some e → Term <$> lg'.[pli + 1 + j] = Some (Term e)) ∧
  (changed = false → lg' = lg) ∧
  (changed = true → lg' = take (Z.to_nat (pli + 1)) lg ++ entries).
Proof.
  intros Hp Hm. pose proof (len_nonneg entries).
  assert (len (take (Z.to_nat (pli + 1)) lg) = pli + 1) as Hk by (apply len_take; lia).
  destruct (mergeEntries_cases lg entries pli Hp) as [(Heq & Hlt & Hag)|(Heq & _)];
    rewrite Heq in Hm; simplify_eq.
  - rewrite length_drop in Hlt. split_and!; [lia|unfold len in *; lia|done| |done|done].
    intros j e Hj He. pose proof (go_index_Some_lt _ _ _ He).
    destruct (go_index_lt_Some lg' (pli + 1 + j)) as [o Ho]; [unfold len in *; lia|].
    rewrite Ho; simpl; f_equal.
    apply (Hag (Z.to_nat j)); [|by rewrite <-He, go_index_nonneg].
    rewrite lookup_drop, <-Ho, go_index_nonneg by lia. f_equal; lia.
  - rewrite len_app, Hk. split_and!; [lia|lia| | |done|done].
    + intros j Hj. rewrite go_index_app_l by lia.
      destruct (decide (0 ≤ j)); [by apply go_index_take; lia|].
      unfold go_index. by rewrite !bool_decide_false by lia.
    + intros j e Hj He. rewrite go_index_app_r by lia.
      replace (pli + 1 + j - _) with j by lia. by rewrite He.
Qed.

(** Merging the same entries again changes nothing. *)
Lemma mergeEntries_again lg entries pli lg' changed :
  0 ≤ pli < len lg →
  mergeEntries lg entries pli (pli + len entries) = Some (lg', changed) →
  ∃ changed', mergeEntries lg' entries pli (pli + len entries) = Some (lg', changed') ∧
              (changed = false → changed' = false).
Proof.
  intros Hp Hm. destruct (mergeEntries_result _ _ _ _ _ Hp Hm) as (Hl & _ & _ & _ & Hf & Ht).
  destruct changed.
  - rewrite (Ht eq_refl) in *.
    destruct (mergeEntries_cases _ entries pli (conj (proj1 Hp) Hl)) as [(-> & _)|(-> & _)].
    + by exists false.
    + exists true; split; [|done]. do 2 f_equal.
      rewrite take_app_le, take_take by (rewrite length_take; unfold len in Hp; lia).
      by rewrite Nat.min_id.
  - rewrite (Hf eq_refl) in *. by exists false.
Qed.

(** Grafting twice is grafting once. *)
Lemma graft_idemp old new : graft (graft old new) new = graft old new.
Proof.
  revert new; induction old as [|o old IH]; intros [|n new]; simpl; [done| |done|].
  { rewrite Z.eqb_refl. f_equal. induction new as [|a new IHn]; [done|]; simpl.
    by rewrite Z.eqb_refl, IHn. }
  destruct (Term o =? Term n) eqn:Ht; simpl.
  - by rewrite Ht, IH.
  - rewrite Z.eqb_refl. f_equal. clear. induction new as [|a new IHn]; [done|]; simpl.
    by rewrite Z.eqb_refl, IHn.
Qed.
End log_algorithms.
