(* ===== verification/RaftNode.v ===== *)
(** One Raft peer: the operations of [Raft.v] as the steps of a machine, the shape
    invariant of its state, durability of term, vote and log, and crash recovery. *)
From S2P Require Import Prelude Labgob Persister Raft RaftLog.
#[local] Open Scope Z_scope.

Section node.
Context {C : Type} `{!Gob Z, !Gob (list (Log C))}.
Implicit Types (rf : Raft C).

(** Everything that changes a peer's state under its lock.  [onRoundBegin], what [onRound] does
    under the lock before its call, changes nothing. *)
Inductive NodeOp :=
  | OpRequestVote (args : RequestVoteArgs)
  | OpAppendEntries (args : AppendEntriesArgs C)
  | OpInstallSnapshot (args : InstallSnapshotArgs)
  | OpElectReply (cnt : Z) (reply : RequestVoteReply)
  | OpEntriesReply (server : Z) (args : AppendEntriesArgs C) (reply : option AppendEntriesReply)
  | OpSnapshotReply (server lastIncIndex : Z) (reply : option InstallSnapshotReply)
  | OpTickElect
  | OpUpdateApplied
  | OpStart (command : C)
  | OpSnapshot (index : Z) (snap : list byte)
  | OpCondInstallSnapshot (term index : Z) (snap : list byte)
  | OpReceiveAe (server : Z)
  | OpKill.

Definition nodeExec rf (op : NodeOp) : option (Raft C) :=
  match op with
  | OpRequestVote args => '(rf, _, _) ← RequestVote rf args; Some rf
  | OpAppendEntries args => '(rf, _, _) ← AppendEntries rf args; Some rf
  | OpInstallSnapshot args => '(rf, _, _) ← InstallSnapshot rf args; Some rf
  | OpElectReply cnt reply => '(rf, _, _) ← electReply rf cnt reply; Some rf
  | OpEntriesReply server args reply => onRoundEntriesReply rf server args reply
  | OpSnapshotReply server i reply => onRoundSnapshotReply rf server i reply
  | OpTickElect => '(rf, _) ← tickElect rf; Some rf
  | OpUpdateApplied => '(rf, _) ← updateApplied rf; Some rf
  | OpStart command => Some (Start rf command).1.1
  | OpSnapshot index snap => Snapshot rf index snap
  | OpCondInstallSnapshot term index snap =>
      '(rf, _) ← CondInstallSnapshot rf term index snap; Some rf
  | OpReceiveAe server => ch ← (aeChan rf).[server <~ false]; Some (set_aeChan ch rf)
  | OpKill => Some (Kill rf)
  end.

(** ** Shape of the state *)
Record wf rf : Prop := {
  wf_log : 0 < len (log rf);
  wf_next : length (nextIndex rf) = peers rf;
  wf_match : length (matchIndex rf) = peers rf;
  wf_ae : length (aeChan rf) = peers rf;
}.

(** ** What every operation leaves alone or only moves forward *)

(** [toFollower], when it returns, is this assignment. *)
Lemma toFollower_Some rf t v rf' :
  toFollower rf t v = Some rf' →
  rf' = persist (set_votedFor v (set_currentTerm t (set_state FOLLOWER rf))).
Proof. unfold toFollower. intros H; go_inv. done. Qed.

Lemma toFollower_total rf t v :
  0 < len (log rf) →
  toFollower rf t v = Some (persist (set_votedFor v (set_currentTerm t (set_state FOLLOWER rf)))).
Proof.
  intros Hl; unfold toFollower, printState, lastLog; simpl.
  destruct (go_index_lt_Some (log rf) (len (log rf) - 1)) as [x ->]; [lia|done].
Qed.

Lemma toCandidate_Some rf rf' eff :
  toCandidate rf = Some (rf', eff) →
  rf' = persist (set_votedFor (me rf) (set_currentTerm (currentTerm rf + 1) (set_state CANDIDATE rf)))
  ∧ eff = [GoElect].
Proof. unfold toCandidate. intros H; go_inv. done. Qed.

Lemma toLeader_total rf :
  wf rf →
  toLeader rf = Some
    (set_matchIndex (replicate (peers rf) 0)
      (set_nextIndex (replicate (peers rf) (logicIndex rf (len (log rf)))) (set_state LEADER rf)),
     [GoBroadcast true; ResetHeartbeatTimer]).
Proof.
  intros [Hl Hnx Hmx _]. unfold toLeader.
  pose (rf0 := set_state LEADER rf).
  pose (v := logicIndex rf (len (log rf))).
  edestruct (go_for_inv (λ j rf1, ∃ nx mx,
      rf1 = set_matchIndex mx (set_nextIndex nx rf0) ∧
      length nx = peers rf ∧ length mx = peers rf ∧
      (∀ k, 0 ≤ k < j → nx.[k] = Some v) ∧ (∀ k, 0 ≤ k < j → mx.[k] = Some 0)))
    as (rf1 & -> & nx & mx & -> & Hln & Hlm & Hn & Hm).
  - exists (nextIndex rf), (matchIndex rf).
    split_and!; [by destruct rf|done|done|intros; lia..].
  - intros j ? Hj (nx & mx & -> & Hln & Hlm & Hn & Hm); simpl in *.
    rewrite !go_store_Some by (unfold len; lia); simpl.
    eexists; split; [reflexivity|].
    exists (<[Z.to_nat j := v]> nx), (<[Z.to_nat j := 0]> mx).
    split_and!; [reflexivity|by rewrite length_insert..| |].
    + intros k Hk; destruct (decide (k = j)) as [->|].
      * apply go_index_insert_eq; unfold len; lia.
      * rewrite go_index_insert_ne by lia. apply Hn; lia.
    + intros k Hk; destruct (decide (k = j)) as [->|].
      * apply go_index_insert_eq; unfold len; lia.
      * rewrite go_index_insert_ne by lia. apply Hm; lia.
  - simpl. unfold printState, lastLog; simpl.
    destruct (go_index_lt_Some (log rf) (len (log rf) - 1)) as [x ->]; [lia|]; simpl.
    do 2 f_equal. by rewrite (go_filled_replicate (peers rf) v nx), (go_filled_replicate (peers rf) 0 mx).
Qed.

Lemma toLeader_Some rf rf' eff :
  toLeader rf = Some (rf', eff) →
  ∃ nx mx, rf' = set_matchIndex mx (set_nextIndex nx (set_state LEADER rf))
           ∧ length nx = length (nextIndex rf) ∧ length mx = length (matchIndex rf).
Proof.
  unfold toLeader. intros H; go_inv.
  eapply (go_for_from_preserves (λ rf1, ∃ nx mx,
    rf1 = set_matchIndex mx (set_nextIndex nx (set_state LEADER rf))
    ∧ length nx = length (nextIndex rf) ∧ length mx = length (matchIndex rf)))
    in Hx; [done| |].
  - exists (nextIndex rf), (matchIndex rf). by destruct rf.
  - intros j s s' (nx & mx & -> & Hn & Hm) Hb; simpl in Hb. go_inv.
    match goal with |- ∃ _ _, set_matchIndex ?m (set_nextIndex ?n _) = _ ∧ _ => exists n, m end.
    split_and!; [reflexivity|by rewrite length_insert..].
Qed.
Lemma trySendAe_Some rf server rf' :
  trySendAe rf server = Some rf' →
  ∃ ch, rf' = set_aeChan ch rf ∧ length ch = length (aeChan rf).
Proof.
  unfold trySendAe; intros H; go_inv. eexists; split; [reflexivity|by rewrite length_insert].
Qed.

Lemma mergeEntries_nonempty (lg entries lg' : list (Log C)) pli end_ changed :
  0 ≤ pli → 0 < len lg → mergeEntries lg entries pli end_ = Some (lg', changed) → 0 < len lg'.
Proof.
  unfold mergeEntries; intros Hp Hl H; go_inv; [|done].
  rewrite len_app, len_take by lia. pose proof (len_nonneg entries); lia.
Qed.
End node.

(** Inverts an operation of the node down to assignments of its fields. *)
Ltac node_inv :=
  repeat first
    [ progress go_inv
    | match goal with
      | H : toFollower _ _ _ = Some _ |- _ => apply toFollower_Some in H; subst
      | H : toCandidate _ = Some (_, _) |- _ => apply toCandidate_Some in H as [H ?]; subst
      | H : toLeader _ = Some (_, _) |- _ =>
          let nx := fresh "nx" in let mx := fresh "mx" in
          apply toLeader_Some in H as (nx & mx & H & ? & ?); subst
      | H : trySendAe _ _ = Some _ |- _ =>
          let ch := fresh "ch" in apply trySendAe_Some in H as (ch & H & ?); subst
      end ].
Ltac node_unfold :=
  unfold nodeExec, RequestVote, AppendEntries, InstallSnapshot, electReply,
    onRoundEntriesReply, onRoundSnapshotReply, handleAppendEntriesReply, tickElect,
    updateApplied, Start, Snapshot, CondInstallSnapshot, Kill, trySendCommit in *.

Section node_theorems.
Context {C : Type} `{!Gob Z, !Gob (list (Log C))}.
Implicit Types (rf : Raft C).

(** A stale vote, a stale leader or a duplicate message never moves a term back; the
    vote of a term changes only from "none", or when a candidate steps down. *)
Lemma term_vote rf op rf' :
  nodeExec rf op = Some rf' →
  currentTerm rf ≤ currentTerm rf' ∧ me rf' = me rf ∧ peers rf' = peers rf ∧
  (currentTerm rf' = currentTerm rf →
     votedFor rf' = votedFor rf ∨ votedFor rf = -1 ∨
     (state rf = CANDIDATE ∧ state rf' = FOLLOWER ∧ votedFor rf' = -1)).
Proof.
  intros H; destruct op; node_unfold; node_inv; simpl in *; bool_prop.
  all: repeat (case_if; simpl in *).
  all: split_and!; [lia|done|done|]; simpl.
  all: try (intros; first [by auto|lia|intuition lia]).
Qed.

Lemma wf_preserved rf op rf' : wf rf → nodeExec rf op = Some rf' → wf rf'.
Proof.
  intros [Hl Hn Hm Ha] H.
  destruct op; node_unfold; node_inv; simpl in *; bool_prop.
  all: repeat (case_if; simpl in *).
  all: try match goal with H : mergeEntries _ _ _ _ = Some _ |- _ =>
         apply mergeEntries_nonempty in H; [|lia..] end.
  all: constructor; simpl; rewrite ?length_insert, ?len_insert, ?len_snoc; lia.
Qed.

(** ** Roles: a candidate or leader of a term holds its own vote of that term *)
Definition roleOk rf : Prop := state rf ≠ FOLLOWER → votedFor rf = me rf.

Lemma roleOk_preserved rf op rf' :
  me rf ≠ -1 → roleOk rf → nodeExec rf op = Some rf' → roleOk rf'.
Proof.
  unfold roleOk; intros Hme Hr H.
  destruct op; node_unfold; node_inv; simpl in *; bool_prop.
  all: repeat (case_if; simpl in *).
  all: first [done | by auto | idtac].
  all: intros ?; first [apply Hr; by destruct (state rf) | idtac].
  - specialize (Hr H); lia.
  - apply Hr; intros E. rewrite E in *. intuition congruence.
Qed.

(** ** Durability: what is on disk is the peer's term, vote, snapshot position and log *)
Lemma decodeState_raftState rf :
  decodeState (raftState rf) =
    Some (currentTerm rf, votedFor rf, lastIncludedIndex rf, lastIncludedTerm rf, log rf).
Proof.
  unfold decodeState, raftState.
  rewrite gob_dec_enc; simpl. rewrite gob_dec_enc; simpl. rewrite gob_dec_enc; simpl.
  rewrite gob_dec_enc; simpl. by rewrite gob_dec_enc_last.
Qed.

(** Either nothing was saved yet and the peer is as [Make] left it, or the saved bytes
    decode to the peer's fields.  The dummy entry at the head of the log is excepted:
    [Make] rewrites its term without saving. *)
Definition durable rf : Prop :=
  (raftstate (persister rf) = [] ∧ currentTerm rf = 0 ∧ votedFor rf = -1 ∧
   lastIncludedIndex rf = 0 ∧ lastIncludedTerm rf = 0 ∧ log rf = [zero_Log]) ∨
  (∃ l0, decodeState (raftstate (persister rf)) =
           Some (currentTerm rf, votedFor rf, lastIncludedIndex rf, lastIncludedTerm rf,
                 l0 :: tail (log rf))).

Lemma durable_saved rf data :
  0 < len (log rf) → raftstate (persister rf) = data → data = raftState rf → durable rf.
Proof.
  intros Hl Hd ->. right. destruct (log rf) as [|l0 lg] eqn:Hlog; [done|].
  exists l0. simpl. by rewrite Hd, decodeState_raftState, Hlog.
Qed.

Lemma durable_persist rf : 0 < len (log rf) → durable (persist rf).
Proof. intros Hl. eapply durable_saved; [done|reflexivity|]. apply clone_id. Qed.

(** Fields that are not saved do not matter. *)
Lemma durable_set_state v rf : durable rf → durable (set_state v rf). Proof. done. Qed.
Lemma durable_set_dead v rf : durable rf → durable (set_dead v rf). Proof. done. Qed.
Lemma durable_set_lastApplied v rf : durable rf → durable (set_lastApplied v rf). Proof. done. Qed.
Lemma durable_set_commitIndex v rf : durable rf → durable (set_commitIndex v rf). Proof. done. Qed.
Lemma durable_set_nextIndex v rf : durable rf → durable (set_nextIndex v rf). Proof. done. Qed.
Lemma durable_set_matchIndex v rf : durable rf → durable (set_matchIndex v rf). Proof. done. Qed.
Lemma durable_set_aeChan v rf : durable rf → durable (set_aeChan v rf). Proof. done. Qed.
Lemma durable_set_commitChan v rf : durable rf → durable (set_commitChan v rf). Proof. done. Qed.
Create HintDb durable discriminated.
#[local] Hint Constants Opaque : durable.
#[local] Hint Resolve durable_set_state durable_set_dead durable_set_lastApplied
  durable_set_commitIndex durable_set_nextIndex durable_set_matchIndex durable_set_aeChan
  durable_set_commitChan durable_persist : durable.

Lemma durable_preserved rf op rf' :
  wf rf → durable rf → nodeExec rf op = Some rf' → durable rf'.
Proof.
  intros Hwf Hd H. pose proof (wf_log _ Hwf) as Hl.
  destruct op; node_unfold; node_inv; simpl in *; bool_prop.
  all: repeat (case_if; simpl in *).
  all: try match goal with H : mergeEntries _ _ _ _ = Some _ |- _ =>
         apply mergeEntries_nonempty in H; [|lia..] end.
  all: repeat match goal with
       | |- durable (set_commitChan _ _) => apply durable_set_commitChan
       | |- durable (set_commitIndex _ _) => apply durable_set_commitIndex
       | |- durable (persist _) => apply durable_persist; simpl
       | |- durable (set_persister _ _) => 
           eapply durable_saved; [simpl|reflexivity|apply clone_id]
       | |- durable _ => solve [auto 6 with durable]
       end.
  all: rewrite ?len_insert, ?len_snoc; lia.
Qed.

(** ** Crash and restart *)
Lemma Make_loop npeers (rf : Raft C) :
  length (nextIndex rf) = npeers → length (aeChan rf) = npeers →
  ∃ nx ch, go_for npeers (λ i rf,
      nx ← (nextIndex rf).[i <~ len (log rf)];
      ch ← (aeChan rf).[i <~ false];
      Some (set_aeChan ch (set_nextIndex nx rf))) rf = Some (set_aeChan ch (set_nextIndex nx rf))
    ∧ length nx = npeers ∧ length ch = npeers.
Proof.
  intros Hn Hc.
  edestruct (go_for_inv (λ _ rf1, ∃ nx ch, rf1 = set_aeChan ch (set_nextIndex nx rf)
      ∧ length nx = npeers ∧ length ch = npeers)) as (s & Hs & nx & ch & -> & ? & ?);
    [| |exists nx, ch; split; [exact Hs|done]].
  - exists (nextIndex rf), (aeChan rf). by destruct rf.
  - intros j ? Hj (nx & ch & -> & Hln & Hlc); simpl.
    rewrite !go_store_Some by (unfold len; simpl; lia); simpl.
    eexists; split; [reflexivity|].
    exists (<[Z.to_nat j := len (log rf)]> nx), (<[Z.to_nat j := false]> ch).
    split_and!; [reflexivity|by rewrite length_insert..].
Qed.

(** What a restarted peer has in common with the one that wrote the disk. *)
Record recovers (rf rf' : Raft C) : Prop := {
  rec_peers : peers rf' = peers rf;
  rec_me : me rf' = me rf;
  rec_term : currentTerm rf' = currentTerm rf;
  rec_vote : votedFor rf' = votedFor rf;
  rec_lii : lastIncludedIndex rf' = lastIncludedIndex rf;
  rec_lit : lastIncludedTerm rf' = lastIncludedTerm rf;
  rec_log : tail (log rf') = tail (log rf);
  rec_head : ∃ l, (log rf').[0] = Some l ∧ Term l = lastIncludedTerm rf;
  rec_role : state rf' = FOLLOWER;
  rec_commit : commitIndex rf' = 0;
  rec_applied : lastApplied rf' = lastIncludedIndex rf;
  rec_wf : wf rf';
  rec_durable : durable rf';
}.

Lemma Make_head (rf : Raft C) l0 lg :
  log rf = l0 :: lg →
  (l0 ← (log rf).[0];
   lg ← (log rf).[0 <~ mkLog (Command l0) (lastIncludedTerm rf)];
   Some (set_log lg rf)) =
  Some (set_log (mkLog (Command l0) (lastIncludedTerm rf) :: lg) rf).
Proof.
  intros ->. change ((l0 :: lg).[0]) with (Some l0). cbv [mbind option_bind].
  rewrite go_store_Some by (rewrite len_cons; pose proof (len_nonneg lg); lia). done.
Qed.

Lemma Make_recovers rf :
  durable rf → ∃ rf', Make (peers rf) (me rf) (persister rf) = Some rf' ∧ recovers rf rf'.
Proof.
  intros Hd. unfold Make.
  edestruct (Make_loop (peers rf)) as (nx & ch & -> & Hn & Hc);
    [simpl; by rewrite length_replicate..|]; simpl.
  unfold readPersist, ReadRaftState; rewrite clone_id.
  destruct Hd as [(Hnil & Ht & Hv & Hli & Hlt & Hlog)|(l0 & Hdec)].
  - rewrite Hnil. change (len (@nil byte) <? 1) with true. cbv iota.
    rewrite (Make_head _ zero_Log []) by done. eexists; split; [reflexivity|].
    constructor; simpl; try congruence; rewrite ?Hlog, ?Hli, ?Hlt; eauto.
    + by constructor; simpl; rewrite ?length_replicate.
    + left; simpl; by rewrite Hnil.
  - destruct (len (raftstate (persister rf)) <? 1) eqn:Hlen; bool_prop.
    { assert (raftstate (persister rf) = []) as Hnil.
      { destruct (raftstate (persister rf)); [done|rewrite len_cons in Hlen].
        match goal with _ : 1 + len ?l < 1 |- _ => pose proof (len_nonneg l); lia end. }
      rewrite Hnil in Hdec. unfold decodeState in Hdec. by rewrite gob_dec_nil in Hdec. }
    rewrite Hdec, (Make_head _ l0 (tail (log rf))) by done. eexists; split; [reflexivity|].
    constructor; simpl; try done; [by eexists|..].
    + by constructor; simpl; rewrite ?length_replicate.
    + right; simpl. by eauto.
Qed.
End node_theorems.
