(* ===== verification/RaftProps.v ===== *)
(** Properties of one Raft peer: no operation panics, state survives crashes, the log
    operations do what the paper's rules say, entries are applied once and in order. *)
From S2P Require Import Prelude Labgob Persister Raft RaftLog RaftNode.
#[local] Open Scope Z_scope.

Section totality.
Context {C : Type} `{!Gob Z, !Gob (list (Log C))}.
Implicit Types (rf : Raft C).

Lemma lastLog_total rf : 0 < len (log rf) → ∃ l, lastLog rf = Some l.
Proof. intros; apply go_index_lt_Some; lia. Qed.

Lemma printState_total rf : 0 < len (log rf) → printState rf = Some tt.
Proof. intros [l Hl]%lastLog_total. unfold printState. by rewrite Hl. Qed.

(** [rf] with the fields that [toFollower] changes, changed when [b] holds. *)
Lemma stepDown_total rf (b : bool) t :
  wf rf → ∃ rf', (if b then toFollower rf t (-1) else Some rf) = Some rf' ∧ wf rf' ∧
    log rf' = log rf ∧ lastIncludedIndex rf' = lastIncludedIndex rf ∧ peers rf' = peers rf.
Proof.
  intros Hwf. destruct b; [|by exists rf].
  rewrite toFollower_total by apply Hwf.
  eexists; split; [reflexivity|]. split_and!; [by destruct Hwf|done..].
Qed.

Lemma RequestVote_total rf args : wf rf → is_Some (RequestVote rf args).
Proof.
  intros Hwf. unfold RequestVote.
  destruct (stepDown_total rf (currentTerm rf <? rva_Term args) (rva_Term args) Hwf)
    as (rf1 & -> & Hwf1 & _); simpl.
  case_if; [by eexists|].
  unfold isFreshThan. destruct (lastLog_total rf1) as [l ->]; [apply Hwf1|]; simpl.
  case_if; by eexists.
Qed.

Lemma InstallSnapshot_total rf args : wf rf → is_Some (InstallSnapshot rf args).
Proof.
  intros Hwf. unfold InstallSnapshot.
  destruct (stepDown_total rf (currentTerm rf <? isa_Term args) (isa_Term args) Hwf)
    as (rf1 & -> & Hwf1 & _); simpl.
  repeat case_if; by eexists.
Qed.

Lemma scanBack_total (stop : Log C → bool) lg (i : Z) :
  i < len lg → 0 < len lg → ∃ k : nat, scanBack stop lg (Z.to_nat i) = Some k ∧ Z.of_nat k < len lg.
Proof.
  intros Hi Hl. unfold len in *.
  destruct (scanBack_spec stop lg (Z.to_nat i)) as (k & -> & ? & _); [lia|]. exists k; split; [done|lia].
Qed.

Lemma AppendEntries_total rf args : wf rf → is_Some (AppendEntries rf args).
Proof.
  intros Hwf. unfold AppendEntries.
  rewrite printState_total by apply Hwf.
  replace (if len (aea_Entries args) >? 0 then Some () else Some ()) with (Some ())
    by (by case_if). simpl.
  match goal with |- context [if ?b then toFollower rf ?t _ else _] =>
    destruct (stepDown_total rf b t Hwf) as (rf1 & -> & Hwf1 & _) end; simpl.
  case_if; [by eexists|]. case_if; [by eexists|].
  assert (0 ≤ realIndex rf1 (aea_PrevLogIndex args) < len (log rf1)) as Hp.
  { unfold getLastLogIndex, logicIndex, realIndex in *. lia. }
  destruct (go_index_lt_Some _ _ Hp) as [lp ->]; simpl.
  case_if.
  - destruct (scanBack_total (λ l, negb (Term l =? Term lp)) (log rf1)
      (realIndex rf1 (aea_PrevLogIndex args))) as (k & -> & _); [lia..|]. by eexists.
  - replace (realIndex rf1 (aea_PrevLogIndex args + len (aea_Entries args)))
      with (realIndex rf1 (aea_PrevLogIndex args) + len (aea_Entries args))
      by (unfold realIndex; lia).
    destruct (mergeEntries_total (log rf1) (aea_Entries args) _ Hp) as [[lg ch] ->]; simpl.
    by eexists.
Qed.

Lemma trySendAe_total rf server :
  wf rf → 0 ≤ server < Z.of_nat (peers rf) → is_Some (trySendAe rf server).
Proof.
  intros Hwf Hs. pose proof (wf_ae _ Hwf). unfold trySendAe.
  destruct (go_index_lt_Some (aeChan rf) server) as [c ->]; [unfold len; lia|]; simpl.
  rewrite go_store_Some by (unfold len; lia). by eexists.
Qed.

Lemma countMatch_total rf newCommit : wf rf → is_Some (countMatch rf newCommit).
Proof.
  intros Hwf. pose proof (wf_match _ Hwf). unfold countMatch.
  edestruct (go_for_inv (λ (_ : Z) (_ : Z), True)) as (s & -> & _); [done| |by eexists].
  intros j cnt Hj _; cbv beta. case_if; [by eauto|].
  destruct (go_index_lt_Some (matchIndex rf) j) as [m ->]; [unfold len; lia|]. simpl; by eauto.
Qed.

Lemma handleAppendEntriesReply_total rf args reply server :
  wf rf → 0 ≤ server < Z.of_nat (peers rf) →
  is_Some (handleAppendEntriesReply rf args reply server).
Proof.
  intros Hwf Hs. unfold handleAppendEntriesReply.
  rewrite printState_total by apply Hwf.
  replace (if negb (len (aea_Entries args) =? 0) then Some () else Some ()) with (Some ())
    by (by case_if). simpl.
  destruct (stepDown_total rf (currentTerm rf <? aer_Term reply) (aer_Term reply) Hwf)
    as (rf1 & -> & Hwf1 & _ & _ & Hp); simpl. rewrite <-Hp in Hs. clear dependent rf.
  pose proof Hwf1 as [Hl Hn Hm Ha].
  case_if; [by eexists|]. case_if.
  - assert (∀ v, is_Some (nx ← (nextIndex rf1).[server <~ v];
                          trySendAe (set_nextIndex nx rf1) server)) as Hsend.
    { intros v. rewrite go_store_Some by (unfold len; lia); simpl.
      apply trySendAe_total; [|done]. by constructor; simpl; rewrite ?length_insert. }
    case_if; simpl.
    + destruct (Hsend (aer_ConflictIndex reply)) as [r Hr]. exists r.
      by rewrite go_store_Some in Hr |- * by (unfold len; lia).
    + destruct (scanBack_total (λ l, Term l =? aer_ConflictTerm reply) (log rf1)
        (len (log rf1) - 1)) as (k & -> & Hk); [lia..|]; simpl.
      destruct (go_index_lt_Some (log rf1) (Z.of_nat k)) as [li ->]; [lia|]; simpl.
      match goal with |- context [go_store _ _ ?v] => destruct (Hsend v) as [r Hr] end.
      exists r. by rewrite go_store_Some in Hr |- * by (unfold len; lia).
  - rewrite go_store_Some by (unfold len; lia); simpl.
    destruct (go_index_lt_Some (matchIndex rf1) server) as [m ->]; [unfold len; lia|]; simpl.
    rewrite go_store_Some by (unfold len; lia); simpl.
    rewrite !go_index_insert_eq by (unfold len; lia); simpl.
    match goal with |- context [if ?b then trySendAe ?r _ else _] =>
      assert (wf r) as Hwf2 by (by constructor; simpl; rewrite ?length_insert);
      assert (∃ r', (if b then trySendAe r server else Some r) = Some r' ∧ wf r') as (rf2 & -> & Hwf3)
    end; simpl.
    { case_if; [|by eauto].
      destruct (trySendAe_total _ server Hwf2) as [r' Hr']; [done|]. exists r'; split; [done|].
      apply trySendAe_Some in Hr' as (ch & -> & Hch). destruct Hwf2.
      by constructor; simpl in *; rewrite ?Hch. }
    repeat (case_if; [by eexists|]). case_if; [|by eexists].
    destruct (countMatch_total rf2 (if m <? aea_PrevLogIndex args + len (aea_Entries args)
       then aea_PrevLogIndex args + len (aea_Entries args) else m) Hwf3) as [cnt ->]; simpl.
    case_if; by eexists.
Qed.

(** ** [updateApplied] *)

(** The message for one logical index *)
Definition applyMsgAt rf (i : Z) : option (ApplyMsg C) :=
  l ← (log rf).[realIndex rf i]; Some (mkApplyMsg true (Command l) i false [] 0 0).

Lemma updateApplied_spec rf :
  lastIncludedIndex rf ≤ lastApplied rf + 1 → commitIndex rf ≤ getLastLogIndex rf →
  ∃ rf' msgs, updateApplied rf = Some (rf', msgs) ∧
    rf' = set_lastApplied (commitIndex rf) (set_commitChan false rf) ∧
    len msgs = Z.max 0 (commitIndex rf - lastApplied rf) ∧
    (∀ k, 0 ≤ k < len msgs → msgs.[k] = applyMsgAt rf (lastApplied rf + 1 + k)).
Proof.
  intros Hlo Hhi. unfold updateApplied; simpl.
  destruct (lastApplied rf <? commitIndex rf) eqn:Hlt; bool_prop.
  2:{ eexists _, []; split_and!; [reflexivity|done|unfold len; simpl; lia|].
      intros k; unfold len; simpl; lia. }
  edestruct (go_for_inv (λ j msgs, len msgs = j ∧
      ∀ k, 0 ≤ k < j → msgs.[k] = applyMsgAt rf (lastApplied rf + 1 + k)))
    as (msgs & -> & Hlen & Hall).
  - split; [done|intros; lia].
  - intros j msgs Hj [Hlen Hall]; cbv beta.
    unfold getLastLogIndex, logicIndex in Hhi.
    assert (0 ≤ realIndex rf (lastApplied rf + j + 1) < len (log rf)) as Hr.
    { unfold realIndex; lia. }
    destruct (go_index_lt_Some (log rf) (realIndex rf (lastApplied rf + j + 1))) as [l Hl]; [done|].
    change (realIndex (set_commitChan false rf)) with (realIndex rf). rewrite Hl; simpl.
    eexists; split; [reflexivity|]. split; [rewrite len_snoc; lia|].
    intros k Hk. destruct (decide (k = j)) as [->|].
    + rewrite go_index_app_r, Hlen, Z.sub_diag by lia. unfold applyMsgAt.
      replace (lastApplied rf + 1 + j) with (lastApplied rf + j + 1) by lia. by rewrite Hl.
    + rewrite go_index_app_l by lia. apply Hall; lia.
  - simpl. eexists _, msgs; split_and!; [reflexivity|done|lia|].
    intros k Hk; apply Hall; lia.
Qed.

Lemma Snapshot_total rf index snap :
  wf rf → index ≤ getLastLogIndex rf → is_Some (Snapshot rf index snap).
Proof.
  intros Hwf Hi. unfold Snapshot. case_if; [by eexists|].
  unfold getLastLogIndex, logicIndex in Hi.
  assert (0 < realIndex rf index < len (log rf)) as Hr by (unfold realIndex; lia).
  rewrite go_make_Some, slice_from_Some by lia; simpl.
  rewrite go_copy_same_length
    by (rewrite length_replicate, length_drop; unfold len in *; lia).
  destruct (go_index_lt_Some (drop (Z.to_nat (realIndex rf index)) (log rf)) 0) as [l0 Hl0].
  { rewrite len_drop; lia. }
  rewrite Hl0; simpl.
  rewrite go_store_Some by (case_if; simpl; rewrite len_drop; lia). by eexists.
Qed.

Lemma CondInstallSnapshot_total rf term index snap :
  wf rf → (commitIndex rf < index → lastIncludedIndex rf ≤ index) →
  is_Some (CondInstallSnapshot rf term index snap).
Proof.
  intros Hwf Hi. unfold CondInstallSnapshot. case_if; [by eexists|]. specialize (Hi Hif).
  case_if.
  - rewrite go_make_Some by lia; simpl. by eexists.
  - unfold getLastLogIndex, logicIndex, realIndex in *.
    rewrite go_make_Some, slice_from_Some by lia; simpl.
    rewrite go_copy_same_length
      by (rewrite length_replicate, length_drop; unfold len in *; lia).
    rewrite go_store_Some by (rewrite len_drop; lia). by eexists.
Qed.

(** What an operation needs of its caller so as not to panic.  The three RPC handlers
    need nothing: their arguments come from the network. *)
Definition opSafe rf (op : NodeOp (C := C)) : Prop :=
  match op with
  | OpEntriesReply server _ _ | OpSnapshotReply server _ _ | OpReceiveAe server =>
      0 ≤ server < Z.of_nat (peers rf)
  | OpSnapshot index _ => index ≤ getLastLogIndex rf
  | OpCondInstallSnapshot _ index _ => commitIndex rf < index → lastIncludedIndex rf ≤ index
  | OpUpdateApplied =>
      lastIncludedIndex rf ≤ lastApplied rf + 1 ∧ commitIndex rf ≤ getLastLogIndex rf
  | _ => True
  end.

(** [onRound] reads the log at [nextIndex - 1]. *)
Definition roundSafe rf (server : Z) : Prop :=
  0 ≤ server < Z.of_nat (peers rf) ∧
  (state rf = LEADER → ∀ nx, (nextIndex rf).[server] = Some nx → nx ≤ getLastLogIndex rf + 1).

Lemma onRoundBegin_total rf server : wf rf → roundSafe rf server → is_Some (onRoundBegin rf server).
Proof.
  intros [Hl Hn _ Ha] [Hs Hnx]. unfold onRoundBegin.
  destruct (go_index_lt_Some (aeChan rf) server) as [ch ->]; [unfold len; lia|]. cbn [mbind option_bind].
  case_bool_decide as Hst; [by eexists|]. destruct (decide (state rf = LEADER)) as [Hld|]; [|done].
  destruct (go_index_lt_Some (nextIndex rf) server) as [nx Hx]; [unfold len; lia|].
  specialize (Hnx Hld nx Hx). rewrite Hx. cbn [mbind option_bind]. case_if; [by eexists|].
  unfold getLastLogIndex, logicIndex, realIndex in *.
  destruct (go_index_lt_Some (log rf) (nx - 1 - lastIncludedIndex rf)) as [prev ->]; [lia|].
  cbn [mbind option_bind]. case_if; [|by eexists].
  rewrite slice_from_Some by lia. cbn [mbind option_bind]. pose proof (len_nonneg (drop (Z.to_nat (nx - 1 - lastIncludedIndex rf + 1)) (log rf))).
  rewrite go_make_Some by done. by eexists.
Qed.

Lemma nodeExec_total rf op :
  wf rf → opSafe rf op →
  ∃ rf', nodeExec rf op = Some rf' ∧ wf rf' ∧ peers rf' = peers rf ∧ me rf' = me rf.
Proof.
  intros Hwf Hs.
  assert (is_Some (nodeExec rf op)) as [rf' Hrf'].
  { destruct op; simpl in *.
    - destruct (RequestVote_total rf args Hwf) as [[[? ?] ?] ->]; by eexists.
    - destruct (AppendEntries_total rf args Hwf) as [[[? ?] ?] ->]; by eexists.
    - destruct (InstallSnapshot_total rf args Hwf) as [[[? ?] ?] ->]; by eexists.
    - unfold electReply. rewrite toFollower_total by apply Hwf.
      rewrite toLeader_total by done. repeat case_if; by eexists.
    - destruct reply as [reply|]; simpl; [by apply handleAppendEntriesReply_total|].
      by apply trySendAe_total.
    - destruct reply as [reply|]; simpl; [|by apply trySendAe_total].
      rewrite toFollower_total by apply Hwf. case_if; [by eexists|].
      destruct Hwf as [? Hn Hm ?].
      destruct (go_index_lt_Some (matchIndex rf) server) as [m ->]; [unfold len; lia|]; simpl.
      rewrite !go_store_Some by (unfold len; lia). by eexists.
    - unfold tickElect, toCandidate. rewrite printState_total by apply Hwf.
      case_if; by eexists.
    - destruct (updateApplied_spec rf) as (rf' & ms & -> & _); [lia..|]. by eexists.
    - by eexists.
    - by apply Snapshot_total.
    - destruct (CondInstallSnapshot_total rf term index snap Hwf Hs) as [[? ?] ->]. by eexists.
    - rewrite go_store_Some by (rewrite <-(wf_ae _ Hwf) in Hs; unfold len; lia). by eexists.
    - by eexists. }
  exists rf'; split; [done|]. split; [by eapply wf_preserved|].
  destruct (term_vote _ _ _ Hrf') as (_ & ? & ? & _); done.
Qed.
(** C10: on a well-formed peer the RPC handlers (on any arguments), the election, [Start] and
    [Kill] return a well-formed peer of the same cluster, without an index or a slice out of range;
    so do the other operations under the index bounds of [opSafe]: the replies of a server there is,
    a snapshot up to the last entry of the log or installed from [lastIncludedIndex] on, and
    [updateApplied] when [lastApplied] is at most one behind the snapshot and the commit index is in
    the log.  What [onRound] does under the lock before its call returns for a server there is, if
    [nextIndex] is at most one after the log of a leader. *)
Theorem node_no_panic rf :
  wf rf →
  (∀ op, opSafe rf op →
    ∃ rf', nodeExec rf op = Some rf' ∧ wf rf' ∧ peers rf' = peers rf ∧ me rf' = me rf) ∧
  (∀ server, roundSafe rf server → ∃ call, onRoundBegin rf server = Some call).
Proof. intros Hwf. split; [by intros; apply nodeExec_total|by intros; apply onRoundBegin_total]. Qed.
End totality.

Section append_entries.
Context {C : Type} `{!Gob Z, !Gob (list (Log C))}.
Implicit Types (rf : Raft C) (args : AppendEntriesArgs C).

(** The peer [AppendEntries] works on after the term check. *)
Definition accepts rf args rf1 : Prop :=
  wf rf1 ∧ log rf1 = log rf ∧ lastIncludedIndex rf1 = lastIncludedIndex rf ∧
  commitIndex rf1 = commitIndex rf ∧ currentTerm rf1 = aea_Term args ∧
  state rf1 ≠ CANDIDATE.

(** A successful [AppendEntries] as equations. *)
Lemma AppendEntries_success_inv rf args rf' reply eff :
  wf rf → AppendEntries rf args = Some (rf', reply, eff) → aer_Success reply = true →
  let pli := realIndex rf (aea_PrevLogIndex args) in
  let last := aea_PrevLogIndex args + len (aea_Entries args) in
  ∃ rf1 lg changed lp,
    accepts rf args rf1 ∧ 0 ≤ pli < len (log rf) ∧
    (log rf).[pli] = Some lp ∧ Term lp = aea_PrevLogTerm args ∧
    mergeEntries (log rf) (aea_Entries args) pli (pli + len (aea_Entries args)) = Some (lg, changed) ∧
    rf' = (let rf2 := if changed : bool then persist (set_log lg rf1) else rf1 in
           if aea_LeaderCommit args >? commitIndex rf
           then trySendCommit (set_commitIndex (min_int (aea_LeaderCommit args) last) rf2)
           else rf2) ∧
    reply = mkAEReply 0 (aea_Term args) true 0 0 ∧ eff = [ResetElectTimer].
Proof.
  intros Hwf H Hs pli last. unfold AppendEntries in H.
  apply bind_Some in H as (? & _ & H).
  apply bind_Some in H as (rf1 & Hrf1 & H).
  assert (accepts rf args rf1 ∨ aea_Term args < currentTerm rf1) as Hacc.
  { case_if_in Hrf1.
    - apply toFollower_Some in Hrf1 as ->. left. by destruct Hwf.
    - injection Hrf1 as <-. destruct (decide (aea_Term args < currentTerm rf)); [by right|]. left.
      unfold accepts; split_and!; [done..|lia|]. intros E; rewrite E in *. intuition lia. }
  case_if_in H; [by go_inv|]. destruct Hacc as [Hacc|]; [|lia].
  pose proof Hacc as (Hwf1 & Hlog & Hlii & Hci & Hct & _).
  case_if_in H; [by go_inv|].
  assert (realIndex rf1 (aea_PrevLogIndex args) = pli) as Hpli.
  { unfold pli, realIndex. by rewrite Hlii. }
  rewrite Hpli in *. apply bind_Some in H as (lp & Hlp & H).
  case_if_in H; [by go_inv|]. apply bind_Some in H as ([lg changed] & Hmerge & [= <- <- <-]).
  replace (realIndex rf1 (aea_PrevLogIndex args + len (aea_Entries args)))
    with (pli + len (aea_Entries args)) in Hmerge by (unfold pli, realIndex; rewrite Hlii; lia).
  rewrite Hlog in Hlp, Hmerge. exists rf1, lg, changed, lp.
  pose proof (go_index_Some_lt _ _ _ Hlp). rewrite Hct.
  split_and!; try done; try lia. by rewrite <-Hci; destruct changed.
Qed.

Lemma persist_noop rf :
  raftstate (persister rf) = raftState rf → persist (set_log (log rf) rf) = rf.
Proof.
  intros H. destruct rf as [? [rs sn]]; simpl in *. unfold persist, SaveRaftState; simpl.
  rewrite clone_id. unfold raftState in *; simpl in *. by rewrite <-H.
Qed.

(** C12: the entries of a successful [AppendEntries] are merged into the log.  What is up to the
    previous index, where the terms agree, stays; what follows is left as it was or replaced by
    the entries, and has the terms that the rule of the Raft paper gives ([graft]: a conflicting
    suffix is replaced, entries that are already there are kept, also when more entries follow
    them).  If the log and the entries match, that is, hold the same entry wherever they have
    the same term at an index, then the result is that of the rule; otherwise an entry with an
    equal term may be overwritten. *)
Theorem AppendEntries_merges rf args rf' reply eff :
  wf rf → AppendEntries rf args = Some (rf', reply, eff) → aer_Success reply = true →
  let pli := realIndex rf (aea_PrevLogIndex args) in
  let old := drop (Z.to_nat (pli + 1)) (log rf) in
  (∃ merged, log rf' = take (Z.to_nat (pli + 1)) (log rf) ++ merged ∧
    (merged = old ∨ merged = aea_Entries args) ∧
    map Term merged = map Term (graft old (aea_Entries args)) ∧
    (matching old (aea_Entries args) → merged = graft old (aea_Entries args))) ∧
  currentTerm rf' = aea_Term args ∧ lastIncludedIndex rf' = lastIncludedIndex rf ∧
  (∃ lp, (log rf).[pli] = Some lp ∧ Term lp = aea_PrevLogTerm args).
Proof.
  intros Hwf H Hs pli old.
  destruct (AppendEntries_success_inv _ _ _ _ _ Hwf H Hs)
    as (rf1 & lg & ch & lp & (_ & Hlog & Hlii & _ & Hct & _) & Hp & Hlp & Hlt & Hmerge & -> & _).
  fold pli in Hp, Hlp, Hmerge.
  destruct (mergeEntries_merged _ (aea_Entries args) _ Hp) as (merged & ch' & Hm' & Hby). rewrite Hmerge in Hm'.
  destruct (mergeEntries_result _ _ _ _ _ Hp Hmerge) as (_ & _ & _ & _ & Hf & _).
  injection Hm' as -> <-. cbv zeta.
  split_and!; [exists merged; split; [|exact Hby]| | |by exists lp];
    destruct ch; case_if; simpl; rewrite ?Hlog, ?Hct, ?Hlii; auto.
  all: symmetry; auto.
Qed.

(** A duplicate of a successful [AppendEntries] is harmless: handling the same request
    again gives the same reply and leaves the peer, the stable storage included, as it is. *)
Theorem AppendEntries_idempotent rf args rf' reply eff :
  wf rf → AppendEntries rf args = Some (rf', reply, eff) → aer_Success reply = true →
  AppendEntries rf' args = Some (rf', reply, eff).
Proof.
  intros Hwf H Hs.
  assert (wf rf') as Hwf'.
  { apply (wf_preserved rf (OpAppendEntries args)); [done|]. simpl. by rewrite H. }
  destruct (AppendEntries_success_inv _ _ _ _ _ Hwf H Hs)
    as (rf1 & lg & ch & lp & (_ & Hlog & Hlii & Hci & Hct & Hst) & Hp & Hlp & Hlt & Hmerge & Hrf' & -> & ->).
  destruct (mergeEntries_result _ _ _ _ _ Hp Hmerge) as (Hl & _ & Hpre & _ & Hf & _).
  destruct (mergeEntries_again _ _ _ _ _ Hp Hmerge) as (ch' & Hm' & Hch').
  set (pli := realIndex rf (aea_PrevLogIndex args)) in *.
  assert (log rf' = lg) as Hlog'.
  { rewrite Hrf'. destruct ch; case_if; simpl; auto; rewrite Hlog; symmetry; auto. }
  assert (currentTerm rf' = aea_Term args ∧ state rf' ≠ CANDIDATE ∧
          lastIncludedIndex rf' = lastIncludedIndex rf) as (Hct' & Hst' & Hlii').
  { rewrite Hrf'. destruct ch; case_if; done. }
  unfold AppendEntries. rewrite printState_total by apply Hwf'.
  replace (if len (aea_Entries args) >? 0 then Some () else Some ()) with (Some ()) by (by case_if).
  simpl. rewrite Hct', Z.ltb_irrefl, (bool_decide_false _ Hst'); simpl. rewrite Hct'.
  replace (aea_Term args >? aea_Term args) with false by lia.
  replace (realIndex rf' (aea_PrevLogIndex args)) with pli by (unfold pli, realIndex; lia).
  replace (realIndex rf' (aea_PrevLogIndex args + len (aea_Entries args)))
    with (pli + len (aea_Entries args)) by (unfold pli, realIndex; lia).
  replace ((aea_PrevLogIndex args >? getLastLogIndex rf') || (pli <? 0)) with false
    by (unfold getLastLogIndex, logicIndex, pli, realIndex in *; rewrite Hlog', Hlii'; lia).
  rewrite Hlog', Hpre, Hlp by lia; simpl. rewrite Hlt, Z.eqb_refl; simpl. rewrite Hm'; simpl.
  assert ((if ch' then persist (set_log lg rf') else rf') = rf') as ->.
  { destruct ch'; [|done]. destruct ch; [|by specialize (Hch' eq_refl)].
    rewrite <-Hlog'. apply persist_noop. rewrite Hrf'. case_if; apply clone_id. }
  do 3 f_equal. cbv zeta in Hrf'. case_if_in Hrf'; subst rf'.
  - match goal with |- (if ?b then _ else _) = _ => by destruct b end.
  - replace (aea_LeaderCommit args >? _) with false; [done|].
    destruct ch; simpl; rewrite ?Hci; lia.
Qed.

(** A rejected [AppendEntries] at a log position the peer has tells the leader the
    start of the run of the conflicting term: every entry from [ConflictIndex] to
    [PrevLogIndex] has that term, and the entry before has not, unless it is the dummy. *)
Theorem AppendEntries_conflict rf args rf' reply eff :
  wf rf → AppendEntries rf args = Some (rf', reply, eff) →
  aer_Success reply = false → aea_Term args = aer_Term reply →
  0 ≤ realIndex rf (aea_PrevLogIndex args) < len (log rf) →
  let ci := realIndex rf (aer_ConflictIndex reply) in
  log rf' = log rf ∧ 1 ≤ ci ≤ realIndex rf (aea_PrevLogIndex args) + 1 ∧
  aer_ConflictTerm reply ≠ aea_PrevLogTerm args ∧
  (∀ j l, Z.max 1 ci ≤ j ≤ realIndex rf (aea_PrevLogIndex args) → (log rf).[j] = Some l →
     Term l = aer_ConflictTerm reply) ∧
  (1 < ci → ∃ l, (log rf).[ci - 1] = Some l ∧ Term l ≠ aer_ConflictTerm reply).
Proof.
  intros Hwf H Hs Ht Hp ci. unfold AppendEntries in H.
  apply bind_Some in H as (? & _ & H).
  apply bind_Some in H as (rf1 & Hrf1 & H).
  assert (log rf1 = log rf ∧ lastIncludedIndex rf1 = lastIncludedIndex rf) as [Hlog Hlii].
  { case_if_in Hrf1; [by apply toFollower_Some in Hrf1 as ->|by injection Hrf1 as <-]. }
  case_if_in H; [go_inv; lia|].
  case_if_in H.
  { unfold getLastLogIndex, logicIndex, realIndex in *. rewrite Hlog, Hlii in *. lia. }
  assert (realIndex rf1 (aea_PrevLogIndex args) = realIndex rf (aea_PrevLogIndex args)) as Hpli.
  { unfold realIndex. by rewrite Hlii. }
  rewrite Hpli, Hlog in *. apply bind_Some in H as (lp & Hlp & H).
  case_if_in H; [|by go_inv].
  apply bind_Some in H as (k & Hk & [= <- <- <-]); simpl in *.
  assert (ci = Z.of_nat k + 1) as -> by (unfold ci, realIndex, logicIndex; rewrite Hlii; lia).
  edestruct (scanBack_spec (λ l, negb (Term l =? Term lp)) (log rf)
    (Z.to_nat (realIndex rf (aea_PrevLogIndex args)))) as (k' & Hk' & Hle & Hno & Hyes).
  { unfold len in Hp; lia. }
  rewrite Hk' in Hk; injection Hk as ->.
  split_and!; [done|lia|lia|done| |].
  - intros j l Hj Hl. specialize (Hno (Z.to_nat j) l).
    rewrite go_index_nonneg in Hl by lia. apply Hno in Hl; [|lia]. bool_prop; lia.
  - intros Hk. destruct Hyes as (l & Hl & Hne); [lia|]. exists l.
    replace (Z.of_nat k + 1 - 1) with (Z.of_nat k) by lia.
    rewrite go_index_of_nat. bool_prop. done.
Qed.
End append_entries.

Section replication.
Context {C : Type} `{!Gob Z, !Gob (list (Log C))}.
Implicit Types (rf ld : Raft C) (args : AppendEntriesArgs C).

(** The term at a logical index, when the log still has it. *)
Definition termAt rf (j : Z) : option Z := Term <$> (log rf).[realIndex rf j].

(** What a leader sends: the whole suffix of its log after [PrevLogIndex]. *)
Lemma onRoundBegin_entries ld server args :
  onRoundBegin ld server = Some (Some (SendEntries args)) →
  state ld = LEADER ∧ aea_Term args = currentTerm ld ∧ aea_LeaderId args = me ld ∧
  aea_LeaderCommit args = commitIndex ld ∧
  0 ≤ realIndex ld (aea_PrevLogIndex args) < len (log ld) ∧
  termAt ld (aea_PrevLogIndex args) = Some (aea_PrevLogTerm args) ∧
  aea_Entries args = drop (Z.to_nat (realIndex ld (aea_PrevLogIndex args) + 1)) (log ld).
Proof.
  unfold onRoundBegin; intros H.
  apply bind_Some in H as (? & _ & H). case_if_in H; [done|].
  apply bind_Some in H as (nx & Hnx & H). case_if_in H; [done|].
  apply bind_Some in H as (prev & Hprev & H).
  apply bind_Some in H as (entries & He & [= <-]); simpl.
  pose proof (go_index_Some_lt _ _ _ Hprev) as Hr.
  assert (state ld = LEADER) by (by apply dec_stable).
  split_and!; try done; try lia; [unfold termAt; by rewrite Hprev|].
  case_if_in He.
  - apply bind_Some in He as (suffix & Hs & He). go_inv.
    unfold go_make in Hx. rewrite bool_decide_true in Hx by apply len_nonneg.
    injection Hx as <-. apply go_copy_same_length.
    rewrite length_replicate. unfold len; lia.
  - injection He as <-. symmetry. apply drop_ge.
    unfold getLastLogIndex, logicIndex, realIndex, len in *; lia.
Qed.

(** C11: replication.  When a peer accepts what a leader's [onRound] sent, the peer's log has
    the leader's terms at every index from [PrevLogIndex] to the end of the leader's log. *)
Theorem replication_agrees ld server args rf rf' reply eff :
  onRoundBegin ld server = Some (Some (SendEntries args)) →
  wf rf → AppendEntries rf args = Some (rf', reply, eff) → aer_Success reply = true →
  ∀ j, aea_PrevLogIndex args ≤ j ≤ getLastLogIndex ld →
    is_Some (termAt ld j) ∧ termAt rf' j = termAt ld j.
Proof.
  intros Hb Hwf H Hs j Hj.
  destruct (onRoundBegin_entries _ _ _ Hb) as (_ & _ & _ & _ & Hr & Hpt & He).
  destruct (AppendEntries_success_inv _ _ _ _ _ Hwf H Hs)
    as (rf1 & lg & ch & lp & (_ & Hlog & Hlii & _) & Hp & Hlp & Hlt & Hmerge & Hrf' & _ & _).
  destruct (mergeEntries_result _ _ _ _ _ Hp Hmerge) as (_ & _ & Hpre & Hent & Hf & _).
  assert (log rf' = lg ∧ lastIncludedIndex rf' = lastIncludedIndex rf) as [Hlog' Hlii'].
  { rewrite Hrf'. destruct ch; case_if; simpl; rewrite ?Hlog, ?Hlii; split; auto; symmetry; auto. }
  unfold getLastLogIndex, logicIndex in Hj.
  destruct (go_index_lt_Some (log ld) (realIndex ld j)) as [l Hl]; [unfold realIndex in *; lia|].
  unfold termAt at 1 3; rewrite Hl. split; [by eexists|].
  unfold termAt; rewrite Hlog'. simpl.
  replace (realIndex rf' j) with (realIndex rf j) by (unfold realIndex; by rewrite Hlii').
  destruct (decide (j = aea_PrevLogIndex args)) as [->|Hne].
  - rewrite Hpre, Hlp by lia. simpl. rewrite Hlt, <-Hpt. unfold termAt. by rewrite Hl.
  - replace (realIndex rf j) with
      (realIndex rf (aea_PrevLogIndex args) + 1 + (j - aea_PrevLogIndex args - 1))
      by (unfold realIndex; lia).
    apply Hent; [lia|]. rewrite He, go_index_drop by lia. rewrite <-Hl.
    f_equal. unfold realIndex; lia.
Qed.

(** What a leader sends never makes a follower's commit index go back, provided the
    leader's own commit index is within its log. *)
Theorem commit_monotone ld server args rf rf' reply eff :
  onRoundBegin ld server = Some (Some (SendEntries args)) →
  commitIndex ld ≤ getLastLogIndex ld →
  AppendEntries rf args = Some (rf', reply, eff) →
  commitIndex rf ≤ commitIndex rf' ≤ Z.max (commitIndex rf) (commitIndex ld).
Proof.
  intros Hb Hc H.
  destruct (onRoundBegin_entries _ _ _ Hb) as (_ & _ & _ & Hlc & Hr & _ & He).
  assert (commitIndex ld ≤ aea_PrevLogIndex args + len (aea_Entries args)) as Hle.
  { rewrite He, len_drop by lia.
    unfold getLastLogIndex, logicIndex, realIndex in *. lia. }
  unfold AppendEntries in H.
  apply bind_Some in H as (? & _ & H).
  apply bind_Some in H as (rf1 & Hrf1 & H).
  assert (commitIndex rf1 = commitIndex rf) as Hci.
  { case_if_in Hrf1; [by apply toFollower_Some in Hrf1 as ->|by injection Hrf1 as <-]. }
  go_inv; try lia.
  all: unfold min_int; destruct b; repeat (case_if; simpl in *); lia.
Qed.
End replication.
