(* ===== verification/RaftService.v ===== *)
(** The leader's commit rule and what a peer promises its service: commands are applied
    once and in order, a snapshot keeps the rest of the log, a restarted peer is the one
    that crashed. *)
From S2P Require Import Prelude Labgob Persister Raft RaftLog RaftNode RaftProps.
#[local] Open Scope Z_scope.

Section commit.
Context {C : Type} `{!Gob Z, !Gob (list (Log C))}.
Implicit Types (rf : Raft C).

(** The peers other than [me] whose [matchIndex] reaches [newCommit]. *)
Definition matched rf (newCommit : Z) (s : nat) : bool :=
  negb (Z.of_nat s =? me rf) && from_option (λ m, newCommit <=? m) false (matchIndex rf !! s).
Definition matchers rf (newCommit : Z) : list nat :=
  List.filter (matched rf newCommit) (seq 0 (peers rf)).

Lemma countMatch_spec rf newCommit :
  wf rf → countMatch rf newCommit = Some (1 + Z.of_nat (length (matchers rf newCommit))).
Proof.
  intros Hwf. pose proof (wf_match _ Hwf) as Hm. unfold countMatch, matchers.
  edestruct (go_for_inv (λ j cnt,
      cnt = 1 + Z.of_nat (length (List.filter (matched rf newCommit) (seq 0 (Z.to_nat j))))))
    as (cnt & -> & ->); [done| |by rewrite Nat2Z.id].
  intros j cnt Hj ->; cbv beta.
  replace (Z.to_nat (j + 1)) with (S (Z.to_nat j)) by lia.
  rewrite seq_S, List.filter_app, length_app; simpl.
  destruct (go_index_lt_Some (matchIndex rf) j) as [m Hmj]; [unfold len; lia|].
  assert (matched rf newCommit (Z.to_nat j) = negb (j =? me rf) && (newCommit <=? m)) as ->.
  { unfold matched. rewrite Z2Nat.id by lia. rewrite go_index_nonneg in Hmj by lia.
    by rewrite Hmj. }
  rewrite Hmj. destruct (j =? me rf); simpl; [eexists; split; [reflexivity|lia]|].
  rewrite Z.geb_leb. eexists; split; [reflexivity|]. destruct (newCommit <=? m); simpl; lia.
Qed.

Lemma majority_quot (n : nat) (k : Z) : Z.of_nat n `quot` 2 + 1 ≤ k → Z.of_nat n < 2 * k.
Proof.
  intros H. pose proof (Z.quot_rem' (Z.of_nat n) 2).
  pose proof (Z.rem_bound_pos (Z.of_nat n) 2). lia.
Qed.

(** What handling a reply adds to a leader's view of the others. *)
Lemma handleReply_match rf args reply server rf' :
  handleAppendEntriesReply rf args reply server = Some rf' → state rf' = LEADER →
  ∀ (v : nat) k, matchIndex rf' !! v = Some k →
    matchIndex rf !! v = Some k ∨
    (Z.of_nat v = server ∧ k = aea_PrevLogIndex args + len (aea_Entries args) ∧
     aer_Success reply = true ∧ aer_SendTerm reply = currentTerm rf).
Proof.
  intros H Hst v k Hk. unfold handleAppendEntriesReply in H.
  assert (∀ x, <[Z.to_nat server:=x]> (matchIndex rf) !! v = Some k → 0 ≤ server →
    matchIndex rf !! v = Some k ∨ (Z.of_nat v = server ∧ k = x)) as Hins.
  { intros x [(<- & <- & _)|[_ ?]]%list_lookup_insert_Some ?; [right; lia|by left]. }
  node_inv; simpl in *; bool_prop; try discriminate Hst; try (by left).
  all: apply Hins in Hk; [|tauto]; destruct Hk as [Hk|[Hv ->]]; [by left|].
  all: case_if; [right; tauto|left; subst; by rewrite <-go_index_of_nat].
Qed.

(** When handling a reply moves the commit index. *)
Lemma handleReply_commit rf args reply server rf' :
  wf rf → handleAppendEntriesReply rf args reply server = Some rf' →
  commitIndex rf' = commitIndex rf ∨
  (state rf = LEADER ∧ state rf' = LEADER ∧ aer_Success reply = true ∧ aer_SendTerm reply = currentTerm rf ∧
   commitIndex rf < commitIndex rf' ∧
   Z.of_nat (peers rf) < 2 * (1 + Z.of_nat (length (matchers rf' (commitIndex rf')))) ∧
   (matchIndex rf').[server] = Some (commitIndex rf') ∧ commitChan rf' = true).
Proof.
  intros Hwf H. destruct Hwf as [Hl Hn Hm Ha]. unfold handleAppendEntriesReply in H.
  node_inv; simpl in *; bool_prop; try (by left).
  all: match goal with H : countMatch ?r _ = Some _ |- _ =>
         rewrite countMatch_spec in H by (constructor; simpl; rewrite ?length_insert; congruence);
         injection H as H; subst end.
  all: right; split_and!; try tauto; [apply dec_stable; tauto..|by apply majority_quot].
Qed.

(** A leader moves its commit index only forward, only to an index that a strict
    majority of the peers (itself included) is known to have stored, and tells
    [updateApplied] when it does. *)
Theorem leader_commit rf args reply server rf' :
  wf rf → handleAppendEntriesReply rf args reply server = Some rf' →
  commitIndex rf' ≠ commitIndex rf →
  state rf = LEADER ∧ aer_Success reply = true ∧ aer_SendTerm reply = currentTerm rf ∧
  commitIndex rf < commitIndex rf' ∧
  Z.of_nat (peers rf) < 2 * (1 + Z.of_nat (length (matchers rf' (commitIndex rf')))) ∧
  (matchIndex rf').[server] = Some (commitIndex rf') ∧ commitChan rf' = true.
Proof. intros Hwf H Hne. destruct (handleReply_commit _ _ _ _ _ Hwf H); tauto. Qed.
End commit.

Section service.
Context {C : Type} `{!Gob Z, !Gob (list (Log C))}.
Implicit Types (rf : Raft C).

(** C19: one iteration of [updateApplied], on a peer whose [lastApplied] is not behind its
    snapshot and whose commit index is in its log, does not panic: it hands the service exactly
    the committed entries after [lastApplied], [lastApplied + 1] to [commitIndex], once each, in
    index order, with the commands of the log, none if there are none, and sets [lastApplied] to
    the commit index. *)
Theorem updateApplied_in_order rf :
  lastIncludedIndex rf ≤ lastApplied rf → commitIndex rf ≤ getLastLogIndex rf →
  ∃ rf' msgs, updateApplied rf = Some (rf', msgs) ∧
    lastApplied rf' = commitIndex rf ∧ commitIndex rf' = commitIndex rf ∧ log rf' = log rf ∧
    len msgs = Z.max 0 (commitIndex rf - lastApplied rf) ∧
    (∀ k, 0 ≤ k < len msgs → ∃ l,
       (log rf).[realIndex rf (lastApplied rf + 1 + k)] = Some l ∧
       msgs.[k] = Some (mkApplyMsg true (Command l) (lastApplied rf + 1 + k) false [] 0 0)).
Proof.
  intros Hlo Hhi. destruct (updateApplied_spec rf) as (rf' & msgs & -> & -> & Hlen & Hall); [lia..|].
  exists (set_lastApplied (commitIndex rf) (set_commitChan false rf)), msgs.
  split_and!; [done..|]. intros k Hk. rewrite Hall by done. unfold applyMsgAt.
  destruct (go_index_lt_Some (log rf) (realIndex rf (lastApplied rf + 1 + k))) as [l Hl].
  { unfold getLastLogIndex, logicIndex, realIndex in *. lia. }
  exists l. by rewrite Hl.
Qed.

(** The entry at a logical index. *)
Definition entryAt rf (j : Z) : option (Log C) := (log rf).[realIndex rf j].

Lemma Snapshot_Some rf index snap rf' :
  Snapshot rf index snap = Some rf' → lastIncludedIndex rf < index →
  ∃ l0, entryAt rf index = Some l0 ∧
    log rf' = mkLog None (Term l0) :: drop (Z.to_nat (realIndex rf index + 1)) (log rf) ∧
    lastIncludedIndex rf' = index ∧ lastIncludedTerm rf' = Term l0 ∧
    lastApplied rf' = Z.max (lastApplied rf) index ∧ commitIndex rf' = commitIndex rf ∧
    currentTerm rf' = currentTerm rf ∧ votedFor rf' = votedFor rf ∧
    peers rf' = peers rf ∧ me rf' = me rf ∧
    raftstate (persister rf') = raftState rf' ∧ ReadSnapshot (persister rf') = snap.
Proof.
  intros H Hi. unfold Snapshot in H. case_if_in H; [lia|].
  assert (0 < realIndex rf index) as Hr0 by (unfold realIndex; lia).
  apply bind_Some in H as (nl & Hnl & H). apply bind_Some in H as (src & Hsrc & H).
  apply slice_from_inv in Hsrc as [Hr ->].
  rewrite go_make_Some in Hnl by lia. injection Hnl as <-.
  rewrite go_copy_same_length in H
    by (rewrite length_replicate, length_drop; unfold len in *; lia).
  apply bind_Some in H as (l0 & Hl0 & H). simpl in Hl0.
  rewrite go_index_drop, Z.add_0_r in Hl0 by lia.
  apply bind_Some in H as (lg & Hlg & [= <-]).
  exists l0. pose proof (go_index_Some_lt _ _ _ Hl0) as Hlt.
  assert (lg = mkLog None (Term l0) :: drop (Z.to_nat (realIndex rf index + 1)) (log rf)) as Hlog.
  { case_if_in Hlg; simpl in Hlg; apply go_store_inv in Hlg as [_ ->].
    all: rewrite go_index_nonneg in Hl0 by lia.
    all: rewrite (drop_S _ _ _ Hl0); simpl; f_equal; f_equal; lia. }
  case_if; simpl; rewrite ?ReadSnapshot_SaveBoth; simpl in *; split_and!; try done; try apply clone_id; lia.
Qed.

(** A log trimmed at [index] shows the same entries after [index]. *)
Lemma trimmed_entryAt rf rf1 index j :
  0 ≤ realIndex rf index < len (log rf) → index < j →
  lastIncludedIndex rf1 = index → 0 < len (log rf1) →
  tail (log rf1) = drop (Z.to_nat (realIndex rf index + 1)) (log rf) →
  entryAt rf1 j = entryAt rf j.
Proof.
  intros Hr Hj Hlii Hl Htl. unfold entryAt.
  destruct (log rf1) as [|h tl]; [done|]; simpl in Htl. subst tl.
  assert (realIndex rf1 j = j - index) as -> by (unfold realIndex; lia).
  rewrite go_index_cons, go_index_drop by lia.
  f_equal. unfold realIndex; lia.
Qed.

(** C20: a snapshot at [index] keeps every entry after [index] at its logical index and the
    term at [index]; the snapshot is stored with the log it belongs to, and a crash right
    after it gives back the same log, with the entries up to [index] not to be applied
    again. *)
Theorem snapshot_keeps_log rf index snap rf' :
  wf rf → Snapshot rf index snap = Some rf' → lastIncludedIndex rf < index →
  getLastLogIndex rf' = getLastLogIndex rf ∧
  (∀ j, index < j → entryAt rf' j = entryAt rf j) ∧
  termAt rf' index = termAt rf index ∧
  ReadSnapshot (persister rf') = snap ∧
  ∃ rf'', Make (peers rf) (me rf) (persister rf') = Some rf'' ∧
    (∀ j, index < j → entryAt rf'' j = entryAt rf j) ∧ termAt rf'' index = termAt rf index ∧
    lastIncludedIndex rf'' = index ∧ lastApplied rf'' = index ∧
    currentTerm rf'' = currentTerm rf ∧ votedFor rf'' = votedFor rf.
Proof.
  intros Hwf H Hi.
  destruct (Snapshot_Some _ _ _ _ H Hi)
    as (l0 & Hl0 & Hlog & Hlii & Hlit & Hla & Hci & Hct & Hvf & Hpe & Hme & Hrs & Hsn).
  pose proof (go_index_Some_lt _ _ _ Hl0) as Hr.
  assert (0 < realIndex rf index) as Hr0 by (unfold realIndex; lia).
  assert (0 < len (log rf')) as Hpos by (by rewrite Hlog).
  assert (termAt rf index = Some (Term l0)) as Hti by (unfold termAt, entryAt in *; by rewrite Hl0).
  split_and!; [|intros j Hj|..|done|].
  - unfold getLastLogIndex, logicIndex. rewrite Hlog, Hlii, len_cons, len_drop by lia.
    unfold realIndex; lia.
  - apply (trimmed_entryAt rf rf' index); try done; by rewrite Hlog.
  - rewrite Hti. unfold termAt. rewrite Hlog.
    replace (realIndex rf' index) with 0 by (unfold realIndex; lia). done.
  - destruct (Make_recovers rf') as (rf'' & Hmk & Hrec); [by eapply durable_saved|].
    rewrite Hpe, Hme in Hmk. exists rf''; split; [done|].
    destruct Hrec as [_ _ Ht Hv Hl _ Htl (h & Hh & Hht) _ _ Hap Hwf'' _].
    split_and!; try congruence.
    + intros j Hj. apply (trimmed_entryAt rf rf'' index); try done;
        [congruence|apply Hwf''|by rewrite Htl, Hlog].
    + rewrite Hti. unfold termAt.
      replace (realIndex rf'' index) with 0 by (unfold realIndex; lia).
      rewrite Hh; simpl. congruence.
Qed.

(** ** The life of a peer: operations and crashes *)
Inductive LifeEvent := Op (op : NodeOp (C := C)) | Crash.

(** A crash loses everything but the stable storage. *)
Definition lifeStep rf (e : LifeEvent) : option (Raft C) :=
  match e with
  | Op op => nodeExec rf op
  | Crash => Make (peers rf) (me rf) (persister rf)
  end.

Fixpoint life rf (es : list LifeEvent) : option (Raft C) :=
  match es with
  | [] => Some rf
  | e :: es => rf ← lifeStep rf e; life rf es
  end.

Lemma Make_fresh npeers i :
  ∃ rf, Make npeers i MakePersister = Some rf ∧ wf rf ∧ durable rf ∧ peers rf = npeers ∧ me rf = i ∧
    currentTerm rf = 0 ∧ votedFor rf = -1 ∧ state rf = FOLLOWER.
Proof.
  pose (rf0 := mkRaft npeers MakePersister i false 0 (-1) [@zero_Log C] 0 0 0 0 [] [] FOLLOWER [] false).
  destruct (Make_recovers rf0) as (rf & Hm & Hr); [by left|].
  exists rf. by destruct Hr.
Qed.

Lemma life_invariant rf es rf' :
  wf rf → durable rf → life rf es = Some rf' →
  wf rf' ∧ durable rf' ∧ peers rf' = peers rf ∧ me rf' = me rf ∧ currentTerm rf ≤ currentTerm rf'.
Proof.
  revert rf; induction es as [|e es IH]; intros rf Hwf Hd H; simpl in H; [by go_inv|].
  apply bind_Some in H as (rf1 & H1 & H).
  assert (wf rf1 ∧ durable rf1 ∧ peers rf1 = peers rf ∧ me rf1 = me rf ∧
          currentTerm rf ≤ currentTerm rf1) as (Hwf1 & Hd1 & Hp1 & Hm1 & Ht1).
  { destruct e as [op|]; simpl in H1.
    - destruct (term_vote _ _ _ H1) as (? & ? & ? & _).
      split_and!; eauto using wf_preserved, durable_preserved.
    - destruct (Make_recovers rf Hd) as (rf2 & H2 & Hr). rewrite H1 in H2; injection H2 as <-.
      destruct Hr; split_and!; try done; lia. }
  destruct (IH rf1 Hwf1 Hd1 H) as (? & ? & ? & ? & ?). split_and!; try done; [congruence..|lia].
Qed.

(** [Make] keeps the stable storage as it is. *)
Lemma Make_persister k i p (rf : Raft C) : Make k i p = Some rf → persister rf = p.
Proof.
  unfold Make. intros H. apply bind_Some in H as (rf1 & Hloop & H).
  assert (persister rf1 = p) as Hp.
  { unfold go_for in Hloop. eapply (go_for_from_preserves (λ r, persister r = p)); [| |exact Hloop]; [done|].
    intros j r r' Hr Hb. apply bind_Some in Hb as (nx & _ & Hb). apply bind_Some in Hb as (ch & _ & [= <-]). done. }
  apply bind_Some in H as (l0 & _ & H). apply bind_Some in H as (lg & _ & [= <-]). simpl.
  unfold readPersist. destruct (decodeState _) as [[[[[? ?] ?] ?] ?]|]; by repeat case_if.
Qed.

(** C9: durability.  After any sequence of operations and crashes, what is on stable storage
    restores the peer: a restart always succeeds and gives a follower with the same term,
    the same vote, the same snapshot position and the same log entries; terms never go back. *)
Theorem crash_recovery npeers i es rf0 rf :
  Make npeers i MakePersister = Some rf0 → life rf0 es = Some rf →
  0 ≤ currentTerm rf ∧
  ∃ rf', Make npeers i (persister rf) = Some rf' ∧ recovers rf rf'.
Proof.
  intros H0 H. destruct (Make_fresh npeers i) as (rf1 & H1 & Hwf & Hd & Hp & Hm & Ht & _ & _).
  rewrite H0 in H1; injection H1 as <-.
  destruct (life_invariant _ _ _ Hwf Hd H) as (_ & Hd' & Hp' & Hm' & Ht').
  split; [lia|]. rewrite <-Hp, <-Hp', <-Hm, <-Hm'. by apply Make_recovers.
Qed.
End service.
