(* ===== verification/RaftElection.v ===== *)
(** A cluster of Raft peers with the RequestVote traffic between them, and election
    safety: at most one leader per term.

    The peers run the operations of [Raft.v].  An [elect] goroutine is a thread that sends
    its requests one peer at a time, reading the peer's state again for each of them, and
    counts the votes of its replies in [cnt].  The network delivers a request at most once,
    in any order, and may lose requests and replies ([labrpc]).  A crash loses everything
    of a peer but its stable storage.  All the other operations of a peer run with
    arbitrary arguments at any time.

    [grants] and [leaders] are history variables: no step reads them. *)
From S2P Require Import Prelude Labgob Persister Raft RaftLog RaftNode RaftProps RaftService.
#[local] Open Scope Z_scope.

Inductive CallStatus := Pending | Replied (reply : RequestVoteReply) | Done.

Record ElectThread := mkThread {
  et_server : nat;          (* the peer that runs it *)
  et_term : Z;              (* history: the term its election started in *)
  et_cnt : Z;               (* cnt *)
  et_next : nat;            (* i, the next peer of the loop *)
  et_alive : bool;          (* false after a crash of the peer *)
  et_counted : list nat;    (* history: the peers whose votes are in cnt *)
}.

Record VoteCall := mkCall {
  vc_thread : nat;
  vc_dst : nat;
  vc_args : RequestVoteArgs;
  vc_status : CallStatus;
}.

Section cluster.
Context {C : Type} `{!Gob Z, !Gob (list (Log C))}.

Record World := mkWorld {
  nodes : list (Raft C);
  elects : list ElectThread;
  calls : list VoteCall;
  grants : list (nat * Z * nat);     (* voter, term, candidate *)
  leaders : list (nat * Z);          (* peer, term *)
}.

(** The operations that involve no vote. *)
Definition quiet (op : NodeOp (C := C)) : bool :=
  match op with
  | OpRequestVote _ | OpElectReply _ _ | OpTickElect => false
  | _ => true
  end.

Inductive Action :=
  | ANode (s : nat) (op : NodeOp (C := C))
  | ATick (s : nat)                 (* the election timer of [s] fires *)
  | AElectSend (k : nat)            (* thread [k] runs one iteration of its loop *)
  | ADeliver (c : nat)              (* the request of call [c] reaches its peer *)
  | ALose (c : nat)                 (* the request or the reply of call [c] is lost *)
  | AReply (c : nat)                (* the reply of call [c] reaches its thread *)
  | ACrash (s : nat).

Definition initWorld (n : nat) : option World :=
  rfs ← mapM (λ s, Make n (Z.of_nat s) MakePersister) (seq 0 n);
  Some (mkWorld rfs [] [] [] []).

Definition setStatus (st : CallStatus) (c : VoteCall) : VoteCall :=
  mkCall (vc_thread c) (vc_dst c) (vc_args c) st.

Definition spawn (eff : list (Effect (ApplyMsg C))) (s : nat) (term : Z) : list ElectThread :=
  omap (λ e, match e with GoElect => Some (mkThread s term 1 0 true []) | _ => None end) eff.

Definition exec (w : World) (a : Action) : option World :=
  match a with
  | ANode s op =>
      if quiet op then
        rf ← nodes w !! s; rf' ← nodeExec rf op;
        Some (mkWorld (<[s := rf']> (nodes w)) (elects w) (calls w) (grants w) (leaders w))
      else None
  | ATick s =>
      rf ← nodes w !! s; '(rf', eff) ← tickElect rf;
      Some (mkWorld (<[s := rf']> (nodes w))
              (elects w ++ spawn eff s (currentTerm rf')) (calls w) (grants w) (leaders w))
  | AElectSend k =>
      th ← elects w !! k;
      rf ← nodes w !! et_server th;
      if et_alive th && (et_next th <? peers rf)%nat then
        let th' := mkThread (et_server th) (et_term th) (et_cnt th) (S (et_next th))
                     (et_alive th) (et_counted th) in
        if Z.of_nat (et_next th) =? me rf
        then Some (mkWorld (nodes w) (<[k := th']> (elects w)) (calls w) (grants w) (leaders w))
        else
          args ← electArgs rf;
          Some (mkWorld (nodes w) (<[k := th']> (elects w))
                  (calls w ++ [mkCall k (et_next th) args Pending]) (grants w) (leaders w))
      else None
  | ADeliver c =>
      vc ← calls w !! c;
      match vc_status vc with
      | Pending =>
          rf ← nodes w !! vc_dst vc;
          '(rf', reply, _) ← RequestVote rf (vc_args vc);
          Some (mkWorld (<[vc_dst vc := rf']> (nodes w)) (elects w)
                  (<[c := setStatus (Replied reply) vc]> (calls w))
                  (if rvr_VoteGranted reply
                   then (vc_dst vc, rva_Term (vc_args vc), Z.to_nat (rva_CandidateId (vc_args vc)))
                        :: grants w
                   else grants w)
                  (leaders w))
      | _ => None
      end
  | ALose c =>
      vc ← calls w !! c;
      Some (mkWorld (nodes w) (elects w) (<[c := setStatus Done vc]> (calls w)) (grants w) (leaders w))
  | AReply c =>
      vc ← calls w !! c;
      th ← elects w !! vc_thread vc;
      rf ← nodes w !! et_server th;
      match vc_status vc with
      | Replied reply =>
          if et_alive th then
            '(rf', cnt', _) ← electReply rf (et_cnt th) (stampVote (vc_args vc) reply);
            let counted := if cnt' =? et_cnt th then et_counted th
                           else vc_dst vc :: et_counted th in
            Some (mkWorld (<[et_server th := rf']> (nodes w))
                    (<[vc_thread vc := mkThread (et_server th) (et_term th) cnt' (et_next th)
                                         (et_alive th) counted]> (elects w))
                    (<[c := setStatus Done vc]> (calls w)) (grants w)
                    (if bool_decide (state rf ≠ LEADER ∧ state rf' = LEADER)
                     then (et_server th, currentTerm rf') :: leaders w else leaders w))
          else None
      | _ => None
      end
  | ACrash s =>
      rf ← nodes w !! s; rf' ← Make (peers rf) (me rf) (persister rf);
      Some (mkWorld (<[s := rf']> (nodes w))
              (map (λ th, if Nat.eqb (et_server th) s
                          then mkThread (et_server th) (et_term th) (et_cnt th) (et_next th)
                                 false (et_counted th)
                          else th) (elects w))
              (calls w) (grants w) (leaders w))
  end.

Fixpoint run (w : World) (l : list Action) : option World :=
  match l with
  | [] => Some w
  | a :: l => w' ← exec w a; run w' l
  end.

(** The states a cluster of [n] peers reaches by steps that [P] allows. *)
Inductive reachable (P : World → Action → Prop) (n : nat) : World → Prop :=
  | reach_init w : initWorld n = Some w → reachable P n w
  | reach_step w a w' :
      reachable P n w → P w a → exec w a = Some w' → reachable P n w'.

(** An [elect] goroutine sends a request only while its peer is still in the term of the
    election: the loop of [elect] is not overtaken by a change of term. *)
Definition sendsInTerm (w : World) (a : Action) : Prop :=
  match a with
  | AElectSend k => ∀ th rf, elects w !! k = Some th → nodes w !! et_server th = Some rf →
                             currentTerm rf = et_term th
  | _ => True
  end.

Definition sendsInTermb (w : World) (a : Action) : bool :=
  match a with
  | AElectSend k =>
      match elects w !! k with
      | Some th => match nodes w !! et_server th with
                   | Some rf => currentTerm rf =? et_term th
                   | None => true
                   end
      | None => true
      end
  | _ => true
  end.

Lemma sendsInTermb_spec w a : sendsInTermb w a = true → sendsInTerm w a.
Proof.
  destruct a; simpl; try done. intros H th rf Hth Hrf. rewrite Hth, Hrf in H. by bool_prop.
Qed.

(** [run] under the side condition [sendsInTerm]. *)
Fixpoint runInTerm (w : World) (l : list Action) : option World :=
  match l with
  | [] => Some w
  | a :: l => if sendsInTermb w a then w' ← exec w a; runInTerm w' l else None
  end.

Lemma runInTerm_reachable n w l w' :
  reachable sendsInTerm n w → runInTerm w l = Some w' → reachable sendsInTerm n w'.
Proof.
  revert w; induction l as [|a l IH]; intros w Hr H; simpl in H; [by go_inv|].
  case_if_in H; [|done]. apply bind_Some in H as (w1 & H1 & H).
  eapply IH; [|done]. eapply reach_step; eauto using sendsInTermb_spec.
Qed.

Lemma run_reachable P n w l w' :
  reachable P n w → (∀ w a, P w a) → run w l = Some w' → reachable P n w'.
Proof.
  intros Hr HP; revert w Hr; induction l as [|a l IH]; intros w Hr H; simpl in H; [by go_inv|].
  apply bind_Some in H as (w1 & H1 & H). eapply IH; [|done]. by eapply reach_step.
Qed.
End cluster.
Arguments World : clear implicits.
Arguments Action : clear implicits.

Section changes.
Context {C : Type} `{!Gob Z, !Gob (list (Log C))}.
Implicit Types (rf : Raft C).

(** How a step may change the term, vote and role of a peer, short of an election won. *)
Record voteStep rf rf' : Prop := {
  vs_term : currentTerm rf ≤ currentTerm rf';
  vs_vote : currentTerm rf' = currentTerm rf →
    votedFor rf' = votedFor rf ∨ votedFor rf = -1 ∨ state rf = CANDIDATE;
  vs_cand : currentTerm rf' = currentTerm rf → state rf' = CANDIDATE → state rf = CANDIDATE;
  vs_lead : state rf' = LEADER → currentTerm rf' = currentTerm rf ∧ state rf = LEADER;
}.

Lemma quiet_voteStep rf op rf' :
  quiet op = true → nodeExec rf op = Some rf' → voteStep rf rf'.
Proof.
  intros Hq H; destruct op; try discriminate Hq; clear Hq;
    node_unfold; node_inv; simpl in *; bool_prop.
  all: repeat (case_if; simpl in *).
  all: constructor; simpl; intros; first [lia|by auto|discriminate|idtac].
  all: intuition lia.
Qed.

(** What a vote granted means for the voter. *)
Lemma RequestVote_voteStep rf args rf' reply eff :
  RequestVote rf args = Some (rf', reply, eff) →
  voteStep rf rf' ∧
  (rvr_VoteGranted reply = true →
     currentTerm rf' = rva_Term args ∧ votedFor rf' = rva_CandidateId args ∧
     (currentTerm rf = rva_Term args → votedFor rf = -1 ∨ votedFor rf = rva_CandidateId args)).
Proof.
  unfold RequestVote; intros H; node_inv; simpl in *; bool_prop.
  all: split; [constructor; simpl; intros; first [lia|by auto|discriminate|idtac]|].
  all: simpl; try done; intros; split_and!; try done; intros; try lia; intuition lia.
Qed.

Lemma electReply_cases rf cnt reply rf' cnt' eff :
  electReply rf cnt reply = Some (rf', cnt', eff) →
  (voteStep rf rf' ∧ cnt' = cnt ∧ (state rf' = LEADER → state rf = LEADER)) ∨
  (state rf = CANDIDATE ∧ rvr_SendTerm reply = currentTerm rf ∧ rvr_VoteGranted reply = true ∧
   cnt' = cnt + 1 ∧ currentTerm rf' = currentTerm rf ∧ votedFor rf' = votedFor rf ∧
   (rf' = rf ∨ (state rf' = LEADER ∧ Z.of_nat (peers rf) < 2 * cnt'))).
Proof.
  unfold electReply; intros H; node_inv; simpl in *.
  - left. bool_prop. split_and!; [|done|done]. constructor; simpl; intros; (lia || by auto || done).
  - left. split_and!; [|done|done]. constructor; intros; (lia || by auto || done).
  - right. bool_prop. destruct Hif0 as [[Hst Hsend] Hgr].
    split_and!; try done; [by apply dec_stable|]. right; split; [done|].
    apply majority_quot. by bool_prop.
  - right. bool_prop. destruct Hif0 as [[Hst Hsend] Hgr].
    split_and!; try done; [by apply dec_stable|by left].
Qed.

Lemma tickElect_cases rf rf' eff :
  tickElect rf = Some (rf', eff) →
  voteStep rf rf' ∧
  (∀ th, th ∈ spawn eff (Z.to_nat (me rf)) (currentTerm rf') →
     th = mkThread (Z.to_nat (me rf)) (currentTerm rf') 1 0 true []).
Proof.
  unfold tickElect; intros H; node_inv; simpl in *.
  - split; [constructor; simpl; intros; (lia || by auto || done)|].
    intros th Hth. by apply list_elem_of_singleton in Hth.
  - split; [constructor; intros; (lia || by auto || done)|].
    intros th Hth. by apply elem_of_nil in Hth.
Qed.

Lemma recovers_voteStep rf rf' : recovers rf rf' → voteStep rf rf'.
Proof.
  intros []; constructor; intros; try lia; try congruence.
Qed.
End changes.

Section election_safety.
Context {C : Type} `{!Gob Z, !Gob (list (Log C))}.
Implicit Types (rf : Raft C) (w : World C).

(** ** The invariant of the peers and the votes they gave *)
Record nodeOk (n : nat) (s : nat) rf : Prop := {
  no_wf : wf rf;
  no_durable : durable rf;
  no_role : roleOk rf;
  no_me : me rf = Z.of_nat s;
  no_peers : peers rf = n;
}.

Record votesInv (n : nat) (nds : list (Raft C)) (gs : list (nat * Z * nat)) (ls : list (nat * Z)) :
    Prop := {
  vi_len : length nds = n;
  vi_nodes : ∀ s rf, nds !! s = Some rf → nodeOk n s rf;
  (* a vote given is remembered for the rest of the term *)
  vi_grant : ∀ v t c rf, (v, t, c) ∈ gs → nds !! v = Some rf →
    v ≠ c ∧ t ≤ currentTerm rf ∧ (currentTerm rf = t → votedFor rf = Z.of_nat c);
  vi_grant_node : ∀ v t c, (v, t, c) ∈ gs → (v < n)%nat;
  vi_once : ∀ v t c1 c2, (v, t, c1) ∈ gs → (v, t, c2) ∈ gs → c1 = c2;
  (* a leader has the votes of a majority and keeps its own *)
  vi_leader : ∀ s t rf, (s, t) ∈ ls → nds !! s = Some rf →
    t ≤ currentTerm rf ∧ (currentTerm rf = t → votedFor rf = Z.of_nat s ∧ state rf ≠ CANDIDATE);
  vi_excl : ∀ s t c, (s, t) ∈ ls → (s, t, c) ∉ gs;
  vi_quorum : ∀ s t, (s, t) ∈ ls → (s < n)%nat ∧ ∃ Q : list nat,
    NoDup Q ∧ (s ∉ Q) ∧ Z.of_nat n < 2 * (1 + Z.of_nat (length Q)) ∧
    ∀ v, v ∈ Q → (v < n)%nat ∧ (v, t, s) ∈ gs;
  vi_listed : ∀ s rf, nds !! s = Some rf → state rf = LEADER → (s, currentTerm rf) ∈ ls;
}.

(** ** The invariant of the election threads and their calls; the peers do not occur in it *)
Record threadOk (n : nat) (gs : list (nat * Z * nat)) (th : ElectThread) : Prop := {
  to_server : (et_server th < n)%nat;
  to_cnt : et_cnt th = 1 + Z.of_nat (length (et_counted th));
  to_nodup : NoDup (et_counted th);
  to_self : et_server th ∉ et_counted th;
  to_votes : ∀ v, v ∈ et_counted th →
    (v < n)%nat ∧ (v < et_next th)%nat ∧ (v, et_term th, et_server th) ∈ gs;
}.

Record callOk (n : nat) (gs : list (nat * Z * nat)) (th : ElectThread) (vc : VoteCall) : Prop := {
  co_dst : (vc_dst vc < n)%nat;
  co_sent : (vc_dst vc < et_next th)%nat;
  co_other : vc_dst vc ≠ et_server th;
  co_term : rva_Term (vc_args vc) = et_term th;
  co_cand : rva_CandidateId (vc_args vc) = Z.of_nat (et_server th);
  co_open : vc_status vc ≠ Done → vc_dst vc ∉ et_counted th;
  co_reply : ∀ reply, vc_status vc = Replied reply → rvr_VoteGranted reply = true →
    (vc_dst vc, et_term th, et_server th) ∈ gs;
}.

Record trafficInv (n : nat) (ths : list ElectThread) (cs : list VoteCall)
    (gs : list (nat * Z * nat)) : Prop := {
  ti_threads : ∀ k th, ths !! k = Some th → threadOk n gs th;
  ti_calls : ∀ c vc, cs !! c = Some vc →
    ∃ th, ths !! vc_thread vc = Some th ∧ callOk n gs th vc;
  ti_distinct : ∀ c1 c2 v1 v2, cs !! c1 = Some v1 → cs !! c2 = Some v2 → c1 ≠ c2 →
    vc_thread v1 = vc_thread v2 → vc_dst v1 ≠ vc_dst v2;
}.

(** ** One peer changes *)
Lemma votesInv_node n nds gs ls s rf rf' :
  votesInv n nds gs ls → nds !! s = Some rf → voteStep rf rf' → nodeOk n s rf' →
  votesInv n (<[s := rf']> nds) gs ls.
Proof.
  intros I Hs [Ht Hv Hc Hl] Hok. pose proof (lookup_lt_Some _ _ _ Hs) as Hlt.
  pose proof (vi_nodes _ _ _ _ I _ _ Hs) as Hok0.
  constructor.
  - rewrite length_insert. apply I.
  - intros s' r [(-> & <- & _)|[Hne Hr]]%list_lookup_insert_Some; [done|by eapply vi_nodes].
  - intros v t c r Hg Hr. apply list_lookup_insert_Some in Hr as [(-> & <- & _)|[Hne Hr]];
      [|by eapply vi_grant].
    destruct (vi_grant _ _ _ _ I _ _ _ _ Hg Hs) as (Hvc & Hle & Hvf).
    split_and!; [done|lia|]. intros Heq. assert (currentTerm rf = t) as Hct by lia.
    specialize (Hvf Hct). destruct Hv as [Hv|[Hv|Hv]]; [lia|lia|lia|].
    exfalso. apply Hvc. rewrite (no_role _ _ _ Hok0), (no_me _ _ _ Hok0) in Hvf; [lia|].
    rewrite Hv; done.
  - apply I.
  - apply I.
  - intros s' t r Hls Hr. apply list_lookup_insert_Some in Hr as [(-> & <- & _)|[Hne Hr]];
      [|by eapply vi_leader].
    destruct (vi_leader _ _ _ _ I _ _ _ Hls Hs) as (Hle & Hvf).
    split; [lia|]. intros Heq. assert (currentTerm rf = t) as Hct by lia.
    destruct (Hvf Hct) as [Hvf1 Hst]. destruct Hv as [Hv|[Hv|Hv]]; [lia|..|lia|done].
    split; [congruence|]. intros Hst'. apply Hst, Hc; [lia|done].
  - apply I.
  - apply I.
  - intros s' r Hr Hst. apply list_lookup_insert_Some in Hr as [(-> & <- & _)|[Hne Hr]];
      [|by eapply vi_listed].
    destruct (Hl Hst) as [-> Hst0]. by eapply vi_listed.
Qed.

(** A peer gives its vote. *)
Lemma votesInv_grant n nds gs ls v rf rf' t c :
  votesInv n nds gs ls → nds !! v = Some rf → voteStep rf rf' → nodeOk n v rf' →
  v ≠ c → currentTerm rf' = t → votedFor rf' = Z.of_nat c →
  (currentTerm rf = t → votedFor rf = -1 ∨ votedFor rf = Z.of_nat c) →
  votesInv n (<[v := rf']> nds) ((v, t, c) :: gs) ls.
Proof.
  intros I Hs Hvs Hok Hne Hct Hvf Hold. pose proof (lookup_lt_Some _ _ _ Hs) as Hlt.
  pose proof (votesInv_node _ _ _ _ _ _ _ I Hs Hvs Hok) as I'.
  assert (∀ c', (v, t, c') ∈ gs → c' = c) as Huniq.
  { intros c' Hg. destruct (vi_grant _ _ _ _ I _ _ _ _ Hg Hs) as (_ & Hle & Hvf').
    pose proof (vs_term _ _ Hvs). assert (currentTerm rf = t) as Ht by lia.
    destruct (Hold Ht); specialize (Hvf' Ht); lia. }
  constructor; try apply I'.
  - intros v' t' c' r [[= -> -> ->]|Hg]%elem_of_cons Hr; [|by eapply (vi_grant _ _ _ _ I')].
    rewrite list_lookup_insert_eq in Hr by done. injection Hr as <-. split_and!; [done|lia|done].
  - intros v' t' c' [[= -> -> ->]|Hg]%elem_of_cons; [|by eapply (vi_grant_node _ _ _ _ I)].
    by rewrite <-(vi_len _ _ _ _ I).
  - intros v' t' c1 c2 [H1|H1]%elem_of_cons [H2|H2]%elem_of_cons; simplify_eq; auto.
    + symmetry; auto.
    + by eapply (vi_once _ _ _ _ I).
  - intros s t' c' Hls [H1|H1]%elem_of_cons; simplify_eq; [|by eapply (vi_excl _ _ _ _ I)].
    destruct (vi_leader _ _ _ _ I _ _ _ Hls Hs) as (Hle & Hv).
    pose proof (vs_term _ _ Hvs). assert (currentTerm rf = currentTerm rf') as Ht by lia.
    destruct (Hv Ht) as [Hv1 _], (Hold Ht); lia.
  - intros s t' Hls. destruct (vi_quorum _ _ _ _ I _ _ Hls) as (? & Q & ? & ? & ? & HQ).
    split; [done|]. exists Q; split_and!; [done..|]. intros v' Hv'.
    destruct (HQ v' Hv'). split; [done|]. by apply elem_of_cons; right.
Qed.

(** A candidate becomes leader. *)
Lemma votesInv_lead n nds gs ls s rf rf' (Q : list nat) :
  votesInv n nds gs ls → nds !! s = Some rf → nodeOk n s rf' →
  currentTerm rf' = currentTerm rf → votedFor rf' = votedFor rf →
  state rf = CANDIDATE → state rf' = LEADER →
  NoDup Q → (s ∉ Q) → Z.of_nat n < 2 * (1 + Z.of_nat (length Q)) →
  (∀ v, v ∈ Q → (v < n)%nat ∧ (v, currentTerm rf, s) ∈ gs) →
  votesInv n (<[s := rf']> nds) gs ((s, currentTerm rf') :: ls).
Proof.
  intros I Hs Hok Hct Hvf Hc Hl HQ1 HQ2 HQ3 HQ4. pose proof (lookup_lt_Some _ _ _ Hs) as Hlt.
  constructor.
  - rewrite length_insert. apply I.
  - intros s' r [(-> & <- & _)|[Hne Hr]]%list_lookup_insert_Some; [done|by eapply vi_nodes].
  - intros v t c r Hg Hr. apply list_lookup_insert_Some in Hr as [(-> & <- & _)|[Hne Hr]];
      [|by eapply vi_grant].
    rewrite Hct, Hvf. by eapply vi_grant.
  - apply I.
  - apply I.
  - intros s' t r Hls Hr. apply list_lookup_insert_Some in Hr as [(-> & <- & _)|[Hne Hr]].
    + apply elem_of_cons in Hls as [Heq|Hls]; simplify_eq.
      * split; [lia|]. intros _. split; [|by rewrite Hl].
        rewrite (no_role _ _ _ Hok), (no_me _ _ _ Hok); [done|by rewrite Hl].
      * destruct (vi_leader _ _ _ _ I _ _ _ Hls Hs) as (Hle & Hv).
        split; [lia|]. intros Heq. destruct Hv as [Hv Hst]; [lia|done].
    + apply elem_of_cons in Hls as [Heq|Hls]; simplify_eq; by eapply vi_leader.
  - intros s' t c [[= -> ->]|Hls]%elem_of_cons Hg; [|by eapply (vi_excl _ _ _ _ I)].
    destruct (vi_grant _ _ _ _ I _ _ _ _ Hg Hs) as (Hne & _ & Hv).
    pose proof (vi_nodes _ _ _ _ I _ _ Hs) as Hok0.
    rewrite (no_role _ _ _ Hok0), (no_me _ _ _ Hok0) in Hv by (by rewrite Hc). lia.
  - intros s' t [[= -> ->]|Hls]%elem_of_cons; [|by eapply vi_quorum].
    split; [by rewrite <-(vi_len _ _ _ _ I)|]. exists Q. rewrite Hct. by split_and!.
  - intros s' r Hr Hst. apply elem_of_cons.
    apply list_lookup_insert_Some in Hr as [(-> & <- & _)|[Hne Hr]]; [by left|].
    right. by eapply vi_listed.
Qed.

(** Two majorities share a voter. *)
Lemma votesInv_unique n nds gs ls s1 s2 t :
  votesInv n nds gs ls → (s1, t) ∈ ls → (s2, t) ∈ ls → s1 = s2.
Proof.
  intros I H1 H2.
  destruct (vi_quorum _ _ _ _ I _ _ H1) as (Hs1 & Q1 & Hn1 & Hq1 & Hm1 & HQ1).
  destruct (vi_quorum _ _ _ _ I _ _ H2) as (Hs2 & Q2 & Hn2 & Hq2 & Hm2 & HQ2).
  assert (∀ s (Q : list nat), NoDup Q → (s ∉ Q) → NoDup (s :: Q)) as Hcons.
  { intros; by apply NoDup_cons. }
  destruct (decide (Forall (λ v, v ∉ s2 :: Q2) (s1 :: Q1))) as [Hdis|Hex].
  - exfalso.
    assert (length ((s1 :: Q1) ++ (s2 :: Q2)) ≤ n)%nat as Hlen.
    { rewrite <-(length_seq n 0). apply submseteq_length, NoDup_submseteq.
      - apply NoDup_app; split_and!; [by apply Hcons| |by apply Hcons].
        intros x Hx. rewrite Forall_forall in Hdis. by apply Hdis.
      - intros x. rewrite elem_of_app, !elem_of_cons, elem_of_seq.
        intros [[->|Hx]|[->|Hx]]; [lia|apply HQ1 in Hx; lia|lia|apply HQ2 in Hx; lia]. }
    rewrite length_app in Hlen; simpl in Hlen. lia.
  - apply not_Forall_Exists in Hex; [|apply _].
    apply Exists_exists in Hex as (v & Hv1 & Hv2). apply dec_stable in Hv2.
    apply elem_of_cons in Hv1 as [->|Hv1]; apply elem_of_cons in Hv2 as [->|Hv2].
    + done.
    + destruct (HQ2 _ Hv2) as [_ Hg]. by destruct (vi_excl _ _ _ _ I _ _ _ H1 Hg).
    + destruct (HQ1 _ Hv1) as [_ Hg]. by destruct (vi_excl _ _ _ _ I _ _ _ H2 Hg).
    + destruct (HQ1 _ Hv1) as [_ Hg1], (HQ2 _ Hv2) as [_ Hg2].
      by eapply (vi_once _ _ _ _ I).
Qed.

(** ** The traffic *)
Lemma threadOk_mono n gs gs' th : gs ⊆ gs' → threadOk n gs th → threadOk n gs' th.
Proof. intros Hsub []; constructor; auto. intros v Hv. destruct (to_votes0 v Hv) as (? & ? & ?); auto. Qed.

Lemma callOk_mono n gs gs' th vc : gs ⊆ gs' → callOk n gs th vc → callOk n gs' th vc.
Proof. intros Hsub []; constructor; eauto. Qed.

Lemma trafficInv_mono n ths cs gs gs' :
  gs ⊆ gs' → trafficInv n ths cs gs → trafficInv n ths cs gs'.
Proof.
  intros Hsub [Ht Hc Hd]; constructor; [eauto using threadOk_mono| |done].
  intros c vc Hvc. destruct (Hc c vc Hvc) as (th & ? & ?). eauto using callOk_mono.
Qed.

(** Threads that go on: same election, same count, further in the loop. *)
Definition goesOn (th th' : ElectThread) : Prop :=
  et_server th' = et_server th ∧ et_term th' = et_term th ∧ et_cnt th' = et_cnt th ∧
  et_counted th' = et_counted th ∧ (et_next th ≤ et_next th')%nat.

Lemma trafficInv_goesOn n ths ths' cs gs :
  trafficInv n ths cs gs → Forall2 goesOn ths ths' → trafficInv n ths' cs gs.
Proof.
  intros [Ht Hc Hd] HF; constructor; [| |done].
  - intros k th' Hth'. destruct (Forall2_lookup_r _ _ _ _ _ HF Hth') as (th & Hth & E1 & E2 & E3 & E4 & E5).
    destruct (Ht k th Hth) as [? ? ? ? Hv]. constructor; rewrite ?E1, ?E3, ?E4; try done.
    intros v Hin. destruct (Hv v Hin) as (? & ? & ?). rewrite E2. split_and!; [done|lia|done].
  - intros c vc Hvc. destruct (Hc c vc Hvc) as (th & Hth & Hok).
    destruct (Forall2_lookup_l _ _ _ _ _ HF Hth) as (th' & Hth' & E1 & E2 & E3 & E4 & E5).
    exists th'; split; [done|]. destruct Hok; constructor; rewrite ?E1, ?E2, ?E4; try done. lia.
Qed.

Lemma Forall2_insert_l {A} (R : A → A → Prop) (l : list A) k x x' :
  (∀ y, R y y) → l !! k = Some x → R x x' → Forall2 R l (<[k := x']> l).
Proof.
  intros Hrefl Hk Hx. apply Forall2_same_length_lookup_2; [by rewrite length_insert|].
  intros i y y' Hy Hy'. apply list_lookup_insert_Some in Hy' as [(-> & <- & _)|[Hne Hy']]; by simplify_eq.
Qed.

Lemma goesOn_refl th : goesOn th th.
Proof. unfold goesOn; split_and!; done. Qed.

Lemma trafficInv_spawn n ths cs gs new :
  trafficInv n ths cs gs → Forall (threadOk n gs) new → trafficInv n (ths ++ new) cs gs.
Proof.
  intros [Ht Hc Hd] Hnew; constructor; [| |done].
  - intros k th [?|[_ Hth]]%lookup_app_Some; [eauto|].
    rewrite Forall_lookup in Hnew; eauto.
  - intros c vc Hvc. destruct (Hc c vc Hvc) as (th & ? & ?). exists th; split; [|done].
    by apply lookup_app_l_Some.
Qed.

(** A thread sends its next request, in the term of its election. *)
Lemma trafficInv_send n ths cs gs k th th' args :
  trafficInv n ths cs gs → ths !! k = Some th → goesOn th th' →
  et_next th' = S (et_next th) → (et_next th < n)%nat → et_next th ≠ et_server th →
  rva_Term args = et_term th → rva_CandidateId args = Z.of_nat (et_server th) →
  trafficInv n (<[k := th']> ths) (cs ++ [mkCall k (et_next th) args Pending]) gs.
Proof.
  intros I Hk Hgo Hnx Hlt Hne Hterm Hcand.
  assert (trafficInv n (<[k := th']> ths) cs gs) as [Ht Hc Hd].
  { eapply trafficInv_goesOn; [done|]. eapply Forall2_insert_l; eauto using goesOn_refl. }
  destruct Hgo as (E1 & E2 & E3 & E4 & E5). constructor; [done| |].
  - intros c vc [?|[_ Hvc]]%lookup_app_Some; [eauto|].
    apply list_lookup_singleton_Some in Hvc as [_ <-]. exists th'; simpl.
    split; [by eapply list_lookup_insert_eq, lookup_lt_Some|].
    constructor; simpl; rewrite ?E1, ?E2, ?E4; try done; [lia|].
    intros _ Hin. destruct (to_votes _ _ _ (ti_threads _ _ _ _ I _ _ Hk) _ Hin) as (_ & ? & _). lia.
  - assert (∀ c v, cs !! c = Some v → vc_thread v = k → (vc_dst v < et_next th)%nat) as Hless.
    { intros c v Hv Heq. destruct (ti_calls _ _ _ _ I _ _ Hv) as (th0 & Hth0 & Hok).
      rewrite Heq, Hk in Hth0; simplify_eq. apply Hok. }
    intros c1 c2 v1 v2 H1 H2 Hcc Hthr.
    apply lookup_app_Some in H1 as [H1|[L1 H1]]; apply lookup_app_Some in H2 as [H2|[L2 H2]].
    + by eapply Hd.
    + apply list_lookup_singleton_Some in H2 as [_ <-]; simpl in *.
      specialize (Hless _ _ H1 Hthr). lia.
    + apply list_lookup_singleton_Some in H1 as [_ <-]; simpl in *.
      specialize (Hless _ _ H2 (eq_sym Hthr)). lia.
    + apply list_lookup_singleton_Some in H1 as [? <-], H2 as [? <-]. lia.
Qed.

(** A call changes status. *)
Lemma trafficInv_status n ths cs gs c vc st :
  trafficInv n ths cs gs → cs !! c = Some vc → (st ≠ Done → vc_status vc ≠ Done) →
  (∀ th reply, ths !! vc_thread vc = Some th → st = Replied reply → rvr_VoteGranted reply = true →
     (vc_dst vc, et_term th, et_server th) ∈ gs) →
  trafficInv n ths (<[c := setStatus st vc]> cs) gs.
Proof.
  intros [Ht Hc Hd] Hvc Hopen Hrep; constructor; [done| |].
  - intros c' v [(-> & <- & _)|[_ Hv]]%list_lookup_insert_Some; [|eauto]; simpl.
    destruct (Hc c' vc Hvc) as (th & Hth & Hok). exists th; split; [done|].
    destruct Hok; constructor; simpl; auto. intros; eauto.
  - intros c1 c2 v1 v2 H1 H2 Hne.
    apply list_lookup_insert_Some in H1 as [(-> & <- & _)|[? H1]];
      apply list_lookup_insert_Some in H2 as [(-> & <- & _)|[? H2]]; simpl; [done|..]; eauto.
Qed.

(** A granted vote is counted. *)
Lemma trafficInv_count n ths cs gs c vc th th' reply :
  trafficInv n ths cs gs → cs !! c = Some vc → ths !! vc_thread vc = Some th →
  vc_status vc = Replied reply → rvr_VoteGranted reply = true →
  et_server th' = et_server th → et_term th' = et_term th → et_next th' = et_next th →
  et_cnt th' = et_cnt th + 1 → et_counted th' = vc_dst vc :: et_counted th →
  trafficInv n (<[vc_thread vc := th']> ths) (<[c := setStatus Done vc]> cs) gs ∧ threadOk n gs th'.
Proof.
  intros [Ht Hc Hd] Hvc Hth Hst Hgr E1 E2 E3 E4 E5.
  destruct (Hc c vc Hvc) as (th0 & Hth0 & Hok). assert (th0 = th) as -> by congruence.
  assert (threadOk n gs th') as Hok'.
  { destruct (Ht _ _ Hth) as [? Hcnt ? ? Hv], Hok as [? ? ? ? ? Hopen Hrep].
    constructor; rewrite ?E1, ?E2, ?E3, ?E4, ?E5; try done.
    - simpl; lia.
    - apply NoDup_cons; split; [|done]. apply Hopen. by rewrite Hst.
    - rewrite not_elem_of_cons; split; [|done]. done.
    - intros v [->|Hin]%elem_of_cons; [|by apply Hv]. split_and!; [done|done|by eapply Hrep]. }
  split; [|done]. constructor.
  - intros k t [(<- & <- & _)|[_ Hk]]%list_lookup_insert_Some; eauto.
  - intros c' v Hv. destruct (decide (c' = c)) as [->|Hne].
    + rewrite list_lookup_insert_eq in Hv by (by eapply lookup_lt_Some). injection Hv as <-; simpl.
      exists th'; split; [by eapply list_lookup_insert_eq, lookup_lt_Some|].
      destruct Hok; constructor; simpl; rewrite ?E1, ?E2, ?E3; done.
    + rewrite list_lookup_insert_ne in Hv by done. destruct (Hc _ _ Hv) as (t & Hkt & Hvok).
      destruct (decide (vc_thread v = vc_thread vc)) as [Heq|Hnt].
      * exists th'; split; [rewrite Heq; by eapply list_lookup_insert_eq, lookup_lt_Some|].
        assert (t = th) as -> by congruence.
        pose proof (Hd _ _ _ _ Hv Hvc Hne Heq) as Hdst.
        destruct Hvok as [? ? ? ? ? Hop ?]; constructor; rewrite ?E1, ?E2, ?E3, ?E5; try done.
        intros Hnd. rewrite not_elem_of_cons; auto.
      * exists t; split; [|done]. by rewrite list_lookup_insert_ne by done.
  - intros c1 c2 v1 v2 H1 H2 Hne.
    apply list_lookup_insert_Some in H1 as [(-> & <- & _)|[? H1]];
      apply list_lookup_insert_Some in H2 as [(-> & <- & _)|[? H2]]; simpl; [done|..]; eauto.
Qed.

(** ** The whole cluster *)
Definition worldInv (n : nat) w : Prop :=
  votesInv n (nodes w) (grants w) (leaders w) ∧ trafficInv n (elects w) (calls w) (grants w).

Lemma nodeOk_exec n s rf op rf' : nodeOk n s rf → nodeExec rf op = Some rf' → nodeOk n s rf'.
Proof.
  intros [Hwf Hd Hr Hme Hp] H. destruct (term_vote _ _ _ H) as (_ & Hme' & Hp' & _).
  constructor; [by eapply wf_preserved|by eapply durable_preserved| |congruence..].
  eapply roleOk_preserved; [|done..]. lia.
Qed.

Lemma worldInv_init n w : initWorld (C := C) n = Some w → worldInv n w.
Proof.
  unfold initWorld; intros (rfs & Hm & [= <-])%bind_Some. apply mapM_Some in Hm.
  assert (∀ s rf, rfs !! s = Some rf → nodeOk n s rf ∧ state rf = FOLLOWER) as Hall.
  { intros s rf Hs. destruct (Forall2_lookup_r _ _ _ _ _ Hm Hs) as (s' & Hs' & Hmk).
    apply lookup_seq in Hs' as [-> _]; simpl in Hmk.
    destruct (Make_fresh (C := C) n (Z.of_nat s)) as (rf' & Hmk' & ? & ? & ? & ? & ? & ? & Hst).
    assert (rf = rf') as -> by congruence. split; [|done].
    constructor; try done. intros Hne. by rewrite Hst in Hne. }
  split; constructor; simpl; try (intros * Hin; by apply not_elem_of_nil in Hin);
    try (intros * Hk; by rewrite lookup_nil in Hk).
  - apply Forall2_length in Hm. by rewrite length_seq in Hm.
  - intros s rf Hs. by apply Hall.
  - intros s rf Hs Hst. destruct (Hall s rf Hs) as [_ Hf]. by rewrite Hf in Hst.
Qed.

Lemma worldInv_node n w s op w' :
  worldInv n w → exec w (ANode s op) = Some w' → worldInv n w'.
Proof.
  intros [IV IT] H; simpl in H. destruct (quiet op) eqn:Hq; [|done].
  apply bind_Some in H as (rf & Hs & H). apply bind_Some in H as (rf' & Hx & [= <-]).
  split; simpl; [|done]. eapply votesInv_node; [done..|by eapply quiet_voteStep|].
  eapply nodeOk_exec; [by eapply vi_nodes|done].
Qed.

Lemma worldInv_tick n w s w' :
  worldInv n w → exec w (ATick s) = Some w' → worldInv n w'.
Proof.
  intros [IV IT] H; simpl in H. apply bind_Some in H as (rf & Hs & H).
  apply bind_Some in H as ([rf' eff] & Hx & [= <-]).
  pose proof (vi_nodes _ _ _ _ IV _ _ Hs) as Hok.
  destruct (tickElect_cases _ _ _ Hx) as [Hvs Hsp].
  rewrite (no_me _ _ _ Hok), Nat2Z.id in Hsp. split; simpl.
  - eapply votesInv_node; [done..|]. apply (nodeOk_exec n s rf OpTickElect); [done|].
    simpl. by rewrite Hx.
  - apply trafficInv_spawn; [done|]. apply Forall_forall; intros th Hth.
    rewrite (Hsp th Hth). constructor; simpl; try done; [|apply NoDup_nil_2|by apply not_elem_of_nil|].
    + rewrite <-(vi_len _ _ _ _ IV). by eapply lookup_lt_Some.
    + intros v Hv. by apply not_elem_of_nil in Hv.
Qed.

Lemma worldInv_send n w k w' :
  worldInv n w → sendsInTerm w (AElectSend k) → exec w (AElectSend k) = Some w' → worldInv n w'.
Proof.
  intros [IV IT] Hterm H; simpl in H. apply bind_Some in H as (th & Hk & H).
  apply bind_Some in H as (rf & Hs & H).
  pose proof (vi_nodes _ _ _ _ IV _ _ Hs) as Hok.
  case_if_in H; [|done]. destruct Hif as [_ Hnx%Nat.ltb_lt].
  assert (goesOn th (mkThread (et_server th) (et_term th) (et_cnt th) (S (et_next th))
                       (et_alive th) (et_counted th))) as Hgo.
  { unfold goesOn; simpl; split_and!; try done; lia. }
  case_if_in H.
  - injection H as <-. split; [done|]. eapply trafficInv_goesOn; [done|].
    eapply Forall2_insert_l; eauto using goesOn_refl.
  - apply bind_Some in H as (args & Ha & [= <-]). split; [done|]; simpl.
    unfold electArgs in Ha. apply bind_Some in Ha as (l & _ & [= <-]).
    eapply trafficInv_send; try done; simpl.
    + by rewrite <-(no_peers _ _ _ Hok).
    + rewrite (no_me _ _ _ Hok) in Hif. lia.
    + by apply Hterm.
    + apply Hok.
Qed.

Lemma worldInv_deliver n w c w' :
  worldInv n w → exec w (ADeliver c) = Some w' → worldInv n w'.
Proof.
  intros [IV IT] H; simpl in H. apply bind_Some in H as (vc & Hc & H).
  destruct (vc_status vc) eqn:Hst; [|done..].
  apply bind_Some in H as (rf & Hs & H).
  apply bind_Some in H as ([[rf' reply] eff] & Hx & [= <-]).
  destruct (ti_calls _ _ _ _ IT _ _ Hc) as (th & Hth & Hcall).
  destruct (RequestVote_voteStep _ _ _ _ _ Hx) as [Hvs Hgr].
  assert (nodeOk n (vc_dst vc) rf') as Hok.
  { apply (nodeOk_exec n _ rf (OpRequestVote (vc_args vc))); [by eapply vi_nodes|].
    simpl. by rewrite Hx. }
  pose proof (co_cand _ _ _ _ Hcall) as Hcand. pose proof (co_term _ _ _ _ Hcall) as Hterm.
  destruct (rvr_VoteGranted reply) eqn:Hg; split; simpl.
  - destruct (Hgr eq_refl) as (Ht & Hv & Hold). rewrite Hcand, Nat2Z.id in *.
    eapply votesInv_grant; try done. apply Hcall.
  - eapply trafficInv_status; [| done | by rewrite Hst |].
    + eapply trafficInv_mono; [|done]. intros x Hxin. by apply elem_of_cons; right.
    + intros th0 r Hth0 _ _. assert (th0 = th) as -> by congruence.
      apply elem_of_cons; left. by rewrite Hcand, Hterm, Nat2Z.id.
  - by eapply votesInv_node.
  - eapply trafficInv_status; [done|done|by rewrite Hst|].
    intros th0 r _ [= <-] Hg'. congruence.
Qed.

Lemma worldInv_lose n w c w' :
  worldInv n w → exec w (ALose c) = Some w' → worldInv n w'.
Proof.
  intros [IV IT] H; simpl in H. apply bind_Some in H as (vc & Hc & [= <-]).
  split; [done|]; simpl. by eapply trafficInv_status.
Qed.

Lemma worldInv_reply n w c w' :
  worldInv n w → exec w (AReply c) = Some w' → worldInv n w'.
Proof.
  intros [IV IT] H; simpl in H. apply bind_Some in H as (vc & Hc & H).
  apply bind_Some in H as (th & Hth & H). apply bind_Some in H as (rf & Hs & H).
  destruct (vc_status vc) as [|reply|] eqn:Hst; [done| |done].
  destruct (et_alive th) eqn:Hal; [|done].
  apply bind_Some in H as ([[rf' cnt'] eff] & Hx & [= <-]).
  assert (nodeOk n (et_server th) rf') as Hok.
  { apply (nodeOk_exec n _ rf (OpElectReply (et_cnt th) (stampVote (vc_args vc) reply)));
      [by eapply vi_nodes|]. simpl. by rewrite Hx. }
  destruct (ti_calls _ _ _ _ IT _ _ Hc) as (th0 & Hth0 & Hcall).
  assert (th0 = th) as -> by congruence.
  destruct (electReply_cases _ _ _ _ _ _ Hx)
    as [(Hvs & -> & Hlead)|(Hcand & Hsend & Hgr & -> & Hct & Hvf & Hres)].
  - rewrite Z.eqb_refl. split; simpl.
    + rewrite bool_decide_false by tauto. by eapply votesInv_node.
    + eapply trafficInv_status; [|done..|by intros].
      eapply trafficInv_goesOn; [done|]. eapply Forall2_insert_l; eauto using goesOn_refl.
      unfold goesOn; simpl; split_and!; done.
  - rewrite (proj2 (Z.eqb_neq _ _)) by lia.
    edestruct (trafficInv_count n (elects w) (calls w) (grants w) c vc th
      (mkThread (et_server th) (et_term th) (et_cnt th + 1) (et_next th) (et_alive th)
         (vc_dst vc :: et_counted th)) reply) as [IT' [_ Hcnt Hnd Hself Hvotes]]; try done.
    simpl in *. split; simpl; [|by rewrite Hal in *].
    destruct Hres as [->|[Hl Hmaj]].
    + rewrite bool_decide_false by (rewrite Hcand; naive_solver).
      eapply votesInv_node; [done..| |done]. constructor; intros; (lia || by auto || done).
    + rewrite bool_decide_true by (by rewrite Hcand).
      eapply (votesInv_lead _ _ _ _ _ _ _ (vc_dst vc :: et_counted th)); try done.
      * pose proof (vi_nodes _ _ _ _ IV _ _ Hs) as Hok0. rewrite (no_peers _ _ _ Hok0) in Hmaj.
        rewrite Hcnt in Hmaj. done.
      * intros v Hv. destruct (Hvotes v Hv) as (? & _ & ?).
        pose proof (co_term _ _ _ _ Hcall). by rewrite <-Hsend; simpl; split; [|congruence].
Qed.

Lemma worldInv_crash n w s w' :
  worldInv n w → exec w (ACrash s) = Some w' → worldInv n w'.
Proof.
  intros [IV IT] H; simpl in H. apply bind_Some in H as (rf & Hs & H).
  apply bind_Some in H as (rf' & Hx & [= <-]).
  pose proof (vi_nodes _ _ _ _ IV _ _ Hs) as [Hwf Hd Hr Hme Hp].
  destruct (Make_recovers rf Hd) as (rf2 & Hx2 & Hrec). rewrite Hx in Hx2; injection Hx2 as <-.
  split; simpl.
  - eapply votesInv_node; [done..|by apply recovers_voteStep|].
    destruct Hrec; constructor; try done; [|congruence..].
    intros Hne. congruence.
  - eapply trafficInv_goesOn; [done|]. apply Forall2_fmap_r, Forall_Forall2_diag.
    apply Forall_forall; intros th _. unfold goesOn, compose. by destruct (Nat.eqb (et_server th) s).
Qed.

Lemma worldInv_step n w a w' :
  worldInv n w → sendsInTerm w a → exec w a = Some w' → worldInv n w'.
Proof.
  destruct a; eauto using worldInv_node, worldInv_tick, worldInv_send, worldInv_deliver,
    worldInv_lose, worldInv_reply, worldInv_crash.
Qed.

Lemma worldInv_reachable n w : reachable sendsInTerm n w → worldInv n w.
Proof. induction 1; eauto using worldInv_init, worldInv_step. Qed.

(** C1: election safety.  In every state that a cluster reaches, with messages lost, delayed
    and reordered, peers crashing and restarting, and every other operation running with
    any arguments, two peers that are leaders of the same term are the same peer, provided
    no [elect] goroutine goes on sending after its peer has left the term of the election. *)
Theorem election_safety n w s1 s2 rf1 rf2 :
  reachable sendsInTerm n w →
  nodes w !! s1 = Some rf1 → nodes w !! s2 = Some rf2 →
  state rf1 = LEADER → state rf2 = LEADER → currentTerm rf1 = currentTerm rf2 → s1 = s2.
Proof.
  intros [IV _]%worldInv_reachable H1 H2 L1 L2 Ht.
  pose proof (vi_listed _ _ _ _ IV _ _ H1 L1) as Hl1.
  pose proof (vi_listed _ _ _ _ IV _ _ H2 L2) as Hl2. rewrite Ht in Hl1.
  by eapply votesInv_unique.
Qed.

(** C8: one vote per term. In every state that a cluster reaches, with messages lost, delayed and
    reordered and peers crashing and restarting, provided no [elect] goroutine goes on sending
    after its peer has left the term of the election, a peer has given its vote of a term to at
    most one other peer, also across crashes, and a peer that led a term gave it to none. *)
Theorem one_vote_per_term n w v t c1 c2 :
  reachable sendsInTerm n w → (v, t, c1) ∈ grants w →
  ((v, t, c2) ∈ grants w → c1 = c2) ∧ v ≠ c1 ∧ (v, t) ∉ leaders w.
Proof.
  intros [IV _]%worldInv_reachable H1.
  pose proof (vi_grant_node _ _ _ _ IV _ _ _ H1) as Hlt. rewrite <-(vi_len _ _ _ _ IV) in Hlt.
  apply lookup_lt_is_Some_2 in Hlt as [rf Hrf].
  split_and!; [intros; by eapply (vi_once _ _ _ _ IV)|by eapply (vi_grant _ _ _ _ IV)|].
  intros Hl. by eapply (vi_excl _ _ _ _ IV).
Qed.
End election_safety.
