(* ===== verification/RaftCluster.v ===== *)
(** The cluster of [RaftElection] with log replication between its peers: the goroutines
    [onRound] of leaders, their AppendEntries and InstallSnapshot calls, the replies, and the
    snapshots that wait to be installed.

    A call is sent with what the leader's state is at that moment, is delivered at most once,
    in any order, may be lost, and its reply is handled by the goroutine that sent it unless
    the peer crashed since.  A snapshot that a peer accepts waits in a goroutine until its
    service takes it from [applyCh] and asks for it with [CondInstallSnapshot]; a crash of the
    peer ends the wait.  [RAct] runs the steps of [RaftElection] other than these: the
    elections, crashes, and the operations of the service. *)
From S2P Require Import Prelude Labgob Persister Raft RaftLog RaftNode RaftProps RaftService RaftElection.
#[local] Open Scope Z_scope.

Section cluster.
Context {C : Type} `{!Gob Z, !Gob (list (Log C))}.

Inductive CallStatus (R : Type) := Sent | Answered (reply : R) | Over.
#[global] Arguments Sent {R}.
#[global] Arguments Answered {R} reply.
#[global] Arguments Over {R}.

Record AppendCall := mkAppendCall {
  ac_src : nat;
  ac_dst : nat;
  ac_args : AppendEntriesArgs C;
  ac_status : CallStatus AppendEntriesReply;
  ac_alive : bool;      (* false after a crash of the sender *)
}.

(** [sc_index] is the [lastIncludedIndex] that [onRound] captured. *)
Record SnapCall := mkSnapCall {
  sc_src : nat;
  sc_dst : nat;
  sc_args : InstallSnapshotArgs;
  sc_index : Z;
  sc_status : CallStatus InstallSnapshotReply;
  sc_alive : bool;
}.

(** [offers]: for each goroutine that waits to hand a snapshot to its service, the peer and
    the message. *)
Record Cluster := mkCluster {
  world : World C;
  appends : list AppendCall;
  snaps : list SnapCall;
  offers : list (nat * ApplyMsg C);
}.

Inductive RAction :=
  | RAct (a : Action C)
  | RSend (s dst : nat)            (* [onRound] of [s] for [dst], up to the call *)
  | RDeliver (k : nat)             (* call [k] is handled by its peer *)
  | RReply (k : nat)               (* the reply of call [k] is handled by its sender *)
  | RFail (k : nat)                (* call [k] failed, and its sender handles that *)
  | RSnapDeliver (k : nat)         (* the same for calls with snapshots *)
  | RSnapReply (k : nat)
  | RSnapFail (k : nat)
  | RInstall (k : nat).            (* the service takes offer [k] *)

Definition setAppend (st : CallStatus AppendEntriesReply) (m : AppendCall) : AppendCall :=
  mkAppendCall (ac_src m) (ac_dst m) (ac_args m) st (ac_alive m).

Definition setSnap (st : CallStatus InstallSnapshotReply) (m : SnapCall) : SnapCall :=
  mkSnapCall (sc_src m) (sc_dst m) (sc_args m) (sc_index m) st (sc_alive m).

Definition setNode (s : nat) (rf : Raft C) (w : World C) : World C :=
  mkWorld (<[s := rf]> (nodes w)) (elects w) (calls w) (grants w) (leaders w).

Definition killCalls (s : nat) (ms : list AppendCall) : list AppendCall :=
  map (λ m, if Nat.eqb (ac_src m) s
            then mkAppendCall (ac_src m) (ac_dst m) (ac_args m) (ac_status m) false else m) ms.

Definition killSnaps (s : nat) (ms : list SnapCall) : list SnapCall :=
  map (λ m, if Nat.eqb (sc_src m) s
            then mkSnapCall (sc_src m) (sc_dst m) (sc_args m) (sc_index m) (sc_status m) false else m) ms.

Definition dropOffers (s : nat) (os : list (nat * ApplyMsg C)) : list (nat * ApplyMsg C) :=
  List.filter (λ o, negb (Nat.eqb o.1 s)) os.

(** The goroutines that [InstallSnapshot] starts. *)
Definition offered (s : nat) (eff : list (Effect (ApplyMsg C))) : list (nat * ApplyMsg C) :=
  omap (λ e, match e with GoApply m => Some (s, m) | _ => None end) eff.

(** The operations that are steps of their own here. *)
Definition callOp (op : NodeOp (C := C)) : bool :=
  match op with
  | OpAppendEntries _ | OpEntriesReply _ _ _ | OpInstallSnapshot _ | OpSnapshotReply _ _ _
  | OpCondInstallSnapshot _ _ _ => true
  | _ => false
  end.

(** The elections and the operations of the peers change the world only, crashes end goroutines. *)
Definition setWorld (w : World C) (c : Cluster) : Cluster := mkCluster w (appends c) (snaps c) (offers c).

Definition afterCrash (s : nat) (c : Cluster) : Cluster :=
  mkCluster (world c) (killCalls s (appends c)) (killSnaps s (snaps c)) (dropOffers s (offers c)).

Definition rexec (c : Cluster) (r : RAction) : option Cluster :=
  match r with
  | RAct a =>
      match a with
      | ANode _ op => if callOp op then None else w ← exec (world c) a; Some (setWorld w c)
      | ACrash s => w ← exec (world c) a; Some (afterCrash s (setWorld w c))
      | _ => w ← exec (world c) a; Some (setWorld w c)
      end
  | RSend s dst =>
      rf ← nodes (world c) !! s;
      if Z.of_nat dst =? me rf then None else
      call ← onRoundBegin rf (Z.of_nat dst);
      match call with
      | Some (SendEntries args) =>
          Some (mkCluster (world c) (appends c ++ [mkAppendCall s dst args Sent true]) (snaps c) (offers c))
      | Some (SendSnapshot args index) =>
          Some (mkCluster (world c) (appends c) (snaps c ++ [mkSnapCall s dst args index Sent true]) (offers c))
      | None => None
      end
  | RDeliver k =>
      m ← appends c !! k;
      match ac_status m with
      | Sent =>
          rf ← nodes (world c) !! ac_dst m;
          '(rf', reply, _) ← AppendEntries rf (ac_args m);
          Some (mkCluster (setNode (ac_dst m) rf' (world c))
                  (<[k := setAppend (Answered reply) m]> (appends c)) (snaps c) (offers c))
      | _ => None
      end
  | RReply k =>
      m ← appends c !! k;
      rf ← nodes (world c) !! ac_src m;
      match ac_status m with
      | Answered reply =>
          if ac_alive m then
            rf' ← onRoundEntriesReply rf (Z.of_nat (ac_dst m)) (ac_args m) (Some reply);
            Some (mkCluster (setNode (ac_src m) rf' (world c)) (<[k := setAppend Over m]> (appends c))
                    (snaps c) (offers c))
          else None
      | _ => None
      end
  | RFail k =>
      m ← appends c !! k;
      rf ← nodes (world c) !! ac_src m;
      match ac_status m with
      | Over => None
      | _ =>
          if ac_alive m then
            rf' ← onRoundEntriesReply rf (Z.of_nat (ac_dst m)) (ac_args m) None;
            Some (mkCluster (setNode (ac_src m) rf' (world c)) (<[k := setAppend Over m]> (appends c))
                    (snaps c) (offers c))
          else None
      end
  | RSnapDeliver k =>
      m ← snaps c !! k;
      match sc_status m with
      | Sent =>
          rf ← nodes (world c) !! sc_dst m;
          '(rf', reply, eff) ← InstallSnapshot rf (sc_args m);
          Some (mkCluster (setNode (sc_dst m) rf' (world c)) (appends c)
                  (<[k := setSnap (Answered reply) m]> (snaps c)) (offers c ++ offered (sc_dst m) eff))
      | _ => None
      end
  | RSnapReply k =>
      m ← snaps c !! k;
      rf ← nodes (world c) !! sc_src m;
      match sc_status m with
      | Answered reply =>
          if sc_alive m then
            rf' ← onRoundSnapshotReply rf (Z.of_nat (sc_dst m)) (sc_index m) (Some reply);
            Some (mkCluster (setNode (sc_src m) rf' (world c)) (appends c)
                    (<[k := setSnap Over m]> (snaps c)) (offers c))
          else None
      | _ => None
      end
  | RSnapFail k =>
      m ← snaps c !! k;
      rf ← nodes (world c) !! sc_src m;
      match sc_status m with
      | Over => None
      | _ =>
          if sc_alive m then
            rf' ← onRoundSnapshotReply rf (Z.of_nat (sc_dst m)) (sc_index m) None;
            Some (mkCluster (setNode (sc_src m) rf' (world c)) (appends c)
                    (<[k := setSnap Over m]> (snaps c)) (offers c))
          else None
      end
  | RInstall k =>
      '(s, msg) ← offers c !! k;
      rf ← nodes (world c) !! s;
      '(rf', _) ← CondInstallSnapshot rf (SnapshotTerm msg) (SnapshotIndex msg) (am_Snapshot msg);
      Some (mkCluster (setNode s rf' (world c)) (appends c) (snaps c) (delete k (offers c)))
  end.

Fixpoint rrun (c : Cluster) (l : list RAction) : option Cluster :=
  match l with
  | [] => Some c
  | r :: l => c' ← rexec c r; rrun c' l
  end.

Definition initCluster (n : nat) : option Cluster := w ← initWorld n; Some (mkCluster w [] [] []).

Inductive creachable (P : Cluster → RAction → Prop) (n : nat) : Cluster → Prop :=
  | creach_init c : initCluster n = Some c → creachable P n c
  | creach_step c r c' : creachable P n c → P c r → rexec c r = Some c' → creachable P n c'.

(** A step that keeps clear of the defects of the program that concern the log: [elect] is
    not overtaken by a change of term ([sendsInTerm]); a snapshot that a peer installs
    describes a position of the log of some peer, and the peer's own log, if it has
    the position, agrees there, as that of a leader does ([CondInstallSnapshot] keeps the rest of the log
    without looking); a peer does not crash while the term of its snapshot is not the one
    on its disk ([CondInstallSnapshot] forgets to set it). *)
Definition soundStep (c : Cluster) (r : RAction) : Prop :=
  match r with
  | RAct (AElectSend k) => sendsInTerm (world c) (AElectSend k)
  | RAct (ACrash s) =>
      ∀ rf, nodes (world c) !! s = Some rf →
        termAt rf (lastIncludedIndex rf) = Some (lastIncludedTerm rf)
  | RInstall k =>
      ∀ s msg rf, offers c !! k = Some (s, msg) → nodes (world c) !! s = Some rf →
        commitIndex rf < SnapshotIndex msg →
        (∃ q rfq, nodes (world c) !! q = Some rfq ∧ termAt rfq (SnapshotIndex msg) = Some (SnapshotTerm msg)) ∧
        (SnapshotIndex msg ≤ getLastLogIndex rf → termAt rf (SnapshotIndex msg) = Some (SnapshotTerm msg)) ∧
        (state rf = LEADER → SnapshotIndex msg ≤ getLastLogIndex rf)
  | _ => True
  end.

(** ** The cluster is one of [RaftElection] *)
(** Every step is one of these.  [cs_op]: a peer runs one of its operations, and calls and
    offers change. *)
Inductive clusterStep (c : Cluster) : RAction → Cluster → Prop :=
  | cs_world a w' : exec (world c) a = Some w' → (∀ s op, a = ANode s op → callOp op = false) → (∀ s, a ≠ ACrash s) →
      clusterStep c (RAct a) (setWorld w' c)
  | cs_crash s w' : exec (world c) (ACrash s) = Some w' → clusterStep c (RAct (ACrash s)) (afterCrash s (setWorld w' c))
  | cs_entries s dst rf args : nodes (world c) !! s = Some rf → Z.of_nat dst ≠ me rf →
      onRoundBegin rf (Z.of_nat dst) = Some (Some (SendEntries args)) →
      clusterStep c (RSend s dst)
        (mkCluster (world c) (appends c ++ [mkAppendCall s dst args Sent true]) (snaps c) (offers c))
  | cs_snapshot s dst rf args index : nodes (world c) !! s = Some rf → Z.of_nat dst ≠ me rf →
      onRoundBegin rf (Z.of_nat dst) = Some (Some (SendSnapshot args index)) →
      clusterStep c (RSend s dst)
        (mkCluster (world c) (appends c) (snaps c ++ [mkSnapCall s dst args index Sent true]) (offers c))
  | cs_deliver k m rf rf' reply eff : appends c !! k = Some m → ac_status m = Sent →
      nodes (world c) !! ac_dst m = Some rf → AppendEntries rf (ac_args m) = Some (rf', reply, eff) →
      clusterStep c (RDeliver k) (mkCluster (setNode (ac_dst m) rf' (world c))
        (<[k := setAppend (Answered reply) m]> (appends c)) (snaps c) (offers c))
  | cs_reply k m rf rf' reply : appends c !! k = Some m → ac_status m = Answered reply → ac_alive m = true →
      nodes (world c) !! ac_src m = Some rf →
      onRoundEntriesReply rf (Z.of_nat (ac_dst m)) (ac_args m) (Some reply) = Some rf' →
      clusterStep c (RReply k) (mkCluster (setNode (ac_src m) rf' (world c))
        (<[k := setAppend Over m]> (appends c)) (snaps c) (offers c))
  | cs_fail k m rf rf' : appends c !! k = Some m → ac_alive m = true →
      nodes (world c) !! ac_src m = Some rf →
      onRoundEntriesReply rf (Z.of_nat (ac_dst m)) (ac_args m) None = Some rf' →
      clusterStep c (RFail k) (mkCluster (setNode (ac_src m) rf' (world c))
        (<[k := setAppend Over m]> (appends c)) (snaps c) (offers c))
  | cs_snapdeliver k m rf rf' reply eff : snaps c !! k = Some m → sc_status m = Sent →
      nodes (world c) !! sc_dst m = Some rf → InstallSnapshot rf (sc_args m) = Some (rf', reply, eff) →
      clusterStep c (RSnapDeliver k) (mkCluster (setNode (sc_dst m) rf' (world c)) (appends c)
        (<[k := setSnap (Answered reply) m]> (snaps c)) (offers c ++ offered (sc_dst m) eff))
  | cs_snapreply k m rf rf' reply : snaps c !! k = Some m → sc_status m = Answered reply → sc_alive m = true →
      nodes (world c) !! sc_src m = Some rf →
      onRoundSnapshotReply rf (Z.of_nat (sc_dst m)) (sc_index m) (Some reply) = Some rf' →
      clusterStep c (RSnapReply k) (mkCluster (setNode (sc_src m) rf' (world c)) (appends c)
        (<[k := setSnap Over m]> (snaps c)) (offers c))
  | cs_snapfail k m rf rf' : snaps c !! k = Some m → sc_alive m = true →
      nodes (world c) !! sc_src m = Some rf →
      onRoundSnapshotReply rf (Z.of_nat (sc_dst m)) (sc_index m) None = Some rf' →
      clusterStep c (RSnapFail k) (mkCluster (setNode (sc_src m) rf' (world c)) (appends c)
        (<[k := setSnap Over m]> (snaps c)) (offers c))
  | cs_install k s msg rf rf' b : offers c !! k = Some (s, msg) → nodes (world c) !! s = Some rf →
      CondInstallSnapshot rf (SnapshotTerm msg) (SnapshotIndex msg) (am_Snapshot msg) = Some (rf', b) →
      clusterStep c (RInstall k) (mkCluster (setNode s rf' (world c)) (appends c) (snaps c) (delete k (offers c))).

(** Takes the binds of [H] apart. *)
Ltac binds H :=
  repeat match type of H with
  | (_ ← _; _) = Some _ => apply bind_Some in H as (? & ? & H); simpl in H
  | mbind _ _ = Some _ => apply bind_Some in H as (? & ? & H); simpl in H
  | (let '(_, _) := ?x in _) = Some _ => destruct x; simpl in H
  end.

Lemma rexec_cases c r c' : rexec c r = Some c' → clusterStep c r c'.
Proof.
  intros H. destruct r as [a|s dst|k|k|k|k|k|k|k]; simpl in H.
  - destruct a as [s op|s|k|k|k|k|s]; [case_if_in H; [done|]|..]; binds H; injection H as <-.
    all: try (apply cs_world; [done|by intros ? ? [= -> ->]|done]). by apply cs_crash.
  - binds H. case_if_in H; [done|]. binds H.
    destruct x0 as [[args index|args]|]; [| |done]; injection H as <-; by econstructor.
  - binds H. destruct (ac_status x) eqn:Hst; [|done..]. binds H. injection H as <-. by econstructor.
  - binds H. destruct (ac_status x) eqn:Hst; [done| |done]. case_if_in H; [|done]. binds H. injection H as <-.
    by econstructor.
  - binds H. destruct (ac_status x) eqn:Hst; try done; (case_if_in H; [|done]); binds H; injection H as <-; by econstructor.
  - binds H. destruct (sc_status x) eqn:Hst; [|done..]. binds H. injection H as <-. by econstructor.
  - binds H. destruct (sc_status x) eqn:Hst; [done| |done]. case_if_in H; [|done]. binds H. injection H as <-.
    by econstructor.
  - binds H. destruct (sc_status x) eqn:Hst; try done; (case_if_in H; [|done]); binds H; injection H as <-; by econstructor.
  - binds H. injection H as <-. by econstructor.
Qed.

(** The operations of one peer that the calls run. *)
Lemma setNode_exec w s rf op rf' :
  nodes w !! s = Some rf → quiet op = true → nodeExec rf op = Some rf' →
  exec w (ANode s op) = Some (setNode s rf' w).
Proof. intros Hs Hq Hx. simpl. rewrite Hq, Hs. simpl. by rewrite Hx. Qed.

(** [elect] is not overtaken by a change of term. *)
Definition electsInTerm (c : Cluster) (r : RAction) : Prop :=
  match r with RAct (AElectSend k) => sendsInTerm (world c) (AElectSend k) | _ => True end.

Lemma rexec_world c r c' :
  electsInTerm c r → rexec c r = Some c' →
  world c' = world c ∨ ∃ a, sendsInTerm (world c) a ∧ exec (world c) a = Some (world c').
Proof.
  intros HP H%rexec_cases. destruct H; simpl; try (by left); right.
  - exists a. split; [by destruct a|done].
  - by exists (ACrash s).
  - exists (ANode (ac_dst m) (OpAppendEntries (ac_args m))). split; [done|]. eapply setNode_exec; [done..|]. simpl. by rewrite H2.
  - eexists (ANode (ac_src m) (OpEntriesReply _ _ _)). split; [done|]. by eapply setNode_exec.
  - eexists (ANode (ac_src m) (OpEntriesReply _ _ _)). split; [done|]. by eapply setNode_exec.
  - exists (ANode (sc_dst m) (OpInstallSnapshot (sc_args m))). split; [done|]. eapply setNode_exec; [done..|]. simpl. by rewrite H2.
  - eexists (ANode (sc_src m) (OpSnapshotReply _ _ _)). split; [done|]. by eapply setNode_exec.
  - eexists (ANode (sc_src m) (OpSnapshotReply _ _ _)). split; [done|]. by eapply setNode_exec.
  - eexists (ANode s (OpCondInstallSnapshot _ _ _)). split; [done|]. eapply setNode_exec; [done..|]. simpl. by rewrite H1.
Qed.

Lemma creachable_world (P : Cluster → RAction → Prop) n c :
  (∀ c r, P c r → electsInTerm c r) → creachable P n c → reachable sendsInTerm n (world c).
Proof.
  intros HP. induction 1 as [c Hi|c r c' _ IH Hs Hx].
  - unfold initCluster in Hi. apply bind_Some in Hi as (w & Hw & [= <-]). by constructor.
  - destruct (rexec_world _ _ _ (HP _ _ Hs) Hx) as [->|(a & Ha & Hax)]; [done|]. by econstructor.
Qed.

(** ** What a step does to the peers *)

(** A step that is not a crash runs at most one operation of one peer. *)
Definition runs (r : RAction) (op : NodeOp (C := C)) : Prop :=
  match r, op with
  | RAct (ANode _ op'), _ => op = op' ∧ callOp op = false
  | RAct (ATick _), OpTickElect | RAct (ADeliver _), OpRequestVote _ | RAct (AReply _), OpElectReply _ _
  | RDeliver _, OpAppendEntries _ | RReply _, OpEntriesReply _ _ _ | RFail _, OpEntriesReply _ _ _
  | RSnapDeliver _, OpInstallSnapshot _ | RSnapReply _, OpSnapshotReply _ _ _ | RSnapFail _, OpSnapshotReply _ _ _
  | RInstall _, OpCondInstallSnapshot _ _ _ => True
  | _, _ => False
  end.

Definition stepRuns (r : RAction) (nds nds' : list (Raft C)) : Prop :=
  nds' = nds ∨ ∃ s rf op rf', nds !! s = Some rf ∧ runs r op ∧ nodeExec rf op = Some rf' ∧ nds' = <[s := rf']> nds.

Lemma exec_runs w a w' :
  exec w a = Some w' → (∀ s, a ≠ ACrash s) → (∀ s op, a = ANode s op → callOp op = false) →
  stepRuns (RAct a) (nodes w) (nodes w').
Proof.
  intros H Hnc Hop. destruct a as [s op|s|k|k|k|k|s]; simpl in H.
  - specialize (Hop s op eq_refl). case_if_in H; [|done]. apply bind_Some in H as (rf & Hs & H).
    apply bind_Some in H as (rf' & Hx & [= <-]). right. by exists s, rf, op, rf'.
  - apply bind_Some in H as (rf & Hs & H). apply bind_Some in H as ([rf' eff] & Hx & [= <-]). right.
    exists s, rf, OpTickElect, rf'. split_and!; try done. simpl. by rewrite Hx.
  - apply bind_Some in H as (th & _ & H). apply bind_Some in H as (rf & _ & H). case_if_in H; [|done].
    case_if_in H; [injection H as <-; by left|]. apply bind_Some in H as (args & _ & [= <-]). by left.
  - apply bind_Some in H as (vc & _ & H). destruct (vc_status vc); [|done..].
    apply bind_Some in H as (rf & Hs & H). apply bind_Some in H as ([[rf' reply] eff] & Hx & [= <-]). right.
    exists (vc_dst vc), rf, (OpRequestVote (vc_args vc)), rf'. split_and!; try done. simpl. by rewrite Hx.
  - apply bind_Some in H as (vc & _ & [= <-]). by left.
  - apply bind_Some in H as (vc & _ & H). apply bind_Some in H as (th & _ & H).
    apply bind_Some in H as (rf & Hs & H). destruct (vc_status vc) as [|reply|]; [done| |done].
    case_if_in H; [|done]. apply bind_Some in H as ([[rf' cnt'] eff] & Hx & [= <-]). right.
    eexists (et_server th), rf, (OpElectReply _ _), rf'. split_and!; try done. simpl. by rewrite Hx.
  - by destruct (Hnc s).
Qed.

Lemma rexec_runs c r c' :
  rexec c r = Some c' → (∀ s, r ≠ RAct (ACrash s)) → stepRuns r (nodes (world c)) (nodes (world c')).
Proof.
  intros H%rexec_cases Hnc. destruct H as [a w' Hx Hop Hnc'|s w' Hx|s dst rf args Hs Hd Hx|s dst rf args index Hs Hd Hx
    |k m rf rf' reply eff Hm Hst Hs Hx|k m rf rf' reply Hm Hst Hal Hs Hx|k m rf rf' Hm Hal Hs Hx|k m rf rf' reply eff Hm Hst Hs Hx
    |k m rf rf' reply Hm Hst Hal Hs Hx|k m rf rf' Hm Hal Hs Hx|k s msg rf rf' b Ho Hs Hx]; simpl; try (by left).
  - by apply exec_runs.
  - by destruct (Hnc s).
  - right. exists (ac_dst m), rf, (OpAppendEntries (ac_args m)), rf'. split_and!; try done. simpl. by rewrite Hx.
  - right. by eexists (ac_src m), rf, (OpEntriesReply _ _ _), rf'.
  - right. by eexists (ac_src m), rf, (OpEntriesReply _ _ _), rf'.
  - right. exists (sc_dst m), rf, (OpInstallSnapshot (sc_args m)), rf'. split_and!; try done. simpl. by rewrite Hx.
  - right. by eexists (sc_src m), rf, (OpSnapshotReply _ _ _), rf'.
  - right. by eexists (sc_src m), rf, (OpSnapshotReply _ _ _), rf'.
  - right. eexists s, rf, (OpCondInstallSnapshot _ _ _), rf'. split_and!; try done. simpl. by rewrite Hx.
Qed.

(** What every operation of the step does, the step does to every peer. *)
Lemma runs_each (R : Raft C → Raft C → Prop) r nds nds' :
  (∀ rf, R rf rf) →
  (∀ s rf op rf', nds !! s = Some rf → runs r op → nodeExec rf op = Some rf' → R rf rf') →
  stepRuns r nds nds' → ∀ s rf', nds' !! s = Some rf' → ∃ rf, nds !! s = Some rf ∧ R rf rf'.
Proof.
  intros Hrefl Hop [->|(s & rf & op & rf' & Hs & Hr & Hx & ->)] j r' Hj; [by eauto|].
  apply list_lookup_insert_Some in Hj as [(-> & <- & _)|[_ Hj]]; [|by eauto].
  exists rf. split; [done|]. by eapply Hop.
Qed.

Definition restarted (s : nat) (c c' : Cluster) : Prop :=
  ∃ rf rf', nodes (world c) !! s = Some rf ∧ Make (peers rf) (me rf) (persister rf) = Some rf' ∧
    nodes (world c') = <[s := rf']> (nodes (world c)).

Lemma rexec_crash c s c' : rexec c (RAct (ACrash s)) = Some c' → restarted s c c'.
Proof.
  simpl. intros H. apply bind_Some in H as (w' & H & [= <-]). apply bind_Some in H as (rf & Hs & H).
  apply bind_Some in H as (rf' & Hx & [= <-]). by exists rf, rf'.
Qed.

Lemma rexec_moves c r c' :
  rexec c r = Some c' →
  (∃ s, r = RAct (ACrash s) ∧ restarted s c c') ∨ stepRuns r (nodes (world c)) (nodes (world c')).
Proof.
  intros H. assert ((∃ s, r = RAct (ACrash s)) ∨ ∀ s, r ≠ RAct (ACrash s)) as [[s ->]|Hnc].
  { destruct r as [[]| | | | | | | |]; try (by right); eauto. }
  - left. exists s. split; [done|by apply rexec_crash].
  - right. by apply rexec_runs.
Qed.

Lemma soundStep_elects c r : soundStep c r → electsInTerm c r.
Proof. by destruct r as [[]| | | | | | | |]. Qed.
End cluster.
Arguments Cluster : clear implicits.
Arguments RAction : clear implicits.
Arguments AppendCall : clear implicits.

