(* ===== verification/RaftMatching.v ===== *)
(** Log matching in the cluster of [RaftCluster]: two peers whose logs have the same term at
    an index have the same entries up to it.

    The proof follows the histories of the cluster: for every term the log of its leader,
    which only grows ([hist]), and for every peer its log with the part that snapshots cut
    off ([full]).  An entry of term [t] at index [i] stands in a log only together with the
    first [i] entries of the leader's log of [t] ([coherent]). *)
From S2P Require Import Prelude Labgob Persister Raft RaftLog RaftNode RaftProps RaftService RaftElection RaftCluster.
#[local] Open Scope Z_scope.

Section matching.
Context {C : Type} `{!Gob Z, !Gob (list (Log C))}.
Implicit Types (rf : Raft C) (F : list (Log C)) (hist : Z → list (Log C)) (m : AppendCall C)
  (nds : list (Raft C)) (ls : list (nat * Z)) (ms : list (AppendCall C)) (full : list (list (Log C))).

(** The log of the peer after the position of its snapshot is that of [F]. *)
Record shows F rf : Prop := {
  sh_lii : 0 ≤ lastIncludedIndex rf;
  sh_len : len F = lastIncludedIndex rf + len (log rf);
  sh_entries : ∀ j, lastIncludedIndex rf < j → F.[j] = entryAt rf j;
}.

(** So is the position itself: the log of the peer is [F] without what a snapshot cut off.
    [CondInstallSnapshot] may keep a rest of the log that does not fit the snapshot. *)
Definition headShown F rf : Prop := Term <$> F.[lastIncludedIndex rf] = termAt rf (lastIncludedIndex rf).

Definition coherent hist F : Prop :=
  ∀ i e j e', F.[i] = Some e → j ≤ i → F.[j] = Some e' → (hist (Term e)).[j] = Some e'.

Record messageOk (ls : list (nat * Z)) hist m : Prop := {
  mo_leader : (ac_src m, aea_Term (ac_args m)) ∈ ls;
  mo_other : ac_src m ≠ ac_dst m;
  mo_prev : Term <$> (hist (aea_Term (ac_args m))).[aea_PrevLogIndex (ac_args m)] =
              Some (aea_PrevLogTerm (ac_args m));
  mo_entries : ∀ j e, 0 ≤ j → (aea_Entries (ac_args m)).[j] = Some e →
    (hist (aea_Term (ac_args m))).[aea_PrevLogIndex (ac_args m) + 1 + j] = Some e;
}.

Definition termOk rf : Prop := 0 ≤ currentTerm rf ∧ (state rf = CANDIDATE → 0 < currentTerm rf).

Record logInv (nds : list (Raft C)) (ls : list (nat * Z)) (ms : list (AppendCall C))
    (full : list (list (Log C))) hist : Prop := {
  li_len : length full = length nds;
  li_node : ∀ s rf F, nds !! s = Some rf → full !! s = Some F → shows F rf ∧ coherent hist F;
  li_term : ∀ s rf, nds !! s = Some rf → termOk rf;
  li_hist : ∀ t, coherent hist (hist t);
  li_led : ∀ t, hist t ≠ [] → t ≠ 0 → ∃ s, (s, t) ∈ ls;
  li_pos : ∀ s t, (s, t) ∈ ls → 0 < t;
  li_leader : ∀ s rf, nds !! s = Some rf → state rf = LEADER →
    full !! s = Some (hist (currentTerm rf)) ∧ headShown (hist (currentTerm rf)) rf;
  li_msgs : Forall (messageOk ls hist) ms;
}.

(** ** Positions *)
Lemma shows_above F rf i : shows F rf → lastIncludedIndex rf < i → Term <$> F.[i] = termAt rf i.
Proof. intros Hsh Hi. by rewrite (sh_entries _ _ Hsh) by lia. Qed.

Lemma shows_term F rf i : shows F rf → headShown F rf → lastIncludedIndex rf ≤ i → Term <$> F.[i] = termAt rf i.
Proof.
  intros Hsh Hh Hi. destruct (decide (i = lastIncludedIndex rf)) as [->|]; [done|]. apply shows_above; [done|lia].
Qed.

Lemma termAt_range rf i t : termAt rf i = Some t → lastIncludedIndex rf ≤ i.
Proof.
  unfold termAt. intros (l & Hl & _)%fmap_Some. apply go_index_Some_lt in Hl. unfold realIndex in Hl. lia.
Qed.

Lemma shows_termAt F rf i t : shows F rf → headShown F rf → termAt rf i = Some t → ∃ e, F.[i] = Some e ∧ Term e = t.
Proof.
  intros Hsh Hh Ht. pose proof (termAt_range _ _ _ Ht) as Hi. rewrite <-(shows_term _ _ _ Hsh Hh Hi) in Ht.
  apply fmap_Some in Ht as (e & ? & ->). eauto.
Qed.

Lemma shows_same F rf rf' :
  log rf' = log rf → lastIncludedIndex rf' = lastIncludedIndex rf → shows F rf → shows F rf'.
Proof.
  intros Hlog Hlii [? ? He].
  constructor; rewrite ?Hlii, ?Hlog; try done; unfold entryAt, termAt, realIndex in *; by rewrite ?Hlii, ?Hlog.
Qed.

Lemma headShown_same F rf rf' :
  log rf' = log rf → lastIncludedIndex rf' = lastIncludedIndex rf → headShown F rf → headShown F rf'.
Proof. intros Hlog Hlii. unfold headShown, termAt, realIndex. by rewrite Hlog, Hlii. Qed.

(** The log cut at a position it has, whatever its new head. *)
Lemma shows_trim F rf rf' i h :
  shows F rf → 0 ≤ realIndex rf i < len (log rf) →
  log rf' = h :: drop (Z.to_nat (realIndex rf i + 1)) (log rf) → lastIncludedIndex rf' = i →
  shows F rf'.
Proof.
  intros [H0 Hl He] Hr Hlog Hlii.
  assert (lastIncludedIndex rf ≤ i) as Hi by (unfold realIndex in Hr; lia).
  constructor; rewrite ?Hlii.
  - lia.
  - rewrite Hlog, len_cons, len_drop by lia. unfold realIndex. lia.
  - intros j Hj. rewrite (trimmed_entryAt rf rf' i j); rewrite ?Hlog; try done. apply He. lia.
Qed.

Lemma headShown_cut F rf' h tl :
  log rf' = h :: tl → Term <$> F.[lastIncludedIndex rf'] = Some (Term h) → headShown F rf'.
Proof. intros Hlog Ht. unfold headShown, termAt, realIndex. by rewrite Ht, Hlog, Z.sub_diag. Qed.

Lemma index_below F i j e : F.[i] = Some e → 0 ≤ j ≤ i → ∃ e', F.[j] = Some e'.
Proof. intros Hi Hj. apply go_index_Some_lt in Hi. apply go_index_lt_Some. lia. Qed.

(** ** The invariant under changes *)
Lemma logInv_node nds ls ms full hist s rf rf' F :
  logInv nds ls ms full hist → nds !! s = Some rf → shows F rf' → coherent hist F → termOk rf' →
  (state rf' = LEADER → F = hist (currentTerm rf') ∧ headShown F rf') →
  logInv (<[s := rf']> nds) ls ms (<[s := F]> full) hist.
Proof.
  intros I Hs Hsh Hco Ht Hl. pose proof (lookup_lt_Some _ _ _ Hs) as Hlt.
  constructor; try apply I.
  - rewrite !length_insert. apply I.
  - intros s' r F' Hr HF'.
    apply list_lookup_insert_Some in Hr as [(-> & <- & _)|[Hne Hr]].
    + rewrite list_lookup_insert_eq in HF' by (by rewrite (li_len _ _ _ _ _ I)). by injection HF' as <-.
    + rewrite list_lookup_insert_ne in HF' by done. by apply (li_node _ _ _ _ _ I s').
  - intros s' r [(-> & <- & _)|[Hne Hr]]%list_lookup_insert_Some; [done|by eapply li_term].
  - intros s' r [(-> & <- & _)|[Hne Hr]]%list_lookup_insert_Some Hst.
    + rewrite list_lookup_insert_eq by (by rewrite (li_len _ _ _ _ _ I)). by destruct (Hl Hst) as [<- ?].
    + rewrite list_lookup_insert_ne by done. by eapply li_leader.
Qed.

Lemma full_lookup nds ls ms full hist s rf :
  logInv nds ls ms full hist → nds !! s = Some rf →
  ∃ F, full !! s = Some F ∧ shows F rf ∧ coherent hist F.
Proof.
  intros I Hs. destruct (lookup_lt_is_Some_2 full s) as [F HF].
  { rewrite (li_len _ _ _ _ _ I). by eapply lookup_lt_Some. }
  destruct (li_node _ _ _ _ _ I _ _ _ Hs HF). eauto.
Qed.

Lemma voteStep_termOk rf rf' : voteStep rf rf' → termOk rf → termOk rf'.
Proof.
  intros [Ht _ Hc _] [H0 H1]. split; [lia|]. intros Hst.
  destruct (decide (currentTerm rf' = currentTerm rf)) as [He|]; [|lia]. rewrite He. by apply H1, Hc.
Qed.

(** A step that leaves the log of a peer showing the same history. *)
Lemma logInv_kept nds ls ms full hist s rf rf' :
  logInv nds ls ms full hist → nds !! s = Some rf → voteStep rf rf' →
  (∀ F, full !! s = Some F → shows F rf → shows F rf' ∧ (state rf' = LEADER → headShown F rf → headShown F rf')) →
  logInv (<[s := rf']> nds) ls ms full hist.
Proof.
  intros I Hs Hv Hsh. destruct (full_lookup _ _ _ _ _ _ _ I Hs) as (F & HF & HshF & Hco).
  destruct (Hsh F HF HshF) as [Hsh' Hh'].
  rewrite <-(list_insert_id full s F HF). eapply logInv_node; eauto using voteStep_termOk, li_term.
  intros Hst. destruct (vs_lead _ _ Hv Hst) as [-> Hl]. destruct (li_leader _ _ _ _ _ I _ _ Hs Hl) as [HF' Hh].
  rewrite HF in HF'. injection HF' as ->. auto.
Qed.

Lemma logInv_same nds ls ms full hist s rf rf' :
  logInv nds ls ms full hist → nds !! s = Some rf → voteStep rf rf' →
  log rf' = log rf → lastIncludedIndex rf' = lastIncludedIndex rf →
  logInv (<[s := rf']> nds) ls ms full hist.
Proof. intros I Hs Hv Hlog Hlii. eapply logInv_kept; eauto using shows_same, headShown_same. Qed.

(** Every peer's log is its history without what a snapshot cut off. *)
Definition heads nds full : Prop := ∀ s rf F, nds !! s = Some rf → full !! s = Some F → headShown F rf.

Lemma heads_insert nds full s rf' F' :
  length full = length nds → heads nds full → headShown F' rf' → heads (<[s := rf']> nds) (<[s := F']> full).
Proof.
  intros Hlen Hh Hh' j r G [(-> & <- & Hlt)|[Hne Hr]]%list_lookup_insert_Some HG.
  - rewrite list_lookup_insert_eq in HG by lia. by injection HG as <-.
  - rewrite list_lookup_insert_ne in HG by done. by apply (Hh j).
Qed.

Lemma heads_kept nds full s rf rf' F :
  length full = length nds → nds !! s = Some rf → full !! s = Some F → heads nds full →
  (headShown F rf → headShown F rf') → heads (<[s := rf']> nds) full.
Proof.
  intros Hlen Hs HF Hh Hh'. rewrite <-(list_insert_id full s F HF). apply heads_insert; [done..|]. apply Hh', (Hh s); done.
Qed.

(** The leader of a term, from its election on, writes the history of the term. *)
Definition writes hist (t : Z) F : Z → list (Log C) := λ u, if u =? t then F else hist u.

Lemma writes_grows hist t F u j e :
  (∀ j e, (hist t).[j] = Some e → F.[j] = Some e) → (hist u).[j] = Some e → (writes hist t F u).[j] = Some e.
Proof. intros Hg He. unfold writes. case_if; subst; auto. Qed.

Lemma coherent_writes hist t F G :
  (∀ j e, (hist t).[j] = Some e → F.[j] = Some e) → coherent hist G → coherent (writes hist t F) G.
Proof. intros Hg Hco i e j e' Hi Hj He'. apply writes_grows; eauto. Qed.

Lemma messageOk_writes ls ls' hist t F m :
  (∀ j e, (hist t).[j] = Some e → F.[j] = Some e) → ls ⊆ ls' → messageOk ls hist m → messageOk ls' (writes hist t F) m.
Proof.
  intros Hg Hsub [Hl Ho Hp He]. constructor; auto using writes_grows.
  apply fmap_Some in Hp as (e & Hp & ->). by rewrite (writes_grows _ _ _ _ _ _ Hg Hp).
Qed.

Lemma logInv_writes nds ls ls' ms full hist s rf rf' F :
  logInv nds ls ms full hist → nds !! s = Some rf → shows F rf' → headShown F rf' →
  state rf' = LEADER → 0 < currentTerm rf' →
  (∀ j e, (hist (currentTerm rf')).[j] = Some e → F.[j] = Some e) →
  coherent (writes hist (currentTerm rf') F) F →
  (∀ s' r, nds !! s' = Some r → state r = LEADER → currentTerm r = currentTerm rf' → s' = s) →
  ls ⊆ ls' → (s, currentTerm rf') ∈ ls' → (∀ p, p ∈ ls' → p ∈ ls ∨ p = (s, currentTerm rf')) →
  logInv (<[s := rf']> nds) ls' ms (<[s := F]> full) (writes hist (currentTerm rf') F).
Proof.
  intros I Hs Hsh Hhd Hst Hpos Hg Hco Huniq Hsub Hin Hnew. pose proof (lookup_lt_Some _ _ _ Hs) as Hlt.
  constructor.
  - rewrite !length_insert. apply I.
  - intros s' r F' Hr HF'. apply list_lookup_insert_Some in Hr as [(-> & <- & _)|[Hne Hr]].
    + rewrite list_lookup_insert_eq in HF' by (by rewrite (li_len _ _ _ _ _ I)). by injection HF' as <-.
    + rewrite list_lookup_insert_ne in HF' by done. destruct (li_node _ _ _ _ _ I s' _ _ Hr HF').
      eauto using coherent_writes.
  - intros s' r [(-> & <- & _)|[Hne Hr]]%list_lookup_insert_Some; [|by eapply li_term].
    split; [lia|]. by rewrite Hst.
  - intros t. unfold writes at 2. case_if; [done|]. apply coherent_writes; [done|apply I].
  - intros t Ht H0. unfold writes in Ht. case_if_in Ht; [subst; eauto|].
    destruct (li_led _ _ _ _ _ I t Ht H0) as [s' Hs']. eauto.
  - intros s' t Ht. destruct (Hnew _ Ht) as [Ht'|[= -> ->]]; [|done]. by eapply li_pos.
  - intros s' r [(-> & <- & _)|[Hne Hr]]%list_lookup_insert_Some Hl.
    + rewrite list_lookup_insert_eq by (by rewrite (li_len _ _ _ _ _ I)). unfold writes. by rewrite !Z.eqb_refl.
    + rewrite list_lookup_insert_ne by done. unfold writes. case_if; [destruct Hne; symmetry; by eapply Huniq|].
      by eapply li_leader.
  - eapply Forall_impl; [apply I|]. eauto using messageOk_writes.
Qed.

(** ** The operations of one peer and its log *)
Lemma Start_leader rf command :
  state rf = LEADER → let rf' := (Start rf command).1.1 in
  log rf' = log rf ++ [mkLog (Some command) (currentTerm rf)] ∧ lastIncludedIndex rf' = lastIncludedIndex rf ∧
  currentTerm rf' = currentTerm rf ∧ state rf' = LEADER ∧ commitIndex rf' = commitIndex rf ∧ matchIndex rf' = matchIndex rf.
Proof. intros Hst rf'. unfold rf', Start. rewrite bool_decide_true by done. by split_and!. Qed.

Lemma Start_other rf command : state rf ≠ LEADER → (Start rf command).1.1 = rf.
Proof. intros Hst. unfold Start. by rewrite bool_decide_false. Qed.

Lemma CondInstall_cases rf term index snap rf' b :
  CondInstallSnapshot rf term index snap = Some (rf', b) →
  (index ≤ commitIndex rf ∧ rf' = rf) ∨
  (commitIndex rf < index ∧ lastIncludedIndex rf' = index ∧ commitIndex rf' = index ∧
   currentTerm rf' = currentTerm rf ∧ state rf' = state rf ∧ matchIndex rf' = matchIndex rf ∧
   if decide (index < getLastLogIndex rf)
   then 0 ≤ realIndex rf index < len (log rf) ∧
        log rf' = mkLog None term :: drop (Z.to_nat (realIndex rf index + 1)) (log rf)
   else log rf' = [mkLog None term]).
Proof.
  unfold CondInstallSnapshot. intros H. case_if_in H; [left; by injection H|right].
  apply bind_Some in H as (lg & Hlg & H). apply bind_Some in H as (lg' & Hlg' & [= <- <-]).
  simpl. split_and!; try done. case_if_in Hlg.
  - rewrite decide_False by lia. rewrite go_make_Some in Hlg by lia. injection Hlg as <-.
    apply go_store_inv in Hlg' as [_ ->]. done.
  - rewrite decide_True by lia. apply bind_Some in Hlg as (nl & Hnl & Hlg).
    apply bind_Some in Hlg as (src & Hsrc & [= <-]). apply slice_from_inv in Hsrc as [Hr ->].
    unfold getLastLogIndex, logicIndex, realIndex in *.
    rewrite go_make_Some in Hnl by lia. injection Hnl as <-.
    rewrite go_copy_same_length in Hlg' by (rewrite length_replicate, length_drop; unfold len in *; lia).
    apply go_store_inv in Hlg' as [Hr' ->]. split; [lia|].
    destruct (go_index_lt_Some (log rf) (index - lastIncludedIndex rf)) as [l0 Hl0]; [lia|].
    rewrite go_index_nonneg in Hl0 by lia. rewrite (drop_S _ _ _ Hl0). simpl. f_equal. f_equal. lia.
Qed.

(** The operations that do not touch the log. *)
Lemma quiet_log rf op rf' :
  nodeExec rf op = Some rf' →
  match op with
  | OpStart _ | OpSnapshot _ _ | OpCondInstallSnapshot _ _ _ | OpAppendEntries _ => True
  | _ => log rf' = log rf ∧ lastIncludedIndex rf' = lastIncludedIndex rf
  end.
Proof.
  intros H; destruct op; try done; node_unfold; node_inv; simpl in *; try done.
  all: repeat (case_if; simpl in *); done.
Qed.

Lemma AppendEntries_rejected rf args rf' reply eff :
  AppendEntries rf args = Some (rf', reply, eff) → aer_Success reply = false →
  log rf' = log rf ∧ lastIncludedIndex rf' = lastIncludedIndex rf.
Proof.
  unfold AppendEntries. intros H Hs. apply bind_Some in H as (? & _ & H).
  apply bind_Some in H as (rf1 & Hrf1 & H).
  assert (log rf1 = log rf ∧ lastIncludedIndex rf1 = lastIncludedIndex rf) as Hsame.
  { case_if_in Hrf1; [by apply toFollower_Some in Hrf1 as ->|by injection Hrf1 as <-]. }
  case_if_in H; [by injection H as <- _ _|]. case_if_in H; [by injection H as <- _ _|].
  apply bind_Some in H as (lp & _ & H). case_if_in H.
  - apply bind_Some in H as (i & _ & [= <- _ _]). done.
  - apply bind_Some in H as ([lg ch] & _ & [= _ <- _]). done.
Qed.

Lemma electReply_log rf cnt reply rf' cnt' eff :
  electReply rf cnt reply = Some (rf', cnt', eff) →
  log rf' = log rf ∧ lastIncludedIndex rf' = lastIncludedIndex rf.
Proof. intros H. apply (quiet_log rf (OpElectReply cnt reply)). simpl. by rewrite H. Qed.

Lemma recovers_shows F rf rf' : shows F rf → wf rf → recovers rf rf' → shows F rf'.
Proof.
  intros Hsh Hwf Hrec. pose proof (wf_log _ Hwf) as Hpos. pose proof (sh_lii _ _ Hsh).
  destruct (rec_head _ _ Hrec) as (h & Hh & _).
  apply (shows_trim F rf rf' (lastIncludedIndex rf) h); try done.
  - unfold realIndex. lia.
  - unfold realIndex. rewrite Z.sub_diag. destruct (log rf') as [|h' tl] eqn:Hlog'; [done|].
    injection Hh as ->. f_equal. pose proof (rec_log _ _ Hrec) as Ht. rewrite Hlog' in Ht. simpl in Ht.
    rewrite Ht. by destruct (log rf).
  - apply Hrec.
Qed.

Lemma recovers_headShown F rf rf' :
  recovers rf rf' → termAt rf (lastIncludedIndex rf) = Some (lastIncludedTerm rf) → headShown F rf → headShown F rf'.
Proof.
  intros Hrec Hhead Hh. destruct (rec_head _ _ Hrec) as (h & Hh' & Hht).
  destruct (log rf') as [|h' tl] eqn:Hlog'; [done|]. injection Hh' as ->.
  eapply headShown_cut; [exact Hlog'|]. by rewrite (rec_lii _ _ Hrec), Hh, Hhead, Hht.
Qed.

(** ** The steps *)
(** The leader's history grows by its new entry. *)
Lemma start_step n nds gs ls ms full hist s rf command :
  votesInv n nds gs ls → logInv nds ls ms full hist → nds !! s = Some rf → state rf = LEADER →
  let t := currentTerm rf in
  let F' := hist t ++ [mkLog (Some command) t] in
  logInv (<[s := (Start rf command).1.1]> nds) ls ms (<[s := F']> full) (writes hist t F').
Proof.
  intros V I Hs Hst t F'. destruct (Start_leader rf command Hst) as (Hlog & Hlii & Hct & Hst' & _).
  set (rf' := (Start rf command).1.1) in *. unfold F'. set (e := mkLog (Some command) t) in *.
  destruct (full_lookup _ _ _ _ _ _ _ I Hs) as (F & HF & Hsh & Hco).
  destruct (li_leader _ _ _ _ _ I _ _ Hs Hst) as [HF' Hhd]. rewrite HF in HF'. injection HF' as HF'.
  pose proof (vi_listed _ _ _ _ V _ _ Hs Hst) as Hled. fold t in HF', Hled, Hct, Hhd. rewrite <-HF' in Hhd |- *.
  pose proof (wf_log _ (no_wf _ _ _ (vi_nodes _ _ _ _ V _ _ Hs))) as Hpos. pose proof Hsh as [Hlii0 Hlen Hent].
  rewrite <-Hct. apply (logInv_writes _ ls _ _ _ _ _ rf); try done.
  - constructor; rewrite ?Hlii.
    + done.
    + rewrite Hlog, !len_snoc. lia.
    + intros j Hj. unfold entryAt, realIndex. rewrite Hlii, Hlog.
      destruct (decide (j < len F)) as [Hlt|Hge].
      * rewrite !go_index_app_l by lia. by apply Hent.
      * rewrite !go_index_app_r by lia. f_equal. lia.
  - unfold headShown, termAt, realIndex in *. rewrite Hlii, Hlog, !go_index_app_l by lia. exact Hhd.
  - rewrite Hct. eapply li_pos; [done|exact Hled].
  - rewrite Hct, <-HF'. intros j e0 Hj. rewrite go_index_app_l; [done|]. apply go_index_Some_lt in Hj. lia.
  - intros i e0 j e' Hi Hj He'. unfold writes. case_if; [done|].
    assert (i < len F) as Hlt.
    { destruct (decide (i < len F)); [done|]. rewrite go_index_app_r in Hi by lia.
      pose proof (go_index_Some_lt _ _ _ Hi) as Hr. change (len [e]) with 1 in Hr.
      replace (i - len F) with 0 in Hi by lia. injection Hi as <-. simpl in Hif. lia. }
    rewrite go_index_app_l in Hi, He' by lia. by eapply Hco.
  - intros s' r Hr Hl Ht. rewrite Hct in Ht.
    pose proof (vi_listed _ _ _ _ V _ _ Hr Hl) as Hled'. rewrite Ht in Hled'.
    by eapply votesInv_unique.
  - by rewrite Hct.
  - auto.
Qed.

Lemma snapshot_shows F rf index snap rf' :
  shows F rf → Snapshot rf index snap = Some rf' → shows F rf' ∧ (lastIncludedIndex rf < index ∨ headShown F rf → headShown F rf').
Proof.
  intros Hsh H. destruct (decide (lastIncludedIndex rf < index)) as [Hi|Hi].
  - destruct (Snapshot_Some _ _ _ _ H Hi) as (l0 & Hl0 & Hlog & Hlii & _). split.
    + apply (shows_trim F rf rf' index (mkLog None (Term l0))); try done. by apply go_index_Some_lt in Hl0.
    + intros _. eapply headShown_cut; [exact Hlog|]. rewrite Hlii, (shows_above _ _ _ Hsh Hi).
      unfold termAt. unfold entryAt in Hl0. by rewrite Hl0.
  - unfold Snapshot in H. rewrite (proj2 (Z.leb_le _ _)) in H by lia. injection H as <-. split; [done|]. by intros [?|?].
Qed.

Lemma snapshot_step nds ls ms full hist s rf index snap rf' :
  logInv nds ls ms full hist → nds !! s = Some rf → Snapshot rf index snap = Some rf' →
  logInv (<[s := rf']> nds) ls ms full hist.
Proof.
  intros I Hs H. assert (voteStep rf rf') as Hv by (by eapply (quiet_voteStep rf (OpSnapshot index snap))).
  eapply logInv_kept; [done..|]. intros F _ Hsh. destruct (snapshot_shows _ _ _ _ _ Hsh H). auto.
Qed.

(** [CondInstallSnapshot] with a position that the log has keeps what comes after it. *)
Lemma install_shows F rf term index snap rf' b :
  shows F rf → 0 < len (log rf) → CondInstallSnapshot rf term index snap = Some (rf', b) →
  index ≤ getLastLogIndex rf → shows F rf'.
Proof.
  intros Hsh Hpos H Hle. destruct (CondInstall_cases _ _ _ _ _ _ H) as [[_ ->]|(_ & Hlii & _ & _ & _ & _ & Hlog)]; [done|].
  case_decide as Hlast.
  - destruct Hlog as [Hr Hlog]. by apply (shows_trim F rf rf' index (mkLog None term)).
  - destruct Hsh as [H0 Hl He]. unfold getLastLogIndex, logicIndex in *. constructor; rewrite ?Hlii, ?Hlog.
    + lia.
    + change (len [_]) with 1. lia.
    + intros j Hj. unfold entryAt, realIndex. rewrite Hlog, Hlii. rewrite !(proj2 (go_index_None _ _)); [done| |lia].
      change (len [_]) with 1. lia.
Qed.

Lemma install_headShown F rf term index snap rf' b :
  CondInstallSnapshot rf term index snap = Some (rf', b) → commitIndex rf < index →
  Term <$> F.[index] = Some term → headShown F rf'.
Proof.
  intros H Hci Ht. destruct (CondInstall_cases _ _ _ _ _ _ H) as [[? _]|(_ & Hlii & _ & _ & _ & _ & Hlog)]; [lia|].
  case_decide; [destruct Hlog as [_ Hlog]|]; (eapply headShown_cut; [exact Hlog|]; by rewrite Hlii).
Qed.

(** A position after the log replaces it by the history up to the position. *)
Lemma install_replaces hist t rf term index snap rf' b :
  CondInstallSnapshot rf term index snap = Some (rf', b) → commitIndex rf < index → getLastLogIndex rf ≤ index →
  Term <$> (hist t).[index] = Some term → shows (take (Z.to_nat (index + 1)) (hist t)) rf' ∧
  headShown (take (Z.to_nat (index + 1)) (hist t)) rf'.
Proof.
  intros H Hci Hlast Ht. pose proof Ht as (x & Hx & Hxt)%fmap_Some. pose proof (go_index_Some_lt _ _ _ Hx) as Hr.
  assert (Term <$> (take (Z.to_nat (index + 1)) (hist t)).[index] = Some term) as Ht' by (by rewrite go_index_take by lia).
  split; [|by eapply install_headShown].
  destruct (CondInstall_cases _ _ _ _ _ _ H) as [[? _]|(_ & Hlii & _ & _ & _ & _ & Hlog)]; [lia|].
  rewrite decide_False in Hlog by lia.
  assert (len (take (Z.to_nat (index + 1)) (hist t)) = index + 1) as Hlen by (apply len_take; lia).
  constructor; rewrite ?Hlii; [lia|rewrite Hlen, Hlog; done|].
  intros j Hj. unfold entryAt, realIndex. rewrite Hlii, Hlog.
  rewrite !(proj2 (go_index_None _ _)); [done| |lia]. change (len [_]) with 1. lia.
Qed.

Lemma coherent_take hist F k : coherent hist F → coherent hist (take (Z.to_nat k) F).
Proof.
  intros Hco i e j e' Hi Hj He'.
  assert (∀ j x, (take (Z.to_nat k) F).[j] = Some x → F.[j] = Some x) as Hsub.
  { intros j' x Hx. pose proof (go_index_Some_lt _ _ _ Hx) as Hr. unfold len in Hr. rewrite length_take in Hr.
    rewrite <-Hx. symmetry. apply go_index_take. lia. }
  eapply Hco; eauto.
Qed.

Lemma CondInstall_voteStep rf term index snap rf' b :
  CondInstallSnapshot rf term index snap = Some (rf', b) → voteStep rf rf'.
Proof. intros H. eapply (quiet_voteStep rf (OpCondInstallSnapshot term index snap)); [done|]. simpl. by rewrite H. Qed.

Lemma install_kept nds ls ms full hist s rf term index snap rf' b :
  logInv nds ls ms full hist → nds !! s = Some rf → 0 < len (log rf) →
  CondInstallSnapshot rf term index snap = Some (rf', b) → commitIndex rf < index → index ≤ getLastLogIndex rf →
  (∀ F, full !! s = Some F → state rf = LEADER → Term <$> F.[index] = Some term) →
  logInv (<[s := rf']> nds) ls ms full hist.
Proof.
  intros I Hs Hpos H Hci Hle Hlead. pose proof (CondInstall_voteStep _ _ _ _ _ _ H) as Hv.
  eapply logInv_kept; [done..|]. intros F HF Hsh. split; [by eapply install_shows|].
  intros [_ Hst]%(vs_lead _ _ Hv) _. eapply install_headShown; eauto.
Qed.

Lemma install_reset nds ls ms full hist s rf term index snap rf' b t :
  logInv nds ls ms full hist → nds !! s = Some rf →
  CondInstallSnapshot rf term index snap = Some (rf', b) → commitIndex rf < index → getLastLogIndex rf ≤ index →
  state rf ≠ LEADER → Term <$> (hist t).[index] = Some term →
  logInv (<[s := rf']> nds) ls ms (<[s := take (Z.to_nat (index + 1)) (hist t)]> full) hist.
Proof.
  intros I Hs H Hci Hlast Hst Ht. pose proof (CondInstall_voteStep _ _ _ _ _ _ H) as Hv.
  destruct (install_replaces hist t _ _ _ _ _ _ H Hci Hlast Ht) as [Hsh _].
  eapply logInv_node; try done.
  - apply coherent_take, (li_hist _ _ _ _ _ I).
  - eapply voteStep_termOk; [done|by eapply li_term].
  - intros [_ ?]%(vs_lead _ _ Hv). done.
Qed.

(** The installation of a snapshot whose position some peer has, and the peer's own log if
    it reaches so far. *)
Lemma install_step nds ls ms full hist s rf term index snap rf' b :
  logInv nds ls ms full hist → heads nds full → nds !! s = Some rf → 0 < len (log rf) →
  CondInstallSnapshot rf term index snap = Some (rf', b) →
  (commitIndex rf < index →
    (∃ q rfq, nds !! q = Some rfq ∧ termAt rfq index = Some term) ∧
    (index ≤ getLastLogIndex rf → termAt rf index = Some term) ∧
    (state rf = LEADER → index ≤ getLastLogIndex rf)) →
  ∃ full', logInv (<[s := rf']> nds) ls ms full' hist ∧ heads (<[s := rf']> nds) full'.
Proof.
  intros I Hheads Hs Hpos H Hsnd. pose proof (li_len _ _ _ _ _ I) as Hlen.
  destruct (full_lookup _ _ _ _ _ _ _ I Hs) as (F & HF & Hsh & Hco).
  pose proof (Hheads _ _ _ Hs HF) as Hh.
  destruct (decide (commitIndex rf < index)) as [Hci|Hci].
  2:{ destruct (CondInstall_cases _ _ _ _ _ _ H) as [[_ ->]|[? _]]; [|lia]. rewrite list_insert_id by done. eauto. }
  destruct (Hsnd Hci) as ((q & rfq & Hq & Hqt) & Hown & Hlead).
  destruct (decide (index ≤ getLastLogIndex rf)) as [Hle|Hgt].
  - assert (Term <$> F.[index] = Some term) as Ht.
    { specialize (Hown Hle). by rewrite (shows_term _ _ _ Hsh Hh (termAt_range _ _ _ Hown)). }
    exists full. split.
    + eapply install_kept; try done. intros F' HF' _. congruence.
    + eapply heads_kept; try done. intros _. by eapply install_headShown.
  - destruct (full_lookup _ _ _ _ _ _ _ I Hq) as (Fq & HFq & Hshq & Hcoq).
    destruct (shows_termAt _ _ _ _ Hshq (Hheads _ _ _ Hq HFq) Hqt) as (eq & Heq & Het).
    pose proof (Hcoq _ _ _ _ Heq ltac:(reflexivity) Heq) as Hhi. rewrite Het in Hhi.
    assert (Term <$> (hist term).[index] = Some term) as Ht by (by rewrite Hhi, <-Het).
    eexists. split.
    + eapply install_reset; try done; [lia|]. intros Hl. specialize (Hlead Hl). lia.
    + apply heads_insert; try done. eapply install_replaces; try done; lia.
Qed.

(** Two logs of the cluster with the same term at an index. *)
Lemma coherent_agree hist F G i a b j :
  coherent hist F → coherent hist G → F.[i] = Some a → G.[i] = Some b → Term a = Term b → j ≤ i → F.[j] = G.[j].
Proof.
  intros HF HG Ha Hb Ht Hj. destruct (decide (0 ≤ j)) as [H0|H0].
  - destruct (index_below _ _ j _ Ha) as [x Hx]; [lia|]. destruct (index_below _ _ j _ Hb) as [y Hy]; [lia|].
    pose proof (HF _ _ _ _ Ha Hj Hx) as H1. pose proof (HG _ _ _ _ Hb Hj Hy) as H2. rewrite Ht in H1. congruence.
  - rewrite !(proj2 (go_index_None _ _)); [done|lia..].
Qed.

Definition lastOfCall m : Z := aea_PrevLogIndex (ac_args m) + len (aea_Entries (ac_args m)).
Abbreviation termOf m := (aea_Term (ac_args m)).

(** What a merge does to the history of a peer, [G] being the leader's log: [sure] says that the
    peer's own part agrees at all. *)
Record merged (sure : Prop) F F' (G : list (Log C)) (last : Z) : Prop := {
  me_reached : last < len F';
  me_agrees : sure → ∀ j, j ≤ last → F'.[j] = G.[j];
  me_kept : ∀ i e, F.[i] = Some e → G.[i] = Some e → F'.[i] = Some e;
  me_cases : F' = F ∨ F' = take (Z.to_nat (last + 1)) G;
}.

Lemma go_index_take_le (G : list (Log C)) k j : j ≤ k → (take (Z.to_nat (k + 1)) G).[j] = G.[j].
Proof.
  intros Hj. destruct (decide (0 ≤ j)); [by apply go_index_take; lia|].
  by rewrite !(proj2 (go_index_None _ _)) by lia.
Qed.

Section merge.
Context (ls : list (nat * Z)) (hist : Z → list (Log C)) (m : AppendCall C) (rf : Raft C) (F : list (Log C)) (lp : Log C).
Abbreviation prev := (aea_PrevLogIndex (ac_args m)).
Abbreviation ents := (aea_Entries (ac_args m)).
Abbreviation G := (hist (termOf m)).
Abbreviation pli := (realIndex rf prev).
Context (Hok : messageOk ls hist m) (Hsh : shows F rf) (Hco : coherent hist F) (HcoG : coherent hist G).
Context (Hlp : (log rf).[pli] = Some lp) (Hlt : Term lp = aea_PrevLogTerm (ac_args m)).

Lemma prev_at : termAt rf prev = Some (aea_PrevLogTerm (ac_args m)).
Proof using Hlp Hlt. unfold termAt. by rewrite Hlp, <-Hlt. Qed.

Lemma prev_range : 0 ≤ pli < len (log rf) ∧ lastIncludedIndex rf ≤ prev ∧ 0 ≤ prev < len G ∧ prev < len F.
Proof using Hlp Hok Hsh Hlt.
  pose proof (go_index_Some_lt _ _ _ Hlp) as Hp. split; [done|]. split; [by eapply termAt_range, prev_at|].
  pose proof (mo_prev _ _ _ Hok) as (e & He & _)%fmap_Some. split; [by apply go_index_Some_lt in He|].
  rewrite (sh_len _ _ Hsh). unfold realIndex in Hp. lia.
Qed.

Lemma low_agrees : lastIncludedIndex rf < prev ∨ headShown F rf → ∀ j, j ≤ prev → F.[j] = G.[j].
Proof using Hok Hsh Hco HcoG Hlp Hlt.
  intros Hsure j Hj. pose proof prev_range as (_ & Hle & _).
  assert (Term <$> F.[prev] = Some (aea_PrevLogTerm (ac_args m))) as (e & He & Het)%fmap_Some.
  { rewrite <-prev_at. destruct Hsure; [by apply shows_above|by apply shows_term]. }
  pose proof (mo_prev _ _ _ Hok) as (e2 & He2 & Het2)%fmap_Some.
  eapply (coherent_agree hist F G prev e e2); try done. congruence.
Qed.

Lemma entries_above q e :
  0 ≤ q → F.[prev + 1 + q] = Some e ↔ drop (Z.to_nat (pli + 1)) (log rf) !! Z.to_nat q = Some e.
Proof using Hok Hsh Hlp Hlt.
  intros Hq. pose proof prev_range as (Hp & Hle & _). rewrite (sh_entries _ _ Hsh) by lia. unfold entryAt.
  replace (realIndex rf (prev + 1 + q)) with (pli + 1 + q) by (unfold realIndex; lia).
  rewrite <-go_index_drop by lia. by rewrite go_index_nonneg by lia.
Qed.

Lemma ents_in_G q : 0 ≤ q < len ents → G.[prev + 1 + q] = ents.[q].
Proof using Hok. intros Hq. destruct (go_index_lt_Some ents q Hq) as [e He]. rewrite He. apply (mo_entries _ _ _ Hok); [lia|done]. Qed.

Lemma last_in_G : lastOfCall m < len G.
Proof using Hok Hsh Hlp Hlt.
  pose proof prev_range as (_ & _ & Hr & _). unfold lastOfCall. pose proof (len_nonneg ents).
  destruct (decide (len ents = 0)); [lia|]. destruct (go_index_lt_Some ents (len ents - 1)) as [e He]; [lia|].
  rewrite <-ents_in_G in He by lia. apply go_index_Some_lt in He. lia.
Qed.

(** The entries that stay when the log is not changed are those of the leader. *)
Lemma merge_unchanged :
  mergeEntries (log rf) ents pli (pli + len ents) = Some (log rf, false) →
  merged (lastIncludedIndex rf < lastOfCall m ∨ headShown F rf) F F G (lastOfCall m).
Proof using Hok Hsh Hco HcoG Hlp Hlt.
  intros Hmerge. pose proof prev_range as (Hp & Hle & Hr & _). pose proof (len_nonneg ents).
  destruct (mergeEntries_result _ _ _ _ _ Hp Hmerge) as (_ & Hlast & _ & Hterms & _ & _).
  constructor; [|intros Hsure j Hj|done|by left].
  - rewrite (sh_len _ _ Hsh). unfold lastOfCall, realIndex in *. lia.
  - unfold lastOfCall in *. destruct (decide (len ents = 0)); [apply low_agrees; [|lia]; destruct Hsure; [left; lia|by right]|].
    destruct (go_index_lt_Some ents (len ents - 1)) as [x Hx]; [lia|].
    pose proof (Hterms (len ents - 1) x ltac:(lia) Hx) as (o & Ho & Hot)%fmap_Some.
    eapply (coherent_agree hist F G (prev + 1 + (len ents - 1)) o x); try done; [|by rewrite ents_in_G by lia|lia].
    apply entries_above; [lia|]. rewrite <-Ho, lookup_drop, go_index_nonneg by lia. f_equal. lia.
Qed.

(** No entry after the last one of the call is the leader's, when the log is changed. *)
Lemma changed_cuts lg i e :
  mergeEntries (log rf) ents pli (pli + len ents) = Some (lg, true) →
  lastOfCall m < i → F.[i] = Some e → G.[i] = Some e → False.
Proof using Hok Hsh Hco HcoG Hlp Hlt.
  intros Hmerge Hi HFi HGi. pose proof prev_range as (Hp & Hle & Hr & _). unfold lastOfCall in Hi.
  pose proof (len_nonneg ents).
  assert (drop (Z.to_nat (pli + 1)) (log rf) !! Z.to_nat (i - prev - 1) = Some e) as Hx%lookup_lt_Some.
  { apply entries_above; [lia|]. by replace (prev + 1 + (i - prev - 1)) with i by lia. }
  destruct (mergeEntries_cases (log rf) ents pli Hp) as [(Hm & _)|(_ & Hmap)]; [congruence|].
  rewrite graft_shorter in Hmap; [|intros j o x Ho Hxj|unfold len in *; lia].
  - apply (f_equal length) in Hmap. rewrite !length_map in Hmap. unfold len in *. lia.
  - assert (F.[prev + 1 + Z.of_nat j] = Some o) as HFo by (apply entries_above; [lia|]; by rewrite Nat2Z.id).
    pose proof (lookup_lt_Some _ _ _ Hxj).
    assert (G.[prev + 1 + Z.of_nat j] = Some x) as HGx.
    { rewrite ents_in_G by (unfold len; lia). by rewrite go_index_of_nat. }
    rewrite (coherent_agree hist F G i e e) in HFo; try done; [congruence|]. unfold len in *. lia.
Qed.

(** A changed log is the leader's up to the last entry of the call. *)
Lemma merge_changed lg rf' :
  mergeEntries (log rf) ents pli (pli + len ents) = Some (lg, true) →
  log rf' = lg → lastIncludedIndex rf' = lastIncludedIndex rf →
  let F' := take (Z.to_nat (lastOfCall m + 1)) G in
  merged True F F' G (lastOfCall m) ∧ shows F' rf' ∧ (prev = lastIncludedIndex rf ∨ headShown F rf → headShown F' rf').
Proof using Hok Hsh Hco HcoG Hlp Hlt.
  intros Hmerge Hlog' Hlii' F'. pose proof prev_range as (Hp & Hle & Hr & _). pose proof last_in_G as Hlast.
  pose proof (len_nonneg ents).
  destruct (mergeEntries_result _ _ _ _ _ Hp Hmerge) as (_ & _ & _ & _ & _ & Ht). specialize (Ht eq_refl).
  assert (prev ≤ lastOfCall m) as Hpl by (unfold lastOfCall; lia).
  assert (len F' = lastOfCall m + 1) as HlenF' by (apply len_take; lia).
  assert (∀ j, j ≤ lastOfCall m → F'.[j] = G.[j]) as HF' by (intros; by apply go_index_take_le).
  assert (len (take (Z.to_nat (pli + 1)) (log rf)) = pli + 1) as Hk by (apply len_take; lia).
  split_and!.
  - constructor; [lia|by intros _|intros i e HFi HGi|by right].
    destruct (decide (i ≤ lastOfCall m)); [by rewrite HF'|]. exfalso. apply (changed_cuts lg i e); [done|lia|done|done].
  - constructor; rewrite ?Hlii'.
    + apply (sh_lii _ _ Hsh).
    + rewrite HlenF', Hlog', Ht, len_app, Hk. unfold lastOfCall, realIndex. lia.
    + intros j Hj. unfold entryAt, realIndex. rewrite Hlii', Hlog', Ht.
      destruct (decide (j ≤ prev)) as [Hjp|Hjp].
      * rewrite HF', <-low_agrees, (sh_entries _ _ Hsh) by (done || lia || (left; lia)). unfold entryAt, realIndex in *.
        by rewrite go_index_app_l, go_index_take by lia.
      * rewrite go_index_app_r by (rewrite Hk; unfold realIndex; lia). rewrite Hk.
        destruct (decide (j ≤ lastOfCall m)) as [Hjl|Hjl].
        -- rewrite HF' by done. replace j with (prev + 1 + (j - prev - 1)) at 1 by lia.
           rewrite ents_in_G by (unfold lastOfCall in *; lia). f_equal. unfold realIndex. lia.
        -- rewrite !(proj2 (go_index_None _ _)); [done|unfold lastOfCall, realIndex in *; lia|lia].
  - intros Hsure. unfold headShown, termAt, realIndex. rewrite Hlii', Hlog', Ht.
    rewrite go_index_app_l, go_index_take by lia. rewrite HF' by lia.
    destruct (decide (prev = lastIncludedIndex rf)) as [E|Hne].
    + rewrite <-E. unfold realIndex in Hlp. rewrite E in Hlp. rewrite E, Hlp. simpl. rewrite Hlt, <-E. apply Hok.
    + destruct Hsure as [?|Hh]; [done|]. rewrite <-low_agrees by (lia || by right). exact Hh.
Qed.
End merge.

(** A log of nothing but the position of the snapshot is not a rest that does not fit. *)
Definition aloneShown F rf : Prop := getLastLogIndex rf = lastIncludedIndex rf → headShown F rf.

Lemma aloneShown_same F rf rf' :
  log rf' = log rf → lastIncludedIndex rf' = lastIncludedIndex rf → aloneShown F rf → aloneShown F rf'.
Proof.
  intros Hlog Hlii Ha. unfold aloneShown, getLastLogIndex, logicIndex in *. rewrite Hlog, Hlii.
  intros E. eapply headShown_same; eauto.
Qed.

(** A peer handles an AppendEntries request. *)
Lemma append_step n nds gs ls ms full hist m rf rf' reply eff :
  votesInv n nds gs ls → logInv nds ls ms full hist → m ∈ ms → nds !! ac_dst m = Some rf →
  AppendEntries rf (ac_args m) = Some (rf', reply, eff) →
  ∃ F F', full !! ac_dst m = Some F ∧ logInv (<[ac_dst m := rf']> nds) ls ms (<[ac_dst m := F']> full) hist ∧
    (headShown F rf → headShown F' rf') ∧ (aloneShown F rf → aloneShown F' rf') ∧
    if aer_Success reply
    then merged (lastIncludedIndex rf < lastOfCall m ∨ headShown F rf) F F' (hist (termOf m)) (lastOfCall m) else F' = F.
Proof.
  intros V I Hm Hs H.
  assert (voteStep rf rf') as Hv.
  { apply (quiet_voteStep rf (OpAppendEntries (ac_args m))); [done|]. simpl. by rewrite H. }
  destruct (full_lookup _ _ _ _ _ _ _ I Hs) as (F & HF & Hsh & Hco).
  destruct (aer_Success reply) eqn:Hsucc.
  2:{ exists F, F. rewrite (list_insert_id full) by done.
      destruct (AppendEntries_rejected _ _ _ _ _ H Hsucc) as [Hl Hi].
      split_and!; [done|by eapply logInv_same|by apply headShown_same|by apply aloneShown_same|done]. }
  pose proof (no_wf _ _ _ (vi_nodes _ _ _ _ V _ _ Hs)) as Hwf.
  destruct (AppendEntries_success_inv _ _ _ _ _ Hwf H Hsucc)
    as (rf1 & lg & ch & lp & (_ & Hlog & Hlii & _ & Hct & _) & _ & Hlp & Hlt & Hmerge & Hrf' & _).
  assert (lastIncludedIndex rf' = lastIncludedIndex rf) as Hlii'.
  { rewrite Hrf'. destruct ch; case_if; simpl; done. }
  pose proof (li_msgs _ _ _ _ _ I) as Hmok. rewrite Forall_forall in Hmok. specialize (Hmok m Hm).
  pose proof (li_hist _ _ _ _ _ I (termOf m)) as HcoG. exists F. destruct ch.
  - assert (log rf' = lg) as Hlog' by (rewrite Hrf'; case_if; done).
    assert (currentTerm rf' = termOf m) as Hct' by (rewrite Hrf'; case_if; simpl; done).
    destruct (merge_changed ls hist m rf F lp Hmok Hsh Hco HcoG Hlp Hlt lg rf' Hmerge Hlog' Hlii') as (Hmerged & Hsh' & Hhd').
    eexists. split; [done|]. split; [|split; [by auto|split; [|by destruct Hmerged; constructor; auto]]].
    + eapply logInv_node; [done|done|exact Hsh'|by apply coherent_take|by eapply voteStep_termOk, (li_term _ _ _ _ _ I)|].
      intros Hl. destruct (vs_lead _ _ Hv Hl) as [Hsame Hl0].
      pose proof (vi_listed _ _ _ _ V _ _ Hs Hl0) as Hled'. rewrite <-Hsame, Hct' in Hled'.
      destruct (mo_other _ _ _ Hmok). eapply votesInv_unique; [done| |exact Hled']. apply Hmok.
    + intros _ Hal. apply Hhd'. left.
      destruct (mergeEntries_result _ _ _ _ _ (go_index_Some_lt _ _ _ Hlp) Hmerge) as (Hr & _).
      pose proof (go_index_Some_lt _ _ _ Hlp) as Hr'. unfold getLastLogIndex, logicIndex, realIndex in *. rewrite Hlog' in Hal. lia.
  - destruct (mergeEntries_result _ _ _ _ _ (go_index_Some_lt _ _ _ Hlp) Hmerge) as (_ & _ & _ & _ & Hf & _).
    rewrite (Hf eq_refl) in Hmerge.
    assert (log rf' = log rf) as Hlog' by (rewrite Hrf'; case_if; simpl; by rewrite Hlog).
    exists F. rewrite (list_insert_id full) by done.
    split_and!; [done|by eapply logInv_same|by apply headShown_same|by apply aloneShown_same|].
    by eapply merge_unchanged.
Qed.

Lemma crash_step n nds gs ls ms full hist s rf rf' :
  votesInv n nds gs ls → logInv nds ls ms full hist → nds !! s = Some rf →
  Make (peers rf) (me rf) (persister rf) = Some rf' →
  logInv (<[s := rf']> nds) ls ms full hist.
Proof.
  intros V I Hs H. destruct (vi_nodes _ _ _ _ V _ _ Hs) as [Hwf Hd _ _ _].
  destruct (Make_recovers rf Hd) as (rf2 & Hx & Hrec). rewrite H in Hx. injection Hx as <-.
  eapply logInv_kept; [done..|by apply recovers_voteStep|]. intros F HF Hsh. split; [by eapply recovers_shows|].
  by rewrite (rec_role _ _ Hrec).
Qed.

(** A candidate wins: the history of its term begins with its log. *)
Lemma lead_step n nds gs ls ms full hist s rf rf' :
  votesInv n nds gs ls → votesInv n (<[s := rf']> nds) gs ((s, currentTerm rf') :: ls) →
  logInv nds ls ms full hist → nds !! s = Some rf →
  log rf' = log rf → lastIncludedIndex rf' = lastIncludedIndex rf →
  currentTerm rf' = currentTerm rf → state rf = CANDIDATE → state rf' = LEADER →
  (∀ F, full !! s = Some F → hist (currentTerm rf') = [] → headShown F rf) →
  ∃ F, full !! s = Some F ∧ hist (currentTerm rf') = [] ∧
    logInv (<[s := rf']> nds) ((s, currentTerm rf') :: ls) ms full (writes hist (currentTerm rf') F).
Proof.
  intros V V' I Hs Hlog Hlii Hct Hst Hst' Hhd.
  destruct (full_lookup _ _ _ _ _ _ _ I Hs) as (F & HF & Hsh & Hco).
  assert (0 < currentTerm rf') as Hpos by (rewrite Hct; by apply (li_term _ _ _ _ _ I s)).
  assert (∀ s', (s', currentTerm rf') ∈ ls → False) as Hnew.
  { intros s' Hs'. assert (s' = s) as ->.
    { eapply (votesInv_unique _ _ _ _ _ _ _ V'); [by right|by left]. }
    destruct (vi_leader _ _ _ _ V _ _ _ Hs' Hs) as [_ Hx]. by destruct (Hx (eq_sym Hct)). }
  assert (hist (currentTerm rf') = []) as Hnil.
  { destruct (hist (currentTerm rf')) as [|x l] eqn:Hh; [done|].
    destruct (li_led _ _ _ _ _ I (currentTerm rf')) as [s' Hs']; [by rewrite Hh|lia|]. by destruct (Hnew s'). }
  exists F. split_and!; [done..|]. rewrite <-(list_insert_id full s F HF) at 1.
  eapply logInv_writes; try done.
  - by eapply shows_same.
  - eapply headShown_same; eauto.
  - rewrite Hnil. intros j e Hj. apply go_index_Some_lt in Hj. unfold len in Hj. simpl in Hj. lia.
  - intros i e j e' Hi Hj He'. unfold writes. case_if; [done|]. by eapply Hco.
  - intros s' r Hr Hl Ht. destruct (Hnew s'). rewrite <-Ht. by eapply vi_listed.
  - intros x Hx. by right.
  - by left.
  - intros x [->|Hx]%elem_of_cons; auto.
Qed.

Definition clusterInv (c : Cluster C) : Prop :=
  ∃ full hist, logInv (nodes (world c)) (leaders (world c)) (appends c) full hist ∧ heads (nodes (world c)) full.

Lemma logInv_calls nds ls ms ms' full hist :
  logInv nds ls ms full hist → Forall (messageOk ls hist) ms' → logInv nds ls ms' full hist.
Proof. intros I Hms. by constructor; try apply I. Qed.

Lemma setAppend_ok ls hist ms k m st :
  Forall (messageOk ls hist) ms → ms !! k = Some m → Forall (messageOk ls hist) (<[k := setAppend st m]> ms).
Proof.
  intros Hms Hk. apply Forall_insert; [done|]. rewrite Forall_lookup in Hms.
  by destruct (Hms k m Hk); constructor.
Qed.

Lemma killCalls_ok ls hist ms s :
  Forall (messageOk ls hist) ms → Forall (messageOk ls hist) (killCalls s ms).
Proof.
  intros Hms. apply Forall_fmap. eapply Forall_impl; [done|]. intros m [? ? ? ?]. simpl.
  case_match; by constructor.
Qed.

Lemma send_step n nds gs ls ms full hist s rf dst args :
  votesInv n nds gs ls → logInv nds ls ms full hist → nds !! s = Some rf → Z.of_nat dst ≠ me rf →
  onRoundBegin rf (Z.of_nat dst) = Some (Some (SendEntries args)) →
  logInv nds ls (ms ++ [mkAppendCall s dst args Sent true]) full hist.
Proof.
  intros V I Hs Hdst H. eapply logInv_calls; [done|]. apply Forall_app; split; [apply I|].
  constructor; [|done].
  destruct (onRoundBegin_entries _ _ _ H) as (Hst & Hct & _ & _ & Hr & Hpt & He).
  destruct (full_lookup _ _ _ _ _ _ _ I Hs) as (F & HF & Hsh & Hco).
  destruct (li_leader _ _ _ _ _ I _ _ Hs Hst) as [HF' Hhd]. rewrite HF in HF'. injection HF' as HF'.
  rewrite <-HF' in Hhd. pose proof (termAt_range _ _ _ Hpt) as Hle. rewrite <-Hct in HF'.
  constructor; simpl; rewrite <-?HF'.
  - rewrite Hct. by eapply vi_listed.
  - rewrite (no_me _ _ _ (vi_nodes _ _ _ _ V _ _ Hs)) in Hdst. lia.
  - by rewrite (shows_term _ _ _ Hsh Hhd Hle).
  - intros j e Hj Hje. rewrite (sh_entries _ _ Hsh) by lia. rewrite He, go_index_drop in Hje by lia.
    rewrite <-Hje. unfold entryAt. f_equal. unfold realIndex. lia.
Qed.

(** The step of a peer that leaves its log alone. *)
Lemma kept_step nds ls ms full hist s rf rf' :
  logInv nds ls ms full hist ∧ heads nds full → nds !! s = Some rf → voteStep rf rf' →
  log rf' = log rf ∧ lastIncludedIndex rf' = lastIncludedIndex rf →
  logInv (<[s := rf']> nds) ls ms full hist ∧ heads (<[s := rf']> nds) full.
Proof.
  intros [I Hh] Hs Hv [Hlog Hlii]. destruct (full_lookup _ _ _ _ _ _ _ I Hs) as (F & HF & _).
  split; [by eapply logInv_same|]. eapply heads_kept; [apply I|done..|]. by apply headShown_same.
Qed.

Lemma quiet_step nds ls ms full hist s rf op rf' :
  logInv nds ls ms full hist ∧ heads nds full → nds !! s = Some rf → quiet op = true → nodeExec rf op = Some rf' →
  match op with OpStart _ | OpSnapshot _ _ | OpCondInstallSnapshot _ _ _ | OpAppendEntries _ => False | _ => True end →
  logInv (<[s := rf']> nds) ls ms full hist ∧ heads (<[s := rf']> nds) full.
Proof.
  intros I Hs Hq Hx Hop. eapply kept_step; [done..|by eapply quiet_voteStep|].
  pose proof (quiet_log _ _ _ Hx). by destruct op.
Qed.

Lemma start_heads n nds gs ls ms full hist s rf command :
  votesInv n nds gs ls → logInv nds ls ms full hist → heads nds full → nds !! s = Some rf →
  ∃ full' hist', logInv (<[s := (Start rf command).1.1]> nds) ls ms full' hist' ∧
    heads (<[s := (Start rf command).1.1]> nds) full'.
Proof.
  intros V I Hh Hs. destruct (decide (state rf = LEADER)) as [Hst|Hst].
  2:{ rewrite Start_other, list_insert_id by done. by exists full, hist. }
  pose proof (start_step _ _ _ _ _ _ _ _ _ command V I Hs Hst) as I'. cbv zeta in I'.
  pose proof (lookup_lt_Some _ _ _ Hs) as Hlt. do 2 eexists. split; [exact I'|].
  apply heads_insert; [apply I|done|]. destruct (Start_leader rf command Hst) as (_ & _ & _ & Hst' & _).
  destruct (li_leader _ _ _ _ _ I' s (Start rf command).1.1) as [HF Hhd]; [by rewrite list_lookup_insert_eq|done|].
  rewrite list_lookup_insert_eq in HF by (by rewrite (li_len _ _ _ _ _ I)). injection HF as HF. by rewrite HF.
Qed.

(** The steps of [RaftElection]. *)
Lemma world_step n w a w' ms full hist :
  worldInv n w → worldInv n w' → logInv (nodes w) (leaders w) ms full hist ∧ heads (nodes w) full →
  (∀ s rf, a = ACrash s → nodes w !! s = Some rf → termAt rf (lastIncludedIndex rf) = Some (lastIncludedTerm rf)) →
  (∀ s op, a = ANode s op → callOp op = false) →
  exec w a = Some w' → ∃ full' hist', logInv (nodes w') (leaders w') ms full' hist' ∧ heads (nodes w') full'.
Proof.
  intros [V T] [V' T'] I Hcrash Hop H. pose proof I as [IL IH].
  destruct a as [s op|s|k|k|k|k|s]; simpl in H.
  - destruct (quiet op) eqn:Hq; [|done]. apply bind_Some in H as (rf & Hs & H).
    apply bind_Some in H as (rf' & Hx & [= <-]). specialize (Hop s op eq_refl). simpl.
    destruct op; try discriminate Hq; try discriminate Hop; try (exists full, hist; by eapply quiet_step).
    + simpl in Hx. injection Hx as <-. by eapply start_heads.
    + exists full, hist. split; [by eapply snapshot_step|].
      destruct (full_lookup _ _ _ _ _ _ _ IL Hs) as (F & HF & Hsh & _).
      eapply heads_kept; [apply IL|done..|]. intros. eapply snapshot_shows; eauto.
  - apply bind_Some in H as (rf & Hs & H). apply bind_Some in H as ([rf' eff] & Hx & [= <-]). simpl.
    destruct (tickElect_cases _ _ _ Hx) as [Hv _]. exists full, hist. eapply kept_step; [done..|].
    apply (quiet_log rf OpTickElect rf'). simpl. by rewrite Hx.
  - apply bind_Some in H as (th & _ & H). apply bind_Some in H as (rf & _ & H).
    exists full, hist. case_if_in H; [|done]. case_if_in H; [by injection H as <-|].
    by apply bind_Some in H as (args & _ & [= <-]).
  - apply bind_Some in H as (vc & _ & H). destruct (vc_status vc); [|done..].
    apply bind_Some in H as (rf & Hs & H). apply bind_Some in H as ([[rf' reply] eff] & Hx & [= <-]). simpl.
    destruct (RequestVote_voteStep _ _ _ _ _ Hx) as [Hv _]. exists full, hist. eapply kept_step; [done..|].
    apply (quiet_log rf (OpRequestVote (vc_args vc)) rf'). simpl. by rewrite Hx.
  - apply bind_Some in H as (vc & _ & [= <-]). by exists full, hist.
  - apply bind_Some in H as (vc & _ & H). apply bind_Some in H as (th & _ & H).
    apply bind_Some in H as (rf & Hs & H). destruct (vc_status vc) as [|reply|]; [done| |done].
    case_if_in H; [|done]. apply bind_Some in H as ([[rf' cnt'] eff] & Hx & [= <-]). simpl in *.
    pose proof (electReply_log _ _ _ _ _ _ Hx) as Hlog.
    destruct (electReply_cases _ _ _ _ _ _ Hx)
      as [(Hv & _ & Hlead)|(Hcand & _ & _ & _ & Hct & Hvf & [->|[Hst _]])].
    + rewrite bool_decide_false by tauto. exists full, hist. by eapply kept_step.
    + rewrite bool_decide_false by (rewrite Hcand; naive_solver). rewrite list_insert_id by done. by exists full, hist.
    + rewrite bool_decide_true in * by (by rewrite Hcand).
      destruct (lead_step n (nodes w) (grants w) (leaders w) ms full hist (et_server th) rf rf')
        as (F & HF & _ & I'); try done; [apply Hlog..|by intros F HF _; apply (IH (et_server th))|].
      do 2 eexists. split; [exact I'|]. eapply heads_kept; [apply IL|done..|]. apply headShown_same; apply Hlog.
  - apply bind_Some in H as (rf & Hs & H). apply bind_Some in H as (rf' & Hx & [= <-]). simpl.
    exists full, hist. split; [by eapply crash_step|]. destruct (full_lookup _ _ _ _ _ _ _ IL Hs) as (F & HF & _).
    eapply heads_kept; [apply IL|done..|]. apply recovers_headShown; [|by apply (Hcrash s)].
    destruct (vi_nodes _ _ _ _ V _ _ Hs) as [_ Hd _ _ _].
    destruct (Make_recovers rf Hd) as (rf2 & Hx2 & Hrec). rewrite Hx in Hx2. by injection Hx2 as <-.
Qed.

Lemma clusterInv_step n c r c' :
  worldInv n (world c) → worldInv n (world c') → clusterInv c → soundStep c r → rexec c r = Some c' →
  clusterInv c'.
Proof.
  intros W W' (full & hist & I) Hsnd H%rexec_cases. pose proof W as [V _]. pose proof I as [IL IH].
  pose proof (li_msgs _ _ _ _ _ IL) as Hms.
  assert (∀ s rf op rf', nodes (world c) !! s = Some rf → quiet op = true → nodeExec rf op = Some rf' →
    match op with OpStart _ | OpSnapshot _ _ | OpCondInstallSnapshot _ _ _ | OpAppendEntries _ => False | _ => True end →
    ∀ ms', Forall (messageOk (leaders (world c)) hist) ms' →
    ∃ full hist, logInv (<[s := rf']> (nodes (world c))) (leaders (world c)) ms' full hist ∧ heads (<[s := rf']> (nodes (world c))) full) as Hquiet.
  { intros s rf op rf' Hs Hq Hx Hop ms' Hms'. exists full, hist.
    destruct (quiet_step _ _ _ _ _ _ _ _ _ I Hs Hq Hx Hop). split; [by eapply logInv_calls|done]. }
  destruct H as [a w' Hx Hop Hnc|s w' Hx|s dst rf args Hs Hd Hx|s dst rf args index Hs Hd Hx|k m rf rf' reply eff Hm Hst Hs Hx
    |k m rf rf' reply Hm Hst Hal Hs Hx|k m rf rf' Hm Hal Hs Hx|k m rf rf' reply eff Hm Hst Hs Hx
    |k m rf rf' reply Hm Hst Hal Hs Hx|k m rf rf' Hm Hal Hs Hx|k s msg rf rf' b Ho Hs Hx]; simpl in *.
  - eapply world_step; [exact W|exact W'|exact I| |exact Hop|exact Hx]. intros s rf ->. by destruct (Hnc s).
  - destruct (world_step n (world c) (ACrash s) w' (appends c) full hist W W' I) as (full' & hist' & I' & Hh'); try done.
    + intros s' rf [= <-]. apply Hsnd.
    + exists full', hist'. split; [|done]. eapply logInv_calls; [exact I'|]. apply killCalls_ok, I'.
  - exists full, hist. split; [by eapply send_step|done].
  - by exists full, hist.
  - destruct (append_step _ _ _ _ _ _ _ _ _ _ _ _ V IL (list_elem_of_lookup_2 _ _ _ Hm) Hs Hx) as (F & F' & HF & I' & Hhd & _).
    exists (<[ac_dst m := F']> full), hist. split.
    + eapply logInv_calls; [done|]. apply setAppend_ok; [apply I'|done].
    + apply heads_insert; [apply IL|done|]. by apply Hhd, (IH (ac_dst m)).
  - apply (Hquiet _ rf (OpEntriesReply (Z.of_nat (ac_dst m)) (ac_args m) (Some reply)) rf'); try done. by apply setAppend_ok.
  - apply (Hquiet _ rf (OpEntriesReply (Z.of_nat (ac_dst m)) (ac_args m) None) rf'); try done. by apply setAppend_ok.
  - apply (Hquiet _ rf (OpInstallSnapshot (sc_args m)) rf'); try done. simpl. by rewrite Hx.
  - by apply (Hquiet _ rf (OpSnapshotReply (Z.of_nat (sc_dst m)) (sc_index m) (Some reply)) rf').
  - by apply (Hquiet _ rf (OpSnapshotReply (Z.of_nat (sc_dst m)) (sc_index m) None) rf').
  - pose proof (wf_log _ (no_wf _ _ _ (vi_nodes _ _ _ _ V _ _ Hs))) as Hpos.
    destruct (install_step _ _ _ _ _ _ _ _ _ _ _ _ IL IH Hs Hpos Hx) as [full' I']; [|by exists full', hist].
    intros Hci. by apply (Hsnd s msg rf).
Qed.

(** A peer that has done nothing yet. *)
Definition idleRaft (npeers : nat) (i : Z) : Raft C :=
  mkRaft npeers MakePersister i false 0 (-1) [@zero_Log C] 0 0 0 0
    (replicate npeers 0) (replicate npeers 0) FOLLOWER (replicate npeers false) false.

Lemma Make_fresh_recovers npeers i rf : Make npeers i MakePersister = Some rf → recovers (idleRaft npeers i) rf.
Proof.
  intros H. destruct (Make_recovers (idleRaft npeers i)) as (rf' & H' & Hrec); [by left|].
  simpl in H'. rewrite H in H'. by injection H' as <-.
Qed.

Lemma Make_fresh_log npeers i rf :
  Make (C := C) npeers i MakePersister = Some rf →
  shows [zero_Log] rf ∧ headShown [zero_Log] rf ∧ currentTerm rf = 0 ∧ state rf = FOLLOWER.
Proof.
  intros Hrec%Make_fresh_recovers. split; [|split; [by apply (recovers_headShown _ (idleRaft npeers i))|split; apply Hrec]].
  apply (recovers_shows _ (idleRaft npeers i)); [|by constructor; simpl; rewrite ?length_replicate|done].
  constructor; simpl; try done. intros j Hj. unfold entryAt, realIndex; simpl. f_equal. lia.
Qed.

Lemma clusterInv_fresh n c :
  initCluster (C := C) n = Some c →
  ∃ hist, let full := replicate (length (nodes (world c))) [zero_Log] in
    logInv (nodes (world c)) (leaders (world c)) (appends c) full hist ∧ heads (nodes (world c)) full ∧
    ∀ t i e, (hist t).[i] = Some e → Term e ≤ t.
Proof.
  unfold initCluster, initWorld. intros H. apply bind_Some in H as (w & H & [= <-]).
  apply bind_Some in H as (rfs & Hm & [= <-]). apply mapM_Some in Hm.
  assert (∀ s rf, rfs !! s = Some rf →
    shows [zero_Log] rf ∧ headShown [zero_Log] rf ∧ currentTerm rf = 0 ∧ state rf = FOLLOWER) as Hall.
  { intros s rf Hs. destruct (Forall2_lookup_r _ _ _ _ _ Hm Hs) as (s' & _ & Hmk). by eapply Make_fresh_log. }
  set (hist := λ t, if t =? 0 then [@zero_Log C] else []).
  assert (coherent hist [zero_Log]) as Hco.
  { intros i e j e' Hi Hj He'. pose proof (go_index_Some_lt _ _ _ Hi) as Hr. change (len [zero_Log]) with 1 in Hr.
    assert (i = 0) as -> by lia. injection Hi as <-. exact He'. }
  exists hist. split_and!; [|by intros s rf F Hs [-> _]%lookup_replicate; apply (Hall s)|
    intros t i e; unfold hist; case_if; intros Hi; pose proof (go_index_Some_lt _ _ _ Hi) as Hr].
  2:{ change (len [zero_Log]) with 1 in Hr. assert (i = 0) as -> by lia. injection Hi as <-. simpl. lia. }
  2:{ by destruct Hr as [? ?%Z.nle_gt]. }
  constructor; simpl.
  - by rewrite length_replicate.
  - intros s rf F Hs HF. apply lookup_replicate in HF as [-> _]. split; [by apply (Hall s)|done].
  - intros s rf Hs. destruct (Hall s rf Hs) as (_ & _ & Ht & Hst). split; [lia|by rewrite Hst].
  - intros t. unfold hist at 2. case_if; [done|]. intros i e j e' Hi. by apply go_index_Some_lt in Hi as [? ?%Z.nle_gt].
  - intros t Ht Hne. unfold hist in Ht. by case_if.
  - by intros s t ?%not_elem_of_nil.
  - intros s rf Hs Hst. destruct (Hall s rf Hs) as (_ & _ & _ & Hf). by rewrite Hf in Hst.
  - constructor.
Qed.

Lemma clusterInv_init n c : initCluster (C := C) n = Some c → clusterInv c.
Proof. intros H. destruct (clusterInv_fresh _ _ H) as (hist & I & Hh & _). by do 2 eexists. Qed.

Lemma clusterInv_reachable n c : creachable soundStep n c → clusterInv c.
Proof.
  induction 1 as [c Hi|c r c' Hr IH Hs Hx]; [by eapply clusterInv_init|].
  eapply clusterInv_step; [| |done..]; apply worldInv_reachable, (creachable_world soundStep);
    eauto using soundStep_elects, creach_step.
Qed.

(** C4: log matching. In every state of a cluster that replicates its logs, with calls and
    replies lost, delayed and reordered, leaders changing, snapshots taken and installed and
    peers crashing, if the steps are [soundStep]s ([elect] is not overtaken by a change of term;
    a snapshot that is installed describes an entry that some peer has, with which the log of the
    installing peer agrees if it is that long, and which a leader has; a peer crashes only while
    the term of its snapshot is the one on its disk): two peers whose logs have the same term at
    an index have the same entries, commands included, at the indices up to it that no snapshot
    of theirs has cut off, and the same term at the snapshot of either. *)
Theorem log_matching n c s1 s2 rf1 rf2 i t :
  creachable soundStep n c →
  nodes (world c) !! s1 = Some rf1 → nodes (world c) !! s2 = Some rf2 →
  termAt rf1 i = Some t → termAt rf2 i = Some t →
  ∀ j, lastIncludedIndex rf1 ≤ j ≤ i → lastIncludedIndex rf2 ≤ j →
    termAt rf1 j = termAt rf2 j ∧
    (lastIncludedIndex rf1 < j → lastIncludedIndex rf2 < j → entryAt rf1 j = entryAt rf2 j).
Proof.
  intros Hr H1 H2 Ht1 Ht2 j Hj1 Hj2.
  destruct (clusterInv_reachable _ _ Hr) as (full & hist & I & Hh).
  destruct (full_lookup _ _ _ _ _ _ _ I H1) as (F1 & HF1 & Hsh1 & Hco1).
  destruct (full_lookup _ _ _ _ _ _ _ I H2) as (F2 & HF2 & Hsh2 & Hco2).
  pose proof (Hh _ _ _ H1 HF1) as Hh1. pose proof (Hh _ _ _ H2 HF2) as Hh2.
  destruct (shows_termAt _ _ _ _ Hsh1 Hh1 Ht1) as (e1 & He1 & Hte1).
  destruct (shows_termAt _ _ _ _ Hsh2 Hh2 Ht2) as (e2 & He2 & Hte2).
  pose proof (sh_lii _ _ Hsh1).
  assert (F1.[j] = F2.[j]) as Heq.
  { destruct (index_below _ _ j _ He1) as [x1 Hx1]; [lia|].
    destruct (index_below _ _ j _ He2) as [x2 Hx2]; [lia|].
    pose proof (Hco1 _ _ _ _ He1 (proj2 Hj1) Hx1) as Hi1. pose proof (Hco2 _ _ _ _ He2 (proj2 Hj1) Hx2) as Hi2.
    rewrite Hte1 in Hi1. rewrite Hte2 in Hi2. congruence. }
  split.
  - rewrite <-(shows_term F1 rf1 j), <-(shows_term F2 rf2 j) by (done || lia). by rewrite Heq.
  - intros Hl1 Hl2. by rewrite <-(sh_entries _ _ Hsh1 j Hl1), <-(sh_entries _ _ Hsh2 j Hl2).
Qed.
End matching.
