(* ===== verification/RaftCommit.v ===== *)
(** Committed entries in the cluster of [RaftCluster], for runs in which leaders commit by
    counting only entries of their own term: the invariant behind state machine safety, and
    that votes, elections, crashes and calls with entries keep it.

    [RaftMatching] follows the history of every term and the whole log of every peer.  Here
    [acks] are the positions that peers are known to have stored in a term, an entry of the
    term of a leader that a majority stored is [committed], and the votes of a majority carry
    committed entries into the log of every later leader ([leader_complete]).  [got] is how
    far a peer has ever known its log to be committed; a snapshot is a position that some
    peer had got to ([placed]), so a peer that installs it still has what is committed
    ([held]), even if the rest that [CondInstallSnapshot] leaves in its log is stale. *)
From S2P Require Import Prelude Labgob Persister Raft RaftLog RaftNode RaftProps RaftService RaftElection RaftCluster RaftMatching.
#[local] Open Scope Z_scope.

(** Two majorities of [n] peers meet. *)
Lemma majorities_meet (n : nat) (Q1 Q2 : list nat) :
  NoDup Q1 → NoDup Q2 → (∀ v, v ∈ Q1 → (v < n)%nat) → (∀ v, v ∈ Q2 → (v < n)%nat) →
  (n < 2 * length Q1)%nat → (n < 2 * length Q2)%nat → ∃ v, v ∈ Q1 ∧ v ∈ Q2.
Proof.
  intros N1 N2 B1 B2 M1 M2. destruct (decide (Forall (λ v, v ∉ Q2) Q1)) as [Hdis|Hex].
  - exfalso. assert (length (Q1 ++ Q2) ≤ n)%nat as Hlen.
    { rewrite <-(length_seq n 0). apply submseteq_length, NoDup_submseteq.
      - apply NoDup_app; split_and!; [done| |done]. intros x Hx. rewrite Forall_forall in Hdis. by apply Hdis.
      - intros x. rewrite elem_of_app, elem_of_seq. intros [Hx|Hx]; [apply B1 in Hx|apply B2 in Hx]; lia. }
    rewrite length_app in Hlen. lia.
  - apply not_Forall_Exists in Hex; [|apply _]. apply Exists_exists in Hex as (v & Hv1 & Hv2).
    apply dec_stable in Hv2. eauto.
Qed.

Section safety.
Context {C : Type} `{!Gob Z, !Gob (list (Log C))}.
Implicit Types (rf : Raft C) (F G : list (Log C)) (hist : Z → list (Log C)) (m : AppendCall C)
  (acks : nat → Z → Z → Prop) (got : nat → Z) (nds : list (Raft C)) (gs : list (nat * Z * nat)) (ls : list (nat * Z))
  (cs : list VoteCall) (ms : list (AppendCall C)) (full : list (list (Log C))).

Abbreviation termOf m := (aea_Term (ac_args m)).

(** ** What is stored, and what is committed *)

(** The log has an entry of term [t] at [i]. *)
Definition has F (t i : Z) : Prop := Term <$> F.[i] = Some t.

#[global] Instance has_dec F t i : Decision (has F t i).
Proof. unfold has. apply _. Defined.

(** A leader after term [t] and before [u] lacks the entry that term [t] has at [i]. *)
Definition lost hist (t u i : Z) : Prop := ∃ t', t < t' < u ∧ hist t' ≠ [] ∧ ¬ has (hist t') t i.

(** What the vote of [v] for a candidate of term [u] with log [F] carries over. *)
Definition carries hist acks (v : nat) (u : Z) F : Prop :=
  ∀ t k i, acks v t k → t < u → i ≤ k → has (hist t) t i → has F t i ∨ lost hist t u i.

Definition committed (n : nat) hist acks (t i : Z) : Prop :=
  has (hist t) t i ∧
  ∃ Q, NoDup Q ∧ (n < 2 * length Q)%nat ∧ ∀ v, v ∈ Q → (v < n)%nat ∧ ∃ k, i ≤ k ∧ acks v t k.

(** Index [k] is not after an entry that is committed in a term up to [u]. *)
Definition settled (n : nat) hist acks (u k : Z) : Prop := ∃ t i, committed n hist acks t i ∧ k ≤ i ∧ t ≤ u.

(** The same, and the entry at [k] is of term [e]: what a snapshot of [k] says. *)
Definition placed (n : nat) hist acks (u k e : Z) : Prop :=
  ∃ t i, committed n hist acks t i ∧ k ≤ i ∧ t ≤ u ∧ has (hist t) e k.

(** The log of a peer, with the position of its snapshot, up to [k] is committed. *)
Definition held (n : nat) hist acks rf (k : Z) : Prop :=
  ∃ t i, committed n hist acks t i ∧ k ≤ i ∧ t ≤ currentTerm rf ∧
    lastIncludedIndex rf ≤ k ≤ getLastLogIndex rf ∧
    termAt rf (lastIncludedIndex rf) = Term <$> (hist t).[lastIncludedIndex rf] ∧
    ∀ j, lastIncludedIndex rf < j ≤ k → entryAt rf j = (hist t).[j].

#[global] Instance headShown_dec F rf : Decision (headShown F rf).
Proof. unfold headShown. apply _. Defined.

Record callSafe (n : nat) hist acks m : Prop := {
  cs_commit : aea_LeaderCommit (ac_args m) ≤ 0 ∨ settled n hist acks (termOf m) (aea_LeaderCommit (ac_args m));
  cs_reach : lastOfCall m < len (hist (termOf m));
  cs_stored : ∀ reply, ac_status m = Answered reply → aer_Success reply = true →
    acks (ac_dst m) (termOf m) (lastOfCall m) ∨ settled n hist acks (termOf m) (lastOfCall m);
}.

Record peerSafe (n : nat) hist acks (g : Z) (s : nat) rf F : Prop := {
  ps_terms : ∀ i e, F.[i] = Some e → Term e ≤ currentTerm rf;
  ps_acks : ∀ t k, acks s t k → t ≤ currentTerm rf ∧
    ∀ i, i ≤ k → has (hist t) t i → has F t i ∨ lost hist t (currentTerm rf + 1) i;
  ps_match : state rf = LEADER → ∀ v k, matchIndex rf !! v = Some k →
    k ≤ 0 ∨ acks v (currentTerm rf) k ∨ settled n hist acks (currentTerm rf) k;
  ps_range : 0 ≤ commitIndex rf ≤ g ∧ lastIncludedIndex rf ≤ g;
  ps_known : g ≤ 0 ∧ headShown F rf ∨ held n hist acks rf g;
  ps_alone : aloneShown F rf;
}.

(** What a request for a vote, sent with the log [G], is worth to a candidate with log [F]. *)
Definition worth hist (u : Z) G F : Prop := ∀ t i, t < u → has G t i → has F t i ∨ lost hist t u i.

Record safeInv (n : nat) nds gs ls cs ms full hist acks got : Prop := {
  si_hist : ∀ t i e, (hist t).[i] = Some e → Term e ≤ t;
  si_peer : ∀ s rf F, nds !! s = Some rf → full !! s = Some F → peerSafe n hist acks (got s) s rf F;
  si_ack : ∀ v t k, acks v t k → (v < n)%nat ∧ k < len (hist t);
  si_grant : ∀ v u c rf F, (v, u, c) ∈ gs → nds !! c = Some rf → full !! c = Some F →
    u ≤ currentTerm rf ∧
    (currentTerm rf = u → state rf = CANDIDATE → hist u = [] → carries hist acks v u F);
  si_call : ∀ x vc rf F, cs !! x = Some vc → nds !! Z.to_nat (rva_CandidateId (vc_args vc)) = Some rf →
    full !! Z.to_nat (rva_CandidateId (vc_args vc)) = Some F →
    let u := rva_Term (vc_args vc) in
    u ≤ currentTerm rf ∧
    (currentTerm rf = u → state rf = CANDIDATE → hist u = [] → ∃ G, coherent hist G ∧
      has G (rva_LastLogTerm (vc_args vc)) (rva_LastLogIndex (vc_args vc)) ∧
      rva_LastLogTerm (vc_args vc) ≤ u ∧ worth hist u G F);
  si_led : ∀ c u, (c, u) ∈ ls → ∃ Q, NoDup Q ∧ (n < 2 * length Q)%nat ∧
    ∀ v, v ∈ Q → (v < n)%nat ∧ (∀ rf, nds !! v = Some rf → u ≤ currentTerm rf) ∧ carries hist acks v u (hist u);
  si_msgs : Forall (callSafe n hist acks) ms;
}.
Arguments si_hist {n nds gs ls cs ms full hist acks got}.
Arguments si_peer {n nds gs ls cs ms full hist acks got}.
Arguments si_ack {n nds gs ls cs ms full hist acks got}.
Arguments si_grant {n nds gs ls cs ms full hist acks got}.
Arguments si_call {n nds gs ls cs ms full hist acks got}.
Arguments si_led {n nds gs ls cs ms full hist acks got}.
Arguments si_msgs {n nds gs ls cs ms full hist acks got}.

(** ** Facts about histories *)
Lemma has_in hist F t i : coherent hist F → has F t i → ∃ e, F.[i] = Some e ∧ Term e = t ∧ (hist t).[i] = Some e.
Proof.
  intros Hco (e & He & ->)%fmap_Some. exists e. split_and!; [done..|]. by apply (Hco i e i e).
Qed.

Lemma has_agrees hist F t i j :
  coherent hist F → coherent hist (hist t) → has F t i → j ≤ i → F.[j] = (hist t).[j].
Proof.
  intros Hco Hh Hhas Hj. destruct (has_in _ _ _ _ Hco Hhas) as (e & He & _ & He').
  by eapply (coherent_agree hist F (hist t) i e e).
Qed.

(** Terms go up along a log. *)
Lemma terms_sorted hist F i j a b :
  coherent hist F → (∀ t i e, (hist t).[i] = Some e → Term e ≤ t) →
  F.[i] = Some a → F.[j] = Some b → i ≤ j → Term a ≤ Term b.
Proof. intros Hco Hh Ha Hb Hij. eapply Hh. by apply (Hco j b i a). Qed.

Lemma lost_mono hist t u u' i : lost hist t u i → u ≤ u' → lost hist t u' i.
Proof. intros (t' & ? & ? & ?) Hu. exists t'. split_and!; [lia..|done|done]. Qed.

(** ** Committed entries are in the log of every later leader *)
Lemma leader_complete n nds gs ls cs ms full hist acks got t i :
  safeInv n nds gs ls cs ms full hist acks got → logInv nds ls ms full hist →
  committed n hist acks t i → ∀ u, t < u → hist u ≠ [] → has (hist u) t i.
Proof.
  intros SI I (Ht & Q & HQ1 & HQ2 & HQ3).
  assert (0 ≤ t) as Ht0.
  { apply Z.le_ngt. intros Hneg. destruct (li_led _ _ _ _ _ I t) as [s Hs]; [|lia|].
    - intros E. unfold has in Ht. rewrite E in Ht. unfold go_index in Ht. by case_bool_decide.
    - pose proof (li_pos _ _ _ _ _ I _ _ Hs). lia. }
  assert (∀ d u, (Z.to_nat (u - t) < d)%nat → t < u → hist u ≠ [] → has (hist u) t i) as Hind;
    [|intros u; apply (Hind (S (Z.to_nat (u - t)))); lia].
  induction d as [|d IH]; intros u Hd Hu Hne; [lia|].
  destruct (li_led _ _ _ _ _ I u Hne) as [c Hc]; [lia|].
  destruct (si_led SI _ _ Hc) as (Q' & HQ1' & HQ2' & HQ3').
  destruct (majorities_meet n Q Q') as (v & Hv & Hv'); try done; [intros v Hv; apply (HQ3 v Hv)|intros v Hv; apply (HQ3' v Hv)|].
  destruct (HQ3 _ Hv) as (_ & k & Hk & Hack). destruct (HQ3' _ Hv') as (_ & _ & Hcar).
  destruct (Hcar t k i Hack Hu Hk Ht) as [?|(t' & Ht' & Hne' & Hno)]; [done|].
  destruct Hno. apply IH; [lia..|done].
Qed.

(** A later leader agrees with what is committed. *)
Lemma leader_agrees n nds gs ls cs ms full hist acks got t i u j :
  safeInv n nds gs ls cs ms full hist acks got → logInv nds ls ms full hist →
  committed n hist acks t i → t ≤ u → hist u ≠ [] → j ≤ i → (hist u).[j] = (hist t).[j].
Proof.
  intros SI I Hc Hu Hne Hj. destruct (decide (t = u)) as [->|]; [done|].
  apply (has_agrees hist (hist u) t i j); [apply I|apply I| |done]. eapply leader_complete; try done. lia.
Qed.

Lemma has_nonempty F t i : has F t i → F ≠ [].
Proof. intros (e & He & _)%fmap_Some ->. by apply go_index_Some_lt in He as [? ?%Z.nle_gt]. Qed.

(** What is committed in two terms agrees. *)
Lemma committed_agree n nds gs ls cs ms full hist acks got t1 i1 t2 i2 j :
  safeInv n nds gs ls cs ms full hist acks got → logInv nds ls ms full hist →
  committed n hist acks t1 i1 → committed n hist acks t2 i2 → j ≤ i1 → j ≤ i2 → (hist t1).[j] = (hist t2).[j].
Proof.
  intros SI I H1 H2 Hj1 Hj2. pose proof (has_nonempty _ _ _ (proj1 H1)). pose proof (has_nonempty _ _ _ (proj1 H2)).
  destruct (Z.le_ge_cases t1 t2); [symmetry|]; by eapply leader_agrees.
Qed.

(** ** The invariant under changes *)
Lemma worth_refl hist u F : worth hist u F F.
Proof. intros t i _ H. by left. Qed.

Lemma worth_trans hist u F G H : worth hist u F G → worth hist u G H → worth hist u F H.
Proof. intros H1 H2 t i Ht Hi. destruct (H1 t i Ht Hi) as [?|?]; [by apply H2|by right]. Qed.

Lemma carries_worth hist acks v u F G : carries hist acks v u F → worth hist u F G → carries hist acks v u G.
Proof. intros Hc Hw t k i Ha Ht Hi Hh. destruct (Hc t k i Ha Ht Hi Hh) as [?|?]; [by apply Hw|by right]. Qed.

(** One peer changes; its whole log changes to [F']. *)
Lemma safe_node n nds gs ls cs ms full hist acks got got' s rf F rf' F' :
  safeInv n nds gs ls cs ms full hist acks got → length full = length nds →
  nds !! s = Some rf → full !! s = Some F → currentTerm rf ≤ currentTerm rf' →
  (state rf' = CANDIDATE → currentTerm rf < currentTerm rf' ∨
     (currentTerm rf' = currentTerm rf ∧ state rf = CANDIDATE ∧
      (hist (currentTerm rf) = [] → worth hist (currentTerm rf) F F'))) →
  peerSafe n hist acks (got' s) s rf' F' → (∀ v, v ≠ s → got' v = got v) →
  safeInv n (<[s := rf']> nds) gs ls cs ms (<[s := F']> full) hist acks got'.
Proof.
  intros SI Hlen Hs HF Hterm Hcand Hpeer Hgot. pose proof (lookup_lt_Some _ _ _ Hs) as Hlt.
  assert (∀ s' r G, <[s:=rf']> nds !! s' = Some r → <[s:=F']> full !! s' = Some G →
    (s' = s ∧ r = rf' ∧ G = F') ∨ (s' ≠ s ∧ nds !! s' = Some r ∧ full !! s' = Some G)) as Hcase.
  { intros s' r G Hr HG. apply list_lookup_insert_Some in Hr as [(-> & <- & _)|[Hne Hr]].
    - rewrite list_lookup_insert_eq in HG by lia. injection HG as <-. by left.
    - rewrite list_lookup_insert_ne in HG by done. by right. }
  constructor; try apply SI.
  - intros s' r G Hr HG. destruct (Hcase _ _ _ Hr HG) as [(-> & -> & ->)|(Hne & Hr' & HG')]; [done|].
    rewrite Hgot by done. by eapply si_peer.
  - intros v u c r G Hg Hr HG. destruct (Hcase _ _ _ Hr HG) as [(-> & -> & ->)|(_ & Hr' & HG')]; [|by eapply si_grant].
    destruct (si_grant SI _ _ _ _ _ Hg Hs HF) as [Hle Hgr]. split; [lia|].
    intros Hu Hst Hnil. destruct (Hcand Hst) as [|(E & Hst' & Hw)]; [lia|].
    assert (currentTerm rf = u) as <- by lia. eapply carries_worth; auto.
  - intros x vc r G Hx Hr HG u. destruct (Hcase _ _ _ Hr HG) as [(E & -> & ->)|(_ & Hr' & HG')]; [|by eapply si_call].
    rewrite <-E in Hs, HF. destruct (si_call SI _ _ _ _ Hx Hs HF) as [Hle Hcall]. fold u in Hle, Hcall. split; [lia|].
    intros Hu Hst Hnil. destruct (Hcand Hst) as [|(E' & Hst' & Hw)]; [lia|].
    assert (currentTerm rf = u) as E2 by lia. rewrite E2 in Hw.
    destruct Hcall as (G' & ? & ? & ? & HG'); [lia|done..|]. exists G'. split_and!; [done..|].
    exact (worth_trans _ _ _ _ _ HG' (Hw Hnil)).
  - intros c u Hc. destruct (si_led SI _ _ Hc) as (Q & HQ1 & HQ2 & HQ3).
    exists Q. split_and!; [done..|]. intros v Hv. destruct (HQ3 _ Hv) as (Hn & Hle & Hcar). split_and!; [done| |done].
    intros r [(<- & <- & _)|[_ Hr]]%list_lookup_insert_Some; [|by apply Hle]. specialize (Hle _ Hs). lia.
Qed.

(** What a peer holds stays while its log from the position of the snapshot to [k] does. *)
Lemma held_change n hist acks rf rf' k :
  held n hist acks rf k → lastIncludedIndex rf' = lastIncludedIndex rf → currentTerm rf ≤ currentTerm rf' →
  k ≤ getLastLogIndex rf' → termAt rf' (lastIncludedIndex rf) = termAt rf (lastIncludedIndex rf) →
  (∀ j, lastIncludedIndex rf < j ≤ k → entryAt rf' j = entryAt rf j) → held n hist acks rf' k.
Proof.
  intros (t & i & Hc & Hk & Htu & Hr & Hh & He) Hlii Ht Hlast Hhd Hent. exists t, i. rewrite Hlii.
  split_and!; [done|done|lia|lia|done|by rewrite Hhd|]. intros j Hj. rewrite Hent by done. by apply He.
Qed.

(** The log is cut at [idx], up to [k]. *)
Lemma held_trim n hist acks rf rf' k idx h :
  held n hist acks rf k → lastIncludedIndex rf' = idx → currentTerm rf' = currentTerm rf →
  0 ≤ realIndex rf idx < len (log rf) → idx ≤ k →
  log rf' = h :: drop (Z.to_nat (realIndex rf idx + 1)) (log rf) →
  (∀ t i, committed n hist acks t i → k ≤ i →
     Term <$> (hist t).[lastIncludedIndex rf] = termAt rf (lastIncludedIndex rf) →
     (∀ j, lastIncludedIndex rf < j ≤ k → (hist t).[j] = entryAt rf j) → Term <$> (hist t).[idx] = Some (Term h)) →
  held n hist acks rf' k.
Proof.
  intros (t & i & Hc & Hk & Htu & Hr & Hh & He) Hlii Ht Hidx Hle Hlog Hhead. exists t, i.
  assert (getLastLogIndex rf' = getLastLogIndex rf) as Hlast.
  { unfold getLastLogIndex, logicIndex. rewrite Hlii, Hlog, len_cons, len_drop by lia. unfold realIndex. lia. }
  rewrite Hlii, Hlast, Ht. split_and!; [done|done|done|lia|lia| |].
  - rewrite (Hhead t i); [|done|done|done|intros; symmetry; by apply He].
    unfold termAt, realIndex. by rewrite Hlii, Hlog, Z.sub_diag.
  - intros j Hj. rewrite (trimmed_entryAt rf rf' idx j); rewrite ?Hlog; try done; [|lia].
    apply He. unfold realIndex in Hidx. lia.
Qed.

Lemma held_same n hist acks rf rf' k :
  log rf' = log rf → lastIncludedIndex rf' = lastIncludedIndex rf → currentTerm rf ≤ currentTerm rf' →
  held n hist acks rf k → held n hist acks rf' k.
Proof.
  intros Hlog Hlii Ht (t & i & Hc & Hk & Htu & Hr & Hh & He). exists t, i.
  unfold getLastLogIndex, logicIndex, termAt, entryAt, realIndex in *. rewrite Hlii, Hlog. split_and!; try done; lia.
Qed.

Lemma settled_mono n hist acks u u' k k' : settled n hist acks u k → u ≤ u' → k' ≤ k → settled n hist acks u' k'.
Proof. intros (t & i & Hc & Hk & Ht) ? ?. exists t, i. split_and!; [done|lia..]. Qed.

Lemma placed_settled n hist acks u k e : placed n hist acks u k e → settled n hist acks u k.
Proof. intros (t & i & Hc & Hk & Ht & _). by exists t, i. Qed.

Lemma held_settled n hist acks rf k : held n hist acks rf k → settled n hist acks (currentTerm rf) k.
Proof. intros (t & i & Hc & Hk & Ht & _). by exists t, i. Qed.

(** The facts about a peer after a step that leaves its log and what it knows of the others. *)
Lemma peer_kept n hist acks g s rf rf' F :
  peerSafe n hist acks g s rf F → currentTerm rf ≤ currentTerm rf' →
  log rf' = log rf → lastIncludedIndex rf' = lastIncludedIndex rf → 0 ≤ commitIndex rf' ≤ g →
  (state rf' = LEADER → ∀ v k, matchIndex rf' !! v = Some k →
    k ≤ 0 ∨ acks v (currentTerm rf') k ∨ settled n hist acks (currentTerm rf') k) →
  peerSafe n hist acks g s rf' F.
Proof.
  intros [Pt Pa Pm [Pc Pg] Pk Po] Ht Hlog Hlii Hci Hm. constructor.
  - intros i e He. specialize (Pt i e He). lia.
  - intros t k Hack. destruct (Pa t k Hack) as [Hle Hhas]. split; [lia|]. intros i Hi Hi'.
    destruct (Hhas i Hi Hi') as [?|?]; [by left|right]. eapply lost_mono; [done|lia].
  - done.
  - by rewrite Hlii.
  - destruct Pk as [[? ?]|?]; [left; split; [done|by eapply headShown_same]|right; by eapply held_same].
  - by eapply aloneShown_same.
Qed.

Lemma safe_kept n nds gs ls cs ms full hist acks got s rf rf' :
  safeInv n nds gs ls cs ms full hist acks got → logInv nds ls ms full hist → nds !! s = Some rf →
  voteStep rf rf' → log rf' = log rf → lastIncludedIndex rf' = lastIncludedIndex rf →
  (commitIndex rf' = commitIndex rf ∨ commitIndex rf' = 0) →
  (state rf' = LEADER → ∀ v k, matchIndex rf' !! v = Some k →
    matchIndex rf !! v = Some k ∨ k ≤ 0 ∨ acks v (currentTerm rf) k ∨ settled n hist acks (currentTerm rf) k) →
  safeInv n (<[s := rf']> nds) gs ls cs ms full hist acks got.
Proof.
  intros SI I Hs Hv Hlog Hlii Hci Hm. destruct (full_lookup _ _ _ _ _ _ _ I Hs) as (F & HF & _).
  rewrite <-(list_insert_id full s F HF). pose proof (si_peer SI _ _ _ Hs HF) as P.
  eapply safe_node; try done; [apply I|by apply Hv| |].
  - intros Hst. destruct (decide (currentTerm rf' = currentTerm rf)) as [E|].
    + right. split_and!; [done|by apply Hv|]. intros _. apply worth_refl.
    + left. pose proof (vs_term _ _ Hv). lia.
  - eapply peer_kept; try done; [apply Hv| |].
    + pose proof (ps_range _ _ _ _ _ _ _ P). lia.
    + intros Hst v k Hk. destruct (vs_lead _ _ Hv Hst) as [-> ?]. destruct (Hm Hst v k Hk) as [Hk'|?]; [|done].
      by apply (ps_match _ _ _ _ _ _ _ P).
Qed.

Lemma committed_more n hist acks acks' t i :
  (∀ v t k, acks v t k → acks' v t k) → committed n hist acks t i → committed n hist acks' t i.
Proof.
  intros Ha (Hi & Q & HQ1 & HQ2 & HQ3). split; [done|]. exists Q. split_and!; [done..|].
  intros v' Hv'. destruct (HQ3 _ Hv') as (? & k' & ? & ?). eauto.
Qed.

Lemma settled_more n hist acks acks' u k :
  (∀ v t k, acks v t k → acks' v t k) → settled n hist acks u k → settled n hist acks' u k.
Proof. intros Ha (t & i & Hc & ?). exists t, i. split; [by eapply committed_more|done]. Qed.

Lemma held_more n hist acks acks' rf k :
  (∀ v t k, acks v t k → acks' v t k) → held n hist acks rf k → held n hist acks' rf k.
Proof. intros Ha (t & i & Hc & ?). exists t, i. split; [by eapply committed_more|done]. Qed.

(** A peer is known to have stored what it has, in its current term. *)
Lemma safe_ack n nds gs ls cs ms full hist acks got v rf F k :
  safeInv n nds gs ls cs ms full hist acks got → nds !! v = Some rf → full !! v = Some F → (v < n)%nat →
  (∀ v' u c r, (v', u, c) ∈ gs → nds !! v' = Some r → u ≤ currentTerm r) →
  k < len (hist (currentTerm rf)) →
  (∀ i, i ≤ k → has (hist (currentTerm rf)) (currentTerm rf) i → has F (currentTerm rf) i) →
  safeInv n nds gs ls cs ms full hist (λ v' t' k', acks v' t' k' ∨ (v' = v ∧ t' = currentTerm rf ∧ k' = k)) got.
Proof.
  intros SI Hs HF Hn Hgr Hk Hhas. set (acks' := λ v' t' k', _).
  assert (∀ v t k, acks v t k → acks' v t k) as Hmore by (intros; by left).
  assert (∀ v' u G, carries hist acks v' u G → (v' = v → u ≤ currentTerm rf) → carries hist acks' v' u G) as Hcar.
  { intros v' u G Hc Hle t k' i [Hack|(-> & -> & ->)] Htu Hi Hi'; [by eapply Hc|]. specialize (Hle eq_refl). lia. }
  constructor; try apply SI.
  - intros s r G Hr HG. destruct (si_peer SI _ _ _ Hr HG) as [Pt Pa Pm Pr Pk Po].
    constructor; try done.
    + intros t k' [Hack|(-> & -> & ->)]; [by apply Pa|]. assert (r = rf) as -> by congruence.
      assert (G = F) as -> by congruence. split; [lia|]. intros i Hi Hi'. left. by apply Hhas.
    + intros Hst v' k' Hk'. destruct (Pm Hst v' k' Hk') as [?|[?|?]]; [by left|right; left; by left|right; right].
      by eapply settled_more.
    + destruct Pk as [?|?]; [by left|right; by eapply held_more].
  - intros v' t' k' [Hack|(-> & -> & ->)]; [by apply (si_ack SI)|done].
  - intros v' u c r G Hg Hr HG. destruct (si_grant SI _ _ _ _ _ Hg Hr HG) as [Hle Hc].
    split; [done|]. intros. apply Hcar; [by apply Hc|]. intros ->. by eapply Hgr.
  - intros c u Hc. destruct (si_led SI _ _ Hc) as (Q & HQ1 & HQ2 & HQ3).
    exists Q. split_and!; [done..|]. intros v' Hv'. destruct (HQ3 _ Hv') as (? & Hle & Hc').
    split_and!; [done..|]. apply Hcar; [done|]. intros ->. by apply Hle.
  - eapply Forall_impl; [apply SI|]. intros m [Hcm ? Hst]. constructor; [|done|].
    + destruct Hcm; [by left|right; by eapply settled_more].
    + intros r Hr Hsu. destruct (Hst r Hr Hsu); [left; by left|right; by eapply settled_more].
Qed.

(** The history of term [t0] becomes [G]: what it had stays, and what is new is of term [t0],
    or there was no leader of [t0] before. *)
Record extends hist (t0 : Z) G : Prop := {
  ex_keeps : ∀ j e, (hist t0).[j] = Some e → G.[j] = Some e;
  ex_new : hist t0 = [] ∨ ∀ j e, G.[j] = Some e → (hist t0).[j] = Some e ∨ Term e = t0;
  ex_terms : ∀ j e, G.[j] = Some e → Term e ≤ t0;
}.

Section extended.
Context (hist : Z → list (Log C)) (t0 : Z) (G : list (Log C)) (Hext : extends hist t0 G).
Abbreviation hist' := (writes hist t0 G).

Lemma writes_keeps t j e : (hist t).[j] = Some e → (hist' t).[j] = Some e.
Proof using Hext. apply writes_grows. apply Hext. Qed.

Lemma writes_below t j : j < len (hist t) → (hist' t).[j] = (hist t).[j].
Proof using Hext.
  intros Hj. destruct (decide (0 ≤ j)).
  - destruct (go_index_lt_Some (hist t) j) as [e He]; [lia|]. by rewrite He, (writes_keeps _ _ _ He).
  - rewrite !(proj2 (go_index_None _ _)); [done|lia..].
Qed.

Lemma writes_has t i : has (hist t) t i → has (hist' t) t i.
Proof using Hext. intros (e & He & ->)%fmap_Some. unfold has. by rewrite (writes_keeps _ _ _ He). Qed.

Lemma writes_has_back t k i : k < len (hist t) → i ≤ k → has (hist' t) t i → has (hist t) t i.
Proof using Hext. intros Hk Hi. unfold has. by rewrite writes_below by lia. Qed.

Lemma writes_nil t : hist' t = [] → hist t = [].
Proof using Hext.
  intros Hn. destruct (hist t) as [|x l] eqn:E; [done|].
  assert ((hist' t).[0] = Some x) as H by (apply writes_keeps; by rewrite E). by rewrite Hn in H.
Qed.

Lemma writes_lost t u i : lost hist t u i → lost hist' t u i.
Proof using Hext.
  intros (t' & Ht & Hne & Hno). exists t'. split_and!; [lia..| |].
  - intros E. by apply Hne, writes_nil.
  - unfold writes. case_if; [|done]. subst t'. intros (e & He & Hte)%fmap_Some.
    destruct (ex_new _ _ _ Hext) as [?|Hnew]; [done|]. destruct (Hnew _ _ He) as [He'|]; [|lia].
    apply Hno. unfold has. by rewrite He', Hte.
Qed.

Lemma writes_carries acks v u F :
  (∀ v t k, acks v t k → k < len (hist t)) → carries hist acks v u F → carries hist' acks v u F.
Proof using Hext.
  intros Hlen Hc t k i Hack Htu Hi Hhas. apply (writes_has_back _ k) in Hhas; [|by eapply Hlen|done].
  destruct (Hc t k i Hack Htu Hi Hhas); [by left|right; by apply writes_lost].
Qed.

Lemma writes_committed n acks t i : committed n hist acks t i → committed n hist' acks t i.
Proof using Hext. intros [Hi HQ]. split; [by apply writes_has|done]. Qed.

Lemma committed_below n acks t i j : committed n hist acks t i → j ≤ i → (hist' t).[j] = (hist t).[j].
Proof using Hext. intros [(e & He%go_index_Some_lt & _)%fmap_Some _] Hj. apply writes_below. lia. Qed.

Lemma writes_settled n acks u k : settled n hist acks u k → settled n hist' acks u k.
Proof using Hext. intros (t & i & Hc & ?). exists t, i. split; [by apply writes_committed|done]. Qed.

Lemma writes_held n acks rf k : held n hist acks rf k → held n hist' acks rf k.
Proof using Hext.
  intros (t & i & Hc & Hk & Ht & Hr & Hh & He). exists t, i.
  split_and!; [by apply writes_committed|done|done|lia|lia| |].
  - rewrite (committed_below n acks t i); [done..|lia].
  - intros j Hj. rewrite (committed_below n acks t i); [by apply He|done|lia].
Qed.

Lemma writes_worth u F1 F2 : worth hist u F1 F2 → worth hist' u F1 F2.
Proof using Hext. intros Hw t i Ht Hi. destruct (Hw t i Ht Hi); [by left|right; by apply writes_lost]. Qed.

Lemma writes_len t : len (hist t) ≤ len (hist' t).
Proof using Hext.
  destruct (decide (0 < len (hist t))); [|pose proof (len_nonneg (hist' t)); lia].
  destruct (go_index_lt_Some (hist t) (len (hist t) - 1)) as [e He]; [lia|].
  apply writes_keeps, go_index_Some_lt in He. lia.
Qed.

Lemma safe_hist n nds gs ls cs ms full acks got :
  safeInv n nds gs ls cs ms full hist acks got → safeInv n nds gs ls cs ms full hist' acks got.
Proof using Hext.
  intros SI.
  assert (∀ v t k, acks v t k → k < len (hist t)) as Hlen by (intros; by eapply (si_ack SI)).
  constructor.
  - intros t i e. unfold writes. case_if; [subst; apply Hext|apply SI].
  - intros s rf F Hs HF. destruct (si_peer SI _ _ _ Hs HF) as [Pt Pa Pm Pr Pk Po].
    constructor; try done.
    + intros t k Hack. destruct (Pa t k Hack) as [Hle Hhas]. split; [done|]. intros i Hi Hi'.
      apply (writes_has_back _ k) in Hi'; [|by eapply Hlen|done].
      destruct (Hhas i Hi Hi'); [by left|right; by apply writes_lost].
    + intros Hst v k Hk. destruct (Pm Hst v k Hk) as [?|[?|?]]; [by left|right; by left|right; right; by apply writes_settled].
    + destruct Pk; [by left|right; by apply writes_held].
  - intros v t k Hack. destruct (si_ack SI _ _ _ Hack) as [Hv Hk]. split; [done|].
    pose proof (writes_len t). lia.
  - intros v u c rf F Hg Hs HF. destruct (si_grant SI _ _ _ _ _ Hg Hs HF) as [Hle Hc].
    split; [done|]. intros Hu Hst Hn%writes_nil. apply writes_carries; auto.
  - intros x vc rf F Hx Hs HF u. destruct (si_call SI _ _ _ _ Hx Hs HF) as [Hle Hc]. split; [done|].
    intros Hu Hst Hn%writes_nil. destruct Hc as (G' & Hco & ? & ? & ?); [done..|]. exists G'.
    split_and!; [|done|done|by apply writes_worth]. apply coherent_writes; [by apply Hext|done].
  - intros c u Hc. destruct (si_led SI _ _ Hc) as (Q & HQ1 & HQ2 & HQ3).
    exists Q. split_and!; [done..|]. intros v Hv. destruct (HQ3 _ Hv) as (? & ? & Hcar). split_and!; [done..|].
    intros t k i Hack Htu Hi Hhas. destruct (writes_carries _ _ _ _ Hlen Hcar t k i Hack Htu Hi Hhas) as [Hu|?]; [left|by right].
    apply fmap_Some in Hu as (e & He & Hte). unfold has. by rewrite (writes_keeps _ _ _ He), Hte.
  - apply Forall_forall. intros m Hm. pose proof (si_msgs SI) as HS.
    rewrite Forall_forall in HS. destruct (HS m Hm) as [Hcom Hreach Hst].
    constructor.
    + destruct Hcom; [by left|right; by apply writes_settled].
    + pose proof (writes_len (termOf m)). lia.
    + intros r Hr Hsu. destruct (Hst r Hr Hsu); [by left|right; by apply writes_settled].
Qed.
End extended.

(** ** Votes *)

(** A vote is given to a log that is at least as recent. *)
Lemma RequestVote_fresh rf args rf' reply eff :
  RequestVote rf args = Some (rf', reply, eff) → rvr_VoteGranted reply = true →
  ∃ l, lastLog rf = Some l ∧
    (Term l < rva_LastLogTerm args ∨
     (Term l = rva_LastLogTerm args ∧ getLastLogIndex rf ≤ rva_LastLogIndex args)).
Proof.
  unfold RequestVote. intros H Hg. apply bind_Some in H as (rf1 & Hrf1 & H).
  assert (lastLog rf1 = lastLog rf ∧ getLastLogIndex rf1 = getLastLogIndex rf) as [Hl Hi].
  { case_if_in Hrf1; [by apply toFollower_Some in Hrf1 as ->|by injection Hrf1 as <-]. }
  case_if_in H; [by injection H as _ <- _|]. apply bind_Some in H as (fresh & Hf & H).
  destruct fresh; [by injection H as _ <- _|]. unfold isFreshThan in Hf.
  apply bind_Some in Hf as (l & Hll & Hf). exists l. split; [by rewrite <-Hl|]. rewrite <-Hi.
  injection Hf as Hf. case_if_in Hf; [|done]. lia.
Qed.

Lemma shows_last F rf l :
  shows F rf → aloneShown F rf → lastLog rf = Some l → has F (Term l) (getLastLogIndex rf) ∧ getLastLogIndex rf = len F - 1.
Proof.
  intros Hsh Ha Hl. unfold lastLog in Hl. pose proof (go_index_Some_lt _ _ _ Hl) as Hr.
  assert (getLastLogIndex rf = len F - 1) as Hi.
  { unfold getLastLogIndex, logicIndex. rewrite (sh_len _ _ Hsh). lia. }
  split; [|done]. assert (termAt rf (getLastLogIndex rf) = Some (Term l)) as Ht.
  { unfold termAt, getLastLogIndex, logicIndex, realIndex. replace (_ - _) with (len (log rf) - 1) by lia. by rewrite Hl. }
  unfold has. rewrite <-Ht. destruct (decide (getLastLogIndex rf = lastIncludedIndex rf)) as [E|Hne].
  - rewrite E. by apply Ha.
  - apply shows_above; [done|]. unfold getLastLogIndex, logicIndex in *. lia.
Qed.

Lemma vote_carries n nds gs ls cs ms full hist acks got v rf F G u l li lt :
  safeInv n nds gs ls cs ms full hist acks got → logInv nds ls ms full hist →
  nds !! v = Some rf → full !! v = Some F → currentTerm rf ≤ u → hist u = [] →
  lastLog rf = Some l → (Term l < lt ∨ (Term l = lt ∧ getLastLogIndex rf ≤ li)) →
  coherent hist G → has G lt li → lt ≤ u → carries hist acks v u G.
Proof.
  intros SI I Hv HF Hu Hnil Hl Hup HG Hlast Hltu t k i Hack Htu Hi Hhas.
  destruct (li_node _ _ _ _ _ I _ _ _ Hv HF) as [Hsh Hco].
  pose proof (si_peer SI _ _ _ Hv HF) as [_ Pa _ _ _ Po].
  destruct (Pa t k Hack) as [Htc Hst]. destruct (Hst i Hi Hhas) as [HFt|(t' & Ht' & Hne & Hno)].
  2:{ right. exists t'. split_and!; [lia| |done..]. destruct (decide (t' = u)) as [->|]; [done|lia]. }
  destruct (shows_last _ _ _ Hsh Po Hl) as [HFl Hli].
  pose proof (si_hist SI) as Hterms.
  destruct (has_in _ _ _ _ Hco HFt) as (e & He & Het & Hhe). destruct (has_in _ _ _ _ Hco HFl) as (el & Hel & Hetl & _).
  pose proof (go_index_Some_lt _ _ _ He) as Hr.
  pose proof (terms_sorted hist F _ _ _ _ Hco Hterms He Hel ltac:(lia)) as Hsort.
  destruct (has_in _ _ _ _ HG Hlast) as (eg & Heg & Hetg & Hheg).
  assert (hist lt ≠ []) as Hnelt by (intros E; rewrite E in Hheg; by apply go_index_Some_lt in Hheg as [? ?%Z.nle_gt]).
  assert (lt < u) as Hlt by (destruct (decide (lt = u)) as [->|]; [done|lia]).
  destruct (decide (lt = t)) as [->|Hne].
  - left. unfold has. rewrite (has_agrees hist G t li i HG (li_hist _ _ _ _ _ I t) Hlast) by lia. rewrite Hhe. simpl. by rewrite Het.
  - assert (t < lt) by lia. destruct (decide (has (hist lt) t i)) as [Hin|Hout].
    + left. unfold has. rewrite (has_agrees hist G lt li i HG (li_hist _ _ _ _ _ I lt) Hlast); [done|].
      destruct (decide (i ≤ li)) as [|Hgt]; [done|]. apply fmap_Some in Hin as (ei & Hei & Hti).
      pose proof (terms_sorted hist (hist lt) _ _ _ _ (li_hist _ _ _ _ _ I lt) Hterms Hheg Hei ltac:(lia)). lia.
    + right. exists lt. split_and!; [lia..|done|done].
Qed.

(** A vote is given to [c] in term [u]. *)
Lemma safe_grant n nds gs ls cs ms full hist acks got v u c :
  safeInv n nds gs ls cs ms full hist acks got →
  (∀ rf F, nds !! c = Some rf → full !! c = Some F → u ≤ currentTerm rf ∧
     (currentTerm rf = u → state rf = CANDIDATE → hist u = [] → carries hist acks v u F)) →
  safeInv n nds ((v, u, c) :: gs) ls cs ms full hist acks got.
Proof.
  intros SI Hnew. constructor; try apply SI. intros v' u' c' rf F [[= -> -> ->]|Hg]%elem_of_cons Hs HF; [by apply Hnew|].
  by eapply si_grant.
Qed.

Definition callOkay hist nds full (vc : VoteCall) : Prop :=
  ∀ rf F, nds !! Z.to_nat (rva_CandidateId (vc_args vc)) = Some rf →
    full !! Z.to_nat (rva_CandidateId (vc_args vc)) = Some F →
    let u := rva_Term (vc_args vc) in
    u ≤ currentTerm rf ∧
    (currentTerm rf = u → state rf = CANDIDATE → hist u = [] → ∃ G, coherent hist G ∧
      has G (rva_LastLogTerm (vc_args vc)) (rva_LastLogIndex (vc_args vc)) ∧
      rva_LastLogTerm (vc_args vc) ≤ u ∧ worth hist u G F).

Lemma safe_calls n nds gs ls cs cs' ms full hist acks got :
  safeInv n nds gs ls cs ms full hist acks got → Forall (callOkay hist nds full) cs' →
  safeInv n nds gs ls cs' ms full hist acks got.
Proof.
  intros SI Hcs. constructor; try apply SI. intros x vc rf F Hx.
  rewrite Forall_lookup in Hcs. by apply (Hcs x vc Hx).
Qed.

Lemma callsOkay n nds gs ls cs ms full hist acks got :
  safeInv n nds gs ls cs ms full hist acks got → Forall (callOkay hist nds full) cs.
Proof. intros SI. apply Forall_lookup. intros x vc Hx rf F. by apply (si_call SI x). Qed.

Lemma safe_status n nds gs ls cs ms full hist acks got x vc st :
  safeInv n nds gs ls cs ms full hist acks got → cs !! x = Some vc →
  safeInv n nds gs ls (<[x := setStatus st vc]> cs) ms full hist acks got.
Proof.
  intros SI Hx. eapply safe_calls; [done|]. pose proof (callsOkay _ _ _ _ _ _ _ _ _ _ SI) as Hcs.
  apply Forall_insert; [done|]. rewrite Forall_lookup in Hcs. by apply (Hcs x vc).
Qed.

Lemma safe_msgs n nds gs ls cs ms ms' full hist acks got :
  safeInv n nds gs ls cs ms full hist acks got → Forall (callSafe n hist acks) ms' →
  safeInv n nds gs ls cs ms' full hist acks got.
Proof. intros SI Hms. by constructor; try apply SI. Qed.

Lemma safe_led n nds gs ls cs ms full hist acks got c u Q :
  safeInv n nds gs ls cs ms full hist acks got → NoDup Q → (n < 2 * length Q)%nat →
  (∀ v, v ∈ Q → (v < n)%nat ∧ (∀ rf, nds !! v = Some rf → u ≤ currentTerm rf) ∧ carries hist acks v u (hist u)) →
  safeInv n nds gs ((c, u) :: ls) cs ms full hist acks got.
Proof.
  intros SI H1 H2 H3. constructor; try apply SI. intros c' u' [[= -> ->]|Hc]%elem_of_cons; [eauto|by eapply si_led].
Qed.

(** ** What operations do to the commit index and to what a leader knows *)
(** The operations other than elections, calls between peers and installed snapshots. *)
Definition localOp (op : NodeOp (C := C)) : bool :=
  match op with
  | OpTickElect | OpUpdateApplied | OpStart _ | OpSnapshot _ _ | OpReceiveAe _ | OpKill
  | OpRequestVote _ | OpEntriesReply _ _ None | OpInstallSnapshot _ | OpSnapshotReply _ _ None => true
  | _ => false
  end.

Lemma localOp_keeps rf op rf' :
  localOp op = true → nodeExec rf op = Some rf' →
  commitIndex rf' = commitIndex rf ∧ matchIndex rf' = matchIndex rf.
Proof.
  intros Hop H. destruct op as [|args|args|? ?|? ? [?|]|? ? [?|]| | |command|index snap|? ? ?|?|]; try discriminate Hop.
  8:{ simpl in H. destruct (decide (lastIncludedIndex rf < index)) as [Hi|Hi].
      - destruct (Snapshot_Some _ _ _ _ H Hi) as (l0 & _ & Hlog & _ & Hlit & _ & Hci & _). split; [done|].
        unfold Snapshot in H. node_inv; simpl; try done; repeat (case_if; simpl); done.
      - unfold Snapshot in H. rewrite (proj2 (Z.leb_le _ _)) in H by lia. by injection H as <-. }
  7:{ simpl in H. injection H as <-. unfold Start. case_if; done. }
  all: node_unfold; node_inv; simpl in *; repeat (case_if; simpl in *); done.
Qed.

Lemma electReply_keeps rf cnt reply rf' cnt' eff :
  wf rf → electReply rf cnt reply = Some (rf', cnt', eff) →
  commitIndex rf' = commitIndex rf ∧ (state rf = LEADER → matchIndex rf' = matchIndex rf) ∧
  (state rf ≠ LEADER → state rf' = LEADER → ∀ v k, matchIndex rf' !! v = Some k → k = 0).
Proof.
  intros Hwf H. unfold electReply in H. case_if_in H.
  - apply bind_Some in H as (rf1 & Hf & [= <- _ _]). apply toFollower_Some in Hf as ->. by split_and!.
  - case_if_in H; [injection H as <- _ _; by split_and!|]. case_if_in H; [|injection H as <- _ _; by split_and!].
    rewrite toLeader_total in H by done. injection H as <- _ _. simpl. split_and!; [done| |].
    + intros E. rewrite E in Hif0. intuition congruence.
    + intros _ _ v k ?%lookup_replicate. tauto.
Qed.

Lemma AppendEntries_keeps rf args rf' reply eff :
  wf rf → AppendEntries rf args = Some (rf', reply, eff) →
  matchIndex rf' = matchIndex rf ∧
  if aer_Success reply
  then currentTerm rf' = aea_Term args ∧ state rf' ≠ CANDIDATE ∧ lastIncludedIndex rf' = lastIncludedIndex rf ∧
       (log rf').[0] = (log rf).[0] ∧ 0 < len (log rf') ∧
       (commitIndex rf' = commitIndex rf ∨
        (commitIndex rf < aea_LeaderCommit args ∧
         commitIndex rf' = min_int (aea_LeaderCommit args) (aea_PrevLogIndex args + len (aea_Entries args))))
  else commitIndex rf' = commitIndex rf.
Proof.
  intros Hwf H.
  assert (matchIndex rf' = matchIndex rf ∧ (aer_Success reply = false → commitIndex rf' = commitIndex rf)) as (Hm & Hrej).
  { unfold AppendEntries in H. apply bind_Some in H as (? & _ & H). apply bind_Some in H as (rf1 & Hrf1 & H).
    assert (matchIndex rf1 = matchIndex rf ∧ commitIndex rf1 = commitIndex rf) as (Hm1 & Hc1).
    { case_if_in Hrf1; [by apply toFollower_Some in Hrf1 as ->|by injection Hrf1 as <-]. }
    case_if_in H; [by injection H as <- <- _|]. case_if_in H; [by injection H as <- <- _|].
    apply bind_Some in H as (lp & _ & H). case_if_in H.
    - by apply bind_Some in H as (i & _ & [= <- <- _]).
    - apply bind_Some in H as ([lg ch] & _ & [= <- <- _]). split; [|done]. destruct ch; case_if; simpl; done. }
  destruct (aer_Success reply) eqn:Hs; [|by auto]. split; [done|].
  destruct (AppendEntries_success_inv _ _ _ _ _ Hwf H Hs)
    as (rf1 & lg & ch & lp & (_ & Hlog & Hlii & Hci & Hct & Hst) & Hp & _ & _ & Hmerge & Hrf' & _).
  destruct (mergeEntries_result _ _ _ _ _ Hp Hmerge) as (Hr & _ & Hpre & _ & Hf & _).
  assert (log rf' = lg) as Hlog'.
  { rewrite Hrf'. destruct ch; case_if; simpl; rewrite ?Hlog; auto; symmetry; auto. }
  assert (lastIncludedIndex rf' = lastIncludedIndex rf) as Hlii'.
  { rewrite Hrf'. destruct ch; case_if; simpl; done. }
  rewrite Hlog', Hlii', Hpre by lia. rewrite Hrf'.
  destruct ch; case_if; simpl; split_and!; try done; try lia; try (by left); right; split; try done; lia.
Qed.

(** ** The steps *)
Definition grown hist acks got hist' acks' got' : Prop :=
  (∀ t j e, (hist t).[j] = Some e → (hist' t).[j] = Some e) ∧ (∀ v t k, acks v t k → acks' v t k) ∧
  ∀ s, got s ≤ got' s.

Lemma grown_refl hist acks got : grown hist acks got hist acks got.
Proof. by split_and!. Qed.

Lemma grown_later hist acks got hist1 acks1 got1 hist2 acks2 got2 :
  grown hist acks got hist1 acks1 got1 → grown hist1 acks1 got1 hist2 acks2 got2 → grown hist acks got hist2 acks2 got2.
Proof. intros (? & ? & H1) (? & ? & H2). split_and!; eauto. intros s. specialize (H1 s). specialize (H2 s). lia. Qed.

(** [logInv] and [safeInv] of the peers [nds], in the world [w] otherwise. *)
Definition safeNodes (n : nat) (w : World C) nds ms hist acks got : Prop :=
  ∃ full, logInv nds (leaders w) ms full hist ∧
    safeInv n nds (grants w) (leaders w) (calls w) ms full hist acks got.

Definition safeWorld (n : nat) (w : World C) ms hist acks got : Prop := safeNodes n w (nodes w) ms hist acks got.

(** A leader's log grows by a command. *)
Lemma command_started n w ms hist acks got s rf command :
  worldInv n w → safeWorld n w ms hist acks got → nodes w !! s = Some rf → state rf = LEADER →
  ∃ hist', grown hist acks got hist' acks got ∧
    safeNodes n w (<[s := (Start rf command).1.1]> (nodes w)) ms hist' acks got.
Proof.
  intros [V T] (full & I & SI) Hs Hst.
  pose proof (no_wf _ _ _ (vi_nodes _ _ _ _ V _ _ Hs)) as Hwf. pose proof (wf_log _ Hwf) as Hpos.
  destruct (full_lookup _ _ _ _ _ _ _ I Hs) as (F & HF & Hsh & Hco).
  pose proof (start_step _ _ _ _ _ _ _ _ _ command V I Hs Hst) as I'. cbv zeta in I'.
  destruct (li_leader _ _ _ _ _ I _ _ Hs Hst) as [HF' _]. rewrite HF in HF'. injection HF' as HFh.
  destruct (Start_leader rf command Hst) as (Hlog & Hlii & Hct & Hst' & Hci & Hm).
  set (rf' := (Start rf command).1.1) in *.
  set (t := currentTerm rf) in *. set (e := mkLog (Some command) t) in *. set (F' := hist t ++ [e]) in *.
  assert (∀ j x, F'.[j] = Some x → (hist t).[j] = Some x ∨ x = e) as HF'.
  { intros j x Hj. unfold F' in Hj. destruct (decide (j < len (hist t))) as [Hlt|Hge].
    - rewrite go_index_app_l in Hj by lia. by left.
    - rewrite go_index_app_r in Hj by lia. pose proof (go_index_Some_lt _ _ _ Hj) as Hr. change (len [e]) with 1 in Hr.
      replace (j - len (hist t)) with 0 in Hj by lia. injection Hj as <-. by right. }
  assert (extends hist t F') as Hext.
  { constructor.
    - intros j x Hj. unfold F'. rewrite go_index_app_l; [done|]. apply go_index_Some_lt in Hj. lia.
    - right. intros j x Hj. destruct (HF' _ _ Hj) as [?| ->]; [by left|by right].
    - intros j x Hj. destruct (HF' _ _ Hj) as [Hx| ->]; [by eapply si_hist|simpl; lia]. }
  exists (writes hist t F'). split; [split_and!; [by intros ? ? ?; apply writes_keeps|done|done]|].
  exists (<[s := F']> full). split; [done|].
  pose proof (safe_hist hist t F' Hext _ _ _ _ _ _ _ _ _ SI) as SI'.
  eapply safe_node; try done; [apply I|lia|by rewrite Hst'|].
  pose proof (si_peer SI' _ _ _ Hs HF) as [Pt Pa Pm Pr Pk Po].
  constructor; rewrite ?Hci, ?Hct, ?Hm, ?Hlii; try done.
  - intros i x Hx. by eapply (ex_terms _ _ _ Hext).
  - intros t2 k Hack. destruct (Pa t2 k Hack) as [Hle Hhas]. split; [done|]. intros i Hi Hi'.
    destruct (Hhas i Hi Hi') as [(x & Hx & Hxt)%fmap_Some|?]; [left|by right].
    unfold has. rewrite HFh in Hx. by rewrite (ex_keeps _ _ _ Hext _ _ Hx), Hxt.
  - intros _. by apply Pm.
  - assert (∀ j, realIndex rf j < len (log rf) → (log rf').[realIndex rf j] = (log rf).[realIndex rf j]) as Hold
      by (intros j Hj; rewrite Hlog; by apply go_index_app_l).
    assert (∀ j, realIndex rf' j = realIndex rf j) as Hri by (intros j; unfold realIndex; lia).
    destruct Pk as [[Hg Hh]|Hk]; [left; split; [done|]|right].
    + unfold headShown, termAt in *. rewrite Hlii, Hri, Hold by (unfold realIndex; lia). rewrite <-Hh, HFh. unfold F'.
      rewrite go_index_app_l; [done|]. rewrite <-HFh, (sh_len _ _ Hsh). lia.
    + pose proof Hk as (_ & _ & _ & _ & _ & Hr & _). unfold getLastLogIndex, logicIndex in Hr.
      eapply held_change; [done|done|lia|..].
      * unfold getLastLogIndex, logicIndex. rewrite Hlii, Hlog, len_snoc. lia.
      * unfold termAt. rewrite Hri. by rewrite Hold by (unfold realIndex; lia).
      * intros j Hj. unfold entryAt. rewrite Hri. apply Hold. unfold realIndex. lia.
  - intros E. unfold getLastLogIndex, logicIndex in E. rewrite Hlii, Hlog, len_snoc in E. lia.
Qed.
(** A service takes a snapshot of what it was given. *)
Lemma snapshot_taken n w ms hist acks got s rf index snap rf' :
  safeWorld n w ms hist acks got → nodes w !! s = Some rf → Snapshot rf index snap = Some rf' →
  (lastIncludedIndex rf < index → index ≤ got s) →
  safeNodes n w (<[s := rf']> (nodes w)) ms hist acks got.
Proof.
  intros (full & I & SI) Hs H Hgot. exists full. split; [by eapply snapshot_step|].
  destruct (full_lookup _ _ _ _ _ _ _ I Hs) as (F & HF & Hsh & _).
  pose proof (si_peer SI _ _ _ Hs HF) as [Pt Pa Pm [Pc Pg] Pk Po].
  assert (voteStep rf rf') as Hv by (by eapply (quiet_voteStep rf (OpSnapshot index snap))).
  destruct (localOp_keeps rf (OpSnapshot index snap) rf' eq_refl H) as [Hci Hm].
  destruct (decide (lastIncludedIndex rf < index)) as [Hi|Hi].
  2:{ unfold Snapshot in H. rewrite (proj2 (Z.leb_le _ _)) in H by lia. injection H as <-. by rewrite list_insert_id. }
  specialize (Hgot Hi). destruct (snapshot_shows _ _ _ _ _ Hsh H) as [_ Hh].
  destruct (Snapshot_Some _ _ _ _ H Hi) as (l0 & Hl0 & Hlog & Hlii & _ & _ & _ & Hct & _).
  pose proof (sh_lii _ _ Hsh). rewrite <-(list_insert_id full s F HF). eapply safe_node; try done; [apply I|lia| |].
  - intros Hst. right. split_and!; [done|by apply Hv|]. intros _. apply worth_refl.
  - constructor; rewrite ?Hct, ?Hci, ?Hlii, ?Hm; try done.
    + intros Hst. apply Pm. by apply (vs_lead _ _ Hv).
    + destruct Pk as [[? _]|Hk]; [lia|right].
      eapply held_trim; try done; [by apply go_index_Some_lt in Hl0|]. simpl. intros t i Hc Hle _ He.
      by rewrite He, Hl0 by lia.
    + intros _. apply Hh. by left.
Qed.

Lemma local_step n w ms hist acks got s rf op rf' :
  worldInv n w → safeWorld n w ms hist acks got → nodes w !! s = Some rf → quiet op = true ∨ op = OpTickElect →
  localOp op = true → nodeExec rf op = Some rf' →
  (∀ index snap, op = OpSnapshot index snap → lastIncludedIndex rf < index → index ≤ got s) →
  ∃ hist', grown hist acks got hist' acks got ∧ safeNodes n w (<[s := rf']> (nodes w)) ms hist' acks got.
Proof.
  intros W SW Hs Hq Hop H Hsnap. destruct (localOp_keeps _ _ _ Hop H) as (Hci & Hm).
  assert (voteStep rf rf') as Hv.
  { destruct Hq as [Hq| ->]; [by eapply quiet_voteStep|]. simpl in H. apply bind_Some in H as ([rf1 eff] & Hx & [= <-]).
    by destruct (tickElect_cases _ _ _ Hx). }
  pose proof (quiet_log _ _ _ H) as Hlog.
  assert (log rf' = log rf ∧ lastIncludedIndex rf' = lastIncludedIndex rf →
    ∃ hist', grown hist acks got hist' acks got ∧ safeNodes n w (<[s := rf']> (nodes w)) ms hist' acks got) as Hkept.
  { intros [Hl Hi]. exists hist. split; [apply grown_refl|]. destruct SW as (full & I & SI). exists full.
    split; [by eapply logInv_same|]. eapply safe_kept; try done; [by left|]. intros _ v k Hk. left. by rewrite <-Hm. }
  destruct op as [|?|?|? ?|? ? [?|]|? ? [?|]| | |command|index snap|? ? ?|?|]; try discriminate Hop; try by apply Hkept.
  - simpl in H. injection H as <-. destruct (decide (state rf = LEADER)) as [Hst|Hst]; [by apply command_started|].
    apply Hkept. by rewrite Start_other.
  - exists hist. split; [apply grown_refl|]. eapply snapshot_taken; eauto.
Qed.

(** A candidate's request for a vote. *)
Lemma vote_sent n w w' k ms hist acks got :
  worldInv n w → sendsInTerm w (AElectSend k) → exec w (AElectSend k) = Some w' →
  safeWorld n w ms hist acks got → safeWorld n w' ms hist acks got.
Proof.
  intros [V T] Hterm H (full & I & SI). simpl in H. apply bind_Some in H as (th & Hk & H).
  apply bind_Some in H as (rf & Hs & H). case_if_in H; [|done]. exists full.
  case_if_in H; [by injection H as <-|]. apply bind_Some in H as (args & Ha & [= <-]). simpl.
  split; [done|]. eapply safe_calls; [done|]. apply Forall_app. split; [by eapply callsOkay|].
  constructor; [|done]. unfold electArgs in Ha. apply bind_Some in Ha as (l & Hl & [= <-]).
  pose proof (vi_nodes _ _ _ _ V _ _ Hs) as Hok.
  intros rf2 F Hs2 HF. simpl in *. rewrite (no_me _ _ _ Hok), Nat2Z.id in *.
  assert (rf2 = rf) as -> by congruence. split; [lia|]. intros _ _ _.
  destruct (li_node _ _ _ _ _ I _ _ _ Hs HF) as [Hsh Hco]. pose proof (si_peer SI _ _ _ Hs HF) as P.
  destruct (shows_last _ _ _ Hsh (ps_alone _ _ _ _ _ _ _ P) Hl) as [Hhas _].
  exists F. split_and!; [done|done| |apply worth_refl]. apply fmap_Some in Hhas as (e & He & ->).
  by eapply (ps_terms _ _ _ _ _ _ _ P).
Qed.

(** A peer answers a request for its vote. *)
Lemma vote_delivered n w w' k ms hist acks got :
  worldInv n w → exec w (ADeliver k) = Some w' →
  safeWorld n w ms hist acks got → safeWorld n w' ms hist acks got.
Proof.
  intros [V T] H (full & I & SI). simpl in H. apply bind_Some in H as (vc & Hc & H).
  destruct (vc_status vc) eqn:Hst; [|done..]. apply bind_Some in H as (rf & Hs & H).
  apply bind_Some in H as ([[rf' reply] eff] & Hx & [= <-]). exists full. simpl.
  destruct (ti_calls _ _ _ _ T _ _ Hc) as (th & Hth & Hcall).
  destruct (RequestVote_voteStep _ _ _ _ _ Hx) as [Hv Hgr].
  assert (nodeExec rf (OpRequestVote (vc_args vc)) = Some rf') as Hx' by (simpl; by rewrite Hx).
  destruct (full_lookup _ _ _ _ _ _ _ I Hs) as (F & HF & Hsh & Hco).
  destruct (localOp_keeps rf (OpRequestVote (vc_args vc)) rf' eq_refl Hx') as (Hci & Hm).
  destruct (quiet_log _ _ _ Hx') as [Hlog Hlii].
  split; [by eapply logInv_same|].
  eapply safe_status; [|done].
  pose proof (co_cand _ _ _ _ Hcall) as Hcand. pose proof (co_term _ _ _ _ Hcall) as Hterm.
  assert (safeInv n (<[vc_dst vc := rf']> (nodes w)) (grants w) (leaders w) (calls w) ms full hist acks got) as SI'.
  { eapply safe_kept; try done; [by left|]. intros _ v k0 Hk0. left. by rewrite <-Hm. }
  destruct (rvr_VoteGranted reply) eqn:Hg; [|done].
  destruct (Hgr eq_refl) as (Ht & _ & _). apply safe_grant; [done|].
  rewrite Hcand, Nat2Z.id. intros rfc Fc Hsc HFc.
  assert (vc_dst vc ≠ et_server th) as Hne by apply Hcall.
  rewrite list_lookup_insert_ne in Hsc by done.
  destruct (si_call SI _ _ rfc Fc Hc) as [Hle Hcallok]; [by rewrite Hcand, Nat2Z.id..|].
  split; [done|]. intros Hu Hstc Hnil. destruct (Hcallok Hu Hstc Hnil) as (G & HcoG & HhasG & Hlt & Hworth).
  destruct (RequestVote_fresh _ _ _ _ _ Hx Hg) as (l & Hl & Hup).
  pose proof (vs_term _ _ Hv) as Hmono. eapply carries_worth; [|exact Hworth].
  apply (vote_carries n (nodes w) (grants w) (leaders w) (calls w) ms full hist acks got _ rf F G _ l
    (rva_LastLogIndex (vc_args vc)) (rva_LastLogTerm (vc_args vc))); try done. lia.
Qed.

(** A candidate that the votes of a majority carry has all that it knows to be committed: no
    stale rest. *)
Lemma winner_shows n nds gs ls cs ms full hist acks got g s rf F Q :
  safeInv n nds gs ls cs ms full hist acks got → logInv nds ls ms full hist → coherent hist F →
  peerSafe n hist acks g s rf F → hist (currentTerm rf) = [] →
  NoDup Q → (n < 2 * length Q)%nat → (∀ v, v ∈ Q → (v < n)%nat ∧ carries hist acks v (currentTerm rf) F) →
  headShown F rf.
Proof.
  intros SI I Hco P Hnil HQ1 HQ2 HQ3. destruct (ps_known _ _ _ _ _ _ _ P) as [[_ ?]|Hk]; [done|].
  destruct Hk as (t & i & Hc & Hki & Htu & Hr & Hh & _). pose proof Hc as (Ht & Q' & HQ1' & HQ2' & HQ3').
  assert (t < currentTerm rf) as Hlt.
  { destruct (decide (t = currentTerm rf)) as [->|]; [|lia]. by apply has_nonempty in Ht. }
  destruct (majorities_meet n Q Q') as (v & Hv & Hv'); try done; [intros v Hv; by apply (HQ3 v Hv)|intros v Hv; by apply (HQ3' v Hv)|].
  destruct (HQ3 v Hv) as [_ Hcar]. destruct (HQ3' v Hv') as (_ & k & Hik & Hack).
  destruct (Hcar t k i Hack Hlt Hik Ht) as [HF|(t' & Ht' & Hne & Hno)].
  - unfold headShown. rewrite Hh. f_equal. apply (has_agrees hist F t i); [done|apply I|done|lia].
  - destruct Hno. eapply leader_complete; try done. lia.
Qed.

(** The votes of a winner. *)
Lemma winner_votes n w ls' nds' ms full hist acks got s rf rf' F :
  worldInv n w → votesInv n nds' (grants w) ((s, currentTerm rf') :: ls') →
  safeInv n (nodes w) (grants w) (leaders w) (calls w) ms full hist acks got →
  nodes w !! s = Some rf → full !! s = Some F → currentTerm rf' = currentTerm rf → state rf = CANDIDATE →
  hist (currentTerm rf) = [] →
  ∃ Q, NoDup Q ∧ (n < 2 * length Q)%nat ∧ ∀ v, v ∈ Q →
    (v < n)%nat ∧ (∀ r, nodes w !! v = Some r → currentTerm rf ≤ currentTerm r) ∧ carries hist acks v (currentTerm rf) F.
Proof.
  intros [V T] V' SI Hs HF Hct Hst Hnil. set (u := currentTerm rf) in *.
  destruct (vi_quorum _ _ _ _ V' s (currentTerm rf')) as (Hlt & Q & HQ1 & HQ2 & HQ3 & HQ4); [by left|].
  rewrite Hct in HQ4. exists (s :: Q). split_and!; [by constructor|simpl; lia|].
  intros v [->|Hv]%elem_of_cons.
  - split_and!; [done|intros r Hr; by assert (r = rf) as -> by congruence|].
    intros t k i Hack Htu Hi Hhas. pose proof (si_peer SI _ _ _ Hs HF) as P.
    destruct (ps_acks _ _ _ _ _ _ _ P t k Hack) as [_ Hst0].
    destruct (Hst0 i Hi Hhas) as [?|(t' & Ht' & Hne & Hno)]; [by left|right].
    exists t'. split_and!; [lia| |done..]. destruct (decide (t' = u)) as [->|]; [done|lia].
  - destruct (HQ4 v Hv) as [Hvn Hvg]. split_and!; [done|intros r Hr; by eapply (vi_grant _ _ _ _ V)|].
    by apply (si_grant SI _ _ _ rf F Hvg Hs HF).
Qed.

(** A candidate wins: its log is the history of the term. *)
Lemma candidate_wins n w ms hist acks got s rf rf' :
  worldInv n w → safeWorld n w ms hist acks got → nodes w !! s = Some rf →
  votesInv n (<[s := rf']> (nodes w)) (grants w) ((s, currentTerm rf') :: leaders w) →
  log rf' = log rf ∧ lastIncludedIndex rf' = lastIncludedIndex rf → currentTerm rf' = currentTerm rf →
  state rf = CANDIDATE → state rf' = LEADER → commitIndex rf' = commitIndex rf →
  (∀ v k, matchIndex rf' !! v = Some k → k = 0) →
  ∃ hist', grown hist acks got hist' acks got ∧ ∃ full,
    logInv (<[s := rf']> (nodes w)) ((s, currentTerm rf') :: leaders w) ms full hist' ∧
    safeInv n (<[s := rf']> (nodes w)) (grants w) ((s, currentTerm rf') :: leaders w) (calls w) ms full hist' acks got.
Proof.
  intros W (full & I & SI) Hs V' [Hl Hi] Hct Hst Hst' Hci Hm. pose proof W as [V T].
  destruct (full_lookup _ _ _ _ _ _ _ I Hs) as (F & HF & Hsh & Hco). pose proof (si_peer SI _ _ _ Hs HF) as P.
  destruct (lead_step n (nodes w) (grants w) (leaders w) ms full hist s rf rf' V V' I Hs Hl Hi Hct Hst Hst')
    as (F2 & HF2 & Hnil & I').
  { intros F2 HF2 Hnil. assert (F2 = F) as -> by congruence. rewrite Hct in Hnil.
    destruct (winner_votes n w _ _ ms full hist acks got s rf rf' F W V' SI Hs HF Hct Hst Hnil) as (Q & HQ1 & HQ2 & HQ3).
    eapply (winner_shows n); [exact SI|exact I|exact Hco|exact P|done|exact HQ1|exact HQ2|]. intros v Hv. by destruct (HQ3 v Hv) as (? & _ & ?). }
  assert (F2 = F) as -> by congruence. rewrite Hct in Hnil, I' |- *. set (u := currentTerm rf) in *.
  destruct (winner_votes n w _ _ ms full hist acks got s rf rf' F W V' SI Hs HF Hct Hst Hnil) as (Q & HQ1 & HQ2 & HQ3).
  assert (extends hist u F) as Hext.
  { constructor; [rewrite Hnil; intros j e Hj; by apply go_index_Some_lt in Hj as [? ?%Z.nle_gt]|by left|].
    intros j e He. by eapply (ps_terms _ _ _ _ _ _ _ P). }
  exists (writes hist u F). split; [split_and!; [intros ???; by apply writes_keeps|done|done]|].
  exists full. split; [exact I'|]. pose proof (safe_hist hist u F Hext _ _ _ _ _ _ _ _ _ SI) as SI1.
  assert (safeInv n (nodes w) (grants w) ((s, u) :: leaders w) (calls w) ms full (writes hist u F) acks got) as SI2.
  { apply (safe_led _ _ _ _ _ _ _ _ _ _ _ _ Q); [done..|]. intros v Hv. destruct (HQ3 v Hv) as (? & ? & ?).
    split_and!; [done..|]. assert (writes hist u F u = F) as -> by (unfold writes; by rewrite Z.eqb_refl).
    apply writes_carries; [done| |done]. intros. by eapply (si_ack SI). }
  rewrite <-(list_insert_id full s F HF). eapply safe_node; [exact SI2|apply I|exact Hs|exact HF|lia|by rewrite Hst'| |done].
  eapply peer_kept; [by apply (si_peer SI2)|lia|done..|rewrite Hci; apply P|].
  intros _ v k Hk. left. rewrite (Hm v k Hk). lia.
Qed.

(** A candidate handles the answer. *)
Lemma vote_answered n w w' k ms hist acks got :
  worldInv n w → worldInv n w' → exec w (AReply k) = Some w' → safeWorld n w ms hist acks got →
  ∃ hist', grown hist acks got hist' acks got ∧ safeWorld n w' ms hist' acks got.
Proof.
  intros W [V' _] H SW. pose proof W as [V T]. simpl in H.
  apply bind_Some in H as (vc & Hc & H). apply bind_Some in H as (th & _ & H).
  apply bind_Some in H as (rf & Hs & H). destruct (vc_status vc) as [|reply|]; [done| |done].
  case_if_in H; [|done]. apply bind_Some in H as ([[rf' cnt'] eff] & Hx & [= <-]).
  pose proof (electReply_log _ _ _ _ _ _ Hx) as Hlog.
  pose proof (no_wf _ _ _ (vi_nodes _ _ _ _ V _ _ Hs)) as Hwf.
  destruct (electReply_keeps _ _ _ _ _ _ Hwf Hx) as (Hci & Hm1 & Hm2).
  assert (voteStep rf rf' → (state rf' = LEADER → state rf = LEADER) →
    safeWorld n (mkWorld (<[et_server th:=rf']> (nodes w)) (elects w) (<[k:=setStatus Done vc]> (calls w)) (grants w)
      (leaders w)) ms hist acks got) as Hkept.
  { intros Hv Hlead. destruct SW as (full & I & SI). exists full. simpl. split; [eapply logInv_same; try done; apply Hlog|].
    eapply safe_status; [|done]. eapply safe_kept; try done; [apply Hlog..|by left|].
    intros Hst v k0 Hk0. left. by rewrite <-Hm1 by auto. }
  destruct (electReply_cases _ _ _ _ _ _ Hx)
    as [(Hv & _ & Hlead)|(Hcand & _ & _ & _ & Hct & Hvf & [->|[Hst _]])].
  - exists hist. split; [apply grown_refl|]. rewrite bool_decide_false by tauto. by apply Hkept.
  - exists hist. split; [apply grown_refl|]. rewrite bool_decide_false by (rewrite Hcand; naive_solver).
    apply Hkept; [|done]. constructor; auto. intros; lia.
  - simpl in V'. rewrite bool_decide_true in * by (by rewrite Hcand).
    destruct (candidate_wins n w ms hist acks got (et_server th) rf rf') as (hist' & Hg & full & I' & SI'); try done.
    { intros v k0. apply Hm2; [by rewrite Hcand|done]. }
    exists hist'. split; [done|]. exists full. simpl. split; [done|]. by apply safe_status.
Qed.

(** A crash, when the disk has the term of the snapshot. *)
Lemma peer_crashed n w w' s ms hist acks got :
  worldInv n w → exec w (ACrash s) = Some w' →
  (∀ rf, nodes w !! s = Some rf → termAt rf (lastIncludedIndex rf) = Some (lastIncludedTerm rf)) →
  safeWorld n w ms hist acks got → safeWorld n w' ms hist acks got.
Proof.
  intros [V T] H Hdisk (full & I & SI). simpl in H. apply bind_Some in H as (rf & Hs & H).
  apply bind_Some in H as (rf' & Hx & [= <-]). exists full. simpl. specialize (Hdisk rf Hs).
  destruct (vi_nodes _ _ _ _ V _ _ Hs) as [Hwf Hd _ _ _].
  destruct (Make_recovers rf Hd) as (rf2 & Hx2 & Hrec). rewrite Hx in Hx2. injection Hx2 as <-.
  destruct (full_lookup _ _ _ _ _ _ _ I Hs) as (F & HF & Hsh & Hco).
  pose proof (si_peer SI _ _ _ Hs HF) as [Pt Pa Pm [Pc Pg] Pk Po]. pose proof (recovers_voteStep _ _ Hrec) as Hv.
  split; [by eapply crash_step|]. rewrite <-(list_insert_id full s F HF).
  eapply safe_node; try done; [apply I|apply Hv|by rewrite (rec_role _ _ Hrec)|].
  pose proof (recovers_headShown F _ _ Hrec Hdisk) as Hh.
  assert (len (log rf') = len (log rf)) as Hlen.
  { pose proof (wf_log _ Hwf). pose proof (wf_log _ (rec_wf _ _ Hrec)). pose proof (rec_log _ _ Hrec) as Ht.
    destruct (log rf), (log rf'); try done. simpl in Ht. by rewrite Ht. }
  constructor; rewrite ?(rec_term _ _ Hrec), ?(rec_lii _ _ Hrec), ?(rec_commit _ _ Hrec), ?(rec_role _ _ Hrec); try done; [lia| |].
  - destruct Pk as [[? ?]|Hk]; [left; auto|right]. pose proof Hk as (_ & _ & _ & _ & _ & Hr & _).
    eapply held_change; [exact Hk|apply Hrec|by rewrite (rec_term _ _ Hrec)|..].
    + unfold getLastLogIndex, logicIndex in *. rewrite (rec_lii _ _ Hrec), Hlen. lia.
    + rewrite Hdisk. destruct (rec_head _ _ Hrec) as (h & Hhd & Hht). unfold termAt, realIndex.
      rewrite (rec_lii _ _ Hrec), Z.sub_diag, Hhd. simpl. by rewrite Hht.
    + intros j Hj. unfold entryAt, realIndex. rewrite (rec_lii _ _ Hrec). pose proof (rec_log _ _ Hrec) as Ht.
      destruct (log rf), (log rf'); try done; simpl in Ht; subst; try by destruct Hwf.
      by rewrite !go_index_cons by lia.
  - intros E. apply Hh, Po. unfold getLastLogIndex, logicIndex in *. rewrite (rec_lii _ _ Hrec), Hlen in E. done.
Qed.

(** A leader sends its entries. *)
Lemma entries_sent n w ms hist acks got s rf dst args :
  worldInv n w → safeWorld n w ms hist acks got → nodes w !! s = Some rf → Z.of_nat dst ≠ me rf →
  onRoundBegin rf (Z.of_nat dst) = Some (Some (SendEntries args)) →
  safeWorld n w (ms ++ [mkAppendCall s dst args Sent true]) hist acks got.
Proof.
  intros [V T] (full & I & SI) Hs Hdst H. exists full. split; [by eapply send_step|].
  eapply safe_msgs; [done|]. apply Forall_app; split; [apply SI|]. constructor; [|done].
  destruct (onRoundBegin_entries _ _ _ H) as (Hst & Hct & _ & Hci & Hr & Hpt & He).
  destruct (full_lookup _ _ _ _ _ _ _ I Hs) as (F & HF & Hsh & Hco).
  destruct (li_leader _ _ _ _ _ I _ _ Hs Hst) as [HF' _]. rewrite HF in HF'. injection HF' as HFh.
  destruct (si_peer SI _ _ _ Hs HF) as [Pt Pa Pm [Pc Pg] Pk Po].
  constructor; simpl; rewrite ?Hct, ?Hci, <-?HFh; [| |done].
  - destruct Pk as [[? _]|Hk%held_settled]; [left; lia|right]. eapply settled_mono; [done..|lia].
  - unfold lastOfCall; simpl. rewrite He, len_drop, (sh_len _ _ Hsh) by lia. unfold realIndex. lia.
Qed.

(** What a peer has stored survives the merge of a leader's entries, unless the leader lost it. *)
Lemma merged_has nds ls ms full hist (sure : Prop) F F' T last i t :
  logInv nds ls ms full hist → coherent hist F →
  merged sure F F' (hist T) last → has F t i → has (hist T) t i → has F' t i.
Proof.
  intros I Hco Hmerge HFt HG.
  destruct (has_in _ _ _ _ Hco HFt) as (e & He & Het & Hhe).
  destruct (has_in _ _ _ _ (li_hist _ _ _ _ _ I T) HG) as (e2 & He2 & Het2 & Hhe2).
  unfold has. rewrite (me_kept _ _ _ _ _ Hmerge i e He) by congruence. simpl. by rewrite Het.
Qed.

(** A request of the leader of term [T] turns the peer [rf] with history [F] into [rf'] with [F']. *)
Section entries.
Context (n : nat) (nds : list (Raft C)) (gs : list (nat * Z * nat)) (ls : list (nat * Z)) (cs : list VoteCall)
  (ms : list (AppendCall C)) (full : list (list (Log C))) (hist : Z → list (Log C)) (acks : nat → Z → Z → Prop) (got : nat → Z).
Context (SI : safeInv n nds gs ls cs ms full hist acks got) (I : logInv nds ls ms full hist).
Context (rf rf' : Raft C) (F F' : list (Log C)) (T last : Z).
Context (Hsh : shows F rf) (Hsh' : shows F' rf') (Hne : hist T ≠ []) (Hpos : 0 < len (log rf')).
Context (Hmerge : merged (lastIncludedIndex rf < last ∨ headShown F rf) F F' (hist T) last).
Context (Hold : currentTerm rf ≤ T) (Hnew : currentTerm rf' = T) (Hlii : lastIncludedIndex rf' = lastIncludedIndex rf)
  (Hhd : termAt rf' (lastIncludedIndex rf) = termAt rf (lastIncludedIndex rf)).

Lemma merged_held k : held n hist acks rf k → held n hist acks rf' k.
Proof using SI I Hsh Hsh' Hne Hpos Hmerge Hold Hnew Hlii Hhd.
  intros Hk. pose proof Hk as (t & i & Hc & Hki & Htu & Hr & _ & He).
  pose proof (sh_lii _ _ Hsh). pose proof (sh_len _ _ Hsh) as HF. pose proof (sh_len _ _ Hsh') as HF'.
  assert (∀ j, lastIncludedIndex rf < j ≤ k → F'.[j] = F.[j] ∧ j < len F') as Hsame.
  { intros j Hj. unfold getLastLogIndex, logicIndex in Hr. destruct (go_index_lt_Some F j) as [e Hje]; [lia|].
    assert (F'.[j] = Some e) as HFj; [|rewrite HFj, Hje; by apply go_index_Some_lt in HFj as [_ ?]].
    apply (me_kept _ _ _ _ _ Hmerge); [done|]. rewrite <-Hje, (sh_entries _ _ Hsh), He by lia.
    eapply leader_agrees; [exact SI|exact I|exact Hc|lia|done|lia]. }
  apply (held_change _ _ _ rf); [done|done|lia| |done|].
  - unfold getLastLogIndex, logicIndex in *. rewrite Hlii in *. destruct (decide (lastIncludedIndex rf < k)); [|lia].
    destruct (Hsame k) as [_ ?]; lia.
  - intros j Hj. destruct (Hsame j Hj) as [Hs _].
    rewrite <-(sh_entries _ _ Hsh), <-(sh_entries _ _ Hsh'); [done|rewrite Hlii; lia|lia].
Qed.

(** It learns a new commit index. *)
Lemma commit_learned g lc :
  (headShown F rf → headShown F' rf') → lastIncludedIndex rf ≤ g → (g ≤ 0 ∧ headShown F rf ∨ held n hist acks rf g) →
  settled n hist acks T lc → g < min_int lc last → held n hist acks rf' (min_int lc last).
Proof using SI I Hsh Hsh' Hne Hpos Hmerge Hold Hnew Hlii Hhd.
  intros Hhead Hg Hk (t & i & Hc & Hli & Ht) Hlt.
  assert (min_int lc last ≤ lc ∧ min_int lc last ≤ last) as [Hm1 Hm2] by (unfold min_int; case_if; lia).
  set (k := min_int lc last) in *.
  assert (∀ j, j ≤ k → F'.[j] = (hist t).[j]) as Hag.
  { intros j Hj. rewrite (me_agrees _ _ _ _ _ Hmerge) by lia. eapply leader_agrees; [exact SI|exact I|exact Hc|done..|lia]. }
  exists t, i. rewrite Hnew, Hlii. split_and!; [done|lia|done|lia| | |].
  - pose proof (me_reached _ _ _ _ _ Hmerge). pose proof (sh_len _ _ Hsh').
    unfold getLastLogIndex, logicIndex. rewrite Hlii. lia.
  - destruct Hk as [[_ Hh]|(t0 & i0 & Hc0 & Hi0 & _ & _ & Hh0 & _)].
    + specialize (Hhead Hh). unfold headShown in Hhead. rewrite Hlii in Hhead. by rewrite <-Hhead, Hag by lia.
    + rewrite Hhd, Hh0. f_equal. eapply committed_agree; [exact SI|exact I|exact Hc0|exact Hc|lia|lia].
  - intros j Hj. rewrite <-(sh_entries _ _ Hsh') by (rewrite Hlii; lia). apply Hag. lia.
Qed.

(** What it has stored stays, as far as the leader has it. *)
Lemma merged_acks s : coherent hist F → peerSafe n hist acks (got s) s rf F → ∀ t k, acks s t k → t ≤ T ∧
  ∀ i, i ≤ k → has (hist t) t i → has F' t i ∨ lost hist t (T + 1) i.
Proof using SI I Hne Hmerge Hold.
  intros Hco P t k Hack. destruct (ps_acks _ _ _ _ _ _ _ P t k Hack) as [Hle Hhas]. split; [lia|]. intros i Hi Hi'.
  destruct (Hhas i Hi Hi') as [HFt|?]; [|right; eapply lost_mono; [done|lia]].
  destruct (decide (has (hist T) t i)) as [Hin|Hout].
  - left. by eapply merged_has.
  - right. exists T. split_and!; [|lia|done..]. destruct (decide (t = T)) as [->|]; [done|lia].
Qed.
End entries.

Definition raise (s : nat) (k : Z) got : nat → Z := λ v, if decide (v = s) then Z.max (got v) k else got v.

Lemma raise_same s k got : raise s k got s = Z.max (got s) k.
Proof. unfold raise. by rewrite decide_True. Qed.

Lemma raise_other s k got v : v ≠ s → raise s k got v = got v.
Proof. intros. unfold raise. by rewrite decide_False. Qed.

Lemma raise_grown hist acks acks' got s k :
  (∀ v t k, acks v t k → acks' v t k) → grown hist acks got hist acks' (raise s k got).
Proof. intros Ha. split_and!; [done..|]. intros v. unfold raise. case_decide; lia. Qed.

(** A peer accepts a request with entries. *)
Lemma entries_accepted n w ms hist acks got k m rf rf' reply eff :
  worldInv n w → safeWorld n w ms hist acks got → ms !! k = Some m → nodes w !! ac_dst m = Some rf →
  AppendEntries rf (ac_args m) = Some (rf', reply, eff) → aer_Success reply = true →
  currentTerm rf' = termOf m ∧ ∃ full F F', full !! ac_dst m = Some F ∧
    (lastIncludedIndex rf < lastOfCall m ∨ headShown F rf → ∀ j, j ≤ lastOfCall m → F'.[j] = (hist (termOf m)).[j]) ∧
    (¬ (lastIncludedIndex rf < lastOfCall m ∨ headShown F rf) → settled n hist acks (termOf m) (lastOfCall m)) ∧
    logInv (<[ac_dst m := rf']> (nodes w)) (leaders w) ms (<[ac_dst m := F']> full) hist ∧
    safeInv n (<[ac_dst m := rf']> (nodes w)) (grants w) (leaders w) (calls w) ms (<[ac_dst m := F']> full) hist acks
      (raise (ac_dst m) (commitIndex rf') got).
Proof.
  intros [V T] (full & I & SI) Hk Hs H Hsucc. pose proof (list_elem_of_lookup_2 _ _ _ Hk) as Hin.
  destruct (append_step _ _ _ _ _ _ _ _ _ _ _ _ V I Hin Hs H) as (F & F' & HF & I' & Hhead & Halone & Hmerge).
  rewrite Hsucc in Hmerge.
  pose proof (no_wf _ _ _ (vi_nodes _ _ _ _ V _ _ Hs)) as Hwf.
  pose proof (si_peer SI _ _ _ Hs HF) as P. pose proof P as [Pt Pa Pm [Pc Pg] Pk Po].
  destruct (AppendEntries_keeps _ _ _ _ _ Hwf H) as (Hm & Hcase). rewrite Hsucc in Hcase.
  destruct Hcase as (Hct & Hst & Hlii & Hhd & Hpos & Hci).
  assert (voteStep rf rf') as Hv.
  { apply (quiet_voteStep rf (OpAppendEntries (ac_args m))); [done|]. simpl. by rewrite H. }
  pose proof (vs_term _ _ Hv) as Hmono. rewrite Hct in Hmono.
  destruct (li_node _ _ _ _ _ I _ _ _ Hs HF) as [Hsh Hco]. pose proof (lookup_lt_Some _ _ _ Hs) as Hlt.
  destruct (full_lookup _ _ _ _ _ _ _ I' (list_lookup_insert_eq _ _ _ Hlt)) as (F2 & HF2 & Hsh' & _).
  rewrite list_lookup_insert_eq in HF2 by (by rewrite (li_len _ _ _ _ _ I)). injection HF2 as <-.
  pose proof (li_msgs _ _ _ _ _ I) as Hok. rewrite Forall_forall in Hok.
  assert (hist (termOf m) ≠ []) as Hne.
  { intros E. pose proof (mo_prev _ _ _ (Hok m Hin)) as (x & Hx & _)%fmap_Some. rewrite E in Hx.
    by apply go_index_Some_lt in Hx as [? ?%Z.nle_gt]. }
  pose proof (si_msgs SI) as Hmsg. rewrite Forall_forall in Hmsg. destruct (Hmsg m Hin) as [Hcom _ _].
  assert (termAt rf' (lastIncludedIndex rf) = termAt rf (lastIncludedIndex rf)) as Hhd'.
  { unfold termAt, realIndex. by rewrite Hlii, Z.sub_diag, Hhd. }
  split; [done|]. exists full, F, F'. split_and!; [done|apply Hmerge| |done|].
  { intros Hno. destruct Pk as [[_ ?]|Hh%held_settled]; [destruct Hno; by right|].
    eapply settled_mono; [done|lia|]. destruct (decide (lastIncludedIndex rf < lastOfCall m)); [destruct Hno; by left|lia]. }
  assert (0 ≤ commitIndex rf' ∧ (commitIndex rf' ≤ got (ac_dst m) ∨
    got (ac_dst m) < commitIndex rf' ∧ held n hist acks rf' (commitIndex rf'))) as [Hci0 Hnewcommit].
  { destruct Hci as [->|[Hlc ->]]; [lia|]. fold (lastOfCall m) in *. pose proof (me_reached _ _ _ _ _ Hmerge).
    assert (0 ≤ lastOfCall m).
    { unfold lastOfCall. pose proof (len_nonneg (aea_Entries (ac_args m))).
      pose proof (mo_prev _ _ _ (Hok m Hin)) as (x & Hx & _)%fmap_Some. apply go_index_Some_lt in Hx. lia. }
    split; [unfold min_int; case_if; lia|].
    destruct (decide (min_int (aea_LeaderCommit (ac_args m)) (lastOfCall m) ≤ got (ac_dst m))); [by left|right; split; [lia|]].
    destruct Hcom as [?|Hset]; [lia|]. apply (commit_learned n (nodes w) (grants w) (leaders w) (calls w) ms full _ _ got SI I rf rf' F F' (termOf m)
      (lastOfCall m) Hsh Hsh' Hne Hpos Hmerge Hmono Hct Hlii Hhd' (got (ac_dst m))); try done. lia. }
  eapply safe_node; [exact SI|apply I|exact Hs|exact HF|lia|done| |by intros; apply raise_other].
  rewrite raise_same. constructor.
  - intros i e He. rewrite Hct. destruct (me_cases _ _ _ _ _ Hmerge) as [->|HF'].
    + specialize (Pt i e He). lia.
    + rewrite HF' in He. eapply (si_hist SI (termOf m) i). rewrite <-He. symmetry. apply go_index_take.
      apply go_index_Some_lt in He. unfold len in He. rewrite length_take in He. lia.
  - rewrite Hct. by eapply (merged_acks n).
  - intros Hl. destruct (vs_lead _ _ Hv Hl) as [He Hl0]. rewrite Hm, He. by apply Pm.
  - rewrite Hlii. lia.
  - destruct Hnewcommit as [Hle|[Hgt Hh]]; [rewrite Z.max_l by done|rewrite Z.max_r by lia; by right].
    destruct Pk as [[? Hh]|Hh]; [left; auto|right].
    by apply (merged_held n (nodes w) (grants w) (leaders w) (calls w) ms full _ _ got SI I rf rf' F F' (termOf m)
      (lastOfCall m) Hsh Hsh' Hne Hpos Hmerge Hmono Hct Hlii Hhd').
  - by apply Halone.
Qed.

(** A peer handles a request with entries. *)
Lemma entries_handled n w ms hist acks got k m rf rf' reply eff :
  worldInv n w → worldInv n (setNode (ac_dst m) rf' w) → safeWorld n w ms hist acks got →
  ms !! k = Some m → nodes w !! ac_dst m = Some rf →
  AppendEntries rf (ac_args m) = Some (rf', reply, eff) →
  ∃ acks' got', grown hist acks got hist acks' got' ∧
    safeWorld n (setNode (ac_dst m) rf' w) (<[k := setAppend (Answered reply) m]> ms) hist acks' got'.
Proof.
  intros W [V' T'] SW Hk Hs H. pose proof W as [V T].
  assert (∀ acks got full, logInv (<[ac_dst m:=rf']> (nodes w)) (leaders w) ms full hist →
    safeInv n (<[ac_dst m:=rf']> (nodes w)) (grants w) (leaders w) (calls w) ms full hist acks got →
    (aer_Success reply = true → acks (ac_dst m) (termOf m) (lastOfCall m) ∨ settled n hist acks (termOf m) (lastOfCall m)) →
    safeWorld n (setNode (ac_dst m) rf' w) (<[k := setAppend (Answered reply) m]> ms) hist acks got) as Hanswer.
  { intros acks0 got0 full I SI Hst. exists full. simpl. split; [eapply logInv_calls; [done|]; apply setAppend_ok; [apply I|done]|].
    eapply safe_msgs; [done|]. pose proof (si_msgs SI) as Hms. apply Forall_insert; [done|]. rewrite Forall_forall in Hms.
    destruct (Hms m (list_elem_of_lookup_2 _ _ _ Hk)) as [? ? _]. constructor; simpl; try done. by intros r [= <-]. }
  destruct (aer_Success reply) eqn:Hsucc.
  - destruct (entries_accepted n w ms hist acks got k m rf rf' reply eff W SW Hk Hs H Hsucc)
      as (Hct & full & F & F' & HF & Hag & Hset & I' & SI').
    destruct (decide (lastIncludedIndex rf < lastOfCall m ∨ headShown F rf)) as [Hsure|Hno].
    2:{ exists acks, (raise (ac_dst m) (commitIndex rf') got). split; [by apply raise_grown|].
        eapply Hanswer; [done..|]. intros _. right. auto. }
    pose proof (lookup_lt_Some _ _ _ Hs) as Hlt. pose proof (lookup_lt_Some _ _ _ HF) as Hlt'.
    pose proof (si_msgs SI') as Hmsg. rewrite Forall_forall in Hmsg.
    destruct (Hmsg m (list_elem_of_lookup_2 _ _ _ Hk)) as [_ Hreach _].
    exists (λ v' t' k', acks v' t' k' ∨ (v' = ac_dst m ∧ t' = currentTerm rf' ∧ k' = lastOfCall m)), (raise (ac_dst m) (commitIndex rf') got).
    split; [apply raise_grown; intros; by left|]. eapply Hanswer; [exact I'| |intros _; left; right; by rewrite Hct].
    apply (safe_ack n _ _ _ _ _ _ _ _ _ _ rf' F'); try done.
    + by apply list_lookup_insert_eq.
    + by apply list_lookup_insert_eq.
    + by rewrite <-(vi_len _ _ _ _ V).
    + intros v' u c r Hg Hr. by eapply (vi_grant _ _ _ _ V').
    + by rewrite Hct.
    + rewrite Hct. intros i Hi (e & He & Het)%fmap_Some. unfold has. rewrite Hag, He by done. simpl. by rewrite Het.
  - exists acks, got. split; [apply grown_refl|]. destruct SW as (full & I & SI).
    destruct (append_step _ _ _ _ _ _ _ _ _ _ _ _ V I (list_elem_of_lookup_2 _ _ _ Hk) Hs H) as (F & F' & HF & I' & _ & _ & HFF).
    rewrite Hsucc in HFF. subst F'. rewrite (list_insert_id full) in I' by done. eapply Hanswer; [exact I'| |by intros].
    pose proof (no_wf _ _ _ (vi_nodes _ _ _ _ V _ _ Hs)) as Hwf.
    destruct (AppendEntries_keeps _ _ _ _ _ Hwf H) as (Hm & Hci). rewrite Hsucc in Hci.
    destruct (AppendEntries_rejected _ _ _ _ _ H Hsucc) as [Hlog Hlii].
    eapply safe_kept; [exact SI|exact I|exact Hs| |exact Hlog|exact Hlii|by left|].
    + apply (quiet_voteStep rf (OpAppendEntries (ac_args m))); [done|]. simpl. by rewrite H.
    + intros _ v k0 Hk0. left. by rewrite <-Hm.
Qed.

(** What a leader knows of the others, and the commit index it takes from that. *)
Lemma Forall_or_Exists {A} (P Q : A → Prop) l : (∀ x, x ∈ l → P x ∨ Q x) → Forall P l ∨ Exists Q l.
Proof.
  induction l as [|x l IH]; intros H; [by left|]. destruct (H x) as [?|?]; [by left| |by right; left].
  destruct IH as [?|?]; [intros y Hy; apply H; by right|left; by constructor|right; by right].
Qed.

(** What is settled in its term a leader holds. *)
Lemma leader_held n nds gs ls cs ms full hist acks got s rf k :
  safeInv n nds gs ls cs ms full hist acks got → logInv nds ls ms full hist → nds !! s = Some rf → state rf = LEADER →
  settled n hist acks (currentTerm rf) k → lastIncludedIndex rf ≤ k ≤ getLastLogIndex rf → held n hist acks rf k.
Proof.
  intros SI I Hs Hst (t & i & Hc & Hki & Ht) Hr. destruct (full_lookup _ _ _ _ _ _ _ I Hs) as (F & HF & Hsh & _).
  destruct (li_leader _ _ _ _ _ I _ _ Hs Hst) as [HF' Hh]. rewrite HF in HF'. injection HF' as HFh. rewrite <-HFh in Hh.
  assert (∀ j, j ≤ k → F.[j] = (hist t).[j]) as Hag.
  { intros j Hj. rewrite HFh. eapply leader_agrees; [exact SI|exact I|exact Hc|done| |lia]. rewrite <-HFh. intros E.
    pose proof (sh_len _ _ Hsh) as Hl. pose proof (sh_lii _ _ Hsh). rewrite E in Hl. change (len []) with 0 in Hl.
    unfold getLastLogIndex, logicIndex in Hr. lia. }
  exists t, i. split_and!; [done..|lia|lia| |].
  - by rewrite <-Hh, Hag by lia.
  - intros j Hj. rewrite <-(sh_entries _ _ Hsh) by lia. apply Hag. lia.
Qed.

(** The leader commits up to [i], an entry of its term: it has stored that itself, and the
    peers it knows to have stored it are with it a majority, or the entry was settled. *)
Lemma leader_commits n nds gs ls cs ms full hist acks got s rf rf' :
  votesInv n nds gs ls → logInv nds ls ms full hist → safeInv n nds gs ls cs ms full hist acks got →
  nds !! s = Some rf → state rf = LEADER →
  peers rf' = n → me rf' = Z.of_nat s → 0 < commitIndex rf' →
  (∀ v k, matchIndex rf' !! v = Some k → k ≤ 0 ∨ acks v (currentTerm rf) k ∨ settled n hist acks (currentTerm rf) k) →
  Z.of_nat n < 2 * (1 + Z.of_nat (length (matchers rf' (commitIndex rf')))) →
  termAt rf (commitIndex rf') = Some (currentTerm rf) →
  ∃ acks', (∀ v t k, acks v t k → acks' v t k) ∧ safeInv n nds gs ls cs ms full hist acks' got ∧
    held n hist acks' rf (commitIndex rf').
Proof.
  intros V I SI Hs Hst Hp Hme Hpos Hm Hmaj Hown. set (i := commitIndex rf') in *.
  destruct (full_lookup _ _ _ _ _ _ _ I Hs) as (F & HF & Hsh & _).
  destruct (li_leader _ _ _ _ _ I _ _ Hs Hst) as [HF' Hh]. rewrite HF in HF'. injection HF' as HFh. rewrite <-HFh in Hh.
  pose proof (termAt_range _ _ _ Hown) as Hr. rewrite <-(shows_term _ _ _ Hsh Hh Hr) in Hown.
  assert (i < len F) as Hlen by (pose proof Hown as (e & He%go_index_Some_lt & _)%fmap_Some; lia).
  assert (lastIncludedIndex rf ≤ i ≤ getLastLogIndex rf) as Hrange.
  { rewrite (sh_len _ _ Hsh) in Hlen. unfold getLastLogIndex, logicIndex. lia. }
  assert (∀ v, v ∈ matchers rf' i → v ≠ s ∧ (v < n)%nat ∧ ∃ k, i ≤ k ∧ matchIndex rf' !! v = Some k) as Hin.
  { intros v Hv. apply list_elem_of_In, filter_In in Hv as [Hv Hmv]. apply in_seq in Hv.
    unfold matched in Hmv. destruct (matchIndex rf' !! v) as [k|] eqn:Hk; simpl in Hmv; [|by rewrite andb_false_r in Hmv].
    apply andb_true_iff in Hmv as [Hne%negb_true_iff%Z.eqb_neq Hik%Z.leb_le]. split; [intros ->; congruence|]. split; [lia|eauto]. }
  destruct (Forall_or_Exists (λ v, ∃ k, i ≤ k ∧ acks v (currentTerm rf) k)
    (λ _, settled n hist acks (currentTerm rf) i) (matchers rf' i)) as [Hall|(v & _ & Hset)%Exists_exists].
  { intros v Hv. destruct (Hin v Hv) as (_ & _ & k & Hik & Hk). destruct (Hm v k Hk) as [?|[?|?]]; [lia|left; eauto|right].
    by eapply settled_mono. }
  2:{ exists acks. split_and!; [done..|]. by eapply leader_held. }
  assert (s < n)%nat as Hsn by (rewrite <-(vi_len _ _ _ _ V); by eapply lookup_lt_Some).
  assert (safeInv n nds gs ls cs ms full hist (λ v t k, acks v t k ∨ (v = s ∧ t = currentTerm rf ∧ k = i)) got) as SI'.
  { apply (safe_ack n nds gs ls cs ms full hist acks got s rf F i SI); try done.
    - intros v u c r Hg Hrv. by eapply (vi_grant _ _ _ _ V).
    - by rewrite <-HFh.
    - intros j _. by rewrite HFh. }
  eexists. split; [|split; [exact SI'|]]; [intros; by left|]. eapply leader_held; [exact SI'|done..| |done].
  exists (currentTerm rf), i. split_and!; [|done..]. split; [unfold has; by rewrite <-HFh|]. exists (s :: matchers rf' i).
  split_and!; [|simpl; lia|].
  - constructor; [intros Hv; by destruct (Hin s Hv)|]. unfold matchers. apply NoDup_ListNoDup, List.NoDup_filter, List.seq_NoDup.
  - rewrite Forall_forall in Hall. intros v [->|Hv]%elem_of_cons; [split; [done|]; exists i; split; [done|by right]|].
    destruct (Hin v Hv) as (_ & ? & _). destruct (Hall v Hv) as (k & ? & ?). split; [done|]. exists k. split; [done|by left].
Qed.

Lemma peer_raised n hist acks g s rf F k :
  peerSafe n hist acks g s rf F → held n hist acks rf k → peerSafe n hist acks (Z.max g k) s rf F.
Proof.
  intros [Pt Pa Pm [Pc Pg] Pk Po] Hk. constructor; try done; [lia|].
  destruct (Z.le_ge_cases k g); [by rewrite Z.max_l|rewrite Z.max_r by done; by right].
Qed.

(** A leader handles the reply to its entries. *)
Lemma reply_handled n w ms hist acks got k m rf rf' reply :
  worldInv n w → safeWorld n w ms hist acks got → ms !! k = Some m → nodes w !! ac_src m = Some rf →
  ac_status m = Answered reply →
  onRoundEntriesReply rf (Z.of_nat (ac_dst m)) (ac_args m) (Some reply) = Some rf' →
  (commitIndex rf' ≠ commitIndex rf → termAt rf' (commitIndex rf') = Some (currentTerm rf')) →
  ∃ acks' got', grown hist acks got hist acks' got' ∧ safeNodes n w (<[ac_src m := rf']> (nodes w)) ms hist acks' got'.
Proof.
  intros [V T] (full & I & SI) Hk Hs Hans H Hown. set (s := ac_src m) in *.
  set (op := OpEntriesReply (Z.of_nat (ac_dst m)) (ac_args m) (Some reply)).
  assert (voteStep rf rf') as Hv by (by apply (quiet_voteStep rf op)).
  destruct (quiet_log rf op rf' H) as [Hlog Hlii]. destruct (term_vote rf op rf' H) as (_ & Hme & Hp & _).
  destruct (vi_nodes _ _ _ _ V _ _ Hs) as [Hwf _ _ Hme0 Hp0].
  destruct (full_lookup _ _ _ _ _ _ _ I Hs) as (F & HF & Hsh & _).
  pose proof (si_msgs SI) as Hmsg. rewrite Forall_forall in Hmsg.
  destruct (Hmsg m (list_elem_of_lookup_2 _ _ _ Hk)) as [_ _ Hstored]. specialize (Hstored _ Hans).
  pose proof (si_peer SI _ _ _ Hs HF) as P. simpl in H.
  assert (state rf' = LEADER → ∀ v k0, matchIndex rf' !! v = Some k0 →
    k0 ≤ 0 ∨ acks v (currentTerm rf) k0 ∨ settled n hist acks (currentTerm rf) k0) as Hm.
  { intros Hst v k0 Hk0. destruct (vs_lead _ _ Hv Hst) as [_ Hst0].
    destruct (handleReply_match _ _ _ _ _ H Hst v k0 Hk0) as [?|(Hvd & -> & Hsucc & Hterm)]; [by apply (ps_match _ _ _ _ _ _ _ P)|].
    right. simpl in Hterm, Hsucc. rewrite <-Hterm. assert (v = ac_dst m) as -> by lia. by apply Hstored. }
  assert (logInv (<[s:=rf']> (nodes w)) (leaders w) ms full hist) as I' by (by eapply logInv_same).
  destruct (handleReply_commit _ _ _ _ _ Hwf H) as [Hci|(Hst & Hst' & _ & _ & Hlt & Hmaj & _)].
  { exists acks, got. split; [apply grown_refl|]. exists full. split; [done|]. eapply safe_kept; try done; [by left|].
    intros Hst v k0 Hk0. right. by apply Hm. }
  destruct (vs_lead _ _ Hv Hst') as [Hct _]. rewrite Hct in Hown. specialize (Hown ltac:(lia)).
  assert (termAt rf (commitIndex rf') = Some (currentTerm rf)) as Hown'.
  { unfold termAt, realIndex in *. by rewrite Hlog, Hlii in Hown. }
  pose proof (ps_range _ _ _ _ _ _ _ P) as [Pc Pg].
  destruct (leader_commits n (nodes w) (grants w) (leaders w) (calls w) ms full hist acks got s rf rf')
    as (acks' & Hmore & SI' & Hheld); try done; [congruence|congruence|lia|by apply Hm|by rewrite <-Hp0|].
  exists acks', (raise s (commitIndex rf') got). split; [by apply raise_grown|]. exists full. split; [done|].
  rewrite <-(list_insert_id full s F HF).
  eapply safe_node; [exact SI'|apply I|exact Hs|exact HF|lia|by rewrite Hst'| |by intros; apply raise_other].
  rewrite raise_same. eapply peer_kept; [apply peer_raised; [by apply (si_peer SI')|exact Hheld]|lia|done..|lia|].
  rewrite Hct. intros _ v k0 Hk0. destruct (Hm Hst' v k0 Hk0) as [?|[?|?]]; [by left|right; left; auto|right; right].
  by eapply settled_more.
Qed.

End safety.
Arguments si_hist {C n nds gs ls cs ms full hist acks got}.
Arguments si_peer {C n nds gs ls cs ms full hist acks got}.
Arguments si_ack {C n nds gs ls cs ms full hist acks got}.
Arguments si_grant {C n nds gs ls cs ms full hist acks got}.
Arguments si_call {C n nds gs ls cs ms full hist acks got}.
Arguments si_led {C n nds gs ls cs ms full hist acks got}.
Arguments si_msgs {C n nds gs ls cs ms full hist acks got}.
