(* ===== verification/RaftSafety.v ===== *)
(** State machine safety of the cluster of [RaftCluster]: the installation of snapshots, the
    steps of the cluster with the invariant of [RaftCommit], and the theorems. *)
From S2P Require Import Prelude Labgob Persister Raft RaftLog RaftNode RaftProps RaftService RaftElection RaftCluster RaftMatching RaftCommit.
#[local] Open Scope Z_scope.

Section safety.
Context {C : Type} `{!Gob Z, !Gob (list (Log C))}.
Implicit Types (rf : Raft C) (F G : list (Log C)) (hist : Z → list (Log C)) (m : AppendCall C)
  (acks : nat → Z → Z → Prop) (got : nat → Z) (nds : list (Raft C)) (gs : list (nat * Z * nat)) (ls : list (nat * Z))
  (cs : list VoteCall) (ms : list (AppendCall C)) (full : list (list (Log C))) (sns : list SnapCall) (os : list (nat * ApplyMsg C)).
Abbreviation termOf m := (aea_Term (ac_args m)).

(** ** Snapshots *)

(** The position of a snapshot that a peer installs in place of its log, [F] ending before:
    what [F] had of term [t0] is there, or the leader of term [t] does not have it. *)
Lemma replaced_has n nds gs ls cs ms full hist acks got F t i index t0 j :
  safeInv n nds gs ls cs ms full hist acks got → logInv nds ls ms full hist →
  committed n hist acks t i → index ≤ i → coherent hist F → len F ≤ index + 1 → has F t0 j →
  has (take (Z.to_nat (index + 1)) (hist t)) t0 j ∨ (t0 < t ∧ ¬ has (hist t) t0 j).
Proof.
  intros SI I Hc Hi Hco Hlen HF. destruct (has_in _ _ _ _ Hco HF) as (e & He & Het & Hhe).
  pose proof (go_index_Some_lt _ _ _ He) as Hr.
  assert ((take (Z.to_nat (index + 1)) (hist t)).[j] = (hist t).[j]) as Htake by (apply go_index_take; lia).
  unfold has at 1. rewrite Htake. destruct (decide (t0 < t)).
  - destruct (decide (has (hist t) t0 j)); [by left|by right].
  - left. rewrite <-(leader_agrees n nds gs ls cs ms full hist acks got t i t0 j); [by rewrite Hhe; simpl; rewrite Het|done..|lia| |lia].
    intros E. rewrite E in Hhe. by apply go_index_Some_lt in Hhe as [? ?%Z.nle_gt].
Qed.

Lemma install_held n nds gs ls cs ms full hist acks got F g rf term index snap rf' b :
  safeInv n nds gs ls cs ms full hist acks got → logInv nds ls ms full hist → 0 < len (log rf) →
  CondInstallSnapshot rf term index snap = Some (rf', b) → commitIndex rf < index → 0 ≤ commitIndex rf →
  placed n hist acks (currentTerm rf) index term → (g ≤ 0 ∧ headShown F rf ∨ held n hist acks rf g) →
  held n hist acks rf' (Z.max g index).
Proof.
  intros SI I Hpos H Hci H0 (t & i & Hc & Hi & Ht & Hhas) Hk.
  destruct (CondInstall_cases _ _ _ _ _ _ H) as [[? _]|(_ & Hlii & _ & Hct & _ & _ & Hlog)]; [lia|].
  destruct (decide (g ≤ index)) as [Hle|Hgt].
  - rewrite Z.max_r by done. exists t, i. rewrite Hlii, Hct.
    assert (∃ tl, log rf' = mkLog None term :: tl) as [tl Hhd] by (case_decide; [destruct Hlog; eauto|eauto]).
    split_and!; [done..|lia| | |intros; lia].
    + unfold getLastLogIndex, logicIndex. rewrite Hlii, Hhd, len_cons. pose proof (len_nonneg tl). lia.
    + unfold termAt, realIndex. by rewrite Hlii, Z.sub_diag, Hhd, Hhas.
  - rewrite Z.max_l by lia. destruct Hk as [[? _]|Hk]; [lia|].
    pose proof Hk as (_ & _ & _ & _ & _ & Hr & _). rewrite decide_True in Hlog by lia. destruct Hlog as [Hri Hlog].
    eapply held_trim; [exact Hk|done..|lia|exact Hlog|]. simpl. intros t0 i0 Hc0 Hi0 _ _. rewrite <-Hhas. f_equal.
    eapply committed_agree; [exact SI|exact I|exact Hc0|exact Hc|lia|lia].
Qed.

(** A peer [rf] installs a snapshot of a committed position and becomes [rf']. *)
Section install.
Context (n : nat) (w : World C) (ms : list (AppendCall C)) (full : list (list (Log C)))
  (hist : Z → list (Log C)) (acks : nat → Z → Z → Prop) (got : nat → Z).
Context (V : votesInv n (nodes w) (grants w) (leaders w)) (I : logInv (nodes w) (leaders w) ms full hist)
  (SI : safeInv n (nodes w) (grants w) (leaders w) (calls w) ms full hist acks got).
Context (s : nat) (rf rf' : Raft C) (F : list (Log C)) (term index : Z) (snap : list byte) (b : bool).
Context (Hs : nodes w !! s = Some rf) (HF : full !! s = Some F)
  (H : CondInstallSnapshot rf term index snap = Some (rf', b)) (Hci : commitIndex rf < index).
Context (t i : Z) (Hc : committed n hist acks t i) (Hi : index ≤ i) (Ht : t ≤ currentTerm rf) (Hhas : has (hist t) term index).

Lemma installed_len : 0 < len (log rf).
Proof using V Hs. apply (no_wf _ _ _ (vi_nodes _ _ _ _ V _ _ Hs)). Qed.

Lemma installed_peer F' :
  (∀ j e, F'.[j] = Some e → Term e ≤ currentTerm rf) →
  (∀ t k, acks s t k → ∀ j, j ≤ k → has (hist t) t j → has F' t j ∨ lost hist t (currentTerm rf + 1) j) →
  aloneShown F' rf' → peerSafe n hist acks (raise s index got s) s rf' F'.
Proof using V I SI Hs HF H Hci Hc Hi Ht Hhas.
  intros H1 H2 H3. pose proof (si_peer SI _ _ _ Hs HF) as [Pt Pa Pm [Pc Pg] Pk Po].
  destruct (CondInstall_cases _ _ _ _ _ _ H) as [[? _]|(_ & Hlii & Hci' & Hct & Hst & Hm & _)]; [lia|].
  rewrite raise_same. constructor; rewrite ?Hct, ?Hci', ?Hlii, ?Hst, ?Hm; try done; [|lia|right].
  - intros t0 k Hack. destruct (Pa t0 k Hack). split; [done|]. by apply H2.
  - eapply install_held; [exact SI|exact I|exact installed_len|exact H|done|lia| |exact Pk]. by exists t, i.
Qed.

(** A leader has the position. *)
Lemma leader_has : state rf = LEADER → Term <$> F.[index] = Some term ∧ index ≤ getLastLogIndex rf.
Proof using V I SI Hs HF Hc Hi Ht Hhas.
  intros Hl. destruct (li_node _ _ _ _ _ I _ _ _ Hs HF) as [Hsh _].
  destruct (li_leader _ _ _ _ _ I _ _ Hs Hl) as [HF' _]. rewrite HF in HF'. injection HF' as HF'.
  assert (Term <$> F.[index] = Some term) as E.
  { rewrite <-Hhas, HF'. f_equal. eapply leader_agrees; [exact SI|exact I|exact Hc|done| |done]. rewrite <-HF'. intros E.
    pose proof (sh_len _ _ Hsh) as Hl'. pose proof (sh_lii _ _ Hsh). pose proof installed_len. rewrite E in Hl'.
    change (len []) with 0 in Hl'. lia. }
  split; [done|]. apply fmap_Some in E as (e & He%go_index_Some_lt & _). rewrite (sh_len _ _ Hsh) in He.
  unfold getLastLogIndex, logicIndex. lia.
Qed.

(** The log goes on after the position: its rest stays. *)
Lemma install_keeps :
  index < getLastLogIndex rf ∨ state rf = LEADER →
  safeNodes n w (<[s := rf']> (nodes w)) ms hist acks (raise s index got).
Proof using V I SI Hs HF H Hci Hc Hi Ht Hhas.
  intros Hkeep. pose proof (si_peer SI _ _ _ Hs HF) as [Pt Pa _ _ _ _].
  destruct (CondInstall_cases _ _ _ _ _ _ H) as [[? _]|(_ & Hlii & _ & Hct & Hst & _ & Hlog)]; [lia|].
  exists full. split.
  - eapply install_kept; [exact I|exact Hs|exact installed_len|exact H|done| |].
    + destruct Hkeep; [lia|by apply leader_has].
    + intros F' HF' Hl. assert (F' = F) as -> by congruence. by apply leader_has.
  - rewrite <-(list_insert_id full s F HF).
    eapply safe_node; [exact SI|apply I|exact Hs|exact HF|lia| | |by intros; apply raise_other].
    + rewrite Hst. intros ?. right. split_and!; [done..|]. intros _. apply worth_refl.
    + apply installed_peer; [done|intros; by eapply Pa|]. intros E.
      destruct Hkeep as [Hlt|Hl]; [exfalso|by eapply install_headShown, leader_has].
      rewrite decide_True in Hlog by done. destruct Hlog as [Hr Hlog].
      unfold getLastLogIndex, logicIndex in E, Hlt. rewrite Hlii, Hlog, len_cons, len_drop in E by lia.
      unfold realIndex in *. lia.
Qed.

(** The log ends before the position: the snapshot replaces it. *)
Lemma install_resets :
  getLastLogIndex rf ≤ index → state rf ≠ LEADER →
  safeNodes n w (<[s := rf']> (nodes w)) ms hist acks (raise s index got).
Proof using V I SI Hs HF H Hci Hc Hi Ht Hhas.
  intros Hlast Hnl. destruct (li_node _ _ _ _ _ I _ _ _ Hs HF) as [Hsh Hco].
  pose proof (si_peer SI _ _ _ Hs HF) as [Pt Pa _ _ _ _].
  destruct (CondInstall_cases _ _ _ _ _ _ H) as [[? _]|(_ & _ & _ & Hct & Hst & _ & _)]; [lia|].
  assert (len F ≤ index + 1) as HlenF.
  { rewrite (sh_len _ _ Hsh). unfold getLastLogIndex, logicIndex in Hlast. lia. }
  assert (∀ t0 j, has F t0 j → has (take (Z.to_nat (index + 1)) (hist t)) t0 j ∨ (t0 < t ∧ ¬ has (hist t) t0 j)) as Hrep
    by (intros; by eapply replaced_has).
  pose proof (has_nonempty _ _ _ (proj1 Hc)) as Hne.
  exists (<[s := take (Z.to_nat (index + 1)) (hist t)]> full). split; [eapply install_reset; done|].
  eapply safe_node; [exact SI|apply I|exact Hs|exact HF|lia| | |by intros; apply raise_other].
  - rewrite Hst. intros ?. right. split_and!; [done..|]. intros Hnil t0 j Ht0 Hj.
    destruct (Hrep t0 j Hj) as [?|[? ?]]; [by left|right].
    exists t. split_and!; [done| |done..]. destruct (decide (t = currentTerm rf)) as [->|]; [done|lia].
  - apply installed_peer.
    + intros j e He. transitivity t; [|done]. apply (si_hist SI t j). rewrite <-He. symmetry. apply go_index_take.
      apply go_index_Some_lt in He. unfold len in He. rewrite length_take in He. lia.
    + intros t0 k Hack j Hj Hh. destruct (proj2 (Pa t0 k Hack) j Hj Hh) as [Hj'|?]; [|by right].
      destruct (Hrep t0 j Hj') as [?|[? ?]]; [by left|right]. exists t. split_and!; [done|lia|done..].
    + intros _. by eapply install_replaces.
Qed.
End install.

(** A peer installs a snapshot of a committed position. *)
Lemma snapshot_installed n w ms hist acks got s rf term index snap rf' b :
  worldInv n w → safeWorld n w ms hist acks got → nodes w !! s = Some rf →
  CondInstallSnapshot rf term index snap = Some (rf', b) →
  (commitIndex rf < index → placed n hist acks (currentTerm rf) index term) →
  ∃ got', grown hist acks got hist acks got' ∧ safeNodes n w (<[s := rf']> (nodes w)) ms hist acks got'.
Proof.
  intros [V T] (full & I & SI) Hs H Hpl. destruct (full_lookup _ _ _ _ _ _ _ I Hs) as (F & HF & _).
  destruct (CondInstall_cases _ _ _ _ _ _ H) as [[_ ->]|[Hci _]].
  { exists got. split; [apply grown_refl|]. rewrite list_insert_id by done. by exists full. }
  destruct (Hpl Hci) as (t & i & Hc & Hi & Ht & Hhas). exists (raise s index got). split; [by apply raise_grown|].
  destruct (decide (index < getLastLogIndex rf ∨ state rf = LEADER)) as [Hkeep|Hreset].
  - by eapply (install_keeps n w ms full).
  - eapply (install_resets n w ms full); try done.
    + apply Z.nlt_ge. intros ?. apply Hreset. by left.
    + intros ?. apply Hreset. by right.
Qed.

(** ** Snapshots on their way *)

(** A call says what its sender had committed; the sender is not behind the term of the call. *)
Record snapOk (n : nat) nds hist acks (m : SnapCall) : Prop := {
  so_term : ∀ rf, nds !! sc_src m = Some rf → isa_Term (sc_args m) ≤ currentTerm rf;
  so_index : sc_index m = isa_LastIncludedIndex (sc_args m);
  so_placed : isa_LastIncludedIndex (sc_args m) ≤ 0 ∨
    placed n hist acks (isa_Term (sc_args m)) (isa_LastIncludedIndex (sc_args m)) (isa_LastIncludedTerm (sc_args m));
}.

Definition offerOk (n : nat) nds hist acks (o : nat * ApplyMsg C) : Prop :=
  ∀ rf, nds !! o.1 = Some rf → placed n hist acks (currentTerm rf) (SnapshotIndex o.2) (SnapshotTerm o.2).

Definition snapInv (n : nat) nds hist acks sns os : Prop :=
  Forall (snapOk n nds hist acks) sns ∧ Forall (offerOk n nds hist acks) os.

Definition termsUp nds nds' : Prop :=
  ∀ s rf', nds' !! s = Some rf' → ∃ rf, nds !! s = Some rf ∧ currentTerm rf ≤ currentTerm rf'.

Lemma termsUp_refl nds : termsUp nds nds.
Proof. intros s rf Hs. by exists rf. Qed.

Lemma termsUp_insert nds s rf rf' :
  nds !! s = Some rf → currentTerm rf ≤ currentTerm rf' → termsUp nds (<[s := rf']> nds).
Proof. intros Hs Ht j r [(-> & <- & _)|[_ Hj]]%list_lookup_insert_Some; [by exists rf|by exists r]. Qed.

Lemma rexec_termsUp n c r c' : worldInv n (world c) → rexec c r = Some c' → termsUp (nodes (world c)) (nodes (world c')).
Proof.
  intros [V _] [(s & _ & rf & rf' & Hs & Hx & ->)|Hr]%rexec_moves.
  - eapply termsUp_insert; [done|].
    destruct (Make_recovers rf (no_durable _ _ _ (vi_nodes _ _ _ _ V _ _ Hs))) as (rf2 & Hx2 & Hrec).
    rewrite Hx in Hx2. injection Hx2 as <-. by rewrite (rec_term _ _ Hrec).
  - refine (runs_each (λ rf rf', currentTerm rf ≤ currentTerm rf') r _ _ _ _ Hr); [done|].
    intros _ rf op rf2 _ _ Hx. by apply (term_vote _ _ _ Hx).
Qed.

Lemma committed_grown n hist acks got hist' acks' got' t i :
  grown hist acks got hist' acks' got' → committed n hist acks t i → committed n hist' acks' t i.
Proof.
  intros (Hh & Ha & _) (Hi & Q & HQ1 & HQ2 & HQ3). split.
  - apply fmap_Some in Hi as (x & Hx & Hxt). unfold has. by rewrite (Hh _ _ _ Hx), Hxt.
  - exists Q. split_and!; [done..|]. intros v Hv. destruct (HQ3 v Hv) as (? & k & ? & ?). split; [done|]. exists k. auto.
Qed.

Lemma placed_grown n hist acks got hist' acks' got' u u' k e :
  grown hist acks got hist' acks' got' → u ≤ u' → placed n hist acks u k e → placed n hist' acks' u' k e.
Proof.
  intros Hg Hu (t & i & Hc & Hk & Ht & He). exists t, i. split_and!; [by eapply committed_grown|done|lia|].
  destruct Hg as [Hh _]. apply fmap_Some in He as (x & Hx & Hxt). unfold has. by rewrite (Hh _ _ _ Hx), Hxt.
Qed.

Lemma snapOk_moves n nds nds' hist acks got hist' acks' got' (m : SnapCall) :
  grown hist acks got hist' acks' got' → termsUp nds nds' → snapOk n nds hist acks m → snapOk n nds' hist' acks' m.
Proof.
  intros Hg Hup [H1 H2 H3]. constructor; [|done|].
  - intros rf' Hs. destruct (Hup _ _ Hs) as (rf & Hs' & ?). specialize (H1 _ Hs'). lia.
  - destruct H3; [by left|right]. by eapply placed_grown.
Qed.

Lemma snapInv_moves n nds nds' hist acks got hist' acks' got' sns os :
  grown hist acks got hist' acks' got' → termsUp nds nds' → snapInv n nds hist acks sns os →
  snapInv n nds' hist' acks' sns os.
Proof.
  intros Hg Hup [HS HO]. split; [eapply Forall_impl; [exact HS|]; intros m; by eapply snapOk_moves|].
  eapply Forall_impl; [exact HO|]. intros o Ho rf' Hs. destruct (Hup _ _ Hs) as (rf & Hs' & ?).
  eapply placed_grown; [done..|by apply Ho].
Qed.

Lemma setSnap_ok n nds hist acks k (m : SnapCall) st sns :
  Forall (snapOk n nds hist acks) sns → sns !! k = Some m → Forall (snapOk n nds hist acks) (<[k := setSnap st m]> sns).
Proof.
  intros Hms Hk. apply Forall_insert; [done|]. rewrite Forall_lookup in Hms. by destruct (Hms k m Hk); constructor.
Qed.

Lemma onRoundBegin_snapshot rf server args index :
  onRoundBegin rf server = Some (Some (SendSnapshot args index)) →
  state rf = LEADER ∧ index = lastIncludedIndex rf ∧
  args = mkISArgs (currentTerm rf) (me rf) (lastIncludedIndex rf) (lastIncludedTerm rf) (snapshot (persister rf)).
Proof.
  unfold onRoundBegin. intros H. apply bind_Some in H as (? & _ & H). case_if_in H; [done|].
  apply bind_Some in H as (nx & _ & H). case_if_in H; [|by repeat apply bind_Some in H as (? & _ & H)].
  injection H as <- <-. split_and!; [by apply dec_stable|done..].
Qed.

(** A leader sends its snapshot, whose term it has on its disk. *)
Lemma snapshot_sent n nds gs ls cs ms full hist acks got s rf F dst args index :
  safeInv n nds gs ls cs ms full hist acks got → nds !! s = Some rf → full !! s = Some F →
  onRoundBegin rf (Z.of_nat dst) = Some (Some (SendSnapshot args index)) →
  termAt rf (lastIncludedIndex rf) = Some (lastIncludedTerm rf) →
  snapOk n nds hist acks (mkSnapCall s dst args index Sent true).
Proof.
  intros SI Hs HF (_ & -> & ->)%onRoundBegin_snapshot Hdisk. constructor; simpl; [|done|].
  - intros rf2 Hs2. by assert (rf2 = rf) as -> by congruence.
  - destruct (si_peer SI _ _ _ Hs HF) as [_ _ _ [_ Pg] Pk _].
    destruct Pk as [[? _]|(t & i & Hc & Hki & Htu & _ & Hh & _)]; [left; lia|right].
    exists t, i. split_and!; [done|lia|done|]. unfold has. by rewrite <-Hh.
Qed.

(** What [InstallSnapshot] offers to the service. *)
Lemma InstallSnapshot_offers rf args rf' reply eff s o :
  InstallSnapshot rf args = Some (rf', reply, eff) → o ∈ offered s eff →
  o.1 = s ∧ SnapshotIndex o.2 = isa_LastIncludedIndex args ∧ SnapshotTerm o.2 = isa_LastIncludedTerm args ∧
  commitIndex rf < isa_LastIncludedIndex args ∧ isa_Term args ≤ currentTerm rf'.
Proof.
  unfold InstallSnapshot. intros H Ho. apply bind_Some in H as (rf1 & Hrf1 & H).
  assert (commitIndex rf1 = commitIndex rf ∧ isa_Term args ≤ currentTerm rf1) as [Hci Ht].
  { case_if_in Hrf1; [apply toFollower_Some in Hrf1 as ->; simpl; lia|injection Hrf1 as <-; lia]. }
  case_if_in H; [injection H as <- <- <-; by apply elem_of_nil in Ho|].
  case_if_in H; injection H as <- <- <-; simpl in Ho; [by apply elem_of_nil in Ho|].
  apply list_elem_of_singleton in Ho as ->. simpl. split_and!; [done..|lia|lia].
Qed.

Lemma SnapshotReply_keeps rf server index reply rf' :
  onRoundSnapshotReply rf server index (Some reply) = Some rf' →
  commitIndex rf' = commitIndex rf ∧
  ∀ (v : nat) k, matchIndex rf' !! v = Some k → matchIndex rf !! v = Some k ∨ k = index.
Proof.
  unfold onRoundSnapshotReply. intros H. case_if_in H; [apply toFollower_Some in H as ->; simpl; auto|].
  apply bind_Some in H as (m & Hm & H). apply bind_Some in H as (mx & Hmx & H). apply bind_Some in H as (nx & Hnx & [= <-]).
  simpl. split; [done|]. apply go_store_inv in Hmx as [Hr ->].
  intros v k [(<- & <- & _)|[_ ?]]%list_lookup_insert_Some; [|by left]. unfold max_int. case_if; [by right|left].
  by rewrite go_index_nonneg in Hm by lia.
Qed.

(** ** The cluster *)

(** A step that keeps clear of the defects of the program that concern committed entries:
    [elect] is not overtaken by a change of term; a leader that moves its commit index moves
    it to an entry of its own term; no peer crashes, or sends its snapshot, while the term
    of its snapshot is not the one on its disk ([CondInstallSnapshot] forgets to set it).
    Services take snapshots of what they were given: [bound] says up to where. *)
Definition boundedStep (bound : nat → Raft C → Z) (c : Cluster C) (r : RAction C) : Prop :=
  match r with
  | RAct (AElectSend k) => sendsInTerm (world c) (AElectSend k)
  | RAct (ACrash s) =>
      ∀ rf, nodes (world c) !! s = Some rf → termAt rf (lastIncludedIndex rf) = Some (lastIncludedTerm rf)
  | RAct (ANode s (OpSnapshot index _)) =>
      ∀ rf, nodes (world c) !! s = Some rf → lastIncludedIndex rf < index → index ≤ bound s rf
  | RSend s dst =>
      ∀ rf args index, nodes (world c) !! s = Some rf →
        onRoundBegin rf (Z.of_nat dst) = Some (Some (SendSnapshot args index)) →
        termAt rf (lastIncludedIndex rf) = Some (lastIncludedTerm rf)
  | RReply k => ∀ c' s rf rf', rexec c r = Some c' →
      nodes (world c) !! s = Some rf → nodes (world c') !! s = Some rf' →
      commitIndex rf' ≠ commitIndex rf → termAt rf' (commitIndex rf') = Some (currentTerm rf')
  | _ => True
  end.

(** In a safe step the snapshot is not after the commit index. *)
Definition safeStep : Cluster C → RAction C → Prop := boundedStep (λ _, commitIndex).

Definition step (c c' : Cluster C) : Prop := ∃ r, safeStep c r ∧ rexec c r = Some c'.

Lemma boundedStep_elects bound c r : boundedStep bound c r → electsInTerm c r.
Proof. by destruct r as [[]| | | | | | | |]. Qed.

Definition safeCluster (n : nat) (c : Cluster C) hist acks got : Prop :=
  worldInv n (world c) ∧ safeWorld n (world c) (appends c) hist acks got ∧
  snapInv n (nodes (world c)) hist acks (snaps c) (offers c).

(** The commit index is not after what the peer has got. *)
Lemma commit_got n c hist acks got s rf :
  safeCluster n c hist acks got → nodes (world c) !! s = Some rf → commitIndex rf ≤ got s.
Proof.
  intros (_ & (full & I & SI) & _) Hs. destruct (full_lookup _ _ _ _ _ _ _ I Hs) as (F & HF & _).
  apply (ps_range _ _ _ _ _ _ _ (si_peer SI _ _ _ Hs HF)).
Qed.

Lemma commit_nonneg n c hist acks got s rf :
  safeCluster n c hist acks got → nodes (world c) !! s = Some rf → 0 ≤ commitIndex rf.
Proof.
  intros (_ & (full & I & SI) & _) Hs. destruct (full_lookup _ _ _ _ _ _ _ I Hs) as (F & HF & _).
  apply (ps_range _ _ _ _ _ _ _ (si_peer SI _ _ _ Hs HF)).
Qed.

Lemma safeStep_bounded n c hist acks got r :
  safeCluster n c hist acks got → safeStep c r → boundedStep (λ s _, got s) c r.
Proof.
  intros HC H. destruct r as [a| | | | | | | |]; try done. destruct a as [s op|s|k|k|k|k|s]; try done.
  destruct op; try done. intros rf Hs Hlt. pose proof (H rf Hs Hlt) as Hle. simpl in Hle. pose proof (commit_got _ _ _ _ _ _ _ HC Hs). lia.
Qed.

Lemma killCalls_safe n hist acks s ms :
  Forall (callSafe n hist acks) ms → Forall (callSafe n hist acks) (killCalls s ms).
Proof.
  intros Hms. apply Forall_fmap. eapply Forall_impl; [done|]. intros m [? ? ?]. simpl. case_match; by constructor.
Qed.

Lemma killSnaps_ok n nds hist acks s sns :
  Forall (snapOk n nds hist acks) sns → Forall (snapOk n nds hist acks) (killSnaps s sns).
Proof.
  intros Hms. apply Forall_fmap. eapply Forall_impl; [done|]. intros m [? ? ?]. simpl. case_match; by constructor.
Qed.

Lemma dropOffers_ok n nds hist acks s os :
  Forall (offerOk n nds hist acks) os → Forall (offerOk n nds hist acks) (dropOffers s os).
Proof.
  rewrite !Forall_forall. intros Ho o Hin. apply Ho. apply list_elem_of_In, filter_In in Hin as [Hin _].
  by apply list_elem_of_In.
Qed.

Lemma setOver_safe n hist acks k m ms :
  Forall (callSafe n hist acks) ms → ms !! k = Some m → Forall (callSafe n hist acks) (<[k := setAppend Over m]> ms).
Proof.
  intros Hms Hk. apply Forall_insert; [done|]. rewrite Forall_lookup in Hms. destruct (Hms k m Hk). by constructor.
Qed.

Lemma safeNodes_calls n w nds ms ms' hist acks got :
  (∀ ls, Forall (messageOk ls hist) ms → Forall (messageOk ls hist) ms') →
  (Forall (callSafe n hist acks) ms → Forall (callSafe n hist acks) ms') →
  safeNodes n w nds ms hist acks got → safeNodes n w nds ms' hist acks got.
Proof.
  intros H1 H2 (full & I & SI). exists full. split.
  - eapply logInv_calls; [done|]. apply H1, I.
  - eapply safe_msgs; [done|]. apply H2, SI.
Qed.

(** The steps of [RaftElection]. *)
Lemma safe_exec n c a w' hist acks got :
  worldInv n (world c) → worldInv n w' → safeWorld n (world c) (appends c) hist acks got →
  boundedStep (λ s _, got s) c (RAct a) → (∀ s op, a = ANode s op → callOp op = false) →
  exec (world c) a = Some w' →
  ∃ hist', grown hist acks got hist' acks got ∧ safeWorld n w' (appends c) hist' acks got.
Proof.
  intros W W' SW Hsafe Hop H. set (w := world c) in *. set (ms := appends c) in *.
  destruct a as [s op|s|k|k|k|k|s].
  - simpl in H. destruct (quiet op) eqn:Hq; [|done]. apply bind_Some in H as (rf & Hs & H).
    apply bind_Some in H as (rf' & Hx & [= <-]). specialize (Hop s op eq_refl).
    apply (local_step n w ms hist acks got s rf op rf'); try done; [by left|by destruct op|].
    intros index snap ->. by apply Hsafe.
  - simpl in H. apply bind_Some in H as (rf & Hs & H). apply bind_Some in H as ([rf' eff] & Hx & [= <-]).
    apply (local_step n w ms hist acks got s rf OpTickElect rf'); try done; [by right|]. simpl. by rewrite Hx.
  - exists hist. split; [apply grown_refl|]. exact (vote_sent n w w' k ms hist acks got W Hsafe H SW).
  - exists hist. split; [apply grown_refl|]. exact (vote_delivered n w w' k ms hist acks got W H SW).
  - exists hist. split; [apply grown_refl|]. simpl in H. apply bind_Some in H as (vc & Hc & [= <-]).
    destruct SW as (full & I & SI). exists full. split; [done|]. by apply safe_status.
  - exact (vote_answered n w w' k ms hist acks got W W' H SW).
  - exists hist. split; [apply grown_refl|]. exact (peer_crashed n w w' s ms hist acks got W H Hsafe SW).
Qed.

(** Every step of the cluster; the snapshots on their way apart. *)
Lemma calls_step n c r c' hist acks got :
  safeCluster n c hist acks got → worldInv n (world c') → boundedStep (λ s _, got s) c r → clusterStep c r c' →
  rexec c r = Some c' →
  ∃ hist' acks' got', grown hist acks got hist' acks' got' ∧ safeWorld n (world c') (appends c') hist' acks' got'.
Proof.
  intros (W & SW & HS & HO) W' Hsafe H Hrx.
  assert (∀ s rf op rf', nodes (world c) !! s = Some rf → quiet op = true → localOp op = true →
    nodeExec rf op = Some rf' → (∀ i sn, op ≠ OpSnapshot i sn) → ∀ ms',
    (∀ hist ls, Forall (messageOk ls hist) (appends c) → Forall (messageOk ls hist) ms') →
    (∀ hist acks, Forall (callSafe n hist acks) (appends c) → Forall (callSafe n hist acks) ms') →
    ∃ hist' acks' got', grown hist acks got hist' acks' got' ∧ safeNodes n (world c) (<[s := rf']> (nodes (world c))) ms' hist' acks' got')
    as Hlocal.
  { intros s rf op rf' Hs Hq Hl Hx Hno ms' H1 H2.
    destruct (local_step n (world c) (appends c) hist acks got s rf op rf') as (hist' & Hg & SW'); try done; [by left|by intros i sn ->; destruct (Hno i sn)|].
    exists hist', acks, got. split; [done|]. eapply safeNodes_calls; [| |exact SW']; auto. }
  destruct H as [a w' Hx Hop Hnc|s w' Hx|s dst rf args Hs Hd Hx|s dst rf args index Hs Hd Hx|k m rf rf' reply eff Hm Hst Hs Hx
    |k m rf rf' reply Hm Hst Hal Hs Hx|k m rf rf' Hm Hal Hs Hx|k m rf rf' reply eff Hm Hst Hs Hx
    |k m rf rf' reply Hm Hst Hal Hs Hx|k m rf rf' Hm Hal Hs Hx|k s msg rf rf' b Ho Hs Hx]; simpl in W' |- *.
  - destruct (safe_exec n c a w' hist acks got) as (hist' & Hg & SW'); try done. eauto.
  - destruct (safe_exec n c (ACrash s) w' hist acks got) as (hist' & Hg & SW'); try done.
    exists hist', acks, got. split; [done|]. eapply safeNodes_calls; [| |exact SW'].
    + intros ls. apply killCalls_ok.
    + apply killCalls_safe.
  - exists hist, acks, got. split; [apply grown_refl|]. by eapply entries_sent.
  - exists hist, acks, got. split; [apply grown_refl|done].
  - destruct (entries_handled n (world c) (appends c) hist acks got k m rf rf' reply eff) as (acks' & got' & ? & ?); eauto.
  - destruct (reply_handled n (world c) (appends c) hist acks got k m rf rf' reply) as (acks' & got' & Hg & SW'); try done.
    { apply (Hsafe _ (ac_src m) rf rf' Hrx Hs). simpl. apply list_lookup_insert_eq. by eapply lookup_lt_Some. }
    exists hist, acks', got'. split; [done|]. eapply safeNodes_calls; [| |exact SW'].
    + intros ls Hms. by apply setAppend_ok.
    + intros Hms. by apply setOver_safe.
  - apply (Hlocal _ rf (OpEntriesReply (Z.of_nat (ac_dst m)) (ac_args m) None) rf'); try done.
    + intros. by apply setAppend_ok.
    + intros. by apply setOver_safe.
  - apply (Hlocal _ rf (OpInstallSnapshot (sc_args m)) rf'); try done. simpl. by rewrite Hx.
  - exists hist, acks, got. split; [apply grown_refl|]. destruct SW as (full & I & SI). exists full.
    pose (op := OpSnapshotReply (C := C) (Z.of_nat (sc_dst m)) (sc_index m) (Some reply)).
    assert (voteStep rf rf') as Hv by (by apply (quiet_voteStep rf op)).
    destruct (quiet_log rf op rf' Hx) as [Hlog Hlii]. destruct (SnapshotReply_keeps _ _ _ _ _ Hx) as [Hci Hmatch].
    split; [by eapply logInv_same|]. eapply safe_kept; try done; [by left|]. intros _ v k0 Hk0.
    destruct (Hmatch v k0 Hk0) as [?| ->]; [by left|right]. rewrite Forall_lookup in HS.
    destruct (HS k m Hm) as [Hterm -> Hpl]. specialize (Hterm rf Hs).
    destruct Hpl as [?|Hpl%placed_settled]; [by left|right; right; by eapply settled_mono].
  - by apply (Hlocal _ rf (OpSnapshotReply (Z.of_nat (sc_dst m)) (sc_index m) None) rf').
  - rewrite Forall_lookup in HO. pose proof (HO k _ Ho rf Hs) as Hpl.
    destruct (snapshot_installed n (world c) (appends c) hist acks got s rf _ _ _ rf' b W SW Hs Hx) as (got' & ? & ?); [done|eauto].
Qed.

(** And these: what is sent and offered is committed. *)
Lemma snaps_step n c r c' hist acks got hist' acks' got' :
  safeCluster n c hist acks got → boundedStep (λ s _, got s) c r → clusterStep c r c' →
  grown hist acks got hist' acks' got' → termsUp (nodes (world c)) (nodes (world c')) →
  snapInv n (nodes (world c')) hist' acks' (snaps c') (offers c').
Proof.
  intros (W & (full & I & SI) & HI) Hsafe H Hg Hup. pose proof (snapInv_moves _ _ _ _ _ _ _ _ _ _ _ Hg Hup HI) as [HS' HO'].
  destruct H as [a w' Hx Hop Hnc|s w' Hx|s dst rf args Hs Hd Hx|s dst rf args index Hs Hd Hx|k m rf rf' reply eff Hm Hst Hs Hx
    |k m rf rf' reply Hm Hst Hal Hs Hx|k m rf rf' Hm Hal Hs Hx|k m rf rf' reply eff Hm Hst Hs Hx
    |k m rf rf' reply Hm Hst Hal Hs Hx|k m rf rf' Hm Hal Hs Hx|k s msg rf rf' b Ho Hs Hx]; simpl in Hup, HS', HO' |- *; try done.
  - split; [by apply killSnaps_ok|by apply dropOffers_ok].
  - split; [|done]. apply Forall_app; split; [done|]. constructor; [|done].
    destruct (full_lookup _ _ _ _ _ _ _ I Hs) as (F & HF & _).
    eapply snapOk_moves; [exact Hg|exact Hup|]. eapply snapshot_sent; try done. by apply (Hsafe rf args index).
  - split; [by apply setSnap_ok|]. apply Forall_app; split; [done|]. apply Forall_forall. intros o Ho rf2 Hs2.
    destruct (InstallSnapshot_offers _ _ _ _ _ _ _ Hx Ho) as (E & -> & -> & Hci & Ht). rewrite E in Hs2.
    rewrite list_lookup_insert_eq in Hs2 by (by eapply lookup_lt_Some). injection Hs2 as <-.
    destruct HI as [HS _]. rewrite Forall_lookup in HS. destruct (HS k m Hm) as [_ _ Hpl].
    destruct (full_lookup _ _ _ _ _ _ _ I Hs) as (F & HF & _).
    pose proof (ps_range _ _ _ _ _ _ _ (si_peer SI _ _ _ Hs HF)).
    destruct Hpl as [?|Hpl]; [lia|]. by eapply placed_grown.
  - split; [by apply setSnap_ok|done].
  - split; [by apply setSnap_ok|done].
  - split; [done|]. rewrite Forall_forall in HO' |- *. intros o Ho'. apply HO'.
    apply list_elem_of_lookup in Ho' as [j Hj]. apply list_elem_of_lookup.
    destruct (decide (j < k)%nat); [rewrite list_lookup_delete_lt in Hj by done|rewrite list_lookup_delete_ge in Hj by lia]; eauto.
Qed.

Lemma bounded_step n c r c' hist acks got :
  safeCluster n c hist acks got → boundedStep (λ s _, got s) c r → rexec c r = Some c' →
  ∃ hist' acks' got', grown hist acks got hist' acks' got' ∧ safeCluster n c' hist' acks' got'.
Proof.
  intros HC Hsafe H. pose proof HC as (W & _). pose proof (boundedStep_elects _ _ _ Hsafe) as Hel.
  pose proof (rexec_cases _ _ _ H) as Hcs.
  assert (worldInv n (world c') ∧ termsUp (nodes (world c)) (nodes (world c'))) as [W' Hup].
  { split; [|by eapply rexec_termsUp].
    destruct (rexec_world _ _ _ Hel H) as [->|(a & Ha & Hx)]; [done|by eapply worldInv_step]. }
  destruct (calls_step n c r c' hist acks got HC W' Hsafe Hcs H) as (hist' & acks' & got' & Hg & SW').
  exists hist', acks', got'. split; [done|]. split; [done|]. split; [done|]. by eapply snaps_step.
Qed.

Lemma safe_step n c r c' hist acks got :
  safeCluster n c hist acks got → safeStep c r → rexec c r = Some c' →
  ∃ hist' acks' got', grown hist acks got hist' acks' got' ∧ safeCluster n c' hist' acks' got'.
Proof. intros HC Hsafe. eapply bounded_step; [done|]. by eapply safeStep_bounded. Qed.

Lemma safe_init n c : initCluster (C := C) n = Some c → ∃ hist acks got, safeCluster n c hist acks got.
Proof.
  intros H. pose proof H as H0. unfold initCluster in H. apply bind_Some in H as (w & Hw & [= <-]).
  destruct (clusterInv_fresh _ _ H0) as (hist & I & Hh & Hterms). exists hist, (λ _ _ _, False), (λ _, 0).
  split; [by apply worldInv_init|]. split; [|by split]. simpl in *.
  unfold initWorld in Hw. apply bind_Some in Hw as (rfs & Hmk & [= <-]). apply mapM_Some in Hmk.
  exists (replicate (length rfs) [zero_Log]). split; [done|]. simpl in *. constructor; try done.
  - intros s rf F Hs HF. pose proof (Hh _ _ _ Hs HF) as Hhead. apply lookup_replicate in HF as [-> _].
    destruct (Forall2_lookup_r _ _ _ _ _ Hmk Hs) as (s' & _ & Hx).
    destruct (Make_fresh_log _ _ _ Hx) as (Hsh & _ & Hct & Hst).
    pose proof (Make_fresh_recovers _ _ _ Hx) as Hrec. pose proof (rec_commit _ _ Hrec) as Hci.
    pose proof (rec_lii _ _ Hrec) as Hlii. simpl in Hlii.
    constructor; try done; [|by rewrite Hst|lia|by left|by intros _].
    intros i e He. pose proof (go_index_Some_lt _ _ _ He) as Hr. change (len [zero_Log]) with 1 in Hr.
    assert (i = 0) as -> by lia. injection He as <-. simpl. lia.
  - by intros v u c rf F ?%not_elem_of_nil.
  - by intros c u ?%not_elem_of_nil.
Qed.

Lemma safe_steps n c c' hist acks got :
  rtc step c c' → safeCluster n c hist acks got →
  ∃ hist' acks' got', grown hist acks got hist' acks' got' ∧ safeCluster n c' hist' acks' got'.
Proof.
  intros Hr. revert hist acks got. induction Hr as [c|c c1 c' (r & Hs & Hx) _ IH]; intros hist acks got HC.
  - exists hist, acks, got. split; [apply grown_refl|done].
  - destruct (safe_step _ _ _ _ _ _ _ HC Hs Hx) as (hist1 & acks1 & got1 & Hg & HC1).
    destruct (IH _ _ _ HC1) as (hist2 & acks2 & got2 & Hg2 & HC2). exists hist2, acks2, got2. eauto using grown_later.
Qed.

Lemma safe_reachable n c : creachable safeStep n c → ∃ hist acks got, safeCluster n c hist acks got.
Proof.
  induction 1 as [c Hi|c r c' _ (hist & acks & got & IH) Hs Hx]; [by eapply safe_init|].
  destruct (safe_step _ _ _ _ _ _ _ IH Hs Hx) as (hist' & acks' & got' & _ & ?). eauto.
Qed.

(** The entry [e] at [j] is chosen by term [u]: it stands there in the history of a term up
    to [u] with a committed entry at or after [j]. *)
Definition chosen (n : nat) hist acks (u j : Z) (e : Log C) : Prop :=
  ∃ t i, committed n hist acks t i ∧ j ≤ i ∧ t ≤ u ∧ (hist t).[j] = Some e.

Lemma chosen_grown n hist acks got hist' acks' got' u j e :
  grown hist acks got hist' acks' got' → chosen n hist acks u j e → chosen n hist' acks' u j e.
Proof.
  intros Hg (t & i & Hc & Hj & Hu & He). exists t, i. split_and!; [by eapply committed_grown|done|done|by apply Hg].
Qed.

(** Every later leader has a chosen entry. *)
Lemma chosen_kept n nds gs ls cs ms full hist acks got u j e t :
  safeInv n nds gs ls cs ms full hist acks got → logInv nds ls ms full hist →
  chosen n hist acks u j e → u ≤ t → hist t ≠ [] → (hist t).[j] = Some e.
Proof.
  intros SI I (t0 & i & Hc & Hj & Hu & He) Ht Hne. rewrite <-He.
  eapply leader_agrees; [exact SI|exact I|exact Hc|lia|done|done].
Qed.

Lemma chosen_entry_unique n nds gs ls cs ms full hist acks got u1 u2 j e1 e2 :
  safeInv n nds gs ls cs ms full hist acks got → logInv nds ls ms full hist →
  chosen n hist acks u1 j e1 → chosen n hist acks u2 j e2 → e1 = e2.
Proof.
  intros SI I (t1 & i1 & Hc1 & Hj1 & _ & He1) (t2 & i2 & Hc2 & Hj2 & _ & He2).
  pose proof (committed_agree _ _ _ _ _ _ _ _ _ _ _ _ _ _ j SI I Hc1 Hc2 Hj1 Hj2). congruence.
Qed.

Lemma updateApplied_messages rf rf' msgs a :
  lastIncludedIndex rf ≤ lastApplied rf → commitIndex rf ≤ getLastLogIndex rf →
  updateApplied rf = Some (rf', msgs) → a ∈ msgs →
  ∃ e, lastIncludedIndex rf < CommandIndex a ≤ commitIndex rf ∧
    entryAt rf (CommandIndex a) = Some e ∧ am_Command a = Command e.
Proof.
  intros Hlo Hhi H Ha. destruct (updateApplied_spec rf) as (rf2 & ms & Hx & _ & Hlen & Hall); [lia..|].
  rewrite H in Hx. injection Hx as <- <-. apply list_elem_of_lookup in Ha as [k Hk].
  pose proof (lookup_lt_Some _ _ _ Hk) as Hlt.
  specialize (Hall (Z.of_nat k)). rewrite go_index_of_nat, Hk in Hall. unfold len in *.
  destruct (go_index_lt_Some (log rf) (realIndex rf (lastApplied rf + 1 + Z.of_nat k))) as [l Hl].
  { unfold getLastLogIndex, logicIndex, realIndex, len in *. lia. }
  specialize (Hall ltac:(lia)). unfold applyMsgAt in Hall. rewrite Hl in Hall. injection Hall as ->. simpl.
  exists l. split_and!; [lia..|exact Hl|done].
Qed.

Lemma applied_range n c hist acks got s rf :
  safeCluster n c hist acks got → nodes (world c) !! s = Some rf →
  commitIndex rf ≤ getLastLogIndex rf ∧ 0 ≤ lastIncludedIndex rf.
Proof.
  intros ([V T] & (full & I & SI) & _) Hs. destruct (full_lookup _ _ _ _ _ _ _ I Hs) as (F & HF & Hsh & _).
  destruct (si_peer SI _ _ _ Hs HF) as [_ _ _ [Pc Pg] Pk _]. pose proof (sh_lii _ _ Hsh).
  pose proof (wf_log _ (no_wf _ _ _ (vi_nodes _ _ _ _ V _ _ Hs))) as Hpos. split; [|done].
  destruct Pk as [[? _]|(t & i & _ & _ & _ & ? & _)]; [unfold getLastLogIndex, logicIndex|]; lia.
Qed.

(** What a peer applies is chosen. *)
Lemma applied_chosen n c hist acks got s rf rf' msgs a :
  safeCluster n c hist acks got → nodes (world c) !! s = Some rf → lastIncludedIndex rf ≤ lastApplied rf →
  updateApplied rf = Some (rf', msgs) → a ∈ msgs →
  ∃ e, chosen n hist acks (currentTerm rf) (CommandIndex a) e ∧ am_Command a = Command e.
Proof.
  intros HC Hs Hlo H Ha. destruct (applied_range _ _ _ _ _ _ _ HC Hs) as [Hhi H0].
  destruct HC as (_ & (full & I & SI) & _). destruct (full_lookup _ _ _ _ _ _ _ I Hs) as (F & HF & Hsh & _).
  destruct (updateApplied_messages _ _ _ _ Hlo Hhi H Ha) as (e & Hr & Hent & ->). exists e. split; [|done].
  destruct (si_peer SI _ _ _ Hs HF) as [_ _ _ [Pc Pg] Pk _].
  destruct Pk as [[? _]|(t & i & Hc & Hki & Htu & _ & _ & Hag)]; [lia|]. exists t, i. split_and!; [done|lia|done|].
  rewrite <-Hag by lia. exact Hent.
Qed.

(** So is the position of a snapshot that a peer installs. *)
Lemma installed_placed n c hist acks got k s msg rf :
  safeCluster n c hist acks got → offers c !! k = Some (s, msg) → nodes (world c) !! s = Some rf →
  ∃ e, chosen n hist acks (currentTerm rf) (SnapshotIndex msg) e ∧ Term e = SnapshotTerm msg.
Proof.
  intros (_ & _ & _ & HO) Ho Hs. rewrite Forall_lookup in HO.
  destruct (HO k _ Ho rf Hs) as (t & i & Hc & Hi & Ht & (e & He & Het)%fmap_Some). exists e. split; [|done].
  by exists t, i.
Qed.

(** C2: state machine safety. In a run of the cluster, with calls lost, delayed and reordered,
    elections, crashes, and snapshots that are taken, sent and installed, whose steps are
    [safeStep]s ([elect] is not overtaken by a change of term; a leader that moves its commit
    index moves it to an entry of its own term; a service takes snapshots up to the commit index
    of its peer; when a peer crashes or sends its snapshot, the term of the snapshot is the one
    on its disk): whatever peer [s1] hands to its service at an index, no peer, then or at any
    later time, across any number of crashes and elections, hands its service another command at
    that index, provided neither has its [lastApplied] behind its snapshot at that moment (after
    a restart it can be: [restart_apply_panics]). *)
Theorem state_machine_safety n c1 c2 s1 s2 rf1 rf2 rf1' rf2' msgs1 msgs2 a1 a2 :
  creachable safeStep n c1 → rtc step c1 c2 →
  nodes (world c1) !! s1 = Some rf1 → nodes (world c2) !! s2 = Some rf2 →
  lastIncludedIndex rf1 ≤ lastApplied rf1 → lastIncludedIndex rf2 ≤ lastApplied rf2 →
  updateApplied rf1 = Some (rf1', msgs1) → updateApplied rf2 = Some (rf2', msgs2) →
  a1 ∈ msgs1 → a2 ∈ msgs2 → CommandIndex a1 = CommandIndex a2 →
  am_Command a1 = am_Command a2.
Proof.
  intros Hr Hrtc H1 H2 Hlo1 Hlo2 Hu1 Hu2 Ha1 Ha2 Heq.
  destruct (safe_reachable _ _ Hr) as (hist & acks & got & HC1).
  destruct (safe_steps _ _ _ _ _ _ Hrtc HC1) as (hist2 & acks2 & got2 & Hg & HC2).
  destruct (applied_chosen _ _ _ _ _ _ _ _ _ _ HC1 H1 Hlo1 Hu1 Ha1) as (e1 & Hc1 & ->).
  destruct (applied_chosen _ _ _ _ _ _ _ _ _ _ HC2 H2 Hlo2 Hu2 Ha2) as (e2 & Hc2 & ->).
  f_equal. rewrite <-Heq in Hc2. destruct HC2 as (_ & (full & I & SI) & _).
  eapply chosen_entry_unique; [exact SI|exact I| |exact Hc2]. by eapply chosen_grown.
Qed.

(** C3: leader completeness. In a run of [safeStep]s (as for [state_machine_safety]), an entry
    that a peer whose [lastApplied] is not behind its snapshot has handed to its service is in
    the log of every peer that leads then or later, in a term at least as high as the first peer
    has, unless a snapshot of that leader has cut it off. *)
Theorem leader_completeness n c1 c2 s1 s2 rf1 rf2 rf1' msgs1 a :
  creachable safeStep n c1 → rtc step c1 c2 →
  nodes (world c1) !! s1 = Some rf1 → nodes (world c2) !! s2 = Some rf2 →
  lastIncludedIndex rf1 ≤ lastApplied rf1 → updateApplied rf1 = Some (rf1', msgs1) → a ∈ msgs1 →
  state rf2 = LEADER → currentTerm rf1 ≤ currentTerm rf2 → lastIncludedIndex rf2 < CommandIndex a →
  ∃ e, entryAt rf2 (CommandIndex a) = Some e ∧ Command e = am_Command a.
Proof.
  intros Hr Hrtc H1 H2 Hlo Hu Ha Hst Hterm Hcut.
  destruct (safe_reachable _ _ Hr) as (hist & acks & got & HC1).
  destruct (safe_steps _ _ _ _ _ _ Hrtc HC1) as (hist2 & acks2 & got2 & Hg & HC2).
  destruct (applied_chosen _ _ _ _ _ _ _ _ _ _ HC1 H1 Hlo Hu Ha) as (e & Hc & ->).
  destruct HC2 as ([V T] & (full & I & SI) & _).
  apply (chosen_grown _ _ _ _ _ _ _ _ _ _ Hg) in Hc. exists e. split; [|done].
  destruct (full_lookup _ _ _ _ _ _ _ I H2) as (F & HF & Hsh & _).
  destruct (li_leader _ _ _ _ _ I _ _ H2 Hst) as [HF' _]. rewrite HF' in HF. injection HF as HF.
  rewrite <-(sh_entries _ _ Hsh _ Hcut), <-HF.
  eapply chosen_kept; [exact SI|exact I|exact Hc|exact Hterm|]. rewrite HF. intros E.
  pose proof (wf_log _ (no_wf _ _ _ (vi_nodes _ _ _ _ V _ _ H2))) as Hpos.
  pose proof (sh_len _ _ Hsh) as Hlen. pose proof (sh_lii _ _ Hsh). rewrite E in Hlen. change (len []) with 0 in Hlen. lia.
Qed.
End safety.
