(* ===== verification/RaftApply.v ===== *)
(** What the peers of the cluster of [RaftCluster] hand to their services.

    [updateApplied] hands its batch over after it has let go of the lock; the goroutine that
    takes it (the tester's in [RaftTester], a server's in [Replicated]) is not part of the
    cluster.  Here are the steps of the cluster that leave what was handed over alone
    ([silent]), and what a batch is: consecutive commands that are chosen, which no peer ever
    hands over with another value ([chosenValue]). *)
From S2P Require Import Prelude Labgob Persister Raft RaftLog RaftNode RaftProps RaftService RaftElection RaftCluster RaftMatching RaftCommit RaftSafety.
#[local] Open Scope Z_scope.

Section apply.
Context {C : Type} `{!Gob Z, !Gob (list (Log C))}.
Implicit Types (rf : Raft C) (hist : Z → list (Log C)) (acks : nat → Z → Z → Prop) (got : nat → Z).

(** The steps of the cluster that do not concern [applyCh]. *)
Definition silent (r : RAction C) : bool :=
  match r with
  | RAct (ANode _ (OpUpdateApplied | OpSnapshot _ _)) | RAct (ACrash _) | RInstall _ => false
  | _ => true
  end.

Definition setPeer (s : nat) (rf : Raft C) (c : Cluster C) : Cluster C := setWorld (setNode s rf (world c)) c.

(** ** What silent steps keep *)

Record sameApplied rf rf' : Prop := {
  sa_applied : lastApplied rf' = lastApplied rf;
  sa_lii : lastIncludedIndex rf' = lastIncludedIndex rf;
  sa_snapshot : ReadSnapshot (persister rf') = ReadSnapshot (persister rf);
}.

Lemma silent_applied rf op rf' :
  match op with OpUpdateApplied | OpSnapshot _ _ | OpCondInstallSnapshot _ _ _ => False | _ => True end →
  nodeExec rf op = Some rf' → sameApplied rf rf'.
Proof.
  intros Hop H. destruct op; try done; node_unfold; node_inv; simpl in *; try done.
  all: repeat (case_if; simpl in *); constructor; simpl; rewrite ?ReadSnapshot_Save; try done.
Qed.

Lemma silent_commit rf op rf' :
  wf rf → match op with OpAppendEntries _ | OpCondInstallSnapshot _ _ _ => False | _ => True end →
  nodeExec rf op = Some rf' → commitIndex rf ≤ commitIndex rf'.
Proof.
  intros Hwf Hop H. destruct op; try done; node_unfold; node_inv; simpl in *; try done; try lia.
  all: repeat (case_if; simpl in *); try done; try lia.
Qed.

Lemma rexec_applied c r c' :
  silent r = true → rexec c r = Some c' →
  ∀ s rf', nodes (world c') !! s = Some rf' → ∃ rf, nodes (world c) !! s = Some rf ∧ sameApplied rf rf'.
Proof.
  intros Hq [(s & -> & _)|Hr]%rexec_moves; [done|].
  refine (runs_each sameApplied r _ _ _ _ Hr); [done|]. intros _ rf op rf2 _ Hop Hx. apply (silent_applied _ op); [|done].
  destruct op; try done; destruct r as [[]| | | | | | | |]; try done; by destruct Hop as [<- ?].
Qed.

(** A snapshot that was installed is not before the last one. *)
Lemma installed rf term index snap rf' :
  wf rf → CondInstallSnapshot rf term index snap = Some (rf', true) →
  commitIndex rf < index ∧ lastIncludedIndex rf ≤ index ∧ lastIncludedIndex rf' = index ∧ commitIndex rf' = index ∧
  lastApplied rf' = index ∧ ReadSnapshot (persister rf') = snap.
Proof.
  intros Hwf H. pose proof (wf_log _ Hwf) as Hl.
  assert (lastApplied rf' = index ∧ ReadSnapshot (persister rf') = snap) as [? ?].
  { unfold CondInstallSnapshot in H. case_if_in H; [done|]. apply bind_Some in H as (lg & _ & H).
    apply bind_Some in H as (lg' & _ & [= <-]). simpl. by rewrite ReadSnapshot_SaveBoth. }
  assert (commitIndex rf < index) as Hci by (unfold CondInstallSnapshot in H; case_if_in H; [done|lia]).
  destruct (CondInstall_cases _ _ _ _ _ _ H) as [[? _]|(_ & Hlii & Hci' & _ & _ & _ & Hlog)]; [lia|].
  split_and!; try done. case_decide as Hd; [unfold realIndex in Hlog; lia|].
  unfold getLastLogIndex, logicIndex in Hd. lia.
Qed.

(** The peers of a fresh cluster. *)
Lemma fresh_length n c : initCluster (C := C) n = Some c → length (nodes (world c)) = n.
Proof.
  intros Hi. unfold initCluster, initWorld in Hi. apply bind_Some in Hi as (w & Hw & [= <-]).
  apply bind_Some in Hw as (rfs & Hmk & [= <-]). apply mapM_Some in Hmk. apply Forall2_length in Hmk.
  by rewrite length_seq in Hmk.
Qed.

Lemma fresh_peer n c s rf :
  initCluster n = Some c → nodes (world c) !! s = Some rf → ∃ i, Make n i MakePersister = Some rf.
Proof.
  intros Hi Hs. unfold initCluster, initWorld in Hi. apply bind_Some in Hi as (w & Hw & [= <-]).
  apply bind_Some in Hw as (rfs & Hmk & [= <-]). apply mapM_Some in Hmk. simpl in Hs.
  destruct (Forall2_lookup_r _ _ _ _ _ Hmk Hs) as (s' & _ & Hx). eauto.
Qed.

(** ** Where snapshots come from

    What holds of the snapshots on the disks holds of those on their way and on offer. *)
Definition sentAll (P : Z → list byte → Prop) (c : Cluster C) : Prop :=
  Forall (λ m, P (isa_LastIncludedIndex (sc_args m)) (isa_Data (sc_args m))) (snaps c) ∧
  Forall (λ o, P (SnapshotIndex o.2) (am_Snapshot o.2) ∧ CommandValid o.2 = false) (offers c).

Lemma sentAll_weaken (P Q : Z → list byte → Prop) c : (∀ i bs, P i bs → Q i bs) → sentAll P c → sentAll Q c.
Proof. intros H [Hs Ho]. split; (eapply Forall_impl; [done|]); naive_solver. Qed.

Lemma InstallSnapshot_offer rf args rf' reply eff s o :
  InstallSnapshot rf args = Some (rf', reply, eff) → o ∈ offered s eff →
  SnapshotIndex o.2 = isa_LastIncludedIndex args ∧ am_Snapshot o.2 = isa_Data args ∧ CommandValid o.2 = false.
Proof.
  unfold InstallSnapshot. intros H Ho. apply bind_Some in H as (rf1 & _ & H).
  case_if_in H; [injection H as <- <- <-; by apply elem_of_nil in Ho|].
  case_if_in H; injection H as <- <- <-; simpl in Ho; [by apply elem_of_nil in Ho|].
  by apply list_elem_of_singleton in Ho as ->.
Qed.

Lemma snapshots_travel (P : Z → list byte → Prop) c r c' :
  rexec c r = Some c' →
  (∀ s rf, nodes (world c) !! s = Some rf → P (lastIncludedIndex rf) (ReadSnapshot (persister rf))) →
  sentAll P c → sentAll P c'.
Proof.
  intros H%rexec_cases Hdisk [HS HO].
  destruct H as [a w' Hx Hop Hnc|s w' Hx|s dst rf args Hs Hd Hx|s dst rf args index Hs Hd Hx|k m rf rf' reply eff Hm Hst Hs Hx
    |k m rf rf' reply Hm Hst Hal Hs Hx|k m rf rf' Hm Hal Hs Hx|k m rf rf' reply eff Hm Hst Hs Hx
    |k m rf rf' reply Hm Hst Hal Hs Hx|k m rf rf' Hm Hal Hs Hx|k s msg rf rf' b Ho Hs Hx]; split; simpl; try done.
  - apply Forall_fmap. eapply Forall_impl; [exact HS|]. intros m ?. simpl. by case_match.
  - rewrite !Forall_forall in HO |- *. intros o Hin. apply HO. apply list_elem_of_In, filter_In in Hin as [Hin _].
    by apply list_elem_of_In.
  - apply Forall_app; split; [done|]. constructor; [|done].
    apply onRoundBegin_snapshot in Hx as (_ & -> & ->). simpl. specialize (Hdisk _ _ Hs). unfold ReadSnapshot in Hdisk.
    by rewrite clone_id in Hdisk.
  - apply Forall_insert; [done|]. rewrite Forall_lookup in HS. apply (HS _ _ Hm).
  - apply Forall_app; split; [done|]. apply Forall_forall. intros o Hin.
    destruct (InstallSnapshot_offer _ _ _ _ _ _ _ Hx Hin) as (-> & -> & ->). split; [|done].
    rewrite Forall_lookup in HS. apply (HS _ _ Hm).
  - apply Forall_insert; [done|]. rewrite Forall_lookup in HS. apply (HS _ _ Hm).
  - apply Forall_insert; [done|]. rewrite Forall_lookup in HS. apply (HS _ _ Hm).
  - by apply Forall_delete.
Qed.

(** ** Chosen values *)
Definition chosenValue (n : nat) hist acks (k : Z) (v : option C) : Prop :=
  ∃ u e, chosen n hist acks u k e ∧ Command e = v.

Lemma chosenValue_grown n hist acks got hist' acks' got' k v :
  grown hist acks got hist' acks' got' → chosenValue n hist acks k v → chosenValue n hist' acks' k v.
Proof. intros Hg (u & e & Hc & He). exists u, e. split; [by eapply chosen_grown|done]. Qed.

Lemma chosenValue_unique n c hist acks got k v1 v2 :
  safeCluster n c hist acks got → chosenValue n hist acks k v1 → chosenValue n hist acks k v2 → v1 = v2.
Proof.
  intros (_ & (full & I & SI) & _) (u1 & e1 & H1 & <-) (u2 & e2 & H2 & <-). f_equal. by eapply chosen_entry_unique.
Qed.

(** The messages of a batch of [updateApplied]. *)
Lemma batch_messages n c hist acks got s rf rf' msgs :
  safeCluster n c hist acks got → nodes (world c) !! s = Some rf → updateApplied rf = Some (rf', msgs) →
  lastIncludedIndex rf ≤ lastApplied rf → lastIncludedIndex rf ≤ commitIndex rf →
  lastApplied rf' = commitIndex rf ∧ lastIncludedIndex rf' = lastIncludedIndex rf ∧
  len msgs = Z.max 0 (commitIndex rf - lastApplied rf) ∧
  ∀ (k : nat) m, msgs !! k = Some m → CommandValid m = true ∧ SnapshotValid m = false ∧
    CommandIndex m = lastApplied rf + 1 + Z.of_nat k ∧
    CommandIndex m ≤ commitIndex rf ∧ chosenValue n hist acks (CommandIndex m) (am_Command m).
Proof.
  intros HC Hs Hu Hlo Hci. pose proof (applied_range _ _ _ _ _ _ _ HC Hs) as [Hhi H0].
  destruct (updateApplied_spec rf) as (rf2 & ms & Hx & Hrf & Hlen & Hms); [lia..|].
  rewrite Hu in Hx. injection Hx as <- <-. split_and!; [by rewrite Hrf..|done|].
  intros k m Hk. pose proof (lookup_lt_Some _ _ _ Hk) as Hlt.
  assert (msgs.[Z.of_nat k] = Some m) as Hk' by (by rewrite go_index_of_nat).
  rewrite Hms in Hk' by (unfold len; lia). unfold applyMsgAt in Hk'. apply fmap_Some in Hk' as (l & _ & Hm).
  assert (∃ e, chosen n hist acks (currentTerm rf) (CommandIndex m) e ∧ am_Command m = Command e) as (e & He & Hce).
  { eapply applied_chosen; [exact HC|exact Hs|exact Hlo|exact Hu|]. by eapply list_elem_of_lookup_2. }
  rewrite Hm. rewrite Hm in He, Hce. simpl. split_and!; [done..|unfold len in Hlen; lia|]. by exists (currentTerm rf), e.
Qed.

(** An operation of the peer's own side, as a step of the cluster. *)
Lemma op_steps n c hist acks got s rf op rf' :
  safeCluster n c hist acks got → nodes (world c) !! s = Some rf → nodeExec rf op = Some rf' →
  quiet op = true → callOp op = false →
  (∀ index snap, op = OpSnapshot index snap → lastIncludedIndex rf < index → index ≤ got s) →
  ∃ hist' acks' got', grown hist acks got hist' acks' got' ∧ safeCluster n (setPeer s rf' c) hist' acks' got'.
Proof.
  intros HC Hs Hx Hq Ha Hsn. apply (bounded_step n c (RAct (ANode s op)) (setPeer s rf' c) hist acks got HC).
  - destruct op; try done. intros rf2 Hs2 Hlt. assert (rf2 = rf) as -> by congruence. by eapply Hsn.
  - simpl. rewrite Ha, Hq, Hs. simpl. by rewrite Hx.
Qed.

Lemma setPeer_id s rf c : nodes (world c) !! s = Some rf → setPeer s rf c = c.
Proof.
  intros Hs. destruct c as [[nds es cs gs ls] ms sns os]. unfold setPeer, setWorld, setNode. simpl in *.
  by rewrite list_insert_id.
Qed.

Lemma dropOffer_safe n c hist acks got k :
  safeCluster n c hist acks got → safeCluster n (mkCluster (world c) (appends c) (snaps c) (delete k (offers c))) hist acks got.
Proof. intros (W & SW & HS & HO). split_and!; [done|done|]. split; [done|]. by apply Forall_delete. Qed.

(** The service takes an offer that Raft accepts. *)
Lemma installs n c hist acks got k s msg rf rf' :
  safeCluster n c hist acks got → offers c !! k = Some (s, msg) → nodes (world c) !! s = Some rf →
  CondInstallSnapshot rf (SnapshotTerm msg) (SnapshotIndex msg) (am_Snapshot msg) = Some (rf', true) →
  ∃ hist' acks' got', grown hist acks got hist' acks' got' ∧
    safeCluster n (mkCluster (world (setPeer s rf' c)) (appends c) (snaps c) (delete k (offers c))) hist' acks' got'.
Proof.
  intros HC Ho Hs Hx. apply (bounded_step n c (RInstall k) _ hist acks got HC); [done|].
  simpl. rewrite Ho. simpl. rewrite Hs. simpl. by rewrite Hx.
Qed.

(** ** Commit indices move forward

    [AppendEntries] takes the minimum of the leader's commit index and the last entry of the
    call, but a call has everything that its sender has committed. *)
Definition callsAhead (c : Cluster C) : Prop :=
  Forall (λ m, aea_LeaderCommit (ac_args m) ≤ lastOfCall m) (appends c).

Lemma callsAhead_step n c hist acks got r c' :
  safeCluster n c hist acks got → rexec c r = Some c' → callsAhead c → callsAhead c'.
Proof.
  intros HC H%rexec_cases HA. unfold callsAhead in *.
  destruct H as [a w' Hx Hop Hnc|s w' Hx|s dst rf args Hs Hd Hx|s dst rf args index Hs Hd Hx|k m rf rf' reply eff Hm Hst Hs Hx
    |k m rf rf' reply Hm Hst Hal Hs Hx|k m rf rf' Hm Hal Hs Hx|k m rf rf' reply eff Hm Hst Hs Hx
    |k m rf rf' reply Hm Hst Hal Hs Hx|k m rf rf' Hm Hal Hs Hx|k s msg rf rf' b Ho Hs Hx]; simpl; try done.
  2: { apply Forall_app; split; [done|]. constructor; [|done]. unfold lastOfCall. simpl.
       pose proof (applied_range _ _ _ _ _ _ _ HC Hs) as [Hhi _].
       destruct (onRoundBegin_entries _ _ _ Hx) as (_ & _ & _ & -> & Hr & _ & He). rewrite He, len_drop by lia.
       unfold getLastLogIndex, logicIndex, realIndex in *. lia. }
  1: { apply Forall_fmap. eapply Forall_impl; [exact HA|]. intros m ?. simpl. by case_match. }
  all: apply Forall_insert; [done|]; rewrite Forall_lookup in HA; apply (HA _ _ Hm).
Qed.

Lemma deliver_commit n c hist acks got k c' s rf rf' :
  safeCluster n c hist acks got → callsAhead c → rexec c (RDeliver k) = Some c' →
  nodes (world c) !! s = Some rf → nodes (world c') !! s = Some rf' → commitIndex rf ≤ commitIndex rf'.
Proof.
  intros (W & _) HA Hx Hrf Hs. pose proof W as [V _]. simpl in Hx. apply bind_Some in Hx as (m & Hm & Hx).
  destruct (ac_status m); try done. apply bind_Some in Hx as (p & Hp & Hx). apply bind_Some in Hx as ([[p' reply] eff] & Hx & [= <-]).
  simpl in Hs. apply list_lookup_insert_Some in Hs as [(<- & <- & _)|[_ Hs]]; [|by assert (rf' = rf) as -> by congruence].
  assert (p = rf) as -> by congruence.
  destruct (AppendEntries_keeps _ _ _ _ _ (no_wf _ _ _ (vi_nodes _ _ _ _ V _ _ Hrf)) Hx) as [_ Hk].
  unfold callsAhead in HA. rewrite Forall_lookup in HA. specialize (HA _ _ Hm). unfold lastOfCall in HA.
  destruct (aer_Success reply); [|lia]. destruct Hk as (_ & _ & _ & _ & _ & [?|[? ->]]); [lia|].
  unfold min_int. case_if; lia.
Qed.

Lemma rexec_commit n c hist acks got r c' s rf' :
  safeCluster n c hist acks got → callsAhead c → silent r = true → rexec c r = Some c' → nodes (world c') !! s = Some rf' →
  ∃ rf, nodes (world c) !! s = Some rf ∧ sameApplied rf rf' ∧ commitIndex rf ≤ commitIndex rf'.
Proof.
  intros HC HA Hq Hx Hs. destruct (rexec_applied _ _ _ Hq Hx _ _ Hs) as (rf & Hrf & Hsame).
  exists rf. split_and!; [done..|].
  assert ((∃ k, r = RDeliver k) ∨ ∀ k, r ≠ RDeliver k) as [[k ->]|Hne]; [destruct r; (by right) || eauto|by eapply deliver_commit|].
  destruct (rexec_moves _ _ _ Hx) as [(s0 & -> & _)|Hr]; [done|]. destruct HC as ([V _] & _).
  destruct (runs_each (λ rf rf', commitIndex rf ≤ commitIndex rf') r (nodes (world c)) (nodes (world c'))) with (s := s) (rf' := rf')
    as (rf0 & Hrf0 & Hle); [done| |done|done|by assert (rf0 = rf) as <- by congruence].
  intros j rf1 op rf2 Hj Hop Hx1. apply (silent_commit rf1 op); [apply (no_wf _ _ _ (vi_nodes _ _ _ _ V _ _ Hj))| |done].
  destruct op; try done; destruct r as [[]|?|k|?|?|?|?|?|?]; try done; try (by destruct Hop; subst); by destruct (Hne k).
Qed.

Lemma nodes_setPeer s rf c : nodes (world (setPeer s rf c)) = <[s := rf]> (nodes (world c)).
Proof. done. Qed.

End apply.
