(* ===== verification/RaftOrigin.v ===== *)
(** Where the commands in the logs come from: whatever holds of the commands that are given to
    [Start] holds of all commands in the logs of the peers, in the calls between them and in
    what they hand to their services. *)
From S2P Require Import Prelude Labgob Persister Raft RaftLog RaftNode RaftProps RaftService RaftElection.
From S2P Require Import RaftCluster RaftMatching RaftCommit RaftSafety RaftApply.
#[local] Open Scope Z_scope.

Section origin.
Context {C : Type} `{!Gob Z, !Gob (list (Log C))} (P : C → Prop).
Implicit Types (rf : Raft C) (op : NodeOp (C := C)).

Definition ownEntry (e : Log C) : Prop := ∀ command, Command e = Some command → P command.

(** The entries after the first, which stands for the snapshot. *)
Definition ownLog rf : Prop := Forall ownEntry (tail (log rf)).

(** The entries that an operation adds. *)
Definition brought op : list (Log C) :=
  match op with
  | OpAppendEntries args => aea_Entries args
  | OpStart command => [mkLog (Some command) 0]
  | _ => []
  end.

Record originated (c : Cluster C) : Prop := {
  og_logs : ∀ s rf, nodes (world c) !! s = Some rf → ownLog rf;
  og_calls : Forall (λ m, Forall ownEntry (aea_Entries (ac_args m))) (appends c);
}.

(** ** One peer *)
Lemma tail_drop (l : list (Log C)) (k : nat) : Forall ownEntry (tail l) → Forall ownEntry (drop (S k) l).
Proof. destruct l as [|x l]; simpl; [by constructor|]. apply Forall_drop. Qed.

Lemma mergeEntries_origin (lg entries lg' : list (Log C)) pli end_ changed :
  0 ≤ pli → mergeEntries lg entries pli end_ = Some (lg', changed) →
  Forall ownEntry (tail lg) → Forall ownEntry entries → Forall ownEntry (tail lg').
Proof.
  intros Hp H Hl He. unfold mergeEntries in H. apply bind_Some in H as ([index new] & _ & H).
  case_if_in H; [|by injection H as <-]. apply bind_Some in H as (kept & Hk & [= <- _]).
  apply slice_to_inv in Hk as [Hr ->]. destruct lg as [|x lg]; [unfold len in Hr; simpl in Hr; lia|].
  replace (Z.to_nat (pli + 1)) with (S (Z.to_nat pli)) by lia. simpl in *.
  apply Forall_app; split; [by apply Forall_take|done].
Qed.

Lemma node_origin rf op rf' :
  wf rf → nodeExec rf op = Some rf' → ownLog rf → Forall ownEntry (brought op) → ownLog rf'.
Proof.
  unfold ownLog. intros Hwf H Hl Hb. destruct op as [args|args|args|cnt reply|server args reply|server i reply| | |command|index snap
    |term index snap|server|].
  9: { simpl in *. injection H as <-. unfold Start. case_if; [|done]. simpl.
       destruct (log rf) as [|x l] eqn:Hlog; [destruct Hwf as [Hw]; rewrite Hlog in Hw; done|]. simpl in *.
       apply Forall_app; split; [done|]. apply Forall_cons in Hb as [Hb _]. constructor; [|done]. intros c0 [= <-]. by apply Hb. }
  9: { destruct (decide (lastIncludedIndex rf < index)) as [Hlt|Hge].
       - destruct (Snapshot_Some _ _ _ _ H Hlt) as (l0 & _ & -> & _). simpl. unfold realIndex.
         replace (Z.to_nat (index - lastIncludedIndex rf + 1)) with (S (Z.to_nat (index - lastIncludedIndex rf))) by lia.
         by apply tail_drop.
       - simpl in H. unfold Snapshot in H. rewrite (proj2 (Z.leb_le _ _)) in H by lia. by injection H as <-. }
  9: { simpl in H. apply bind_Some in H as ([rf1 b] & H & [= <-]).
       destruct (CondInstall_cases _ _ _ _ _ _ H) as [[_ ->]|(_ & _ & _ & _ & _ & _ & Hlog)]; [done|].
       case_decide; [|by rewrite Hlog; constructor]. destruct Hlog as [Hr ->]. simpl.
       replace (Z.to_nat (realIndex rf index + 1)) with (S (Z.to_nat (realIndex rf index))) by lia. by apply tail_drop. }
  all: node_unfold; node_inv; simpl in *; bool_prop; repeat (case_if; simpl in *); try done.
  all: eapply mergeEntries_origin; [|done..]; lia.
Qed.

(** ** The cluster *)
Lemma exec_origin w a w' :
  exec w a = Some w' → (∀ s rf, nodes w !! s = Some rf → wf rf) → (∀ s, a ≠ ACrash s) →
  (∀ s op, a = ANode s op → callOp op = false ∧ Forall ownEntry (brought op)) →
  (∀ s rf, nodes w !! s = Some rf → ownLog rf) → ∀ s rf, nodes w' !! s = Some rf → ownLog rf.
Proof.
  intros Hx Hwf Hnc Hb Hl s rf' Hs.
  destruct (runs_each (λ rf rf', wf rf → ownLog rf → ownLog rf') (RAct a) (nodes w) (nodes w')) with (s := s) (rf' := rf')
    as (rf & Hrf & Hown); [done| | |done|by eauto].
  - intros j rf op rf2 Hj Hr Hn Hw Ho. eapply node_origin; [exact Hw|exact Hn|exact Ho|].
    destruct a; try (by destruct op; try done; simpl; constructor). destruct Hr as [<- ?]. by eapply Hb.
  - apply exec_runs; [done..|]. intros j op Ha. by eapply Hb.
Qed.

Lemma originated_put c c' s rf rf' :
  originated c → nodes (world c) !! s = Some rf → nodes (world c') = <[s := rf']> (nodes (world c)) → ownLog rf' →
  Forall (λ m, Forall ownEntry (aea_Entries (ac_args m))) (appends c') → originated c'.
Proof.
  intros [Hl Ha] Hs Hn Ho Ha'. constructor; [|done]. rewrite Hn.
  intros j r [(-> & <- & _)|[_ Hj]]%list_lookup_insert_Some; [done|by eapply Hl].
Qed.

Lemma origin_restart rf rf' : durable rf → Make (peers rf) (me rf) (persister rf) = Some rf' → ownLog rf → ownLog rf'.
Proof.
  intros Hd Hmk Hl. destruct (Make_recovers rf Hd) as (rf1 & Hmk' & Hrec). rewrite Hmk in Hmk'. injection Hmk' as <-.
  unfold ownLog. by rewrite (rec_log _ _ Hrec).
Qed.

(** The commands that a step gives to [Start]. *)
Definition starts (r : RAction C) (command : C) : Prop := ∃ s, r = RAct (ANode s (OpStart command)).

Lemma originated_step n c r c' hist acks got :
  safeCluster n c hist acks got → (∀ command, starts r command → P command) →
  rexec c r = Some c' → originated c → originated c'.
Proof.
  intros ([V _] & _) Hst H%rexec_cases HO. pose proof HO as [Hl Ha]. pose proof Ha as Ha0. rewrite Forall_lookup in Ha0.
  assert (∀ s rf, nodes (world c) !! s = Some rf → wf rf) as Hwf by (intros s rf Hs; apply (no_wf _ _ _ (vi_nodes _ _ _ _ V _ _ Hs))).
  destruct H as [a w' Hx Hop Hnc|s w' Hx|s dst rf args Hs Hd Hx|s dst rf args index Hs Hd Hx|k m rf rf' reply eff Hm Hst' Hs Hx
    |k m rf rf' reply Hm Hst' Hal Hs Hx|k m rf rf' Hm Hal Hs Hx|k m rf rf' reply eff Hm Hst' Hs Hx
    |k m rf rf' reply Hm Hst' Hal Hs Hx|k m rf rf' Hm Hal Hs Hx|k s msg rf rf' b Ho Hs Hx].
  - constructor; [|done]. simpl. eapply exec_origin; [exact Hx|exact Hwf|exact Hnc| |exact Hl].
    intros s op ->. pose proof (Hop s op eq_refl) as Hc. split; [done|]. destruct op; try done; try by constructor.
    constructor; [|done]. intros c0 [= <-]. apply Hst. by exists s.
  - destruct (rexec_crash c s (afterCrash s (setWorld w' c))) as (rf & rf' & Hs & Hmk & Hn).
    { cbn [rexec]. by rewrite Hx. }
    eapply originated_put; [exact HO|exact Hs|exact Hn| |].
    + eapply origin_restart; [|exact Hmk|by eapply Hl]. apply (no_durable _ _ _ (vi_nodes _ _ _ _ V _ _ Hs)).
    + simpl. apply Forall_fmap. eapply Forall_impl; [exact Ha|]. intros m ?. simpl. by case_match.
  - constructor; [done|]. simpl. apply Forall_app; split; [done|]. constructor; [|done]. simpl.
    destruct (onRoundBegin_entries _ _ _ Hx) as (_ & _ & _ & _ & Hr & _ & ->).
    replace (Z.to_nat (realIndex rf (aea_PrevLogIndex args) + 1)) with (S (Z.to_nat (realIndex rf (aea_PrevLogIndex args)))) by lia.
    apply tail_drop. by eapply Hl.
  - done.
  - eapply (originated_put _ _ _ _ rf'); [exact HO|exact Hs|done| |by apply Forall_insert; [done|simpl; eapply Ha0]].
    apply (node_origin rf (OpAppendEntries (ac_args m))); [by eapply Hwf|simpl; by rewrite Hx|by eapply Hl|by eapply Ha0].
  - eapply (originated_put _ _ _ _ rf'); [exact HO|exact Hs|done| |by apply Forall_insert; [done|simpl; eapply Ha0]].
    by eapply (node_origin rf (OpEntriesReply _ _ _)); [eapply Hwf|exact Hx|eapply Hl|constructor].
  - eapply (originated_put _ _ _ _ rf'); [exact HO|exact Hs|done| |by apply Forall_insert; [done|simpl; eapply Ha0]].
    by eapply (node_origin rf (OpEntriesReply _ _ _)); [eapply Hwf|exact Hx|eapply Hl|constructor].
  - eapply (originated_put _ _ _ _ rf'); [exact HO|exact Hs|done| |done].
    apply (node_origin rf (OpInstallSnapshot (sc_args m))); [by eapply Hwf|simpl; by rewrite Hx|by eapply Hl|constructor].
  - eapply (originated_put _ _ _ _ rf'); [exact HO|exact Hs|done| |done].
    by eapply (node_origin rf (OpSnapshotReply _ _ _)); [eapply Hwf|exact Hx|eapply Hl|constructor].
  - eapply (originated_put _ _ _ _ rf'); [exact HO|exact Hs|done| |done].
    by eapply (node_origin rf (OpSnapshotReply _ _ _)); [eapply Hwf|exact Hx|eapply Hl|constructor].
  - eapply (originated_put _ _ _ _ rf'); [exact HO|exact Hs|done| |done].
    eapply (node_origin rf (OpCondInstallSnapshot _ _ _)); [by eapply Hwf|simpl; by rewrite Hx|by eapply Hl|constructor].
Qed.
End origin.

Lemma originated_weaken {C : Type} (P Q : C → Prop) (c : Cluster C) :
  (∀ command, P command → Q command) → originated P c → originated Q c.
Proof.
  intros HPQ [Hl Ha]. assert (∀ e, ownEntry P e → ownEntry Q e) as He by (intros e H command Hc; auto).
  constructor.
  - intros s rf Hs. eapply Forall_impl; [by eapply Hl|exact He].
  - eapply Forall_impl; [exact Ha|]. intros m Hm. eapply Forall_impl; [exact Hm|exact He].
Qed.
