(* ===== verification/Labrpc.v ===== *)
(** Model of [src/src/labrpc/labrpc.go], the network through which every clerk and every
    Raft peer calls the others: [Network], [Server], [Service] and [ClientEnd.Call].

    A call is a flight: the request, the program counter of the [processReq] goroutine that
    serves it and the channel [ech] of the goroutine that runs the handler.  A step of the
    machine is one region under [Network.mu], one channel operation or one handler.  Random
    numbers and the order of the steps are arguments of the events; the length of a sleep is
    recorded but does not restrict when its timer fires. *)
From S2P Require Import Prelude Labgob.
#[local] Open Scope Z_scope.

(** Two's complement wrap-around of a [w]-bit signed integer. *)
Definition wrapS (w z : Z) : Z := (z + 2 ^ (w - 1)) `mod` 2 ^ w - 2 ^ (w - 1).

(** [strings.LastIndex(s, ".")] with the slices before and after the dot; [None] when there
    is no dot, where the slice [svcMeth[:-1]] panics. *)
Fixpoint splitLastDot (s : string) : option (string * string) :=
  match s with
  | EmptyString => None
  | String c s' =>
      match splitLastDot s' with
      | Some (a, b) => Some (String c a, b)
      | None => if Ascii.eqb c "."%char then Some (EmptyString, s') else None
      end
  end.

(** The Go types of arguments and replies ([reflect.Type]), their values, the zero value of
    each and the gob codec of each. *)
Class GoTypes (RType : Type) := {
  rtype_eq :: EqDecision RType;
  Val : RType → Type;
  zeroVal : ∀ t, Val t;
  gobVal :: ∀ t, Gob (Val t);
}.

Section labrpc.
Context `{GoTypes RType} {Name : Type} `{Countable Name} {W : Type}.

Record reqMsg := mkReq { endname : Name; svcMeth : string; argsType : RType; req_args : list byte }.
Record replyMsg := mkReply { ok : bool; rep_bytes : list byte }.

(** ** Services and servers

    A method of the receiver: its argument and reply type and its effect, from the state of
    the receivers and the zero reply, on both. *)
Record Method := mkMethod {
  inType : RType;
  replyType : RType;
  callMethod : W → Val inType → Val replyType → W * Val replyType }.

Record Service := mkService { svcName : string; methods : gmap string Method }.
Record Server := mkServer { services : gmap string Service; srvCount : Z }.

(** What [MakeService] finds by reflection about a method of the receiver. *)
Record RawMethod := mkRaw {
  mname : string; exported : bool; numIn : Z; in2IsPtr : bool; numOut : Z; body : Method }.

Definition looksLikeHandler (m : RawMethod) : bool :=
  negb (negb (exported m) || negb (numIn m =? 3) || negb (in2IsPtr m) || negb (numOut m =? 0)).

Definition MakeService (typeName : string) (ms : list RawMethod) : Service :=
  mkService typeName
    (go_range ms (λ m acc, if looksLikeHandler m then <[mname m := body m]> acc else acc) ∅).

(** [Service.dispatch]; [None] is [log.Fatalf] or the panic of [reflect.Value.Call] on an
    argument of another type.  The error of [Decode] is not looked at. *)
Definition decodeArgs (t : RType) (bs : list byte) : Val t :=
  match gob_dec bs with Some (a, _) => a | None => zeroVal t end.

Definition serviceDispatch (w : W) (svc : Service) (methname : string) (req : reqMsg) :
  option (W * replyMsg) :=
  match methods svc !! methname with
  | Some m =>
      match decide (argsType req = inType m) with
      | left Heq =>
          let args := eq_rect _ Val (decodeArgs (argsType req) (req_args req)) _ Heq in
          let '(w', replyv) := callMethod m w args (zeroVal (replyType m)) in
          Some (w', mkReply true (gob_enc replyv))
      | right _ => None
      end
  | None => None
  end.

Definition MakeServer : Server := mkServer ∅ 0.
Definition AddService (rs : Server) (svc : Service) : Server :=
  mkServer (<[svcName svc := svc]> (services rs)) (srvCount rs).

(** [Server.dispatch]: the server afterwards, the receivers afterwards and the reply. *)
Definition serverDispatch (w : W) (rs : Server) (req : reqMsg) :
  option (Server * W * replyMsg) :=
  let rs := mkServer (services rs) (wrapS 64 (srvCount rs + 1)) in
  '(serviceName, methodName) ← splitLastDot (svcMeth req);
  service ← services rs !! serviceName;
  '(w', r) ← serviceDispatch w service methodName req;
  Some (rs, w', r).

(** ** The network; a [*Server] is a number, [None] is nil *)
Record Network := mkNetwork {
  reliable : bool;
  longDelays : bool;
  longReordering : bool;
  ends : gmap Name Name;
  enabled : gmap Name bool;
  servers : gmap Name (option nat);
  connections : gmap Name (option Name);
  isDone : bool;
  count : Z;
  nbytes : Z }.

Definition MakeNetwork : Network := mkNetwork true false false ∅ ∅ ∅ ∅ false 0 0.

Definition Cleanup (rn : Network) : option Network :=
  if isDone rn then None else
  Some (mkNetwork (reliable rn) (longDelays rn) (longReordering rn) (ends rn) (enabled rn)
    (servers rn) (connections rn) true (count rn) (nbytes rn)).
Definition Reliable (yes : bool) (rn : Network) : Network :=
  mkNetwork yes (longDelays rn) (longReordering rn) (ends rn) (enabled rn)
    (servers rn) (connections rn) (isDone rn) (count rn) (nbytes rn).
Definition LongReordering (yes : bool) (rn : Network) : Network :=
  mkNetwork (reliable rn) (longDelays rn) yes (ends rn) (enabled rn)
    (servers rn) (connections rn) (isDone rn) (count rn) (nbytes rn).
Definition LongDelays (yes : bool) (rn : Network) : Network :=
  mkNetwork (reliable rn) yes (longReordering rn) (ends rn) (enabled rn)
    (servers rn) (connections rn) (isDone rn) (count rn) (nbytes rn).

(** [atomic.AddInt32(&rn.count, 1)] and [atomic.AddInt64(&rn.bytes, n)] *)
Definition addCount (rn : Network) : Network :=
  mkNetwork (reliable rn) (longDelays rn) (longReordering rn) (ends rn) (enabled rn)
    (servers rn) (connections rn) (isDone rn) (wrapS 32 (count rn + 1)) (nbytes rn).
Definition addBytes (n : Z) (rn : Network) : Network :=
  mkNetwork (reliable rn) (longDelays rn) (longReordering rn) (ends rn) (enabled rn)
    (servers rn) (connections rn) (isDone rn) (count rn) (wrapS 64 (nbytes rn + n)).

(** The lookups of the code give the zero value for an absent key. *)
Definition enabledAt (rn : Network) (e : Name) : bool := default false (enabled rn !! e).
Definition connectionAt (rn : Network) (e : Name) : option Name :=
  default None (connections rn !! e).
Definition serverAt (rn : Network) (s : Name) : option nat := default None (servers rn !! s).

Record EndInfo := mkInfo {
  i_enabled : bool; i_servername : option Name; i_server : option nat;
  i_reliable : bool; i_longreordering : bool }.

Definition readEndnameInfo (rn : Network) (e : Name) : EndInfo :=
  let servername := connectionAt rn e in
  let server := match servername with Some s => serverAt rn s | None => None end in
  mkInfo (enabledAt rn e) servername server (reliable rn) (longReordering rn).

Definition isServerDead (rn : Network) (e servername : Name) (server : nat) : bool :=
  Bool.eqb (enabledAt rn e) false || bool_decide (serverAt rn servername ≠ Some server).

Definition setMaps (rn : Network) (es : gmap Name Name) (en : gmap Name bool)
    (ss : gmap Name (option nat)) (cs : gmap Name (option Name)) : Network :=
  mkNetwork (reliable rn) (longDelays rn) (longReordering rn) es en ss cs
    (isDone rn) (count rn) (nbytes rn).

(** [None] is [log.Fatalf] *)
Definition MakeEnd (e : Name) (rn : Network) : option Network :=
  match ends rn !! e with
  | Some _ => None
  | None => Some (setMaps rn (<[e := e]> (ends rn)) (<[e := false]> (enabled rn)) (servers rn)
              (<[e := None]> (connections rn)))
  end.
Definition AddServer (s : Name) (rs : nat) (rn : Network) : Network :=
  setMaps rn (ends rn) (enabled rn) (<[s := Some rs]> (servers rn)) (connections rn).
Definition DeleteServer (s : Name) (rn : Network) : Network :=
  setMaps rn (ends rn) (enabled rn) (<[s := None]> (servers rn)) (connections rn).
Definition Connect (e : Name) (s : option Name) (rn : Network) : Network :=
  setMaps rn (ends rn) (enabled rn) (servers rn) (<[e := s]> (connections rn)).
Definition Enable (e : Name) (b : bool) (rn : Network) : Network :=
  setMaps rn (ends rn) (<[e := b]> (enabled rn)) (servers rn) (connections rn).

Definition GetTotalCount (rn : Network) : Z := count rn.
Definition GetTotalBytes (rn : Network) : Z := nbytes rn.

(** ** Flights *)
Inductive PC :=
| PStart
| PConnected (servername : Name) (server : nat) (rel longre : bool)
| PWaiting (servername : Name) (server : nat) (rel longre : bool)
| PDecide (servername : Name) (server : nat) (rel longre : bool) (reply : option replyMsg)
| PTimer (ms : Z) (count_bytes : bool) (r : replyMsg)
| PDone (r : replyMsg).

(** The goroutine that runs the handler and sends on [ech]. *)
Inductive Handler := HNone | HRunning (server : nat) | HReady (r : replyMsg) | HOver.

Record Flight := mkFlight { f_req : reqMsg; f_pc : PC; f_ech : Handler }.

(** One executed handler: the call, the receivers and the server before it, the reply. *)
Record Run := mkRun { r_id : nat; r_world : W; r_server : Server; r_reply : replyMsg }.

(** [routerUp]: the goroutine of [MakeNetwork] has not returned.  [hist] is a history
    variable: the handlers that were executed. *)
Record Sys := mkSys {
  net : Network; routerUp : bool; srvs : gmap nat Server; world : W;
  flights : gmap nat Flight; hist : list Run }.

Definition initSys (w : W) : Sys := mkSys MakeNetwork true ∅ w ∅ [].

Inductive NetOp :=
| OReliable (b : bool) | OLongReordering (b : bool) | OLongDelays (b : bool) | OCleanup
| OMakeEnd (e : Name) | OAddServer (s : Name) (rs : nat) | ODeleteServer (s : Name)
| OConnect (e : Name) (s : option Name) | OEnable (e : Name) (b : bool).

Inductive Event :=
| ENet (o : NetOp)
| ENewServer (rs : nat)
| EAddService (rs : nat) (svc : Service)
| ERouterExit
| ECall (id : nat) (e : Name) (meth : string) (t : RType) (args : Val t) (sees_done : bool)
| ERead (id : nat) (roll : Z)
| ESpawn (id : nat) (roll : Z)
| EHandler (id : nat)
| ERecv (id : nat)
| ETick (id : nat)
| EDecide (id : nat) (roll reorder inner outer : Z)
| EFire (id : nat).

Definition netOp (o : NetOp) (rn : Network) : option Network :=
  match o with
  | OReliable b => Some (Reliable b rn)
  | OLongReordering b => Some (LongReordering b rn)
  | OLongDelays b => Some (LongDelays b rn)
  | OCleanup => Cleanup rn
  | OMakeEnd e => MakeEnd e rn
  | OAddServer s rs => Some (AddServer s rs rn)
  | ODeleteServer s => Some (DeleteServer s rn)
  | OConnect e s => Some (Connect e s rn)
  | OEnable e b => Some (Enable e b rn)
  end.

Definition failed : replyMsg := mkReply false [].

(** The request that [ClientEnd.Call] builds. *)
Definition makeReq (e : Name) (meth : string) (t : RType) (args : Val t) : reqMsg :=
  mkReq e meth t (gob_enc args).

(** What [ClientEnd.Call] does with the message on [replyCh]; the outer [None] is
    [log.Fatalf], the inner one is the result [false]. *)
Definition finishCall (t : RType) (rep : replyMsg) : option (option (Val t)) :=
  if ok rep then '(v, _) ← gob_dec (rep_bytes rep); Some (Some v) else Some None.

(** [processReq] up to the sleep before the request is executed. *)
Definition startReq (rn : Network) (e : Name) (roll : Z) : PC :=
  let i := readEndnameInfo rn e in
  match i_enabled i, i_servername i, i_server i with
  | true, Some s, Some p => PConnected s p (i_reliable i) (i_longreordering i)
  | _, _, _ => PTimer (if longDelays rn then Z.rem roll 7000 else Z.rem roll 100) false failed
  end.

(** The end of [processReq]: the last [isServerDead] and the fate of the reply. *)
Definition decideReply (rn : Network) (e : Name) (s : Name) (p : nat) (rel longre : bool)
    (reply : option replyMsg) (roll reorder inner outer : Z) : PC :=
  let serverDead := isServerDead rn e s p in
  match reply with
  | None => PDone failed
  | Some r =>
      if serverDead then PDone failed
      else if Bool.eqb rel false && (Z.rem roll 1000 <? 100) then PDone failed
      else if longre && (reorder <? 600) then PTimer (200 + outer) true r
      else PDone r
  end.

Definition setFlight (id : nat) (f : Flight) (s : Sys) : Sys :=
  mkSys (net s) (routerUp s) (srvs s) (world s) (<[id := f]> (flights s)) (hist s).
Definition setNet (rn : Network) (s : Sys) : Sys :=
  mkSys rn (routerUp s) (srvs s) (world s) (flights s) (hist s).

(** The steps of [ClientEnd.Call] and of the goroutine of [MakeNetwork]. *)
Definition callStep (s : Sys) (id : nat) (req : reqMsg) (sees_done : bool) : option Sys :=
  match flights s !! id with
  | Some _ => None
  | None =>
      if sees_done then
        if isDone (net s) then Some (setFlight id (mkFlight req (PDone failed) HNone) s) else None
      else if routerUp s then
        Some (setNet (addBytes (len (req_args req)) (addCount (net s)))
               (setFlight id (mkFlight req PStart HNone) s))
      else None
  end.

(** The steps of one [processReq] goroutine and of the goroutine it starts.  The bytes of
    a reply are counted when it is sent, a reply of a handler is always [ok]. *)
Definition reqStep (s : Sys) (id : nat) (f : Flight) (ev : Event) : option Sys :=
  let req := f_req f in
  match ev, f_pc f, f_ech f with
  | ERead _ roll, PStart, h =>
      if 0 <=? roll
      then Some (setFlight id (mkFlight req (startReq (net s) (endname req) roll) h) s) else None
  | ESpawn _ roll, PConnected n p rel lr, h =>
      if negb (0 <=? roll) then None
      else if Bool.eqb rel false && (Z.rem roll 1000 <? 100)
      then Some (setFlight id (mkFlight req (PDone failed) h) s)
      else Some (setFlight id (mkFlight req (PWaiting n p rel lr) (HRunning p)) s)
  | EHandler _, pc, HRunning p =>
      rs ← srvs s !! p;
      '(rs', w', r) ← serverDispatch (world s) rs req;
      Some (mkSys (net s) (routerUp s) (<[p := rs']> (srvs s)) w'
              (<[id := mkFlight req pc (HReady r)]> (flights s))
              (hist s ++ [mkRun id (world s) rs r]))
  | ERecv _, PWaiting n p rel lr, HReady r =>
      Some (setFlight id (mkFlight req (PDecide n p rel lr (Some r)) HOver) s)
  | ETick _, PWaiting n p rel lr, h =>
      if isServerDead (net s) (endname req) n p
      then Some (setFlight id (mkFlight req (PDecide n p rel lr None) h) s)
      else Some s
  | EDecide _ roll reorder inner outer, PDecide n p rel lr reply, h =>
      let pc := decideReply (net s) (endname req) n p rel lr reply roll reorder inner outer in
      let s' := setFlight id (mkFlight req pc h) s in
      if (0 <=? roll) && (0 <=? reorder) && (reorder <? 900) && (0 <=? inner) && (inner <? 2000)
         && (0 <=? outer) && (outer <? 1 + inner)
      then match pc with
           | PDone r => Some (if ok r then setNet (addBytes (len (rep_bytes r)) (net s')) s' else s')
           | _ => Some s'
           end
      else None
  | EFire _, PTimer ms cb r, h =>
      let s' := setFlight id (mkFlight req (PDone r) h) s in
      Some (if cb then setNet (addBytes (len (rep_bytes r)) (net s')) s' else s')
  | _, _, _ => None
  end.

Definition eventId (ev : Event) : option nat :=
  match ev with
  | ERead id _ | ESpawn id _ | EHandler id | ERecv id | ETick id | EDecide id _ _ _ _
  | EFire id => Some id
  | _ => None
  end.

Definition step (s : Sys) (ev : Event) : option Sys :=
  match ev with
  | ENet o => rn ← netOp o (net s); Some (setNet rn s)
  | ENewServer p =>
      match srvs s !! p with
      | Some _ => None
      | None => Some (mkSys (net s) (routerUp s) (<[p := MakeServer]> (srvs s)) (world s)
                        (flights s) (hist s))
      end
  | EAddService p svc =>
      rs ← srvs s !! p;
      Some (mkSys (net s) (routerUp s) (<[p := AddService rs svc]> (srvs s)) (world s)
              (flights s) (hist s))
  | ERouterExit =>
      if isDone (net s)
      then Some (mkSys (net s) false (srvs s) (world s) (flights s) (hist s)) else None
  | ECall id e meth t args sees_done => callStep s id (makeReq e meth t args) sees_done
  | ERead id _ | ESpawn id _ | EHandler id | ERecv id | ETick id | EDecide id _ _ _ _
  | EFire id => f ← flights s !! id; reqStep s id f ev
  end.

Fixpoint run (s : Sys) (es : list Event) : option Sys :=
  match es with
  | [] => Some s
  | ev :: es => s' ← step s ev; run s' es
  end.

(** [Network.GetCount] and [Server.GetCount]; [None] is the panic on a nil server. *)
Definition GetCount (s : Sys) (n : Name) : option Z :=
  p ← serverAt (net s) n; rs ← srvs s !! p; Some (srvCount rs).

(** ** Every call is executed at most once, and answered by its own execution *)
Definition runsOf (id : nat) (s : Sys) : list Run := filter (λ h, r_id h = id) (hist s).

(** The reply that a program counter holds. *)
Definition pcReply (pc : PC) : option replyMsg :=
  match pc with
  | PDecide _ _ _ _ (Some r) => Some r
  | PTimer _ _ r | PDone r => if ok r then Some r else None
  | _ => None
  end.

Definition unstarted (pc : PC) : Prop :=
  match pc with PStart | PConnected _ _ _ _ => True | _ => False end.

Definition flightOk (s : Sys) (id : nat) (f : Flight) : Prop :=
  (unstarted (f_pc f) → f_ech f = HNone) ∧
  (∀ r, pcReply (f_pc f) = Some r → ∃ h, runsOf id s = [h] ∧ r_reply h = r) ∧
  match f_ech f with
  | HNone | HRunning _ => runsOf id s = []
  | HReady r => ∃ h, runsOf id s = [h] ∧ r_reply h = r
  | HOver => (length (runsOf id s) ≤ 1)%nat
  end.

(** Every recorded execution is one of a dispatched request. *)
Definition runOk (s : Sys) (h : Run) : Prop :=
  ∃ f rs' w', flights s !! r_id h = Some f ∧
    serverDispatch (r_world h) (r_server h) (f_req f) = Some (rs', w', r_reply h).

Record Inv (s : Sys) : Prop := {
  inv_flights : ∀ id f, flights s !! id = Some f → flightOk s id f;
  inv_runs : ∀ h, h ∈ hist s → runOk s h }.

Lemma Inv_init w : Inv (initSys w).
Proof. split; simpl; [intros ?? Hl; by rewrite lookup_empty in Hl|set_solver]. Qed.

Lemma Inv_frame s s' : flights s' = flights s → hist s' = hist s → Inv s → Inv s'.
Proof.
  intros Hf Hh [H1 H2]. split.
  - intros id f. rewrite Hf. intros (? & ? & ?)%H1. unfold flightOk, runsOf. by rewrite Hh.
  - intros h. rewrite Hh. intros (f & ? & ? & ?)%H2. exists f. rewrite Hf. eauto.
Qed.

(** Replacing a flight by one with the same request keeps the invariant if the new one is ok. *)
Lemma Inv_setFlight s id f f' :
  Inv s → flights s !! id = Some f → f_req f' = f_req f → flightOk s id f' →
  Inv (setFlight id f' s).
Proof.
  intros [H1 H2] Hf Hreq Hok. split.
  - intros i g; simpl. rewrite lookup_insert_Some. intros [[<- <-]|[_ Hg]]; [done|].
    by apply (H1 i g).
  - intros h (g & rs' & w' & Hg & Hd)%H2. unfold runOk; simpl.
    destruct (decide (id = r_id h)) as [->|Hne].
    + exists f', rs', w'. rewrite lookup_insert_eq. split; [done|]. rewrite Hreq. congruence.
    + exists g, rs', w'. by rewrite lookup_insert_ne.
Qed.

Lemma runsOf_none s id : Inv s → flights s !! id = None → runsOf id s = [].
Proof.
  intros [_ H2] Hid. unfold runsOf.
  destruct (filter _ _) as [|h l] eqn:Hl; [done|].
  assert (h ∈ filter (λ h, r_id h = id) (hist s)) as [Hh Hin]%list_elem_of_filter
    by (rewrite Hl; left).
  destruct (H2 h Hin) as (f & _ & _ & Hf & _). congruence.
Qed.

Lemma Inv_newFlight s id f :
  Inv s → flights s !! id = None → pcReply (f_pc f) = None → f_ech f = HNone →
  Inv (setFlight id f s).
Proof.
  intros Hi Hid Hpc He. pose proof (runsOf_none s id Hi Hid) as Hr.
  destruct Hi as [H1 H2]. split.
  - intros i g; simpl. rewrite lookup_insert_Some. intros [[<- <-]|[_ Hg]]; [|by apply (H1 i g)].
    split_and!; [done| |by rewrite He]. intros r. by rewrite Hpc.
  - intros h (g & rs' & w' & Hg & Hd)%H2. exists g, rs', w'. simpl.
    rewrite lookup_insert_ne; [done|]. congruence.
Qed.

Lemma Inv_handler s id f p rs rs' w' r :
  Inv s → flights s !! id = Some f → f_ech f = HRunning p →
  serverDispatch (world s) rs (f_req f) = Some (rs', w', r) →
  Inv (mkSys (net s) (routerUp s) (<[p := rs']> (srvs s)) w'
        (<[id := mkFlight (f_req f) (f_pc f) (HReady r)]> (flights s))
        (hist s ++ [mkRun id (world s) rs r])).
Proof.
  intros [H1 H2] Hf He Hd. split; simpl.
  - intros i g. unfold flightOk, runsOf; simpl. rewrite filter_app.
    rewrite lookup_insert_Some. intros [[<- <-]|[Hne Hg]]; simpl.
    + destruct (H1 _ _ Hf) as (Hu & Hp & Hr). rewrite He in Hr, Hu. unfold runsOf in Hr, Hp.
      rewrite Hr in *. rewrite filter_cons_True by done. simpl.
      split_and!; [intros Hx; by specialize (Hu Hx)| |by eexists].
      intros r' (h & ? & _)%Hp. done.
    + rewrite (filter_cons_False _ (mkRun id _ _ _)) by done.
      rewrite filter_nil, app_nil_r. by apply (H1 i g).
  - intros h [Hh| ->%list_elem_of_singleton]%elem_of_app; unfold runOk; simpl.
    + destruct (H2 h Hh) as (g & ? & ? & Hg & Hdg).
      destruct (decide (id = r_id h)) as [->|Hne].
      * eexists _, _, _. rewrite lookup_insert_eq. split; [done|]; simpl.
        replace (f_req f) with (f_req g) by congruence. done.
      * exists g. rewrite lookup_insert_ne by done. eauto.
    + eexists _, _, _. rewrite lookup_insert_eq. split; [done|]. done.
Qed.

Lemma startReq_pc rn e roll :
  pcReply (startReq rn e roll) = None.
Proof. unfold startReq. by repeat case_match. Qed.

Lemma decideReply_pc rn e n p rel lr reply a b c d r :
  pcReply (decideReply rn e n p rel lr reply a b c d) = Some r → reply = Some r.
Proof.
  unfold decideReply. destruct reply as [r0|]; [|done].
  repeat case_match; simpl; try done; case_match; congruence.
Qed.

Lemma decideReply_started rn e n p rel lr reply a b c d :
  ¬ unstarted (decideReply rn e n p rel lr reply a b c d).
Proof. unfold decideReply. repeat case_match; simpl; tauto. Qed.

Lemma reqStep_inv s id f ev s' :
  Inv s → flights s !! id = Some f → eventId ev = Some id →
  reqStep s id f ev = Some s' → Inv s'.
Proof.
  intros Hi Hf Hev. pose proof (inv_flights s Hi id f Hf) as (Hu & Hp & He).
  destruct f as [req pc ech]; simpl in *.
  assert (∀ f', f_req f' = req → flightOk s id f' → Inv (setFlight id f' s)) as Hset
    by (intros; by eapply Inv_setFlight).
  destruct ev; try done; injection Hev as ->; unfold reqStep; simpl.
  - destruct pc; try done. case_if; [|done]. intros [= <-]. apply Hset; [done|].
    specialize (Hu I). subst ech.
    split_and!; [done| |done]. simpl. intros r. by rewrite startReq_pc.
  - destruct pc as [|n p rel lr| | | |]; try done. specialize (Hu I). subst ech.
    case_if; [done|]. case_if; intros [= <-]; apply Hset; try done.
  - destruct ech as [|p| |]; try (by destruct pc).
    intros Hs. assert (∃ rs rs' w' r, srvs s !! p = Some rs ∧
        serverDispatch (world s) rs req = Some (rs', w', r) ∧
        s' = mkSys (net s) (routerUp s) (<[p := rs']> (srvs s)) w'
          (<[id := mkFlight req pc (HReady r)]> (flights s))
          (hist s ++ [mkRun id (world s) rs r])) as (rs & rs' & w' & r & _ & Hd & ->).
    { apply bind_Some in Hs as (rs & Hrs & Hs).
      apply bind_Some in Hs as ([[rs' w'] r] & Hd & [= <-]). eauto 10. }
    by apply (Inv_handler s id (mkFlight req pc (HRunning p))).
  - destruct pc as [| |n p rel lr| | |]; try done. destruct ech as [| |r|]; try done.
    intros [= <-]. apply Hset; [done|]. destruct He as (h & Hh & Hr).
    split_and!; simpl; [done| |rewrite Hh; simpl; lia]. intros r' [= <-]. eauto.
  - destruct pc as [| |n p rel lr| | |]; try done. case_if; intros [= <-]; [|done].
    apply Hset; [done|]. split_and!; simpl; done.
  - destruct pc as [| | |n p rel lr reply| |]; try done. case_if; [|done].
    set (pc' := decideReply _ _ _ _ _ _ _ _ _ _ _).
    assert (Inv (setFlight id (mkFlight req pc' ech) s)) as Hd.
    { apply Hset; [done|]. split_and!; simpl; [intros []%decideReply_started| |done].
      intros r ->%decideReply_pc. by apply Hp. }
    destruct pc'; intros [= <-]; try done. case_if; [|done]. by refine (Inv_frame _ _ _ _ Hd).
  - destruct pc as [| | | |ms cb r|]; try done. intros [= <-].
    assert (Inv (setFlight id (mkFlight req (PDone r) ech) s)) as Hd.
    { apply Hset; [done|]. split_and!; simpl; done. }
    case_if; [|done]. by refine (Inv_frame _ _ _ _ Hd).
Qed.

Lemma callStep_cases s id req b s' :
  callStep s id req b = Some s' →
  flights s !! id = None ∧ ∃ pc, flights s' = flights (setFlight id (mkFlight req pc HNone) s) ∧
    hist s' = hist s ∧ servers (net s') = servers (net s) ∧ pcReply pc = None.
Proof.
  unfold callStep. destruct (flights s !! id) eqn:Hid; [done|].
  intros Hs; split; [done|]. repeat case_if_in Hs; try done; injection Hs as <-; eexists; done.
Qed.

Lemma callStep_inv s id req b s' : Inv s → callStep s id req b = Some s' → Inv s'.
Proof.
  intros Hi (Hid & pc & Hf & Hh & _ & Hpc)%callStep_cases.
  eapply (Inv_frame (setFlight id _ s)); [done..|]. by apply Inv_newFlight.
Qed.

Lemma step_inv s ev s' : Inv s → step s ev = Some s' → Inv s'.
Proof.
  intros Hi Hs. destruct ev; cbn [step] in Hs; try (by eapply callStep_inv);
    try (apply bind_Some in Hs as (f & Hf & Hs); eapply reqStep_inv; [done|done| |done]; done);
    go_inv; (eapply Inv_frame; [| |exact Hi]); done.
Qed.

Lemma run_inv es : ∀ s s', Inv s → run s es = Some s' → Inv s'.
Proof.
  induction es as [|ev es IH]; simpl; intros s s' Hi Hr; go_inv; [done|].
  eauto using step_inv.
Qed.

(** The name and the server under which a request is being served. *)
Definition pcServer (pc : PC) : option (Name * nat) :=
  match pc with
  | PConnected n p _ _ | PWaiting n p _ _ | PDecide n p _ _ _ => Some (n, p)
  | _ => None
  end.

(** The request is still held by [p] under the name [n], or has failed. *)
Definition doomed (n : Name) (p : nat) (pc : PC) : Prop :=
  pcServer pc = Some (n, p) ∨ ∃ r, pc = PDone r ∧ ok r = false.

Lemma decideReply_doomed s e n p rel lr reply a b c d n' p' :
  serverAt (net s) n' ≠ Some p' → doomed n' p' (PDecide n p rel lr reply) →
  doomed n' p' (decideReply (net s) e n p rel lr reply a b c d).
Proof.
  intros Hno [[= -> ->]|(r & [=] & _)]. unfold decideReply.
  destruct reply; [|by right; eexists].
  unfold isServerDead. rewrite (bool_decide_true (serverAt _ _ ≠ _)) by done.
  rewrite orb_true_r. by right; eexists.
Qed.

(** What a step of [processReq] leaves alone: the other flights, the request, the servers;
    and a request whose server is gone stays without a positive answer. *)
Lemma reqStep_shape s i f ev s' :
  flights s !! i = Some f → reqStep s i f ev = Some s' →
  servers (net s') = servers (net s) ∧
  ∃ f', flights s' = <[i := f']> (flights s) ∧ f_req f' = f_req f ∧
    ∀ n p, serverAt (net s) n ≠ Some p → doomed n p (f_pc f) → doomed n p (f_pc f').
Proof.
  intros Hf Hs. destruct f as [req pc ech].
  assert (∀ n p n' p' rel lr rel' lr' r, doomed n p (PConnected n' p' rel lr) →
    doomed n p (PWaiting n' p' rel' lr') ∧ doomed n p (PDone failed) ∧
    doomed n p (PDecide n' p' rel' lr' r)) as Hd.
  { intros n p n' p' rel lr rel' lr' r [[= -> ->]|(? & [=] & _)].
    split_and!; [by left|by right; eexists|by left]. }
  assert (∀ n p ms c r, ¬ doomed n p (PTimer ms c r)) as Ht.
  { intros n p ms c r [[=]|(? & [=] & _)]. }
  assert (∀ n p, ¬ doomed n p PStart) as Hst by (intros n p [[=]|(? & [=] & _)]).
  destruct ev; unfold reqStep in Hs; simpl in Hs; try done.
  - destruct pc; try done. case_if_in Hs; [|done]. injection Hs as <-. split; [done|].
    eexists. split_and!; [done..|]. intros n p _ []%Hst.
  - destruct pc as [|n p rel lr| | | |]; try done. case_if_in Hs; [done|].
    case_if_in Hs; injection Hs as <-; (split; [done|]); eexists; (split_and!; [done..|]);
      intros n' p' _ Hx; simpl; by destruct (Hd _ _ _ _ _ _ rel lr None Hx) as (? & ? & ?).
  - destruct ech as [|p| |]; try (by destruct pc).
    apply bind_Some in Hs as (rs & Hrs & Hs).
    apply bind_Some in Hs as ([[rs' w'] r] & _ & [= <-]). split; [done|].
    eexists. split_and!; [done..|]. auto.
  - destruct pc as [| |n p rel lr| | |]; try done. destruct ech; try done.
    injection Hs as <-. split; [done|]. eexists. split_and!; [done..|].
    intros n' p' _ [[= -> ->]|(? & [=] & _)]. by left.
  - destruct pc as [| |n p rel lr| | |]; try done. case_if_in Hs; injection Hs as <-;
      (split; [done|]).
    + eexists. split_and!; [done..|]. intros n' p' _ [[= -> ->]|(? & [=] & _)]. by left.
    + exists (mkFlight req (PWaiting n p rel lr) ech). by rewrite insert_id.
  - destruct pc as [| | |n p rel lr reply| |]; try done. case_if_in Hs; [|done].
    assert (∃ rn, servers rn = servers (net s) ∧ s' = setNet rn (setFlight i
      (mkFlight req (decideReply (net s) (endname req) n p rel lr reply roll reorder inner outer)
         ech) s)) as (rn & Hrn & ->).
    { destruct (decideReply _ _ _ _ _ _ _ _ _ _ _) as [| | | | |r];
        [..|destruct (ok r)]; injection Hs as <-; (eexists; split; [|reflexivity]); done. }
    split; [done|]. eexists. split_and!; [done..|]. intros n' p'. apply decideReply_doomed.
  - destruct pc as [| | | |ms cb r|]; try done. injection Hs as <-.
    split; [by destruct cb|]. eexists. split_and!; [by destruct cb|done|].
    intros n p _ []%Ht.
Qed.

(** The request of a flight never changes. *)
Definition reqAt (id : nat) (s : Sys) : option reqMsg := f_req <$> flights s !! id.

Lemma reqStep_req s i f ev s' id :
  flights s !! i = Some f → reqStep s i f ev = Some s' → reqAt id s' = reqAt id s.
Proof.
  intros Hf (_ & f' & Hfs & Hreq & _)%reqStep_shape; [|done]. unfold reqAt. rewrite Hfs.
  destruct (decide (i = id)) as [->|Hne].
  - rewrite lookup_insert_eq, Hf. simpl. by rewrite Hreq.
  - by rewrite lookup_insert_ne.
Qed.

Lemma step_req s ev s' id req :
  step s ev = Some s' → reqAt id s = Some req → reqAt id s' = Some req.
Proof.
  intros Hs Hr. rewrite <-Hr.
  destruct ev as [| | | |i e meth t args b|i| | | | | |]; cbn [step] in Hs;
    try (apply bind_Some in Hs as (f & Hf & Hs); by eapply reqStep_req);
    try (go_inv; done).
  apply callStep_cases in Hs as (Hid & pc & Hf & _). unfold reqAt in *. rewrite Hf; simpl.
  rewrite lookup_insert_ne; [done|]. intros ->. by rewrite Hid in Hr.
Qed.

Lemma run_req es : ∀ s s' id req,
  run s es = Some s' → reqAt id s = Some req → reqAt id s' = Some req.
Proof.
  induction es as [|ev es IH]; simpl; intros s s' id req Hs Hr; go_inv; [done|].
  eauto using step_req.
Qed.

Lemma run_call es s s' id e meth t args b :
  run s es = Some s' → ECall id e meth t args b ∈ es →
  reqAt id s' = Some (makeReq e meth t args).
Proof.
  revert s. induction es as [|ev es IH]; simpl; intros s Hs Hin; [by apply not_elem_of_nil in Hin|].
  apply bind_Some in Hs as (s1 & Hs1 & Hs).
  apply elem_of_cons in Hin as [<-|Hin]; [|by eauto].
  eapply run_req; [done|]. apply callStep_cases in Hs1 as (_ & pc & Hf & _).
  unfold reqAt. rewrite Hf; simpl. by rewrite lookup_insert_eq.
Qed.

Lemma decodeArgs_enc t args : decodeArgs t (gob_enc args) = args.
Proof. unfold decodeArgs. by rewrite gob_dec_enc_last. Qed.

(** What a successful dispatch of a typed request is. *)
Lemma serverDispatch_call w rs e meth t args rs' w' r :
  serverDispatch w rs (makeReq e meth t args) = Some (rs', w', r) →
  ∃ sn mn svc m (Heq : t = inType m),
    splitLastDot meth = Some (sn, mn) ∧ services rs !! sn = Some svc ∧
    methods svc !! mn = Some m ∧
    let res := callMethod m w (eq_rect t Val args (inType m) Heq) (zeroVal (replyType m)) in
    w' = res.1 ∧ finishCall (replyType m) r = Some (Some res.2).
Proof.
  unfold serverDispatch. intros Hd. simpl in Hd.
  apply bind_Some in Hd as ([sn mn] & Hsp & Hd).
  apply bind_Some in Hd as (svc & Hsvc & Hd).
  apply bind_Some in Hd as ([w1 r1] & Hm & Hd). injection Hd as <- <- <-.
  unfold serviceDispatch in Hm. destruct (methods svc !! mn) as [m|] eqn:Hmn; [|done].
  destruct (decide _) as [Heq|]; [|done]. simpl in Heq, Hm.
  rewrite decodeArgs_enc in Hm.
  destruct (callMethod _ _ _ _) as [w2 v] eqn:Hc. injection Hm as <- <-.
  exists sn, mn, svc, m, Heq. do 3 (split; [done|]).
  cbv zeta. rewrite Hc. simpl. split; [done|]. unfold finishCall; simpl.
  by rewrite gob_dec_enc_last.
Qed.

(** C24.  A [Call] that returns true was executed exactly once, by the method it names, on
    the arguments it was given; the value it hands back is the reply of that execution.
    (The request may be dropped, the reply may be dropped or delayed, servers may come and
    go: [es] is any interleaving.) *)
Theorem call_returns_own_execution w es s id e meth t args b f r :
  run (initSys w) es = Some s →
  ECall id e meth t args b ∈ es →
  flights s !! id = Some f → f_pc f = PDone r → ok r = true →
  ∃ h, runsOf id s = [h] ∧
    ∃ sn mn svc m (Heq : t = inType m),
      splitLastDot meth = Some (sn, mn) ∧ services (r_server h) !! sn = Some svc ∧
      methods svc !! mn = Some m ∧
      finishCall (replyType m) r =
        Some (Some (callMethod m (r_world h) (eq_rect t Val args (inType m) Heq)
          (zeroVal (replyType m))).2).
Proof.
  intros Hrun Hin Hf Hpc Hok.
  pose proof (run_inv es _ _ (Inv_init w) Hrun) as Hi.
  destruct (inv_flights s Hi id f Hf) as (_ & Hp & _).
  destruct (Hp r) as (h & Hh & <-); [rewrite Hpc; simpl; by rewrite Hok|].
  exists h. split; [done|].
  assert (h ∈ filter (λ h, r_id h = id) (hist s)) as [Hid Hhin]%list_elem_of_filter
    by (unfold runsOf in Hh; rewrite Hh; left).
  destruct (inv_runs s Hi h Hhin) as (g & rs' & w' & Hg & Hd).
  pose proof (run_call es _ _ _ _ _ _ _ _ Hrun Hin) as Hreq.
  unfold reqAt in Hreq. rewrite Hid in Hg. rewrite Hg in Hreq. injection Hreq as Hreq.
  rewrite Hreq in Hd.
  destruct (serverDispatch_call _ _ _ _ _ _ _ _ _ Hd) as (sn & mn & svc & m & Heq & ? & ? & ? & ? & ?).
  by exists sn, mn, svc, m, Heq.
Qed.

(** ** A deleted server is silent *)
Lemma serverAt_step s ev s' n p :
  step s ev = Some s' → ev ≠ ENet (OAddServer n p) →
  serverAt (net s) n ≠ Some p → serverAt (net s') n ≠ Some p.
Proof.
  intros Hs Hev Hno. unfold serverAt in *.
  destruct ev as [o| | | |i e meth t args b|i| | | | | |]; cbn [step] in Hs;
    try (apply bind_Some in Hs as (f & Hf & Hs);
         apply (reqStep_shape _ _ _ _ _ Hf) in Hs as [-> _]; done);
    try (apply callStep_cases in Hs as (_ & ? & _ & _ & -> & _); done);
    try (go_inv; done).
  apply bind_Some in Hs as (rn & Ho & [= <-]). simpl.
  destruct o; simpl in Ho; unfold Cleanup, MakeEnd in Ho; go_inv; try done.
  - destruct (decide (s0 = n)) as [->|Hne].
    + rewrite lookup_insert_eq; simpl. intros [= ->]. done.
    + by rewrite lookup_insert_ne.
  - destruct (decide (s0 = n)) as [->|Hne].
    + by rewrite lookup_insert_eq.
    + by rewrite lookup_insert_ne.
Qed.

Lemma doomed_step s ev s' n p id f :
  step s ev = Some s' → serverAt (net s) n ≠ Some p →
  flights s !! id = Some f → doomed n p (f_pc f) →
  ∃ f', flights s' !! id = Some f' ∧ doomed n p (f_pc f').
Proof.
  intros Hs Hno Hf Hd.
  destruct ev as [o| | | |i e meth t args b|i| | | | | |]; cbn [step] in Hs;
    try (apply bind_Some in Hs as (g & Hg & Hs);
         apply (reqStep_shape _ _ _ _ _ Hg) in Hs as (_ & g' & -> & _ & Hd');
         rewrite lookup_insert; case_decide; subst;
         [eexists; split; [done|]; apply Hd'; [done|]; congruence|by eauto]);
    try (exists f; go_inv; done).
  apply callStep_cases in Hs as (Hid & pc & -> & _). exists f. split; [|done]. simpl.
  rewrite lookup_insert_ne; [done|]. congruence.
Qed.

(** Once a server has been deleted or replaced, no request it was still serving is
    answered: every [Call] that was waiting for it returns false, if it returns. *)
Theorem deleted_server_silent es s s' n p id f f' r :
  run s es = Some s' →
  serverAt (net s) n ≠ Some p → ENet (OAddServer n p) ∉ es →
  flights s !! id = Some f → pcServer (f_pc f) = Some (n, p) →
  flights s' !! id = Some f' → f_pc f' = PDone r → ok r = false.
Proof.
  intros Hrun Hno Hnew Hf Hpc Hf' Hr.
  assert (doomed n p (f_pc f)) as Hd by by left. clear Hpc.
  revert s f Hrun Hno Hf Hd. induction es as [|ev es IH]; simpl; intros s f Hrun Hno Hf Hd.
  - injection Hrun as <-. destruct Hd as [Hd|(r' & Hd & ?)]; simplify_eq; [|by congruence].
    by rewrite Hr in Hd.
  - apply not_elem_of_cons in Hnew as [Hne Hnew].
    apply bind_Some in Hrun as (s1 & Hs & Hrun).
    destruct (doomed_step _ _ _ _ _ _ _ Hs Hno Hf Hd) as (f1 & Hf1 & Hd1).
    eapply IH; [done|done| |done|done]. eapply serverAt_step; [done| |done]. by intros ->.
Qed.

End labrpc.
Arguments Event RType {_} Name W.
Arguments Sys RType {_} Name {_ _} W.

(** ** A concrete network: one echo server, called once over an unreliable network *)
Module Demo.
Import SampleGob.

#[export] Instance natTypes : GoTypes unit :=
  {| Val := λ _, nat; zeroVal := λ _, O; gobVal := λ _, gob_nat |}.

(** The receiver counts its calls and replies with argument and counter. *)
Definition echo : Method := mkMethod (W := nat) tt tt (λ w a _, (S w, (a + w)%nat)).
Definition echoService : Service :=
  MakeService "Echo" [mkRaw "Add" true 3 true 0 echo; mkRaw "helper" false 1 false 0 echo].

Definition setup : list (Event unit Z nat) :=
  [ENewServer 7; EAddService 7 echoService; ENet (OAddServer 1 7); ENet (OMakeEnd 5);
   ENet (OConnect 5 (Some 1)); ENet (OEnable 5 true); ENet (OReliable false)].
Definition call : list (Event unit Z nat) :=
  [ECall 0 5 "Echo.Add" tt 4%nat false; ERead 0 0; ESpawn 0 500].
Definition finish : list (Event unit Z nat) :=
  [EHandler 0; ERecv 0; EDecide 0 500 0 0 0].
Definition pcOf (s : Sys unit Z nat) : option PC := f_pc <$> flights s !! 0%nat.

Lemma echoed : (s ← run (initSys 10%nat) (setup ++ call ++ finish); pcOf s) =
  Some (PDone (mkReply true (nat_enc 14))).
Proof. vm_compute. reflexivity. Qed.

Lemma waiting : (s ← run (initSys 10%nat) (setup ++ call);
    s1 ← step s (ENet (ODeleteServer 1)); pc ← pcOf s1; Some (pcServer pc, serverAt (net s1) 1)) =
  Some (Some (1, 7%nat), None).
Proof. vm_compute. reflexivity. Qed.

Lemma silenced : (s ← run (initSys 10%nat) (setup ++ call);
    s1 ← step s (ENet (ODeleteServer 1));
    s2 ← run s1 finish; pcOf s2) =
  Some (PDone failed).
Proof. vm_compute. reflexivity. Qed.

Lemma pcOf_Some s pc : pcOf s = Some pc → ∃ f, flights s !! 0%nat = Some f ∧ f_pc f = pc.
Proof. unfold pcOf. intros (f & ? & ?)%fmap_Some. eauto. Qed.

Lemma call_returns_own_execution_witness : ∃ s r h,
  run (initSys 10%nat) (setup ++ call ++ finish) = Some s ∧
  finishCall tt r = Some (Some 14%nat) ∧ runsOf 0 s = [h] ∧
  ∃ sn mn svc m (Heq : tt = inType m),
    splitLastDot "Echo.Add" = Some (sn, mn) ∧ services (r_server h) !! sn = Some svc ∧
    methods svc !! mn = Some m ∧
    finishCall (replyType m) r =
      Some (Some (callMethod m (r_world h) (eq_rect tt Val (4%nat : Val tt) (inType m) Heq)
        (zeroVal (replyType m))).2).
Proof.
  pose proof echoed as He. apply bind_Some in He as (s & Hr & Hp).
  apply pcOf_Some in Hp as (f & Hf & Hpc).
  destruct (call_returns_own_execution 10%nat (setup ++ call ++ finish) s 0 5 "Echo.Add" tt 4%nat
    false f (mkReply true (nat_enc 14)) Hr) as (h & Hh & Hm); [|exact Hf|exact Hpc|reflexivity|].
  - apply elem_of_app; right. apply elem_of_app; left. left.
  - exists s, (mkReply true (nat_enc 14)), h.
    split; [exact Hr|]. split; [reflexivity|]. split; [exact Hh|exact Hm].
Defined.

Lemma deleted_server_silent_witness : ∃ s s' f',
  run s finish = Some s' ∧ flights s' !! 0%nat = Some f' ∧
  ∀ r, f_pc f' = PDone r → ok r = false.
Proof.
  pose proof silenced as Hs. apply bind_Some in Hs as (s0 & Hr0 & Hs).
  apply bind_Some in Hs as (s1 & Hd & Hs). apply bind_Some in Hs as (s2 & Hr & Hp).
  pose proof waiting as Hw. rewrite Hr0 in Hw. cbn [mbind option_bind] in Hw.
  rewrite Hd in Hw. cbn [mbind option_bind] in Hw.
  apply bind_Some in Hw as (pc & Hpc & Hw). injection Hw as Hw1 Hw2.
  apply pcOf_Some in Hpc as (f & Hf & Hfpc). apply pcOf_Some in Hp as (f' & Hf' & _).
  exists s1, s2, f'. split; [exact Hr|]. split; [exact Hf'|]. intros r Hrep.
  apply (deleted_server_silent finish s1 s2 1 7 0 f f' r); [exact Hr| | |exact Hf| |exact Hf'|exact Hrep].
  - rewrite Hw2. discriminate.
  - unfold finish. rewrite !elem_of_cons, elem_of_nil. intros [?|[?|[?|[]]]]; discriminate.
  - rewrite Hfpc. exact Hw1.
Defined.
End Demo.
