(* ===== verification/TestNet.v ===== *)
(** What the test harnesses of all four packages ([config.go]) do to the network: they make
    the client ends of a server, a grid of names [endnames[i][j]] for the end of server [i] that
    leads to server [j], and enable and disable these ends. *)
From S2P Require Import Prelude Labgob Labrpc.
#[local] Open Scope Z_scope.

(** Ends have strings as names, servers strings or, in three of the packages, numbers. *)
Abbreviation NetName := (string + Z)%type.
Abbreviation Net := (@Network NetName _ _).

(** [None] is a nil slice: its elements cannot be read. *)
Abbreviation Grid := (list (option (list string))).

(** [cfg.endnames[i][j]] *)
Definition endName (ens : Grid) (i j : Z) : option string :=
  row ← ens.[i]; row ← row; row.[j].

(** [cfg.endnames[i] != nil] *)
Definition hasEnds (ens : Grid) (i : Z) : option bool :=
  row ← ens.[i]; Some (match row with Some _ => true | None => false end).

(** [cfg.net.Enable(name, b)] *)
Definition enableEnd (name : string) (b : bool) (net : Net) : Net := Enable (inl name) b net.

(** [for j := 0; j < cfg.n; j++ { ends[j] = cfg.net.MakeEnd(names[j]); cfg.net.Connect(names[j],
    server(j)) }]; [None] is also the [log.Fatalf] of [MakeEnd] on a name that exists. *)
Definition makeEnds (names : list string) (server : Z → NetName) (n : nat) (net : Net) : option Net :=
  go_for n (λ j net,
    name ← names.[j];
    net ← MakeEnd (inl name) net;
    Some (Connect (inl name) (Some (server j)) net)) net.

(** The loops over the other servers: [wanted j] is the test in front of the body. *)
Definition enableLoop (name : Z → option string) (wanted : Z → option bool) (b : bool) (js : list Z) (net : Net) :
    option Net :=
  foldl (λ (acc : option Net) (j : Z),
    net ← acc; w ← wanted j;
    if (w : bool) then (e ← name j; Some (enableEnd e b net)) else Some net) (Some net) js.

(** [0, ..., n - 1] *)
Definition upTo (n : nat) : list Z := map Z.of_nat (seq 0 n).

Lemma upTo_S k : upTo (S k) = upTo k ++ [Z.of_nat k].
Proof. unfold upTo. by rewrite seq_S, map_app. Qed.

Lemma elem_of_upTo (k : nat) j : j ∈ upTo k ↔ 0 ≤ j < Z.of_nat k.
Proof.
  unfold upTo. rewrite list_elem_of_fmap. split.
  - intros (x & -> & Hx%elem_of_seq). lia.
  - intros Hj. exists (Z.to_nat j). rewrite elem_of_seq. lia.
Qed.

Lemma Exists_upTo (P : Z → Prop) (k : nat) : Exists P (upTo k) ↔ ∃ j, 0 ≤ j < Z.of_nat k ∧ P j.
Proof. rewrite Exists_exists. by setoid_rewrite elem_of_upTo. Qed.

(** ** Which ends are enabled *)
Definition isEnabled (net : Net) (e : string) : bool := enabledAt net (inl e).

(** Two networks that differ at most in which ends are enabled. *)
Record sameWiring (net net' : Net) : Prop := {
  sw_ends : ends net' = ends net;
  sw_servers : servers net' = servers net;
  sw_connections : connections net' = connections net;
}.

#[global] Instance sameWiring_po : PreOrder sameWiring.
Proof. split; [by constructor|]. intros a b c [] []. constructor; congruence. Qed.

Lemma isEnabled_enableEnd name b net e :
  isEnabled (enableEnd name b net) e = if decide (e = name) then b else isEnabled net e.
Proof.
  unfold isEnabled, enabledAt, enableEnd, Enable, setMaps; simpl. case_decide as He.
  - subst. by rewrite lookup_insert_eq.
  - rewrite lookup_insert_ne; [done|congruence].
Qed.

Lemma enableLoop_spec name wanted b js net :
  (∀ j, j ∈ js → ∃ w, wanted j = Some w ∧ (w = true → is_Some (name j))) →
  ∃ net', enableLoop name wanted b js net = Some net' ∧ sameWiring net net' ∧
    ∀ e, isEnabled net' e =
      if decide (Exists (λ j, wanted j = Some true ∧ name j = Some e) js) then b else isEnabled net e.
Proof.
  intros Hj. induction js as [|j js IH] using rev_ind.
  { exists net. split_and!; [done|done|]. intros e. rewrite decide_False; [done|by intros ?%Exists_nil]. }
  destruct IH as (net1 & H1 & Hsw & He); [intros; apply Hj; set_solver|].
  unfold enableLoop in *. rewrite foldl_app, H1. simpl.
  destruct (Hj j) as (w & Hw & Hn); [set_solver|]. rewrite Hw. simpl.
  assert (∀ e, Exists (λ j, wanted j = Some true ∧ name j = Some e) (js ++ [j]) ↔
    Exists (λ j, wanted j = Some true ∧ name j = Some e) js ∨ (w = true ∧ name j = Some e)) as Hex.
  { intros e. rewrite Exists_app, Exists_cons, Exists_nil, Hw. naive_solver. }
  destruct w.
  - destruct (Hn eq_refl) as [x Hx]. rewrite Hx. eexists. split_and!; [reflexivity| |].
    + etransitivity; [exact Hsw|by constructor].
    + intros e. rewrite isEnabled_enableEnd, He. repeat case_decide; try done; subst;
        rewrite ?Hex in *; naive_solver.
  - exists net1. split_and!; [done..|]. intros e. rewrite He. repeat case_decide; try done; rewrite ?Hex in *; naive_solver.
Qed.

Definition hasEnd (net : Net) (e : string) : Prop := is_Some (ends net !! inl e).

(** [MakeEnd] and [Connect] for one name. *)
Lemma makeEnd_spec (e : string) (s : NetName) (net : Net) :
  ¬ hasEnd net e →
  ∃ net1, MakeEnd (inl e) net = Some net1 ∧ let net' := Connect (inl e) (Some s) net1 in
    servers net' = servers net ∧ connectionAt net' (inl e) = Some s ∧
    (∀ x, hasEnd net' x ↔ x = e ∨ hasEnd net x) ∧
    (∀ x, x ≠ e → connectionAt net' (inl x) = connectionAt net (inl x)) ∧
    (∀ x, isEnabled net' x = if decide (x = e) then false else isEnabled net x).
Proof.
  unfold hasEnd, MakeEnd. intros Hn. destruct (ends net !! inl e) eqn:He; [destruct Hn; eauto|].
  eexists. split; [reflexivity|]. unfold Connect, setMaps, connectionAt, isEnabled, enabledAt; simpl.
  split_and!; [done|by rewrite lookup_insert_eq| | |].
  - intros x. rewrite lookup_insert_is_Some. split; [intros [[= ->]|[_ ?]]; auto|].
    intros [->|?]; [by left|]. destruct (decide (x = e)) as [->|]; [by left|right]. split; [congruence|done].
  - intros x Hx. by rewrite !lookup_insert_ne by congruence.
  - intros x. case_decide; [subst; by rewrite lookup_insert_eq|by rewrite lookup_insert_ne by congruence].
Qed.

Lemma makeEnds_spec names server (n : nat) net :
  length names = n → NoDup names → (∀ e, e ∈ names → ¬ hasEnd net e) →
  ∃ net', makeEnds names server n net = Some net' ∧
    servers net' = servers net ∧
    (∀ x, hasEnd net' x ↔ x ∈ names ∨ hasEnd net x) ∧
    (∀ j x, names.[j] = Some x → connectionAt net' (inl x) = Some (server j)) ∧
    (∀ x, x ∉ names → connectionAt net' (inl x) = connectionAt net (inl x)) ∧
    (∀ x, isEnabled net' x = if decide (x ∈ names) then false else isEnabled net x).
Proof.
  intros Hl Hnd Hfresh. unfold makeEnds.
  edestruct (go_for_inv (λ j net',
      servers net' = servers net ∧
      (∀ x, hasEnd net' x ↔ x ∈ take (Z.to_nat j) names ∨ hasEnd net x) ∧
      (∀ k x, 0 ≤ k < j → names.[k] = Some x → connectionAt net' (inl x) = Some (server k)) ∧
      (∀ x, x ∉ take (Z.to_nat j) names → connectionAt net' (inl x) = connectionAt net (inl x)) ∧
      (∀ x, isEnabled net' x = if decide (x ∈ take (Z.to_nat j) names) then false else isEnabled net x)))
    as (net' & -> & H1 & H2 & H3 & H4 & H5).
  - split_and!; [done|set_solver|lia|done|]. intros x. case_decide as Hin; [|done].
    by apply not_elem_of_nil in Hin.
  - intros j net1 Hj (H1 & H2 & H3 & H4 & H5); cbv beta.
    destruct (go_index_lt_Some names j) as [e He]; [unfold len; lia|]. rewrite He; simpl.
    pose proof He as He'. rewrite go_index_nonneg in He' by lia.
    assert (take (Z.to_nat (j + 1)) names = take (Z.to_nat j) names ++ [e]) as Htake.
    { replace (Z.to_nat (j + 1)) with (S (Z.to_nat j)) by lia. by apply take_S_r. }
    assert (e ∉ take (Z.to_nat j) names) as Hnew.
    { intros [k Hk]%list_elem_of_lookup. apply lookup_take_Some in Hk as [Hk Hlt].
      pose proof (NoDup_lookup _ _ _ _ Hnd Hk He'). lia. }
    destruct (makeEnd_spec e (server j) net1) as (net2 & -> & E1 & E2 & E3 & E4 & E5).
    { rewrite H2. intros [?|?]; [done|]. eapply Hfresh; [by eapply list_elem_of_lookup_2|done]. }
    eexists. split; [reflexivity|]. rewrite Htake. split_and!.
    + by rewrite E1.
    + intros x. rewrite E3, H2, elem_of_app, list_elem_of_singleton. tauto.
    + intros k x Hk Hx. destruct (decide (k = j)) as [->|]; [congruence|].
      rewrite E4; [apply H3; [lia|done]|]. intros ->. apply Hnew. rewrite go_index_nonneg in Hx by lia.
      apply list_elem_of_lookup. exists (Z.to_nat k). apply lookup_take_Some. split; [done|lia].
    + intros x Hx. rewrite elem_of_app, list_elem_of_singleton in Hx. rewrite E4 by tauto. apply H4. tauto.
    + intros x. rewrite E5, H5. repeat case_decide; try done; set_solver.
  - rewrite Nat2Z.id, take_ge in * by lia. exists net'. split_and!; try done.
    intros j x Hx. pose proof (go_index_Some_lt _ _ _ Hx). apply H3; [unfold len in *; lia|done].
Qed.

(** ** The grid of names *)
Lemma endName_Some (ens : Grid) i j e :
  endName ens i j = Some e ↔ ∃ row, ens.[i] = Some (Some row) ∧ row.[j] = Some e.
Proof.
  unfold endName. split.
  - intros (row & Hi & H)%bind_Some. apply bind_Some in H as (r & -> & Hj). eauto.
  - intros (row & -> & Hj). simpl. done.
Qed.

Lemma endName_range (k : nat) (ens : Grid) i j e :
  length ens = k → (∀ i row, ens.[i] = Some (Some row) → length row = k) →
  endName ens i j = Some e → 0 ≤ i < Z.of_nat k ∧ 0 ≤ j < Z.of_nat k.
Proof.
  intros Hk Hrow (row & Hi & Hj)%endName_Some. pose proof (go_index_Some_lt _ _ _ Hi).
  pose proof (go_index_Some_lt _ _ _ Hj). specialize (Hrow _ _ Hi). unfold len in *. lia.
Qed.

Lemma endName_total (k : nat) (ens : Grid) i j row :
  (∀ i row, ens.[i] = Some (Some row) → length row = k) → ens.[i] = Some (Some row) → 0 ≤ j < Z.of_nat k →
  is_Some (endName ens i j).
Proof.
  intros Hrow Hi Hj. destruct (go_index_lt_Some row j) as [e He]; [unfold len; rewrite (Hrow _ _ Hi); lia|].
  exists e. apply endName_Some. eauto.
Qed.

Lemma hasEnds_Some (ens : Grid) i :
  0 ≤ i < len ens → ∃ w, hasEnds ens i = Some w ∧ (w = true ↔ ∃ row, ens.[i] = Some (Some row)).
Proof.
  intros Hi. destruct (go_index_lt_Some ens i Hi) as [row Hrow]. unfold hasEnds. rewrite Hrow. simpl.
  eexists. split; [reflexivity|]. destruct row; naive_solver.
Qed.

Lemma endName_insert (ens : Grid) i row a b :
  0 ≤ i < len ens →
  endName (<[Z.to_nat i := Some row]> ens) a b = if decide (a = i) then row.[b] else endName ens a b.
Proof.
  intros Hi. unfold endName. case_decide as Ha.
  - subst. by rewrite go_index_insert_eq.
  - by rewrite go_index_insert_ne by lia.
Qed.

(** The outermost test of the goal. *)
Ltac case_test H := match goal with |- context [if ?d then _ else _] => destruct d as [H|H] end.

(** A grid of [k] rows: every name leads from one server to one server, and its end exists.  [server]:
    how the package names the servers. *)
Record gridOk (k : nat) (server : Z → NetName) (ens : Grid) (nt : Net) : Prop := {
  gr_rows : length ens = k;
  gr_row : ∀ i row, ens.[i] = Some (Some row) → length row = k;
  gr_names : ∀ i j i' j' e, endName ens i j = Some e → endName ens i' j' = Some e → i = i' ∧ j = j';
  gr_made : ∀ i j e, endName ens i j = Some e → hasEnd nt e ∧ connectionAt nt (inl e) = Some (server j);
}.

Lemma gridOk_range k server ens nt i j e :
  gridOk k server ens nt → endName ens i j = Some e → 0 ≤ i < Z.of_nat k ∧ 0 ≤ j < Z.of_nat k.
Proof. intros G. eapply endName_range; apply G. Qed.

Lemma gridOk_net k server ens nt nt' :
  gridOk k server ens nt →
  (∀ e, hasEnd nt e → hasEnd nt' e ∧ connectionAt nt' (inl e) = connectionAt nt (inl e)) →
  gridOk k server ens nt'.
Proof.
  intros [H1 H2 H3 H4] Hk. constructor; try done. intros i j e Hij.
  destruct (H4 _ _ _ Hij) as [He Hc]. destruct (Hk e He) as [He' Hc']. by rewrite Hc'.
Qed.

Lemma gridOk_sameWiring k server ens nt nt' : gridOk k server ens nt → sameWiring nt nt' → gridOk k server ens nt'.
Proof.
  intros G [He _ Hc]. apply (gridOk_net _ _ _ _ _ G). intros e He'. unfold hasEnd, connectionAt. by rewrite He, Hc.
Qed.

(** What the strings of [randstring] have to be: different from each other and from all names so far. *)
Record newNames (k : nat) (names : list string) (nt : Net) : Prop := {
  nn_length : length names = k;
  nn_NoDup : NoDup names;
  nn_new : ∀ e, e ∈ names → ¬ hasEnd nt e;
}.

Lemma gridOk_insert k server ens nt names nt' i :
  gridOk k server ens nt → newNames k names nt → 0 ≤ i < Z.of_nat k → makeEnds names server k nt = Some nt' →
  gridOk k server (<[Z.to_nat i := Some names]> ens) nt'.
Proof.
  intros G [Hl Hnd Hnew] Hi Hmk.
  destruct (makeEnds_spec names server k nt Hl Hnd Hnew) as (nt0 & Hmk' & _ & He & Hc1 & Hc2 & _).
  rewrite Hmk in Hmk'. injection Hmk' as <-.
  assert (0 ≤ i < len ens) as Hir by (unfold len; rewrite (gr_rows _ _ _ _ G); lia).
  assert (∀ a b e, endName ens a b = Some e → e ∉ names) as Hold.
  { intros a b e Hab Hin. destruct (gr_made _ _ _ _ G _ _ _ Hab). by apply (Hnew e). }
  assert (∀ j e, names.[j] = Some e → e ∈ names) as Hmem.
  { intros j e Hj. pose proof (go_index_Some_lt _ _ _ Hj). rewrite go_index_nonneg in Hj by lia. by eapply list_elem_of_lookup_2. }
  constructor.
  - rewrite length_insert. apply G.
  - intros j row. destruct (decide (j = i)) as [->|]; [rewrite go_index_insert_eq by done; by intros [= <-]|].
    rewrite go_index_insert_ne by lia. apply G.
  - intros a b a' b' e. rewrite !endName_insert by done.
    assert (∀ j j', names.[j] = Some e → names.[j'] = Some e → j = j') as Hinj.
    { intros j j' Hj Hj'. pose proof (go_index_Some_lt _ _ _ Hj). pose proof (go_index_Some_lt _ _ _ Hj').
      rewrite go_index_nonneg in Hj, Hj' by lia. pose proof (NoDup_lookup _ _ _ _ Hnd Hj Hj'). lia. }
    repeat case_decide; intros H1 H2; subst; try (by split; [done|eapply Hinj]); try (by eapply (gr_names _ _ _ _ G));
      exfalso; eapply Hold; eauto.
  - intros a b e. rewrite endName_insert by done. case_decide; intros Hab.
    + split; [|by apply Hc1]. apply He. left. by eapply Hmem.
    + destruct (gr_made _ _ _ _ G _ _ _ Hab) as [H1 H2]. split; [by apply He; right|]. rewrite Hc2; [done|]. by eapply Hold.
Qed.

Lemma go_index_replicate_inv {A} (k : nat) (x : A) i y : (replicate k x).[i] = Some y → y = x.
Proof.
  intros Hi. pose proof (go_index_Some_lt _ _ _ Hi). rewrite go_index_nonneg in Hi by lia.
  by apply lookup_replicate in Hi as [-> _].
Qed.

(** The strings for all ends of [k] servers. *)
Definition goodNames (k : nat) (names : list (list string)) : Prop :=
  length names = k ∧ (∀ i ns, names.[i] = Some ns → length ns = k) ∧ NoDup (concat names).

Lemma goodNames_at k names i ns :
  goodNames k names → names.[i] = Some ns →
  length ns = k ∧ NoDup ns ∧ ∀ e, e ∈ ns → e ∉ concat (take (Z.to_nat i) names).
Proof.
  intros (Hl & Hns & Hnd) Hi. pose proof (go_index_Some_lt _ _ _ Hi) as Hr. split; [by eapply Hns|].
  rewrite go_index_nonneg in Hi by lia.
  rewrite <-(take_drop_middle names _ _ Hi), concat_app in Hnd. simpl in Hnd.
  apply NoDup_app in Hnd as (_ & Hdis & Hnd). apply NoDup_app in Hnd as (Hns' & _). split; [done|].
  intros e He Hin. apply (Hdis e Hin). apply elem_of_app. by left.
Qed.

Lemma concat_take_S (names : list (list string)) (j : nat) ns :
  names !! j = Some ns → concat (take (S j) names) = concat (take j names) ++ ns.
Proof. intros H. rewrite (take_S_r _ _ _ H), concat_app. simpl. by rewrite app_nil_r. Qed.

(** ** Who is reached *)

(** A request on end [e] is handed to the server named [s]. *)
Definition reaches (nt : Net) (e : string) (s : NetName) : Prop :=
  isEnabled nt e = true ∧ connectionAt nt (inl e) = Some s ∧ is_Some (serverAt nt s).

Lemma startReq_reaches nt e s roll :
  (∃ p rel lr, startReq nt (inl e) roll = PConnected s p rel lr) ↔ reaches nt e s.
Proof.
  unfold startReq, readEndnameInfo, reaches; simpl. change (enabledAt nt (inl e)) with (isEnabled nt e). split.
  - intros (p & rel & lr & H). destruct (isEnabled nt e); [|done].
    destruct (connectionAt nt (inl e)) as [s'|]; [|done]. destruct (serverAt nt s') eqn:Hs; [|done].
    injection H as <- _ _ _. rewrite Hs. eauto.
  - intros (He & Hc & [p Hp]). rewrite He, Hc, Hp. eauto.
Qed.

(** What [enableLoop] leaves alone, whatever its arguments. *)
Lemma enableLoop_keeps name wanted b js net net' :
  enableLoop name wanted b js net = Some net' →
  sameWiring net net' ∧ ∀ e, (∀ j, name j ≠ Some e) → isEnabled net' e = isEnabled net e.
Proof.
  revert net'. induction js as [|j js IH] using rev_ind; intros net'.
  { intros [= <-]. done. }
  unfold enableLoop in *. rewrite foldl_app. simpl. intros (net1 & H1 & H)%bind_Some.
  destruct (IH _ H1) as [Hw He]. apply bind_Some in H as (w & _ & H). destruct w; [|by injection H as <-].
  apply bind_Some in H as (x & Hx & [= <-]). split; [etransitivity; [exact Hw|by constructor]|].
  intros e Hn. rewrite isEnabled_enableEnd, decide_False; [by apply He|]. intros ->. by apply (Hn j).
Qed.
