(* ===== verification/RaftConfig.v ===== *)
(** Model of [src/src/raft/config.go], the tester of the Raft tests: it runs the peers on a
    network, crashes and disconnects them, keeps what each peer applies and checks it.

    A call of a method is one function of the [config]; what happens between two
    observations of a method that waits ([checkOneLeader], [wait], [one]) is an argument.
    [saved[i]] is the very persister of the peer [rafts[i]] while that peer is up. *)
From S2P Require Import Prelude Labgob Persister Raft RaftNode Labrpc TestNet.
#[local] Open Scope Z_scope.

Module Cfg.

(** What the tests stop with: [t.Fatalf] and [log.Fatalf] with the values they print. *)
Inductive Failure {C : Type} :=
  | CommitMismatch (index i : Z) (v : option C) (j : Z) (old : option C)
  | OutOfOrder (i index : Z)
  | DecodeError
  | ManyLeaders (term count : Z)
  | NoLeader
  | TermsDisagree
  | LeaderClaimed (i : Z)
  | ApplyError (err : Failure)
  | ValuesDiffer (index : Z) (cmd cmd1 : option C)
  | OnlyDecided (nd index n : Z)
  | NoAgreement (cmd : option C)
  | TookTooLong.
Arguments Failure : clear implicits.

(** A method returns, stops the test, or panics. *)
Inductive Outcome (C A : Type) := Panic | Fatal (why : Failure C) | Pass (a : A).
Arguments Panic {C A}.
Arguments Fatal {C A} why.
Arguments Pass {C A} a.

#[global] Instance Outcome_ret C : MRet (Outcome C) := λ A, Pass.
#[global] Instance Outcome_bind C : MBind (Outcome C) := λ A B k m,
  match m with Panic => Panic | Fatal why => Fatal why | Pass a => k a end.

(** Indexing and calls that may panic. *)
Definition orPanic {C A} (o : option A) : Outcome C A := match o with Some a => Pass a | None => Panic end.

Section config.
Context {C : Type} `{EqDecision C} `{!Gob Z, !Gob (list (Log C))}.

Record config := mkConfig {
  net : Net;
  n : nat;
  rafts : list (option (Raft C));
  applyErr : list (option (Failure C));
  connected : list bool;
  saved : list (option Persister);
  endnames : Grid;
  logs : list (gmap Z (option C));
  rpcs0 : Z;
  cmds0 : Z;
  bytes0 : Z;
  maxIndex : Z;
  maxIndex0 : Z;
}.

Definition set_net v cfg := mkConfig v (n cfg) (rafts cfg) (applyErr cfg) (connected cfg) (saved cfg)
  (endnames cfg) (logs cfg) (rpcs0 cfg) (cmds0 cfg) (bytes0 cfg) (maxIndex cfg) (maxIndex0 cfg).
Definition set_rafts v cfg := mkConfig (net cfg) (n cfg) v (applyErr cfg) (connected cfg) (saved cfg)
  (endnames cfg) (logs cfg) (rpcs0 cfg) (cmds0 cfg) (bytes0 cfg) (maxIndex cfg) (maxIndex0 cfg).
Definition set_connected v cfg := mkConfig (net cfg) (n cfg) (rafts cfg) (applyErr cfg) v (saved cfg)
  (endnames cfg) (logs cfg) (rpcs0 cfg) (cmds0 cfg) (bytes0 cfg) (maxIndex cfg) (maxIndex0 cfg).
Definition set_saved v cfg := mkConfig (net cfg) (n cfg) (rafts cfg) (applyErr cfg) (connected cfg) v
  (endnames cfg) (logs cfg) (rpcs0 cfg) (cmds0 cfg) (bytes0 cfg) (maxIndex cfg) (maxIndex0 cfg).
Definition set_endnames v cfg := mkConfig (net cfg) (n cfg) (rafts cfg) (applyErr cfg) (connected cfg) (saved cfg)
  v (logs cfg) (rpcs0 cfg) (cmds0 cfg) (bytes0 cfg) (maxIndex cfg) (maxIndex0 cfg).
Definition set_logs v mi cfg := mkConfig (net cfg) (n cfg) (rafts cfg) (applyErr cfg) (connected cfg) (saved cfg)
  (endnames cfg) v (rpcs0 cfg) (cmds0 cfg) (bytes0 cfg) mi (maxIndex0 cfg).

(** ** The network of a peer *)
Definition connect (i : Z) (cfg : config) : option config :=
  conn ← (connected cfg).[i <~ true];
  let wanted := λ j, conn.[j] in
  nt ← enableLoop (λ j, endName (endnames cfg) i j) wanted true (upTo (n cfg)) (net cfg);
  nt ← enableLoop (λ j, endName (endnames cfg) j i) wanted true (upTo (n cfg)) nt;
  Some (set_net nt (set_connected conn cfg)).

Definition disconnect (i : Z) (cfg : config) : option config :=
  conn ← (connected cfg).[i <~ false];
  nt ← enableLoop (λ j, endName (endnames cfg) i j) (λ _, hasEnds (endnames cfg) i) false (upTo (n cfg)) (net cfg);
  nt ← enableLoop (λ j, endName (endnames cfg) j i) (λ j, hasEnds (endnames cfg) j) false (upTo (n cfg)) nt;
  Some (set_net nt (set_connected conn cfg)).

(** ** Crash and restart *)

(** What [cfg.saved[i]] holds: a peer that is up writes through the pointer it was given. *)
Definition savedNow (cfg : config) (i : Z) : option (option Persister) :=
  rf ← (rafts cfg).[i];
  match rf with Some rf => Some (Some (persister rf)) | None => (saved cfg).[i] end.

(** The old instance may run on, but on a persister of its own from the [Copy] on. *)
Definition crash1 (i : Z) (cfg : config) : option config :=
  cfg ← disconnect i cfg;
  let cfg := set_net (DeleteServer (inr i) (net cfg)) cfg in
  s ← savedNow cfg i;
  let s := Copy <$> s in
  rs ← (rafts cfg).[i <~ None];
  let s := (λ p, SaveStateAndSnapshot MakePersister (ReadRaftState p) (ReadSnapshot p)) <$> s in
  sv ← (saved cfg).[i <~ s];
  Some (set_saved sv (set_rafts rs cfg)).

(** [names]: the strings that [randstring] returns; [srv]: the identity of the new server. *)
Definition start1 (i : Z) (names : list string) (srv : nat) (cfg : config) : option config :=
  cfg ← crash1 i cfg;
  ens ← (endnames cfg).[i <~ Some names];
  nt ← makeEnds names inr (n cfg) (net cfg);
  s ← (saved cfg).[i];
  let p := match s with Some p => Copy p | None => MakePersister end in
  sv ← (saved cfg).[i <~ Some p];
  rf ← Make (n cfg) i p;
  rs ← (rafts cfg).[i <~ Some rf];
  Some (set_net (AddServer (inr i) srv nt) (set_rafts rs (set_saved sv (set_endnames ens cfg)))).

Definition make_config (n : nat) (unreliable : bool) (names : list (list string)) (srv : Z → nat) : option config :=
  let nt := LongDelays true (Reliable (negb unreliable) MakeNetwork) in
  let cfg := mkConfig nt n (replicate n None) (replicate n None) (replicate n false) (replicate n None)
               (replicate n None) (replicate n ∅) 0 0 0 0 0 in
  cfg ← go_for n (λ i cfg, ns ← names.[i]; start1 i ns (srv i) cfg) cfg;
  go_for n connect cfg.

(** The end of the test; [elapsed] is the time since the start in seconds. *)
Definition checkTimeout (failed : bool) (elapsed : Z) : Outcome C unit :=
  if negb failed && (120 <? elapsed) then Fatal TookTooLong else Pass tt.

Definition cleanup (failed : bool) (elapsed : Z) (cfg : config) : Outcome C config :=
  let cfg := set_rafts (map (fmap Kill) (rafts cfg)) cfg in
  nt ← orPanic (Cleanup (net cfg));
  _ ← checkTimeout failed elapsed;
  Pass (set_net nt cfg).

Definition rpcTotal (cfg : config) : Z := GetTotalCount (net cfg).
Definition bytesTotal (cfg : config) : Z := GetTotalBytes (net cfg).
Definition setunreliable (unrel : bool) (cfg : config) : config := set_net (Reliable (negb unrel) (net cfg)) cfg.
Definition setlongreordering (longrel : bool) (cfg : config) : config := set_net (LongReordering longrel (net cfg)) cfg.

(** ** What the peers apply *)
Definition checkLogs (i : Z) (m : ApplyMsg C) (cfg : config) : option (option (Failure C) * bool * config) :=
  let v := am_Command m in
  let err := foldl (λ err '(j, lg),
    match lg !! CommandIndex m with
    | Some old => if bool_decide (old ≠ v) then Some (CommitMismatch (CommandIndex m) i v (Z.of_nat j) old) else err
    | None => err
    end) None (imap (λ j lg, (j, lg)) (logs cfg)) in
  lg ← (logs cfg).[i];
  let prevok := bool_decide (is_Some (lg !! (CommandIndex m - 1))) in
  ls ← (logs cfg).[i <~ <[CommandIndex m := v]> lg];
  Some (err, prevok, set_logs ls (Z.max (maxIndex cfg) (CommandIndex m)) cfg).

(** [checkLogs] and the test on the order; an error ends the program in [log.Fatalf] before it
    gets into [applyErr]. *)
Definition checkApplied (i : Z) (m : ApplyMsg C) (cfg : config) : Outcome C config :=
  '(err, prevok, cfg) ← orPanic (checkLogs i m cfg);
  let err := if (1 <? CommandIndex m) && negb prevok then Some (OutOfOrder i (CommandIndex m)) else err in
  match err with Some why => Fatal why | None => Pass cfg end.

(** One round of the loop of [applier]. *)
Definition applier (i : Z) (m : ApplyMsg C) (cfg : config) : Outcome C config :=
  if negb (CommandValid m) then Pass cfg else checkApplied i m cfg.

(** ** Checks on the peers

    [seen i] is the state of peer [i] at the moment its [GetState] runs. *)
Definition getState (seen : Z → option (Raft C)) (i : Z) : Outcome C (Z * bool) :=
  rf ← orPanic (seen i); Pass (GetState rf).

Definition addLeader (leaders : gmap Z (list Z)) (term i : Z) : gmap Z (list Z) :=
  <[term := default [] (leaders !! term) ++ [i]]> leaders.

Definition collectLeaders (conn : list bool) (seen : Z → option (Raft C)) (ids : list Z) : Outcome C (gmap Z (list Z)) :=
  foldl (λ (acc : Outcome C (gmap Z (list Z))) (i : Z),
    leaders ← acc;
    up ← orPanic (conn.[i]);
    if (up : bool) then
      '(term, leader) ← getState seen i;
      Pass (if (leader : bool) then addLeader leaders term i else leaders)
    else Pass leaders) (Pass ∅) ids.

(** The range over the map of leaders, [l] its entries in the order of the range. *)
Definition lastTerm (l : list (Z * list Z)) : Outcome C Z :=
  foldl (λ (acc : Outcome C Z) (e : Z * list Z),
    last ← acc;
    if len e.2 >? 1 then Fatal (ManyLeaders e.1 (len e.2))
    else Pass (if e.1 >? last then e.1 else last)) (Pass (-1)) l.

(** The loop of [checkOneLeader]; each round has its own observations and map order. *)
Fixpoint oneLeader (conn : list bool) (rounds : list ((Z → option (Raft C)) * (gmap Z (list Z) → list (Z * list Z))))
    (ids : list Z) : Outcome C Z :=
  match rounds with
  | [] => Fatal NoLeader
  | (seen, ord) :: rounds =>
      leaders ← collectLeaders conn seen ids;
      last ← lastTerm (ord leaders);
      if bool_decide (leaders ≠ ∅) then orPanic ((default [] (leaders !! last)).[0])
      else oneLeader conn rounds ids
  end.

(** Ten rounds. *)
Definition checkOneLeader (rounds : list ((Z → option (Raft C)) * (gmap Z (list Z) → list (Z * list Z)))) (cfg : config) :
    Outcome C Z :=
  oneLeader (connected cfg) (take 10 rounds) (upTo (n cfg)).

Definition checkTerms (seen : Z → option (Raft C)) (cfg : config) : Outcome C Z :=
  foldl (λ (acc : Outcome C Z) (i : Z),
    term ← acc;
    up ← orPanic ((connected cfg).[i]);
    if (up : bool) then
      '(xterm, _) ← getState seen i;
      if term =? -1 then Pass xterm else if negb (term =? xterm) then Fatal TermsDisagree else Pass term
    else Pass term) (Pass (-1)) (upTo (n cfg)).

Definition checkNoLeader (seen : Z → option (Raft C)) (cfg : config) : Outcome C unit :=
  foldl (λ (acc : Outcome C unit) (i : Z),
    _ ← acc;
    up ← orPanic ((connected cfg).[i]);
    if (up : bool) then
      '(_, is_leader) ← getState seen i;
      if (is_leader : bool) then Fatal (LeaderClaimed i) else Pass tt
    else Pass tt) (Pass tt) (upTo (n cfg)).

(** ** Agreement *)

(** [cmd] is nil while [count] is 0. *)
Definition nCommitted (index : Z) (cfg : config) : Outcome C (Z * option C) :=
  foldl (λ (acc : Outcome C (Z * option C)) (i : Z),
    '(count, cmd) ← acc;
    err ← orPanic ((applyErr cfg).[i]);
    match (err : option (Failure C)) with
    | Some e => Fatal (ApplyError e)
    | None =>
        lg ← orPanic ((logs cfg).[i]);
        match (lg : gmap Z (option C)) !! index with
        | Some cmd1 =>
            if (count >? 0) && bool_decide (cmd ≠ cmd1) then Fatal (ValuesDiffer index cmd cmd1)
            else Pass (count + 1, cmd1)
        | None => Pass (count, cmd)
        end
    end) (Pass (0, None)) (upTo (length (rafts cfg))).

(** [for _, r := range cfg.rafts { if t, _ := r.GetState(); t > startTerm { return -1 } }] *)
Fixpoint movedOn (rs : list (option (Raft C))) (startTerm : Z) : Outcome C bool :=
  match rs with
  | [] => Pass false
  | r :: rs =>
      rf ← orPanic r;
      if (GetState rf).1 >? startTerm then Pass true else movedOn rs startTerm
  end.

(** The loop of [wait]: the tester as it is at each [nCommitted] and at each look at the terms.
    [None] is the end of the loop. *)
Fixpoint waitLoop (index nr startTerm : Z) (seen : list (config * list (option (Raft C)))) : Outcome C bool :=
  match seen with
  | [] => Pass false
  | (cfg, rs) :: seen =>
      '(nd, _) ← nCommitted index cfg;
      if nd >=? nr then Pass false else
      gone ← (if startTerm >? -1 then movedOn rs startTerm else Pass false);
      if (gone : bool) then Pass true else waitLoop index nr startTerm seen
  end.

(** The result is [-1], here [None], or the command.  Thirty rounds; [cfg] is the tester at the last look. *)
Definition wait (index nr startTerm : Z) (seen : list (config * list (option (Raft C)))) (cfg : config) :
    Outcome C (option (option C)) :=
  gone ← waitLoop index nr startTerm (take 30 seen);
  if (gone : bool) then Pass None else
  '(nd, cmd) ← nCommitted index cfg;
  if nd <? nr then Fatal (OnlyDecided nd index nr) else Pass (Some cmd).

(** The loop of [one] over the servers: [k] of them are left, [starts] was the last tried. *)
Fixpoint tryStart (cmd : C) (k : nat) (starts : Z) (cfg : config) : Outcome C (config * Z * Z) :=
  match k with
  | O => Pass (cfg, starts, -1)
  | S k =>
      let starts := Z.rem (starts + 1) (Z.of_nat (n cfg)) in
      up ← orPanic ((connected cfg).[starts]);
      rf ← (if (up : bool) then orPanic ((rafts cfg).[starts]) else Pass None);
      match rf with
      | None => tryStart cmd k starts cfg
      | Some rf =>
          let '(rf', (index1, _, ok), _) := Start rf cmd in
          rs ← orPanic ((rafts cfg).[starts <~ Some rf']);
          let cfg := set_rafts rs cfg in
          if (ok : bool) then Pass (cfg, starts, index1) else tryStart cmd k starts cfg
      end
  end.

(** The polls of two seconds: what happens before each is an argument.  [None]: not agreed. *)
Fixpoint poll (cmd : C) (index expectedServers : Z) (between : list (config → config)) (cfg : config) :
    Outcome C (config * bool) :=
  match between with
  | [] => Pass (cfg, false)
  | f :: between =>
      let cfg := f cfg in
      '(nd, cmd1) ← nCommitted index cfg;
      if (nd >? 0) && (nd >=? expectedServers) && bool_decide (cmd1 = Some cmd) then Pass (cfg, true)
      else poll cmd index expectedServers between cfg
  end.

(** The ten seconds of [one]: each round is what happens before it and before each of its polls. *)
Fixpoint oneLoop (cmd : C) (expectedServers : Z) (retry : bool)
    (rounds : list ((config → config) * list (config → config))) (starts : Z) (cfg : config) : Outcome C (config * Z) :=
  match rounds with
  | [] => Fatal (NoAgreement (Some cmd))
  | (before, between) :: rounds =>
      '(cfg, starts, index) ← tryStart cmd (n cfg) starts (before cfg);
      if negb (index =? -1) then
        '(cfg, agreed) ← poll cmd index expectedServers between cfg;
        if (agreed : bool) then Pass (cfg, index)
        else if negb retry then Fatal (NoAgreement (Some cmd))
        else oneLoop cmd expectedServers retry rounds starts cfg
      else oneLoop cmd expectedServers retry rounds starts cfg
  end.

Definition one (cmd : C) (expectedServers : Z) (retry : bool)
    (rounds : list ((config → config) * list (config → config))) (cfg : config) : Outcome C (config * Z) :=
  oneLoop cmd expectedServers retry rounds 0 cfg.

(** ** Statistics *)
Definition begin (cfg : config) : config :=
  mkConfig (net cfg) (n cfg) (rafts cfg) (applyErr cfg) (connected cfg) (saved cfg) (endnames cfg) (logs cfg)
    (rpcTotal cfg) 0 (bytesTotal cfg) (maxIndex cfg) (maxIndex cfg).

(** What [end] prints: peers, calls, bytes, agreements. *)
Definition end_ (failed : bool) (elapsed : Z) (cfg : config) : Outcome C (option (nat * Z * Z * Z)) :=
  _ ← checkTimeout failed elapsed;
  Pass (if negb failed
        then Some (n cfg, rpcTotal cfg - rpcs0 cfg, bytesTotal cfg - bytes0 cfg, maxIndex cfg - maxIndex0 cfg)
        else None).

(** Maximum log size across all servers; a server that was never started has no persister. *)
Definition LogSize (cfg : config) : option Z :=
  go_for (n cfg) (λ i logsize,
    s ← savedNow cfg i; p ← s;
    let sz := RaftStateSize p in
    Some (if sz >? logsize then sz else logsize)) 0.
End config.
Arguments config : clear implicits.

(** ** Snapshots: the tests that take them use numbers as commands *)
Section snapshots.
Context `{!Gob Z, !Gob (list (Log Z))}.

Definition SnapShotInterval : Z := 10.

(** One round of the loop of [applierSnap]; [lastApplied] is its variable. *)
Definition applierSnap (i : Z) (m : ApplyMsg Z) (lastApplied : Z) (cfg : config Z) : Outcome Z (config Z * Z) :=
  if SnapshotValid m then
    rf ← orPanic ((rafts cfg).[i]); rf ← orPanic rf;
    '(rf, installed) ← orPanic (CondInstallSnapshot rf (SnapshotTerm m) (SnapshotIndex m) (am_Snapshot m));
    rs ← orPanic ((rafts cfg).[i <~ Some rf]);
    let cfg := set_rafts rs cfg in
    if (installed : bool) then
      match gob_dec (am_Snapshot m) with
      | None => Fatal DecodeError
      | Some (v, _) =>
          ls ← orPanic ((logs cfg).[i <~ <[SnapshotIndex m := Some v]> ∅]);
          Pass (set_logs ls (maxIndex cfg) cfg, SnapshotIndex m)
      end
    else Pass (cfg, lastApplied)
  else if CommandValid m && (CommandIndex m >? lastApplied) then
    cfg ← checkApplied i m cfg;
    if Z.rem (CommandIndex m + 1) SnapShotInterval =? 0 then
      v ← orPanic (am_Command m);
      rf ← orPanic ((rafts cfg).[i]); rf ← orPanic rf;
      rf ← orPanic (Snapshot rf (CommandIndex m) (gob_enc v));
      rs ← orPanic ((rafts cfg).[i <~ Some rf]);
      Pass (set_rafts rs cfg, CommandIndex m)
    else Pass (cfg, CommandIndex m)
  else Pass (cfg, lastApplied).
End snapshots.
End Cfg.
