(* ===== verification/RaftConfigProps.v ===== *)
(** The tester of [RaftConfig]: the network always connects exactly the peers that the tester
    considers connected, ends of old instances stay dead, and a restarted peer is the one that
    crashed. *)
From S2P Require Import Prelude Labgob Persister Raft RaftLog RaftNode RaftProps RaftService Labrpc TestNet RaftConfig.
#[local] Open Scope Z_scope.
Import Cfg.

Section wiring.
Context {C : Type} `{EqDecision C} `{!Gob Z, !Gob (list (Log C))}.
Implicit Types (cfg : config C) (rf : Raft C).

Definition isUp (conn : list bool) (i : Z) : Prop := conn.[i] = Some true.

Record wired cfg : Prop := {
  wi_conn : length (connected cfg) = n cfg;
  wi_rafts : length (rafts cfg) = n cfg;
  wi_saved : length (saved cfg) = n cfg;
  wi_grid : gridOk (n cfg) inr (endnames cfg) (net cfg);
  wi_up : ∀ i, isUp (connected cfg) i → ∃ row, (endnames cfg).[i] = Some (Some row);
  wi_enabled : ∀ e, isEnabled (net cfg) e = true ↔
    ∃ i j, endName (endnames cfg) i j = Some e ∧ isUp (connected cfg) i ∧ isUp (connected cfg) j;
  wi_servers : ∀ i, is_Some (serverAt (net cfg) (inr i)) ↔ ∃ rf, (rafts cfg).[i] = Some (Some rf);
}.

Lemma wi_rows cfg : wired cfg → length (endnames cfg) = n cfg.
Proof. intros W. apply W. Qed.
Lemma wi_row cfg : wired cfg → ∀ i row, (endnames cfg).[i] = Some (Some row) → length row = n cfg.
Proof. intros W. apply W. Qed.
Definition wi_names cfg (W : wired cfg) := gr_names _ _ _ _ (wi_grid cfg W).
Definition wi_made cfg (W : wired cfg) := gr_made _ _ _ _ (wi_grid cfg W).

Lemma isUp_insert conn i b j :
  0 ≤ i < len conn → isUp (<[Z.to_nat i := b]> conn) j ↔ if decide (j = i) then b = true else isUp conn j.
Proof.
  intros Hi. unfold isUp. case_decide as Hj.
  - subst. rewrite go_index_insert_eq by done. naive_solver.
  - by rewrite go_index_insert_ne by lia.
Qed.

(** ** Attaching and detaching *)
Lemma sameWiring_kept cfg nt conn :
  wired cfg → sameWiring (net cfg) nt → length conn = n cfg →
  (∀ i, isUp conn i → ∃ row, (endnames cfg).[i] = Some (Some row)) →
  (∀ e, isEnabled nt e = true ↔ ∃ i j, endName (endnames cfg) i j = Some e ∧ isUp conn i ∧ isUp conn j) →
  wired (set_net nt (set_connected conn cfg)).
Proof.
  intros W Hsw Hl Hup Hen. constructor; simpl; try apply W; try done.
  - eapply gridOk_sameWiring; [apply W|done].
  - intros i. unfold serverAt. rewrite (sw_servers _ _ Hsw). apply W.
Qed.

Theorem connect_wired cfg i row :
  wired cfg → (endnames cfg).[i] = Some (Some row) →
  ∃ cfg', connect i cfg = Some cfg' ∧ wired cfg' ∧ endnames cfg' = endnames cfg ∧ n cfg' = n cfg ∧
    rafts cfg' = rafts cfg ∧ saved cfg' = saved cfg ∧ connected cfg' = <[Z.to_nat i := true]> (connected cfg).
Proof.
  intros W Hrow. pose proof (go_index_Some_lt _ _ _ Hrow) as Hi. unfold len in Hi. rewrite (wi_rows _ W) in Hi.
  unfold connect. rewrite go_store_Some by (unfold len; rewrite (wi_conn _ W); lia). simpl.
  set (conn := <[Z.to_nat i:=true]> (connected cfg)).
  assert (∀ j, isUp conn j ↔ if decide (j = i) then true = true else isUp (connected cfg) j) as Hup.
  { intros j. apply isUp_insert. unfold len. rewrite (wi_conn _ W). lia. }
  assert (∀ j, isUp conn j → ∃ row, (endnames cfg).[j] = Some (Some row)) as Hends.
  { intros j Hj. rewrite Hup in Hj. case_decide; [subst; eauto|by apply W]. }
  assert (∀ j, j ∈ upTo (n cfg) → ∃ w, conn.[j] = Some w) as Hconn.
  { intros j Hj%elem_of_upTo. apply go_index_lt_Some. unfold len, conn. rewrite length_insert, (wi_conn _ W). lia. }
  destruct (enableLoop_spec (λ j, endName (endnames cfg) i j) (λ j, conn.[j]) true (upTo (n cfg)) (net cfg))
    as (nt1 & -> & Hs1 & He1).
  { intros j Hj. destruct (Hconn j Hj) as [w Hw]. exists w. split; [done|]. intros _.
    eapply endName_total; [apply W|exact Hrow|by apply elem_of_upTo]. }
  simpl. destruct (enableLoop_spec (λ j, endName (endnames cfg) j i) (λ j, conn.[j]) true (upTo (n cfg)) nt1)
    as (nt2 & -> & Hs2 & He2).
  { intros j Hj. destruct (Hconn j Hj) as [w Hw]. exists w. split; [done|]. intros ->.
    destruct (Hends j Hw) as [row' Hrow']. eapply endName_total; [apply W|exact Hrow'|lia]. }
  simpl. eexists. split_and!; [reflexivity| |done..].
  apply sameWiring_kept; [done|by etransitivity|unfold conn; by rewrite length_insert, (wi_conn _ W)|done|].
  intros e. rewrite He2, He1. case_test Hex; [|case_test Hex0]; rewrite ?Exists_upTo in *.
  - split; [|by intros]. intros _. destruct Hex as (j & _ & Hj & He). exists j, i. split_and!; [done..|].
    rewrite Hup. by rewrite decide_True.
  - split; [|by intros]. intros _. destruct Hex0 as (j & _ & Hj & He). exists i, j. split_and!; [done| |done].
    rewrite Hup. by rewrite decide_True.
  - rewrite (wi_enabled _ W). split; intros (a & b & Hab & Ha & Hb); exists a, b.
    + split_and!; [done|rewrite Hup; by case_decide..].
    + destruct (endName_range _ _ _ _ _ (wi_rows _ W) (wi_row _ W) Hab) as [Ra Rb].
      destruct (decide (a = i)) as [->|]; [destruct Hex0; exists b; by split; [lia|]|].
      destruct (decide (b = i)) as [->|]; [destruct Hex; exists a; by split; [lia|]|].
      rewrite Hup, decide_False in Ha by done. rewrite Hup, decide_False in Hb by done. by split_and!.
Qed.

Theorem disconnect_wired cfg i :
  wired cfg → 0 ≤ i < Z.of_nat (n cfg) →
  ∃ cfg', disconnect i cfg = Some cfg' ∧ wired cfg' ∧ endnames cfg' = endnames cfg ∧ n cfg' = n cfg ∧
    rafts cfg' = rafts cfg ∧ saved cfg' = saved cfg ∧ connected cfg' = <[Z.to_nat i := false]> (connected cfg) ∧
    sameWiring (net cfg) (net cfg').
Proof.
  intros W Hi. unfold disconnect. rewrite go_store_Some by (unfold len; rewrite (wi_conn _ W); lia). simpl.
  set (conn := <[Z.to_nat i:=false]> (connected cfg)).
  assert (∀ j, isUp conn j ↔ if decide (j = i) then false = true else isUp (connected cfg) j) as Hup.
  { intros j. apply isUp_insert. unfold len. rewrite (wi_conn _ W). lia. }
  assert (∀ j, j ∈ upTo (n cfg) → 0 ≤ j < len (endnames cfg)) as Hr.
  { intros j Hj%elem_of_upTo. unfold len. rewrite (wi_rows _ W). lia. }
  assert (0 ≤ i < len (endnames cfg)) as Hir by (apply Hr; by apply elem_of_upTo).
  destruct (enableLoop_spec (λ j, endName (endnames cfg) i j) (λ _, hasEnds (endnames cfg) i) false (upTo (n cfg)) (net cfg))
    as (nt1 & -> & Hs1 & He1).
  { intros j Hj. destruct (hasEnds_Some _ _ Hir) as (w & Hw & Hrow). exists w. split; [done|].
    intros [row Hrow']%Hrow. eapply endName_total; [apply W|done|by apply elem_of_upTo]. }
  simpl. destruct (enableLoop_spec (λ j, endName (endnames cfg) j i) (λ j, hasEnds (endnames cfg) j) false (upTo (n cfg)) nt1)
    as (nt2 & -> & Hs2 & He2).
  { intros j Hj. destruct (hasEnds_Some _ _ (Hr j Hj)) as (w & Hw & Hrow). exists w. split; [done|].
    intros [row Hrow']%Hrow. eapply endName_total; [apply W|done|done]. }
  simpl. eexists. split_and!; [reflexivity| |done..|by etransitivity].
  apply sameWiring_kept; [done|by etransitivity|unfold conn; by rewrite length_insert, (wi_conn _ W)| |].
  { intros j Hj. rewrite Hup in Hj. case_decide; [done|]. by apply W. }
  assert (∀ a b e, endName (endnames cfg) a b = Some e → hasEnds (endnames cfg) a = Some true ∧
    0 ≤ a < Z.of_nat (n cfg) ∧ 0 ≤ b < Z.of_nat (n cfg)) as Hname.
  { intros a b e Hab. split; [|by eapply endName_range; [apply W..|]].
    apply endName_Some in Hab as (row & Hrow & _). unfold hasEnds. by rewrite Hrow. }
  intros e. rewrite He2, He1. case_test Hex; [|case_test Hex0]; rewrite ?Exists_upTo in *.
  - split; [by intros|]. intros (a & b & Hab & Ha & Hb). destruct Hex as (j & _ & _ & He).
    destruct (wi_names _ W _ _ _ _ _ Hab He) as [-> ->]. rewrite Hup, decide_True in Hb by done. done.
  - split; [by intros|]. intros (a & b & Hab & Ha & Hb). destruct Hex0 as (j & _ & _ & He).
    destruct (wi_names _ W _ _ _ _ _ Hab He) as [-> ->]. rewrite Hup, decide_True in Ha by done. done.
  - rewrite (wi_enabled _ W). split; intros (a & b & Hab & Ha & Hb); exists a, b;
      destruct (Hname _ _ _ Hab) as (Hha & Ra & Rb).
    + assert (a ≠ i) by (intros ->; apply Hex0; by exists b).
      assert (b ≠ i) by (intros ->; apply Hex; by exists a).
      split_and!; [done|rewrite Hup, decide_False by done; done..].
    + rewrite Hup in Ha, Hb. split_and!; [done|by repeat case_decide..].
Qed.

(** ** Crash and restart *)

(** [p] is what a peer [i] of [k] has stored. *)
Definition stores (k : nat) (i : Z) (p : Persister) : Prop :=
  ∃ rf, durable rf ∧ persister rf = p ∧ Raft.peers rf = k ∧ me rf = i.

Record peersOk cfg : Prop := {
  po_up : ∀ i rf, (rafts cfg).[i] = Some (Some rf) → durable rf ∧ wf rf ∧ Raft.peers rf = n cfg ∧ me rf = i;
  po_down : ∀ i p, (rafts cfg).[i] = Some None → (saved cfg).[i] = Some (Some p) → stores (n cfg) i p;
}.

Lemma copied_persister p :
  SaveStateAndSnapshot MakePersister (ReadRaftState (Copy p)) (ReadSnapshot (Copy p)) = p.
Proof. destruct p. unfold SaveStateAndSnapshot, ReadRaftState, ReadSnapshot, Copy; simpl. by rewrite !clone_id. Qed.

Lemma savedNow_total cfg i : wired cfg → 0 ≤ i < Z.of_nat (n cfg) → ∃ s, savedNow cfg i = Some s.
Proof.
  intros W Hi. unfold savedNow.
  destruct (go_index_lt_Some (rafts cfg) i) as [r ->]; [unfold len; rewrite (wi_rafts _ W); lia|]. simpl.
  destruct r; [eauto|]. apply go_index_lt_Some. unfold len. rewrite (wi_saved _ W). lia.
Qed.

Lemma crash1_spec cfg i :
  wired cfg → peersOk cfg → 0 ≤ i < Z.of_nat (n cfg) →
  ∃ cfg' s, crash1 i cfg = Some cfg' ∧ wired cfg' ∧ peersOk cfg' ∧ n cfg' = n cfg ∧ endnames cfg' = endnames cfg ∧
    savedNow cfg i = Some s ∧ rafts cfg' = <[Z.to_nat i := None]> (rafts cfg) ∧
    saved cfg' = <[Z.to_nat i := s]> (saved cfg) ∧ connected cfg' = <[Z.to_nat i := false]> (connected cfg) ∧
    ends (net cfg') = ends (net cfg).
Proof.
  intros W P Hi. destruct (disconnect_wired cfg i W Hi) as (cfg1 & Hd & W1 & En & Hn & Hr & Hsv & Hco & Hsw).
  destruct (savedNow_total cfg i W Hi) as [s Hs].
  unfold crash1. rewrite Hd. simpl.
  assert (savedNow (set_net (DeleteServer (inr i) (net cfg1)) cfg1) i = Some s) as Hs1.
  { unfold savedNow in *; simpl. by rewrite Hr, Hsv. }
  rewrite Hs1. simpl. rewrite Hr, Hsv.
  rewrite !go_store_Some by (unfold len; rewrite ?(wi_rafts _ W), ?(wi_saved _ W); lia). simpl.
  assert (((λ p, SaveStateAndSnapshot MakePersister (ReadRaftState p) (ReadSnapshot p)) <$> (Copy <$> s)) = s) as ->.
  { destruct s; simpl; [by rewrite copied_persister|done]. }
  eexists _, s. split_and!; [reflexivity| | |done..|apply Hsw].
  - constructor; simpl; try (by apply W1); rewrite ?Hn.
    + by rewrite length_insert, (wi_rafts _ W).
    + by rewrite length_insert, (wi_saved _ W).
    + rewrite <-Hn. by eapply gridOk_net; [apply W1|].
    + intros j. unfold serverAt; simpl. destruct (decide (j = i)) as [->|Hj].
      * rewrite lookup_insert_eq, go_index_insert_eq by (unfold len; rewrite (wi_rafts _ W); lia).
        split; [by intros [? ?]|by intros [? ?]].
      * rewrite lookup_insert_ne, go_index_insert_ne by (congruence || lia).
        rewrite <-Hr. apply (wi_servers _ W1 j).
  - constructor; simpl; rewrite ?Hn.
    + intros j rf. destruct (decide (j = i)) as [->|Hj].
      * by rewrite go_index_insert_eq by (unfold len; rewrite (wi_rafts _ W); lia).
      * rewrite go_index_insert_ne by lia. apply P.
    + intros j p. destruct (decide (j = i)) as [->|Hj].
      * rewrite !go_index_insert_eq by (unfold len; rewrite ?(wi_rafts _ W), ?(wi_saved _ W); lia).
        intros _ [= ->]. unfold savedNow in Hs. apply bind_Some in Hs as ([rf|] & Hrf & Hs).
        -- injection Hs as <-. destruct (po_up _ P i rf Hrf) as (? & _ & ? & ?). by exists rf.
        -- by apply (po_down _ P).
      * rewrite !go_index_insert_ne by lia. apply P.
Qed.
Definition freshNames (names : list string) cfg : Prop := newNames (n cfg) names (net cfg).

Lemma start_wired cfg i names srv nt nt' sv rs rf :
  wired cfg → freshNames names cfg → 0 ≤ i < Z.of_nat (n cfg) → (connected cfg).[i] = Some false →
  (rafts cfg).[i] = Some None → makeEnds names inr (n cfg) (net cfg) = Some nt →
  nt' = AddServer (inr i) srv nt → rs = <[Z.to_nat i := Some rf]> (rafts cfg) → length sv = n cfg →
  wired (set_net nt' (set_rafts rs (set_saved sv (set_endnames (<[Z.to_nat i := Some names]> (endnames cfg)) cfg)))).
Proof.
  intros W Hnew Hi Hco Hdown Hmk -> -> Hsv. pose proof Hnew as [Hl Hnd Hfresh].
  destruct (makeEnds_spec names inr (n cfg) (net cfg) Hl Hnd Hfresh) as (nt0 & Hmk' & Hs & He & Hc1 & Hc2 & Hen).
  rewrite Hmk in Hmk'. injection Hmk' as <-.
  assert (0 ≤ i < len (endnames cfg)) as Hir by (unfold len; rewrite (wi_rows _ W); lia).
  assert (0 ≤ i < len (rafts cfg)) as Hrr by (unfold len; rewrite (wi_rafts _ W); lia).
  assert (∀ a b e, endName (endnames cfg) a b = Some e → e ∉ names) as Hold.
  { intros a b e Hab Hin. destruct (wi_made _ W _ _ _ Hab) as [? _]. by apply (Hfresh e). }
  assert (¬ isUp (connected cfg) i) as Hnup by (unfold isUp; by rewrite Hco).
  constructor; simpl; try apply W; try done.
  - by rewrite length_insert, (wi_rafts _ W).
  - eapply gridOk_net; [eapply gridOk_insert; [apply W|done..]|done].
  - intros j Hj. assert (j ≠ i) by (by intros ->). rewrite go_index_insert_ne by lia. by apply W.
  - intros e. change (isEnabled nt e = true ↔ ∃ a b, endName (<[Z.to_nat i:=Some names]> (endnames cfg)) a b = Some e ∧
      isUp (connected cfg) a ∧ isUp (connected cfg) b). rewrite Hen.
    assert (∀ a b, isUp (connected cfg) a →
      endName (<[Z.to_nat i:=Some names]> (endnames cfg)) a b = endName (endnames cfg) a b) as Hsame.
    { intros a b Ha. rewrite endName_insert by done. rewrite decide_False; [done|]. intros ->. done. }
    case_test Hin.
    + split; [by intros|]. intros (a & b & Hab & Ha & Hb). rewrite Hsame in Hab by done. by destruct (Hold _ _ _ Hab).
    + rewrite (wi_enabled _ W). split; intros (a & b & Hab & Ha & Hb); exists a, b; split_and!; try done.
      * by rewrite Hsame.
      * by rewrite <-Hsame.
  - intros j. unfold serverAt; simpl. destruct (decide (j = i)) as [->|Hj].
    + rewrite lookup_insert_eq, go_index_insert_eq by done. split; intros _; eauto.
    + rewrite lookup_insert_ne, go_index_insert_ne by (congruence || lia). rewrite Hs. apply (wi_servers _ W j).
Qed.

(** The peer that [start1] makes from the one, if any, that it stops. *)
Definition restarted (cfg : config C) (i : Z) (rf' : Raft C) : Prop :=
  durable rf' ∧ wf rf' ∧ Raft.peers rf' = n cfg ∧ me rf' = i ∧ state rf' = FOLLOWER ∧
  (∀ rf, (rafts cfg).[i] = Some (Some rf) → recovers rf rf') ∧
  (∀ p, savedNow cfg i = Some (Some p) → persister rf' = p) ∧
  (savedNow cfg i = Some None → currentTerm rf' = 0).

Lemma Make_stored k i p :
  stores k i p → ∃ rf', Make k i p = Some rf' ∧ durable rf' ∧ wf rf' ∧ Raft.peers rf' = k ∧ me rf' = i ∧
    state rf' = FOLLOWER ∧ persister rf' = p ∧ ∀ rf, durable rf → persister rf = p → Raft.peers rf = k → me rf = i → recovers rf rf'.
Proof.
  intros (rf & Hd & <- & <- & <-). destruct (Make_recovers rf Hd) as (rf' & Hx & Hrec).
  exists rf'. destruct Hrec. split_and!; try done.
  - by eapply Make_persister.
  - intros rf2 Hd2 Hp2 Hk2 Hm2. destruct (Make_recovers rf2 Hd2) as (rf3 & Hx2 & Hrec2).
    rewrite Hp2, Hk2, Hm2, Hx in Hx2. by injection Hx2 as <-.
Qed.

Lemma start1_spec cfg i names srv :
  wired cfg → peersOk cfg → 0 ≤ i < Z.of_nat (n cfg) → freshNames names cfg →
  ∃ cfg' rf', start1 i names srv cfg = Some cfg' ∧ wired cfg' ∧ peersOk cfg' ∧ n cfg' = n cfg ∧
    endnames cfg' = <[Z.to_nat i := Some names]> (endnames cfg) ∧
    rafts cfg' = <[Z.to_nat i := Some rf']> (rafts cfg) ∧ restarted cfg i rf' ∧
    connected cfg' = <[Z.to_nat i := false]> (connected cfg) ∧
    ∀ e, hasEnd (net cfg') e ↔ e ∈ names ∨ hasEnd (net cfg) e.
Proof.
  intros W P Hi Hnew.
  destruct (crash1_spec cfg i W P Hi) as (cfg1 & s & Hc & W1 & P1 & Hn & Hen & Hs & Hr & Hsv & Hco & He).
  assert (freshNames names cfg1) as F1.
  { destruct Hnew. unfold freshNames. split; [by rewrite Hn|done|]. unfold hasEnd in *. by rewrite He. }
  assert (0 ≤ i < len (rafts cfg)) as Rr by (unfold len; rewrite (wi_rafts _ W); lia).
  assert (0 ≤ i < len (saved cfg)) as Rs by (unfold len; rewrite (wi_saved _ W); lia).
  assert (0 ≤ i < len (connected cfg)) as Rc by (unfold len; rewrite (wi_conn _ W); lia).
  set (p := match s with Some p => Copy p | None => MakePersister end).
  assert (stores (n cfg) i p) as Hst.
  { unfold p. destruct s as [p0|].
    - destruct p0 as [a b]. change (stores (n cfg) i (mkPersister a b)). rewrite <-Hn. apply (po_down _ P1).
      + by rewrite Hr, go_index_insert_eq.
      + by rewrite Hsv, go_index_insert_eq.
    - destruct (Make_fresh (C := C) (n cfg) i) as (rf0 & Hx & _ & Hd & Hp & Hm & _). exists rf0.
      split_and!; try done. by eapply Make_persister. }
  destruct (Make_stored _ _ _ Hst) as (rf' & Hmk & Hd' & Hwf' & Hp' & Hm' & Hst' & Hps & Hrec).
  destruct (makeEnds_spec names inr (n cfg1) (net cfg1)) as (nt & Hnt & _ & Hends & _); [apply F1..|].
  unfold start1. rewrite Hc. simpl.
  rewrite (go_store_Some (endnames cfg1)) by (unfold len; rewrite (wi_rows _ W1), Hn; lia). simpl.
  rewrite Hnt. simpl. rewrite Hsv, go_index_insert_eq by done. simpl. fold p.
  rewrite go_store_Some by (unfold len in *; rewrite length_insert; lia). simpl.
  rewrite Hn, Hmk, Hr. simpl. rewrite go_store_Some by (unfold len in *; rewrite length_insert; lia). simpl.
  eexists _, rf'. split_and!; [reflexivity| | |done|by rewrite <-Hen|by rewrite list_insert_insert_eq| |done|].
  - replace (<[Z.to_nat i:=Some rf']> (<[Z.to_nat i:=None]> (rafts cfg))) with (<[Z.to_nat i:=Some rf']> (rafts cfg1))
      by (by rewrite Hr).
    eapply start_wired; try done.
    + by rewrite Hn.
    + by rewrite Hco, go_index_insert_eq.
    + by rewrite Hr, go_index_insert_eq.
    + rewrite !length_insert. by rewrite (wi_saved _ W).
  - constructor; simpl; rewrite Hn.
    + intros j rf. rewrite list_insert_insert_eq. destruct (decide (j = i)) as [->|].
      * rewrite go_index_insert_eq by done. by intros [= <-].
      * rewrite go_index_insert_ne by lia. apply P.
    + intros j q. rewrite !list_insert_insert_eq. destruct (decide (j = i)) as [->|].
      * by rewrite go_index_insert_eq by done.
      * rewrite !go_index_insert_ne by lia. apply P.
  - split_and!; try done.
    + intros rf Hrf. destruct (po_up _ P _ _ Hrf) as (? & _ & ? & ?). apply Hrec; try done.
      unfold savedNow in Hs. rewrite Hrf in Hs. injection Hs as <-. unfold p. by destruct (persister rf).
    + intros q Hq. rewrite Hs in Hq. injection Hq as ->. rewrite Hps. unfold p. by destruct q.
    + intros Hnone. rewrite Hs in Hnone. injection Hnone as ->.
      destruct (Make_fresh (C := C) (n cfg) i) as (rf0 & Hx & _ & _ & _ & _ & Ht & _).
      unfold p in Hmk. rewrite Hx in Hmk. by injection Hmk as <-.
  - intros e. unfold hasEnd in *. simpl. rewrite Hends, He. done.
Qed.

(** ** The life of the tester *)
Definition allStarted cfg : Prop := ∀ i, 0 ≤ i < Z.of_nat (n cfg) → ∃ row, (endnames cfg).[i] = Some (Some row).

Record testerInv cfg : Prop := { ti_wired : wired cfg; ti_peers : peersOk cfg; ti_started : allStarted cfg }.

(** A call of the test or a step of a peer. *)
Inductive testerStep cfg : config C → Prop :=
  | ts_connect i cfg' : 0 ≤ i < Z.of_nat (n cfg) → connect i cfg = Some cfg' → testerStep cfg cfg'
  | ts_disconnect i cfg' : 0 ≤ i < Z.of_nat (n cfg) → disconnect i cfg = Some cfg' → testerStep cfg cfg'
  | ts_crash i cfg' : 0 ≤ i < Z.of_nat (n cfg) → crash1 i cfg = Some cfg' → testerStep cfg cfg'
  | ts_start i names srv cfg' : 0 ≤ i < Z.of_nat (n cfg) → freshNames names cfg →
      start1 i names srv cfg = Some cfg' → testerStep cfg cfg'
  | ts_unreliable b : testerStep cfg (setunreliable b cfg)
  | ts_reordering b : testerStep cfg (setlongreordering b cfg)
  | ts_apply i m cfg' : applier i m cfg = Pass cfg' → testerStep cfg cfg'
  | ts_peer i rf op rf' : (rafts cfg).[i] = Some (Some rf) → nodeExec rf op = Some rf' →
      testerStep cfg (set_rafts (<[Z.to_nat i := Some rf']> (rafts cfg)) cfg).

Lemma set_net_inv cfg nt :
  sameWiring (net cfg) nt → enabled nt = enabled (net cfg) → testerInv cfg → testerInv (set_net nt cfg).
Proof.
  intros Hsw Hen [W P A]. split; [|by destruct P; constructor|done].
  constructor; simpl; try apply W.
  - eapply gridOk_sameWiring; [apply W|done].
  - intros e. unfold isEnabled, enabledAt. rewrite Hen. apply W.
  - intros i. unfold serverAt. rewrite (sw_servers _ _ Hsw). apply W.
Qed.

Lemma set_logs_inv cfg ls mi : testerInv cfg → testerInv (set_logs ls mi cfg).
Proof. intros [[] [] A]. split; [by constructor|by constructor|done]. Qed.

Lemma set_raft_inv cfg i rf rf' :
  testerInv cfg → (rafts cfg).[i] = Some (Some rf) → durable rf' → wf rf' →
  Raft.peers rf' = Raft.peers rf → me rf' = me rf →
  testerInv (set_rafts (<[Z.to_nat i := Some rf']> (rafts cfg)) cfg).
Proof.
  intros [W P A] Hrf Hd Hwf Hp Hm. pose proof (go_index_Some_lt _ _ _ Hrf) as Hi.
  destruct (po_up _ P _ _ Hrf) as (_ & _ & Hp0 & Hm0). split; [| |done].
  - constructor; simpl; try apply W; [rewrite length_insert; apply W|].
    intros j. rewrite (wi_servers _ W j). destruct (decide (j = i)) as [->|].
    + rewrite Hrf, go_index_insert_eq by done. split; intros _; eauto.
    + by rewrite go_index_insert_ne by lia.
  - constructor; simpl; intros j.
    + intros r. destruct (decide (j = i)) as [->|]; [|rewrite go_index_insert_ne by lia; apply P].
      rewrite go_index_insert_eq by done. intros [= <-]. split_and!; congruence.
    + intros p. destruct (decide (j = i)) as [->|]; [by rewrite go_index_insert_eq by done|].
      rewrite go_index_insert_ne by lia. apply P.
Qed.

Lemma applier_Pass cfg i m cfg' : applier i m cfg = Pass cfg' → cfg' = cfg ∨ ∃ ls mi, cfg' = set_logs ls mi cfg.
Proof.
  unfold applier, checkApplied, checkLogs. case_if; [intros [= <-]; by left|].
  destruct ((logs cfg).[i]) as [lg|]; [|done]. simpl.
  destruct ((logs cfg).[i <~ _]) as [ls|]; [|done]. simpl. case_match; [done|]. intros [= <-]. right; eauto.
Qed.

Lemma testerStep_inv cfg cfg' : testerInv cfg → testerStep cfg cfg' → testerInv cfg' ∧ n cfg' = n cfg.
Proof.
  intros I H. pose proof I as [W P A]. destruct H as [i cfg' Hi H|i cfg' Hi H|i cfg' Hi H|i names srv cfg' Hi Hf H|b|b|i m cfg' H|i rf op rf' Hrf H].
  - destruct (A i Hi) as [row Hrow]. destruct (connect_wired cfg i row W Hrow) as (c & Hc & Wc & En & Hn & Hr & Hs & _).
    rewrite H in Hc. injection Hc as <-. split; [|done]. split; [done| |].
    + destruct P; constructor; by rewrite Hr, ?Hs, Hn.
    + unfold allStarted. by rewrite Hn, En.
  - destruct (disconnect_wired cfg i W Hi) as (c & Hc & Wc & En & Hn & Hr & Hs & _).
    rewrite H in Hc. injection Hc as <-. split; [|done]. split; [done| |].
    + destruct P; constructor; by rewrite Hr, ?Hs, Hn.
    + unfold allStarted. by rewrite Hn, En.
  - destruct (crash1_spec cfg i W P Hi) as (c & s & Hc & Wc & Pc & Hn & En & _). rewrite H in Hc. injection Hc as <-.
    split; [|done]. split; [done..|]. unfold allStarted. by rewrite Hn, En.
  - destruct (start1_spec cfg i names srv W P Hi Hf) as (c & rf' & Hc & Wc & Pc & Hn & En & _).
    rewrite H in Hc. injection Hc as <-. split; [|done]. split; [done..|]. intros j Hj. rewrite Hn in Hj. rewrite En.
    destruct (decide (j = i)) as [->|]; [|rewrite go_index_insert_ne by lia; by apply A].
    exists names. apply go_index_insert_eq. unfold len. rewrite (wi_rows _ W). lia.
  - split; [|done]. by apply set_net_inv; [constructor| |].
  - split; [|done]. by apply set_net_inv; [constructor| |].
  - destruct (applier_Pass _ _ _ _ H) as [->|(ls & mi & ->)]; [done|]. split; [by apply set_logs_inv|done].
  - destruct (po_up _ P _ _ Hrf) as (Hd & Hwf & _). destruct (term_vote _ _ _ H) as (_ & Hm & Hp & _).
    split; [|done]. eapply set_raft_inv; eauto using durable_preserved, wf_preserved.
Qed.

Lemma make_config_inv k unreliable names srv :
  goodNames k names →
  ∃ cfg, make_config k unreliable names srv = Some cfg ∧ testerInv cfg ∧ n cfg = k ∧
    (∀ i, 0 ≤ i < Z.of_nat k → isUp (connected cfg) i ∧ ∃ rf, (rafts cfg).[i] = Some (Some rf)).
Proof.
  intros Hg. pose proof Hg as (Hl & _). unfold make_config.
  set (cfg0 := mkConfig _ _ _ _ _ _ _ _ _ _ _ _ _).
  edestruct (go_for_inv (λ j cfg, wired cfg ∧ peersOk cfg ∧ n cfg = k ∧
      (∀ i, 0 ≤ i < j → ∃ row rf, (endnames cfg).[i] = Some (Some row) ∧ (rafts cfg).[i] = Some (Some rf)) ∧
      ∀ e, hasEnd (net cfg) e ↔ e ∈ concat (take (Z.to_nat j) names))) as (cfg1 & -> & W & P & Hn & Hrow & _).
  - pose proof (λ A, go_index_replicate_inv (A := A) k) as Hrep.
    split_and!; [| |done|lia|by intros e; split; [intros [? ?]|intros ?%not_elem_of_nil]].
    + assert (∀ i j e, endName (endnames cfg0) i j = Some e → False) as Hno.
      { intros i j e (row & Hi & _)%endName_Some. by apply Hrep in Hi. }
      assert (∀ i, ¬ isUp (connected cfg0) i) as Hnup by (by intros i Hi%Hrep).
      constructor; simpl; try (by rewrite length_replicate); try (by intros; exfalso; eauto).
      * constructor; try (by intros; exfalso; eauto); [by rewrite length_replicate|]. by intros i row Hi%Hrep.
      * intros i Hi. by destruct (Hnup i).
      * intros e. split; [done|]. intros (i & j & Hij & _). by destruct (Hno i j e).
      * intros i. split; [by intros [? ?]|]. by intros [rf Hi%Hrep].
    + constructor; simpl; [by intros i rf Hi%Hrep|by intros i p _ Hi%Hrep].
  - intros j cfg Hj (W & P & Hn & Hrow & He); cbv beta.
    destruct (go_index_lt_Some names j) as [ns Hns]; [unfold len; lia|]. rewrite Hns. simpl.
    destruct (goodNames_at _ _ _ _ Hg Hns) as (Hnl & Hnd & Hdis).
    destruct (start1_spec cfg j ns (srv j) W P) as (cfg' & rf' & -> & W' & P' & Hn' & En & Hr & _ & _ & He').
    { by rewrite Hn. }
    { split; [by rewrite Hn|done|]. intros e Hin. rewrite He. by apply Hdis. }
    exists cfg'. split_and!; try done; [by rewrite Hn'| |].
    + intros i Hi. rewrite En, Hr. destruct (decide (i = j)) as [->|].
      * exists ns, rf'. unfold len. by rewrite !go_index_insert_eq by (unfold len; rewrite ?(wi_rows _ W), ?(wi_rafts _ W); lia).
      * rewrite !go_index_insert_ne by lia. apply Hrow. lia.
    + intros e. rewrite He', He. rewrite go_index_nonneg in Hns by lia.
      replace (Z.to_nat (j + 1)) with (S (Z.to_nat j)) by lia. rewrite (concat_take_S _ _ _ Hns), elem_of_app. tauto.
  - simpl. assert (allStarted cfg1) as A1.
    { intros i Hi. rewrite Hn in Hi. destruct (Hrow i Hi) as (row & _ & Hi' & _). eauto. }
    edestruct (go_for_inv (λ j cfg, testerInv cfg ∧ n cfg = k ∧ rafts cfg = rafts cfg1 ∧
      ∀ i, 0 ≤ i < j → isUp (connected cfg) i) connect) as (cfg2 & -> & I2 & Hn2 & Hr2 & Hup2).
    { split_and!; [by constructor|done|done|lia]. }
    { intros j cfg Hj ([Wj Pj Aj] & Hnj & Hrj & Hupj). destruct (Aj j) as [row Hrowj]; [by rewrite Hnj|].
      destruct (connect_wired cfg j row Wj Hrowj) as (cfg' & Hx & W' & En' & Hn' & Hr' & Hs' & Hco').
      exists cfg'. split; [done|]. split_and!; [|by rewrite Hn'|by rewrite Hr'|].
      - apply (testerStep_inv cfg cfg'); [done|]. apply (ts_connect _ j); [by rewrite Hnj|done].
      - intros i Hi. rewrite Hco', isUp_insert by (unfold len; rewrite (wi_conn _ Wj); lia).
        case_decide; [done|]. apply Hupj. lia. }
    exists cfg2. split_and!; try done. intros i Hi. split; [by apply Hup2|].
    rewrite Hr2. destruct (Hrow i Hi) as (_ & rf & _ & Hrf). eauto.
Qed.

Lemma testerSteps_inv cfg cfg' : testerInv cfg → rtc testerStep cfg cfg' → testerInv cfg' ∧ n cfg' = n cfg.
Proof.
  intros I H. revert I. induction H as [cfg|cfg c1 cfg' Hs _ IH]; intros I; [done|].
  destruct (testerStep_inv _ _ I Hs) as [I1 E1]. destruct (IH I1) as [I2 E2]. split; [done|congruence].
Qed.

(** C37: the tester's network.  Whatever sequence of connections, disconnections, crashes,
    restarts and operations of the peers follows the set-up, a request on an end named [e] reaches
    server [j] exactly when [e] is the present name of the end of some peer [i] to [j], both are
    connected, and [j] is up: in particular the ends of a stopped instance, whose names were
    replaced, never reach anybody again. *)
Theorem tester_network k unreliable names srv cfg e j roll :
  goodNames k names →
  (∃ cfg0, make_config k unreliable names srv = Some cfg0 ∧ rtc testerStep cfg0 cfg) →
  (∃ p rel lr, startReq (net cfg) (inl e) roll = PConnected (inr j) p rel lr) ↔
  ∃ i, endName (endnames cfg) i j = Some e ∧ isUp (connected cfg) i ∧ isUp (connected cfg) j ∧
    ∃ rf, (rafts cfg).[j] = Some (Some rf).
Proof.
  intros Hg (cfg0 & H0 & Hs). destruct (make_config_inv k unreliable names srv Hg) as (c & Hc & I0 & _).
  rewrite H0 in Hc. injection Hc as <-. destruct (testerSteps_inv _ _ I0 Hs) as [[W _ _] _].
  rewrite startReq_reaches. unfold reaches. split.
  - intros (He & Hc & Hs'). apply (wi_enabled _ W) in He as (a & b & Hab & Ha & Hb).
    destruct (wi_made _ W _ _ _ Hab) as [_ Hc']. rewrite Hc in Hc'. injection Hc' as <-.
    exists a. split_and!; [done..|]. by apply (wi_servers _ W).
  - intros (i & Hij & Hi & Hj & Hrf). split_and!; [|by eapply wi_made|by apply (wi_servers _ W)].
    apply (wi_enabled _ W). eauto.
Qed.

(** Restart.  However the tester got here, stopping and starting a peer succeeds, and the new
    instance is a follower with the term, the vote, the snapshot position and the log entries that the
    old one had stored. *)
Theorem restart_recovers k unreliable names srv cfg i ns p rf :
  goodNames k names →
  (∃ cfg0, make_config k unreliable names srv = Some cfg0 ∧ rtc testerStep cfg0 cfg) →
  0 ≤ i < Z.of_nat k → freshNames ns cfg → (rafts cfg).[i] = Some (Some rf) →
  ∃ cfg' rf', start1 i ns p cfg = Some cfg' ∧ (rafts cfg').[i] = Some (Some rf') ∧ recovers rf rf'.
Proof.
  intros Hg (cfg0 & H0 & Hs) Hi Hf Hrf. destruct (make_config_inv k unreliable names srv Hg) as (c & Hc & I0 & Hk & _).
  rewrite H0 in Hc. injection Hc as <-. destruct (testerSteps_inv _ _ I0 Hs) as [[W P _] Hn]. rewrite Hk in Hn.
  destruct (start1_spec cfg i ns p W P) as (cfg' & rf' & Hx & _ & _ & _ & _ & Hr & (_ & _ & _ & _ & _ & Hrec & _) & _);
    [by rewrite Hn|done|].
  exists cfg', rf'. split_and!; [done| |by apply Hrec].
  rewrite Hr. apply go_index_insert_eq. unfold len. rewrite (wi_rafts _ W). lia.
Qed.
End wiring.
