(* ===== verification/RaftChecks.v ===== *)
(** The checks of the tester of [RaftConfig]: what it means that [nCommitted], [wait] and
    [one] return, and what [checkOneLeader] and [checkTerms] find. *)
From S2P Require Import Prelude Labgob Persister Raft RaftNode Labrpc TestNet RaftConfig.
#[local] Open Scope Z_scope.
Import Cfg.

(** ** The monad of the tests *)
Lemma Outcome_bind_Pass {C A B} (m : Outcome C A) (f : A → Outcome C B) b :
  m ≫= f = Pass b ↔ ∃ a, m = Pass a ∧ f a = Pass b.
Proof. destruct m; simpl; naive_solver. Qed.

Lemma orPanic_Pass {C A} (o : option A) (a : A) : orPanic (C := C) o = Pass a ↔ o = Some a.
Proof. destruct o; simpl; naive_solver. Qed.

Section checks.
Context {C : Type} `{EqDecision C} `{!Gob Z, !Gob (list (Log C))}.
Implicit Types (cfg : config C) (rf : Raft C).

(** ** [nCommitted] *)

(** The servers among the first [k] that have applied [index]. *)
Definition appliedBy (index : Z) (ls : list (gmap Z (option C))) : list (gmap Z (option C)) :=
  List.filter (λ lg, bool_decide (is_Some (lg !! index))) ls.

(** All logs that have the index have [cmd] there. *)
Definition agreeOn (index : Z) (cmd : option C) (ls : list (gmap Z (option C))) : Prop :=
  ∀ lg v, lg ∈ ls → lg !! index = Some v → v = cmd.

Lemma appliedBy_snoc index ls lg :
  appliedBy index (ls ++ [lg]) = appliedBy index ls ++ (if bool_decide (is_Some (lg !! index)) then [lg] else []).
Proof. unfold appliedBy. by rewrite List.filter_app. Qed.

Lemma agreeOn_snoc index cmd ls lg :
  agreeOn index cmd (ls ++ [lg]) ↔ agreeOn index cmd ls ∧ ∀ v, lg !! index = Some v → v = cmd.
Proof.
  unfold agreeOn. setoid_rewrite elem_of_app. setoid_rewrite list_elem_of_singleton. naive_solver.
Qed.

Lemma appliedBy_nil index cmd ls : appliedBy index ls = [] → agreeOn index cmd ls.
Proof.
  intros Hn lg v Hin Hv. assert (lg ∈ appliedBy index ls) as Hx; [|rewrite Hn in Hx; by apply not_elem_of_nil in Hx].
  apply list_elem_of_In, filter_In. split; [by apply list_elem_of_In|]. apply bool_decide_eq_true. eauto.
Qed.

(** One round of the loop. *)
Definition countOne (index : Z) cfg (acc : Outcome C (Z * option C)) (i : Z) : Outcome C (Z * option C) :=
  '(count, cmd) ← acc;
  err ← orPanic ((applyErr cfg).[i]);
  match (err : option (Failure C)) with
  | Some e => Fatal (ApplyError e)
  | None =>
      lg ← orPanic ((logs cfg).[i]);
      match (lg : gmap Z (option C)) !! index with
      | Some cmd1 =>
          if (count >? 0) && bool_decide (cmd ≠ cmd1) then Fatal (ValuesDiffer index cmd cmd1)
          else Pass (count + 1, cmd1)
      | None => Pass (count, cmd)
      end
  end.

Lemma nCommitted_rounds index cfg :
  nCommitted index cfg = foldl (countOne index cfg) (Pass (0, None)) (upTo (length (rafts cfg))).
Proof. done. Qed.

Definition tally (index : Z) (ls : list (gmap Z (option C))) (nd : Z) (cmd : option C) : Prop :=
  nd = Z.of_nat (length (appliedBy index ls)) ∧ agreeOn index cmd ls ∧ (nd = 0 → cmd = None).

(** A round that passes counts one more server. *)
Lemma countOne_Pass index cfg (k : nat) nd cmd nd' cmd' :
  tally index (take k (logs cfg)) nd cmd → countOne index cfg (Pass (nd, cmd)) (Z.of_nat k) = Pass (nd', cmd') →
  (k < length (logs cfg))%nat ∧ tally index (take (S k) (logs cfg)) nd' cmd'.
Proof.
  intros (-> & Ha & H0) H. unfold countOne in H. simpl in H. rewrite !go_index_of_nat in H.
  destruct (applyErr cfg !! k) as [[e|]|]; simpl in H; [done| |done].
  destruct (logs cfg !! k) as [lg|] eqn:Hlg; simpl in H; [|done].
  split; [by eapply lookup_lt_Some|]. rewrite (take_S_r _ _ _ Hlg). unfold tally.
  rewrite appliedBy_snoc, agreeOn_snoc, length_app.
  destruct (lg !! index) as [v|] eqn:Hv.
  - rewrite bool_decide_true by eauto. case_if_in H; [done|]. injection H as <- <-. simpl. split_and!; [lia| |naive_solver|lia].
    destruct (decide (length (appliedBy index (take k (logs cfg))) = 0)%nat) as [Hz|Hz].
    + apply appliedBy_nil. by apply length_zero_iff_nil.
    + destruct Hif as [?|Hif]; [lia|]. apply dec_stable in Hif. by subst.
  - rewrite bool_decide_false by (by intros [? ?]). injection H as <- <-. simpl. rewrite Nat.add_0_r. naive_solver.
Qed.

Lemma nCommitted_Pass index cfg nd cmd :
  nCommitted index cfg = Pass (nd, cmd) → length (rafts cfg) = length (logs cfg) → tally index (logs cfg) nd cmd.
Proof.
  intros H Hl. rewrite nCommitted_rounds, Hl in H.
  assert (∀ k nd cmd, (k ≤ length (logs cfg))%nat → foldl (countOne index cfg) (Pass (0, None)) (upTo k) = Pass (nd, cmd) →
    tally index (take k (logs cfg)) nd cmd) as Hk.
  { induction k as [|k IH]; intros nd0 cmd0 Hle Hf.
    { injection Hf as <- <-. split_and!; [done| |done]. by intros lg v ?%not_elem_of_nil. }
    rewrite upTo_S, foldl_app in Hf. simpl in Hf.
    destruct (foldl (countOne index cfg) (Pass (0, None)) (upTo k)) as [| |[nd1 cmd1]] eqn:Hk; [done..|].
    eapply countOne_Pass; [|exact Hf]. apply IH; [lia|done]. }
  specialize (Hk (length (logs cfg)) nd cmd (le_n _) H). by rewrite firstn_all in Hk.
Qed.

Lemma nCommitted_total index cmd cfg :
  length (rafts cfg) = length (logs cfg) → applyErr cfg = replicate (length (logs cfg)) None →
  agreeOn index cmd (logs cfg) →
  ∃ cmd', nCommitted index cfg = Pass (Z.of_nat (length (appliedBy index (logs cfg))), cmd').
Proof.
  intros Hl He Ha. rewrite nCommitted_rounds, Hl.
  assert (∀ k, (k ≤ length (logs cfg))%nat → ∃ nd cmd', foldl (countOne index cfg) (Pass (0, None)) (upTo k) = Pass (nd, cmd') ∧
    tally index (take k (logs cfg)) nd cmd') as Hk.
  { induction k as [|k IH]; intros Hle.
    { exists 0, None. split; [done|]. split_and!; [done| |done]. by intros lg v ?%not_elem_of_nil. }
    destruct IH as (nd & cmd' & Hf & Ht); [lia|]. rewrite upTo_S, foldl_app, Hf. simpl.
    assert (∃ nd2 cmd2, countOne index cfg (Pass (nd, cmd')) (Z.of_nat k) = Pass (nd2, cmd2)) as (nd2 & cmd2 & Hx).
    { unfold countOne. simpl. rewrite !go_index_of_nat, He, lookup_replicate_2 by lia. simpl.
      destruct (lookup_lt_is_Some_2 (logs cfg) k) as [lg Hlg]; [lia|]. rewrite Hlg. simpl.
      destruct (lg !! index) as [v|] eqn:Hv; [|eauto]. case_if; [|eauto]. exfalso. destruct Hif as [Hpos Hne].
      destruct Ht as (Hnd & Hag & _). apply Hne. assert (v = cmd) as -> by (eapply Ha; [by eapply list_elem_of_lookup_2|done]).
      destruct (appliedBy index (take k (logs cfg))) as [|lg' l] eqn:Hap; [simpl in Hnd; lia|].
      assert (lg' ∈ appliedBy index (take k (logs cfg))) as Hin by (rewrite Hap; by left).
      apply list_elem_of_In, filter_In in Hin as [Hin Hsome%bool_decide_eq_true]. apply list_elem_of_In in Hin.
      destruct Hsome as [v' Hv']. rewrite <-(Hag _ _ Hin Hv').
      eapply Ha; [|done]. apply list_elem_of_lookup in Hin as [x [Hx _]%lookup_take_Some]. by eapply list_elem_of_lookup_2. }
    exists nd2, cmd2. split; [done|]. by eapply countOne_Pass. }
  destruct (Hk (length (logs cfg)) (le_n _)) as (nd & cmd' & -> & Ht). rewrite firstn_all in Ht. destruct Ht as (-> & _). eauto.
Qed.

(** ** [one] and [wait] *)

(** [index] was applied by at least [k] servers, all with [cmd]. *)
Definition agreement (index : Z) (cmd : option C) (k : Z) cfg : Prop :=
  k ≤ Z.of_nat (length (appliedBy index (logs cfg))) ∧ agreeOn index cmd (logs cfg).

Lemma poll_agreed cmd index expected between cfg cfg' :
  poll cmd index expected between cfg = Pass (cfg', true) → length (rafts cfg') = length (logs cfg') →
  agreement index (Some cmd) expected cfg' ∧ 0 < Z.of_nat (length (appliedBy index (logs cfg'))).
Proof.
  revert cfg. induction between as [|f between IH]; intros cfg H Hl; simpl in H; [done|].
  apply Outcome_bind_Pass in H as ([nd cmd1] & Hn & H). case_if_in H; [|by apply (IH (f cfg))].
  injection H as <-. destruct (nCommitted_Pass _ _ _ _ Hn Hl) as (-> & Ha & _).
  destruct Hif as [[? ?] ->]. split; [by split|lia].
Qed.

(** C38: what [one] promises.  When [one] returns an index, at least [expectedServers] servers, and not
    none, have applied the command there, and every server that has applied something there has
    applied this command. *)
Theorem one_agreed cmd expected retry rounds cfg cfg' index :
  one cmd expected retry rounds cfg = Pass (cfg', index) → length (rafts cfg') = length (logs cfg') →
  index ≠ -1 ∧ agreement index (Some cmd) expected cfg' ∧
  ∃ s lg, logs cfg' !! s = Some lg ∧ lg !! index = Some (Some cmd).
Proof.
  unfold one. generalize 0. revert cfg. induction rounds as [|[before between] rounds IH]; intros cfg z H Hl; simpl in H; [done|].
  apply Outcome_bind_Pass in H as ([[cfg1 starts] index1] & _ & H). case_if_in H; [|by apply (IH cfg1 starts)].
  apply Outcome_bind_Pass in H as ([cfg2 agreed] & Hp & H). destruct agreed.
  - injection H as <- <-. destruct (poll_agreed _ _ _ _ _ _ Hp Hl) as [[Hk Ha] Hpos].
    split; [done|]. split; [by split|].
    destruct (appliedBy index1 (logs cfg2)) as [|lg l] eqn:Hap; [simpl in Hpos; lia|].
    assert (lg ∈ appliedBy index1 (logs cfg2)) as Hin by (rewrite Hap; by left).
    apply list_elem_of_In, filter_In in Hin as [Hin [v Hv]%bool_decide_eq_true]. apply list_elem_of_In in Hin.
    apply list_elem_of_lookup in Hin as Hs. destruct Hs as [s Hs]. exists s, lg. split; [done|].
    by rewrite Hv, (Ha _ _ Hin Hv).
  - case_if_in H; [done|]. by apply (IH cfg2 starts).
Qed.

Lemma movedOn_true rs startTerm :
  movedOn rs startTerm = Pass true → ∃ rf, Some rf ∈ rs ∧ startTerm < currentTerm rf.
Proof.
  induction rs as [|r rs IH]; simpl; [done|]. intros H.
  apply Outcome_bind_Pass in H as (rf & Hr%orPanic_Pass & H). subst r. case_if_in H.
  - exists rf. split; [by left|]. simpl in Hif. lia.
  - destruct (IH H) as (rf' & ? & ?). exists rf'. split; [by right|done].
Qed.

(** What [wait] promises.  It returns a command when enough servers have applied it at the index,
    and gives up only when some peer it looked at was past the term it was started in. *)
Theorem wait_agreed index nr startTerm seen cfg r :
  wait index nr startTerm seen cfg = Pass r → length (rafts cfg) = length (logs cfg) →
  match r with
  | Some cmd => agreement index cmd nr cfg
  | None => ∃ c rs rf, (c, rs) ∈ seen ∧ Some rf ∈ rs ∧ startTerm < currentTerm rf
  end.
Proof.
  intros H Hl. apply Outcome_bind_Pass in H as (gone & Hw & H). destruct gone.
  - injection H as <-. clear Hl cfg.
    assert (∀ l, (∀ x, x ∈ l → x ∈ seen) → waitLoop index nr startTerm l = Pass true →
      ∃ c rs rf, (c, rs) ∈ seen ∧ Some rf ∈ rs ∧ startTerm < currentTerm rf) as Hloop.
    { induction l as [|[c rs] l IH]; intros Hin Hx; simpl in Hx; [done|].
      apply Outcome_bind_Pass in Hx as ([nd ?] & _ & Hx). case_if_in Hx; [done|].
      apply Outcome_bind_Pass in Hx as (gone & Hg & Hx). destruct gone.
      - case_if_in Hg; [|done]. destruct (movedOn_true _ _ Hg) as (rf & ? & ?). exists c, rs, rf.
        split_and!; [apply Hin; by left|done|done].
      - apply IH; [|done]. intros x Hxl. apply Hin. by right. }
    apply (Hloop (take 30 seen)); [|done]. intros x [i [Hi _]%lookup_take_Some]%list_elem_of_lookup.
    by eapply list_elem_of_lookup_2.
  - apply Outcome_bind_Pass in H as ([nd cmd] & Hn & H). case_if_in H; [done|]. injection H as <-.
    destruct (nCommitted_Pass _ _ _ _ Hn Hl) as (-> & Ha & _). split; [lia|done].
Qed.

(** ** [checkOneLeader] and [checkTerms] *)

(** Server [i] is connected and says that it leads term [t]. *)
Definition leads (conn : list bool) (seen : Z → option (Raft C)) (t i : Z) : Prop :=
  conn.[i] = Some true ∧ ∃ rf, seen i = Some rf ∧ state rf = LEADER ∧ currentTerm rf = t.

Definition collected (conn : list bool) (seen : Z → option (Raft C)) (ids : list Z) (leaders : gmap Z (list Z)) : Prop :=
  (∀ t l, leaders !! t = Some l → l ≠ [] ∧ NoDup l) ∧
  ∀ t i, i ∈ default [] (leaders !! t) ↔ i ∈ ids ∧ leads conn seen t i.

Lemma addLeader_collected conn seen ids leaders i rf :
  collected conn seen ids leaders → i ∉ ids → conn.[i] = Some true → seen i = Some rf → state rf = LEADER →
  collected conn seen (ids ++ [i]) (addLeader leaders (currentTerm rf) i).
Proof.
  intros [Hl Hin] Hi Hc Hs Hst. unfold addLeader. set (t := currentTerm rf) in *.
  assert (leads conn seen t i) as Hlead by (split; eauto).
  split.
  - intros t' l [(<- & <-)|[_ Ht]]%lookup_insert_Some; [|by eapply Hl]. split; [by destruct (default [] _)|].
    apply NoDup_app. split_and!; [| |by apply NoDup_singleton].
    + destruct (leaders !! t) as [l|] eqn:Ht; [by apply (Hl t)|constructor].
    + intros x [Hx _]%Hin ->%list_elem_of_singleton. done.
  - intros t' j. rewrite elem_of_app, list_elem_of_singleton. destruct (decide (t' = t)) as [->|Hne].
    + rewrite lookup_insert_eq. simpl. rewrite elem_of_app, list_elem_of_singleton, Hin. naive_solver.
    + rewrite lookup_insert_ne by done. rewrite Hin. split; [naive_solver|]. intros [[?| ->] Hlj]; [done|].
      destruct Hlj as (_ & rf' & Hs' & _ & Ht). rewrite Hs in Hs'. injection Hs' as <-. by destruct Hne.
Qed.

Lemma collected_skip conn seen ids leaders i :
  collected conn seen ids leaders → (∀ t, ¬ leads conn seen t i) → collected conn seen (ids ++ [i]) leaders.
Proof.
  intros [Hl Hin] Hno. split; [done|]. intros t j. rewrite Hin, elem_of_app, list_elem_of_singleton. naive_solver.
Qed.

Lemma collectLeaders_spec conn seen ids leaders :
  NoDup ids → collectLeaders conn seen ids = Pass leaders → collected conn seen ids leaders.
Proof.
  intros Hnd. revert leaders. induction ids as [|i ids IH] using rev_ind; intros leaders H.
  { injection H as <-. split; [done|]. intros t i. rewrite lookup_empty. simpl. set_solver. }
  apply NoDup_app in Hnd as (Hnd & Hdis & _). unfold collectLeaders in *. rewrite foldl_app in H. simpl in H.
  apply Outcome_bind_Pass in H as (l0 & H0 & H). specialize (IH Hnd l0 H0).
  apply Outcome_bind_Pass in H as (up & Hup%orPanic_Pass & H). destruct up.
  - apply Outcome_bind_Pass in H as ([term leader] & Hg & H). injection H as <-.
    unfold getState in Hg. apply Outcome_bind_Pass in Hg as (rf & Hs%orPanic_Pass & [= <- <-]).
    case_bool_decide as Hst.
    + apply addLeader_collected; try done. intros Hin. by apply (Hdis i Hin), list_elem_of_singleton.
    + apply collected_skip; [done|]. intros t (_ & rf' & Hs' & Hst' & _). congruence.
  - injection H as <-. apply collected_skip; [done|]. intros t [Hc _]. congruence.
Qed.

Lemma collectLeaders_no_fatal conn (seen : Z → option (Raft C)) ids why : collectLeaders conn seen ids ≠ Fatal why.
Proof.
  unfold collectLeaders. induction ids as [|i ids IH] using rev_ind; [done|]. rewrite foldl_app. simpl.
  destruct (foldl _ _ ids) as [|w|l]; simpl; [done|by intros [= ->]; apply IH|].
  destruct (conn.[i]) as [[|]|]; simpl; [|done..]. unfold getState. by destruct (seen i).
Qed.

Lemma lastTerm_spec l :
  match lastTerm (C := C) l with
  | Pass last => (∀ e, e ∈ l → len e.2 ≤ 1 ∧ e.1 ≤ last) ∧ (last = -1 ∨ ∃ e, e ∈ l ∧ e.1 = last)
  | Fatal why => ∃ e, e ∈ l ∧ why = ManyLeaders e.1 (len e.2) ∧ 1 < len e.2
  | Panic => False
  end.
Proof.
  unfold lastTerm. induction l as [|e l IH] using rev_ind; simpl; [split; [by intros ? ?%not_elem_of_nil|by left]|].
  rewrite foldl_app. simpl. destruct (foldl _ _ l) as [|why|last]; simpl; [done| |].
  - destruct IH as (e' & ? & ? & ?). exists e'. rewrite elem_of_app. auto.
  - destruct IH as [IH1 IH2]. case_if; [exists e; rewrite elem_of_app, list_elem_of_singleton; split_and!; [by right|done|lia]|].
    split.
    + intros e' [He| ->%list_elem_of_singleton]%elem_of_app; [destruct (IH1 e' He)|]; case_if; lia.
    + case_if.
      * right. exists e. rewrite elem_of_app, list_elem_of_singleton. auto.
      * destruct IH2 as [->|(e' & He & <-)]; [by left|right]. exists e'. rewrite elem_of_app. auto.
Qed.

(** One round: the observations and the order in which Go ranges over the leaders. *)
Definition goodRound (r : (Z → option (Raft C)) * (gmap Z (list Z) → list (Z * list Z))) : Prop :=
  ∀ m, r.2 m ≡ₚ map_to_list m.

Lemma upTo_NoDup (k : nat) : NoDup (upTo k).
Proof. unfold upTo. apply NoDup_fmap_2; [intros ?? ?; lia|apply NoDup_seq]. Qed.

(** What [checkOneLeader] promises.  The server that it returns is connected and led the
    greatest term that any connected server led in the same round, alone; and it stops the test
    about two leaders only if in some round two connected servers led one term. *)
Theorem checkOneLeader_spec rounds cfg :
  Forall goodRound rounds →
  match checkOneLeader rounds cfg with
  | Pass i => ∃ seen ord t, (seen, ord) ∈ rounds ∧ leads (connected cfg) seen t i ∧
      ∀ t' j, 0 ≤ j < Z.of_nat (n cfg) → leads (connected cfg) seen t' j → t' < t ∨ (t' = t ∧ j = i)
  | Fatal (ManyLeaders t k) => ∃ seen ord i j, (seen, ord) ∈ rounds ∧ i ≠ j ∧
      leads (connected cfg) seen t i ∧ leads (connected cfg) seen t j
  | _ => True
  end.
Proof.
  intros Hr. unfold checkOneLeader.
  assert (∀ r, r ∈ take 10 rounds → r ∈ rounds) as Hsub.
  { intros x [i [Hi _]%lookup_take_Some]%list_elem_of_lookup. by eapply list_elem_of_lookup_2. }
  assert (Forall goodRound (take 10 rounds)) as Hr' by (by apply Forall_take).
  revert Hr' Hsub. generalize (take 10 rounds) as rs. clear Hr.
  induction rs as [|[seen ord] rs IH]; intros Hr Hsub; simpl; [done|].
  apply Forall_cons in Hr as [Hord Hr]. unfold goodRound in Hord. simpl in Hord.
  assert ((seen, ord) ∈ rounds) as Hin by (apply Hsub; by left).
  destruct (collectLeaders (connected cfg) seen (upTo (n cfg))) as [|why|leaders] eqn:Hc; simpl.
  - done.
  - by destruct (collectLeaders_no_fatal _ _ _ _ Hc).
  - destruct (collectLeaders_spec _ _ _ _ (upTo_NoDup _) Hc) as [Hl Hi].
    pose proof (lastTerm_spec (ord leaders)) as Hlt.
    assert (∀ t l, (t, l) ∈ ord leaders ↔ leaders !! t = Some l) as Hent.
    { intros t l. by rewrite Hord, elem_of_map_to_list. }
    destruct (lastTerm (ord leaders)) as [|why|last]; simpl; [done| |].
    + destruct Hlt as ([t l] & He & -> & Hlen). apply Hent in He. simpl in *.
      destruct (Hl _ _ He) as [_ Hnd]. destruct l as [|i [|j l]]; [done|unfold len in Hlen; simpl in Hlen; lia|].
      pose proof (Hi t) as Hit. rewrite He in Hit. simpl in Hit.
      exists seen, ord, i, j. split_and!; [done| |apply Hit; by left|apply Hit; right; by left].
      intros ->. apply NoDup_cons in Hnd as [Hnd _]. apply Hnd. by left.
    + case_bool_decide as Hne; [|apply IH; [done|]; intros r Hr'; apply Hsub; by right].
      destruct Hlt as [Hle _].
      destruct ((default [] (leaders !! last)).[0]) as [i|] eqn:Hfirst; simpl; [|done].
      assert (i ∈ default [] (leaders !! last)) as Hil.
      { rewrite go_index_nonneg in Hfirst by lia. by eapply list_elem_of_lookup_2. }
      exists seen, ord, last. split_and!; [done|by apply Hi|]. intros t' j Hj Hlead.
      assert (j ∈ default [] (leaders !! t')) as Hjl by (apply Hi; split; [by apply elem_of_upTo|done]).
      destruct (leaders !! t') as [l|] eqn:Ht'; simpl in Hjl; [|by apply not_elem_of_nil in Hjl].
      destruct (Hle (t', l)) as [Hlen Hle']; [by apply Hent|]. simpl in *.
      destruct (decide (t' = last)) as [->|]; [right|left; lia]. split; [done|].
      rewrite Ht' in Hil. simpl in Hil. destruct l as [|x [|y l]]; [by apply not_elem_of_nil in Hil| |unfold len in Hlen; simpl in Hlen; lia].
      apply list_elem_of_singleton in Hjl, Hil. congruence.
Qed.

(** What [checkTerms] promises: it returns the term of all connected servers, or -1 if
    there is none, and stops the test only if two of them differ. *)
Theorem checkTerms_spec seen cfg :
  (∀ i, 0 ≤ i < Z.of_nat (n cfg) → is_Some ((connected cfg).[i])) →
  (∀ i, (connected cfg).[i] = Some true → ∃ rf, seen i = Some rf ∧ 0 ≤ currentTerm rf) →
  let up i rf := (connected cfg).[i] = Some true ∧ 0 ≤ i < Z.of_nat (n cfg) ∧ seen i = Some rf in
  match checkTerms seen cfg with
  | Pass t => (∀ i rf, up i rf → currentTerm rf = t) ∧ (t = -1 → ∀ i rf, ¬ up i rf)
  | Fatal _ => ∃ i j rf rf', up i rf ∧ up j rf' ∧ currentTerm rf ≠ currentTerm rf'
  | Panic => False
  end.
Proof.
  intros Hconn Hseen up. unfold checkTerms.
  assert (∀ k, (k ≤ n cfg)%nat →
    match foldl (λ (acc : Outcome C Z) (i : Z),
      term ← acc; up ← orPanic ((connected cfg).[i]);
      if (up : bool) then
        '(xterm, _) ← getState seen i;
        if term =? -1 then Pass xterm else if negb (term =? xterm) then Fatal TermsDisagree else Pass term
      else Pass term) (Pass (-1)) (upTo k) with
    | Pass t => (∀ i rf, up i rf → i < Z.of_nat k → currentTerm rf = t) ∧
        (t = -1 ∨ ∃ i rf, up i rf ∧ currentTerm rf = t)
    | Fatal _ => ∃ i j rf rf', up i rf ∧ up j rf' ∧ currentTerm rf ≠ currentTerm rf'
    | Panic => False
    end) as Hk.
  { induction k as [|k IH]; intros Hk; [split; [intros i rf (_ & ? & _); lia|by left]|].
    rewrite upTo_S, foldl_app. simpl. specialize (IH ltac:(lia)).
    destruct (foldl _ _ (upTo k)) as [|why|t]; simpl; [done|done|].
    destruct (Hconn (Z.of_nat k)) as [u Hu]; [lia|]. rewrite Hu. simpl. destruct IH as [IH1 IH2].
    assert (∀ i rf, up i rf → i < Z.of_nat (S k) → i < Z.of_nat k ∨ i = Z.of_nat k) as Hcase by (intros; lia).
    destruct u; simpl.
    - destruct (Hseen _ Hu) as (rf & Hrf & Hpos). unfold getState. rewrite Hrf. simpl.
      assert (up (Z.of_nat k) rf) as Hup by (split_and!; [done|lia|lia|done]).
      destruct (Z.eqb_spec t (-1)) as [->|Hne].
      + split; [|right; eauto]. intros i r Hi Hlt. destruct (Hcase i r Hi Hlt) as [Hlt'| ->].
        * specialize (IH1 i r Hi Hlt'). destruct Hi as (Hc & _ & Hs). destruct (Hseen i Hc) as (r' & Hr' & ?).
          rewrite Hs in Hr'. injection Hr' as <-. lia.
        * destruct Hi as (_ & _ & Hs). congruence.
      + destruct IH2 as [|(j & rj & Hj & <-)]; [done|].
        destruct (Z.eqb_spec (currentTerm rj) (currentTerm rf)) as [Heq|Hdiff]; simpl; [|by exists j, (Z.of_nat k), rj, rf].
        split; [|right; eauto]. intros i r Hi Hlt. destruct (Hcase i r Hi Hlt) as [Hlt'| ->]; [by eapply IH1|].
        destruct Hi as (_ & _ & Hs). congruence.
    - split; [|done]. intros i r Hi Hlt. destruct (Hcase i r Hi Hlt) as [Hlt'| ->]; [by eapply IH1|].
      destruct Hi as (Hc & _). congruence. }
  specialize (Hk (n cfg) (le_n _)). destruct (foldl _ _ _) as [|why|t]; [done|done|]. destruct Hk as [H1 H2]. split.
  - intros i rf Hi. apply (H1 i rf Hi). apply Hi.
  - intros -> i rf Hi. pose proof (H1 i rf Hi ltac:(apply Hi)) as Ht. destruct Hi as (Hc & _ & Hs).
    destruct (Hseen i Hc) as (r' & Hr' & ?). rewrite Hs in Hr'. injection Hr' as <-. lia.
Qed.
End checks.
