(* ===== verification/RaftTester.v ===== *)
(** The tester on top of the cluster: what the peers of [RaftCluster] apply goes through the
    checks of [RaftConfig], and the tests never stop with one of them.

    [updateApplied] hands its batch over one message at a time, after it has let go of the lock;
    [applier] takes them one at a time.  The goroutine of a stopped instance still delivers the
    batch it holds, at any later time, next to the one of the new instance.

    These are the tests whose peers run [applier]: nobody asks for a snapshot in them.  The
    tests of snapshots run [applierSnap], which is modelled in [RaftConfig] and not run here. *)
From S2P Require Import Labrpc TestNet RaftConfig RaftChecks.
From S2P Require Import Prelude Labgob Persister Raft RaftLog RaftNode RaftProps RaftService RaftElection RaftCluster RaftMatching RaftCommit RaftSafety RaftApply.
#[local] Open Scope Z_scope.
Import Cfg.
(* these names are those of the cluster, not of the network *)
Abbreviation world := RaftCluster.world.

Section tester.
Context {C : Type} `{EqDecision C} `{!Gob Z, !Gob (list (Log C))}.
Implicit Types (rf : Raft C) (cfg : config C) (lg : gmap Z (option C)) (q : list (ApplyMsg C)).

(** [t_live]: for every peer the messages that [updateApplied] holds; [t_old]: those that
    stopped instances hold.  The peers are those of the cluster. *)
Record TState := mkTState {
  t_cluster : Cluster C;
  t_cfg : config C;
  t_live : list (list (ApplyMsg C));
  t_old : list (nat * list (ApplyMsg C));
}.

(** [TRaft]: the cluster does anything but the four that follow; [TCrash]: a peer is stopped and
    started again; [TUpdate]: [updateApplied] takes its next batch; [TDeliver], [TLate]: [applier]
    takes the next message of the instance that runs, or of one that was stopped; [TIgnore]: it
    takes a snapshot and ignores it.  A test whose peers run [applier] asks for no snapshot and
    installs none. *)
Inductive TAction :=
  | TRaft (r : RAction C)
  | TCrash (s : nat)
  | TUpdate (s : nat)
  | TDeliver (s : nat)
  | TLate (k : nat)
  | TIgnore (k : nat).

(** A check that fails ends the run: there is no next state. *)
Definition texec (t : TState) (a : TAction) : option TState :=
  match a with
  | TRaft r =>
      if silent r then
        c ← rexec (t_cluster t) r; Some (mkTState c (t_cfg t) (t_live t) (t_old t))
      else None
  | TCrash s =>
      c ← rexec (t_cluster t) (RAct (ACrash s)); q ← t_live t !! s;
      Some (mkTState c (t_cfg t) (<[s := []]> (t_live t)) (t_old t ++ [(s, q)]))
  | TUpdate s =>
      q ← t_live t !! s; rf ← nodes (world (t_cluster t)) !! s;
      match q with
      | [] => '(rf', msgs) ← updateApplied rf;
              Some (mkTState (setPeer s rf' (t_cluster t)) (t_cfg t) (<[s := msgs]> (t_live t)) (t_old t))
      | _ => None
      end
  | TDeliver s =>
      q ← t_live t !! s;
      match q with
      | m :: q => match applier (Z.of_nat s) m (t_cfg t) with
                  | Pass cfg => Some (mkTState (t_cluster t) cfg (<[s := q]> (t_live t)) (t_old t))
                  | _ => None
                  end
      | [] => None
      end
  | TLate k =>
      '(s, q) ← t_old t !! k;
      match q with
      | m :: q => match applier (Z.of_nat s) m (t_cfg t) with
                  | Pass cfg => Some (mkTState (t_cluster t) cfg (t_live t) (<[k := (s, q)]> (t_old t)))
                  | _ => None
                  end
      | [] => None
      end
  | TIgnore k =>
      '(s, m) ← offers (t_cluster t) !! k;
      match applier (Z.of_nat s) m (t_cfg t) with
      | Pass cfg =>
          let c := t_cluster t in
          Some (mkTState (mkCluster (world c) (appends c) (snaps c) (delete k (offers c))) cfg (t_live t) (t_old t))
      | _ => None
      end
  end.

(** The constraint on the runs: [elect] is not overtaken by a change of term, and a leader that
    moves its commit index moves it to an entry of its own term. *)
Definition ownTerm (c : Cluster C) (r : RAction C) : Prop :=
  match r with
  | RAct (AElectSend k) => sendsInTerm (world c) (AElectSend k)
  | RReply k => ∀ c' s rf rf', rexec c r = Some c' →
      nodes (world c) !! s = Some rf → nodes (world c') !! s = Some rf' →
      commitIndex rf' ≠ commitIndex rf → termAt rf' (commitIndex rf') = Some (currentTerm rf')
  | _ => True
  end.

Definition tsafe (t : TState) (a : TAction) : Prop :=
  match a with TRaft r => ownTerm (t_cluster t) r | _ => True end.

(** [k] peers, nothing applied yet. *)
Definition freshTester (k : nat) (cfg : config C) : Prop := logs cfg = replicate k ∅.

Inductive treachable (k : nat) : TState → Prop :=
  | treach_init c cfg : initCluster k = Some c → freshTester k cfg →
      treachable k (mkTState c cfg (replicate k []) [])
  | treach_step t a t' : treachable k t → tsafe t a → texec t a = Some t' → treachable k t'.

(** ** The term of the snapshot on the disk

    Only the installation of a snapshot parts it from the log. *)
Definition diskOk rf : Prop := termAt rf (lastIncludedIndex rf) = Some (lastIncludedTerm rf).
Definition nodesDisk (nds : list (Raft C)) : Prop := ∀ s rf, nds !! s = Some rf → diskOk rf.

Lemma diskOk_same rf rf' :
  (log rf').[0] = (log rf).[0] → lastIncludedTerm rf' = lastIncludedTerm rf → diskOk rf → diskOk rf'.
Proof. unfold diskOk, termAt, realIndex. rewrite !Z.sub_diag. by intros -> ->. Qed.

Lemma exec_term_kept rf op rf' :
  match op with OpSnapshot _ _ => False | _ => True end →
  nodeExec rf op = Some rf' → lastIncludedTerm rf' = lastIncludedTerm rf.
Proof.
  intros Hop H. destruct op; try done; node_unfold; node_inv; simpl in *; try done.
  all: repeat (case_if; simpl in *); try done.
Qed.

Lemma exec_disk rf op rf' :
  wf rf → match op with OpCondInstallSnapshot _ _ _ => False | _ => True end →
  nodeExec rf op = Some rf' → diskOk rf → diskOk rf'.
Proof.
  intros Hwf Hop H Hd. pose proof (quiet_log _ _ _ H) as Hlog. pose proof (wf_log _ Hwf).
  assert ((log rf').[0] = (log rf).[0] → match op with OpSnapshot _ _ => False | _ => True end → diskOk rf') as Hsame.
  { intros Hl Hs. eapply diskOk_same; [exact Hl|by eapply exec_term_kept|done]. }
  destruct op; try done; try (apply Hsame; [by rewrite (proj1 Hlog)|done]).
  - simpl in H. apply bind_Some in H as ([[rf1 reply] eff] & Hx & [= ->]). apply Hsame; [|done].
    destruct (aer_Success reply) eqn:Hs; [|by destruct (AppendEntries_rejected _ _ _ _ _ Hx Hs) as [-> _]].
    pose proof (AppendEntries_keeps _ _ _ _ _ Hwf Hx) as Hk. rewrite Hs in Hk. apply Hk.
  - simpl in H. apply Hsame; [|done]. injection H as <-. destruct (decide (state rf = LEADER)) as [Hst|Hst].
    + destruct (Start_leader rf command Hst) as (-> & _). by rewrite go_index_app_l.
    + by rewrite Start_other.
  - simpl in H. destruct (decide (lastIncludedIndex rf < index)) as [Hi|Hi].
    + destruct (Snapshot_Some _ _ _ _ H Hi) as (l0 & _ & Hl & _ & Hlit & _).
      unfold diskOk, termAt, realIndex. by rewrite Z.sub_diag, Hl, Hlit.
    + unfold Snapshot in H. rewrite (proj2 (Z.leb_le _ _)) in H by lia. by injection H as <-.
Qed.

Lemma cluster_disk n c r c' :
  worldInv n (world c) → nodesDisk (nodes (world c)) → (∀ k, r ≠ RInstall k) → rexec c r = Some c' →
  nodesDisk (nodes (world c')).
Proof.
  intros [V _] Hn Hni [(s & _ & rf & rf' & Hs & Hx & ->)|Hr]%rexec_moves.
  - intros j r' [(-> & <- & _)|[_ Hj]]%list_lookup_insert_Some; [|by eapply Hn].
    destruct (Make_recovers rf (no_durable _ _ _ (vi_nodes _ _ _ _ V _ _ Hs))) as (rf2 & Hx2 & Hrec).
    rewrite Hx in Hx2. injection Hx2 as <-.
    destruct (rec_head _ _ Hrec) as (h & Hh & Ht). unfold diskOk, termAt, realIndex.
    by rewrite Z.sub_diag, Hh, (rec_lit _ _ Hrec), <-Ht.
  - intros s rf' Hs.
    destruct (runs_each (λ rf rf', diskOk rf → diskOk rf') r (nodes (world c)) (nodes (world c')) (λ _ H, H)) with (s := s) (rf' := rf')
      as (rf & Hrf & Hd); [|done|done|by eapply Hd, Hn].
    intros j rf op rf2 Hj Hop Hx. eapply exec_disk; [apply (no_wf _ _ _ (vi_nodes _ _ _ _ V _ _ Hj))| |exact Hx].
    destruct op; try done. destruct r as [[]| | | | | | | |k]; try done; [by destruct Hop as [<- ?]|by destruct (Hni k)].
Qed.

Lemma nodes_disk n nds gs ls s rf op rf' :
  votesInv n nds gs ls → nodesDisk nds → nds !! s = Some rf → match op with OpCondInstallSnapshot _ _ _ => False | _ => True end →
  nodeExec rf op = Some rf' → nodesDisk (<[s := rf']> nds).
Proof.
  intros V Hn Hs Hop Hx j r [(-> & <- & _)|[_ Hj]]%list_lookup_insert_Some; [|by eapply Hn].
  eapply exec_disk; [apply (no_wf _ _ _ (vi_nodes _ _ _ _ V _ _ Hs))|exact Hop|exact Hx|by eapply Hn].
Qed.

Lemma fresh_applied n c s rf :
  initCluster n = Some c → nodes (world c) !! s = Some rf →
  lastApplied rf = 0 ∧ lastIncludedIndex rf = 0 ∧ diskOk rf.
Proof.
  intros Hi Hs. destruct (fresh_peer _ _ _ _ Hi Hs) as [i Hx].
  pose proof (Make_fresh_recovers _ _ _ Hx) as Hrec. destruct (rec_head _ _ Hrec) as (h & Hh & Ht).
  pose proof (rec_applied _ _ Hrec). pose proof (rec_lii _ _ Hrec). pose proof (rec_lit _ _ Hrec) as Hlit. simpl in *.
  split_and!; [done|done|]. unfold diskOk, termAt, realIndex. rewrite Z.sub_diag, Hh, Hlit. simpl. by rewrite Ht.
Qed.

(** No peer has a snapshot, and what waits for [applier] besides commands is a snapshot. *)
Definition noSnapshots (nds : list (Raft C)) : Prop := ∀ s rf, nds !! s = Some rf → lastIncludedIndex rf = 0.
Definition onlySnapshots (c : Cluster C) : Prop := Forall (λ o, CommandValid o.2 = false) (offers c).

Lemma onlySnapshots_step c r c' :
  rexec c r = Some c' → onlySnapshots c → Forall (λ _, True) (snaps c) → onlySnapshots c'.
Proof.
  intros Hx Ho Hs. destruct (snapshots_travel (λ _ _, True) c r c' Hx) as [_ Ho']; [done| |].
  - split; [done|]. eapply Forall_impl; [exact Ho|done].
  - eapply Forall_impl; [exact Ho'|]. by intros o [_ ?].
Qed.

(** What the constraint leaves out of that of [RaftSafety] holds by itself here. *)
Lemma ownTerm_safe n c hist acks got r :
  safeCluster n c hist acks got → nodesDisk (nodes (world c)) → silent r = true → ownTerm c r → safeStep c r.
Proof.
  intros HC Hd Hq H. destruct r as [a|s dst|k|k|k|k|k|k|k]; try done.
  - destruct a as [s op|s|k|k|k|k|s]; try done. by destruct op.
  - intros rf args index Hs _. by eapply Hd.
Qed.

(** ** What the tester keeps *)
(** The messages of a batch continue what the log of the tester has. *)
Fixpoint queueOk (n : nat) hist acks (g : Z) lg q : Prop :=
  match q with
  | [] => True
  | m :: q => CommandValid m = true ∧ 1 ≤ CommandIndex m ≤ g ∧
      (CommandIndex m = 1 ∨ is_Some (lg !! (CommandIndex m - 1))) ∧
      chosenValue n hist acks (CommandIndex m) (am_Command m) ∧
      queueOk n hist acks g (<[CommandIndex m := am_Command m]> lg) q
  end.

Record logOk (n : nat) hist acks (g : Z) lg : Prop := {
  lo_value : ∀ k v, lg !! k = Some v → 1 ≤ k ≤ g ∧ chosenValue n hist acks k v;
  lo_closed : ∀ k k', is_Some (lg !! k) → 1 ≤ k' ≤ k → is_Some (lg !! k');
}.

(** The peer has handed over, or holds in its batch, all it counts as applied. *)
Record peerApplied rf lg q : Prop := {
  pa_behind : lastIncludedIndex rf ≤ lastApplied rf;
  pa_snapshot : ∀ k, 1 ≤ k ≤ lastIncludedIndex rf → is_Some (lg !! k);
  pa_applied : ∀ k, 1 ≤ k ≤ lastApplied rf → is_Some (lg !! k) ∨ ∃ m, m ∈ q ∧ CommandIndex m = k;
}.

Record testerInv (n : nat) (t : TState) hist acks (got : nat → Z) : Prop := {
  te_cluster : safeCluster n (t_cluster t) hist acks got;
  te_disk : nodesDisk (nodes (world (t_cluster t)));
  te_none : noSnapshots (nodes (world (t_cluster t)));
  te_offers : onlySnapshots (t_cluster t);
  te_logs : length (logs (t_cfg t)) = n;
  te_live : length (t_live t) = n;
  te_old : ∀ k s q, t_old t !! k = Some (s, q) → (s < n)%nat;
  te_log : ∀ s lg, logs (t_cfg t) !! s = Some lg → logOk n hist acks (got s) lg;
  te_queue : ∀ s lg q, logs (t_cfg t) !! s = Some lg → t_live t !! s = Some q → queueOk n hist acks (got s) lg q;
  te_late : ∀ k s lg q, t_old t !! k = Some (s, q) → logs (t_cfg t) !! s = Some lg → queueOk n hist acks (got s) lg q;
  te_peer : ∀ s rf lg q, nodes (world (t_cluster t)) !! s = Some rf → logs (t_cfg t) !! s = Some lg →
    t_live t !! s = Some q → peerApplied rf lg q;
}.

(** A log that has more is as good. *)
Lemma queueOk_more n hist acks got hist' acks' got' s lg lg' q :
  grown hist acks got hist' acks' got' → (∀ k, is_Some (lg !! k) → is_Some (lg' !! k)) →
  queueOk n hist acks (got s) lg q → queueOk n hist' acks' (got' s) lg' q.
Proof.
  intros Hg. pose proof Hg as (_ & _ & Hgot). specialize (Hgot s).
  revert lg lg'. induction q as [|m q IH]; intros lg lg' Hmore; [done|].
  intros (Hv & H1 & Hprev & Hc & Hq). simpl. split_and!; [done|lia|lia| | |].
  - destruct Hprev as [?|?]; auto.
  - by eapply chosenValue_grown.
  - eapply IH; [|exact Hq]. intros k. rewrite !lookup_insert_is_Some. naive_solver.
Qed.

Lemma logOk_grown n hist acks got hist' acks' got' s lg :
  grown hist acks got hist' acks' got' → logOk n hist acks (got s) lg → logOk n hist' acks' (got' s) lg.
Proof.
  intros Hg [Hv Hcl]. pose proof Hg as (_ & _ & Hgot). specialize (Hgot s).
  constructor; [|done]. intros k v Hk. destruct (Hv k v Hk). split; [lia|by eapply chosenValue_grown].
Qed.

Lemma logOk_insert n hist acks g lg m q :
  logOk n hist acks g lg → queueOk n hist acks g lg (m :: q) → logOk n hist acks g (<[CommandIndex m := am_Command m]> lg).
Proof.
  intros [Hv Hcl] (_ & H1 & Hprev & Hc & _). constructor.
  - intros k v [(<- & <-)|[_ Hk]]%lookup_insert_Some; [done|by apply Hv].
  - intros k k' Hk Hr. rewrite lookup_insert_is_Some in *. destruct (decide (CommandIndex m = k')) as [|Hne]; [by left|right].
    split; [done|]. destruct Hk as [<-|[_ Hk]]; [|by eapply Hcl].
    destruct Hprev as [?|Hprev]; [lia|]. apply (Hcl _ k' Hprev). lia.
Qed.

(** A message that continues the log and agrees with all logs passes. *)
Lemma applier_passes cfg s lg (m : ApplyMsg C) :
  logs cfg !! s = Some lg → CommandValid m = true → (CommandIndex m = 1 ∨ is_Some (lg !! (CommandIndex m - 1))) →
  (∀ j lg' old, logs cfg !! j = Some lg' → lg' !! CommandIndex m = Some old → old = am_Command m) →
  applier (Z.of_nat s) m cfg =
    Pass (set_logs (<[s := <[CommandIndex m := am_Command m]> lg]> (logs cfg)) (Z.max (maxIndex cfg) (CommandIndex m)) cfg).
Proof.
  intros Hs Hv Hprev Hagree. pose proof (lookup_lt_Some _ _ _ Hs) as Hlt.
  unfold applier, checkApplied, checkLogs. rewrite Hv. simpl.
  rewrite go_index_of_nat, Hs. simpl. rewrite go_store_Some by (unfold len; lia). simpl. rewrite Nat2Z.id.
  match goal with |- context [foldl ?f None ?l] => assert (foldl f None l = None) as -> end.
  { assert (∀ l, (∀ j lg', (j, lg') ∈ l → ∃ j', logs cfg !! j' = Some lg') →
      foldl (λ err '(j, lg), match lg !! CommandIndex m with
        | Some old => if bool_decide (old ≠ am_Command m)
                      then Some (CommitMismatch (CommandIndex m) (Z.of_nat s) (am_Command m) (Z.of_nat j) old) else err
        | None => err end) None l = None) as Hfold.
    { intros l. induction l as [|[j lg'] l IH] using rev_ind; intros Hin; [done|].
      rewrite foldl_app. simpl. rewrite IH by (intros j' lg'' Hj; apply (Hin j'); set_solver).
      destruct (lg' !! CommandIndex m) as [old|] eqn:Hold; [|done]. case_bool_decide as Hne; [|done].
      destruct (Hin j lg') as [j' Hj']; [set_solver|]. destruct Hne. by eapply Hagree. }
    apply Hfold. intros j lg' Hin. apply elem_of_lookup_imap in Hin as (i & x & [= -> ->] & Hi). eauto. }
  assert ((1 <? CommandIndex m) && negb (bool_decide (is_Some (lg !! (CommandIndex m - 1)))) = false) as ->.
  { destruct Hprev as [->|Hp]; [done|]. rewrite bool_decide_true by done. by rewrite andb_false_r. }
  done.
Qed.

(** The message that is next passes, and the rest of its batch continues the new log. *)
Lemma deliver_passes n t hist acks got s lg m q :
  testerInv n t hist acks got → logs (t_cfg t) !! s = Some lg → queueOk n hist acks (got s) lg (m :: q) →
  let lg' := <[CommandIndex m := am_Command m]> lg in
  applier (Z.of_nat s) m (t_cfg t) =
    Pass (set_logs (<[s := lg']> (logs (t_cfg t))) (Z.max (maxIndex (t_cfg t)) (CommandIndex m)) (t_cfg t)) ∧
  logOk n hist acks (got s) lg' ∧ queueOk n hist acks (got s) lg' q.
Proof.
  intros T Hs Hq lg'. pose proof Hq as (Hv & H1 & Hprev & Hc & Hq'). split_and!; [|by eapply logOk_insert; [by eapply te_log|]|done].
  apply applier_passes; [done..|]. intros j lgj old Hj Hold.
  destruct (lo_value _ _ _ _ _ (te_log _ _ _ _ _ T _ _ Hj) _ _ Hold) as [_ Hco].
  eapply chosenValue_unique; [by eapply te_cluster|done|done].
Qed.

(** The log of [s] grows: the rest of the invariant stays. *)
Lemma deliver_inv n t hist acks got s lg m q live old mi :
  testerInv n t hist acks got → logs (t_cfg t) !! s = Some lg → queueOk n hist acks (got s) lg (m :: q) →
  let lg' := <[CommandIndex m := am_Command m]> lg in
  length live = n →
  (∀ s' q', live !! s' = Some q' → t_live t !! s' = Some q' ∨ (s' = s ∧ q' = q ∧ t_live t !! s = Some (m :: q))) →
  (∀ k s' q', old !! k = Some (s', q') → t_old t !! k = Some (s', q') ∨ (s' = s ∧ q' = q)) →
  testerInv n (mkTState (t_cluster t) (set_logs (<[s := lg']> (logs (t_cfg t))) mi (t_cfg t)) live old) hist acks got.
Proof.
  intros T Hs Hq lg' Hlen Hlive Hold. destruct (deliver_passes _ _ _ _ _ _ _ _ _ T Hs Hq) as (_ & Hok & Hq'). fold lg' in Hok, Hq'.
  assert (∀ k, is_Some (lg !! k) → is_Some (lg' !! k)) as Hmore.
  { intros k ?. unfold lg'. rewrite lookup_insert_is_Some. destruct (decide (CommandIndex m = k)); auto. }
  assert (∀ j lgj, <[s := lg']> (logs (t_cfg t)) !! j = Some lgj →
    (j = s ∧ lgj = lg') ∨ (j ≠ s ∧ logs (t_cfg t) !! j = Some lgj)) as Hcase.
  { intros j lgj [(-> & <- & _)|[? ?]]%list_lookup_insert_Some; auto. }
  constructor; simpl; try apply T; try done.
  - by rewrite length_insert, (te_logs _ _ _ _ _ T).
  - intros k s' q' Hk. destruct (Hold _ _ _ Hk) as [?|(-> & _)]; [by eapply te_old|].
    rewrite <-(te_logs _ _ _ _ _ T). by eapply lookup_lt_Some.
  - intros j lgj [(-> & ->)|[_ Hj]]%Hcase; [done|by eapply te_log].
  - intros j lgj q0 Hj Hq0. destruct (Hcase _ _ Hj) as [(-> & ->)|[Hne Hj']].
    + destruct (Hlive _ _ Hq0) as [Hq1|(_ & -> & _)]; [|done].
      eapply queueOk_more; [apply grown_refl|exact Hmore|]. by eapply te_queue.
    + destruct (Hlive _ _ Hq0) as [Hq1|(-> & _)]; [|done]. by eapply te_queue.
  - intros k j lgj q0 Hk Hj. destruct (Hcase _ _ Hj) as [(-> & ->)|[Hne Hj']].
    + destruct (Hold _ _ _ Hk) as [Hk1|(_ & ->)]; [|done].
      eapply queueOk_more; [apply grown_refl|exact Hmore|]. by eapply te_late.
    + destruct (Hold _ _ _ Hk) as [Hk1|(-> & _)]; [|done]. by eapply te_late.
  - intros j rf lgj q0 Hrf Hj Hq0. destruct (Hlive _ _ Hq0) as [Hq1|(-> & -> & Hq1)].
    + destruct (Hcase _ _ Hj) as [(-> & ->)|[Hne Hj']]; [|by eapply te_peer].
      destruct (te_peer _ _ _ _ _ T _ _ _ _ Hrf Hs Hq1) as [? Hsn Hap]. constructor; [done|auto|].
      intros k Hk. destruct (Hap k Hk); auto.
    + destruct (Hcase _ _ Hj) as [(_ & ->)|[? _]]; [|done].
      destruct (te_peer _ _ _ _ _ T _ _ _ _ Hrf Hs Hq1) as [? Hsn Hap]. constructor; [done|auto|].
      intros k Hk. destruct (Hap k Hk) as [?|(m' & Hm' & Hkm)]; [auto|].
      apply elem_of_cons in Hm' as [->|Hm']; [left; unfold lg'; rewrite <-Hkm, lookup_insert_eq; eauto|right; eauto].
Qed.

Lemma queue_consecutive n hist acks g q : ∀ lg base,
  0 ≤ base → (base = 0 ∨ is_Some (lg !! base)) →
  (∀ (k : nat) m, q !! k = Some m → CommandValid m = true ∧ CommandIndex m = base + 1 + Z.of_nat k ∧ CommandIndex m ≤ g ∧
    chosenValue n hist acks (CommandIndex m) (am_Command m)) →
  queueOk n hist acks g lg q.
Proof.
  induction q as [|m q IH]; intros lg base H0 Hb Hq; [done|]. simpl.
  destruct (Hq 0%nat m) as (Hv & Hi & Hg & Hc); [done|]. split_and!; [done|lia|lia| |done|].
  - destruct Hb as [->|Hb]; [left; lia|right]. by replace (CommandIndex m - 1) with base by lia.
  - apply (IH _ (base + 1)); [lia|right; replace (base + 1) with (CommandIndex m) by lia; rewrite lookup_insert_eq; eauto|].
    intros k m' Hk. destruct (Hq (S k) m' Hk) as (? & ? & ? & ?). split_and!; [done|lia|done..].
Qed.

Lemma batch_ok n c hist acks got s rf rf' msgs lg :
  safeCluster n c hist acks got → nodes (world c) !! s = Some rf → updateApplied rf = Some (rf', msgs) →
  peerApplied rf lg [] → lastIncludedIndex rf ≤ commitIndex rf →
  queueOk n hist acks (got s) lg msgs ∧ peerApplied rf' lg msgs.
Proof.
  intros HC Hs Hu [Hlo Hsn Hap] Hci. pose proof (commit_got _ _ _ _ _ _ _ HC Hs) as Hgot.
  pose proof (applied_range _ _ _ _ _ _ _ HC Hs) as [_ H0].
  assert (∀ k, 1 ≤ k ≤ lastApplied rf → is_Some (lg !! k)) as Hall.
  { intros k Hk. destruct (Hap k Hk) as [?|(m & ?%not_elem_of_nil & _)]; done. }
  destruct (batch_messages _ _ _ _ _ _ _ _ _ HC Hs Hu Hlo Hci) as (Hla & Hlii & Hlen & Hmsg). split.
  - apply (queue_consecutive _ _ _ _ _ _ (lastApplied rf)); [lia| |].
    + destruct (decide (lastApplied rf = 0)); [by left|right]. apply Hall. lia.
    + intros k m Hk. destruct (Hmsg k m Hk) as (? & _ & ? & ? & ?). split_and!; [done|done|lia|done].
  - constructor; rewrite ?Hla, ?Hlii; [done|done|]. intros k Hk.
    destruct (decide (k ≤ lastApplied rf)); [left; apply Hall; lia|right].
    destruct (lookup_lt_is_Some_2 msgs (Z.to_nat (k - lastApplied rf - 1))) as [m Hm]; [unfold len in Hlen; lia|].
    exists m. split; [by eapply list_elem_of_lookup_2|]. destruct (Hmsg _ _ Hm) as (_ & _ & -> & _). lia.
Qed.

(** The cluster moves, the tester's logs stay. *)
Lemma cluster_moves n t hist acks got hist' acks' got' c' live old :
  testerInv n t hist acks got → grown hist acks got hist' acks' got' → safeCluster n c' hist' acks' got' →
  nodesDisk (nodes (world c')) → noSnapshots (nodes (world c')) → onlySnapshots c' → length live = n →
  (∀ k s q, old !! k = Some (s, q) → (s < n)%nat) →
  (∀ s lg q, logs (t_cfg t) !! s = Some lg → live !! s = Some q → queueOk n hist' acks' (got' s) lg q) →
  (∀ k s q lg, old !! k = Some (s, q) → logs (t_cfg t) !! s = Some lg → queueOk n hist' acks' (got' s) lg q) →
  (∀ s rf' lg q, nodes (world c') !! s = Some rf' → logs (t_cfg t) !! s = Some lg → live !! s = Some q → peerApplied rf' lg q) →
  testerInv n (mkTState c' (t_cfg t) live old) hist' acks' got'.
Proof.
  intros T Hg HC Hd Hz Hof Hl Hn Hq Ho Hp. constructor; simpl; try done.
  - apply T.
  - intros s lg Hs. eapply logOk_grown; [done|]. by eapply te_log.
  - eauto.
Qed.

Lemma queues_grown n t hist acks got hist' acks' got' :
  testerInv n t hist acks got → grown hist acks got hist' acks' got' →
  (∀ s lg q, logs (t_cfg t) !! s = Some lg → t_live t !! s = Some q → queueOk n hist' acks' (got' s) lg q) ∧
  (∀ k s q lg, t_old t !! k = Some (s, q) → logs (t_cfg t) !! s = Some lg → queueOk n hist' acks' (got' s) lg q).
Proof.
  intros T Hg. split.
  - intros s lg q Hs Hq. eapply queueOk_more; [exact Hg|done|]. by eapply te_queue.
  - intros k s q lg Hk Hs. eapply queueOk_more; [exact Hg|done|]. by eapply te_late.
Qed.

Lemma raft_step_inv n t hist acks got r c' :
  testerInv n t hist acks got → silent r = true → ownTerm (t_cluster t) r → rexec (t_cluster t) r = Some c' →
  ∃ hist' acks' got', testerInv n (mkTState c' (t_cfg t) (t_live t) (t_old t)) hist' acks' got'.
Proof.
  intros T Hq Hown Hx. pose proof (te_cluster _ _ _ _ _ T) as HC.
  pose proof (ownTerm_safe _ _ _ _ _ _ HC (te_disk _ _ _ _ _ T) Hq Hown) as Hsafe.
  destruct (safe_step _ _ _ _ _ _ _ HC Hsafe Hx) as (hist' & acks' & got' & Hg & HC').
  exists hist', acks', got'. destruct (queues_grown _ _ _ _ _ _ _ _ T Hg).
  apply (cluster_moves n t hist acks got); try done; [| | |apply T|apply T|].
  - eapply cluster_disk; [by apply HC|apply T| |exact Hx]. by intros k ->.
  - intros s rf' Hs. destruct (rexec_applied _ _ _ Hq Hx s rf' Hs) as (rf & Hrf & [_ -> _]). by eapply (te_none _ _ _ _ _ T).
  - eapply onlySnapshots_step; [exact Hx|apply T|]. by apply Forall_forall.
  - intros s rf' lg q Hs Hlg Hlive. destruct (rexec_applied _ _ _ Hq Hx s rf' Hs) as (rf & Hrf & [Ha Hi _]).
    destruct (te_peer _ _ _ _ _ T _ _ _ _ Hrf Hlg Hlive) as [H1 H2 H3]. constructor; by rewrite ?Ha, ?Hi.
Qed.

Lemma crash_step_inv n t hist acks got s c' q :
  testerInv n t hist acks got → rexec (t_cluster t) (RAct (ACrash s)) = Some c' → t_live t !! s = Some q →
  ∃ hist' acks' got', testerInv n (mkTState c' (t_cfg t) (<[s := []]> (t_live t)) (t_old t ++ [(s, q)])) hist' acks' got'.
Proof.
  intros T Hx Hlive. pose proof (te_cluster _ _ _ _ _ T) as HC.
  destruct (safe_step _ _ (RAct (ACrash s)) _ _ _ _ HC (te_disk _ _ _ _ _ T s) Hx) as (hist' & acks' & got' & Hg & HC').
  exists hist', acks', got'. destruct (queues_grown _ _ _ _ _ _ _ _ T Hg) as [HQ HO].
  destruct (rexec_crash _ _ _ Hx) as (rf & rf1 & Hs & Hmk & Hn). pose proof HC as ([V _] & _).
  destruct (Make_recovers rf (no_durable _ _ _ (vi_nodes _ _ _ _ V _ _ Hs))) as (rf2 & Hx2 & Hrec).
  rewrite Hmk in Hx2. injection Hx2 as <-. destruct Hrec.
  apply (cluster_moves n t hist acks got); try done.
  - by eapply cluster_disk; [by apply HC|apply T| |exact Hx].
  - rewrite Hn. intros j r [(-> & <- & _)|[_ Hj]]%list_lookup_insert_Some; [rewrite rec_lii|]; by eapply (te_none _ _ _ _ _ T).
  - eapply onlySnapshots_step; [exact Hx|apply T|]. by apply Forall_forall.
  - rewrite length_insert. apply T.
  - intros k j q0 [Hk|[_ Hk]]%lookup_app_Some; [by eapply te_old|].
    apply list_lookup_singleton_Some in Hk as [_ [= <- _]]. rewrite <-(te_live _ _ _ _ _ T). by eapply lookup_lt_Some.
  - intros j lg q0 Hlg [(-> & <- & _)|[_ Hq0]]%list_lookup_insert_Some; [done|by eapply HQ].
  - intros k j q0 lg [Hk|[_ Hk]]%lookup_app_Some Hlg; [by eapply HO|].
    apply list_lookup_singleton_Some in Hk as [_ [= <- <-]]. by eapply HQ.
  - rewrite Hn. intros j rf' lg q0 [(-> & <- & _)|[Hne Hj]]%list_lookup_insert_Some Hlg Hq0.
    + apply list_lookup_insert_Some in Hq0 as [(_ & <- & _)|[? _]]; [|done].
      destruct (te_peer _ _ _ _ _ T _ _ _ _ Hs Hlg Hlive) as [H1 H2 H3].
      constructor; [lia|by rewrite rec_lii|]. rewrite rec_applied. intros k Hk. left. by apply H2.
    + rewrite list_lookup_insert_ne in Hq0 by done. by eapply te_peer.
Qed.

Lemma update_step_inv n t hist acks got s rf rf' msgs :
  testerInv n t hist acks got → t_live t !! s = Some [] → nodes (world (t_cluster t)) !! s = Some rf →
  updateApplied rf = Some (rf', msgs) →
  ∃ hist' acks' got',
    testerInv n (mkTState (setPeer s rf' (t_cluster t)) (t_cfg t) (<[s := msgs]> (t_live t)) (t_old t)) hist' acks' got'.
Proof.
  intros T Hlive Hs Hu. pose proof (te_cluster _ _ _ _ _ T) as HC.
  assert (nodeExec rf OpUpdateApplied = Some rf') as Hx by (simpl; by rewrite Hu).
  pose proof (te_none _ _ _ _ _ T _ _ Hs) as H0.
  assert (lastIncludedIndex rf ≤ commitIndex rf) as Hci by (pose proof (commit_nonneg _ _ _ _ _ _ _ HC Hs); lia).
  destruct (op_steps n (t_cluster t) hist acks got s rf OpUpdateApplied rf') as (hist' & acks' & got' & Hg & HC'); try done.
  exists hist', acks', got'. destruct (queues_grown _ _ _ _ _ _ _ _ T Hg) as [HQ HO].
  assert (lastIncludedIndex rf' = lastIncludedIndex rf) as Hlii
    by (unfold updateApplied in Hu; apply bind_Some in Hu as (ms & _ & [= <- _]); done).
  assert (∀ lg, logs (t_cfg t) !! s = Some lg → queueOk n hist' acks' (got' s) lg msgs ∧ peerApplied rf' lg msgs) as Hbatch.
  { intros lg Hlg. pose proof (te_peer _ _ _ _ _ T _ _ _ _ Hs Hlg Hlive) as P.
    destruct (batch_ok _ _ _ _ _ _ _ _ _ _ HC Hs Hu P Hci) as [? ?]. split; [|done].
    eapply queueOk_more; [exact Hg|done|done]. }
  apply (cluster_moves n t hist acks got); try done.
  - destruct HC as ([V _] & _). eapply nodes_disk; [exact V|apply T|exact Hs| |exact Hx]; done.
  - rewrite nodes_setPeer. intros j r [(-> & <- & _)|[_ Hj]]%list_lookup_insert_Some; [lia|by eapply (te_none _ _ _ _ _ T)].
  - apply T.
  - rewrite length_insert. apply T.
  - apply T.
  - intros j lg q0 Hlg [(-> & <- & _)|[_ Hq0]]%list_lookup_insert_Some; [by apply Hbatch|by eapply HQ].
  - intros j r lg q0 Hj Hlg Hq0. rewrite nodes_setPeer in Hj.
    apply list_lookup_insert_Some in Hj as [(-> & <- & _)|[Hne Hj]].
    + apply list_lookup_insert_Some in Hq0 as [(_ & <- & _)|[? _]]; [|done]. by apply Hbatch.
    + rewrite list_lookup_insert_ne in Hq0 by done. by eapply te_peer.
Qed.

(** A snapshot that is ignored. *)
Lemma ignore_step_inv n t hist acks got k s m cfg' :
  testerInv n t hist acks got → offers (t_cluster t) !! k = Some (s, m) → applier (Z.of_nat s) m (t_cfg t) = Pass cfg' →
  let c := t_cluster t in
  testerInv n (mkTState (mkCluster (world c) (appends c) (snaps c) (delete k (offers c))) cfg' (t_live t) (t_old t)) hist acks got.
Proof.
  intros T Hk Hap c.
  pose proof (Forall_lookup_1 _ _ _ _ (te_offers _ _ _ _ _ T) Hk) as Hv. simpl in Hv.
  assert (cfg' = t_cfg t) as -> by (unfold applier in Hap; rewrite Hv in Hap; by injection Hap).
  assert (∀ P : nat * ApplyMsg C → Prop, Forall P (offers c) → Forall P (delete k (offers c))) as Hdel
    by (intros P HP; by apply Forall_delete).
  destruct (te_cluster _ _ _ _ _ T) as (HW & HS & Hsn & Hof).
  apply (cluster_moves n t hist acks got); try apply T.
  - apply grown_refl.
  - split_and!; [done..|]. split; [done|by apply Hdel].
  - by apply Hdel, T.
  - intros k' s' q lg Hk' Hlg. by eapply te_late.
Qed.

(** The instance [s] delivers a message: it passes, and the rest waits on. *)
Lemma deliver_step_inv n t hist acks got s m q cfg' live old :
  testerInv n t hist acks got → applier (Z.of_nat s) m (t_cfg t) = Pass cfg' →
  (t_live t !! s = Some (m :: q) ∧ live = <[s := q]> (t_live t) ∧ old = t_old t ∨
   ∃ k, t_old t !! k = Some (s, m :: q) ∧ live = t_live t ∧ old = <[k := (s, q)]> (t_old t)) →
  testerInv n (mkTState (t_cluster t) cfg' live old) hist acks got.
Proof.
  intros T Hap Hm.
  assert (s < n)%nat as Hs.
  { destruct Hm as [(Hl & _)|(k & Hk & _)]; [rewrite <-(te_live _ _ _ _ _ T); by eapply lookup_lt_Some|by eapply te_old]. }
  destruct (lookup_lt_is_Some_2 (logs (t_cfg t)) s) as [lg Hlg]; [by rewrite (te_logs _ _ _ _ _ T)|].
  assert (queueOk n hist acks (got s) lg (m :: q)) as Hq.
  { destruct Hm as [(Hl & _)|(k & Hk & _)]; [by eapply te_queue|by eapply te_late]. }
  destruct (deliver_passes _ _ _ _ _ _ _ _ _ T Hlg Hq) as [Hap' _]. rewrite Hap in Hap'. injection Hap' as ->.
  eapply deliver_inv; try done.
  - destruct Hm as [(_ & -> & _)|(k & _ & -> & _)]; rewrite ?length_insert; apply T.
  - intros s' q' Hs'. destruct Hm as [(Hl & -> & _)|(k & _ & -> & _)]; [|by left].
    apply list_lookup_insert_Some in Hs' as [(-> & <- & _)|[_ ?]]; auto.
  - intros k' s' q' Hk'. destruct Hm as [(_ & _ & ->)|(k & Hk & _ & ->)]; [by left|].
    apply list_lookup_insert_Some in Hk' as [(-> & [= <- <-] & _)|[_ ?]]; auto.
Qed.

Lemma texec_inv n t a t' hist acks got :
  testerInv n t hist acks got → tsafe t a → texec t a = Some t' → ∃ hist' acks' got', testerInv n t' hist' acks' got'.
Proof.
  intros T Hsafe H. destruct a as [r|s|s|s|k|k]; simpl in H.
  - case_if_in H; [|done]. apply bind_Some in H as (c' & Hx & [= <-]). by eapply raft_step_inv.
  - apply bind_Some in H as (c' & Hx & H). apply bind_Some in H as (q & Hq & [= <-]). by eapply crash_step_inv.
  - apply bind_Some in H as (q & Hq & H). apply bind_Some in H as (rf & Hs & H). destruct q; [|done].
    apply bind_Some in H as ([rf' msgs] & Hu & [= <-]). by eapply update_step_inv.
  - apply bind_Some in H as (q & Hq & H). destruct q as [|m q]; [done|].
    destruct (applier (Z.of_nat s) m (t_cfg t)) eqn:Hap; [done..|]. injection H as <-.
    exists hist, acks, got. eapply deliver_step_inv; [done..|]. by left.
  - apply bind_Some in H as ([s q] & Hq & H). destruct q as [|m q]; [done|].
    destruct (applier (Z.of_nat s) m (t_cfg t)) eqn:Hap; [done..|]. injection H as <-.
    exists hist, acks, got. eapply deliver_step_inv; [done..|]. right. by exists k.
  - apply bind_Some in H as ([s m] & Hk & H). destruct (applier (Z.of_nat s) m (t_cfg t)) eqn:Hap; [done..|].
    injection H as <-. exists hist, acks, got. by eapply ignore_step_inv.
Qed.

Lemma testerInv_init n c cfg :
  initCluster n = Some c → freshTester n cfg → ∃ hist acks got, testerInv n (mkTState c cfg (replicate n []) []) hist acks got.
Proof.
  intros Hi Hl. destruct (safe_init _ _ Hi) as (hist & acks & got & HC). exists hist, acks, got.
  unfold freshTester in Hl. constructor; simpl; rewrite ?Hl, ?length_replicate; try done.
  - intros s rf Hs. by eapply fresh_applied.
  - intros s rf Hs. by eapply fresh_applied.
  - unfold initCluster in Hi. apply bind_Some in Hi as (w & _ & [= <-]). by apply Forall_nil.
  - intros s lg Hs. apply lookup_replicate in Hs as [-> _]. constructor; [by intros k v Hk|by intros k k' [? ?]].
  - intros s lg q _ Hq. by apply lookup_replicate in Hq as [-> _].
  - intros s rf lg q Hs _ _. destruct (fresh_applied _ _ _ _ Hi Hs) as (Hla & Hlii & _). constructor; rewrite ?Hla, ?Hlii; lia.
Qed.

Lemma testerInv_reachable n t : treachable n t → ∃ hist acks got, testerInv n t hist acks got.
Proof.
  induction 1 as [c cfg Hi Hf|t a t' _ (hist & acks & got & T) Hs Hx]; [by apply testerInv_init|by eapply texec_inv].
Qed.

(** C35: the tests accept the program.  In a test whose peers run [applier] (which takes and
    installs no snapshots), with any losses, delays, elections, crashes and restarts, in which
    [elect] is not overtaken by a change of term and a leader that moves its commit index moves it
    to an entry of its own term: every message that a peer hands over, also one that an instance
    stopped long ago still holds, passes the checks of the tester: no two peers apply different
    commands at an index, and none skips an index. *)
Theorem tester_accepts n t s m q :
  treachable n t → t_live t !! s = Some (m :: q) ∨ (∃ k, t_old t !! k = Some (s, m :: q)) →
  ∃ cfg', applier (Z.of_nat s) m (t_cfg t) = Pass cfg'.
Proof.
  intros (hist & acks & got & T)%testerInv_reachable Hm.
  assert (s < n)%nat as Hs.
  { destruct Hm as [Hl|[k Hk]]; [rewrite <-(te_live _ _ _ _ _ T); by eapply lookup_lt_Some|by eapply te_old]. }
  destruct (lookup_lt_is_Some_2 (logs (t_cfg t)) s) as [lg Hlg]; [by rewrite (te_logs _ _ _ _ _ T)|].
  assert (queueOk n hist acks (got s) lg (m :: q)) as Hq.
  { destruct Hm as [Hl|[k Hk]]; [by eapply te_queue|by eapply te_late]. }
  destruct (deliver_passes _ _ _ _ _ _ _ _ _ T Hlg Hq) as [-> _]. eauto.
Qed.

(** Agreement as the tests measure it.  In the same runs [nCommitted] never finds two values
    at an index: it counts the peers that have applied the index. *)
Theorem nCommitted_agrees n t index :
  treachable n t → length (rafts (t_cfg t)) = n → applyErr (t_cfg t) = replicate n None →
  ∃ cmd, nCommitted index (t_cfg t) = Pass (Z.of_nat (length (appliedBy index (logs (t_cfg t)))), cmd).
Proof.
  intros (hist & acks & got & T)%testerInv_reachable Hl He. pose proof (te_logs _ _ _ _ _ T) as Hlogs.
  assert (∃ cmd, agreeOn index cmd (logs (t_cfg t))) as [cmd Ha].
  { destruct (appliedBy index (logs (t_cfg t))) as [|lg l] eqn:Hap; [exists None; by apply appliedBy_nil|].
    assert (lg ∈ appliedBy index (logs (t_cfg t))) as Hin by (rewrite Hap; by left).
    apply list_elem_of_In, filter_In in Hin as [Hin [v Hv]%bool_decide_eq_true]. apply list_elem_of_In in Hin.
    apply list_elem_of_lookup in Hin as [s Hs]. exists v. intros lg' v' [s' Hs']%list_elem_of_lookup Hv'.
    destruct (lo_value _ _ _ _ _ (te_log _ _ _ _ _ T _ _ Hs) _ _ Hv) as [_ Hc].
    destruct (lo_value _ _ _ _ _ (te_log _ _ _ _ _ T _ _ Hs') _ _ Hv') as [_ Hc'].
    eapply chosenValue_unique; [by eapply te_cluster|done|done]. }
  apply (nCommitted_total index cmd); [congruence|by rewrite Hlogs|done].
Qed.
End tester.

(** ** One leader per term *)
Section leader.
Context {C : Type} `{EqDecision C} `{!Gob Z, !Gob (list (Log C))}.

(** A step of the cluster of [RaftElection] in which [elect] is not overtaken. *)
Definition electionStep (w w' : World C) : Prop := ∃ a, sendsInTerm w a ∧ exec w a = Some w'.

Lemma exec_leaders (w : World C) a w' : exec w a = Some w' → ∀ p, p ∈ leaders w → p ∈ leaders w'.
Proof.
  intros H p Hp. destruct a as [s op|s|k|k|k|k|s]; simpl in H.
  - case_if_in H; [|done]. apply bind_Some in H as (rf & _ & H). by apply bind_Some in H as (rf' & _ & [= <-]).
  - apply bind_Some in H as (rf & _ & H). by apply bind_Some in H as ([rf' eff] & _ & [= <-]).
  - apply bind_Some in H as (th & _ & H). apply bind_Some in H as (rf & _ & H). case_if_in H; [|done].
    case_if_in H; [by injection H as <-|]. by apply bind_Some in H as (args & _ & [= <-]).
  - apply bind_Some in H as (vc & _ & H). destruct (vc_status vc); [|done..].
    apply bind_Some in H as (rf & _ & H). by apply bind_Some in H as ([[rf' reply] eff] & _ & [= <-]).
  - by apply bind_Some in H as (vc & _ & [= <-]).
  - apply bind_Some in H as (vc & _ & H). apply bind_Some in H as (th & _ & H). apply bind_Some in H as (rf & _ & H).
    destruct (vc_status vc) as [|reply|]; [done| |done]. case_if_in H; [|done].
    apply bind_Some in H as ([[rf' cnt'] eff] & _ & [= <-]). simpl. case_bool_decide; [by right|done].
  - apply bind_Some in H as (rf & _ & H). by apply bind_Some in H as (rf' & _ & [= <-]).
Qed.

Lemma steps_leaders (w w' : World C) p : rtc electionStep w w' → p ∈ leaders w → p ∈ leaders w'.
Proof. induction 1 as [|w w1 w' (a & _ & Ha) _ IH]; intros Hp; [done|]. eapply IH, exec_leaders; eauto. Qed.

Lemma steps_reachable_world n (w w' : World C) :
  reachable sendsInTerm n w → rtc electionStep w w' → reachable sendsInTerm n w'.
Proof. intros Hr Hs. induction Hs as [|w w1 w' (a & ? & ?) _ IH]; [done|]. apply IH. by econstructor. Qed.

(** The states that the [GetState] calls of a round see: each that of its peer at some moment of
    one run, the moments not being the same. *)
Definition seenInRun (n : nat) (seen : Z → option (Raft C)) : Prop :=
  ∃ wlast, reachable sendsInTerm n wlast ∧
    ∀ i rf, seen i = Some rf → ∃ w (s : nat), i = Z.of_nat s ∧ reachable sendsInTerm n w ∧ rtc electionStep w wlast ∧
      nodes w !! s = Some rf.

(** C36: [checkOneLeader] never stops a test about two leaders of one term, although it looks at
    the peers one after the other while they go on, in a run in which [elect] is not overtaken by
    a change of term ([sendsInTerm]): there a peer that it sees lead a term is the only one that
    ever leads it. (Without that proviso there can be two: [two_leaders_reachable].) *)
Theorem checkOneLeader_never_two n rounds cfg t k :
  Forall (λ r, goodRound r ∧ seenInRun n r.1) rounds → checkOneLeader (C := C) rounds cfg ≠ Fatal (ManyLeaders t k).
Proof.
  intros Hr Hx.
  assert (Forall goodRound rounds) as Hgood by (eapply Forall_impl; [exact Hr|]; by intros ? []).
  pose proof (checkOneLeader_spec rounds cfg Hgood) as Hspec. rewrite Hx in Hspec.
  destruct Hspec as (seen & ord & i & j & Hin & Hne & (_ & rfi & Hsi & Hli & Hti) & (_ & rfj & Hsj & Hlj & Htj)).
  rewrite Forall_forall in Hr. destruct (Hr _ Hin) as [_ (wl & Hwl & Hseen)]. simpl in Hseen.
  destruct (Hseen _ _ Hsi) as (wi & si & -> & Hri & Hwi & Hni). destruct (Hseen _ _ Hsj) as (wj & sj & -> & Hrj & Hwj & Hnj).
  destruct (worldInv_reachable _ _ Hwl) as [V _]. destruct (worldInv_reachable _ _ Hri) as [Vi _].
  destruct (worldInv_reachable _ _ Hrj) as [Vj _].
  assert (si = sj) as ->; [|done].
  apply (votesInv_unique _ _ _ _ si sj t V).
  - eapply steps_leaders; [exact Hwi|]. rewrite <-Hti. by eapply vi_listed.
  - eapply steps_leaders; [exact Hwj|]. rewrite <-Htj. by eapply vi_listed.
Qed.
End leader.
