(* ===== verification/RaftWitness.v ===== *)
(** Concrete runs of the Raft model, with the sample codec and [Z] commands: the
    hypotheses of the theorems about Raft hold in them, and the situations in which the
    code departs from its intention are reached by them. *)
From S2P Require Import Prelude Labgob Persister Raft RaftLog RaftNode RaftProps RaftService RaftElection.
Import SampleGob.
#[local] Open Scope Z_scope.

Definition log_code (l : Log Z) : option Z * Z := (Command l, Term l).
Definition log_decode (p : option Z * Z) : Log Z := mkLog p.1 p.2.
Lemma log_decode_code l : log_decode (log_code l) = l.
Proof. by destruct l. Qed.
#[export] Instance gob_Log : Gob (Log Z) := gob_iso log_code log_decode log_decode_code.

(** ** An election: peer 0 of three times out and wins with the vote of peer 1 *)
Definition oneElection : list (Action Z) :=
  [ATick 0; AElectSend 0; AElectSend 0; ADeliver 0; AReply 0].

Definition leads (w : World Z) (s : nat) (t : Z) : bool :=
  match nodes w !! s with
  | Some rf => bool_decide (state rf = LEADER) && (currentTerm rf =? t)
  | None => false
  end.

Lemma leads_spec w s t :
  leads w s t = true → ∃ rf, nodes w !! s = Some rf ∧ state rf = LEADER ∧ currentTerm rf = t.
Proof.
  unfold leads. destruct (nodes w !! s) as [rf|] eqn:H; [|done]. intros Hb; bool_prop.
  exists rf. tauto.
Qed.

Lemma oneElection_runs :
  (w0 ← initWorld (C := Z) 3; w ← runInTerm w0 oneElection; Some (leads w 0 1, grants w))
  = Some (true, [(1%nat, 1, 0%nat)]).
Proof. by vm_compute. Qed.

Lemma oneElection_reachable :
  ∃ w, reachable sendsInTerm 3 w ∧ leads w 0 1 = true ∧ grants w = [(1%nat, 1, 0%nat)].
Proof.
  pose proof oneElection_runs as H.
  apply bind_Some in H as (w0 & H0 & H). apply bind_Some in H as (w & H1 & H).
  injection H as H2 H3. exists w; split_and!; [|done..].
  eapply runInTerm_reachable; [by apply reach_init|done].
Qed.

Lemma election_safety_witness :
  ∃ w rf, reachable sendsInTerm 3 w ∧ nodes w !! 0%nat = Some rf ∧ state rf = LEADER ∧ 0%nat = 0%nat.
Proof.
  destruct oneElection_reachable as (w & Hr & Hl & _).
  destruct (leads_spec _ _ _ Hl) as (rf & Hn & Hs & _).
  exists w, rf. split; [done|]. split; [done|]. split; [done|].
  exact (election_safety 3 w 0 0 rf rf Hr Hn Hn Hs Hs eq_refl).
Defined.

Lemma one_vote_per_term_witness :
  ∃ w, (1%nat, 1, 0%nat) ∈ grants w ∧ 1%nat ≠ 0%nat ∧ (1%nat, 1) ∉ leaders (C := Z) w.
Proof.
  destruct oneElection_reachable as (w & Hr & _ & Hg).
  exists w. assert ((1%nat, 1, 0%nat) ∈ grants w) as Hin by (rewrite Hg; by apply elem_of_cons; left).
  split; [done|]. exact (proj2 (one_vote_per_term 3 w 1 1 0 0 Hr Hin)).
Defined.

(** ** A leader and a follower that lags behind it *)
Definition samplePeer (me term : Z) (role : Role) (lg : list (Log Z)) : Raft Z :=
  persist (mkRaft 3 MakePersister me false term (-1) lg 0 0 0 0 [4; 3; 3] [0; 0; 0] role
             [false; false; false] false).

Definition entry (c t : Z) : Log Z := mkLog (Some c) t.

(** Peer 0 leads term 3; peer 1 has a conflicting entry of term 2 at index 3. *)
Definition sampleLeader : Raft Z :=
  set_commitIndex 2
    (samplePeer 0 3 LEADER [zero_Log; entry 10 1; entry 11 1; entry 12 3; entry 13 3]).
Definition sampleFollower : Raft Z :=
  samplePeer 1 2 FOLLOWER [zero_Log; entry 10 1; entry 11 1; entry 99 2].
Definition sampleAppend : AppendEntriesArgs Z :=
  mkAEArgs 3 0 2 1 [entry 12 3; entry 13 3] 2.

Lemma sampleFollower_wf : wf sampleFollower.
Proof. by constructor. Qed.
Lemma sampleLeader_wf : wf sampleLeader.
Proof. by constructor. Qed.

Lemma sampleAppend_sent :
  onRoundBegin sampleLeader 1 = Some (Some (SendEntries sampleAppend)).
Proof. by vm_compute. Qed.

Lemma sampleAppend_accepted :
  ∃ rf' reply eff, AppendEntries sampleFollower sampleAppend = Some (rf', reply, eff) ∧
    aer_Success reply = true ∧ log rf' = log sampleLeader.
Proof. eexists _, _, _; split_and!; [vm_compute; reflexivity|done..]. Qed.

Lemma node_no_panic_witness :
  (∃ rf', nodeExec sampleFollower (OpAppendEntries sampleAppend) = Some rf' ∧ wf rf' ∧
    peers rf' = 3%nat ∧ me rf' = 1) ∧
  ∃ call, onRoundBegin sampleFollower 2 = Some call.
Proof.
  split.
  - exact (proj1 (node_no_panic sampleFollower sampleFollower_wf) (OpAppendEntries sampleAppend) I).
  - refine (proj2 (node_no_panic sampleFollower sampleFollower_wf) 2 _). split; [simpl; lia|discriminate].
Defined.

Lemma AppendEntries_merges_witness :
  ∃ rf' reply eff, AppendEntries sampleFollower sampleAppend = Some (rf', reply, eff) ∧
    log rf' = [zero_Log; entry 10 1; entry 11 1; entry 12 3; entry 13 3].
Proof.
  destruct sampleAppend_accepted as (rf' & reply & eff & H & Hs & _).
  exists rf', reply, eff; split; [exact H|].
  assert (matching (drop 3 (log sampleFollower)) (aea_Entries sampleAppend)) as Hm.
  { intros i l e Hl He Ht. destruct i as [|[|i]]; simpl in *; by simplify_eq. }
  destruct (proj1 (AppendEntries_merges sampleFollower sampleAppend rf' reply eff
              sampleFollower_wf H Hs)) as (merged & -> & _ & _ & Hg).
  rewrite (Hg Hm). reflexivity.
Defined.

Lemma AppendEntries_idempotent_witness :
  ∃ rf' reply eff, AppendEntries sampleFollower sampleAppend = Some (rf', reply, eff) ∧
    AppendEntries rf' sampleAppend = Some (rf', reply, eff).
Proof.
  destruct sampleAppend_accepted as (rf' & reply & eff & H & Hs & _).
  exists rf', reply, eff; split; [exact H|].
  exact (AppendEntries_idempotent sampleFollower sampleAppend rf' reply eff sampleFollower_wf H Hs).
Defined.

Lemma replication_agrees_witness :
  ∃ rf' reply eff, AppendEntries sampleFollower sampleAppend = Some (rf', reply, eff) ∧
    termAt rf' 3 = termAt sampleLeader 3.
Proof.
  destruct sampleAppend_accepted as (rf' & reply & eff & H & Hs & _).
  exists rf', reply, eff; split; [exact H|].
  refine (proj2 (replication_agrees sampleLeader 1 sampleAppend sampleFollower rf' reply eff
                   sampleAppend_sent sampleFollower_wf H Hs 3 _)).
  by vm_compute.
Defined.

Lemma commit_monotone_witness :
  ∃ rf' reply eff, AppendEntries sampleFollower sampleAppend = Some (rf', reply, eff) ∧
    0 ≤ commitIndex rf' ≤ 2.
Proof.
  destruct sampleAppend_accepted as (rf' & reply & eff & H & _ & _).
  exists rf', reply, eff; split; [exact H|].
  refine (commit_monotone sampleLeader 1 sampleAppend sampleFollower rf' reply eff
            sampleAppend_sent _ H).
  by vm_compute.
Defined.

(** The same follower when the leader asks about index 3. *)
Definition conflictAppend : AppendEntriesArgs Z := mkAEArgs 3 0 3 3 [entry 13 3] 2.

Lemma AppendEntries_conflict_witness :
  ∃ rf' reply eff, AppendEntries sampleFollower conflictAppend = Some (rf', reply, eff) ∧
    log rf' = log sampleFollower ∧ 1 ≤ aer_ConflictIndex reply ≤ 4.
Proof.
  assert (∃ rf' reply eff, AppendEntries sampleFollower conflictAppend = Some (rf', reply, eff) ∧
            aer_Success reply = false ∧ aea_Term conflictAppend = aer_Term reply ∧
            realIndex sampleFollower (aer_ConflictIndex reply) = aer_ConflictIndex reply)
    as (rf' & reply & eff & H & Hs & Ht & Hri).
  { eexists _, _, _; split_and!; [vm_compute; reflexivity|done..]. }
  exists rf', reply, eff; split; [exact H|].
  destruct (AppendEntries_conflict sampleFollower conflictAppend rf' reply eff
              sampleFollower_wf H Hs Ht) as (Hl & Hc & _); [by vm_compute|].
  rewrite Hri in Hc. exact (conj Hl Hc).
Defined.

(** The leader learns that peer 1 has everything: two of three peers store index 4. *)
Lemma leader_commit_witness :
  ∃ rf', handleAppendEntriesReply sampleLeader sampleAppend (mkAEReply 3 3 true 0 0) 1 = Some rf' ∧
    commitIndex rf' = 4 ∧ 3 < 2 * (1 + Z.of_nat (length (matchers rf' (commitIndex rf')))).
Proof.
  assert (∃ rf', handleAppendEntriesReply sampleLeader sampleAppend (mkAEReply 3 3 true 0 0) 1
                 = Some rf' ∧ commitIndex rf' = 4) as (rf' & H & Hc).
  { eexists; split; [vm_compute; reflexivity|done]. }
  exists rf'; split; [exact H|]; split; [exact Hc|].
  refine (proj1 (proj2 (proj2 (proj2 (proj2 (leader_commit sampleLeader sampleAppend
            (mkAEReply 3 3 true 0 0) 1 rf' sampleLeader_wf H _)))))).
  rewrite Hc. by vm_compute.
Defined.

Lemma updateApplied_in_order_witness :
  ∃ rf' msgs, updateApplied sampleLeader = Some (rf', msgs) ∧ lastApplied rf' = 2 ∧ len msgs = 2.
Proof.
  destruct (updateApplied_in_order sampleLeader) as (rf' & msgs & H & Ha & _ & _ & Hl & _);
    [by vm_compute..|].
  exists rf', msgs; split; [exact H|]; split; [exact Ha|exact Hl].
Defined.

Lemma snapshot_keeps_log_witness :
  ∃ rf', Snapshot sampleLeader 2 [] = Some rf' ∧ getLastLogIndex rf' = 4 ∧
    entryAt rf' 3 = entryAt sampleLeader 3.
Proof.
  assert (∃ rf', Snapshot sampleLeader 2 [] = Some rf') as [rf' H].
  { eexists; vm_compute; reflexivity. }
  exists rf'; split; [exact H|].
  destruct (snapshot_keeps_log sampleLeader 2 [] rf' sampleLeader_wf H) as (Hg & He & _);
    [by vm_compute|].
  split; [exact Hg|]. apply He. by vm_compute.
Defined.

Definition sampleLife : list (LifeEvent (C := Z)) :=
  [Op OpTickElect; Op (OpAppendEntries (mkAEArgs 2 0 0 0 [entry 10 1; entry 11 2] 1));
   Crash; Op OpTickElect; Op (OpSnapshot 1 [])].

Lemma crash_recovery_witness :
  ∃ rf0 rf rf', Make 3 1 MakePersister = Some rf0 ∧ life rf0 sampleLife = Some rf ∧
    currentTerm rf = 3 ∧ Make 3 1 (persister rf) = Some rf' ∧ currentTerm rf' = 3 ∧
    lastApplied rf' = 1.
Proof.
  assert (∃ rf0 rf, Make 3 1 MakePersister = Some rf0 ∧ life rf0 sampleLife = Some rf ∧
            currentTerm rf = 3 ∧ lastIncludedIndex rf = 1) as (rf0 & rf & H0 & H & Ht & Hi).
  { eexists _, _; split_and!; [vm_compute; reflexivity..|done|done]. }
  destruct (crash_recovery 3 1 sampleLife rf0 rf H0 H) as (_ & rf' & Hm & Hr).
  exists rf0, rf, rf'. destruct Hr. split_and!; congruence.
Defined.

(** ** Votes of two terms counted together

    [elect] reads [rf.currentTerm] again for every peer.  Peer 0 of five starts an election
    in term 1 and gets the vote of peer 1; its timer fires again before the loop has gone
    on; the old loop then asks peer 2 for its vote of term 2 and adds it to the vote of
    term 1.  Peer 0 leads term 2 with two votes of five, and peer 3 wins term 2 with
    three. *)
Definition mixedElections : list (Action Z) :=
  [ATick 0; AElectSend 0; AElectSend 0; ADeliver 0; AReply 0;
   ATick 0; AElectSend 0; ADeliver 1; AReply 1;
   ATick 3; ATick 3; AElectSend 3; AElectSend 3; AElectSend 3; AElectSend 3; AElectSend 3;
   ADeliver 3; AReply 3; ADeliver 5; AReply 5].

Lemma mixedElections_runs :
  (w0 ← initWorld (C := Z) 5; w ← run w0 mixedElections; Some (leads w 0 2 && leads w 3 2))
  = Some true.
Proof. by vm_compute. Qed.

(** C30: without the side condition of election safety the cluster reaches a state with two
    leaders of one term. *)
Theorem two_leaders_reachable :
  ∃ (w : World Z) rf0 rf3, reachable (λ _ _, True) 5 w ∧
    nodes w !! 0%nat = Some rf0 ∧ nodes w !! 3%nat = Some rf3 ∧
    state rf0 = LEADER ∧ state rf3 = LEADER ∧ currentTerm rf0 = 2 ∧ currentTerm rf3 = 2.
Proof.
  pose proof mixedElections_runs as H.
  apply bind_Some in H as (w0 & H0 & H). apply bind_Some in H as (w & H1 & H).
  injection H as H. apply andb_true_iff in H as [HA HB].
  destruct (leads_spec _ _ _ HA) as (rf0 & ? & ? & ?).
  destruct (leads_spec _ _ _ HB) as (rf3 & ? & ? & ?).
  exists w, rf0, rf3; split_and!; try done.
  eapply run_reachable; [by apply reach_init|done|done].
Qed.
