(* ===== verification/ClusterWitness.v ===== *)
(** Runs of the cluster of [RaftCluster]: an election, two commands, their replication, a
    snapshot, its installation by a peer that missed the commands, a crash; and a run in
    which a second leader carries on what the first one has committed, next to a peer that
    has installed a snapshot. *)
From S2P Require Import Prelude Labgob Persister Raft RaftLog RaftNode RaftProps RaftService RaftElection RaftWitness RaftCluster RaftMatching RaftCommit RaftSafety.
Import SampleGob.
#[local] Open Scope Z_scope.

Section sound.
Context {C : Type} `{!Gob Z, !Gob (list (Log C))}.

(** The term of the snapshot of [s] is the one on its disk. *)
Definition diskb (c : Cluster C) (s : nat) : bool :=
  match nodes (world c) !! s with
  | Some rf => bool_decide (termAt rf (lastIncludedIndex rf) = Some (lastIncludedTerm rf))
  | None => true
  end.

Lemma diskb_spec c s rf :
  diskb c s = true → nodes (world c) !! s = Some rf → termAt rf (lastIncludedIndex rf) = Some (lastIncludedTerm rf).
Proof. unfold diskb. intros H Hs. rewrite Hs in H. by apply bool_decide_eq_true in H. Qed.

(** [soundStep] decided. *)
Definition soundStepb (c : Cluster C) (r : RAction C) : bool :=
  match r with
  | RAct (AElectSend k) => sendsInTermb (world c) (AElectSend k)
  | RAct (ACrash s) => diskb c s
  | RInstall k =>
      match offers c !! k with
      | Some (s, msg) =>
          match nodes (world c) !! s with
          | Some rf =>
              (SnapshotIndex msg <=? commitIndex rf) ||
              (existsb (λ rfq, bool_decide (termAt rfq (SnapshotIndex msg) = Some (SnapshotTerm msg))) (nodes (world c)) &&
               ((getLastLogIndex rf <? SnapshotIndex msg) || bool_decide (termAt rf (SnapshotIndex msg) = Some (SnapshotTerm msg))) &&
               (bool_decide (state rf ≠ LEADER) || (SnapshotIndex msg <=? getLastLogIndex rf)))
          | None => true
          end
      | None => true
      end
  | _ => true
  end.

Lemma soundStepb_spec c r : soundStepb c r = true → soundStep c r.
Proof.
  destruct r as [a| | | | | | | |k]; try done.
  - destruct a as [s op|s|k|k|k|k|s]; try done; simpl.
    + intros H th rf Hth Hrf. rewrite Hth, Hrf in H. by apply Z.eqb_eq in H.
    + intros H rf Hs. by eapply diskb_spec.
  - simpl. intros H s msg rf Ho Hs Hci. rewrite Ho, Hs in H.
    apply orb_true_iff in H as [H|H]; [lia|]. apply andb_true_iff in H as [H H3].
    apply andb_true_iff in H as [H1 H2]. apply existsb_exists in H1 as (rfq & Hq & Ht%bool_decide_eq_true).
    apply list_elem_of_In, list_elem_of_lookup in Hq as [q Hq].
    split_and!; [eauto| |].
    + intros Hle. apply orb_true_iff in H2 as [?|?%bool_decide_eq_true]; [lia|done].
    + intros Hl. apply orb_true_iff in H3 as [?%bool_decide_eq_true|?]; [done|lia].
Qed.

Fixpoint runSound (c : Cluster C) (l : list (RAction C)) : option (Cluster C) :=
  match l with
  | [] => Some c
  | r :: l => if soundStepb c r then c' ← rexec c r; runSound c' l else None
  end.

Lemma runSound_reachable n c l c' :
  creachable soundStep n c → runSound c l = Some c' → creachable soundStep n c'.
Proof.
  revert c. induction l as [|r l IH]; intros c Hr H; simpl in H; [by injection H as <-|].
  destruct (soundStepb c r) eqn:Hb; [|done]. apply bind_Some in H as (c1 & H1 & H).
  eapply IH; [|done]. eapply creach_step; eauto using soundStepb_spec.
Qed.
End sound.

Definition act (a : Action Z) : RAction Z := RAct a.

(** Peer 0 wins term 1, replicates two commands to peer 1, applies them and takes a
    snapshot; peer 2 installs it; peer 1 crashes and restarts. *)
Definition replication : list (RAction Z) :=
  map act oneElection ++
  [act (ANode 0 (OpStart 10)); RSend 0 1; act (ANode 0 (OpStart 11)); RDeliver 0; RReply 0;
   RSend 0 1; RDeliver 1; RReply 1; RSend 0 1; RDeliver 2; RReply 2;
   act (ANode 0 OpUpdateApplied); act (ANode 0 (OpSnapshot 1 []));
   RSend 0 2; RSnapDeliver 0; RInstall 0; RSnapReply 0; act (ACrash 1); RSend 0 1; RFail 3].

Definition logOf (c : Cluster Z) (s : nat) : option (list (Log Z) * Z) :=
  rf ← nodes (world c) !! s; Some (log rf, lastIncludedIndex rf).

Lemma replication_runs :
  (c0 ← initCluster (C := Z) 3; c ← runSound c0 replication; Some (logOf c 0, logOf c 1, logOf c 2)) =
  Some (Some ([mkLog None 1; entry 11 1], 1), Some ([zero_Log; entry 10 1; entry 11 1], 0),
        Some ([mkLog None 1], 1)).
Proof. by vm_compute. Qed.

Lemma replication_reachable :
  ∃ c, creachable soundStep 3 c ∧ logOf c 0 = Some ([mkLog None 1; entry 11 1], 1) ∧
    logOf c 1 = Some ([zero_Log; entry 10 1; entry 11 1], 0) ∧ logOf c 2 = Some ([mkLog None 1], 1).
Proof.
  pose proof replication_runs as H. apply bind_Some in H as (c0 & H0 & H).
  apply bind_Some in H as (c & H1 & H). injection H as E0 E1 E2. exists c. split_and!; [|done..].
  eapply runSound_reachable; [by apply creach_init|done].
Qed.

Lemma logOf_Some c s lg lii :
  logOf c s = Some (lg, lii) → ∃ rf, nodes (world c) !! s = Some rf ∧ log rf = lg ∧ lastIncludedIndex rf = lii.
Proof. unfold logOf. intros (rf & Hs & [= <- <-])%bind_Some. eauto. Qed.

Lemma log_matching_witness :
  ∃ c rf0 rf1, creachable soundStep 3 c ∧ nodes (world c) !! 0%nat = Some rf0 ∧
    nodes (world c) !! 1%nat = Some rf1 ∧ termAt rf0 1 = termAt rf1 1 ∧ entryAt rf0 2 = entryAt rf1 2.
Proof.
  destruct replication_reachable as (c & Hr & H0 & H1 & _).
  destruct (logOf_Some _ _ _ _ H0) as (rf0 & Hs0 & Hlog0 & Hlii0).
  destruct (logOf_Some _ _ _ _ H1) as (rf1 & Hs1 & Hlog1 & Hlii1).
  exists c, rf0, rf1. split; [exact Hr|]. split; [exact Hs0|]. split; [exact Hs1|].
  assert (termAt rf0 2 = Some 1) as Ht0 by (unfold termAt, realIndex; rewrite Hlog0, Hlii0; reflexivity).
  assert (termAt rf1 2 = Some 1) as Ht1 by (unfold termAt, realIndex; rewrite Hlog1, Hlii1; reflexivity).
  split.
  - apply (log_matching 3 c 0 1 rf0 rf1 2 1 Hr Hs0 Hs1 Ht0 Ht1 1); lia.
  - apply (log_matching 3 c 0 1 rf0 rf1 2 1 Hr Hs0 Hs1 Ht0 Ht1 2); lia.
Defined.

(** ** A second leader *)
Section safe.
Context {C : Type} `{!Gob Z, !Gob (list (Log C))}.

Definition commitsOwnb (nds nds' : list (Raft C)) (s : nat) : bool :=
  match nds !! s, nds' !! s with
  | Some rf, Some rf' =>
      (commitIndex rf' =? commitIndex rf) || bool_decide (termAt rf' (commitIndex rf') = Some (currentTerm rf'))
  | _, _ => true
  end.

(** [safeStep] decided; that the term of a snapshot is on the disk is asked of every send. *)
Definition safeStepb (c : Cluster C) (r : RAction C) : bool :=
  match r with
  | RAct (AElectSend k) => sendsInTermb (world c) (AElectSend k)
  | RAct (ACrash s) | RSend s _ => diskb c s
  | RAct (ANode s (OpSnapshot index _)) =>
      match nodes (world c) !! s with
      | Some rf => (index <=? lastIncludedIndex rf) || (index <=? commitIndex rf)
      | None => true
      end
  | RReply k =>
      match rexec c r with
      | Some c' => forallb (commitsOwnb (nodes (world c)) (nodes (world c'))) (seq 0 (length (nodes (world c))))
      | None => true
      end
  | _ => true
  end.

Lemma safeStepb_spec c r : safeStepb c r = true → safeStep c r.
Proof.
  destruct r as [a|s dst| |k| | | | |]; try done.
  - destruct a as [s op|s|k|k|k|k|s]; try done; simpl.
    + destruct op; try done. intros H rf Hs Hi. rewrite Hs in H. apply orb_true_iff in H. lia.
    + intros H th rf Hth Hrf. rewrite Hth, Hrf in H. by apply Z.eqb_eq in H.
    + intros H rf Hs. by eapply diskb_spec.
  - intros H rf args index Hs _. by eapply diskb_spec.
  - intros H c' s rf rf' Hx Hs Hs' Hne. unfold safeStepb in H. rewrite Hx in H. rewrite forallb_forall in H.
    specialize (H s). unfold commitsOwnb in H. rewrite Hs, Hs' in H.
    apply lookup_lt_Some in Hs. rewrite in_seq in H. specialize (H ltac:(lia)).
    apply orb_true_iff in H as [?%Z.eqb_eq|?%bool_decide_eq_true]; done.
Qed.

Fixpoint runSafe (c : Cluster C) (l : list (RAction C)) : option (Cluster C) :=
  match l with
  | [] => Some c
  | r :: l => if safeStepb c r then c' ← rexec c r; runSafe c' l else None
  end.

Lemma runSafe_steps c l c' : runSafe c l = Some c' → rtc step c c'.
Proof.
  revert c. induction l as [|r l IH]; intros c H; simpl in H; [by injection H as <-|].
  destruct (safeStepb c r) eqn:Hb; [|done]. apply bind_Some in H as (c1 & H1 & H).
  eapply rtc_l; [|by apply IH]. exists r. eauto using safeStepb_spec.
Qed.

Lemma steps_reachable n c c' : creachable safeStep n c → rtc step c c' → creachable safeStep n c'.
Proof. intros Hr Hs. induction Hs as [|c c1 c' (r & ? & ?) _ IH]; [done|]. apply IH. by eapply creach_step. Qed.
End safe.

(** Peer 0 commits 10 and 11 in term 1, with the acknowledgement of peer 1. *)
Definition firstLeader : list (RAction Z) :=
  map act oneElection ++
  [act (ANode 0 (OpStart 10)); act (ANode 0 (OpStart 11)); RSend 0 1; RDeliver 0; RReply 0].

(** Peer 0 sends peer 2, which has neither, a snapshot of the first, then the second, and crashes;
    peer 1 wins term 2 with the vote of peer 2, commits 12, and tells peer 2. *)
Definition secondLeader : list (RAction Z) :=
  [act (ANode 0 OpUpdateApplied); act (ANode 0 (OpSnapshot 1 [])); RSend 0 2; RSnapDeliver 0; RInstall 0; RSnapReply 0;
   RSend 0 2; RDeliver 1; act (ACrash 0);
   act (ATick 1); act (AElectSend 1); act (AElectSend 1); act (AElectSend 1); act (ADeliver 2); act (AReply 2);
   act (ANode 1 (OpStart 12)); RSend 1 2; RDeliver 2; RReply 2; RSend 1 2; RDeliver 3; RReply 3; RSend 1 2; RDeliver 4].

(** What a peer would hand to its service now, the position of its snapshot, whether it leads, in which term. *)
Definition applies (c : Cluster Z) (s : nat) : option (list (Z * option Z) * Z * Role * Z) :=
  rf ← nodes (world c) !! s; '(_, msgs) ← updateApplied rf;
  if lastIncludedIndex rf <=? lastApplied rf
  then Some (map (λ a, (CommandIndex a, am_Command a)) msgs, lastIncludedIndex rf, state rf, currentTerm rf) else None.

Lemma applies_Some c s l lii st t :
  applies c s = Some (l, lii, st, t) →
  ∃ rf rf' msgs, nodes (world c) !! s = Some rf ∧ updateApplied rf = Some (rf', msgs) ∧
    lastIncludedIndex rf ≤ lastApplied rf ∧
    map (λ a, (CommandIndex a, am_Command a)) msgs = l ∧ lastIncludedIndex rf = lii ∧ state rf = st ∧ currentTerm rf = t.
Proof.
  unfold applies. intros H. apply bind_Some in H as (rf & Hs & H). apply bind_Some in H as ([rf' msgs] & Hu & H).
  case_if_in H; [|done]. injection H as <- <- <- <-.
  exists rf, rf', msgs. by split_and!.
Qed.

Lemma two_leaders_run :
  (c0 ← initCluster (C := Z) 3; c1 ← runSafe c0 firstLeader; c2 ← runSafe c1 secondLeader;
   Some (applies c1 0, applies c2 1, applies c2 2)) =
  Some (Some ([(1, Some 10); (2, Some 11)], 0, LEADER, 1), Some ([(1, Some 10); (2, Some 11); (3, Some 12)], 0, LEADER, 2),
        Some ([(2, Some 11); (3, Some 12)], 1, FOLLOWER, 2)).
Proof. by vm_compute. Qed.

Lemma two_leaders_states :
  ∃ c1 c2, creachable safeStep 3 c1 ∧ rtc step c1 c2 ∧
    applies c1 0 = Some ([(1, Some 10); (2, Some 11)], 0, LEADER, 1) ∧
    applies c2 1 = Some ([(1, Some 10); (2, Some 11); (3, Some 12)], 0, LEADER, 2) ∧
    applies c2 2 = Some ([(2, Some 11); (3, Some 12)], 1, FOLLOWER, 2).
Proof.
  pose proof two_leaders_run as H. apply bind_Some in H as (c0 & H0 & H).
  apply bind_Some in H as (c1 & H1 & H). apply bind_Some in H as (c2 & H2 & H). injection H as E1 E2 E3.
  exists c1, c2. split_and!; [|by eapply runSafe_steps|done..].
  eapply steps_reachable; [by apply creach_init|by eapply runSafe_steps].
Qed.

(** What peer 0 applied at index 2 is what peer 2 applies there after the snapshot it installed. *)
Lemma state_machine_safety_witness :
  ∃ c1 c2 a1 a2, creachable (C := Z) safeStep 3 c1 ∧ rtc step c1 c2 ∧ CommandIndex a1 = 2 ∧
    am_Command a1 = Some 11 ∧ CommandIndex a2 = 2 ∧ am_Command a1 = am_Command a2.
Proof.
  destruct two_leaders_states as (c1 & c2 & Hr & Hs & A1 & _ & A2).
  destruct (applies_Some _ _ _ _ _ _ A1) as (rf1 & rf1' & [|b1 [|a1 m1]] & N1 & U1 & P1 & E1 & _); [discriminate E1..|].
  destruct (applies_Some _ _ _ _ _ _ A2) as (rf2 & rf2' & [|a2 m2] & N2 & U2 & P2 & E2 & _); [discriminate E2|].
  injection E1 as _ _ I1 C1 _. injection E2 as I2 C2 _.
  exists c1, c2, a1, a2. split; [exact Hr|]. split; [exact Hs|]. split; [exact I1|]. split; [exact C1|]. split; [exact I2|].
  apply (state_machine_safety 3 c1 c2 0 2 rf1 rf2 rf1' rf2' (b1 :: a1 :: m1) (a2 :: m2) a1 a2 Hr Hs N1 N2); try lia;
    [exact U1|exact U2|right; left|left].
Defined.

Lemma leader_completeness_witness :
  ∃ c1 c2 rf2 e, creachable (C := Z) safeStep 3 c1 ∧ rtc step c1 c2 ∧ nodes (world c2) !! 1%nat = Some rf2 ∧
    state rf2 = LEADER ∧ currentTerm rf2 = 2 ∧ entryAt rf2 1 = Some e ∧ Command e = Some 10.
Proof.
  destruct two_leaders_states as (c1 & c2 & Hr & Hs & A1 & A2 & _).
  destruct (applies_Some _ _ _ _ _ _ A1) as (rf1 & rf1' & [|a1 m1] & N1 & U1 & P1 & E1 & _ & _ & T1); [discriminate E1|].
  destruct (applies_Some _ _ _ _ _ _ A2) as (rf2 & rf2' & m2 & N2 & U2 & P2 & E2 & L2 & S2 & T2).
  injection E1 as I1 C1 _.
  destruct (leader_completeness 3 c1 c2 0 1 rf1 rf2 rf1' (a1 :: m1) a1 Hr Hs N1 N2 P1 U1) as (e & He & Hce); try lia;
    [left|exact S2|].
  exists c1, c2, rf2, e. rewrite I1 in He. rewrite C1 in Hce.
  split; [exact Hr|]. split; [exact Hs|]. split; [exact N2|]. split; [exact S2|]. split; [exact T2|]. exact (conj He Hce).
Defined.
