(* ===== verification/TesterWitness.v ===== *)
(** Runs of the tester of [RaftConfig]: three peers on a network, a disconnection, a restart, an
    agreement, an election that the tester watches. *)
From S2P Require Import Labrpc TestNet RaftConfig RaftConfigProps RaftChecks.
From S2P Require Import Prelude Labgob Persister Raft RaftLog RaftNode RaftProps RaftService RaftElection RaftWitness.
From S2P Require Import RaftCluster RaftMatching RaftCommit RaftSafety RaftApply ClusterWitness RaftTester.
Import SampleGob Cfg.
#[local] Open Scope Z_scope.
Abbreviation world := RaftCluster.world.

(** ** The network *)
Definition threeNames : list (list string) :=
  [["a0"; "a1"; "a2"]; ["b0"; "b1"; "b2"]; ["c0"; "c1"; "c2"]]%string.
Definition moreNames : list string := ["d0"; "d1"; "d2"]%string.

Abbreviation tester0 := (make_config (C := Z) 3 false threeNames Z.to_nat).
(** Peer 1 is disconnected. *)
Definition tester1 : option (config Z) := cfg ← tester0; disconnect 1 cfg.

(** [NoDup] of a list of different constants. *)
Ltac distinct :=
  repeat (apply NoDup_cons_2;
    [let H := fresh in intros H; repeat (apply elem_of_cons in H as [H|H]; [discriminate H|]);
     by apply not_elem_of_nil in H|]); apply NoDup_nil_2.

Lemma threeNames_good : goodNames 3 threeNames.
Proof.
  split; [done|]. split; [|by distinct].
  intros i ns Hi. pose proof (go_index_Some_lt _ _ _ Hi) as Hr. change (len threeNames) with 3 in Hr.
  assert (i = 0 ∨ i = 1 ∨ i = 2) as [->|[->| ->]] by lia; by injection Hi as <-.
Qed.

Lemma tester1_reached cfg : tester1 = Some cfg →
  ∃ cfg0, make_config 3 false threeNames Z.to_nat = Some cfg0 ∧ rtc testerStep cfg0 cfg ∧ n cfg0 = 3%nat.
Proof.
  unfold tester1. intros H. apply bind_Some in H as (cfg0 & H0 & H1). exists cfg0. split; [exact H0|].
  assert (n cfg0 = 3%nat) as Hn.
  { destruct (make_config_inv 3 false threeNames Z.to_nat threeNames_good) as (c & Hc & _ & Hn & _).
    rewrite H0 in Hc. injection Hc as <-. exact Hn. }
  split; [|exact Hn]. apply rtc_once, (ts_disconnect _ 1); [rewrite Hn; lia|exact H1].
Qed.

Definition wires (cfg : config Z) : list (option string) * list bool :=
  ([endName (endnames cfg) 0 1; endName (endnames cfg) 0 2], connected cfg).

Lemma tester1_wires : (cfg ← tester1; Some (wires cfg)) = Some ([Some "a1"; Some "a2"]%string, [true; false; true]).
Proof. vm_compute. reflexivity. Qed.

(** Peer 0 reaches peer 2, but not peer 1. *)
Lemma tester_network_witness :
  ∃ cfg, tester1 = Some cfg ∧
    ((∃ p rel lr, startReq (net cfg) (inl "a1"%string) 0 = PConnected (inr 1) p rel lr) ↔
     ∃ i, endName (endnames cfg) i 1 = Some "a1"%string ∧ isUp (connected cfg) i ∧ isUp (connected cfg) 1 ∧
       ∃ rf, (rafts cfg).[1] = Some (Some rf)) ∧
    ¬ isUp (connected cfg) 1.
Proof.
  pose proof tester1_wires as H. apply bind_Some in H as (cfg & Hc & Hw). injection Hw as Hw1 Hw2 Hw3.
  exists cfg. split; [exact Hc|]. destruct (tester1_reached _ Hc) as (cfg0 & H0 & Hs & _). split.
  - apply (tester_network 3 false threeNames Z.to_nat cfg "a1" 1 0 threeNames_good). exists cfg0. exact (conj H0 Hs).
  - unfold isUp. rewrite Hw3. discriminate.
Defined.

(** Peer 0 is stopped and started with ends of new names. *)
Lemma tester1_peers :
  (cfg ← tester1; Some (map (option_map currentTerm) (rafts cfg), map (λ e, bool_decide (is_Some (ends (net cfg) !! inl e))) moreNames, n cfg))
  = Some ([Some 0; Some 0; Some 0], [false; false; false], 3%nat).
Proof. vm_compute. reflexivity. Qed.

Lemma restart_recovers_witness :
  ∃ cfg rf cfg' rf', tester1 = Some cfg ∧ (rafts cfg).[0] = Some (Some rf) ∧
    start1 0 moreNames 7 cfg = Some cfg' ∧ (rafts cfg').[0] = Some (Some rf') ∧ recovers rf rf'.
Proof.
  pose proof tester1_peers as H. apply bind_Some in H as (cfg & Hc & Hw). injection Hw as Hr Hf1 Hf2 Hf3 Hn.
  destruct (rafts cfg) as [|[rf|] rs] eqn:Hrs; [discriminate Hr| |discriminate Hr].
  destruct (tester1_reached _ Hc) as (cfg0 & H0 & Hs & _).
  assert ((rafts cfg).[0] = Some (Some rf)) as Hrf by (rewrite Hrs; reflexivity).
  destruct (restart_recovers 3 false threeNames Z.to_nat cfg 0 moreNames 7 rf threeNames_good) as (cfg' & rf' & H1 & H2 & H3).
  - exists cfg0. exact (conj H0 Hs).
  - lia.
  - split; [rewrite Hn; reflexivity|by distinct|]. unfold hasEnd.
    intros e He. apply elem_of_cons in He as [->|He]; [by apply bool_decide_eq_false in Hf1|].
    apply elem_of_cons in He as [->|He]; [by apply bool_decide_eq_false in Hf2|].
    apply list_elem_of_singleton in He as ->. by apply bool_decide_eq_false in Hf3.
  - exact Hrf.
  - exists cfg, rf, cfg', rf'. split; [exact Hc|]. split; [exact Hrf|]. exact (conj H1 (conj H2 H3)).
Defined.

(** ** One agreement: the leader of a cluster of one peer takes 5, the tester sees it applied *)
Definition alone : config Z :=
  mkConfig MakeNetwork 1 [Some (set_state LEADER (idleRaft 1 0))] [None] [true] [None] [None] [∅] 0 0 0 0 0.
Definition hears : config Z → config Z := λ cfg, set_logs [{[1 := Some 5]}] 1 cfg.

Lemma one_agreed_witness :
  ∃ cfg', one 5 1 true [(id, [id; hears])] alone = Pass (cfg', 1) ∧ agreement 1 (Some 5) 1 cfg'.
Proof.
  destruct (one 5 1 true [(id, [id; hears])] alone) as [|why|[cfg' index]] eqn:H;
    [vm_compute in H; discriminate H|vm_compute in H; discriminate H|].
  assert (length (rafts cfg') = length (logs cfg') ∧ index = 1) as [Hl ->].
  { vm_compute in H. injection H as <- <-. split; reflexivity. }
  exists cfg'. split; [reflexivity|]. apply (one_agreed 5 1 true [(id, [id; hears])] alone cfg' 1 H Hl).
Defined.

(** ** The leader of an election *)
Definition watch (w : World Z) : (Z → option (Raft Z)) * (gmap Z (list Z) → list (Z * list Z)) :=
  (λ i, if i <? 0 then None else nodes w !! Z.to_nat i, map_to_list).
Definition connectedThree : config Z :=
  mkConfig MakeNetwork 3 [] [] [true; true; true] [] [] [] 0 0 0 0 0.

Lemma watch_finds :
  (w0 ← initWorld (C := Z) 3; w ← runInTerm w0 oneElection;
   Some (match checkOneLeader [watch w0; watch w] connectedThree with Pass i => Some i | _ => None end)) = Some (Some 0).
Proof. by vm_compute. Qed.

Lemma watch_seen n w : reachable sendsInTerm n w → seenInRun n (watch w).1.
Proof.
  intros Hr. exists w. split; [done|]. intros i rf Hi. simpl in Hi. case_if_in Hi; [done|].
  exists w, (Z.to_nat i). split_and!; [lia|done|apply rtc_refl|done].
Qed.

Lemma checkOneLeader_never_two_witness :
  ∃ w0 w, reachable sendsInTerm 3 w ∧ leads w 0 1 = true ∧
    ∀ t k, checkOneLeader [watch w0; watch w] connectedThree ≠ Fatal (ManyLeaders t k).
Proof.
  pose proof oneElection_runs as H. apply bind_Some in H as (w0 & H0 & H). apply bind_Some in H as (w & H1 & H).
  injection H as H2 _. assert (reachable sendsInTerm 3 w0) as R0 by (by apply reach_init).
  assert (reachable sendsInTerm 3 w) as R by (eapply runInTerm_reachable; [exact R0|exact H1]).
  exists w0, w. split; [exact R|]. split; [exact H2|]. intros t k.
  apply (checkOneLeader_never_two 3 [watch w0; watch w] connectedThree t k).
  apply Forall_cons. split; [split; [by intros m|by apply watch_seen]|].
  apply Forall_cons. split; [split; [by intros m|by apply watch_seen]|]. by apply Forall_nil.
Defined.

(** ** The tester takes what the cluster applies *)
Definition heard : config Z := mkConfig MakeNetwork 3 [None; None; None] [None; None; None] [true; true; true]
  [None; None; None] [None; None; None] [∅; ∅; ∅] 0 0 0 0 0.

(** The constraint of the tester is a part of that of [RaftSafety]. *)
Lemma safe_ownTerm (c : Cluster Z) r : safeStep c r → ownTerm c r.
Proof. intros H. destruct r as [[s op|s|k|k|k|k|s]| | | | | | | |]; done. Qed.

Lemma silent_run (c0 : Cluster Z) cfg live old l c :
  treachable 3 (mkTState c0 cfg live old) → forallb silent l = true → runSafe c0 l = Some c →
  treachable 3 (mkTState c cfg live old).
Proof.
  revert c0. induction l as [|r l IH]; intros c0 Hr Hs H; simpl in *; [by injection H as <-|].
  apply andb_true_iff in Hs as [Hq Hs]. destruct (safeStepb c0 r) eqn:Hb; [|done].
  apply bind_Some in H as (c1 & H1 & H). apply (IH c1); [|done|done].
  apply (treach_step _ _ (TRaft r) _ Hr); [by apply safe_ownTerm, safeStepb_spec|]. simpl. by rewrite Hq, H1.
Qed.

Lemma first_batch :
  (c0 ← initCluster (C := Z) 3; c ← runSafe c0 firstLeader; 
   Some (applies c 0, option_map commitIndex (nodes (world c) !! 0%nat))) = 
  Some (Some ([(1, Some 10); (2, Some 11)], 0, LEADER, 1), Some 2).
Proof. by vm_compute. Qed.

Lemma batch_reached :
  ∃ t m m', treachable 3 t ∧ t_cfg t = heard ∧ t_live t !! 0%nat = Some [m; m'] ∧ CommandIndex m = 1 ∧ am_Command m = Some 10.
Proof.
  pose proof first_batch as H. apply bind_Some in H as (c0 & H0 & H). apply bind_Some in H as (c & H1 & H).
  injection H as H Hci. destruct (applies_Some _ _ _ _ _ _ H) as (rf & rf' & msgs & Hs & Hu & Hap & Hm & Hlii & _).
  destruct msgs as [|m [|m' [|m'' ms]]]; [discriminate Hm..| |discriminate Hm]. injection Hm as Hi Hc _ _.
  eexists (mkTState (setPeer 0 rf' c) heard [[m; m']; []; []] []), m, m'. split_and!; try done.
  apply (treach_step 3 (mkTState c heard [[]; []; []] []) (TUpdate 0)); [|done|].
  - apply (silent_run c0 _ _ _ firstLeader); [by apply (treach_init 3 c0 heard)|reflexivity|exact H1].
  - cbn [texec t_live t_cluster]. change ([[]; []; []] !! 0%nat) with (Some (@nil (ApplyMsg Z))).
    cbn [mbind option_bind]. rewrite Hs. cbn [mbind option_bind]. rewrite Hu. reflexivity.
Qed.

Lemma tester_accepts_witness :
  ∃ t m cfg', treachable 3 t ∧ CommandIndex m = 1 ∧ am_Command m = Some 10 ∧ applier (Z.of_nat 0) m (t_cfg t) = Pass cfg'.
Proof.
  destruct batch_reached as (t & m & m' & Hr & _ & Hl & Hi & Hc).
  destruct (tester_accepts 3 t 0 m [m'] Hr (or_introl Hl)) as [cfg' H].
  exists t, m, cfg'. exact (conj Hr (conj Hi (conj Hc H))).
Defined.

Lemma nCommitted_agrees_witness :
  ∃ t cmd, treachable (C := Z) 3 t ∧
    nCommitted 1 (t_cfg t) = Pass (Z.of_nat (length (appliedBy 1 (logs (t_cfg t)))), cmd).
Proof.
  destruct batch_reached as (t & m & m' & Hr & Hcfg & _).
  destruct (nCommitted_agrees 3 t 1 Hr) as [cmd H]; [rewrite Hcfg; reflexivity|rewrite Hcfg; reflexivity|].
  exists t, cmd. exact (conj Hr H).
Defined.
