(* ===== verification/RaftFindings.v ===== *)
(** Where raft.go departs from its intention: the commit rule counts entries of older
    terms, an installed snapshot loses its term in a restart, and a restarted peer forgets
    how far it has committed.  Each is a run of the operations of [Raft.v]. *)
From S2P Require Import Prelude Labgob Persister Raft RaftLog RaftNode RaftProps RaftService RaftWitness.
Import SampleGob.
#[local] Open Scope Z_scope.

(** ** Calls between peers, one RPC at a time *)
Section script.
Context {C : Type} `{!Gob Z, !Gob (list (Log C))}.
Abbreviation Cluster := (list (Raft C)).

(** One step of a schedule: an election in which the named peers answer, a command, one
    [onRound] of entries, an application of what is committed.  The applied commands are
    reported as (peer, index, command). *)
Inductive Step :=
  | SElect (c : Z) (voters : list Z)
  | SStart (c : Z) (command : C)
  | SRound (leader follower : Z)
  | SApply (s : Z).
Definition Applied : Type := Z * Z * option C.

(** The goroutine of [elect] for one peer: the request, the handler, the reply. *)
Definition askVote (c : Z) (st : Cluster * Z) (v : Z) : option (Cluster * Z) :=
  let '(ps, cnt) := st in
  rc ← ps.[c]; args ← electArgs rc; rv ← ps.[v];
  '(rv, reply, _) ← RequestVote rv args;
  ps ← ps.[v <~ rv];
  '(rc, cnt, _) ← electReply rc cnt (stampVote args reply);
  ps ← ps.[c <~ rc]; Some (ps, cnt).

Fixpoint askVotes (c : Z) (st : Cluster * Z) (vs : list Z) : option (Cluster * Z) :=
  match vs with [] => Some st | v :: vs => st ← askVote c st v; askVotes c st vs end.

Definition scriptStep (ps : Cluster) (s : Step) : option (Cluster * list Applied) :=
  match s with
  | SElect c vs =>
      rc ← ps.[c]; '(rc, _) ← tickElect rc; ps ← ps.[c <~ rc];
      '(ps, _) ← askVotes c (ps, 1) vs; Some (ps, [])
  | SStart c command =>
      rc ← ps.[c]; ps ← ps.[c <~ (Start rc command).1.1]; Some (ps, [])
  | SRound l f =>
      rl ← ps.[l]; call ← onRoundBegin rl f; rr ← ps.[f];
      match call with
      | Some (SendEntries args) =>
          '(rr, reply, _) ← AppendEntries rr args; ps ← ps.[f <~ rr];
          rl ← onRoundEntriesReply rl f args (Some reply); ps ← ps.[l <~ rl]; Some (ps, [])
      | _ => Some (ps, [])
      end
  | SApply s =>
      rs ← ps.[s]; '(rs, msgs) ← updateApplied rs; ps ← ps.[s <~ rs];
      Some (ps, map (λ m, (s, CommandIndex m, am_Command m)) msgs)
  end.

Fixpoint script (ps : Cluster) (ss : list Step) : option (Cluster * list Applied) :=
  match ss with
  | [] => Some (ps, [])
  | s :: ss => '(ps, a) ← scriptStep ps s; '(ps, b) ← script ps ss; Some (ps, a ++ b)
  end.

Definition freshCluster (n : nat) : option Cluster :=
  mapM (λ i : nat, Make n (Z.of_nat i) MakePersister) (seq 0 n).
End script.

(** ** An entry of an older term is committed by counting, and lost *)

(** Peer 0 leads term 1 and stores command 2 on peer 1; peer 4 leads term 2 and stores
    command 3 only on itself; peer 0 leads term 3 and finishes the replication of command 2
    to a majority, which commits it; peer 4 then wins term 4 and replaces it. *)
Definition figure8 : list (Step (C := Z)) :=
  [SElect 0 [1; 2]; SStart 0 2; SRound 0 1;
   SElect 4 []; SElect 4 [2; 3]; SStart 4 3;
   SRound 0 2; SElect 0 [1; 2]; SRound 0 1; SRound 0 2; SRound 0 2; SApply 0;
   SRound 4 2; SElect 4 [1; 2; 3];
   SRound 4 1; SRound 4 1; SRound 4 2; SRound 4 2; SRound 4 3; SRound 4 3; SApply 4].

(** C31: the leader commits an entry of an older term once a majority stores it
    ([rf.currentTerm == reply.Term] compares the terms of the peers, not of the entry), and
    a later leader replaces it: two peers apply different commands at index 1. *)
Theorem committed_entry_lost :
  ∃ ps ps' applied, freshCluster 5 = Some ps ∧ script ps figure8 = Some (ps', applied) ∧
    (0, 1, Some 2) ∈ applied ∧ (4, 1, Some 3) ∈ applied.
Proof.
  eexists _, _, _; split_and!; [vm_compute; reflexivity..| |].
  all: repeat (apply elem_of_cons; first [left; reflexivity|right]).
Qed.

(** ** The term of an installed snapshot does not survive a restart *)
Section install.
Context {C : Type} `{!Gob Z, !Gob (list (Log C))}.
Implicit Types (rf : Raft C).

Lemma CondInstall_saved rf t i snap rf' :
  CondInstallSnapshot rf t i snap = Some (rf', true) →
  ∃ tl, log rf' = mkLog None t :: tl ∧ lastIncludedIndex rf' = i ∧
    lastIncludedTerm rf' = lastIncludedTerm rf ∧ commitIndex rf' = i ∧ lastApplied rf' = i ∧
    raftstate (persister rf') = raftState rf' ∧ ReadSnapshot (persister rf') = snap ∧
    peers rf' = peers rf ∧ me rf' = me rf.
Proof.
  unfold CondInstallSnapshot; intros H. case_if_in H; [done|].
  apply bind_Some in H as (lg & _ & H). apply bind_Some in H as (lg' & Hlg & [= <-]).
  apply go_store_inv in Hlg as [Hl ->]. destruct lg as [|h tl]; [unfold len in Hl; simpl in Hl; lia|].
  exists tl. simpl. rewrite ?ReadSnapshot_SaveBoth. split_and!; try done. apply clone_id.
Qed.

(** C32: [CondInstallSnapshot] puts the snapshot's term into [log[0]] but leaves
    [lastIncludedTerm] as it was; a restart takes [log[0].Term] from [lastIncludedTerm], so
    the peer comes back with the term of its previous snapshot at the snapshot's index. *)
Theorem installed_term_lost rf t i snap rf' :
  CondInstallSnapshot rf t i snap = Some (rf', true) →
  termAt rf' i = Some t ∧
  ∃ rf'', Make (peers rf) (me rf) (persister rf') = Some rf'' ∧
    lastIncludedIndex rf'' = i ∧ ReadSnapshot (persister rf') = snap ∧
    termAt rf'' i = Some (lastIncludedTerm rf).
Proof.
  intros (tl & Hlog & Hi & Ht & _ & _ & Hrs & Hsn & Hp & Hm)%CondInstall_saved.
  split.
  - unfold termAt, realIndex. rewrite Hlog, Hi, Z.sub_diag. done.
  - destruct (Make_recovers rf') as (rf'' & Hmk & Hrec).
    { eapply durable_saved; [by rewrite Hlog|reflexivity|done]. }
    rewrite Hp, Hm in Hmk. exists rf''; split; [done|].
    destruct (rec_head _ _ Hrec) as (l & Hl & Htl). pose proof (rec_lii _ _ Hrec).
    split_and!; [congruence|done|]. unfold termAt, realIndex.
    replace (i - lastIncludedIndex rf'') with 0 by lia. rewrite Hl; simpl. congruence.
Qed.
End install.

Lemma installed_term_lost_witness :
  ∃ rf' rf'', CondInstallSnapshot sampleFollower 3 7 [] = Some (rf', true) ∧
    termAt rf' 7 = Some 3 ∧ Make 3 1 (persister rf') = Some rf'' ∧ termAt rf'' 7 = Some 0.
Proof.
  assert (∃ rf', CondInstallSnapshot sampleFollower 3 7 [] = Some (rf', true)) as [rf' H].
  { eexists; vm_compute; reflexivity. }
  destruct (installed_term_lost sampleFollower 3 7 [] rf' H) as (Ht & rf'' & Hm & _ & _ & Ht').
  exists rf', rf''. split_and!; [exact H|exact Ht|exact Hm|exact Ht'].
Defined.

(** ** A restarted peer forgets its commit index *)

(** Entries 1 to 3 are applied and snapshotted; after the crash a leader that knows only
    entry 1 to be committed sends a heartbeat, then entry 4 is committed. *)
Definition forgetfulLife : list (LifeEvent (C := Z)) :=
  [Op (OpAppendEntries (mkAEArgs 1 0 0 0 [entry 1 1; entry 2 1; entry 3 1] 3));
   Op OpUpdateApplied; Op (OpSnapshot 3 []); Crash;
   Op (OpAppendEntries (mkAEArgs 2 2 3 1 [] 1)); Op OpUpdateApplied;
   Op (OpAppendEntries (mkAEArgs 2 2 3 1 [entry 4 2] 4))].

(** C33: [Make] restores [lastApplied] but not [commitIndex], so a heartbeat with a small
    [LeaderCommit] moves [lastApplied] below the snapshot and the next commit indexes the
    log before its start: the peer panics. *)
Theorem restart_apply_panics :
  ∃ rf0 rf, Make 3 1 MakePersister = Some rf0 ∧ life rf0 forgetfulLife = Some rf ∧
    lastApplied rf = 1 ∧ lastIncludedIndex rf = 3 ∧ commitIndex rf = 4 ∧ commitChan rf = true ∧
    updateApplied rf = None.
Proof. eexists _, _; split_and!; [vm_compute; reflexivity..|done|done|done|done|by vm_compute]. Qed.
