(* ===== verification/RequestServer.v ===== *)
(** The request path that [kvraft/server.go] and [shardctrler/server.go] share: a handler
    starts its operation in Raft and waits on a channel named by client, request and log
    index ([DealRequest], [getWaitChan], [deleteWaitChan]); [fetchApply] takes what Raft
    has committed, applies it to the service's state and sends the answer.

    A [chan Answer] of capacity one is a cell of a heap, because a handler keeps its
    channel after [deleteWaitChan] has removed the name.  The handlers and the [fetchApply]
    goroutine are program counters; a step of the machine is one region of the code that
    runs under a lock, or one channel operation.  What differs between the two servers is
    the [Service] class. *)
From S2P Require Import Prelude Labgob Persister Raft RaftNode.
#[local] Open Scope Z_scope.

(** What a server contributes: how an RPC handler turns its arguments into an operation or
    answers at once ([svc_handle]), its state machine ([svc_apply] is the locked region of
    [fetchApply]), and what [fetchApply] does after a command and on a snapshot.  [None] is
    a panic. *)
Class Service (St Req Op Ans : Type) := {
  svc_UId : Op → Z;
  svc_RequestId : Op → Z;
  svc_handle : St → Req → Op + Ans;
  svc_apply : St → Op → option (St * Ans);
  svc_after : Raft Op → St → Z → option (Raft Op);
  svc_install : Raft Op → St → ApplyMsg Op → option (Raft Op * St);
}.

(** ** The wait channels *)
Section chans.
Context {Ans : Type}.

Record Chans := mkChans { waitChan : gmap string nat; heap : list (option Ans) }.

Definition waitKey (uid reqId index : Z) : string :=
  Sprint uid +:+ "," +:+ Sprint reqId +:+ "," +:+ Sprint index.

Definition getWaitChan (w : Chans) (uid reqId index : Z) : Chans * nat :=
  let key := waitKey uid reqId index in
  match waitChan w !! key with
  | None => let c := length (heap w) in (mkChans (<[key := c]> (waitChan w)) (heap w ++ [None]), c)
  | Some c => (w, c)
  end.

Definition deleteWaitChan (w : Chans) (uid reqId index : Z) : Chans :=
  mkChans (delete (waitKey uid reqId index) (waitChan w)) (heap w).

(** [c <- a] and [<-c]; [None] while the operation would block *)
Definition chanSend (w : Chans) (c : nat) (a : Ans) : option Chans :=
  match heap w !! c with
  | Some None => Some (mkChans (waitChan w) (<[c := Some a]> (heap w)))
  | _ => None
  end.
Definition chanRecv (w : Chans) (c : nat) : option (Chans * Ans) :=
  match heap w !! c with
  | Some (Some a) => Some (mkChans (waitChan w) (<[c := None]> (heap w)), a)
  | _ => None
  end.
End chans.
Arguments Chans : clear implicits.

Section machine.
Context {St Req Op Ans : Type} `{!Service St Req Op Ans, !Gob Z, !Gob (list (Log Op))}.

(** An RPC handler: before [Start], before [getWaitChan], in the [select], after it, and
    returned.  [HDone op None] has answered that this server is not the leader (the code
    answers the same after its timeout); [HEarly] has answered without Raft. *)
Inductive Handler :=
  | HStart (op : Op)
  | HIndex (op : Op) (index : Z)
  | HWait (op : Op) (index : Z) (c : nat)
  | HReply (op : Op) (index : Z) (answer : option Ans)
  | HDone (op : Op) (answer : option Ans)
  | HEarly (req : Req) (answer : Ans).

(** The [fetchApply] goroutine: at the receive, after the locked region, at the send, and
    before the snapshot check. *)
Inductive Fetcher :=
  | FIdle
  | FApplied (op : Op) (index : Z) (answer : Ans)
  | FSend (op : Op) (index : Z) (c : nat) (answer : Ans)
  | FAfter (index : Z).

Record Sys := mkSys {
  rf : Raft Op;
  st : St;
  chans : Chans Ans;
  handlers : list Handler;
  fetcher : Fetcher;
  applied : list (Z * Op * Ans);     (* history: what [fetchApply] has applied *)
}.

Definition with_rf v s := mkSys v (st s) (chans s) (handlers s) (fetcher s) (applied s).
Definition with_chans v s := mkSys (rf s) (st s) v (handlers s) (fetcher s) (applied s).
Definition with_handler h v s :=
  mkSys (rf s) (st s) (chans s) (<[h := v]> (handlers s)) (fetcher s) (applied s).
Definition with_fetcher v s := mkSys (rf s) (st s) (chans s) (handlers s) v (applied s).

Inductive Event :=
  | EvRaft (op : NodeOp (C := Op))        (* anything else Raft does *)
  | EvCall (req : Req)
  | EvStart (h : nat)
  | EvGetChan (h : nat)
  | EvAnswer (h : nat)
  | EvTimeout (h : nat)
  | EvDelete (h : nat)
  | EvFetch (msg : ApplyMsg Op)
  | EvLeader
  | EvSend
  | EvAfter.

(** [DealRequest], one region at a time *)
Definition dealRequest (s : Sys) (h : nat) (e : Event) : option Sys :=
  hd ← handlers s !! h;
  match e, hd with
  | EvStart _, HStart op =>
      let '(rf', (index, _, isLeader), _) := Start (rf s) op in
      Some (with_handler h (if isLeader then HIndex op index else HDone op None) (with_rf rf' s))
  | EvGetChan _, HIndex op index =>
      let '(w, c) := getWaitChan (chans s) (svc_UId op) (svc_RequestId op) index in
      Some (with_handler h (HWait op index c) (with_chans w s))
  | EvAnswer _, HWait op index c =>
      '(w, a) ← chanRecv (chans s) c;
      Some (with_handler h (HReply op index (Some a)) (with_chans w s))
  | EvTimeout _, HWait op index c => Some (with_handler h (HReply op index None) s)
  | EvDelete _, HReply op index a =>
      Some (with_handler h (HDone op a)
              (with_chans (deleteWaitChan (chans s) (svc_UId op) (svc_RequestId op) index) s))
  | _, _ => None
  end.

(** [fetchApply], one region at a time.  [command.Command.(Op)] panics on [nil]. *)
Definition fetchApply (s : Sys) (e : Event) : option Sys :=
  match e, fetcher s with
  | EvFetch msg, FIdle =>
      if CommandValid msg then
        op ← am_Command msg;
        '(st', a) ← svc_apply (st s) op;
        Some (mkSys (rf s) st' (chans s) (handlers s) (FApplied op (CommandIndex msg) a)
                (applied s ++ [(CommandIndex msg, op, a)]))
      else if SnapshotValid msg then
        '(rf', st') ← svc_install (rf s) (st s) msg;
        Some (mkSys rf' st' (chans s) (handlers s) FIdle (applied s))
      else Some s
  | EvLeader, FApplied op index a =>
      if (GetState (rf s)).2 then
        let '(w, c) := getWaitChan (chans s) (svc_UId op) (svc_RequestId op) index in
        Some (with_fetcher (FSend op index c a) (with_chans w s))
      else Some (with_fetcher (FAfter index) s)
  | EvSend, FSend op index c a =>
      w ← chanSend (chans s) c a; Some (with_fetcher (FAfter index) (with_chans w s))
  | EvAfter, FAfter index =>
      rf' ← svc_after (rf s) (st s) index; Some (with_fetcher FIdle (with_rf rf' s))
  | _, _ => None
  end.

Definition sysStep (s : Sys) (e : Event) : option Sys :=
  match e with
  | EvRaft op => rf' ← nodeExec (rf s) op; Some (with_rf rf' s)
  | EvCall req =>
      let hd := match svc_handle (st s) req with inl op => HStart op | inr a => HEarly req a end in
      Some (mkSys (rf s) (st s) (chans s) (handlers s ++ [hd]) (fetcher s) (applied s))
  | EvStart h | EvGetChan h | EvAnswer h | EvTimeout h | EvDelete h => dealRequest s h e
  | EvFetch _ | EvLeader | EvSend | EvAfter => fetchApply s e
  end.

Fixpoint sysRun (s : Sys) (es : list Event) : option Sys :=
  match es with [] => Some s | e :: es => s ← sysStep s e; sysRun s es end.

Definition initSys (rf : Raft Op) (st : St) : Sys := mkSys rf st (mkChans ∅ []) [] FIdle [].
End machine.
Arguments Sys : clear implicits.
Arguments Event : clear implicits.
