(* ===== verification/RequestProps.v ===== *)
(** What the request path promises, for any service: a handler only answers with the result
    of its own client, request and log index, and [fetchApply] never blocks on a wait
    channel as long as Raft hands it every index once. *)
From S2P Require Import Prelude Labgob Persister Raft RaftNode RequestServer.
#[local] Open Scope Z_scope.

Lemma waitKey_inj u r i u' r' i' :
  waitKey u r i = waitKey u' r' i' → u = u' ∧ r = r' ∧ i = i'.
Proof.
  unfold waitKey. intros H.
  apply no_char_app_inj in H as [Hu H]; [|apply no_comma_Sprint..].
  apply no_char_app_inj in H as [Hr Hi]; [|apply no_comma_Sprint..].
  unfold Sprint in *. split_and!; by apply (inj pretty).
Qed.

Section props.
Context {St Req Op Ans : Type} `{!Service St Req Op Ans, !Gob Z, !Gob (list (Log Op))}.
Implicit Types (s : Sys St Req Op Ans) (e : Event Req Op).

Abbreviation keyOf op index := (waitKey (svc_UId op) (svc_RequestId op) index).

(** The answer of an operation with the client, request and index of [op]. *)
Definition ownAnswer s (op : Op) (index : Z) (a : Ans) : Prop :=
  ∃ op', (index, op', a) ∈ applied s ∧ svc_UId op' = svc_UId op ∧
         svc_RequestId op' = svc_RequestId op.

(** What is known of a handler and of the [fetchApply] goroutine, when channel [c] was made
    for the key [owner !! c]. *)
Definition handlerOk s (owner : list string) (hd : Handler (Req := Req) (Op := Op) (Ans := Ans)) : Prop :=
  match hd with
  | HWait op index c => owner !! c = Some (keyOf op index)
  | HReply op index (Some a) => ownAnswer s op index a
  | _ => True
  end.

Definition fetcherOk s (owner : list string) : Prop :=
  match fetcher s with
  | FApplied op index a => (index, op, a) ∈ applied s
  | FSend op index c a => (index, op, a) ∈ applied s ∧ owner !! c = Some (keyOf op index)
  | _ => True
  end.

Definition heapOk s (owner : list string) : Prop :=
  ∀ c a, heap (chans s) !! c = Some (Some a) →
    ∃ index op, owner !! c = Some (keyOf op index) ∧ (index, op, a) ∈ applied s.

Record sysInv s (owner : list string) : Prop := {
  inv_len : length owner = length (heap (chans s));
  inv_names : ∀ k c, waitChan (chans s) !! k = Some c → owner !! c = Some k;
  inv_handlers : ∀ h hd, handlers s !! h = Some hd → handlerOk s owner hd;
  inv_fetcher : fetcherOk s owner;
  inv_heap : heapOk s owner;
}.

(** [getWaitChan] gives a channel made for the key, and keeps all other channels. *)
Lemma getWaitChan_spec (w : Chans Ans) owner u r i w' c :
  length owner = length (heap w) →
  (∀ k c, waitChan w !! k = Some c → owner !! c = Some k) →
  getWaitChan w u r i = (w', c) →
  ∃ more, let owner' := owner ++ more in
    owner' !! c = Some (waitKey u r i) ∧ length owner' = length (heap w') ∧
    (∀ k c, waitChan w' !! k = Some c → owner' !! c = Some k) ∧
    (∀ c a, heap w' !! c = Some (Some a) → heap w !! c = Some (Some a)).
Proof.
  intros Hl Hn. unfold getWaitChan. destruct (waitChan w !! waitKey u r i) as [c0|] eqn:Hk.
  - intros [= <- <-]. exists []; simpl. rewrite app_nil_r. auto.
  - intros [= <- <-]. exists [waitKey u r i]; simpl. rewrite <-Hl. split_and!.
    + apply lookup_app_Some; right. split; [lia|]. by rewrite Nat.sub_diag.
    + rewrite !length_app; simpl; lia.
    + intros k c [[<- <-]|[Hne Hc]]%lookup_insert_Some.
      * apply lookup_app_Some; right. split; [lia|]. by rewrite Nat.sub_diag.
      * by apply lookup_app_l_Some, Hn.
    + intros c a [?|[? Hc]]%lookup_app_Some; [done|].
      by apply list_lookup_singleton_Some in Hc as [_ ?].
Qed.

(** More channels and a longer history keep what is known. *)
Lemma handlerOk_mono s s' owner more hd :
  (∀ x, x ∈ applied s → x ∈ applied s') →
  handlerOk s owner hd → handlerOk s' (owner ++ more) hd.
Proof.
  intros Ha. destruct hd as [| |op i c|op i [a|]| |]; simpl; try done.
  - by apply lookup_app_l_Some.
  - intros (op' & ? & ?). exists op'; auto.
Qed.

Lemma heapOk_mono s s' owner more :
  (∀ x, x ∈ applied s → x ∈ applied s') →
  (∀ c a, heap (chans s') !! c = Some (Some a) → heap (chans s) !! c = Some (Some a)) →
  heapOk s owner → heapOk s' (owner ++ more).
Proof.
  intros Ha Hh H c a Hc. destruct (H c a (Hh c a Hc)) as (i & op & Ho & Hin).
  exists i, op; split; [by apply lookup_app_l_Some|auto].
Qed.

Lemma handlers_insert (P : Handler (Req := Req) (Op := Op) (Ans := Ans) → Prop) (hs : list Handler) (h : nat) v :
  P v → (∀ (h : nat) hd, hs !! h = Some hd → P hd) →
  ∀ (h' : nat) hd, <[h := v]> hs !! h' = Some hd → P hd.
Proof. intros Hv Hall h' hd [(-> & <- & _)|[_ ?]]%list_lookup_insert_Some; eauto. Qed.

Lemma dealRequest_inv s owner h e s' :
  sysInv s owner → dealRequest s h e = Some s' →
  fetcher s' = fetcher s ∧ ∃ more, sysInv s' (owner ++ more) ∧
    (∀ c a, heap (chans s') !! c = Some (Some a) → heap (chans s) !! c = Some (Some a)).
Proof.
  intros [Hl Hn Hh Hf Hp] H. unfold dealRequest in H. apply bind_Some in H as (hd & Hhd & H).
  pose proof (Hh _ _ Hhd) as Hok.
  destruct e as [ro|co|h1|h1|h1|h1|h1|msg| | |], hd as [op|op i|op i c|op i a|op a|rq a]; try done.
  - destruct (Start (rf s) op) as [[rf' [[i t] l]] eff]. injection H as <-. split; [done|].
    exists []; rewrite app_nil_r; split; [|done]. split; simpl; try done.
    apply (handlers_insert (handlerOk _ _)); [by destruct l|exact Hh].
  - destruct (getWaitChan _ _ _ _) as [w c] eqn:Hg. injection H as <-. split; [done|].
    destruct (getWaitChan_spec _ _ _ _ _ _ _ Hl Hn Hg) as (more & Hc & Hl' & Hn' & Hh').
    exists more; split; [|exact Hh']. split; simpl; try done.
    + apply (handlers_insert (handlerOk _ _)); [exact Hc|].
      intros h' hd' Hhd'. eapply (handlerOk_mono s); [done|by eapply Hh].
    + unfold fetcherOk in *; simpl. destruct (fetcher s); try done.
      destruct Hf; split; [done|by apply lookup_app_l_Some].
    + by apply (heapOk_mono s).
  - apply bind_Some in H as ([w a] & Hr & [= <-]). split; [done|].
    unfold chanRecv in Hr. destruct (heap (chans s) !! c) as [[a'|]|] eqn:Hc; try done.
    injection Hr as <- <-. exists []; rewrite app_nil_r.
    assert (∀ c' a, <[c := None]> (heap (chans s)) !! c' = Some (Some a) →
              heap (chans s) !! c' = Some (Some a)) as Hsub.
    { intros c' a. intros [(_ & ? & _)|[_ ?]]%list_lookup_insert_Some; done. }
    split; [|exact Hsub]. split; simpl; try done.
    + by rewrite length_insert.
    + apply (handlers_insert (handlerOk _ _)); [|exact Hh]. simpl.
      destruct (Hp c a' Hc) as (i' & op' & Ho & Hin). simpl in Hok. rewrite Ho in Hok.
      injection Hok as (Hu & Hr & ->)%waitKey_inj. by exists op'.
    + intros c' a Hc'. apply Hp, Hsub, Hc'.
  - injection H as <-. split; [done|].
    exists []; rewrite app_nil_r; split; [|done]. split; simpl; try done.
    by apply (handlers_insert (handlerOk _ _)); [|exact Hh].
  - injection H as <-. split; [done|].
    exists []; rewrite app_nil_r; split; [|done]. split; simpl; try done.
    + intros k c [_ ?]%lookup_delete_Some; eauto.
    + by apply (handlers_insert (handlerOk _ _)); [|exact Hh].
Qed.

(** The answer [fetchApply] puts into a channel in this step, if any. *)
Definition sending s (c : nat) (a : Ans) : Prop := ∃ op i, fetcher s = FSend op i c a.

Lemma fetchApply_inv s owner e s' :
  sysInv s owner → fetchApply s e = Some s' →
  ∃ more, sysInv s' (owner ++ more) ∧
    (∀ c a, heap (chans s') !! c = Some (Some a) →
       heap (chans s) !! c = Some (Some a) ∨ sending s c a ∧ e = EvSend).
Proof.
  intros [Hl Hn Hh Hf Hp] H. unfold fetchApply in H. unfold fetcherOk in Hf.
  destruct e as [ro|co|h1|h1|h1|h1|h1|msg| | |]; try done;
    destruct (fetcher s) as [|op i a|op i c a|i] eqn:Hfe; try done.
  - exists []. rewrite app_nil_r. case_if_in H.
    + apply bind_Some in H as (op & _ & H). apply bind_Some in H as ([st' a] & _ & [= <-]).
      assert (∀ x, x ∈ applied s → x ∈ applied s ++ [(CommandIndex msg, op, a)]) as Hsub.
      { intros x Hx. apply elem_of_app; by left. }
      split; [|auto]. rewrite <-(app_nil_r owner). split; simpl; try (by rewrite app_nil_r).
      * intros h hd Hhd. eapply (handlerOk_mono s); [done|by eapply Hh].
      * unfold fetcherOk; simpl. apply elem_of_app; right. by apply list_elem_of_singleton.
      * by apply (heapOk_mono s).
    + case_if_in H.
      * apply bind_Some in H as ([rf' st'] & _ & [= <-]). split; [by split|auto].
      * injection H as <-. split; [|auto]. split; try done. unfold fetcherOk; by rewrite Hfe.
  - case_if_in H; [|injection H as <-; exists []; rewrite app_nil_r; split; [by split|auto]].
    destruct (getWaitChan _ _ _ _) as [w c] eqn:Hg. injection H as <-.
    destruct (getWaitChan_spec _ _ _ _ _ _ _ Hl Hn Hg) as (more & Hc & Hl' & Hn' & Hh').
    exists more; split; [|auto]. split; simpl; try done.
    + intros h' hd' Hhd'. eapply (handlerOk_mono s); [done|by eapply Hh].
    + by apply (heapOk_mono s).
  - apply bind_Some in H as (w & Hs & [= <-]). unfold chanSend in Hs.
    destruct (heap (chans s) !! c) as [[a'|]|] eqn:Hc; try done. injection Hs as <-.
    exists []; rewrite app_nil_r; split; [split|]; simpl; try done.
    + by rewrite length_insert.
    + intros c' a'. simpl. intros [(<- & [= <-] & _)|[_ ?]]%list_lookup_insert_Some; [|by eapply Hp].
      destruct Hf. by exists i, op.
    + intros c' a'. simpl. intros [(<- & [= <-] & _)|[_ ?]]%list_lookup_insert_Some; [right|by left].
      unfold sending; rewrite Hfe; eauto.
  - apply bind_Some in H as (rf' & _ & [= <-]). exists []; rewrite app_nil_r; split; [by split|auto].
Qed.

Lemma sysStep_call s owner req :
  sysInv s owner → ∃ s', sysStep s (EvCall req) = Some s' ∧ sysInv s' owner.
Proof.
  intros [Hl Hn Hh Hf Hp]. eexists; split; [reflexivity|]. split; try done; simpl.
  intros h hd [?|[_ Hhd]]%lookup_app_Some; [by eapply Hh|].
  apply list_lookup_singleton_Some in Hhd as [_ <-]. by destruct (svc_handle _ _).
Qed.

Lemma sysStep_inv s owner e s' :
  sysInv s owner → sysStep s e = Some s' → ∃ owner', sysInv s' owner'.
Proof.
  intros Hi H. destruct e; cbn [sysStep] in H;
    try (by destruct (dealRequest_inv _ _ _ _ _ Hi H) as (_ & more & ? & _); eauto); try (by destruct (fetchApply_inv _ _ _ _ Hi H) as (more & ? & _); eauto).
  - apply bind_Some in H as (rf' & _ & [= <-]). exists owner. by destruct Hi.
  - exists owner. by destruct (sysStep_call _ _ req Hi) as (? & [= <-] & ?); simplify_eq.
Qed.

Lemma sysRun_inv s owner es s' :
  sysInv s owner → sysRun s es = Some s' → ∃ owner', sysInv s' owner'.
Proof.
  revert s owner; induction es as [|e es IH]; intros s owner Hi H; simpl in H.
  - injection H as <-; eauto.
  - apply bind_Some in H as (s1 & H1 & H). destruct (sysStep_inv _ _ _ _ Hi H1) as [o1 Hi1]; eauto.
Qed.

Lemma initSys_inv rf st : sysInv (initSys rf st) [].
Proof. by split. Qed.

(** C21: whatever Raft, the other handlers and [fetchApply] do in between, and although
    wait channels are found by a printed name, deleted and made again: a handler that takes
    an answer from its channel takes the result of an operation of the same client, with
    the same request number, applied at the log index the handler was given. *)
Theorem answers_are_own rf0 st0 es s h op index a :
  sysRun (initSys rf0 st0) es = Some s → handlers s !! h = Some (HReply op index (Some a)) →
  ∃ op', (index, op', a) ∈ applied s ∧ svc_UId op' = svc_UId op ∧
         svc_RequestId op' = svc_RequestId op.
Proof.
  intros H Hh. destruct (sysRun_inv _ _ _ _ (initSys_inv rf0 st0) H) as [owner [_ _ Hi _ _]].
  exact (Hi h _ Hh).
Qed.

(** ** [fetchApply] does not block *)

(** The index Raft hands over in an event. *)
Definition fetched e : option Z :=
  match e with EvFetch msg => if CommandValid msg then Some (CommandIndex msg) else None | _ => None end.

(** Every index is handed over once, in order. *)
Fixpoint inOrder (last : Z) (es : list (Event Req Op)) : Prop :=
  match es with
  | [] => True
  | e :: es => match fetched e with
               | Some i => last < i ∧ inOrder i es
               | None => inOrder last es
               end
  end.

(** The answers in channels are of indexes before [bound]. *)
Definition below s (owner : list string) (bound : Z) : Prop :=
  ∀ c a op index, heap (chans s) !! c = Some (Some a) → owner !! c = Some (keyOf op index) →
    index < bound.

Definition current s (last : Z) : Prop :=
  match fetcher s with FApplied _ i _ | FSend _ i _ _ => i = last | _ => True end.
Definition bound s (last : Z) : Z :=
  match fetcher s with FApplied _ i _ | FSend _ i _ _ => last | _ => last + 1 end.

Lemma below_mono s s' owner more b b' :
  heapOk s owner → b ≤ b' →
  (∀ c a, heap (chans s') !! c = Some (Some a) → heap (chans s) !! c = Some (Some a)) →
  below s owner b → below s' (owner ++ more) b'.
Proof.
  intros Hp Hb Hsub H c a op i Hc Ho. apply Hsub in Hc.
  destruct (Hp c a Hc) as (i' & op' & Ho' & _).
  rewrite (lookup_app_l_Some _ _ _ _ Ho') in Ho. injection Ho as Ho.
  specialize (H c a op' i' Hc Ho'). apply waitKey_inj in Ho as (_ & _ & ->). lia.
Qed.

Definition flowInv s (last : Z) : Prop :=
  ∃ owner, sysInv s owner ∧ below s owner (bound s last) ∧ current s last.

(** Steps that leave [fetchApply] where it is. *)
Lemma flowInv_keep s s' owner more last :
  sysInv s owner → below s owner (bound s last) → current s last →
  fetcher s' = fetcher s → sysInv s' (owner ++ more) →
  (∀ c a, heap (chans s') !! c = Some (Some a) → heap (chans s) !! c = Some (Some a)) →
  flowInv s' last.
Proof.
  intros Hi Hb Hc Hf Hi' Hsub. exists (owner ++ more). split; [done|].
  unfold bound, current in *. rewrite Hf. split; [|done].
  eapply below_mono; [apply Hi|reflexivity|done|done].
Qed.

Lemma fetchApply_shape s e s' last :
  fetchApply s e = Some s' → current s last →
  match fetched e with Some i => last < i | None => True end →
  let last' := default last (fetched e) in
  bound s last ≤ bound s' last' ∧ current s' last' ∧
  (e = EvSend → fetched e = None ∧ bound s' last = last + 1).
Proof.
  intros H Hc Hi. unfold fetchApply in H. unfold bound, current in *.
  destruct e as [ro|co|h1|h1|h1|h1|h1|msg| | |]; try done;
    destruct (fetcher s) as [|op i a|op i c a|i] eqn:Hfe; try done; simpl in *.
  - destruct (CommandValid msg); simpl in *.
    + apply bind_Some in H as (op & _ & H). apply bind_Some in H as ([st' a] & _ & [= <-]).
      simpl. split_and!; [lia|done|done].
    + case_if_in H.
      * apply bind_Some in H as ([rf' st'] & _ & [= <-]). done.
      * injection H as <-. by rewrite Hfe.
  - case_if_in H; [|injection H as <-; simpl; split_and!; [lia|done|done]].
    destruct (getWaitChan _ _ _ _) as [w c]. by injection H as <-.
  - apply bind_Some in H as (w & _ & [= <-]); simpl. split_and!; [lia|done|done].
  - apply bind_Some in H as (rf' & _ & [= <-]). done.
Qed.

Lemma fetchApply_flow s e s' last :
  flowInv s last → fetchApply s e = Some s' →
  match fetched e with Some i => last < i | None => True end →
  flowInv s' (default last (fetched e)).
Proof.
  intros (owner & Hi & Hb & Hc) H Hf.
  destruct (fetchApply_inv _ _ _ _ Hi H) as (more & Hi' & Hsub).
  destruct (fetchApply_shape _ _ _ _ H Hc Hf) as (Hle & Hc' & Hsend).
  exists (owner ++ more). split_and!; [done| |done].
  intros c a op i Hca Ho. destruct (Hsub c a Hca) as [Hold|[(op' & i' & Hfe) He]].
  - destruct (inv_heap _ _ Hi c a Hold) as (i' & op' & Ho' & _).
    rewrite (lookup_app_l_Some _ _ _ _ Ho') in Ho. injection Ho as Ho.
    apply waitKey_inj in Ho as (_ & _ & ->). pose proof (Hb c a op' i Hold Ho'). lia.
  - destruct (Hsend He) as [Hn Hbd]. rewrite Hn; simpl; rewrite Hbd. pose proof (inv_fetcher _ _ Hi) as Hfo.
    unfold fetcherOk, current in Hfo, Hc. rewrite Hfe in Hfo, Hc. destruct Hfo as [_ Ho'].
    rewrite (lookup_app_l_Some _ _ _ _ Ho') in Ho. injection Ho as Ho.
    apply waitKey_inj in Ho as (_ & _ & ->). lia.
Qed.

Lemma sysRun_flow es : ∀ s last s',
  flowInv s last → inOrder last es → sysRun s es = Some s' → ∃ last', flowInv s' last'.
Proof.
  induction es as [|e es IH]; intros s last s' Hi Ho H; cbn [sysRun] in H.
  - injection H as <-; eauto.
  - apply bind_Some in H as (s1 & H1 & H).
    assert (flowInv s1 (default last (fetched e))) as Hi1.
    { destruct e as [ro|co|h1|h1|h1|h1|h1|msg| | |]; cbn [sysStep] in H1;
        try (eapply fetchApply_flow; [done|done|]; simpl in Ho |- *; by repeat case_match; try apply Ho).
      1: apply bind_Some in H1 as (rf' & _ & [= <-]).
      2: injection H1 as <-.
      all: destruct Hi as (owner & Hi & Hb & Hc).
      1: { apply (flowInv_keep s _ owner []); try done. rewrite app_nil_r. by destruct Hi. }
      1: { apply (flowInv_keep s _ owner []); try done. rewrite app_nil_r.
           by destruct (sysStep_call _ _ co Hi) as (? & [= <-] & ?). }
      all: destruct (dealRequest_inv _ _ _ _ _ Hi H1) as (Hf & more & Hi' & Hsub).
      all: exact (flowInv_keep _ _ _ _ _ Hi Hb Hc Hf Hi' Hsub). }
    eapply IH; [done| |done]. simpl in Ho. destruct (fetched e); simpl; tauto.
Qed.

(** C22: when Raft hands over every index once and in order, the send of [fetchApply] finds
    its channel empty: answering a request never stops the server, whether or not a handler
    is still waiting. *)
Theorem answer_never_blocks rf0 st0 es s op index c a :
  inOrder 0 es → sysRun (initSys rf0 st0) es = Some s → fetcher s = FSend op index c a →
  ∃ s', sysStep s EvSend = Some s' ∧ heap (chans s') !! c = Some (Some a).
Proof.
  intros Ho H Hf.
  assert (flowInv (initSys rf0 st0) 0) as Hi0 by (exists []; split_and!; [by split|done|done]).
  destruct (sysRun_flow _ _ _ _ Hi0 Ho H) as (last & owner & Hi & Hb & Hc).
  pose proof (inv_fetcher _ _ Hi) as Hfo. unfold fetcherOk, current, bound in *.
  rewrite Hf in Hfo, Hc, Hb. destruct Hfo as [_ Hown]. subst last.
  pose proof (lookup_lt_Some _ _ _ Hown) as Hlt. rewrite (inv_len _ _ Hi) in Hlt.
  destruct (lookup_lt_is_Some_2 _ _ Hlt) as [[a'|] Hca].
  - pose proof (Hb _ _ _ _ Hca Hown). lia.
  - cbn [sysStep]. unfold fetchApply, chanSend. rewrite Hf, Hca; simpl.
    eexists; split; [reflexivity|]; simpl. by apply list_lookup_insert_eq.
Qed.
End props.
