(* ===== verification/KVServer.v ===== *)
(** Model of [src/src/kvraft/server.go] and [common.go]: the key/value service on Raft.
    [Module KV] holds its data, its state machine (the locked region of [fetchApply]), its
    snapshots and its RPC handlers; the request path is [RequestServer.v]. *)
From S2P Require Import Prelude Labgob Persister Raft RaftNode RequestServer.
#[local] Open Scope Z_scope.

Module KV.

Definition OK : string := "OK".
Definition ErrNoKey : string := "ErrNoKey".
Definition ErrWrongLeader : string := "ErrWrongLeader".
Definition GET : string := "Get".
Definition PUT : string := "Put".
Definition APPEND : string := "Append".

Record PutAppendArgs := mkPutAppendArgs {
  pa_Key : string; pa_Value : string; pa_Op : string; pa_RequestId : Z; pa_UId : Z }.
Record PutAppendReply := mkPutAppendReply { par_Err : string }.
Record GetArgs := mkGetArgs { ga_Key : string; ga_RequestId : Z; ga_UId : Z }.
Record GetReply := mkGetReply { gr_Err : string; gr_Value : string }.

Record Op := mkOp {
  Key : string;
  Value : string;
  op_Op : string;
  RequestId : Z;
  UId : Z;
  op_Err : string;
}.

Record Answer := mkAnswer { Err : string; an_Value : string }.

(** The fields of [KVServer] that are replicated state. *)
Record KVState := mkKV {
  m : gmap string string;
  lastRequestId : gmap Z Z;
}.

(** A missing key of a Go map reads as the zero value. *)
Definition lastReq (kv : KVState) (uid : Z) : Z := default 0 (lastRequestId kv !! uid).
Definition valueOf (kv : KVState) (key : string) : string := default "" (m kv !! key).

(** *** RPC handlers, up to [DealRequest] *)
Definition Get (args : GetArgs) : Op :=
  mkOp (ga_Key args) "" GET (ga_RequestId args) (ga_UId args) "".

Definition PutAppend (kv : KVState) (args : PutAppendArgs) : Op + Answer :=
  if pa_RequestId args <=? lastReq kv (pa_UId args) then inr (mkAnswer OK "")
  else inl (mkOp (pa_Key args) (pa_Value args) (pa_Op args) (pa_RequestId args) (pa_UId args) "").

Inductive Request := RGet (args : GetArgs) | RPutAppend (args : PutAppendArgs).

Definition handle (kv : KVState) (req : Request) : Op + Answer :=
  match req with RGet args => inl (Get args) | RPutAppend args => PutAppend kv args end.

(** What the handlers put into the reply when [DealRequest] ends with [answer], [None]
    standing for a server that is not the leader and for the timeout. *)
Definition getReply (answer : option Answer) : GetReply :=
  match answer with
  | Some a => mkGetReply (Err a) (an_Value a)
  | None => mkGetReply ErrWrongLeader ""
  end.
Definition putAppendReply (answer : option Answer) : PutAppendReply :=
  mkPutAppendReply (from_option Err ErrWrongLeader answer).

(** *** The locked region of [fetchApply] *)
Definition applyCommand (kv : KVState) (op : Op) : KVState * Answer :=
  let '(m', answer) :=
    if (RequestId op <=? lastReq kv (UId op)) && negb (op_Op op =? GET)%string then
      (m kv, mkAnswer OK "")
    else if negb (op_Op op =? GET)%string then
      (if (op_Op op =? PUT)%string then <[Key op := Value op]> (m kv)
       else if (op_Op op =? APPEND)%string
            then <[Key op := valueOf kv (Key op) +:+ Value op]> (m kv)
            else m kv,
       mkAnswer OK "")
    else match m kv !! Key op with
         | Some value => (m kv, mkAnswer OK value)
         | None => (m kv, mkAnswer ErrNoKey "")
         end in
  let last' := if lastReq kv (UId op) <? RequestId op
               then <[UId op := RequestId op]> (lastRequestId kv) else lastRequestId kv in
  (mkKV m' last', answer).

(** *** Snapshots *)
Section snapshots.
Context `{!Gob Z, !Gob (gmap Z Z), !Gob (gmap string string), !Gob (list (Log Op))}.

Definition createSnapshot (kv : KVState) : list byte :=
  gob_enc (lastRequestId kv) ++ gob_enc (m kv).

Definition readSnapshot (kv : KVState) (data : list byte) : KVState :=
  match ('(last, d) ← gob_dec (A := gmap Z Z) data; '(m, _) ← gob_dec (A := gmap string string) d;
         Some (last, m)) with
  | None => kv
  | Some (last, m) => mkKV m last
  end.

(** The end of [fetchApply] for a command, and its branch for a snapshot *)
Definition afterCommand (maxraftstate : Z) (rf : Raft Op) (kv : KVState) (index : Z) :
    option (Raft Op) :=
  if negb (maxraftstate =? -1) && (RaftStateSize (persister rf) >=? maxraftstate)
  then Snapshot rf index (createSnapshot kv) else Some rf.

Definition installSnapshot (rf : Raft Op) (kv : KVState) (msg : ApplyMsg Op) :
    option (Raft Op * KVState) :=
  '(rf', ok) ← CondInstallSnapshot rf (SnapshotTerm msg) (SnapshotIndex msg) (am_Snapshot msg);
  Some (rf', if ok : bool then readSnapshot kv (am_Snapshot msg) else kv).

Definition kvService (maxraftstate : Z) : Service KVState Request Op Answer := {|
  svc_UId := UId;
  svc_RequestId := RequestId;
  svc_handle := handle;
  svc_apply := λ kv op, Some (applyCommand kv op);
  svc_after := afterCommand maxraftstate;
  svc_install := installSnapshot;
|}.

Definition StartKVServer (servers : nat) (me : Z) (ps : Persister) :
    option (Sys KVState Request Op Answer) :=
  rf ← Make servers me ps;
  Some (initSys rf (readSnapshot (mkKV ∅ ∅) (ReadSnapshot ps))).
End snapshots.

(** [Kill] *)
Definition Kill (s : Sys KVState Request Op Answer) : Sys KVState Request Op Answer :=
  with_rf (Raft.Kill (rf s)) s.

End KV.
