(* ===== verification/KVModel.v ===== *)
(** Model of [src/src/models/kv.go]: the sequential specification of the key/value service
    that the tests give to the linearizability checker.  One key has one string. *)
From S2P Require Import Prelude.
From stdpp Require Import sorting.
#[local] Open Scope Z_scope.

Module KvModel.

Record KvInput := mkIn { in_Op : Z; in_Key : string; in_Value : string }.
Record KvOutput := mkOut { out_Value : string }.
Definition Operation : Type := KvInput * KvOutput.

Definition Init : string := "".

Definition Step (state : string) (inp : KvInput) (out : KvOutput) : bool * string :=
  if in_Op inp =? 0 then ((out_Value out =? state)%string, state)
  else if in_Op inp =? 1 then (true, in_Value inp)
  else (true, state +:+ in_Value inp).

(** [m[key] = append(m[key], v)] for every operation of the history *)
Definition groupByKey (history : list Operation) : gmap string (list Operation) :=
  foldl (λ mp v, <[in_Key v.1 := default [] (mp !! in_Key v.1) ++ [v]]> mp) ∅ history.

(** The keys in the order of [sort.Strings], which is byte order *)
Definition sortedKeys (mp : gmap string (list Operation)) : list string :=
  merge_sort String.le (map_to_list mp).*1.

Definition Partition (history : list Operation) : list (list Operation) :=
  let mp := groupByKey history in
  map (λ k, default [] (mp !! k)) (sortedKeys mp).

(** A sequential history is legal when every step is. *)
Fixpoint legal (state : string) (ops : list Operation) : bool :=
  match ops with
  | [] => true
  | (inp, out) :: ops => let '(ok, state') := Step state inp out in ok && legal state' ops
  end.
End KvModel.
