(* ===== verification/KVProps.v ===== *)
(** The key/value service is the plain one: duplicates of a request have no second effect,
    answers are those of a sequential store, also in the sense of [models/kv.go], and a
    restart from a snapshot is the replay of the log. *)
From S2P Require Import Prelude Labgob Persister Raft RaftLog RaftNode RaftProps RaftService.
From S2P Require Import RequestServer RequestProps KVServer KVModel.
From stdpp Require Import sorting.
#[local] Open Scope Z_scope.
Import KV.

(** ** The abstract service: a map, without clients or request numbers *)
Definition exec (mp : gmap string string) (op : Op) : gmap string string * Answer :=
  if (op_Op op =? GET)%string then
    (mp, match mp !! Key op with Some v => mkAnswer OK v | None => mkAnswer ErrNoKey "" end)
  else (if (op_Op op =? PUT)%string then <[Key op := Value op]> mp
        else if (op_Op op =? APPEND)%string
             then <[Key op := default "" (mp !! Key op) +:+ Value op]> mp else mp,
        mkAnswer OK "").

Definition isWrite (op : Op) : bool := negb (op_Op op =? GET)%string.
Definition reqOf (op : Op) : Z * Z := (UId op, RequestId op).

(** The sequential service over a log: a write whose request was seen before is only
    acknowledged. *)
Fixpoint runSpec (seen : list (Z * Z)) (mp : gmap string string) (ops : list Op) :
    gmap string string * list Answer :=
  match ops with
  | [] => (mp, [])
  | op :: ops =>
      let '(mp1, a) := if isWrite op && bool_decide (reqOf op ∈ seen)
                       then (mp, mkAnswer OK "") else exec mp op in
      let '(mp2, answers) := runSpec (reqOf op :: seen) mp1 ops in (mp2, a :: answers)
  end.

(** [fetchApply] over a log *)
Fixpoint replay (kv : KVState) (ops : list Op) : KVState * list Answer :=
  match ops with
  | [] => (kv, [])
  | op :: ops =>
      let '(kv1, a) := applyCommand kv op in
      let '(kv2, answers) := replay kv1 ops in (kv2, a :: answers)
  end.

(** What the clerks ensure: request numbers are positive, and a request that enters the log
    for the first time has a larger number than the client's earlier ones.  A request may
    enter the log any number of times, also after later ones. *)
Fixpoint clientOrder (seen : list (Z * Z)) (ops : list Op) : Prop :=
  match ops with
  | [] => True
  | op :: ops =>
      0 < RequestId op ∧
      (reqOf op ∈ seen ∨ ∀ r, (UId op, r) ∈ seen → r < RequestId op) ∧
      clientOrder (reqOf op :: seen) ops
  end.

(** [lastRequestId] is the largest number seen. *)
Definition remembers (kv : KVState) (seen : list (Z * Z)) : Prop :=
  ∀ uid, (∀ r, (uid, r) ∈ seen → r ≤ lastReq kv uid) ∧
         (lastReq kv uid = 0 ∨ (uid, lastReq kv uid) ∈ seen).

Lemma applyCommand_last kv op uid :
  lastReq (applyCommand kv op).1 uid =
  if decide (uid = UId op) then Z.max (lastReq kv uid) (RequestId op) else lastReq kv uid.
Proof.
  unfold applyCommand. set (p := if _ && _ then _ else _). destruct p as [mp a]; simpl.
  unfold lastReq at 1; simpl. destruct (lastReq kv (UId op) <? RequestId op) eqn:H; bool_prop.
  - rewrite lookup_insert. repeat case_decide; try congruence; simpl; subst; [lia|done].
  - fold (lastReq kv uid). case_decide; subst; lia.
Qed.

Lemma applyCommand_remembers kv seen op :
  remembers kv seen → 0 < RequestId op →
  remembers (applyCommand kv op).1 (reqOf op :: seen).
Proof.
  intros Hr Hp uid. destruct (Hr uid) as [Hmax Hin]. rewrite applyCommand_last.
  unfold reqOf. case_decide as Hu; subst.
  - split.
    + intros r [Heq|H]%elem_of_cons; simplify_eq; [lia|]. specialize (Hmax _ H); lia.
    + right. destruct (Z.max_spec (lastReq kv (UId op)) (RequestId op)) as [[_ ->]|[Hle ->]];
        [by left|right]. destruct Hin; [lia|done].
  - split.
    + intros r [Heq|H]%elem_of_cons; simplify_eq; auto.
    + destruct Hin; [by left|by right; right].
Qed.

(** In client order, a number is not above the last one exactly for requests seen before. *)
Lemma seen_iff kv seen op :
  remembers kv seen → 0 < RequestId op →
  (reqOf op ∈ seen ∨ ∀ r, (UId op, r) ∈ seen → r < RequestId op) →
  (RequestId op <=? lastReq kv (UId op)) = bool_decide (reqOf op ∈ seen).
Proof.
  intros Hr Hp Ho. destruct (Hr (UId op)) as [Hmax Hin].
  case_bool_decide as Hs; bool_prop.
  - apply Z.leb_le. by apply Hmax.
  - apply Z.leb_gt. destruct Ho as [?|Ho]; [done|]. destruct Hin as [->|Hin]; auto.
Qed.

Lemma applyCommand_spec kv seen op :
  remembers kv seen → 0 < RequestId op →
  (reqOf op ∈ seen ∨ ∀ r, (UId op, r) ∈ seen → r < RequestId op) →
  (m (applyCommand kv op).1, (applyCommand kv op).2) =
  if isWrite op && bool_decide (reqOf op ∈ seen) then (m kv, mkAnswer OK "") else exec (m kv) op.
Proof.
  intros Hr Hp Ho. unfold applyCommand. rewrite (seen_iff _ _ _ Hr Hp Ho), andb_comm.
  unfold isWrite, exec, valueOf. destruct (op_Op op =? GET)%string; simpl.
  - by destruct (m kv !! Key op).
  - by destruct (bool_decide _).
Qed.

Lemma replay_spec ops : ∀ kv seen,
  remembers kv seen → clientOrder seen ops →
  (m (replay kv ops).1, (replay kv ops).2) = runSpec seen (m kv) ops.
Proof.
  induction ops as [|op ops IH]; intros kv seen Hr Ho; [done|]. destruct Ho as (Hp & Hs & Ho).
  simpl. pose proof (applyCommand_spec _ _ _ Hr Hp Hs) as Heq.
  pose proof (applyCommand_remembers _ _ _ Hr Hp) as Hr1.
  destruct (applyCommand kv op) as [kv1 a]; simpl in *. rewrite <-Heq.
  specialize (IH kv1 _ Hr1 Ho). destruct (replay kv1 ops) as [kv2 answers]; simpl in *.
  by rewrite <-IH.
Qed.

Lemma remembers_empty mp : remembers (mkKV mp ∅) [].
Proof. intros uid; split; [|by left]. by intros r ?%not_elem_of_nil. Qed.

(** C13: exactly once.  When the clerks number their requests in order, a server that
    applies a log with any repetitions of requests ends with the contents, and gives the
    answers, of a plain map on which every write is executed at its first occurrence
    only. *)
Theorem exactly_once mp ops :
  clientOrder [] ops →
  let '(kv, answers) := replay (mkKV mp ∅) ops in (m kv, answers) = runSpec [] mp ops.
Proof.
  intros Ho. pose proof (replay_spec ops _ _ (remembers_empty mp) Ho) as H.
  by destruct (replay _ _).
Qed.

(** ** The specification the tests use *)
Import KvModel.

Definition opCode (op : Op) : Z :=
  if (op_Op op =? GET)%string then 0 else if (op_Op op =? PUT)%string then 1 else 2.
Definition known (op : Op) : Prop := op_Op op = GET ∨ op_Op op = PUT ∨ op_Op op = APPEND.

(** The operations that take effect in a log, with their outputs *)
Fixpoint history (seen : list (Z * Z)) (ops : list Op) (answers : list Answer) : list Operation :=
  match ops, answers with
  | op :: ops, a :: answers =>
      (if isWrite op && bool_decide (reqOf op ∈ seen) then []
       else [(mkIn (opCode op) (Key op) (Value op), mkOut (an_Value a))])
      ++ history (reqOf op :: seen) ops answers
  | _, _ => []
  end.

Definition ofKey (k : string) (h : list Operation) : list Operation :=
  List.filter (λ v, (in_Key v.1 =? k)%string) h.

Lemma ofKey_snoc k h v :
  ofKey k (h ++ [v]) = ofKey k h ++ (if (in_Key v.1 =? k)%string then [v] else []).
Proof. apply List.filter_app. Qed.

Lemma groupByKey_ofKey h k : default [] (groupByKey h !! k) = ofKey k h.
Proof.
  induction h as [|v h IH] using rev_ind; [done|].
  rewrite ofKey_snoc, <-IH. unfold groupByKey. rewrite foldl_app; simpl.
  destruct (String.eqb_spec (in_Key v.1) k) as [<-|Hne].
  - by rewrite lookup_insert_eq.
  - by rewrite lookup_insert_ne, app_nil_r.
Qed.

(** One effective operation is a legal step of its key and leaves the other keys alone. *)
Lemma exec_step mp op k :
  known op →
  let '(mp', a) := exec mp op in
  default "" (mp' !! k) =
    if (Key op =? k)%string
    then (Step (default "" (mp !! k)) (mkIn (opCode op) (Key op) (Value op)) (mkOut (an_Value a))).2
    else default "" (mp !! k).
Proof.
  intros Hk. unfold exec, Step, opCode.
  destruct Hk as [Ho|[Ho|Ho]]; rewrite Ho; simpl;
    destruct (String.eqb_spec (Key op) k) as [<-|Hne]; simpl;
    rewrite ?lookup_insert_eq, ?lookup_insert_ne by done; done.
Qed.

Lemma exec_legal mp op :
  known op →
  (Step (default "" (mp !! Key op)) (mkIn (opCode op) (Key op) (Value op))
     (mkOut (an_Value (exec mp op).2))).1 = true.
Proof.
  intros Hk. unfold exec, Step, opCode.
  destruct Hk as [Ho|[Ho|Ho]]; rewrite Ho; simpl; [|done..].
  destruct (mp !! Key op); simpl; rewrite ?String.eqb_refl; done.
Qed.

Lemma runSpec_legal k ops : ∀ seen mp,
  Forall known ops →
  legal (default "" (mp !! k)) (ofKey k (history seen ops (runSpec seen mp ops).2)) = true.
Proof.
  induction ops as [|op ops IH]; intros seen mp Hk; [done|].
  apply Forall_cons in Hk as [Hop Hk]. simpl.
  pose proof (exec_step mp op k Hop) as Hstep. pose proof (exec_legal mp op Hop) as Hleg.
  destruct (isWrite op && bool_decide (reqOf op ∈ seen)) eqn:Hw.
  - specialize (IH (reqOf op :: seen) mp Hk).
    destruct (runSpec _ mp ops) as [mp2 answers]; simpl in *. done.
  - destruct (exec mp op) as [mp1 a]. specialize (IH (reqOf op :: seen) mp1 Hk).
    destruct (runSpec _ mp1 ops) as [mp2 answers]; cbn [snd fst] in *.
    unfold ofKey in *. cbn [List.filter app fst in_Key].
    destruct (String.eqb_spec (Key op) k) as [<-|Hne]; [|by rewrite Hstep in IH].
    cbn [legal]. destruct (Step _ _ _) as [ok st']; simpl in *. subst ok st'. done.
Qed.

(** The effective operations of any log in client order, with the values the server
    answered, are accepted key by key by the sequential model the test suite hands to the
    linearizability checker. *)
Theorem log_is_linearization ops :
  clientOrder [] ops → Forall known ops →
  Forall (λ part, legal Init part = true)
    (Partition (history [] ops (replay (mkKV ∅ ∅) ops).2)).
Proof.
  intros Ho Hk. pose proof (replay_spec ops _ _ (remembers_empty ∅) Ho) as H.
  unfold Partition. apply Forall_map, Forall_forall; intros k _; simpl.
  rewrite groupByKey_ofKey.
  apply (f_equal snd) in H; simpl in H. rewrite H.
  exact (runSpec_legal k ops [] ∅ Hk).
Qed.

(** ** The server's state is the replay of what it fetched *)
Section server.
Context `{!Gob Z, !Gob (gmap Z Z), !Gob (gmap string string), !Gob (list (Log Op))}.
Context (maxraftstate : Z).
#[local] Instance service : Service KVState Request Op Answer := kvService maxraftstate.

Definition noInstall (e : Event Request Op) : Prop :=
  match e with EvFetch msg => CommandValid msg = true | _ => True end.

Lemma replay_snoc kv ops op :
  replay kv (ops ++ [op]) =
  ((applyCommand (replay kv ops).1 op).1, (replay kv ops).2 ++ [(applyCommand (replay kv ops).1 op).2]).
Proof.
  revert kv; induction ops as [|o ops IH]; intros kv; simpl.
  - by destruct (applyCommand kv op).
  - destruct (applyCommand kv o) as [kv1 a]. rewrite IH. by destruct (replay kv1 ops).
Qed.

Definition appliedOps (s : Sys KVState Request Op Answer) : list Op := (applied s).*1.*2.
Definition appliedAnswers (s : Sys KVState Request Op Answer) : list Answer := (applied s).*2.

Lemma sysStep_replay kv0 s e s' :
  replay kv0 (appliedOps s) = (st s, appliedAnswers s) → noInstall e →
  sysStep s e = Some s' → replay kv0 (appliedOps s') = (st s', appliedAnswers s').
Proof.
  intros Hr Hn H. destruct e as [ro|co|h1|h1|h1|h1|h1|msg| | |]; cbn [sysStep] in H.
  1: by apply bind_Some in H as (rf' & _ & [= <-]).
  1: by injection H as <-.
  1-5: unfold dealRequest in H; apply bind_Some in H as (hd & _ & H);
    destruct hd; try done; go_inv; try (by destruct (getWaitChan _ _ _ _); simplify_eq);
    by repeat case_match; simplify_eq.
  all: unfold fetchApply in H; destruct (fetcher s) eqn:Hf; try done.
  - simpl in Hn. rewrite Hn in H. apply bind_Some in H as (op & _ & H).
    apply bind_Some in H as ([kv' a] & Ha & [= <-]). injection Ha as Ha.
    unfold appliedOps, appliedAnswers in *; simpl. rewrite !fmap_app; simpl.
    rewrite replay_snoc, Hr; simpl. by rewrite Ha.
  - case_if_in H; [|by simplify_eq]. destruct (getWaitChan _ _ _ _); by simplify_eq.
  - by apply bind_Some in H as (w & _ & [= <-]).
  - by apply bind_Some in H as (w & _ & [= <-]).
Qed.

Lemma sysRun_replay es : ∀ kv0 s s',
  replay kv0 (appliedOps s) = (st s, appliedAnswers s) → Forall noInstall es →
  sysRun s es = Some s' → replay kv0 (appliedOps s') = (st s', appliedAnswers s').
Proof.
  induction es as [|e es IH]; intros kv0 s s' Hr Hn H; cbn [sysRun] in H; [by injection H as <-|].
  apply Forall_cons in Hn as [Hn1 Hn]. apply bind_Some in H as (s1 & H1 & H).
  eapply IH; [|done|done]. by eapply sysStep_replay.
Qed.

(** The table holds request numbers of what was applied. *)
Lemma replay_last mp ops uid :
  lastReq (replay (mkKV mp ∅) ops).1 uid = 0 ∨
  ∃ op, op ∈ ops ∧ UId op = uid ∧ RequestId op = lastReq (replay (mkKV mp ∅) ops).1 uid.
Proof.
  induction ops as [|op ops IH] using rev_ind; [by left|].
  rewrite replay_snoc. cbn [fst]. rewrite applyCommand_last. case_decide as Hu.
  - destruct (Z.max_spec (lastReq (replay (mkKV mp ∅) ops).1 uid) (RequestId op)) as [[_ ->]|[_ ->]].
    + right. exists op. split_and!; [set_solver|done..].
    + destruct IH as [?|(o & ? & ? & ?)]; [by left|right]. exists o. split_and!; [set_solver|done..].
  - destruct IH as [?|(o & ? & ? & ?)]; [by left|right]. exists o. split_and!; [set_solver|done..].
Qed.

(** A reply without Raft acknowledges a write of which the server has applied the request, or a
    later one of the same client. *)
Definition acknowledged (ops : list Op) (req : Request) (a : Answer) : Prop :=
  ∃ args, req = RPutAppend args ∧ a = mkAnswer OK "" ∧
    (0 < pa_RequestId args →
     ∃ op, op ∈ ops ∧ UId op = pa_UId args ∧ pa_RequestId args ≤ RequestId op).

Lemma handle_early mp ops req a :
  handle (replay (mkKV mp ∅) ops).1 req = inr a → acknowledged ops req a.
Proof.
  unfold handle. destruct req as [args|args]; [done|]. unfold PutAppend. intros H.
  case_if_in H; [|done]. injection H as <-. bool_prop. exists args. split_and!; [done..|]. intros Hpos.
  destruct (replay_last mp ops (pa_UId args)) as [H0|(op & Hin & Hu & Hq)]; [lia|].
  exists op. split_and!; [done..|lia].
Qed.

Lemma acknowledged_more ops ops' req a : ops ⊆ ops' → acknowledged ops req a → acknowledged ops' req a.
Proof.
  intros Hsub (args & -> & -> & H). exists args. split_and!; [done..|]. intros Hp.
  destruct (H Hp) as (op & ? & ? & ?). exists op. split_and!; [by apply Hsub|done..].
Qed.

Definition earlyOk (s : Sys KVState Request Op Answer) : Prop :=
  ∀ h req a, handlers s !! h = Some (HEarly req a) → acknowledged (appliedOps s) req a.

(** A step answers early only when a call comes in, and forgets nothing that was applied. *)
Lemma sysStep_early s e s' h req a :
  sysStep s e = Some s' → handlers s' !! h = Some (HEarly req a) →
  appliedOps s ⊆ appliedOps s' ∧
  (handlers s !! h = Some (HEarly req a) ∨ handle (st s) req = inr a).
Proof.
  intros H Hh. destruct e as [ro|co|h1|h1|h1|h1|h1|msg| | |]; cbn [sysStep] in H.
  1: by apply bind_Some in H as (rf' & _ & [= <-]); auto.
  1: { injection H as <-. split; [done|]. simpl in Hh.
       apply lookup_app_Some in Hh as [?|[_ Hh]]; [by left|right].
       apply list_lookup_singleton_Some in Hh as [_ Hh].
       destruct (handle (st s) co) eqn:Hx; [done|]. by injection Hh as -> ->. }
  1-5: unfold dealRequest in H; apply bind_Some in H as (hd & _ & H);
    destruct hd; try done; go_inv; try (destruct (getWaitChan _ _ _ _); simplify_eq);
    repeat case_match; simplify_eq; split; try done; left; simpl in Hh;
    by apply list_lookup_insert_Some in Hh as [(_ & ? & _)|[_ ?]].
  all: unfold fetchApply in H; destruct (fetcher s) eqn:Hf; try done.
  - case_if_in H.
    + apply bind_Some in H as (op & _ & H). apply bind_Some in H as ([kv' b] & _ & [= <-]).
      split; [|by left]. unfold appliedOps; simpl. rewrite !fmap_app. set_solver.
    + case_if_in H; [|by injection H as <-; auto].
      apply bind_Some in H as ([? ?] & _ & [= <-]). auto.
  - case_if_in H; [|by simplify_eq; auto]. destruct (getWaitChan _ _ _ _); by simplify_eq; auto.
  - by apply bind_Some in H as (w & _ & [= <-]); auto.
  - by apply bind_Some in H as (w & _ & [= <-]); auto.
Qed.

Lemma sysRun_early mp es : ∀ s s',
  replay (mkKV mp ∅) (appliedOps s) = (st s, appliedAnswers s) → Forall noInstall es →
  earlyOk s → sysRun s es = Some s' → earlyOk s'.
Proof.
  induction es as [|e es IH]; intros s s' Hr Hn He H; cbn [sysRun] in H; [by injection H as <-|].
  apply Forall_cons in Hn as [Hn1 Hn]. apply bind_Some in H as (s1 & H1 & H).
  eapply IH; [by eapply sysStep_replay|done| |done]. intros h req a Hh.
  destruct (sysStep_early _ _ _ _ _ _ H1 Hh) as [Hsub Hh']. eapply acknowledged_more; [exact Hsub|].
  destruct Hh' as [Hh'|Hx]; [by eapply He|]. apply (handle_early mp). by rewrite Hr.
Qed.

(** C14: the answers of a server that starts empty and is handed commands only (no snapshot to
    install), whatever the handlers, [fetchApply] and Raft do in between, when the clients number
    their requests in order: the server's map is the one of the sequential service; a handler
    that got its answer from [fetchApply] has the answer of the sequential service at the
    position of its operation in the log; a handler that acknowledged a write at once did so
    because that request of the client, or a later one, had been applied. *)
Theorem server_answers rf0 es s :
  sysRun (initSys rf0 (mkKV ∅ ∅)) es = Some s → Forall noInstall es →
  clientOrder [] (appliedOps s) →
  m (st s) = (runSpec [] ∅ (appliedOps s)).1 ∧
  (∀ h op index a, handlers s !! h = Some (HReply op index (Some a)) →
    ∃ n op', applied s !! n = Some (index, op', a) ∧ UId op' = UId op ∧
      RequestId op' = RequestId op ∧ (runSpec [] ∅ (appliedOps s)).2 !! n = Some a) ∧
  (∀ h req a, handlers s !! h = Some (HEarly req a) → acknowledged (appliedOps s) req a).
Proof.
  intros H Hn Ho.
  pose proof (sysRun_replay es (mkKV ∅ ∅) (initSys rf0 (mkKV ∅ ∅)) _ eq_refl Hn H) as Hr.
  pose proof (replay_spec _ _ _ (remembers_empty ∅) Ho) as Hs. rewrite Hr in Hs; simpl in Hs.
  destruct (sysRun_inv _ _ _ _ (initSys_inv _ _) H) as [owner [_ _ Hi _ _]].
  split_and!; [by rewrite <-Hs| |].
  - intros h op index a Hh. destruct (Hi h _ Hh) as (op' & Hin & Hu & Hq). rewrite <-Hs.
    apply list_elem_of_lookup in Hin as [n Hin]. exists n, op'. split_and!; try done; simpl.
    unfold appliedAnswers. by rewrite list_lookup_fmap, Hin.
  - by eapply (sysRun_early ∅ es (initSys rf0 (mkKV ∅ ∅))); [|exact Hn| |exact H].
Qed.

Lemma readSnapshot_createSnapshot kv kv' : readSnapshot kv (createSnapshot kv') = kv'.
Proof.
  unfold readSnapshot, createSnapshot. rewrite gob_dec_enc; simpl.
  rewrite gob_dec_enc_last; simpl. by destruct kv'.
Qed.

Lemma readSnapshot_nil kv : readSnapshot kv [] = kv.
Proof. unfold readSnapshot. by rewrite gob_dec_nil. Qed.

(** C23: restart from a snapshot is replay.  A server that snapshots after applying the
    command at [index] and crashes comes back with the state it had; Raft resumes after
    [index] with the entries it had, so applying the rest of the log gives what the server
    would have reached without the crash. *)
Theorem restart_is_replay rf kv index rf' :
  wf rf → lastIncludedIndex rf < index →
  afterCommand maxraftstate rf kv index = Some rf' → lastIncludedIndex rf' = index →
  ∃ s, StartKVServer (peers rf) (me rf) (persister rf') = Some s ∧
    st s = kv ∧ lastApplied (RequestServer.rf s) = index ∧
    (∀ j, index < j → entryAt (RequestServer.rf s) j = entryAt rf j) ∧
    ∀ ops, replay (st s) ops = replay kv ops.
Proof.
  intros Hwf Hi H Hidx. unfold afterCommand in H. case_if_in H; [|simplify_eq; lia].
  destruct (Snapshot_Some _ _ _ _ H Hi)
    as (l0 & Hl0 & Hlog & Hlii & Hlit & Hla & Hci & Hct & Hvf & Hpe & Hme & Hrs & Hsn).
  pose proof (go_index_Some_lt _ _ _ Hl0) as Hr.
  destruct (Make_recovers rf') as (rf'' & Hmk & Hrec).
  { eapply durable_saved; [by rewrite Hlog|reflexivity|done]. }
  unfold StartKVServer. rewrite <-Hpe, <-Hme, Hmk; simpl. eexists; split; [reflexivity|].
  rewrite Hsn; simpl. rewrite readSnapshot_createSnapshot. split_and!; [done| | |done].
  - rewrite (rec_applied _ _ Hrec). done.
  - intros j Hj. apply (trimmed_entryAt rf rf'' index); try done.
    + by rewrite (rec_lii _ _ Hrec).
    + apply (rec_wf _ _ Hrec).
    + by rewrite (rec_log _ _ Hrec), Hlog.
Qed.

(** A server that accepts the snapshot of another server takes over its state, and
    Raft's position with it; a snapshot that is not ahead of what the server has committed
    changes nothing. *)
Theorem install_takes_over rf kv other t i rf' kv' :
  installSnapshot rf kv (mkApplyMsg false None 0 true (createSnapshot other) t i) = Some (rf', kv') →
  if i <=? commitIndex rf then rf' = rf ∧ kv' = kv
  else kv' = other ∧ lastApplied rf' = i ∧ commitIndex rf' = i ∧ lastIncludedIndex rf' = i ∧
       ReadSnapshot (persister rf') = createSnapshot other ∧ termAt rf' i = Some t ∧
       (∀ j, i < j → entryAt rf' j = entryAt rf j).
Proof.
  unfold installSnapshot. intros H; simpl in H.
  apply bind_Some in H as ([rf1 ok] & H & [= <- <-]).
  unfold CondInstallSnapshot in H. destruct (i <=? commitIndex rf) eqn:Hc; [by simplify_eq|].
  apply bind_Some in H as (lg & Hlg & H). apply bind_Some in H as (lg' & Hst & [= <- <-]).
  rewrite readSnapshot_createSnapshot; simpl. rewrite ReadSnapshot_SaveBoth.
  apply go_store_inv in Hst as [Hl ->].
  split_and!; try done.
  - unfold termAt, realIndex; simpl. rewrite Z.sub_diag, go_index_insert_eq by lia. done.
  - intros j Hj. destruct (getLastLogIndex rf <=? i) eqn:Hle; bool_prop.
    + rewrite go_make_Some in Hlg by lia. injection Hlg as <-. unfold entryAt, realIndex; simpl.
      unfold getLastLogIndex, logicIndex in Hle.
      etransitivity; [|symmetry]; apply go_index_None; [unfold len; simpl; lia|lia].
    + apply bind_Some in Hlg as (nl & Hnl & Hlg). apply bind_Some in Hlg as (src & Hsrc & [= <-]).
      apply slice_from_inv in Hsrc as [Hr ->]. unfold getLastLogIndex, logicIndex, realIndex in *.
      rewrite go_make_Some in Hnl by lia. injection Hnl as <-.
      rewrite go_copy_same_length in *
        by (rewrite length_replicate, length_drop; unfold len in *; lia).
      apply (trimmed_entryAt rf _ i); simpl; try done; [unfold realIndex; lia| |].
      * unfold len. rewrite length_insert. unfold len in Hl. lia.
      * unfold realIndex. destruct (log rf !! Z.to_nat (i - lastIncludedIndex rf)) as [x|] eqn:Hx.
        -- rewrite (drop_S _ _ _ Hx); simpl. f_equal. lia.
        -- apply lookup_ge_None in Hx. unfold len in *. lia.
Qed.
End server.
