(* ===== verification/ShardCtrler.v ===== *)
(** Model of [src/src/shardctrler/common.go] and [server.go]: configurations, the rebalancing
    of shards, the four operations and the service on Raft.

    Go ranges over a map in an order it does not fix.  Where a loop's result could depend on
    it, the model takes the order as an argument: [ord k m] is the order of the [k]-th range
    over the map [m], any list of its entries ([iteration]).  Loops that assign distinct
    keys are map unions. *)
From S2P Require Import Prelude Labgob Persister Raft RaftNode RequestServer.
#[local] Open Scope Z_scope.

Module SC.

Definition NShards : nat := 10.

Record Config := mkConfig {
  Num : Z;
  Shards : list Z;                  (* [NShards]int *)
  Groups : gmap Z (list string);
}.

(** [Config{}] *)
Definition zero_Config : Config := mkConfig 0 (replicate NShards 0) ∅.

Definition OK : string := "OK".
Definition Join : string := "Join".
Definition Leave : string := "Leave".
Definition Move : string := "Move".
Definition Query : string := "Query".

Record JoinArgs := mkJoinArgs { ja_Servers : gmap Z (list string); ja_RequestId : Z; ja_UId : Z }.
Record LeaveArgs := mkLeaveArgs { la_GIDs : list Z; la_RequestId : Z; la_UId : Z }.
Record MoveArgs := mkMoveArgs { ma_Shard : Z; ma_GID : Z; ma_RequestId : Z; ma_UId : Z }.
Record QueryArgs := mkQueryArgs { qa_Num : Z; qa_RequestId : Z; qa_UId : Z }.

Record Op := mkOp {
  op_Op : string;
  Servers : gmap Z (list string);
  GIDs : list Z;
  Shard : Z;
  GID : Z;
  op_Num : Z;
  RequestId : Z;
  UId : Z;
}.

Record Answer := mkAnswer { WrongLeader : bool; Err : string; an_Config : Config }.
Record RequestContext := mkContext { requestId : Z; answer : Answer }.

(** The replicated fields of [ShardCtrler]. *)
Record ShardCtrler := mkSC {
  configs : list Config;
  lastRequestContext : gmap Z RequestContext;
}.

(** ** Rebalancing *)

Abbreviation shardMap := (gmap Z (list Z)).

(** An order of a range over a map. *)
Definition iteration (ord : nat → shardMap → list (Z * list Z)) : Prop :=
  ∀ k m, ord k m ≡ₚ map_to_list m.

Definition getNext (l : list (Z * list Z)) : Z :=
  foldl (λ ans e,
    let gid := e.1 in
    if gid =? 0 then ans
    else if ans =? -1 then gid else if gid <? ans then gid else ans) (-1) l.

(** The state of the loops is ([ma], [ans]) and ([mi], [ans]). *)
Definition getGidWithMaxShards (l : list (Z * list Z)) : Z :=
  (foldl (λ s e,
    let '(ma, ans) := s in let '(gid, list) := e in
    if gid =? 0 then (ma, ans)
    else if len list >? ma then (len list, gid)
    else if (len list =? ma) && (gid <? ans) then (ma, gid) else (ma, ans)) (-1, 0) l).2.

Definition getGidWithMinShards (l : list (Z * list Z)) : Z :=
  (foldl (λ s e,
    let '(mi, ans) := s in let '(gid, list) := e in
    if gid =? 0 then (mi, ans)
    else if mi =? -1 then (len list, gid)
    else if len list <? mi then (len list, gid)
    else if (len list =? mi) && (gid <? ans) then (mi, gid) else (mi, ans)) (-1, 0) l).2.

Definition getShardsMap (shards : list Z) : shardMap :=
  (foldl (λ s gid,
    let '(shard, m) := s in
    (shard + 1, <[gid := default [] (m !! gid) ++ [shard]]> m)) (0, ∅) shards).2.

(** [for gid := range newGroups { if _, ok := m[gid]; !ok { m[gid] = make([]int, 0) } }] *)
Definition addGroups (m : shardMap) (newGroups : gmap Z (list string)) : shardMap :=
  m ∪ ((λ _, []) <$> newGroups).

(** [for _, shard := range list { shards[shard] = next }] *)
Fixpoint assignAll (shards list : list Z) (next : Z) : option (Datatypes.list Z) :=
  match list with
  | [] => Some shards
  | shard :: list => shards ← shards.[shard <~ next]; assignAll shards list next
  end.

(** The loop of [balance]; [k] counts its iterations and [fuel] bounds them. *)
Fixpoint balanceLoop (ord : nat → shardMap → list (Z * list Z)) (fuel k : nat)
    (shards : list Z) (m : shardMap) : option (list Z) :=
  match fuel with
  | O => None
  | S fuel =>
      let min := getGidWithMinShards (ord (2 * k)%nat m) in
      let max := getGidWithMaxShards (ord (2 * k + 1)%nat m) in
      let mmin := default [] (m !! min) in
      let mmax := default [] (m !! max) in
      if (len mmin =? len mmax - 1) || (len mmax <=? 1) || (min =? max) then Some shards
      else
        shard ← mmax.[0];
        let m := <[min := mmin ++ [shard]]> m in
        rest ← slice_from (default [] (m !! max)) 1;
        let m := <[max := rest]> m in
        shards ← shards.[shard <~ min];
        balanceLoop ord fuel (S k) shards m
  end.

Definition balanceFuel : nat := 100.

Definition balance (ord : nat → shardMap → list (Z * list Z)) (shards : list Z)
    (newGroups : gmap Z (list string)) : option (list Z) :=
  let m := addGroups (getShardsMap shards) newGroups in
  if Z.of_nat (size m) =? 1 then Some shards else
  let next := getNext (ord 0%nat m) in
  '(shards, m) ← match m !! 0 with
                 | Some list =>
                     let tmp := default [] (m !! next) in
                     shards ← assignAll shards list next;
                     Some (shards, <[0 := []]> (<[next := tmp ++ list]> m))
                 | None => Some (shards, m)
                 end;
  balanceLoop ord balanceFuel 1 shards m.

(** ** Configurations *)
Definition getLastConfig (sc : ShardCtrler) : option Config :=
  (configs sc).[len (configs sc) - 1].

(** The copy that [copyLastConfig] and [copyConfig] make *)
Definition cloneConfig (source : Config) : option Config :=
  shards ← go_for NShards (λ i shards, v ← (Shards source).[i]; shards.[i <~ v]) (replicate NShards 0);
  Some (mkConfig (Num source) shards
          ((λ value, go_copy (replicate (length value) ""%string) value) <$> Groups source)).

Definition copyLastConfig (sc : ShardCtrler) : option Config :=
  lastConfig ← getLastConfig sc; cloneConfig lastConfig.

Definition copyConfig (sc : ShardCtrler) (index : Z) : option Config :=
  source ← (configs sc).[index]; cloneConfig source.

Definition set_configs (cs : list Config) (sc : ShardCtrler) : ShardCtrler :=
  mkSC cs (lastRequestContext sc).

Section operations.
Context (ord : nat → shardMap → list (Z * list Z)).

Definition dealJoin (sc : ShardCtrler) (servers : gmap Z (list string)) : option ShardCtrler :=
  lastConfig ← getLastConfig sc;
  config ← copyLastConfig sc;
  shards ← balance ord (Shards config) servers;
  Some (set_configs (configs sc ++
          [mkConfig (Num lastConfig + 1) shards (servers ∪ Groups config)]) sc).

Definition dealLeave (sc : ShardCtrler) (gids : list Z) : option ShardCtrler :=
  lastConfig ← getLastConfig sc;
  config ← copyLastConfig sc;
  let groups := foldl (λ g gid, delete gid g) (Groups config) gids in
  let shards := map (λ gid, if bool_decide (gid ∈ gids) then 0 else gid) (Shards config) in
  shards ← balance ord shards groups;
  Some (set_configs (configs sc ++ [mkConfig (Num lastConfig + 1) shards groups]) sc).

Definition dealMove (sc : ShardCtrler) (shard gid : Z) : option ShardCtrler :=
  lastConfig ← getLastConfig sc;
  config ← copyLastConfig sc;
  shards ← (Shards config).[shard <~ gid];
  Some (set_configs (configs sc ++ [mkConfig (Num lastConfig + 1) shards (Groups config)]) sc).

Definition dealQuery (sc : ShardCtrler) (num : Z) : option Config :=
  if (num =? -1) || (num >=? len (configs sc)) then copyLastConfig sc else copyConfig sc num.

(** ** The service *)

(** [sc.lastRequestContext[uid]]: present with a request number not below [reqId] *)
Definition answered (sc : ShardCtrler) (uid reqId : Z) : bool :=
  match lastRequestContext sc !! uid with
  | Some c => requestId c >=? reqId
  | None => false
  end.

(** The locked region of [fetchApply] *)
Definition applyCommand (sc : ShardCtrler) (op : Op) : option (ShardCtrler * Answer) :=
  '(sc', a) ←
    (if answered sc (UId op) (RequestId op) && negb (op_Op op =? Query)%string then
       Some (sc, mkAnswer false OK zero_Config)
     else if negb (op_Op op =? Query)%string then
       if (op_Op op =? Join)%string then
         sc' ← dealJoin sc (Servers op); Some (sc', mkAnswer false OK zero_Config)
       else if (op_Op op =? Leave)%string then
         sc' ← dealLeave sc (GIDs op); Some (sc', mkAnswer false OK zero_Config)
       else if (op_Op op =? Move)%string then
         sc' ← dealMove sc (Shard op) (GID op); Some (sc', mkAnswer false OK zero_Config)
       else Some (sc, mkAnswer false "" zero_Config)
     else config ← dealQuery sc (op_Num op); Some (sc, mkAnswer false OK config));
  let last := from_option requestId 0 (lastRequestContext sc' !! UId op) in
  Some (if last <? RequestId op
        then mkSC (configs sc') (<[UId op := mkContext (RequestId op) a]> (lastRequestContext sc'))
        else sc', a).

(** The RPC handlers up to [DealRequest] *)
Inductive Request :=
  | RJoin (args : JoinArgs)
  | RLeave (args : LeaveArgs)
  | RMove (args : MoveArgs)
  | RQuery (args : QueryArgs).

Definition handle (sc : ShardCtrler) (req : Request) : Op + Answer :=
  match req with
  | RJoin a =>
      if answered sc (ja_UId a) (ja_RequestId a) then inr (mkAnswer false OK zero_Config)
      else inl (mkOp Join (ja_Servers a) [] 0 0 0 (ja_RequestId a) (ja_UId a))
  | RLeave a =>
      if answered sc (la_UId a) (la_RequestId a) then inr (mkAnswer false OK zero_Config)
      else inl (mkOp Leave ∅ (la_GIDs a) 0 0 0 (la_RequestId a) (la_UId a))
  | RMove a =>
      if answered sc (ma_UId a) (ma_RequestId a) then inr (mkAnswer false OK zero_Config)
      else inl (mkOp Move ∅ [] (ma_Shard a) (ma_GID a) 0 (ma_RequestId a) (ma_UId a))
  | RQuery a => inl (mkOp Query ∅ [] 0 0 (qa_Num a) (qa_RequestId a) (qa_UId a))
  end.

(** The replies, [None] standing for a server that is not the leader and for the timeout *)
Definition replyOf (a : option Answer) : Answer :=
  default (mkAnswer true "" zero_Config) a.

(** [fetchApply] neither snapshots nor installs snapshots. *)
#[local] Instance ctrlService : Service ShardCtrler Request Op Answer := {|
  svc_UId := UId;
  svc_RequestId := RequestId;
  svc_handle := handle;
  svc_apply := applyCommand;
  svc_after := λ rf _ _, Some rf;
  svc_install := λ rf sc _, Some (rf, sc);
|}.

Definition initSC : ShardCtrler := mkSC [zero_Config] ∅.

Definition StartServer `{!Gob Z, !Gob (list (Log Op))} (servers : nat) (me : Z) (ps : Persister) :
    option (Sys ShardCtrler Request Op Answer) :=
  rf ← Make servers me ps; Some (initSys rf initSC).
End operations.

(** [Kill] *)
Definition Kill (s : Sys ShardCtrler Request Op Answer) : Sys ShardCtrler Request Op Answer :=
  with_rf (Raft.Kill (rf s)) s.

End SC.
