(* ===== verification/ShardBalance.v ===== *)
(** Rebalancing: the choices of [getNext], [getGidWithMaxShards] and [getGidWithMinShards] do
    not depend on the iteration order of the map, the loop of [balance] ends, and it leaves
    the shards evenly spread over the groups it was given. *)
From S2P Require Import Prelude Labgob Persister Raft RaftNode RequestServer ShardCtrler.
#[local] Open Scope Z_scope.
Import SC.

(** ** The three choices *)

(** [ans] is the smallest id among the entries other than 0 that [worse] puts last:
    [worse a b] when a group of [a] shards is not preferred to one of [b]. *)
Definition chosen (worse : Z → Z → Prop) (l : list (Z * list Z)) (ans : Z) : Prop :=
  (ans = 0 ∧ ∀ g y, (g, y) ∈ l → g = 0) ∨
  (ans ≠ 0 ∧ ∃ x, (ans, x) ∈ l ∧ ∀ g y, (g, y) ∈ l → g ≠ 0 →
     worse (len y) (len x) ∨ (len y = len x ∧ ans ≤ g)).

Lemma chosen_unique worse l l' a b :
  (∀ x y, worse x y → worse y x → False) → (∀ x, ¬ worse x x) →
  l ≡ₚ l' → chosen worse l a → chosen worse l' b → a = b.
Proof.
  intros Hasym Hirr Hp Ha Hb.
  assert (∀ e, e ∈ l ↔ e ∈ l') as Hin by (intros; by rewrite Hp).
  destruct Ha as [[-> Hz]|(Ha0 & x & Hx & Hax)], Hb as [[-> Hz']|(Hb0 & y & Hy & Hby)].
  - done.
  - apply Hin, Hz in Hy. done.
  - apply Hin, Hz' in Hx. done.
  - apply Hin in Hy as Hy'. apply Hin in Hx as Hx'.
    destruct (Hax _ _ Hy' Hb0) as [H1|[H1 H2]], (Hby _ _ Hx' Ha0) as [H3|[H3 H4]].
    + by destruct (Hasym _ _ H1 H3).
    + rewrite H3 in H1. by apply Hirr in H1.
    + rewrite H1 in H3. by apply Hirr in H3.
    + lia.
Qed.

(** Both loops are this one, with [better] for the comparison of the lengths. *)
Definition pick (better : Z → Z → bool) (s : Z * Z) (e : Z * list Z) : Z * Z :=
  let '(best, ans) := s in let '(gid, list) := e in
  if gid =? 0 then s
  else if (best =? -1) || better (len list) best then (len list, gid)
  else if (len list =? best) && (gid <? ans) then (best, gid) else s.

Lemma foldl_pointwise {A B} (f g : A → B → A) a l :
  (∀ x y, f x y = g x y) → foldl f a l = foldl g a l.
Proof. intros H; revert a; induction l as [|y l IH]; intros a; simpl; [done|by rewrite H]. Qed.

Section pick.
Context (better : Z → Z → bool).
Context (better_total : ∀ a b, better a b = false → better b a = true ∨ a = b).
Context (better_trans : ∀ a b c, better a b = true → better b c = true → better a c = true).

Definition pickInv (l : list (Z * list Z)) (s : Z * Z) : Prop :=
  (s.1 = -1 ∧ s.2 = 0 ∧ ∀ g y, (g, y) ∈ l → g = 0) ∨
  (0 ≤ s.1 ∧ s.2 ≠ 0 ∧ ∃ x, (s.2, x) ∈ l ∧ len x = s.1 ∧ ∀ g y, (g, y) ∈ l → g ≠ 0 →
     better s.1 (len y) = true ∨ (len y = s.1 ∧ s.2 ≤ g)).

Lemma pick_step l s e : pickInv l s → pickInv (l ++ [e]) (pick better s e).
Proof.
  destruct s as [best ans], e as [g y]. pose proof (len_nonneg y). unfold pickInv.
  setoid_rewrite elem_of_app. setoid_rewrite list_elem_of_singleton. unfold pick; simpl.
  intros [(-> & -> & Hz)|(Hb & Hans & x & Hx & Hl & Hall)].
  - case_if; simpl.
    + left. split_and!; [done..|]. intros g' y' [?|?]; simplify_eq; eauto.
    + right. split_and!; [lia|done|]. exists y; split_and!; [by right|done|].
      intros g' y' [Hin|?] ?; simplify_eq; [|right; lia]. by apply Hz in Hin.
  - rewrite (proj2 (Z.eqb_neq best (-1))) by lia. right. case_if; simpl.
    { split_and!; [done..|]. exists x; split_and!; [by left|done|].
      intros g' y' [?|?] ?; simplify_eq; eauto. }
    destruct (better (len y) best) eqn:Hbt; simpl.
    + split_and!; [lia|done|]. exists y; split_and!; [by right|done|].
      intros g' y' [Hin|?] Hg; simplify_eq; [|right; lia].
      destruct (Hall _ _ Hin Hg) as [?|[-> _]]; left; eauto.
    + destruct ((len y =? best) && (g <? ans)) eqn:Hc; bool_prop; simpl.
      * split_and!; [lia|done|]. exists y; split_and!; [by right|lia|].
        intros g' y' [Hin|?] Hg; simplify_eq; [|right; lia].
        destruct (Hall _ _ Hin Hg); [by left|right; lia].
      * split_and!; [lia|done|]. exists x; split_and!; [by left|done|].
        intros g' y' [Hin|?] Hg; simplify_eq; [eauto|].
        destruct (better_total _ _ Hbt) as [?|?]; [by left|right; lia].
Qed.

Lemma pick_chosen l :
  chosen (λ a b, better b a = true) l (foldl (pick better) (-1, 0) l).2.
Proof.
  assert (pickInv l (foldl (pick better) (-1, 0) l)) as H.
  { induction l as [|e l IH] using rev_ind.
    - left. split_and!; [done..|]. by intros ? ? ?%not_elem_of_nil.
    - rewrite foldl_app; simpl. by apply pick_step. }
  destruct H as [(_ & -> & Hz)|(_ & Hans & x & Hx & Hl & Hall)]; [by left|].
  right. split; [done|]. exists x. by rewrite Hl.
Qed.
End pick.

Lemma getGidWithMaxShards_chosen l : chosen Z.lt l (getGidWithMaxShards l).
Proof.
  assert (getGidWithMaxShards l = (foldl (pick Z.gtb) (-1, 0) l).2) as ->.
  { unfold getGidWithMaxShards. f_equal. apply foldl_pointwise.
    intros [ma ans] [g y]; unfold pick. pose proof (len_nonneg y).
    destruct (Z.eqb_spec ma (-1)) as [->|]; [|done].
    by rewrite (proj2 (Z.gtb_lt (len y) (-1))) by lia. }
  destruct (pick_chosen Z.gtb) with (l := l) as [?|(? & x & ? & Hall)].
  { intros a b H. destruct (Z.eq_dec a b); [by right|left]. bool_prop. apply Z.gtb_lt. lia. }
  { intros a b c. rewrite !Z.gtb_lt. lia. }
  - by left.
  - right. split; [done|]. exists x; split; [done|]. intros g y Hin Hg.
    destruct (Hall g y Hin Hg) as [?%Z.gtb_lt|?]; auto.
Qed.

Lemma getGidWithMinShards_chosen l : chosen (λ a b, b < a) l (getGidWithMinShards l).
Proof.
  assert (getGidWithMinShards l = (foldl (pick Z.ltb) (-1, 0) l).2) as ->.
  { unfold getGidWithMinShards. f_equal. apply foldl_pointwise.
    intros [mi ans] [g y]; unfold pick. by destruct (mi =? -1). }
  destruct (pick_chosen Z.ltb) with (l := l) as [?|(? & x & ? & Hall)].
  { intros a b H. destruct (Z.eq_dec a b); [by right|left]. bool_prop. apply Z.ltb_lt. lia. }
  { intros a b c. rewrite !Z.ltb_lt. lia. }
  - by left.
  - right. split; [done|]. exists x; split; [done|]. intros g y Hin Hg.
    destruct (Hall g y Hin Hg) as [?%Z.ltb_lt|?]; auto.
Qed.

Lemma getGidWithMaxShards_perm l l' :
  l ≡ₚ l' → getGidWithMaxShards l = getGidWithMaxShards l'.
Proof.
  intros Hp. eapply (chosen_unique Z.lt); [lia|lia|done|apply getGidWithMaxShards_chosen..].
Qed.

Lemma getGidWithMinShards_perm l l' :
  l ≡ₚ l' → getGidWithMinShards l = getGidWithMinShards l'.
Proof.
  intros Hp. eapply (chosen_unique (λ a b, b < a)); [lia|lia|done|apply getGidWithMinShards_chosen..].
Qed.

(** [getNext] uses -1 for no group yet, so -1 must not be a group. *)
Lemma getNext_least l :
  (∀ g y, (g, y) ∈ l → g ≠ -1) →
  (getNext l = -1 ∧ ∀ g y, (g, y) ∈ l → g = 0) ∨
  (getNext l ≠ 0 ∧ getNext l ∈ l.*1 ∧ ∀ g y, (g, y) ∈ l → g ≠ 0 → getNext l ≤ g).
Proof.
  unfold getNext. set (f := λ ans e, _). induction l as [|[g y] l IH] using rev_ind; intros Hne.
  { left. split; [done|]. by intros ? ? ?%not_elem_of_nil. }
  rewrite foldl_app, fmap_app; simpl. set (ans := foldl f (-1) l) in *. unfold f at 1 2 3 4.
  setoid_rewrite elem_of_app in Hne. setoid_rewrite list_elem_of_singleton in Hne.
  setoid_rewrite elem_of_app. setoid_rewrite list_elem_of_singleton.
  assert (g ≠ -1) as Hg by (apply (Hne g y); auto). simpl.
  destruct IH as [(Ha & Hz)|(Ha0 & Hin & Hall)]; [by eauto|..].
  - case_if.
    + left. split; [done|]. intros g' y' [?|?]; simplify_eq; eauto.
    + right. rewrite (proj2 (Z.eqb_eq ans (-1))) by done. split_and!; [done|by right|].
      intros g' y' [?|?] ?; simplify_eq; [|lia]. by assert (g' = 0) by eauto.
  - assert (ans ≠ -1) as Ha1.
    { apply list_elem_of_fmap in Hin as ([g1 y1] & -> & Hin). simpl. eapply Hne; eauto. }
    right. case_if.
    + split_and!; [done|by left|]. intros g' y' [?|?] ?; simplify_eq; eauto.
    + rewrite (proj2 (Z.eqb_neq ans (-1))) by done. case_if.
      * split_and!; [done|by right|]. intros g' y' [Hi|?] ?; simplify_eq; [|lia].
        specialize (Hall _ _ Hi). lia.
      * split_and!; [done|by left|]. intros g' y' [?|?] ?; simplify_eq; [eauto|lia].
Qed.

Lemma getNext_perm l l' :
  (∀ g y, (g, y) ∈ l → g ≠ -1) → l ≡ₚ l' → getNext l = getNext l'.
Proof.
  intros Hne Hp.
  assert (∀ g y, (g, y) ∈ l' → g ≠ -1) as Hne' by (intros g y; rewrite <-Hp; apply Hne).
  assert (∀ e, e ∈ l ↔ e ∈ l') as Hin by (intros; by rewrite Hp).
  destruct (getNext_least l Hne) as [[Ha Hz]|(Ha0 & Hai & Hall)],
           (getNext_least l' Hne') as [[Hb Hz']|(Hb0 & Hbi & Hall')]; [congruence| | |].
  - apply list_elem_of_fmap in Hbi as ([g y] & Hg & Hi%Hin%Hz); simpl in *. congruence.
  - apply list_elem_of_fmap in Hai as ([g y] & Hg & Hi%Hin%Hz'); simpl in *. congruence.
  - apply list_elem_of_fmap in Hai as ([g y] & Hg & Hi).
    apply list_elem_of_fmap in Hbi as ([g' y'] & Hg' & Hi'). simpl in *.
    apply Hin in Hi as Hi1. apply Hin in Hi' as Hi1'. rewrite Hg in Ha0. rewrite Hg' in Hb0.
    specialize (Hall _ _ Hi1' Hb0). specialize (Hall' _ _ Hi1 Ha0). lia.
Qed.

(** ** The loop does not depend on the order *)
Lemma iteration_perm ord ord' k m : iteration ord → iteration ord' → ord k m ≡ₚ ord' k m.
Proof. intros Ho Ho'. etransitivity; [apply Ho|symmetry; apply Ho']. Qed.

Lemma balanceLoop_order ord ord' fuel : ∀ k shards m,
  iteration ord → iteration ord' →
  balanceLoop ord fuel k shards m = balanceLoop ord' fuel k shards m.
Proof.
  induction fuel as [|fuel IH]; intros k shards m Ho Ho'; [done|]. cbn [balanceLoop].
  rewrite (getGidWithMinShards_perm (ord (2 * k)%nat m) (ord' (2 * k)%nat m)) by auto using iteration_perm.
  rewrite (getGidWithMaxShards_perm (ord (2 * k + 1)%nat m) (ord' (2 * k + 1)%nat m))
    by auto using iteration_perm.
  set (mi := getGidWithMinShards _). set (ma := getGidWithMaxShards _).
  case_if; [done|]. destruct (_.[0]) as [shard|]; simpl; [|done].
  destruct (slice_from _ _); simpl; [|done]. destruct (shards.[shard <~ mi]); simpl; [|done]. auto.
Qed.

(** ** The map lists the shards of each group *)
Record repr (shards : list Z) (m : shardMap) : Prop := {
  repr_list : ∀ g l, m !! g = Some l → NoDup l ∧ ∀ s, s ∈ l ↔ shards.[s] = Some g;
  repr_dom : ∀ s g, shards.[s] = Some g → is_Some (m !! g);
}.

Lemma getShardsMap_repr shards : repr shards (getShardsMap shards).
Proof.
  unfold getShardsMap. set (f := λ s gid, _).
  assert ((foldl f (0, ∅) shards).1 = len shards ∧ repr shards (foldl f (0, ∅) shards).2) as [_ H]; [|done].
  induction shards as [|gid shards IH] using rev_ind; simpl.
  { split; [done|]. split; [by intros ? ? ?%lookup_empty_Some|]. intros s g Hs.
    apply go_index_Some_lt in Hs. unfold len in Hs; simpl in Hs; lia. }
  rewrite foldl_app; simpl. destruct (foldl f (0, ∅) shards) as [n m]. destruct IH as [Hn [Hl Hd]].
  simpl in *. subst n. assert (∀ s g, (shards ++ [gid]).[s] = Some g ↔ shards.[s] = Some g ∨ (s = len shards ∧ g = gid)) as Hsn.
  { intros s g. destruct (decide (s < len shards)).
    - rewrite go_index_app_l by done. split; [auto|]. intros [?|[? _]]; [done|lia].
    - rewrite go_index_app_r by lia. split.
      + intros Hs. pose proof (go_index_Some_lt _ _ _ Hs). unfold len in H; simpl in H.
        assert (s = len shards) as -> by (unfold len in *; lia). rewrite Z.sub_diag in Hs.
        injection Hs as <-. auto.
      + intros [Hs|[-> ->]]; [apply go_index_Some_lt in Hs; lia|]. by rewrite Z.sub_diag. }
  split; [by rewrite len_snoc|]. split.
  - intros g l. rewrite lookup_insert_Some. intros [[<- <-]|[Hne Hg]].
    + assert (NoDup (default [] (m !! gid)) ∧ ∀ s, s ∈ default [] (m !! gid) ↔ shards.[s] = Some gid)
        as [Hnd Hin].
      { destruct (m !! gid) as [l|] eqn:Hm; simpl; [by apply Hl|]. split; [constructor|].
        intros s; split; [by intros ?%not_elem_of_nil|]. intros Hs. destruct (Hd _ _ Hs). congruence. }
      split.
      * apply NoDup_app; split_and!; [done| |by apply NoDup_singleton].
        intros s Hs ->%list_elem_of_singleton. apply Hin, go_index_Some_lt in Hs. lia.
      * intros s. rewrite elem_of_app, list_elem_of_singleton, Hin, Hsn. naive_solver.
    + destruct (Hl _ _ Hg) as [Hnd Hin]. split; [done|]. intros s. rewrite Hin, Hsn. naive_solver.
  - intros s g [Hs|[-> ->]]%Hsn; [|by rewrite lookup_insert_eq].
    destruct (Hd _ _ Hs) as [l Hg]. destruct (decide (gid = g)) as [->|];
      [by rewrite lookup_insert_eq|by rewrite lookup_insert_ne, Hg].
Qed.

Lemma addGroups_lookup m groups g :
  addGroups m groups !! g =
  match m !! g with Some l => Some l | None => (λ _, []) <$> groups !! g end.
Proof.
  unfold addGroups. rewrite lookup_union, lookup_fmap.
  by destruct (m !! g), (groups !! g).
Qed.

Lemma addGroups_repr shards m groups : repr shards m → repr shards (addGroups m groups).
Proof.
  intros [Hl Hd]. split.
  - intros g l. rewrite addGroups_lookup. destruct (m !! g) as [l0|] eqn:Hm; [intros [= <-]; by apply Hl|].
    destruct (groups !! g); intros [= <-]. split; [constructor|].
    intros s; split; [by intros ?%not_elem_of_nil|]. intros Hs. destruct (Hd _ _ Hs). congruence.
  - intros s g Hs. rewrite addGroups_lookup. destruct (Hd _ _ Hs) as [l ->]. by eexists.
Qed.

Lemma assignAll_spec list next : ∀ shards,
  (∀ s, s ∈ list → 0 ≤ s < len shards) →
  ∃ shards', assignAll shards list next = Some shards' ∧ length shards' = length shards ∧
    ∀ s, shards'.[s] = if bool_decide (s ∈ list) then Some next else shards.[s].
Proof.
  induction list as [|x list IH]; intros shards Hr; cbn [assignAll].
  { exists shards. split_and!; done. }
  rewrite go_store_Some by (apply Hr; by left); simpl.
  destruct (IH (<[Z.to_nat x := next]> shards)) as (sh & -> & Hl & Hs).
  { intros s Hin. unfold len. rewrite length_insert. apply Hr; by right. }
  exists sh. split_and!; [done|by rewrite Hl, length_insert|]. intros s. rewrite Hs.
  assert (0 ≤ x < len shards) by (apply Hr; by left).
  repeat case_bool_decide; set_unfold; try tauto.
  - destruct H1; [subst|tauto]. by apply go_index_insert_eq.
  - apply go_index_insert_ne; [|lia]. intros ->. tauto.
Qed.

Lemma repr_move shards m mi ma l x rest :
  repr shards m → mi ≠ ma → m !! mi = Some l → m !! ma = Some (x :: rest) →
  0 ≤ x < len shards ∧
  repr (<[Z.to_nat x := mi]> shards) (<[ma := rest]> (<[mi := l ++ [x]]> m)).
Proof.
  intros [Hl Hd] Hne Hmi Hma. destruct (Hl _ _ Hma) as [Hnd Hin]. apply NoDup_cons in Hnd as [Hx Hnd].
  assert (shards.[x] = Some ma) as Hxa by (apply Hin; by left).
  pose proof (go_index_Some_lt _ _ _ Hxa) as Hr. split; [done|].
  assert (∀ s g, (<[Z.to_nat x := mi]> shards).[s] = Some g ↔
                 (s = x ∧ g = mi) ∨ (s ≠ x ∧ shards.[s] = Some g)) as Hs.
  { intros s g. destruct (decide (s = x)) as [->|].
    - rewrite go_index_insert_eq by done. naive_solver.
    - rewrite go_index_insert_ne by lia. naive_solver. }
  split.
  - intros g l'. rewrite lookup_insert_Some. intros [[<- <-]|[Hg Hm]].
    + split; [done|]. intros s. rewrite Hs. specialize (Hin s). set_unfold. naive_solver.
    + apply lookup_insert_Some in Hm as [[<- <-]|[Hg' Hm]].
      * destruct (Hl _ _ Hmi) as [Hnd' Hin']. split.
        -- apply NoDup_app; split_and!; [done| |by apply NoDup_singleton].
           intros s Hsl ->%list_elem_of_singleton. apply Hin' in Hsl. congruence.
        -- intros s. rewrite Hs. specialize (Hin' s). set_unfold. naive_solver.
      * destruct (Hl _ _ Hm) as [Hnd' Hin']. split; [done|]. intros s. rewrite Hs.
        specialize (Hin' s). naive_solver.
  - intros s g [[-> ->]|[_ Hsg]]%Hs.
    + rewrite lookup_insert_ne, lookup_insert_eq by done. by eexists.
    + destruct (Hd _ _ Hsg) as [l' Hg]. destruct (decide (ma = g)) as [->|];
        [by rewrite lookup_insert_eq|rewrite lookup_insert_ne by done].
      destruct (decide (mi = g)) as [->|]; [by rewrite lookup_insert_eq|by rewrite lookup_insert_ne, Hg].
Qed.

(** ** Sums over the groups *)
Definition msum (f : Z → Z) (m : shardMap) : Z := map_fold (λ _ l acc, f (len l) + acc) 0 m.

Lemma msum_new f m k l : m !! k = None → msum f (<[k := l]> m) = f (len l) + msum f m.
Proof. intros Hk. unfold msum. rewrite map_fold_insert_L; [done|intros; lia|done]. Qed.

Lemma msum_insert f m k l0 l :
  m !! k = Some l0 → msum f (<[k := l]> m) = msum f m - f (len l0) + f (len l).
Proof.
  intros Hk. rewrite <-(insert_delete_id m k l0) at 2 by done.
  rewrite <-insert_delete_eq, !msum_new by apply lookup_delete_eq. lia.
Qed.

Lemma msum_squares m :
  0 ≤ msum (λ n, n) m ∧ msum (λ n, n * n) m ≤ msum (λ n, n) m * msum (λ n, n) m.
Proof.
  induction m as [|k l m Hk [H0 IH]] using map_ind; [done|].
  rewrite !msum_new by done. pose proof (len_nonneg l). nia.
Qed.

Lemma msum_getShardsMap shards : msum (λ n, n) (getShardsMap shards) = len shards.
Proof.
  unfold getShardsMap. set (f := λ s gid, _).
  induction shards as [|gid shards IH] using rev_ind; [done|].
  rewrite foldl_app, len_snoc; simpl. destruct (foldl f (0, ∅) shards) as [n m]; simpl in *.
  destruct (m !! gid) as [l|] eqn:Hm; simpl.
  - rewrite (msum_insert _ _ _ l), len_snoc by done. lia.
  - rewrite msum_new by done. unfold len at 1; simpl. lia.
Qed.

Lemma msum_addGroups m groups : msum (λ n, n) (addGroups m groups) = msum (λ n, n) m.
Proof.
  unfold addGroups. induction groups as [|k v groups Hk IH] using map_ind.
  - by rewrite fmap_empty, (right_id_L ∅ (∪)).
  - rewrite fmap_insert. destruct (m !! k) as [l|] eqn:Hm.
    + rewrite <-IH. f_equal. apply map_eq; intros i. rewrite !lookup_union.
      destruct (decide (k = i)) as [<-|]; [|by rewrite lookup_insert_ne].
      rewrite Hm, lookup_insert_eq, lookup_fmap, Hk. done.
    + rewrite <-insert_union_r, msum_new by (done || by rewrite lookup_union, Hm, lookup_fmap, Hk).
      by rewrite IH.
Qed.

(** ** The loop *)
Definition spread (m : shardMap) : Prop :=
  ∀ g1 g2 l1 l2, g1 ≠ 0 → g2 ≠ 0 → m !! g1 = Some l1 → m !! g2 = Some l2 → len l1 ≤ len l2 + 1.

(** What the two choices say about the map. *)
Lemma choices ord m (k1 k2 : nat) :
  iteration ord → (∃ g, g ≠ 0 ∧ is_Some (m !! g)) →
  let mi := getGidWithMinShards (ord k1 m) in
  let ma := getGidWithMaxShards (ord k2 m) in
  ∃ lmi lma, mi ≠ 0 ∧ ma ≠ 0 ∧ m !! mi = Some lmi ∧ m !! ma = Some lma ∧
    (∀ g l, g ≠ 0 → m !! g = Some l → len lmi ≤ len l ≤ len lma) ∧
    (mi ≠ ma → len lmi < len lma).
Proof.
  intros Ho (g0 & Hg0 & l0 & Hl0) mi ma.
  assert (∀ k g l, (g, l) ∈ ord k m ↔ m !! g = Some l) as Hin.
  { intros k g l. rewrite (Ho k m). apply elem_of_map_to_list. }
  destruct (getGidWithMinShards_chosen (ord k1 m)) as [[_ Hz]|(Hmi & lmi & Hi & Hall)].
  { apply (Hin k1) in Hl0. by apply Hz in Hl0. }
  destruct (getGidWithMaxShards_chosen (ord k2 m)) as [[_ Hz]|(Hma & lma & Ha & Hall')].
  { apply (Hin k2) in Hl0. by apply Hz in Hl0. }
  fold mi in Hmi, Hi, Hall. fold ma in Hma, Ha, Hall'.
  apply Hin in Hi as Hi'. apply Hin in Ha as Ha'. exists lmi, lma. split_and!; try done.
  - intros g l Hg Hl. pose proof (Hall g l) as H1. pose proof (Hall' g l) as H2.
    rewrite Hin in H1, H2. specialize (H1 Hl Hg). specialize (H2 Hl Hg). lia.
  - intros Hne. pose proof (Hall ma lma) as H1. pose proof (Hall' mi lmi) as H2.
    rewrite Hin in H1, H2. specialize (H1 Ha' Hma). specialize (H2 Hi' Hmi). lia.
Qed.

Lemma balanceLoop_spec ord fuel : ∀ k shards m,
  iteration ord → repr shards m → (∃ g, g ≠ 0 ∧ is_Some (m !! g)) →
  (∀ s, shards.[s] ≠ Some 0) → msum (λ n, n * n) m < 2 * Z.of_nat fuel →
  ∃ shards' m', balanceLoop ord fuel k shards m = Some shards' ∧
    length shards' = length shards ∧ (∀ s, shards'.[s] ≠ Some 0) ∧
    repr shards' m' ∧ dom m' = dom m ∧ spread m'.
Proof.
  induction fuel as [|fuel IH]; intros k shards m Ho Hr Hg Hz Hf.
  { exfalso. assert (∀ m, 0 ≤ msum (λ n, n * n) m) as Hpos.
    { clear. intros m. induction m as [|k l m Hk IH] using map_ind; [done|].
      rewrite msum_new by done. pose proof (len_nonneg l). nia. }
    specialize (Hpos m). lia. }
  cbn [balanceLoop]. destruct (choices ord m (2 * k) (2 * k + 1) Ho Hg)
    as (lmi & lma & Hmi0 & Hma0 & Hmi & Hma & Hall & Hlt).
  set (mi := getGidWithMinShards _) in *. set (ma := getGidWithMaxShards _) in *.
  rewrite Hmi, Hma; simpl. case_if.
  - exists shards, m. split_and!; try done. intros g1 g2 l1 l2 Hg1 Hg2 H1 H2.
    pose proof (Hall _ _ Hg1 H1). pose proof (Hall _ _ Hg2 H2). pose proof (len_nonneg lmi).
    destruct Hif as [[?|?]|?]; [lia..|]. replace lmi with lma in * by congruence. lia.
  - assert (mi ≠ ma ∧ 1 < len lma ∧ len lmi ≠ len lma - 1) as (Hne & Hl1 & Hl2) by tauto || lia.
    destruct lma as [|x rest]; [done|]. rewrite len_cons in *. pose proof (len_nonneg rest).
    destruct (repr_move _ _ _ _ _ _ _ Hr Hne Hmi Hma) as [Hx Hr'].
    change ((x :: rest).[0]) with (Some x). cbv [mbind option_bind].
    rewrite lookup_insert_ne, Hma by done; simpl. rewrite slice_from_Some by (rewrite len_cons; lia).
    change (drop (Z.to_nat 1) (x :: rest)) with rest. cbv [mbind option_bind].
    rewrite go_store_Some by done.
    destruct (IH (S k) _ _ Ho Hr') as (sh' & m' & -> & Hlen & Hz' & Hr'' & Hdom & Hsp).
    + exists mi; split; [done|]. rewrite lookup_insert_ne, lookup_insert_eq by done. by eexists.
    + intros s. destruct (decide (s = x)) as [->|].
      * rewrite go_index_insert_eq by done. congruence.
      * rewrite go_index_insert_ne by lia. apply Hz.
    + rewrite (msum_insert _ _ _ (x :: rest)) by (by rewrite lookup_insert_ne).
      rewrite (msum_insert _ _ _ lmi) by done. rewrite len_cons, len_snoc.
      specialize (Hlt Hne). nia.
    + exists sh', m'. split_and!; try done; [by rewrite Hlen, length_insert|].
      rewrite Hdom, !dom_insert_L. apply elem_of_dom_2 in Hmi, Hma. set_solver.
Qed.

(** ** [balance] *)

(** How many shards a group owns. *)
Definition owned (shards : list Z) (g : Z) : Z := len (List.filter (λ x, x =? g) shards).

Lemma getShardsMap_snoc shards gid :
  getShardsMap (shards ++ [gid]) =
  <[gid := default [] (getShardsMap shards !! gid) ++ [len shards]]> (getShardsMap shards).
Proof.
  unfold getShardsMap. set (f := λ s gid, _).
  assert ((foldl f (0, ∅) shards).1 = len shards) as Hn.
  { induction shards as [|g shards IH] using rev_ind; [done|].
    rewrite foldl_app, len_snoc; simpl. destruct (foldl f (0, ∅) shards); simpl in *. lia. }
  rewrite foldl_app; simpl. destruct (foldl f (0, ∅) shards); simpl in *. by subst.
Qed.

Lemma getShardsMap_lookup shards g :
  (is_Some (getShardsMap shards !! g) ↔ g ∈ shards) ∧
  len (default [] (getShardsMap shards !! g)) = owned shards g.
Proof.
  induction shards as [|gid shards [IHd IHc]] using rev_ind.
  { split; [|done]. split; [by intros [? ?]|by intros ?%not_elem_of_nil]. }
  rewrite getShardsMap_snoc. unfold owned. rewrite List.filter_app; simpl.
  rewrite len_app. fold (owned shards g). rewrite <-IHc, elem_of_app, list_elem_of_singleton.
  destruct (Z.eqb_spec gid g) as [->|Hne].
  - rewrite lookup_insert_eq; simpl. rewrite len_snoc. split; [by split; eauto|done].
  - rewrite lookup_insert_ne by done. unfold len at 3; simpl. split; [naive_solver|lia].
Qed.

Lemma repr_owned shards m g l : repr shards m → m !! g = Some l → len l = owned shards g.
Proof.
  intros Hr Hm. destruct (repr_list _ _ Hr _ _ Hm) as [Hnd Hin].
  destruct (getShardsMap_lookup shards g) as [_ <-].
  destruct (getShardsMap_repr shards) as [Hl' Hd'].
  assert (NoDup (default [] (getShardsMap shards !! g)) ∧
          ∀ s, s ∈ default [] (getShardsMap shards !! g) ↔ shards.[s] = Some g) as [Hnd' Hin'].
  { destruct (getShardsMap shards !! g) as [l'|] eqn:Hg; [by apply Hl'|]. split; [constructor|].
    intros s; split; [by intros ?%not_elem_of_nil|]. intros [? ?]%Hd'. congruence. }
  unfold len. f_equal. apply Permutation_length, NoDup_Permutation; [done..|].
  intros s. by rewrite Hin, Hin'.
Qed.

(** The groups that take part: the owners of shards and the groups given, but not 0. *)
Definition active (shards : list Z) (groups : gmap Z (list string)) (g : Z) : Prop :=
  g ≠ 0 ∧ (g ∈ shards ∨ is_Some (groups !! g)).

Lemma active_dec shards groups : (∃ g, active shards groups g) ∨ ∀ g, ¬ active shards groups g.
Proof.
  assert (∀ g, g ∈ shards ++ (map_to_list groups).*1 ↔ g ∈ shards ∨ is_Some (groups !! g)) as Hall.
  { intros g. rewrite elem_of_app, list_elem_of_fmap. split; intros [?|H]; auto; right.
    - destruct H as ([k v] & -> & Hk). apply elem_of_map_to_list in Hk. by eexists.
    - destruct H as [v Hv]. exists (g, v). split; [done|by apply elem_of_map_to_list]. }
  destruct (decide (Exists (λ g, g ≠ 0) (shards ++ (map_to_list groups).*1))) as [He|He].
  - left. apply Exists_exists in He as (g & Hin%Hall & Hg). by exists g.
  - right. intros g [Hg Ha%Hall]. apply He, Exists_exists. by exists g.
Qed.

Lemma active_map shards groups g :
  active shards groups g ↔ g ≠ 0 ∧ is_Some (addGroups (getShardsMap shards) groups !! g).
Proof.
  unfold active. rewrite addGroups_lookup. destruct (getShardsMap_lookup shards g) as [<- _].
  destruct (getShardsMap shards !! g), (groups !! g); naive_solver.
Qed.

Definition noMinusOne (shards : list Z) (groups : gmap Z (list string)) : Prop :=
  (∀ g, g ∈ shards → g ≠ -1) ∧ groups !! (-1) = None.

Lemma noMinusOne_ord ord shards groups k :
  iteration ord → noMinusOne shards groups →
  ∀ g y, (g, y) ∈ ord k (addGroups (getShardsMap shards) groups) → g ≠ -1.
Proof.
  intros Ho [Hs Hg] g y. rewrite (Ho k _), elem_of_map_to_list, addGroups_lookup.
  intros Hin ->. destruct (getShardsMap shards !! (-1)) eqn:Hm.
  - eapply Hs; [|done]. apply getShardsMap_lookup. by rewrite Hm.
  - by rewrite Hg in Hin.
Qed.

Lemma balance_order ord ord' shards groups :
  iteration ord → iteration ord' → noMinusOne shards groups →
  balance ord shards groups = balance ord' shards groups.
Proof.
  intros Ho Ho' Hn. unfold balance. generalize balanceFuel as fuel; intros fuel. case_if; [done|].
  rewrite (getNext_perm (ord 0%nat (addGroups (getShardsMap shards) groups))
             (ord' 0%nat (addGroups (getShardsMap shards) groups)))
    by eauto using iteration_perm, noMinusOne_ord.
  destruct (addGroups (getShardsMap shards) groups !! 0) as [l|]; simpl;
    [destruct (assignAll _ _ _); simpl; [|done]|]; by apply balanceLoop_order.
Qed.

(** Moving the shards of group 0 to [next]. *)
Lemma zero_move shards m next list l :
  repr shards m → next ≠ 0 → m !! 0 = Some list → m !! next = Some l →
  ∃ shards', assignAll shards list next = Some shards' ∧ length shards' = length shards ∧
    (∀ s, shards'.[s] ≠ Some 0) ∧ repr shards' (<[0 := []]> (<[next := l ++ list]> m)).
Proof.
  intros [Hl Hd] Hne H0 Hnx. destruct (Hl _ _ H0) as [Hnd0 Hin0]. destruct (Hl _ _ Hnx) as [Hnd Hin].
  destruct (assignAll_spec list next shards) as (sh & -> & Hlen & Hs).
  { intros s Hsin. by eapply go_index_Some_lt, Hin0. }
  assert (∀ s g, sh.[s] = Some g ↔ (s ∈ list ∧ g = next) ∨ ((s ∉ list) ∧ shards.[s] = Some g)) as Hs'.
  { intros s g. rewrite Hs. case_bool_decide; naive_solver. }
  exists sh. split_and!; [done..| |].
  - intros s. rewrite Hs'. intros [[_ ?]|[Hnin ?]]; [done|]. by apply Hnin, Hin0.
  - split.
    + intros g l'. rewrite lookup_insert_Some. intros [[<- <-]|[Hg Hm]].
      * split; [constructor|]. intros s. rewrite Hs'. specialize (Hin0 s). set_unfold. naive_solver.
      * apply lookup_insert_Some in Hm as [[<- <-]|[Hg' Hm]].
        -- split.
           { apply NoDup_app; split_and!; [done| |done]. intros s ?%Hin ?%Hin0. congruence. }
           intros s. rewrite Hs', elem_of_app. specialize (Hin s). specialize (Hin0 s).
           destruct (decide (s ∈ list)); naive_solver.
        -- destruct (Hl _ _ Hm) as [Hnd' Hin']. split; [done|]. intros s. rewrite Hs'.
           specialize (Hin' s). specialize (Hin0 s). destruct (decide (s ∈ list)); naive_solver.
    + intros s g [[_ ->]|[Hnin Hsg]]%Hs'.
      * rewrite lookup_insert_ne, lookup_insert_eq by done. by eexists.
      * destruct (Hd _ _ Hsg) as [l' Hg]. destruct (decide (0 = g)) as [<-|];
          [by rewrite lookup_insert_eq|rewrite lookup_insert_ne by done].
        destruct (decide (next = g)) as [->|]; [by rewrite lookup_insert_eq|by rewrite lookup_insert_ne, Hg].
Qed.

Lemma size_1_keys (m : shardMap) g1 g2 :
  size m = 1%nat → is_Some (m !! g1) → is_Some (m !! g2) → g1 = g2.
Proof.
  intros Hs H1 H2. destruct (decide (g1 = g2)); [done|].
  assert (delete g1 m = ∅) as He.
  { apply map_size_empty_inv. rewrite map_size_delete_Some by done. lia. }
  apply (f_equal (.!! g2)) in He. rewrite lookup_delete_ne, lookup_empty in He by done.
  destruct H2; congruence.
Qed.

(** With more than one entry, [getNext] finds a group. *)
Lemma getNext_found ord shards groups :
  let m := addGroups (getShardsMap shards) groups in
  iteration ord → noMinusOne shards groups → shards ≠ [] → size m ≠ 1%nat →
  getNext (ord 0%nat m) ≠ 0 ∧ ∃ l, m !! getNext (ord 0%nat m) = Some l.
Proof.
  intros m Ho Hn Hne Hs. pose proof (noMinusOne_ord ord shards groups 0 Ho Hn) as Hm1. fold m in Hm1.
  destruct (getNext_least _ Hm1) as [[_ Hz]|(H0 & Hin & _)].
  - destruct Hs. assert (∀ g l, m !! g = Some l → g = 0) as Hk.
    { intros g l Hg. apply (Hz g l). rewrite (Ho 0%nat m). by apply elem_of_map_to_list. }
    destruct shards as [|g shards]; [done|].
    destruct (repr_dom _ _ (addGroups_repr _ _ groups (getShardsMap_repr (g :: shards))) 0 g eq_refl)
      as [l Hl].
    fold m in Hl. pose proof (Hk _ _ Hl) as ->.
    assert (m = {[0 := l]}) as ->; [|apply map_size_singleton].
    apply map_eq; intros i. destruct (decide (0 = i)) as [<-|Hi].
    + by rewrite lookup_singleton_eq.
    + rewrite lookup_singleton_ne by done. destruct (m !! i) eqn:Hi'; [|done].
      apply Hk in Hi'. by destruct Hi.
  - split; [done|]. apply list_elem_of_fmap in Hin as ([g l] & -> & Hin). exists l; simpl.
    apply elem_of_map_to_list. by rewrite <-(Ho 0%nat m).
Qed.

(** The state of [balance] when its loop starts. *)
Lemma balance_start ord shards groups :
  let m := addGroups (getShardsMap shards) groups in
  let next := getNext (ord 0%nat m) in
  iteration ord → noMinusOne shards groups → length shards = NShards → size m ≠ 1%nat →
  ∃ shards1 m1,
    match m !! 0 with
    | Some list => shards ← assignAll shards list next;
                   Some (shards, <[0 := []]> (<[next := default [] (m !! next) ++ list]> m))
    | None => Some (shards, m)
    end = Some (shards1, m1) ∧
    length shards1 = NShards ∧ (∀ s, shards1.[s] ≠ Some 0) ∧ repr shards1 m1 ∧
    dom m1 = dom m ∧ (∃ g, g ≠ 0 ∧ is_Some (m1 !! g)) ∧ msum (λ n, n * n) m1 ≤ 100.
Proof.
  intros m next Ho Hn Hlen Hs.
  assert (shards ≠ []) as Hne by (by intros ->).
  destruct (getNext_found ord shards groups Ho Hn Hne Hs) as [Hnx [l Hl]]. fold m next in Hnx, Hl.
  assert (repr shards m) as Hr by apply addGroups_repr, getShardsMap_repr.
  assert (msum (λ n, n) m = 10) as Hsum.
  { unfold m. rewrite msum_addGroups, msum_getShardsMap. unfold len. by rewrite Hlen. }
  destruct (m !! 0) as [list|] eqn:H0.
  - destruct (zero_move _ _ _ _ _ Hr Hnx H0 Hl) as (sh & Has & Hlen' & Hz & Hr').
    rewrite Hl, Has; simpl. eexists _, _; split_and!; [reflexivity|congruence|done|done|..].
    + rewrite !dom_insert_L. apply elem_of_dom_2 in H0, Hl. set_solver.
    + exists next; split; [done|]. rewrite lookup_insert_ne, lookup_insert_eq by done. by eexists.
    + set (m1 := <[0 := []]> _). assert (msum (λ n, n) m1 = 10) as Hsum1.
      { unfold m1. rewrite (msum_insert _ _ _ list) by (by rewrite lookup_insert_ne).
        rewrite (msum_insert _ _ _ l), len_app by done. unfold len at 5; simpl. lia. }
      pose proof (msum_squares m1) as [_ Hsq]. rewrite Hsum1 in Hsq. lia.
  - eexists _, _; split_and!; [reflexivity|done| |done|done|by eauto|].
    + intros s Hs0. destruct (repr_dom _ _ Hr _ _ Hs0). congruence.
    + pose proof (msum_squares m) as [_ Hsq]. rewrite Hsum in Hsq. lia.
Qed.

Lemma balance_spec ord shards groups :
  iteration ord → noMinusOne shards groups → length shards = NShards →
  ∃ shards', balance ord shards groups = Some shards' ∧ length shards' = NShards ∧
    ((∀ g, ¬ active shards groups g) → shards' = shards) ∧
    ((∃ g, active shards groups g) →
       (∀ g, g ∈ shards' → active shards groups g) ∧
       ∀ g1 g2, active shards groups g1 → active shards groups g2 →
         owned shards' g1 ≤ owned shards' g2 + 1).
Proof.
  intros Ho Hn Hlen. unfold balance. pose (m := addGroups (getShardsMap shards) groups).
  assert (∀ g, active shards groups g ↔ g ≠ 0 ∧ is_Some (m !! g)) as Hact by apply active_map.
  fold m. case_if.
  - exists shards. split_and!; [done..|]. intros [g0 Hg0]. apply Hact in Hg0 as [Hg0 Hgm0].
    assert (size m = 1%nat) as Hs by lia. split.
    + intros g [i Hi]%list_elem_of_lookup. rewrite <-go_index_of_nat in Hi.
      assert (is_Some (m !! g)) as Hg
        by (eapply (repr_dom shards); [apply addGroups_repr, getShardsMap_repr|done]).
      apply Hact. split; [|done]. by rewrite (size_1_keys m g g0).
    + intros g1 g2 [_ H1]%Hact [_ H2]%Hact. rewrite (size_1_keys m g1 g2) by done. lia.
  - destruct (balance_start ord shards groups Ho Hn Hlen) as (sh1 & m1 & Heq & Hlen1 & Hz1 & Hr1 & Hd1 & Hg1 & Hsq).
    { fold m. lia. }
    fold m in Heq, Hd1. rewrite Heq. cbv [mbind option_bind].
    destruct (balanceLoop_spec ord balanceFuel 1 sh1 m1 Ho Hr1 Hg1 Hz1)
      as (sh' & m' & -> & Hlen' & Hz' & Hr' & Hd' & Hsp); [unfold balanceFuel; lia|].
    assert (∀ g, is_Some (m' !! g) ↔ is_Some (m !! g)) as Hkeys.
    { intros g. rewrite <-!elem_of_dom. by rewrite Hd', Hd1. }
    exists sh'. split_and!; [done|congruence| |].
    + intros Hno. destruct Hg1 as (g & Hg & Hgs). destruct (Hno g). apply Hact. split; [done|].
      apply elem_of_dom. rewrite <-Hd1. by apply elem_of_dom.
    + intros _. split.
      * intros g [i Hi]%list_elem_of_lookup. rewrite <-go_index_of_nat in Hi. apply Hact. split.
        -- intros ->. by apply Hz' in Hi.
        -- apply Hkeys. by eapply (repr_dom sh').
      * intros g1 g2 [H1 Hm1%Hkeys]%Hact [H2 Hm2%Hkeys]%Hact. destruct Hm1 as [l1 Hl1], Hm2 as [l2 Hl2].
        rewrite <-(repr_owned _ _ _ _ Hr' Hl1), <-(repr_owned _ _ _ _ Hr' Hl2).
        exact (Hsp g1 g2 l1 l2 H1 H2 Hl1 Hl2).
Qed.
