(* ===== verification/ShardProps.v ===== *)
(** The shard controller: replicas that iterate over maps in different orders compute the
    same configurations, no operation of a well-behaved client stops it, the history of
    configurations only grows, and Join and Leave spread the shards evenly. *)
From S2P Require Import Prelude Labgob Persister Raft RaftNode RequestServer ShardCtrler ShardBalance.
#[local] Open Scope Z_scope.
Import SC.

(** ** Well-formed configurations *)
Record configWf (c : Config) : Prop := {
  cw_shards : length (Shards c) = NShards;
  cw_owners : ∀ g, g ∈ Shards c → 0 ≤ g;
  cw_groups : ∀ g, is_Some (Groups c !! g) → 0 < g;
}.

(** [configs] is indexed by configuration number. *)
Record scWf (sc : ShardCtrler) : Prop := {
  sw_nonempty : configs sc ≠ [];
  sw_configs : ∀ (i : nat) c, configs sc !! i = Some c → Num c = Z.of_nat i ∧ configWf c;
}.

(** What the operations need of the client: group ids are positive (0 means no group), a
    moved shard exists, a queried number is -1 or a number. *)
Definition opOk (op : Op) : Prop :=
  if (op_Op op =? Join)%string then ∀ g, is_Some (Servers op !! g) → 0 < g
  else if (op_Op op =? Move)%string then 0 ≤ Shard op < Z.of_nat NShards ∧ 0 ≤ GID op
  else if (op_Op op =? Query)%string then -1 ≤ op_Num op
  else True.

Lemma cloneConfig_id c : configWf c → cloneConfig c = Some c.
Proof.
  intros [Hl _ _]. unfold cloneConfig.
  edestruct (go_for_inv (λ j shards, length shards = NShards ∧
      ∀ i, 0 ≤ i < j → shards.[i] = (Shards c).[i])) as (sh & -> & Hlen & Hall).
  - split; [done|intros; lia].
  - intros j sh Hj [Hlen Hall]; cbv beta.
    destruct (go_index_lt_Some (Shards c) j) as [v Hv]; [unfold len; lia|]. rewrite Hv; simpl.
    rewrite go_store_Some by (unfold len; lia). eexists; split; [reflexivity|].
    split; [by rewrite length_insert|]. intros i Hi. destruct (decide (i = j)) as [->|].
    + rewrite Hv. apply go_index_insert_eq. unfold len; lia.
    + rewrite go_index_insert_ne by lia. apply Hall; lia.
  - simpl. assert (sh = Shards c) as ->.
    { apply list_eq; intros i. destruct (decide (i < NShards)%nat).
      - rewrite <-!go_index_of_nat. apply Hall; lia.
      - by rewrite !lookup_ge_None_2 by lia. }
    assert ((λ value, go_copy (replicate (length value) ""%string) value) <$> Groups c = Groups c) as ->.
    { rewrite <-(map_fmap_id (Groups c)) at 2. apply map_fmap_ext. intros g v _. unfold id.
      apply go_copy_same_length. by rewrite length_replicate. }
    by destruct c.
Qed.

Lemma lastConfig_spec sc :
  scWf sc → ∃ c, getLastConfig sc = Some c ∧ copyLastConfig sc = Some c ∧
    Num c = len (configs sc) - 1 ∧ configWf c ∧ last (configs sc) = Some c.
Proof.
  intros [Hne Hc]. destruct (configs sc) as [|c0 cs] eqn:Hcs; [done|].
  destruct (go_index_lt_Some (configs sc) (len (configs sc) - 1)) as [c Hlast].
  { rewrite Hcs, len_cons. pose proof (len_nonneg cs). lia. }
  exists c. unfold getLastConfig, copyLastConfig, getLastConfig. rewrite Hcs in *.
  assert (0 < len (c0 :: cs)) by (rewrite len_cons; pose proof (len_nonneg cs); lia).
  pose proof Hlast as Hl'. rewrite go_index_nonneg in Hl' by lia.
  destruct (Hc _ _ Hl') as [Hn Hw]. rewrite Hlast; simpl. split_and!; try done.
  - by apply cloneConfig_id.
  - lia.
  - rewrite last_lookup, <-Hl'. f_equal. unfold len; simpl. lia.
Qed.

Lemma scWf_snoc sc c :
  scWf sc → Num c = len (configs sc) → configWf c → scWf (set_configs (configs sc ++ [c]) sc).
Proof.
  intros [Hne Hc] Hn Hw. split; simpl.
  - by destruct (configs sc).
  - intros i c' [?|[Hge Hi]]%lookup_app_Some; [by apply Hc|].
    apply list_lookup_singleton_Some in Hi as [Hi <-]. split; [|done]. unfold len in Hn. lia.
Qed.

(** ** The operations *)
Section deal.
Context (ord : nat → shardMap → list (Z * list Z)) (Hord : iteration ord).

Lemma balance_wf shards groups :
  length shards = NShards → (∀ g, g ∈ shards → 0 ≤ g) → (∀ g, is_Some (groups !! g) → 0 < g) →
  ∃ shards', balance ord shards groups = Some shards' ∧ length shards' = NShards ∧
    (∀ g, g ∈ shards' → 0 ≤ g) ∧
    ((∀ g, ¬ active shards groups g) → shards' = shards) ∧
    ((∃ g, active shards groups g) →
       (∀ g, g ∈ shards' → active shards groups g) ∧
       ∀ g1 g2, active shards groups g1 → active shards groups g2 →
         owned shards' g1 ≤ owned shards' g2 + 1).
Proof using Hord.
  intros Hl Hs Hg.
  destruct (balance_spec ord shards groups Hord) as (sh & Hb & Hlen & Hno & Hyes); [|done|].
  { split; [intros g ?%Hs; lia|]. destruct (groups !! (-1)) eqn:H; [|done].
    assert (0 < -1) by (apply Hg; by eexists). lia. }
  exists sh. split_and!; try done. intros g Hin.
  assert (active shards groups g → 0 ≤ g) as Hpos by (intros [_ [?|?%Hg]]; [auto|lia]).
  destruct (active_dec shards groups) as [He|He].
  - by apply Hpos, Hyes.
  - rewrite Hno in Hin; auto.
Qed.

Lemma dealJoin_spec sc servers :
  scWf sc → (∀ g, is_Some (servers !! g) → 0 < g) →
  ∃ c shards', last (configs sc) = Some c ∧ configWf c ∧
    balance ord (Shards c) servers = Some shards' ∧
    let c' := mkConfig (len (configs sc)) shards' (servers ∪ Groups c) in
    dealJoin ord sc servers = Some (set_configs (configs sc ++ [c']) sc) ∧ configWf c'.
Proof using Hord.
  intros Hsc Hs. destruct (lastConfig_spec sc Hsc) as (c & Hl & Hcp & Hn & Hw & Hlast).
  destruct (balance_wf (Shards c) servers) as (sh & Hb & Hlen & Hpos & _); [apply Hw..|done|].
  exists c, sh. cbv zeta. split_and!; try done.
  - unfold dealJoin. rewrite Hl, Hcp. cbv [mbind option_bind]. rewrite Hb.
    by replace (Num c + 1) with (len (configs sc)) by lia.
  - split; [done..|]. simpl. intros g. rewrite lookup_union_is_Some. intros [?|?]; [auto|].
    by apply (cw_groups _ Hw).
Qed.

Lemma foldl_delete_lookup (gids : list Z) (groups : gmap Z (list string)) g :
  foldl (λ g gid, delete gid g) groups gids !! g = if bool_decide (g ∈ gids) then None else groups !! g.
Proof using.
  clear ord Hord.
  revert groups; induction gids as [|x gids IH]; intros groups; [done|]. simpl. rewrite IH.
  repeat case_bool_decide; set_unfold; try tauto.
  - destruct H0; [subst|tauto]. apply lookup_delete_eq.
  - rewrite lookup_delete_ne; [done|]. intros ->; tauto.
Qed.

(** The shards and groups that are left when [gids] leave. *)
Definition withoutShards (c : Config) (gids : list Z) : list Z :=
  map (λ gid, if bool_decide (gid ∈ gids) then 0 else gid) (Shards c).
Definition withoutGroups (c : Config) (gids : list Z) : gmap Z (list string) :=
  foldl (λ g gid, delete gid g) (Groups c) gids.

Lemma dealLeave_spec sc gids :
  scWf sc →
  ∃ c shards', last (configs sc) = Some c ∧ configWf c ∧
    balance ord (withoutShards c gids) (withoutGroups c gids) = Some shards' ∧
    let c' := mkConfig (len (configs sc)) shards' (withoutGroups c gids) in
    dealLeave ord sc gids = Some (set_configs (configs sc ++ [c']) sc) ∧ configWf c'.
Proof using Hord.
  intros Hsc. destruct (lastConfig_spec sc Hsc) as (c & Hl & Hcp & Hn & Hw & Hlast).
  assert (∀ g, is_Some (withoutGroups c gids !! g) → 0 < g) as Hg.
  { intros g. unfold withoutGroups. rewrite foldl_delete_lookup.
    case_bool_decide; [by intros [? ?]|apply (cw_groups _ Hw)]. }
  destruct (balance_wf (withoutShards c gids) (withoutGroups c gids)) as (sh & Hb & Hlen & Hpos & _).
  { unfold withoutShards. rewrite length_map. apply Hw. }
  { intros g. unfold withoutShards. rewrite list_elem_of_fmap. intros (x & -> & Hx).
    case_bool_decide; [done|by apply (cw_owners _ Hw)]. }
  { done. }
  exists c, sh. cbv zeta. split_and!; try done.
  unfold dealLeave. rewrite Hl, Hcp. cbv [mbind option_bind].
  fold (withoutShards c gids) (withoutGroups c gids). rewrite Hb.
  by replace (Num c + 1) with (len (configs sc)) by lia.
Qed.

Lemma dealMove_spec sc shard gid :
  scWf sc → 0 ≤ shard < Z.of_nat NShards → 0 ≤ gid →
  ∃ c, last (configs sc) = Some c ∧ configWf c ∧
    let c' := mkConfig (len (configs sc)) (<[Z.to_nat shard := gid]> (Shards c)) (Groups c) in
    dealMove sc shard gid = Some (set_configs (configs sc ++ [c']) sc) ∧ configWf c'.
Proof using.
  clear ord Hord.
  intros Hsc Hs Hg. destruct (lastConfig_spec sc Hsc) as (c & Hl & Hcp & Hn & Hw & Hlast).
  exists c. cbv zeta. split_and!; try done.
  - unfold dealMove. rewrite Hl, Hcp; simpl.
    rewrite go_store_Some by (unfold len; rewrite (cw_shards _ Hw); lia); simpl.
    by replace (Num c + 1) with (len (configs sc)) by lia.
  - split; simpl; [by rewrite length_insert; apply Hw| |apply Hw].
    intros g [i Hi]%list_elem_of_lookup. apply list_lookup_insert_Some in Hi as [(_ & <- & _)|[_ Hi]]; [done|].
    apply (cw_owners _ Hw). by eapply list_elem_of_lookup_2.
Qed.

(** A query returns the configuration with the number asked for, and the newest one
    for -1 and for numbers that do not exist yet. *)
Theorem query_returns sc num :
  scWf sc → -1 ≤ num →
  ∃ c, dealQuery sc num = Some c ∧ c ∈ configs sc ∧
    Num c = if (num =? -1) || (len (configs sc) <=? num) then len (configs sc) - 1 else num.
Proof using.
  clear ord Hord.
  intros Hsc Hn. destruct (lastConfig_spec sc Hsc) as (c & Hl & Hcp & Hnum & Hw & Hlast).
  unfold dealQuery. rewrite Z.geb_leb. case_if.
  - exists c. split_and!; try done. apply last_Some in Hlast as [l ->]. apply elem_of_app; right. by left.
  - destruct (go_index_lt_Some (configs sc) num) as [c' Hc']; [lia|].
    unfold copyConfig. rewrite Hc'; simpl. rewrite go_index_nonneg in Hc' by lia.
    destruct (sw_configs _ Hsc _ _ Hc') as [Hn' Hw']. exists c'. split_and!.
    + by apply cloneConfig_id.
    + by eapply list_elem_of_lookup_2.
    + lia.
Qed.
End deal.

(** ** The service *)
Lemma set_context_wf sc cs ctx : scWf sc → cs = configs sc → scWf (mkSC cs ctx).
Proof. intros [? ?] ->. by split. Qed.

(** One command: no panic, and the history of configurations is extended. *)
Lemma applyCommand_total ord sc op :
  iteration ord → scWf sc → opOk op →
  ∃ sc' a, applyCommand ord sc op = Some (sc', a) ∧ scWf sc' ∧ configs sc `prefix_of` configs sc'.
Proof.
  intros Ho Hsc Hop. unfold applyCommand.
  match goal with |- context [mbind ?k ?x] =>
    assert (∃ sc1 a, x = Some (sc1, a) ∧ scWf sc1 ∧ configs sc `prefix_of` configs sc1)
      as (sc1 & a & Heq & Hw1 & Hp1) end.
  { unfold opOk in Hop. case_if; [by eauto|].
    destruct (op_Op op =? Query)%string eqn:Hq; simpl.
    - apply String.eqb_eq in Hq. rewrite Hq in Hop; simpl in Hop.
      assert (∃ c, dealQuery sc (op_Num op) = Some c) as [c ->]; [|simpl; eauto].
      destruct (lastConfig_spec sc Hsc) as (c & _ & Hcp & _ & _ & _). unfold dealQuery.
      case_if; [by eauto|].
      destruct (go_index_lt_Some (configs sc) (op_Num op)) as [c' Hc']; [lia|].
      unfold copyConfig. rewrite Hc'; simpl. rewrite go_index_nonneg in Hc' by lia.
      exists c'. apply cloneConfig_id. by destruct (sw_configs _ Hsc _ _ Hc').
    - case_if.
      { destruct (dealJoin_spec ord Ho sc (Servers op) Hsc Hop) as (c & sh & _ & _ & _ & Hd & Hw).
        rewrite Hd; simpl. eexists _, _; split_and!; [reflexivity|by apply scWf_snoc|by apply prefix_app_r]. }
      case_if.
      { destruct (dealLeave_spec ord Ho sc (GIDs op) Hsc) as (c & sh & _ & _ & _ & Hd & Hw).
        rewrite Hd; simpl. eexists _, _; split_and!; [reflexivity|by apply scWf_snoc|by apply prefix_app_r]. }
      case_if; [|by eauto].
      destruct Hop as [Hs Hg].
      destruct (dealMove_spec sc (Shard op) (GID op) Hsc Hs Hg) as (c & _ & _ & Hd & Hw).
      rewrite Hd; simpl. eexists _, _; split_and!; [reflexivity|by apply scWf_snoc|by apply prefix_app_r]. }
  rewrite Heq; simpl. eexists _, _; split; [reflexivity|].
  case_if; [|done]. split; [by eapply set_context_wf|done].
Qed.

Lemma applyCommand_order ord ord' sc op :
  iteration ord → iteration ord' → scWf sc → opOk op →
  applyCommand ord sc op = applyCommand ord' sc op.
Proof.
  intros Ho Ho' Hsc Hop. unfold applyCommand, opOk in *.
  assert ((op_Op op =? Join)%string = true → dealJoin ord sc (Servers op) = dealJoin ord' sc (Servers op)) as HJ.
  { intros Hj. rewrite Hj in Hop.
    destruct (dealJoin_spec ord Ho sc _ Hsc Hop) as (c & sh & Hl & _ & Hb & -> & _).
    destruct (dealJoin_spec ord' Ho' sc _ Hsc Hop) as (c' & sh' & Hl' & Hw & Hb' & -> & _).
    rewrite Hl in Hl'. injection Hl' as <-. rewrite (balance_order ord ord') in Hb; [congruence|done..|].
    split; [intros g ?%(cw_owners _ Hw); lia|]. destruct (Servers op !! (-1)) eqn:H; [|done].
    assert (0 < -1) by (apply Hop; by eexists). lia. }
  assert (dealLeave ord sc (GIDs op) = dealLeave ord' sc (GIDs op)) as HL.
  { destruct (dealLeave_spec ord Ho sc (GIDs op) Hsc) as (c & sh & Hl & _ & Hb & -> & _).
    destruct (dealLeave_spec ord' Ho' sc (GIDs op) Hsc) as (c' & sh' & Hl' & Hw & Hb' & -> & Hw').
    rewrite Hl in Hl'. injection Hl' as <-. rewrite (balance_order ord ord') in Hb; [congruence|done..|].
    split.
    - unfold withoutShards. intros g. rewrite list_elem_of_fmap. intros (x & -> & Hx).
      case_bool_decide; [done|]. apply (cw_owners _ Hw) in Hx. lia.
    - destruct (withoutGroups c (GIDs op) !! (-1)) eqn:H; [|done].
      assert (0 < -1) by (apply (cw_groups _ Hw'); by eexists). lia. }
  rewrite HL. destruct (op_Op op =? Join)%string eqn:Hj; [rewrite HJ by done|]; done.
Qed.

(** A replica that applies a log; [ords k] are the orders of its ranges in command [k]. *)
Fixpoint replay (ords : nat → nat → shardMap → list (Z * list Z)) (k : nat) (sc : ShardCtrler)
    (ops : list Op) : option (ShardCtrler * list Answer) :=
  match ops with
  | [] => Some (sc, [])
  | op :: ops =>
      '(sc, a) ← applyCommand (ords k) sc op;
      '(sc, answers) ← replay ords (S k) sc ops; Some (sc, a :: answers)
  end.

Lemma initSC_wf : scWf initSC.
Proof.
  split; [done|]. intros i c Hi. apply list_lookup_singleton_Some in Hi as [-> <-].
  split; [done|]. split; [done| |].
  - intros g Hg. by apply elem_of_replicate in Hg as [-> _].
  - intros g [x Hx]. done.
Qed.

Lemma replay_total ords ords' ops : ∀ k sc,
  (∀ j, iteration (ords j)) → (∀ j, iteration (ords' j)) → scWf sc → Forall opOk ops →
  ∃ sc' answers, replay ords k sc ops = Some (sc', answers) ∧
    replay ords' k sc ops = Some (sc', answers) ∧ scWf sc' ∧ configs sc `prefix_of` configs sc'.
Proof.
  induction ops as [|op ops IH]; intros k sc Ho Ho' Hsc Hops; simpl; [by eauto 10|].
  apply Forall_cons in Hops as [Hop Hops].
  destruct (applyCommand_total (ords k) sc op (Ho k) Hsc Hop) as (sc1 & a & Heq & Hw1 & Hp1).
  rewrite (applyCommand_order (ords' k) (ords k)) by done. rewrite Heq; simpl.
  destruct (IH (S k) sc1 Ho Ho' Hw1 Hops) as (sc2 & answers & -> & -> & Hw2 & Hp2); simpl.
  eexists _, _; split_and!; [reflexivity..|done|by etransitivity].
Qed.

(** C15: agreement of the replicas. Two replicas that apply the same log, each ranging over its
    maps in orders of its own, neither panic nor differ, if the commands of the log are in range
    ([opOk]: the groups of a Join have positive numbers, a Move names one of the ten shards and
    no negative group, a Query asks for -1 or more): they reach the same configurations and give
    the same answers; configuration [i] has number [i] and ten shards, and no configuration is
    ever changed. *)
Theorem replicas_agree ords ords' ops more :
  (∀ j, iteration (ords j)) → (∀ j, iteration (ords' j)) → Forall opOk (ops ++ more) →
  ∃ sc answers, replay ords 0 initSC ops = Some (sc, answers) ∧
    replay ords' 0 initSC ops = Some (sc, answers) ∧
    (∀ (i : nat) c, configs sc !! i = Some c → Num c = Z.of_nat i ∧ length (Shards c) = NShards) ∧
    ∃ sc' answers', replay ords (length ops) sc more = Some (sc', answers') ∧
      configs sc `prefix_of` configs sc'.
Proof.
  intros Ho Ho' [Hops Hmore]%Forall_app.
  destruct (replay_total ords ords' ops 0 initSC Ho Ho' initSC_wf Hops) as (sc & an & H1 & H2 & Hw & _).
  exists sc, an. split_and!; try done.
  - intros i c Hi. destruct (sw_configs _ Hw _ _ Hi) as [? [? _ _]]. done.
  - destruct (replay_total ords ords more (length ops) sc Ho Ho Hw Hmore) as (sc' & an' & H3 & _ & _ & Hp).
    eauto.
Qed.

(** ** Even distribution *)

(** Shards belong to groups of the configuration, or to nobody. *)
Definition ownersKnown (c : Config) : Prop :=
  ∀ g, g ∈ Shards c → g = 0 ∨ is_Some (Groups c !! g).

(** Every shard has an owner among the groups, and no two groups differ by more than one. *)
Definition balanced (c : Config) : Prop :=
  (∀ g, g ∈ Shards c → is_Some (Groups c !! g)) ∧
  ∀ g1 g2, is_Some (Groups c !! g1) → is_Some (Groups c !! g2) →
    owned (Shards c) g1 ≤ owned (Shards c) g2 + 1.

(** C16: Join. In a well-formed history of configurations ([scWf]) let every shard of the last configuration belong to one of its groups or to nobody
    ([ownersKnown]), let at least one group join, with positive numbers, and let every group that
    is already there and does not join again own a shard. Then the new configuration has the
    joining groups added, every shard belongs to one of its groups, and no group has more than
    one shard more than another. *)
Theorem join_balances ord sc servers c :
  iteration ord → scWf sc → last (configs sc) = Some c → ownersKnown c →
  (∀ g, is_Some (servers !! g) → 0 < g) → servers ≠ ∅ →
  (∀ g, is_Some (Groups c !! g) → g ∈ Shards c ∨ is_Some (servers !! g)) →
  ∃ c', dealJoin ord sc servers = Some (set_configs (configs sc ++ [c']) sc) ∧
    Groups c' = servers ∪ Groups c ∧ Num c' = Num c + 1 ∧ balanced c'.
Proof.
  intros Ho Hsc Hc Hk Hpos Hne Hown.
  destruct (dealJoin_spec ord Ho sc servers Hsc Hpos) as (c0 & sh & Hl & Hw & Hb & Hd & Hw').
  rewrite Hc in Hl. injection Hl as <-.
  destruct (lastConfig_spec sc Hsc) as (c0 & _ & _ & Hn & _ & Hl). rewrite Hc in Hl; injection Hl as <-.
  eexists; split_and!; [exact Hd|done|simpl; lia|].
  destruct (balance_wf ord Ho (Shards c) servers) as (sh' & Hb' & _ & _ & _ & Hyes); [apply Hw..|done|].
  rewrite Hb in Hb'. injection Hb' as <-.
  apply map_choose in Hne as (g0 & v0 & Hg0).
  assert (active (Shards c) servers g0) as Ha0.
  { assert (0 < g0) by (apply Hpos; by eexists). split; [lia|right; by eexists]. }
  destruct Hyes as [Hin Hsp]; [by eexists|]. unfold balanced; simpl. split.
  - intros g [Hg0' [Hs|Hs]]%Hin; rewrite lookup_union_is_Some; [right|by left].
    by destruct (Hk _ Hs).
  - assert (∀ g, is_Some ((servers ∪ Groups c) !! g) → active (Shards c) servers g) as Hact.
    { intros g Hg. split.
      - apply lookup_union_is_Some in Hg as [?%Hpos|?%(cw_groups _ Hw)]; lia.
      - apply lookup_union_is_Some in Hg as [?|?]; [by right|auto]. }
    intros g1 g2 ?%Hact ?%Hact. by apply Hsp.
Qed.

(** C17: Leave. In a well-formed history of configurations ([scWf]) let every shard of the last configuration belong to one of its groups or to
    nobody ([ownersKnown]). The groups that leave own nothing afterwards; if groups remain, all
    shards are spread evenly over them, whatever the distribution was before; if none remain, no
    shard has an owner. *)
Theorem leave_balances ord sc gids c :
  iteration ord → scWf sc → last (configs sc) = Some c → ownersKnown c →
  ∃ c', dealLeave ord sc gids = Some (set_configs (configs sc ++ [c']) sc) ∧
    Num c' = Num c + 1 ∧
    (∀ g, Groups c' !! g = if bool_decide (g ∈ gids) then None else Groups c !! g) ∧
    (if decide (Groups c' = ∅) then ∀ g, g ∈ Shards c' → g = 0 else balanced c').
Proof.
  intros Ho Hsc Hc Hk.
  destruct (dealLeave_spec ord Ho sc gids Hsc) as (c0 & sh & Hl & Hw & Hb & Hd & Hw').
  rewrite Hc in Hl. injection Hl as <-.
  destruct (lastConfig_spec sc Hsc) as (c0 & _ & _ & Hn & _ & Hl). rewrite Hc in Hl; injection Hl as <-.
  assert (∀ g, withoutGroups c gids !! g = if bool_decide (g ∈ gids) then None else Groups c !! g) as Hgr
    by (intros g; apply foldl_delete_lookup).
  eexists; split_and!; [exact Hd|simpl; lia|done|]. simpl.
  assert (length (withoutShards c gids) = NShards) as Hlen.
  { unfold withoutShards. rewrite length_map. apply Hw. }
  assert (∀ g, g ∈ withoutShards c gids → g = 0 ∨ is_Some (withoutGroups c gids !! g)) as Hk'.
  { intros g. unfold withoutShards. rewrite list_elem_of_fmap. intros (x & -> & Hx).
    case_bool_decide as Hin; [by left|]. rewrite Hgr, bool_decide_false by done. by apply Hk. }
  destruct (balance_wf ord Ho (withoutShards c gids) (withoutGroups c gids))
    as (sh' & Hb' & Hlen' & _ & Hno & Hyes).
  { done. }
  { intros g [->|Hg]%Hk'; [done|]. apply (cw_groups _ Hw') in Hg. lia. }
  { apply (cw_groups _ Hw'). }
  rewrite Hb in Hb'. injection Hb' as <-. case_decide as He.
  - assert (∀ g, g ∈ withoutShards c gids → g = 0) as Hz.
    { intros g [?|[v Hg]]%Hk'; [done|]. by rewrite He in Hg. }
    rewrite Hno; [done|]. intros g [Hg [?%Hz|[v Hv]]]; [done|]. by rewrite He in Hv.
  - apply map_choose in He as (g0 & v0 & Hg0).
    assert (∀ g, is_Some (withoutGroups c gids !! g) →
                 active (withoutShards c gids) (withoutGroups c gids) g) as Hact.
    { intros g Hg. split; [|by right]. apply (cw_groups _ Hw') in Hg. simpl in Hg. lia. }
    destruct Hyes as [Hin Hsp]; [exists g0; apply Hact; by eexists|]. split; simpl.
    + intros g [Hg [Hs|Hs]]%Hin; [|done]. by destruct (Hk' _ Hs).
    + intros g1 g2 ?%Hact ?%Hact. by apply Hsp.
Qed.

(** A request that was applied has no second effect: Join, Leave and Move applied
    again leave the controller as it is and are acknowledged. *)
Theorem ctrl_duplicate ord ord' sc op sc' a :
  op_Op op ≠ Query → 0 < RequestId op →
  applyCommand ord sc op = Some (sc', a) →
  applyCommand ord' sc' op = Some (sc', mkAnswer false OK zero_Config).
Proof.
  intros Hq Hp H. unfold applyCommand in H. apply bind_Some in H as ([sc1 a1] & _ & [= <- <-]).
  set (last := from_option requestId 0 (lastRequestContext sc1 !! UId op)).
  set (sc2 := if last <? RequestId op then _ else sc1).
  assert (∃ ctx, lastRequestContext sc2 !! UId op = Some ctx ∧ RequestId op ≤ requestId ctx)
    as (ctx & Hctx & Hle).
  { unfold sc2. case_if; simpl.
    - rewrite lookup_insert_eq. eexists; split; [done|simpl; lia].
    - unfold last in Hif. destruct (lastRequestContext sc1 !! UId op) as [c|]; simpl in Hif; [|lia].
      eauto. }
  unfold applyCommand, answered. rewrite Hctx, (proj2 (String.eqb_neq _ _) Hq).
  assert ((requestId ctx >=? RequestId op) = true) as -> by (rewrite Z.geb_leb; lia). simpl.
  rewrite Hctx; simpl. rewrite (proj2 (Z.ltb_ge _ _)) by done. done.
Qed.
