(* ===== verification/ShardTypes.v ===== *)
(** The type of a shard controller's history: every configuration that any log of commands
    leads to carries its number, ten shards, and owners that are groups of the configuration. *)
From S2P Require Import Prelude Labgob Persister Raft RaftNode RequestServer ShardCtrler ShardBalance ShardProps.
#[local] Open Scope Z_scope.
Import SC.

(** A configuration that stands at place [i]. *)
Definition configTyped (i : nat) (c : Config) : Prop :=
  Num c = Z.of_nat i ∧ length (Shards c) = NShards ∧ ownersKnown c ∧ ∀ g, is_Some (Groups c !! g) → 0 < g.

Definition historyTyped (sc : ShardCtrler) : Prop :=
  scWf sc ∧ ∀ i c, configs sc !! i = Some c → ownersKnown c.

Lemma historyTyped_config sc i c : historyTyped sc → configs sc !! i = Some c → configTyped i c.
Proof. intros [Hw Hk] Hi. destruct (sw_configs _ Hw _ _ Hi) as [? []]. split_and!; eauto. Qed.

Lemma historyTyped_snoc sc c :
  historyTyped sc → scWf (set_configs (configs sc ++ [c]) sc) → ownersKnown c →
  historyTyped (set_configs (configs sc ++ [c]) sc).
Proof.
  intros [_ Hk] Hw Hc. split; [done|]. simpl. intros i c' [?|[_ Hi]]%lookup_app_Some; [by eapply Hk|].
  by apply list_lookup_singleton_Some in Hi as [_ <-].
Qed.

Lemma historyTyped_last sc c : historyTyped sc → last (configs sc) = Some c → ownersKnown c.
Proof. intros [_ Hk]. rewrite last_lookup. apply Hk. Qed.

(** Rebalancing gives shards only to owners and groups it was told of. *)
Lemma balance_owners ord shards groups shards' (known : Z → Prop) :
  iteration ord → length shards = NShards → (∀ g, g ∈ shards → 0 ≤ g ∧ (g = 0 ∨ known g)) →
  (∀ g, is_Some (groups !! g) → 0 < g ∧ known g) → balance ord shards groups = Some shards' →
  ∀ g, g ∈ shards' → g = 0 ∨ known g.
Proof.
  intros Ho Hl Hs Hg Hb.
  destruct (balance_wf ord Ho shards groups Hl) as (sh & Hb' & _ & _ & Hno & Hyes);
    [intros g Hin; by apply Hs|intros g Hin; by apply Hg|].
  rewrite Hb in Hb'. injection Hb' as <-. intros g Hin.
  destruct (active_dec shards groups) as [He|He].
  - destruct (Hyes He) as [Hin' _]. destruct (Hin' g Hin) as [_ [?%Hs|?%Hg]]; tauto.
  - rewrite Hno in Hin by done. by apply Hs.
Qed.

(** ** The operations *)
Section operations.
Context (ord : nat → shardMap → list (Z * list Z)) (Hord : iteration ord).

Lemma dealJoin_typed sc servers :
  historyTyped sc → (∀ g, is_Some (servers !! g) → 0 < g) → ∃ sc', dealJoin ord sc servers = Some sc' ∧ historyTyped sc'.
Proof using Hord.
  intros Ht Hs. pose proof Ht as [Hsc _].
  destruct (dealJoin_spec ord Hord sc servers Hsc Hs) as (c & sh & Hl & Hw & Hb & Hd & Hw').
  eexists. split; [exact Hd|]. apply historyTyped_snoc; [done|by apply scWf_snoc|].
  pose proof (historyTyped_last _ _ Ht Hl) as Hk. intros g Hin.
  apply (balance_owners ord (Shards c) servers sh (λ g, is_Some ((servers ∪ Groups c) !! g))); try done.
  - apply Hw.
  - intros g' Hg'. split; [by apply Hw|]. rewrite lookup_union_is_Some. destruct (Hk _ Hg'); auto.
  - intros g' Hg'. rewrite lookup_union_is_Some. auto.
Qed.

Lemma dealLeave_typed sc gids : historyTyped sc → ∃ sc', dealLeave ord sc gids = Some sc' ∧ historyTyped sc'.
Proof using Hord.
  intros Ht. pose proof Ht as [Hsc _].
  destruct (dealLeave_spec ord Hord sc gids Hsc) as (c & sh & Hl & Hw & Hb & Hd & Hw').
  eexists. split; [exact Hd|]. apply historyTyped_snoc; [done|by apply scWf_snoc|].
  pose proof (historyTyped_last _ _ Ht Hl) as Hk. intros g Hin.
  apply (balance_owners ord (withoutShards c gids) (withoutGroups c gids) sh
    (λ g, is_Some (withoutGroups c gids !! g))); try done.
  - unfold withoutShards. rewrite length_map. apply Hw.
  - intros g'. unfold withoutShards. rewrite list_elem_of_fmap. intros (x & -> & Hx).
    case_bool_decide as Hx'; [by split; [|left]|]. split; [by apply Hw|].
    unfold withoutGroups. rewrite foldl_delete_lookup, bool_decide_false by done. by apply Hk.
  - intros g' Hg'. split; [by apply (cw_groups _ Hw')|done].
Qed.
End operations.

Lemma dealMove_typed sc shard gid c :
  historyTyped sc → 0 ≤ shard < Z.of_nat NShards → 0 ≤ gid → last (configs sc) = Some c →
  gid = 0 ∨ is_Some (Groups c !! gid) → ∃ sc', dealMove sc shard gid = Some sc' ∧ historyTyped sc'.
Proof.
  intros Ht Hs Hg Hc Hgid. pose proof Ht as [Hsc _].
  destruct (dealMove_spec sc shard gid Hsc Hs Hg) as (c' & Hl & Hw & Hd & Hw').
  rewrite Hc in Hl. injection Hl as <-.
  eexists. split; [exact Hd|]. apply historyTyped_snoc; [done|by apply scWf_snoc|].
  pose proof (historyTyped_last _ _ Ht Hc) as Hk. simpl.
  intros g [i Hi]%list_elem_of_lookup. apply list_lookup_insert_Some in Hi as [(_ & <- & _)|[_ Hi]]; [done|].
  by eapply Hk, list_elem_of_lookup_2.
Qed.

(** A Move names a group of the configuration it applies to, or no group. *)
Definition moveKnown (sc : ShardCtrler) (op : Op) : Prop :=
  op_Op op = Move → ∀ c, last (configs sc) = Some c → GID op = 0 ∨ is_Some (Groups c !! GID op).

Lemma applyCommand_typed ord sc op :
  iteration ord → historyTyped sc → opOk op → moveKnown sc op →
  ∃ sc' a, applyCommand ord sc op = Some (sc', a) ∧ historyTyped sc'.
Proof.
  intros Ho Ht Hop Hmove. pose proof Ht as [Hsc _].
  destruct (applyCommand_total ord sc op Ho Hsc Hop) as (sc' & a & Happ & Hw' & _).
  exists sc', a. split; [done|]. split; [done|]. unfold applyCommand in Happ.
  apply bind_Some in Happ as ([sc1 a1] & Hdeal & [= <- <-]).
  assert (historyTyped sc1) as [_ Hk]; [|by case_if].
  unfold opOk in Hop. case_if_in Hdeal; [by injection Hdeal as <- _|]. case_if_in Hdeal.
  2:{ by apply bind_Some in Hdeal as (c & _ & [= <- _]). }
  case_if_in Hdeal.
  { destruct (dealJoin_typed ord Ho sc (Servers op) Ht Hop) as (sc2 & Hd & Ht2).
    rewrite Hd in Hdeal. by injection Hdeal as <- _. }
  case_if_in Hdeal.
  { destruct (dealLeave_typed ord Ho sc (GIDs op) Ht) as (sc2 & Hd & Ht2).
    rewrite Hd in Hdeal. by injection Hdeal as <- _. }
  case_if_in Hdeal; [|by injection Hdeal as <- _].
  destruct (lastConfig_spec sc Hsc) as (c & _ & _ & _ & _ & Hc).
  destruct Hop as [Hs Hg].
  destruct (dealMove_typed sc (Shard op) (GID op) c Ht Hs Hg Hc) as (sc2 & Hd & Ht2).
  - apply Hmove; [by apply String.eqb_eq|done].
  - rewrite Hd in Hdeal. by injection Hdeal as <- _.
Qed.

(** Commands of a client that moves shards only to groups there are. *)
Fixpoint movesKnown (ords : nat → nat → shardMap → list (Z * list Z)) (k : nat) (sc : ShardCtrler)
    (ops : list Op) : Prop :=
  match ops with
  | [] => True
  | op :: ops => moveKnown sc op ∧
      match applyCommand (ords k) sc op with
      | Some (sc', _) => movesKnown ords (S k) sc' ops
      | None => True
      end
  end.

#[global] Instance moveKnown_dec sc op : Decision (moveKnown sc op).
Proof.
  unfold moveKnown. destruct (decide (op_Op op = Move)) as [E|E]; [|left; by intros].
  destruct (last (configs sc)) as [c|]; [|left; by intros].
  destruct (decide (GID op = 0 ∨ is_Some (Groups c !! GID op))) as [H|H]; [left; by intros _ ? [= <-]|right].
  intros Hm. by apply H, Hm.
Defined.

#[global] Instance movesKnown_dec ords k sc ops : Decision (movesKnown ords k sc ops).
Proof.
  revert k sc. induction ops as [|op ops IH]; intros k sc; simpl; [apply _|].
  destruct (applyCommand (ords k) sc op) as [[sc' a]|]; apply _.
Defined.

Lemma replay_typed ords ops : ∀ k sc,
  (∀ j, iteration (ords j)) → historyTyped sc → Forall opOk ops → movesKnown ords k sc ops →
  ∃ sc' answers, replay ords k sc ops = Some (sc', answers) ∧ historyTyped sc'.
Proof.
  induction ops as [|op ops IH]; intros k sc Ho Ht Hok Hops; simpl in *; [by eauto|].
  destruct Hops as (Hm & Hops). apply Forall_cons in Hok as [Hop Hok].
  destruct (applyCommand_typed (ords k) sc op (Ho k) Ht Hop Hm) as (sc1 & a & Ha & Ht1). rewrite Ha in *; simpl.
  destruct (IH (S k) sc1 Ho Ht1 Hok Hops) as (sc2 & an & -> & Ht2). simpl. eauto.
Qed.

(** C34: the type of the history. Let the commands of a log be in range ([opOk]) and let each
    Move name a group there is at that time, or none ([movesKnown]). Then the controller, each
    range over a map running in any order, does not stop, and every configuration it has made is
    well typed: it carries its place as number, has ten shards, every shard belongs to a group of
    that same configuration or to nobody, and groups have positive numbers. *)
Theorem configs_typed ords ops :
  (∀ j, iteration (ords j)) → Forall opOk ops → movesKnown ords 0 initSC ops →
  ∃ sc answers, replay ords 0 initSC ops = Some (sc, answers) ∧
    ∀ i c, configs sc !! i = Some c → configTyped i c.
Proof.
  intros Ho Hok Hops. destruct (replay_typed ords ops 0 initSC Ho) as (sc & an & Hr & Ht); [|done..|].
  - split; [apply initSC_wf|]. intros i c Hi g Hg. apply list_lookup_singleton_Some in Hi as [_ <-].
    left. by apply elem_of_replicate in Hg as [-> _].
  - exists sc, an. split; [done|]. intros i c. by apply historyTyped_config.
Qed.
