(* ===== verification/Replicated.v ===== *)
(** The replicated services: the cluster of [RaftCluster] with a server of [RequestServer] on
    each of its peers.

    [updateApplied] of a peer hands its batch to the server one message at a time
    ([r_queues]); the goroutines of [InstallSnapshot] offer their snapshots on the same
    channel at any time, also between the messages of a batch.  The server takes them in
    [fetchApply], applies them, answers its handlers, and takes snapshots of its state with
    [Snapshot].  A crash loses everything but what is stored; the new server starts from the
    stored snapshot.

    The theorem: all servers follow one log.  At every moment the state of every server is
    what the first commands of one sequence make of the initial state, and every answer is
    that of the sequential service; the sequence only grows.  The proof keeps, for every
    server, the commands that made its state, all of them chosen by the cluster
    ([serverOk]), and that every snapshot, stored, on its way or offered, is the state after
    the commands it stands for ([bytesAt]). *)
From S2P Require Import Prelude Labgob Persister Raft RaftLog RaftNode RaftProps RaftService RaftElection.
From S2P Require Import RaftCluster RaftMatching RaftCommit RaftSafety RaftApply RequestServer.
#[local] Open Scope Z_scope.

(** What a service adds to [Service] to be replicated: its state before any command, whether it
    takes snapshots, and how it reads and writes them. *)
Class Replicates (St Req Op Ans : Type) `{!Service St Req Op Ans} := {
  rep_init : St;
  rep_snapshots : bool;
  rep_load : list byte → St → St;
  rep_save : St → list byte;
}.

(** The sequential service. *)
Fixpoint svcRun {St Req Op Ans : Type} `{!Service St Req Op Ans} (s0 : St) (ops : list Op) : option St :=
  match ops with
  | [] => Some s0
  | op :: ops => '(s1, _) ← svc_apply s0 op; svcRun s1 ops
  end.

(** What the cluster relies on: [fetchApply] uses Raft only through [Snapshot] and
    [CondInstallSnapshot], a snapshot is read back as it was written, and a command that is
    applied again later, as happens after a snapshot was installed, changes nothing.  A
    service that takes no snapshots may ignore them. *)
Class ReplicatedLaws (St Req Op Ans : Type) `{!Gob Z, !Gob (list (Log Op)), !Service St Req Op Ans, !Replicates St Req Op Ans} := {
  rep_load_nil : rep_load [] rep_init = rep_init;
  rep_after (p p' : Raft Op) (s0 : St) i : svc_after p s0 i = Some p' →
    p' = p ∨
    (rep_snapshots = true ∧ Snapshot p i (rep_save s0) = Some p' ∧ ∀ s1, rep_load (rep_save s0) s1 = s0);
  rep_install (p p' : Raft Op) (s0 s1 : St) msg : svc_install p s0 msg = Some (p', s1) →
    (p' = p ∧ s1 = s0) ∨
    (CondInstallSnapshot p (SnapshotTerm msg) (SnapshotIndex msg) (am_Snapshot msg) = Some (p', true) ∧
     s1 = rep_load (am_Snapshot msg) s0);
  rep_replay (ops : list Op) (s0 s1 : St) op a :
    rep_snapshots = true → svcRun rep_init ops = Some s0 → op ∈ ops → svc_apply s0 op = Some (s1, a) → s1 = s0;
}.

Section machine.
Context {St Req Op Ans : Type} `{!Gob Z, !Gob (list (Log Op)), !Service St Req Op Ans, !Replicates St Req Op Ans}.
Implicit Types (p : Raft Op) (sys : Sys St Req Op Ans) (q : list (ApplyMsg Op)).

(** [r_queues]: for every peer the rest of the batch that [updateApplied] holds.  The peer of
    a server is that of the cluster, which [kv.rf] points to. *)
Record RState := mkRState {
  r_cluster : Cluster Op;
  r_servers : list (Sys St Req Op Ans);
  r_queues : list (list (ApplyMsg Op));
}.

(** [SRaft]: Raft on its own; [SUpdate]: an iteration of [updateApplied] takes its batch;
    [STake], [SOffer]: [fetchApply] receives the next message of the batch, or an offered
    snapshot; [SEvent]: anything else a server does. *)
Inductive SAction :=
  | SRaft (r : RAction Op)
  | SCrash (s : nat)
  | SUpdate (s : nat)
  | STake (s : nat)
  | SOffer (k : nat)
  | SEvent (s : nat) (e : Event Req Op).

(** Commands come from the handlers. *)
Definition raftStep (r : RAction Op) : bool :=
  match r with RAct (ANode _ (OpStart _)) => false | _ => silent r end.

Definition serverEvent (e : Event Req Op) : bool :=
  match e with EvRaft _ | EvFetch _ => false | _ => true end.

(** [StartKVServer] without its Raft peer *)
Definition startServer p : Sys St Req Op Ans := initSys p (rep_load (ReadSnapshot (persister p)) rep_init).

Definition serverAt (t : RState) (s : nat) : option (Sys St Req Op Ans) :=
  p ← nodes (world (r_cluster t)) !! s; sys ← r_servers t !! s; Some (with_rf p sys).

Definition putServer (t : RState) (s : nat) sys (qs : list (list (ApplyMsg Op))) : RState :=
  mkRState (setPeer s (rf sys) (r_cluster t)) (<[s := sys]> (r_servers t)) qs.

Definition dropOffer (k : nat) (c : Cluster Op) : Cluster Op :=
  mkCluster (world c) (appends c) (snaps c) (delete k (offers c)).

Definition rstep (t : RState) (a : SAction) : option RState :=
  match a with
  | SRaft r =>
      if raftStep r then c' ← rexec (r_cluster t) r; Some (mkRState c' (r_servers t) (r_queues t)) else None
  | SCrash s =>
      c' ← rexec (r_cluster t) (RAct (ACrash s)); p ← nodes (world c') !! s;
      Some (mkRState c' (<[s := startServer p]> (r_servers t)) (<[s := []]> (r_queues t)))
  | SUpdate s =>
      q ← r_queues t !! s;
      match q with
      | [] => p ← nodes (world (r_cluster t)) !! s; '(p', msgs) ← updateApplied p;
              Some (mkRState (setPeer s p' (r_cluster t)) (r_servers t) (<[s := msgs]> (r_queues t)))
      | _ => None
      end
  | STake s =>
      q ← r_queues t !! s;
      match q with
      | m :: q => sys ← serverAt t s; sys' ← sysStep sys (EvFetch m); Some (putServer t s sys' (<[s := q]> (r_queues t)))
      | [] => None
      end
  | SOffer k =>
      '(s, m) ← offers (r_cluster t) !! k;
      sys ← serverAt t s; sys' ← sysStep sys (EvFetch m);
      let t' := putServer t s sys' (r_queues t) in
      Some (mkRState (dropOffer k (r_cluster t')) (r_servers t') (r_queues t'))
  | SEvent s e =>
      if serverEvent e then sys ← serverAt t s; sys' ← sysStep sys e; Some (putServer t s sys' (r_queues t)) else None
  end.

Definition initReplicated (n : nat) : option RState :=
  c ← initCluster n; Some (mkRState c (map startServer (nodes (world c))) (replicate n [])).

(** The steps of [RaftSafety]; besides, [updateApplied] does not run before the commit index has
    passed the snapshot again after a restart. *)
Definition rsafe (t : RState) (a : SAction) : Prop :=
  let c := r_cluster t in
  match a with
  | SRaft r => safeStep c r
  | SCrash s => safeStep c (RAct (ACrash s))
  | SUpdate s => ∀ p, nodes (world c) !! s = Some p → lastIncludedIndex p ≤ commitIndex p
  | _ => True
  end.

Definition rmove (t t' : RState) : Prop := ∃ a, rsafe t a ∧ rstep t a = Some t'.

Inductive rreachable (n : nat) : RState → Prop :=
  | rreach_init t : initReplicated n = Some t → rreachable n t
  | rreach_step t t' : rreachable n t → rmove t t' → rreachable n t'.

(** ** What the theorem says *)

(** What a server has answered at index [i] of the sequence [L] is the answer of the sequential
    service to the command there, after the [i - 1] commands before, or after more if a
    snapshot was installed in between. *)
Definition answered (L : list Op) sys : Prop :=
  ∀ i op a, (i, op, a) ∈ applied sys → L.[i - 1] = Some op ∧
    ∃ k s0 s1, i - 1 ≤ Z.of_nat k ≤ len L ∧ svcRun rep_init (take k L) = Some s0 ∧ svc_apply s0 op = Some (s1, a).

(** The state of a server is that after some commands of [L]. *)
Definition follows (L : list Op) sys : Prop :=
  ∃ k, (k ≤ length L)%nat ∧ svcRun rep_init (take k L) = Some (st sys).

Definition explains (L : list Op) (t : RState) : Prop :=
  ∀ s sys, r_servers t !! s = Some sys → follows L sys ∧ answered L sys.
End machine.
Arguments RState : clear implicits.
Arguments SAction : clear implicits.
