(* ===== verification/ReplicatedProps.v ===== *)
(** All servers of a replicated service follow one log: the proof. *)
From S2P Require Import Prelude Labgob Persister Raft RaftLog RaftNode RaftProps RaftService RaftElection.
From S2P Require Import RaftCluster RaftMatching RaftCommit RaftSafety RaftApply RequestServer RequestProps Replicated.
#[local] Open Scope Z_scope.

Section run.
Context {St Req Op Ans : Type} `{!Service St Req Op Ans}.

Lemma svcRun_app (s0 : St) (ops1 ops2 : list Op) :
  svcRun s0 (ops1 ++ ops2) = s1 ← svcRun s0 ops1; svcRun s1 ops2.
Proof.
  revert s0. induction ops1 as [|op ops1 IH]; intros s0; simpl; [done|].
  destruct (svc_apply s0 op) as [[s1 a]|]; [apply IH|done].
Qed.

Lemma svcRun_snoc (s0 s1 s2 : St) ops op a :
  svcRun s0 ops = Some s1 → svc_apply s1 op = Some (s2, a) → svcRun s0 (ops ++ [op]) = Some s2.
Proof. intros H1 H2. rewrite svcRun_app, H1. simpl. by rewrite H2. Qed.
End run.

Section replicated.
Context {St Req Op Ans : Type} `{!Gob Z, !Gob (list (Log Op)), !Service St Req Op Ans, !Replicates St Req Op Ans, !ReplicatedLaws St Req Op Ans}.
Implicit Types (p : Raft Op) (sys : Sys St Req Op Ans) (q : list (ApplyMsg Op)) (t : RState St Req Op Ans)
  (hist : Z → list (Log Op)) (acks : nat → Z → Z → Prop) (got : nat → Z) (ops L : list Op).

(** ** Chosen commands *)
Definition chosenOps (n : nat) hist acks ops : Prop :=
  ∀ j op, ops !! j = Some op → chosenValue n hist acks (Z.of_nat j + 1) (Some op).

Lemma chosenOps_grown n hist acks got hist' acks' got' ops :
  grown hist acks got hist' acks' got' → chosenOps n hist acks ops → chosenOps n hist' acks' ops.
Proof. intros Hg H j op Hj. eapply chosenValue_grown; [exact Hg|by apply H]. Qed.

Lemma chosenOps_snoc n hist acks ops op :
  chosenOps n hist acks ops → chosenValue n hist acks (len ops + 1) (Some op) → chosenOps n hist acks (ops ++ [op]).
Proof.
  intros H Hop j o [Hj|[Hj Ho]]%lookup_app_Some; [by apply H|].
  apply list_lookup_singleton_Some in Ho as [Hj0 <-]. replace (Z.of_nat j + 1) with (len ops + 1) by (unfold len; lia). done.
Qed.

Lemma answered_prefix L L' sys : L `prefix_of` L' → answered L sys → answered L' sys.
Proof.
  intros [M ->] Ha i op a Hin. destruct (Ha i op a Hin) as (Hi & k' & s0 & s1 & Hk' & Hr & Hx).
  pose proof (go_index_Some_lt _ _ _ Hi). split; [by rewrite go_index_app_l by lia|]. exists k', s0, s1.
  unfold len in *. rewrite length_app, take_app_le by lia. split_and!; [lia..|done|done].
Qed.

Lemma follows_prefix L L' sys : svcRun rep_init L = Some (st sys) → L `prefix_of` L' → follows L' sys.
Proof. intros Hr [M ->]. exists (length L). split; [rewrite length_app; lia|]. by rewrite take_app_length. Qed.

(** ** The invariant *)

(** The state after [i] commands of [L]. *)
Definition stateAt L (i : Z) (s0 : St) : Prop := ∃ ops, len ops = i ∧ ops `prefix_of` L ∧ svcRun rep_init ops = Some s0.

(** The snapshot is the state after [i] commands; there is none before the first. *)
Definition bytesAt L (i : Z) (bs : list byte) : Prop :=
  (i = 0 ∧ bs = []) ∨ rep_snapshots = true ∧ ∃ s0, stateAt L i s0 ∧ ∀ s1, rep_load bs s1 = s0.

(** The batch goes on after the [k] commands that the server has applied; up to the snapshot
    its messages repeat what is in the state. *)
Fixpoint queueRun (n : nat) hist acks (g lii k : Z) q : Prop :=
  match q with
  | [] => True
  | m :: q => CommandValid m = true ∧ 1 ≤ CommandIndex m ≤ g ∧ (CommandIndex m = k + 1 ∨ CommandIndex m ≤ lii) ∧
      chosenValue n hist acks (CommandIndex m) (am_Command m) ∧
      queueRun n hist acks g lii (Z.max k (CommandIndex m)) q
  end.

Definition reach (k : Z) q : Z := foldl (λ k m, Z.max k (CommandIndex m)) k q.

Definition fetching (f : Fetcher (Op := Op) (Ans := Ans)) : option Z :=
  match f with
  | FIdle => None
  | FApplied _ i _ | FSend _ i _ _ | FAfter i => Some i
  end.

(** [L] is the log of the commands that some server has taken, [ops] the part of it that made
    the state of the server. *)
Record serverOk (n : nat) hist acks L (g : Z) p sys q ops : Prop := {
  so_log : ops `prefix_of` L;
  so_state : svcRun rep_init ops = Some (st sys);
  so_pos : lastIncludedIndex p ≤ len ops ≤ g;
  so_queue : queueRun n hist acks g (lastIncludedIndex p) (len ops) q;
  so_reach : reach (len ops) q = lastApplied p;
  so_ahead : lastApplied p ≤ Z.max (commitIndex p) (lastIncludedIndex p);
  so_fetch : ∀ i, fetching (fetcher sys) = Some i → i = len ops ∨ i ≤ lastIncludedIndex p;
  so_disk : bytesAt L (lastIncludedIndex p) (ReadSnapshot (persister p));
  so_answers : answered ops sys;
}.

Record replicatedInv (n : nat) t hist acks got L : Prop := {
  ri_cluster : safeCluster n (r_cluster t) hist acks got;
  ri_log : chosenOps n hist acks L;
  ri_queues : length (r_queues t) = length (r_servers t);
  ri_nodes : length (nodes (world (r_cluster t))) = length (r_servers t);
  ri_server : ∀ s p sys q, nodes (world (r_cluster t)) !! s = Some p → r_servers t !! s = Some sys →
    r_queues t !! s = Some q → ∃ ops, serverOk n hist acks L (got s) p sys q ops;
  ri_sent : sentAll (bytesAt L) (r_cluster t);
  ri_ahead : callsAhead (r_cluster t);
}.
Arguments so_log {n hist acks L g p sys q ops}.
Arguments so_pos {n hist acks L g p sys q ops}.
Arguments so_reach {n hist acks L g p sys q ops}.
Arguments so_disk {n hist acks L g p sys q ops}.
Arguments so_fetch {n hist acks L g p sys q ops}.
Arguments ri_cluster {n t hist acks got L}.
Arguments ri_log {n t hist acks got L}.
Arguments ri_queues {n t hist acks got L}.
Arguments ri_nodes {n t hist acks got L}.
Arguments ri_server {n t hist acks got L}.
Arguments ri_sent {n t hist acks got L}.
Arguments ri_ahead {n t hist acks got L}.

Lemma stateAt_more L L' i s0 : L `prefix_of` L' → stateAt L i s0 → stateAt L' i s0.
Proof. intros Hp (ops & Hl & Hc & Hr). exists ops. split_and!; [done|by etrans|done]. Qed.

Lemma bytesAt_more L L' i bs : L `prefix_of` L' → bytesAt L i bs → bytesAt L' i bs.
Proof. intros Hp [?|(Hr & s0 & Hs & Hl)]; [by left|right]. split; [done|]. exists s0. split; [by eapply stateAt_more|done]. Qed.

Lemma queueRun_mono n hist acks got hist' acks' got' s lii lii' k q :
  grown hist acks got hist' acks' got' → lii ≤ lii' →
  queueRun n hist acks (got s) lii k q → queueRun n hist' acks' (got' s) lii' k q.
Proof.
  intros Hg Hl. pose proof Hg as (_ & _ & Hgot). specialize (Hgot s). revert k.
  induction q as [|m q IH]; intros k; [done|]. intros (Hv & Hi & Hp & Hc & Hq). simpl.
  split_and!; [done|lia..| |by eapply chosenValue_grown|by apply IH]. destruct Hp; [by left|right; lia].
Qed.

Lemma reach_ge k q : k ≤ reach k q ∧ ∀ m, m ∈ q → CommandIndex m ≤ reach k q.
Proof.
  revert k. induction q as [|m q IH]; intros k; [split; [unfold reach; simpl; lia|by intros m ?%not_elem_of_nil]|].
  change (reach k (m :: q)) with (reach (Z.max k (CommandIndex m)) q). destruct (IH (Z.max k (CommandIndex m))) as [H1 H2].
  split; [lia|]. intros m' [->|Hm]%elem_of_cons; [lia|auto].
Qed.

(** The peer goes on and the server stays. *)
Lemma serverOk_moves n hist acks got hist' acks' got' L L' s p p' sys q ops :
  grown hist acks got hist' acks' got' → L `prefix_of` L' → sameApplied p p' → commitIndex p ≤ commitIndex p' →
  serverOk n hist acks L (got s) p sys q ops → serverOk n hist' acks' L' (got' s) p' sys q ops.
Proof.
  intros Hg HL [Hla Hlii Hsn] Hci []. pose proof Hg as (_ & _ & Hgot). specialize (Hgot s).
  constructor; rewrite ?Hla, ?Hlii, ?Hsn; try done.
  - by etrans.
  - lia.
  - by eapply queueRun_mono.
  - lia.
  - by eapply bytesAt_more.
Qed.

(** ** What a step of the server does *)

Lemma dealRequest_effect sys h e sys' :
  dealRequest sys h e = Some sys' →
  st sys' = st sys ∧ applied sys' = applied sys ∧ fetcher sys' = fetcher sys ∧
  (rf sys' = rf sys ∨ ∃ op, HStart op ∈ handlers sys ∧ rf sys' = (Start (rf sys) op).1.1).
Proof.
  unfold dealRequest. intros H. apply bind_Some in H as (hd & Hhd & H).
  destruct e; try done; destruct hd; try done.
  - destruct (Start (rf sys) op) as [[p' [[index term] isLeader]] eff] eqn:Hs. injection H as <-.
    split_and!; try done. right. exists op. rewrite Hs. split; [by eapply list_elem_of_lookup_2|done].
  - destruct (getWaitChan _ _ _ _) as [w c]. injection H as <-. split_and!; try done. by left.
  - apply bind_Some in H as ([w a] & _ & [= <-]). split_and!; try done. by left.
  - injection H as <-. split_and!; try done. by left.
  - injection H as <-. split_and!; try done. by left.
Qed.

Lemma serverEvent_effect sys e sys' :
  serverEvent (Req := Req) e = true → sysStep sys e = Some sys' →
  st sys' = st sys ∧ applied sys' = applied sys ∧
  (∀ i, fetching (fetcher sys') = Some i → fetching (fetcher sys) = Some i) ∧
  (rf sys' = rf sys ∨ (∃ op, HStart op ∈ handlers sys ∧ rf sys' = (Start (rf sys) op).1.1) ∨
   ∃ i, fetching (fetcher sys) = Some i ∧ svc_after (rf sys) (st sys) i = Some (rf sys')).
Proof.
  intros He H. destruct e; try done; cbn [sysStep] in H.
  1: { injection H as <-. split_and!; try done. by left. }
  1-5: destruct (dealRequest_effect _ _ _ _ H) as (? & ? & Hf & ?); rewrite Hf; split_and!; try done; tauto.
  all: unfold fetchApply in H; destruct (fetcher sys) eqn:Hf; try done.
  - case_if_in H; [destruct (getWaitChan _ _ _ _) as [w c]|]; injection H as <-; split_and!; try done; by left.
  - apply bind_Some in H as (w & _ & [= <-]). split_and!; try done. by left.
  - apply bind_Some in H as (p' & Hp & [= <-]). simpl. split_and!; try done. right. right. by exists index.
Qed.

Lemma fetch_command sys m sys' :
  sysStep (Req := Req) sys (EvFetch m) = Some sys' → CommandValid m = true →
  ∃ op a, am_Command m = Some op ∧ svc_apply (st sys) op = Some (st sys', a) ∧ rf sys' = rf sys ∧
    fetching (fetcher sys') = Some (CommandIndex m) ∧ applied sys' = applied sys ++ [(CommandIndex m, op, a)].
Proof.
  intros H Hv. cbn [sysStep] in H. unfold fetchApply in H. destruct (fetcher sys); try done. rewrite Hv in H.
  apply bind_Some in H as (op & Hop & H). apply bind_Some in H as ([s1 a] & Hx & [= <-]). by exists op, a.
Qed.

Lemma fetch_snapshot sys m sys' :
  sysStep (Req := Req) sys (EvFetch m) = Some sys' → CommandValid m = false →
  fetching (fetcher sys') = None ∧ applied sys' = applied sys ∧
  ((rf sys' = rf sys ∧ st sys' = st sys) ∨ svc_install (rf sys) (st sys) m = Some (rf sys', st sys')).
Proof.
  intros H Hv. cbn [sysStep] in H. unfold fetchApply in H. destruct (fetcher sys) eqn:Hf; try done. rewrite Hv in H.
  case_if_in H; [|injection H as <-; rewrite Hf; auto]. apply bind_Some in H as ([p' s1] & Hx & [= <-]). simpl. auto.
Qed.

(** ** Steps of one peer *)

Lemma sameApplied_refl p : sameApplied p p.
Proof. done. Qed.

Lemma inv_insert n t hist acks got hist' acks' got' L L' c' s p' sys' q' ops' :
  replicatedInv n t hist acks got L → L `prefix_of` L' → chosenOps n hist' acks' L' → grown hist acks got hist' acks' got' → safeCluster n c' hist' acks' got' →
  nodes (world c') = <[s := p']> (nodes (world (r_cluster t))) → sentAll (bytesAt L') c' → callsAhead c' →
  serverOk n hist' acks' L' (got' s) p' sys' q' ops' →
  replicatedInv n (mkRState c' (<[s := sys']> (r_servers t)) (<[s := q']> (r_queues t))) hist' acks' got' L'.
Proof.
  intros I HL Hc Hg HC Hn HS Hok. constructor; simpl; try done.
  - rewrite !length_insert. apply I.
  - rewrite Hn, !length_insert. apply I.
  - intros j p sys q. rewrite Hn. intros Hp Hsys Hq. destruct (decide (j = s)) as [->|Hne].
    + apply list_lookup_insert_Some in Hp as [(_ & <- & _)|[? _]]; [|done].
      apply list_lookup_insert_Some in Hsys as [(_ & <- & _)|[? _]]; [|done].
      apply list_lookup_insert_Some in Hq as [(_ & <- & _)|[? _]]; [|done]. by exists ops'.
    + apply list_lookup_insert_Some in Hp as [[? _]|[_ Hp]]; [done|]. apply list_lookup_insert_Some in Hsys as [[? _]|[_ Hsys]]; [done|].
      apply list_lookup_insert_Some in Hq as [[? _]|[_ Hq]]; [done|].
      destruct (ri_server I _ _ _ _ Hp Hsys Hq) as [ops Hops]. exists ops.
      eapply serverOk_moves; [exact Hg|exact HL|apply sameApplied_refl|lia|exact Hops].
Qed.

(** The log stays as it is. *)
Lemma inv_put n t hist acks got hist' acks' got' L c' s p' sys' q' ops' :
  replicatedInv n t hist acks got L → grown hist acks got hist' acks' got' → safeCluster n c' hist' acks' got' →
  nodes (world c') = <[s := p']> (nodes (world (r_cluster t))) → sentAll (bytesAt L) c' → callsAhead c' →
  serverOk n hist' acks' L (got' s) p' sys' q' ops' →
  replicatedInv n (mkRState c' (<[s := sys']> (r_servers t)) (<[s := q']> (r_queues t))) hist' acks' got' L.
Proof.
  intros I Hg HC Hn HS HA Hok. eapply inv_insert; [exact I|done|eapply chosenOps_grown; [exact Hg|apply I]|done..].
Qed.

(** Every peer has a server and a queue. *)
Lemma inv_lookup n t hist acks got L s p :
  replicatedInv n t hist acks got L → nodes (world (r_cluster t)) !! s = Some p →
  ∃ sys q ops, r_servers t !! s = Some sys ∧ r_queues t !! s = Some q ∧ serverOk n hist acks L (got s) p sys q ops.
Proof.
  intros I Hp. pose proof (lookup_lt_Some _ _ _ Hp) as Hlt. rewrite (ri_nodes I) in Hlt.
  destruct (lookup_lt_is_Some_2 _ _ Hlt) as [sys Hsys]. rewrite <-(ri_queues I) in Hlt.
  destruct (lookup_lt_is_Some_2 _ _ Hlt) as [q Hq]. destruct (ri_server I _ _ _ _ Hp Hsys Hq) as [ops Hops].
  by exists sys, q, ops.
Qed.

Lemma inv_sent n t hist acks got L r c' :
  replicatedInv n t hist acks got L → rexec (r_cluster t) r = Some c' → sentAll (bytesAt L) c'.
Proof.
  intros I Hx. eapply snapshots_travel; [exact Hx| |apply I]. intros s p Hp.
  by destruct (inv_lookup _ _ _ _ _ _ _ _ I Hp) as (sys & q & ops & _ & _ & Hok%so_disk).
Qed.

Lemma raft_step n t hist acks got L r c' :
  replicatedInv n t hist acks got L → rsafe t (SRaft r) → raftStep r = true → rexec (r_cluster t) r = Some c' →
  ∃ hist' acks' got', grown hist acks got hist' acks' got' ∧
    replicatedInv n (mkRState c' (r_servers t) (r_queues t)) hist' acks' got' L.
Proof.
  intros I Hsafe Hq Hx. assert (silent r = true) as Hq' by (destruct r as [[? []| | | | | |]| | | | | | | |]; done).
  destruct (safe_step _ _ _ _ _ _ _ (ri_cluster I) Hsafe Hx) as (hist' & acks' & got' & Hg & HC').
  exists hist', acks', got'. split; [done|]. constructor; simpl; [done|eapply chosenOps_grown; [exact Hg|apply I]|apply I| | |by eapply inv_sent|by eapply callsAhead_step; [apply I|exact Hx|apply I]].
  - rewrite <-(ri_nodes I). destruct (rexec_moves _ _ _ Hx) as [(s0 & -> & _)|[->|(s0 & ? & ? & ? & _ & _ & _ & ->)]]; [done|done|].
    by rewrite length_insert.
  - intros s p' sys q Hp' Hsys Hqs.
    destruct (rexec_commit _ _ _ _ _ _ _ _ _ (ri_cluster I) (ri_ahead I) Hq' Hx Hp') as (p & Hp & Hsame & Hle).
    destruct (ri_server I _ _ _ _ Hp Hsys Hqs) as [ops Hops]. exists ops. by eapply serverOk_moves.
Qed.

(** The next iteration of [updateApplied]. *)
Lemma queueRun_batch n hist acks g lii q : ∀ base,
  0 ≤ base → base + len q ≤ g →
  (∀ (j : nat) m, q !! j = Some m → CommandValid m = true ∧ CommandIndex m = base + 1 + Z.of_nat j ∧
    chosenValue n hist acks (CommandIndex m) (am_Command m)) →
  queueRun n hist acks g lii base q ∧ reach base q = base + len q.
Proof.
  induction q as [|m q IH]; intros base H0 Hg Hq; [split; [done|unfold reach, len; simpl; lia]|].
  destruct (Hq 0%nat m) as (Hv & Hi & Hc); [done|]. rewrite len_cons in Hg |- *.
  destruct (IH (base + 1)) as [H1 H2]; [lia|lia| |].
  { intros j m' Hj. destruct (Hq (S j) m' Hj) as (? & ? & ?). split_and!; [done|lia|done]. }
  change (reach base (m :: q)) with (reach (Z.max base (CommandIndex m)) q). simpl.
  replace (Z.max base (CommandIndex m)) with (base + 1) by lia.
  pose proof (len_nonneg q). split; [|lia]. split_and!; [done|lia|lia|by left; lia|done|done].
Qed.

Lemma update_step n t hist acks got L s p p' msgs :
  replicatedInv n t hist acks got L → r_queues t !! s = Some [] → nodes (world (r_cluster t)) !! s = Some p →
  lastIncludedIndex p ≤ commitIndex p → updateApplied p = Some (p', msgs) →
  ∃ hist' acks' got', grown hist acks got hist' acks' got' ∧
    replicatedInv n (mkRState (setPeer s p' (r_cluster t)) (r_servers t) (<[s := msgs]> (r_queues t))) hist' acks' got' L.
Proof.
  intros I Hq Hp Hci Hu. pose proof (ri_cluster I) as HC.
  destruct (inv_lookup _ _ _ _ _ _ _ _ I Hp) as (sys & q & ops & Hsys & Hq' & Hok).
  rewrite Hq in Hq'. injection Hq' as <-. pose proof Hok as [HL Hst Hpos _ Hre Hah Hf Hd Ha]. unfold reach in Hre. simpl in Hre.
  assert (nodeExec p OpUpdateApplied = Some p') as Hx by (simpl; by rewrite Hu).
  destruct (op_steps n (r_cluster t) hist acks got s p OpUpdateApplied p') as (hist' & acks' & got' & Hg & HC'); try done.
  destruct (batch_messages _ _ _ _ _ _ _ _ _ HC Hp Hu) as (Hla & Hlii & Hlen & Hmsg); [lia|lia|].
  pose proof (commit_got _ _ _ _ _ _ _ HC Hp) as Hgot. pose proof (applied_range _ _ _ _ _ _ _ HC Hp) as [_ H0].
  assert (commitIndex p' = commitIndex p ∧ ReadSnapshot (persister p') = ReadSnapshot (persister p)) as [Hci' Hsn].
  { unfold updateApplied in Hu. by apply bind_Some in Hu as (? & _ & [= <- _]). }
  destruct (queueRun_batch n hist acks (got s) (lastIncludedIndex p) msgs (len ops)) as [Hqr Hreach]; [lia|lia| |].
  { intros j m Hj. destruct (Hmsg j m Hj) as (? & _ & ? & _ & ?). split_and!; [done|lia|done]. }
  exists hist', acks', got'. split; [done|].
  rewrite <-(list_insert_id (r_servers t) s sys Hsys). pose proof Hg as (_ & _ & Hgs). specialize (Hgs s).
  eapply (inv_put _ _ _ _ _ _ _ _ _ _ _ _ _ _ ops); [exact I|exact Hg|exact HC'|done|apply I|apply I|].
  constructor; rewrite ?Hla, ?Hlii, ?Hsn, ?Hci'; try done.
  - lia.
  - eapply queueRun_mono; [exact Hg| |exact Hqr]; lia.
  - lia.
  - lia.
Qed.

(** A server takes a command of its batch: the next one, or one that it has from a snapshot. *)
Lemma take_next n hist acks L g p sys m q ops sys' op a :
  serverOk n hist acks L g p sys (m :: q) ops → CommandIndex m = len ops + 1 → am_Command m = Some op →
  svc_apply (st sys) op = Some (st sys', a) → fetching (fetcher sys') = Some (CommandIndex m) →
  applied sys' = applied sys ++ [(CommandIndex m, op, a)] →
  ∀ L', L `prefix_of` L' → ops ++ [op] `prefix_of` L' → serverOk n hist acks L' g p sys' q (ops ++ [op]).
Proof.
  intros [HL Hst Hpos Hq Hre Hah Hf Hd Ha] Hnew Hop Hap Hfe Happ L' HL1 HL2. destruct Hq as (Hv & Hi & Hk & Hcv & Hq).
  change (reach (Z.max (len ops) (CommandIndex m)) q = lastApplied p) in Hre.
  assert (len (ops ++ [op]) = len ops + 1) as Hlen by (rewrite len_app; done).
  replace (Z.max (len ops) (CommandIndex m)) with (len ops + 1) in * by lia.
  constructor; rewrite ?Hlen; try done.
  - by eapply svcRun_snoc.
  - lia.
  - intros i. rewrite Hfe. intros [= <-]. by left.
  - eapply bytesAt_more; [exact HL1|exact Hd].
  - intros i o b. rewrite Happ. intros [Hin|Hin]%elem_of_app.
    + by eapply (answered_prefix ops); [eexists|exact Ha|].
    + apply list_elem_of_singleton in Hin as [= -> -> ->]. rewrite Hnew. replace (len ops + 1 - 1) with (len ops) by lia.
      split; [by rewrite go_index_app_r, Z.sub_diag by lia|]. exists (length ops), (st sys), (st sys').
      rewrite Hlen, take_app_length. unfold len. split_and!; [lia..|done|done].
Qed.

(** A chosen command is the one of the log. *)
Lemma chosen_in_log n c hist acks got L i op :
  safeCluster n c hist acks got → chosenOps n hist acks L → 1 ≤ i ≤ len L → chosenValue n hist acks i (Some op) →
  L.[i - 1] = Some op.
Proof.
  intros HC HL Hi Hcv. destruct (go_index_lt_Some L (i - 1)) as [o Ho]; [lia|]. rewrite Ho. f_equal.
  rewrite go_index_nonneg in Ho by lia. pose proof (HL _ _ Ho) as Ho'.
  replace (Z.of_nat (Z.to_nat (i - 1)) + 1) with i in Ho' by lia.
  pose proof (chosenValue_unique _ _ _ _ _ _ _ _ HC Ho' Hcv). congruence.
Qed.

Lemma prefix_index ops L i op : ops `prefix_of` L → i < len ops → L.[i] = Some op → ops.[i] = Some op.
Proof. intros [M ->] Hi H. by rewrite go_index_app_l in H by lia. Qed.

Lemma take_again n c hist acks got L s p sys m q ops sys' op a :
  safeCluster n c hist acks got → chosenOps n hist acks L →
  serverOk n hist acks L (got s) p sys (m :: q) ops → CommandIndex m ≠ len ops + 1 → am_Command m = Some op →
  svc_apply (st sys) op = Some (st sys', a) → fetching (fetcher sys') = Some (CommandIndex m) →
  applied sys' = applied sys ++ [(CommandIndex m, op, a)] → serverOk n hist acks L (got s) p sys' q ops.
Proof.
  intros HC HcL [HL Hst Hpos Hq Hre Hah Hf Hd Ha] Hold Hop Hap Hfe Happ. destruct Hq as (Hv & Hi & Hk & Hcv & Hq).
  change (reach (Z.max (len ops) (CommandIndex m)) q = lastApplied p) in Hre. rewrite Hop in Hcv.
  assert (ops.[CommandIndex m - 1] = Some op) as Hin.
  { eapply prefix_index; [exact HL|lia|]. eapply chosen_in_log; [exact HC|exact HcL| |exact Hcv].
    apply prefix_length in HL. unfold len in *. lia. }
  assert (st sys' = st sys) as Hsame.
  { eapply rep_replay; [|exact Hst| |exact Hap].
    - destruct Hd as [[? _]|[? _]]; [lia|done].
    - rewrite go_index_nonneg in Hin by lia. by eapply list_elem_of_lookup_2. }
  replace (Z.max (len ops) (CommandIndex m)) with (len ops) in * by lia.
  constructor; rewrite ?Hsame; try done.
  - intros i. rewrite Hfe. intros [= <-]. right. lia.
  - intros i o b. rewrite Happ. intros [?|Hb]%elem_of_app; [by apply Ha|].
    apply list_elem_of_singleton in Hb as [= -> -> ->]. split; [done|].
    exists (length ops), (st sys), (st sys'). rewrite firstn_all. unfold len in *. split_and!; [lia..|done|done].
Qed.

(** The log grows when a server is the first to take a command. *)
Definition logGrows L L' (m : ApplyMsg Op) : Prop := L' = L ∨ ∃ op, am_Command m = Some op ∧ L' = L ++ [op].

Lemma logGrows_prefix L L' m : logGrows L L' m → L `prefix_of` L'.
Proof. intros [->|(op & _ & ->)]; [done|by eexists]. Qed.

Lemma take_ok n c hist acks got L s p sys m q ops sys' :
  safeCluster n c hist acks got → chosenOps n hist acks L →
  serverOk n hist acks L (got s) p sys (m :: q) ops → sysStep (Req := Req) (with_rf p sys) (EvFetch m) = Some sys' →
  rf sys' = p ∧ ∃ L' ops', logGrows L L' m ∧ chosenOps n hist acks L' ∧ serverOk n hist acks L' (got s) p sys' q ops'.
Proof.
  intros HC HcL Hok Hx. pose proof Hok as [HL _ _ (Hv & Hi & Hk & Hcv & Hq) _ _ _ _ _].
  destruct (fetch_command _ _ _ Hx Hv) as (op & a & Hop & Hap & Hrf & Hfe & Happ). simpl in Hap, Hrf, Happ.
  split; [done|]. rewrite Hop in Hcv. destruct (decide (CommandIndex m = len ops + 1)) as [Hnew|Hold].
  2: { exists L, ops. split; [by left|]. split; [done|]. by eapply take_again. }
  destruct HL as [M HM]. destruct M as [|o M].
  - rewrite app_nil_r in HM. subst L. exists (ops ++ [op]), (ops ++ [op]). split; [right; by exists op|]. split.
    + apply chosenOps_snoc; [done|by rewrite <-Hnew].
    + eapply take_next; [exact Hok|done..|by eexists|done].
  - assert (o = op) as ->.
    { assert (L.[CommandIndex m - 1] = Some op) as E.
      { eapply chosen_in_log; [exact HC|exact HcL| |exact Hcv]. rewrite HM, len_app, len_cons. pose proof (len_nonneg M). lia. }
      rewrite HM, go_index_app_r in E by lia. replace (CommandIndex m - 1 - len ops) with 0 in E by lia. by injection E. }
    exists L, (ops ++ [op]). split; [by left|]. split; [done|].
    eapply take_next; [exact Hok|done..|]. exists M. by rewrite HM, <-app_assoc.
Qed.

(** A batch that the snapshot has overtaken. *)
Lemma queueRun_overtaken n hist acks g lii k k' i q :
  (∀ m, m ∈ q → CommandIndex m ≤ i) → queueRun n hist acks g lii k q → queueRun n hist acks g i k' q.
Proof.
  revert k k'. induction q as [|m q IH]; intros k k' Hm; [done|]. intros (Hv & Hi & _ & Hc & Hq). simpl.
  split_and!; [done|lia|lia|right; apply Hm; by left|done|]. eapply IH; [|exact Hq]. intros m' ?. apply Hm. by right.
Qed.

Lemma reach_overtaken i q : (∀ m, m ∈ q → CommandIndex m ≤ i) → reach i q = i.
Proof.
  unfold reach. induction q as [|m q IH]; intros Hm; [done|]. simpl.
  rewrite Z.max_l by (apply Hm; by left). apply IH. intros m' ?. apply Hm. by right.
Qed.

(** A server installs an offered snapshot. *)
Lemma install_ok n c hist acks got hist' acks' got' L s p p' sys sys' q ops i term bs :
  safeCluster n c hist acks got → nodes (world c) !! s = Some p →
  grown hist acks got hist' acks' got' → i ≤ got' s →
  CondInstallSnapshot p term i bs = Some (p', true) → bytesAt L i bs →
  serverOk n hist acks L (got s) p sys q ops →
  st sys' = rep_load bs (st sys) → applied sys' = applied sys → fetching (fetcher sys') = None →
  ∃ ops', serverOk n hist' acks' L (got' s) p' sys' q ops'.
Proof.
  intros HC Hp Hg Hi Hx Hbs [HL Hst Hpos Hq Hre Hah Hf Hd Ha] Hst' Happ Hfe.
  pose proof (applied_range _ _ _ _ _ _ _ HC Hp) as [_ H0]. destruct HC as ([V T] & HC).
  destruct (installed _ _ _ _ _ (no_wf _ _ _ (vi_nodes _ _ _ _ V _ _ Hp)) Hx) as (Hci & Hle & Hlii & Hci' & Hla & Hsn).
  destruct (reach_ge (len ops) q) as [Hge Hqe]. pose proof Hg as (_ & _ & Hgs). specialize (Hgs s).
  assert (∀ m, m ∈ q → CommandIndex m ≤ i) as Hover by (intros m Hm; specialize (Hqe m Hm); lia).
  pose proof Hbs as Hbs0. destruct Hbs as [[-> Hnil]|(Hsnaps & s0 & (ops' & Hl & HL' & Hr) & Hload)].
  { destruct HC as ((full & I & SI) & _). destruct (full_lookup _ _ _ _ _ _ _ I Hp) as (F & HF & _).
    pose proof (ps_range _ _ _ _ _ _ _ (si_peer SI _ _ _ Hp HF)). lia. }
  exists ops'. constructor; rewrite ?Hlii, ?Hci', ?Hla, ?Hsn, ?Hl; try done.
  - by rewrite Hst', Hload.
  - eapply queueRun_overtaken; [exact Hover|]. eapply queueRun_mono; [exact Hg|reflexivity|exact Hq].
  - by apply reach_overtaken.
  - lia.
  - intros j. by rewrite Hfe.
  - eapply (answered_prefix ops); [|intros j op a; rewrite Happ; apply Ha].
    destruct (prefix_weak_total _ _ _ HL HL') as [?|Hp']; [done|].
    pose proof (prefix_length _ _ Hp'). rewrite (prefix_length_eq _ _ Hp'); [done|unfold len in *; lia].
Qed.

(** A server starts from the stored snapshot. *)
Lemma start_ok n hist acks L g p :
  bytesAt L (lastIncludedIndex p) (ReadSnapshot (persister p)) →
  lastApplied p = lastIncludedIndex p → lastIncludedIndex p ≤ g →
  ∃ ops, serverOk n hist acks L g p (startServer p) [] ops.
Proof.
  intros Hb Hla Hg. assert (stateAt L (lastIncludedIndex p) (st (startServer p))) as (ops & Hl & Hc & Hr).
  { destruct Hb as [[-> Hnil]|(_ & s0 & Hs0 & Hload)]; simpl; [|by rewrite Hload].
    rewrite Hnil, rep_load_nil. exists []. split_and!; [done|apply prefix_nil|done]. }
  exists ops. constructor; try done; unfold reach; simpl; rewrite ?Hl; try done; try lia.
  by intros i op a ?%not_elem_of_nil.
Qed.

Lemma restart_step n t hist acks got L s c' p' :
  replicatedInv n t hist acks got L → rsafe t (SCrash s) → rexec (r_cluster t) (RAct (ACrash s)) = Some c' →
  nodes (world c') !! s = Some p' →
  ∃ hist' acks' got', grown hist acks got hist' acks' got' ∧
    replicatedInv n (mkRState c' (<[s := startServer p']> (r_servers t)) (<[s := []]> (r_queues t))) hist' acks' got' L.
Proof.
  intros I Hsafe Hx Hp'. pose proof (ri_cluster I) as HC.
  destruct (safe_step _ _ _ _ _ _ _ HC Hsafe Hx) as (hist' & acks' & got' & Hg & HC').
  exists hist', acks', got'. split; [done|]. pose proof Hg as (_ & _ & Hgs). specialize (Hgs s).
  destruct (rexec_crash _ _ _ Hx) as (p & p1 & Hp & Hmk & Hn). destruct HC as ([V _] & _).
  rewrite Hn, list_lookup_insert_eq in Hp' by (by eapply lookup_lt_Some). injection Hp' as ->.
  destruct (Make_recovers p (no_durable _ _ _ (vi_nodes _ _ _ _ V _ _ Hp))) as (p2 & Hmk' & Hrec).
  rewrite Hmk in Hmk'. injection Hmk' as <-. pose proof (Make_persister _ _ _ _ Hmk) as Hps.
  destruct (inv_lookup _ _ _ _ _ _ _ _ I Hp) as (sys & q & ops & _ & _ & Hok).
  destruct (start_ok n hist' acks' L (got' s) p') as [ops' Hok'].
  - rewrite Hps, (rec_lii _ _ Hrec). apply Hok.
  - by rewrite (rec_applied _ _ Hrec), (rec_lii _ _ Hrec).
  - rewrite (rec_lii _ _ Hrec). pose proof (so_pos Hok). lia.
  - eapply inv_put; [exact I|exact Hg|exact HC'|exact Hn| | |exact Hok']; [by eapply inv_sent|].
    eapply callsAhead_step; [apply I|exact Hx|apply I].
Qed.

Lemma serverAt_Some t s sys :
  serverAt t s = Some sys →
  ∃ p sys0, nodes (world (r_cluster t)) !! s = Some p ∧ r_servers t !! s = Some sys0 ∧ sys = with_rf p sys0.
Proof.
  unfold serverAt. intros H. apply bind_Some in H as (p & Hp & H). apply bind_Some in H as (sys0 & Hs & [= <-]).
  by exists p, sys0.
Qed.

Lemma take_step n t hist acks got L s m q sys sys' :
  replicatedInv n t hist acks got L → r_queues t !! s = Some (m :: q) → serverAt t s = Some sys →
  sysStep (Req := Req) sys (EvFetch m) = Some sys' →
  ∃ L', logGrows L L' m ∧ replicatedInv n (putServer t s sys' (<[s := q]> (r_queues t))) hist acks got L'.
Proof.
  intros I Hq (p & sys0 & Hp & Hs & ->)%serverAt_Some Hx. pose proof (ri_cluster I) as HC.
  destruct (ri_server I _ _ _ _ Hp Hs Hq) as [ops Hok].
  destruct (take_ok _ _ _ _ _ _ _ _ _ _ _ _ _ HC (ri_log I) Hok Hx) as (Hrf & L' & ops' & HL & HcL & Hok').
  exists L'. split; [done|]. unfold putServer. rewrite Hrf.
  eapply inv_insert; [exact I|by eapply logGrows_prefix|exact HcL|apply grown_refl| |by rewrite nodes_setPeer| | |exact Hok'];
    rewrite setPeer_id by done; try apply I.
  eapply sentAll_weaken; [intros i bs; by apply bytesAt_more, (logGrows_prefix _ _ m)|apply I].
Qed.

(** The operations of the peer that a server runs keep what it has handed over. *)
Lemma event_ok n hist acks got hist' acks' got' L s p p' sys sys' q ops :
  grown hist acks got hist' acks' got' →
  serverOk n hist acks L (got s) p sys q ops →
  st sys' = st sys → applied sys' = applied sys →
  (∀ i, fetching (fetcher sys') = Some i → fetching (fetcher sys) = Some i) →
  lastApplied p' = Z.max (lastApplied p) (lastIncludedIndex p') → commitIndex p' = commitIndex p →
  lastIncludedIndex p ≤ lastIncludedIndex p' ≤ len ops →
  bytesAt L (lastIncludedIndex p') (ReadSnapshot (persister p')) →
  serverOk n hist' acks' L (got' s) p' sys' q ops.
Proof.
  intros Hg [HL Hst Hpos Hq Hre Hah Hf Hd Ha] E1 E2 E3 Hla Hci Hlii Hbs. pose proof Hg as (_ & _ & Hgs). specialize (Hgs s).
  destruct (reach_ge (len ops) q) as [Hge _].
  constructor; rewrite ?E1, ?Hci; try done.
  - lia.
  - eapply queueRun_mono; [exact Hg| |exact Hq]. lia.
  - lia.
  - lia.
  - intros i Hi. destruct (Hf i (E3 i Hi)); [by left|right; lia].
  - intros i op a. rewrite E2. apply Ha.
Qed.

(** What a server does to its peer. *)
Lemma event_peer n hist acks L g p sys sys' e q ops :
  serverOk n hist acks L g p sys q ops → serverEvent (Req := Req) e = true → sysStep (with_rf p sys) e = Some sys' →
  rf sys' = p ∨ (∃ command, HStart command ∈ handlers sys ∧ nodeExec p (OpStart command) = Some (rf sys')) ∨
  ∃ bs, nodeExec p (OpSnapshot (len ops) bs) = Some (rf sys') ∧ lastIncludedIndex p < len ops ∧ rep_snapshots = true ∧
    ∀ s1, rep_load bs s1 = st sys.
Proof.
  intros Hok He Hx. destruct (serverEvent_effect _ _ _ He Hx) as (_ & _ & _ & [H|[(op & Hh & H)|(i & Hi & H)]]); simpl in *.
  - by left.
  - right; left. exists op. split; [done|]. by rewrite H.
  - destruct (rep_after _ _ _ _ H) as [H1|(Hsnaps & H1 & Hload)]; [by left|].
    destruct (decide (i ≤ lastIncludedIndex p)) as [Hle|Hgt].
    + left. unfold Snapshot in H1. rewrite (proj2 (Z.leb_le _ _)) in H1 by lia. by injection H1.
    + right; right. destruct (so_fetch Hok i Hi) as [->|?]; [|lia].
      exists (rep_save (st sys)). split_and!; [done|lia|done..].
Qed.

Lemma event_step n t hist acks got L s e sys sys' :
  replicatedInv n t hist acks got L → serverEvent e = true → serverAt t s = Some sys → sysStep sys e = Some sys' →
  ∃ hist' acks' got', grown hist acks got hist' acks' got' ∧ replicatedInv n (putServer t s sys' (r_queues t)) hist' acks' got' L.
Proof.
  intros I He (p & sys0 & Hp & Hs & ->)%serverAt_Some Hx. pose proof (ri_cluster I) as HC.
  destruct (inv_lookup _ _ _ _ _ _ _ _ I Hp) as (sys1 & q & ops & Hs1 & Hq & Hok).
  rewrite Hs in Hs1. injection Hs1 as <-. destruct (serverEvent_effect _ _ _ He Hx) as (Hst & Happ & Hf & _).
  assert (∃ hist' acks' got', grown hist acks got hist' acks' got' ∧ safeCluster n (setPeer s (rf sys') (r_cluster t)) hist' acks' got' ∧
    serverOk n hist' acks' L (got' s) (rf sys') sys' q ops) as (hist' & acks' & got' & Hg & HC' & Hok').
  { pose proof (so_disk Hok) as Hd. pose proof (so_pos Hok) as Hpos.
    assert (len ops ≤ lastApplied p) as Hla by (rewrite <-(so_reach Hok); apply reach_ge).
    destruct (event_peer _ _ _ _ _ _ _ _ _ _ _ Hok He Hx) as [->|[(command & _ & Hst1)|(bs & Hsn & Hlt & Hsnaps & Hload)]].
    - exists hist, acks, got. split; [apply grown_refl|]. rewrite setPeer_id by done. split; [done|].
      eapply event_ok; [apply grown_refl|exact Hok|done|done|exact Hf|lia|done|lia|done].
    - destruct (op_steps n (r_cluster t) hist acks got s p (OpStart command) (rf sys')) as (hist' & acks' & got' & Hg & HC'); try done.
      exists hist', acks', got'. split; [done|]. split; [done|].
      destruct (silent_applied p (OpStart command) (rf sys')) as [E1 E2 E3]; [done..|].
      eapply event_ok; [exact Hg|exact Hok|done|done|exact Hf|lia| |lia|by rewrite E2, E3].
      simpl in Hst1. injection Hst1 as <-. unfold Start. by case_if.
    - destruct (op_steps n (r_cluster t) hist acks got s p (OpSnapshot (len ops) bs) (rf sys')) as (hist' & acks' & got' & Hg & HC'); try done.
      { intros i sn [= <- <-] _. lia. }
      exists hist', acks', got'. split; [done|]. split; [done|].
      destruct (Snapshot_Some _ _ _ _ Hsn Hlt) as (l0 & _ & _ & E1 & _ & E2 & E3 & _ & _ & _ & _ & _ & E4).
      eapply event_ok; [exact Hg|exact Hok|done|done|exact Hf|lia|done|lia|].
      rewrite E1, E4. right. split; [done|]. exists (st sys0). split; [|done]. exists ops.
      split_and!; [done|apply Hok..]. }
  exists hist', acks', got'. split; [done|]. unfold putServer. rewrite <-(list_insert_id (r_queues t) s q Hq).
  eapply inv_put; [exact I|exact Hg|exact HC'|by rewrite nodes_setPeer|apply I|apply I|exact Hok'].
Qed.

(** A server receives an offered snapshot. *)
Lemma offer_ok n c hist acks got L s k m p sys sys' q ops :
  safeCluster n c hist acks got → offers c !! k = Some (s, m) → nodes (world c) !! s = Some p →
  serverOk n hist acks L (got s) p sys q ops → bytesAt L (SnapshotIndex m) (am_Snapshot m) →
  CommandValid m = false → sysStep (Req := Req) (with_rf p sys) (EvFetch m) = Some sys' →
  ∃ hist' acks' got', grown hist acks got hist' acks' got' ∧
    safeCluster n (dropOffer k (setPeer s (rf sys') c)) hist' acks' got' ∧
    ∃ ops', serverOk n hist' acks' L (got' s) (rf sys') sys' q ops'.
Proof.
  intros HC Ho Hp Hok Hbs Hv Hx. destruct (fetch_snapshot _ _ _ Hx Hv) as (Hfe & Happ & Hcase). simpl in Happ, Hcase.
  assert (rf sys' = p ∧ st sys' = st sys ∨ CondInstallSnapshot p (SnapshotTerm m) (SnapshotIndex m) (am_Snapshot m) = Some (rf sys', true) ∧
    st sys' = rep_load (am_Snapshot m) (st sys)) as [[-> Hst]|[Hinst Hst]].
  { destruct Hcase as [?|Hcase]; [by left|]. by apply rep_install. }
  - exists hist, acks, got. split; [apply grown_refl|]. rewrite setPeer_id by done. split; [by apply dropOffer_safe|]. exists ops.
    pose proof (so_disk Hok). pose proof (so_pos Hok) as Hpos.
    assert (len ops ≤ lastApplied p) as Hla by (rewrite <-(so_reach Hok); apply reach_ge).
    eapply event_ok; [apply grown_refl|exact Hok|done|done|intros i; by rewrite Hfe|lia|done|lia|done].
  - destruct (installs n c hist acks got k s m p (rf sys')) as (hist' & acks' & got' & Hg & HC'); try done.
    exists hist', acks', got'. split; [done|]. split; [done|].
    eapply install_ok; [exact HC|exact Hp|exact Hg| |exact Hinst|exact Hbs|exact Hok|done..].
    destruct (installed p (SnapshotTerm m) (SnapshotIndex m) (am_Snapshot m) (rf sys')) as (_ & _ & _ & <- & _); [|done|].
    { destruct HC as ([V _] & _). apply (no_wf _ _ _ (vi_nodes _ _ _ _ V _ _ Hp)). }
    eapply commit_got; [exact HC'|]. simpl. apply list_lookup_insert_eq. by eapply lookup_lt_Some.
Qed.

Lemma offer_step n t hist acks got L s k m sys sys' :
  replicatedInv n t hist acks got L → offers (r_cluster t) !! k = Some (s, m) → serverAt t s = Some sys →
  sysStep (Req := Req) sys (EvFetch m) = Some sys' →
  let t' := putServer t s sys' (r_queues t) in
  ∃ hist' acks' got', grown hist acks got hist' acks' got' ∧
    replicatedInv n (mkRState (dropOffer k (r_cluster t')) (r_servers t') (r_queues t')) hist' acks' got' L.
Proof.
  intros I Ho (p & sys0 & Hp & Hs & ->)%serverAt_Some Hx t'.
  destruct (inv_lookup _ _ _ _ _ _ _ _ I Hp) as (sys1 & q & ops & Hs1 & Hq & Hok).
  rewrite Hs in Hs1. injection Hs1 as <-. destruct (ri_sent I) as [HS HO].
  pose proof HO as HO1. rewrite Forall_lookup in HO1. destruct (HO1 _ _ Ho) as [Hbs Hv].
  destruct (offer_ok _ _ _ _ _ _ _ _ _ _ _ _ _ _ (ri_cluster I) Ho Hp Hok Hbs Hv Hx)
    as (hist' & acks' & got' & Hg & HC' & ops' & Hok').
  exists hist', acks', got'. split; [done|]. simpl. unfold putServer. rewrite <-(list_insert_id (r_queues t) s q Hq).
  eapply inv_put; [exact I|exact Hg|exact HC'|done| |apply I|exact Hok'].
  split; [exact HS|]. by apply Forall_delete.
Qed.

(** ** The invariant holds *)

(** The step takes the command [op] from a batch. *)
Definition takes t (a : SAction Req Op) (op : Op) : Prop :=
  ∃ s m q, a = STake s ∧ r_queues t !! s = Some (m :: q) ∧ am_Command m = Some op.

(** The log stays or gets the command that is taken. *)
Definition extends t (a : SAction Req Op) L L' : Prop := L' = L ∨ ∃ op, takes t a op ∧ L' = L ++ [op].

Lemma extends_prefix t a L L' : extends t a L L' → L `prefix_of` L'.
Proof. intros [->|(op & _ & ->)]; [done|by eexists]. Qed.

Lemma replicated_step n t a t' hist acks got L :
  replicatedInv n t hist acks got L → rsafe t a → rstep t a = Some t' →
  ∃ hist' acks' got' L', grown hist acks got hist' acks' got' ∧ extends t a L L' ∧ replicatedInv n t' hist' acks' got' L'.
Proof.
  intros I Hsafe H.
  assert ((∃ hist' acks' got', grown hist acks got hist' acks' got' ∧ replicatedInv n t' hist' acks' got' L) →
    ∃ hist' acks' got' L', grown hist acks got hist' acks' got' ∧ extends t a L L' ∧ replicatedInv n t' hist' acks' got' L') as Hstay.
  { intros (hist' & acks' & got' & ? & ?). exists hist', acks', got', L. split_and!; [done|by left|done]. }
  destruct a as [r|s|s|s|k|s e]; simpl in H.
  - case_if_in H; [|done]. apply bind_Some in H as (c' & Hx & [= <-]). by eapply Hstay, raft_step.
  - apply bind_Some in H as (c' & Hx & H). apply bind_Some in H as (p & Hp & [= <-]). by eapply Hstay, restart_step.
  - apply bind_Some in H as (q & Hq & H). destruct q; [|done]. apply bind_Some in H as (p & Hp & H).
    apply bind_Some in H as ([p' msgs] & Hu & [= <-]). eapply Hstay, update_step; [exact I|exact Hq|exact Hp|by apply Hsafe|exact Hu].
  - apply bind_Some in H as (q & Hq & H). destruct q as [|m q]; [done|]. apply bind_Some in H as (sys & Hs & H).
    apply bind_Some in H as (sys' & Hx & [= <-]). destruct (take_step _ _ _ _ _ _ _ _ _ _ _ I Hq Hs Hx) as (L' & HL & I').
    exists hist, acks, got, L'. split_and!; [apply grown_refl| |done].
    destruct HL as [->|(op & Hop & ->)]; [by left|]. right. exists op. split; [by exists s, m, q|done].
  - apply bind_Some in H as ([s m] & Ho & H). apply bind_Some in H as (sys & Hs & H).
    apply bind_Some in H as (sys' & Hx & [= <-]). by eapply Hstay, offer_step.
  - case_if_in H; [|done]. apply bind_Some in H as (sys & Hs & H). apply bind_Some in H as (sys' & Hx & [= <-]).
    by eapply Hstay, event_step.
Qed.

(** [L] is the log of the state [t] of a run. *)
Definition logOf (n : nat) t L : Prop := ∃ hist acks got, replicatedInv n t hist acks got L.

Lemma logOf_step n t a t' L : logOf n t L → rsafe t a → rstep t a = Some t' → ∃ L', extends t a L L' ∧ logOf n t' L'.
Proof.
  intros (hist & acks & got & I) Hs Hx. destruct (replicated_step _ _ _ _ _ _ _ _ I Hs Hx) as (hist' & acks' & got' & L' & _ & He & I').
  exists L'. split; [done|]. by exists hist', acks', got'.
Qed.

Lemma logOf_steps n t t' L : rtc rmove t t' → logOf n t L → ∃ L', L `prefix_of` L' ∧ logOf n t' L'.
Proof.
  intros Hr. revert L. induction Hr as [t|t t1 t' (a & Hs & Hx) _ IH]; intros L I; [by exists L|].
  destruct (logOf_step _ _ _ _ _ I Hs Hx) as (L1 & He & I1). destruct (IH _ I1) as (L2 & Hp & I2).
  exists L2. split; [|done]. etrans; [by eapply extends_prefix|done].
Qed.

Lemma logOf_init n t : initReplicated n = Some t → logOf n t [].
Proof.
  intros H. apply bind_Some in H as (c & Hi & [= <-]). destruct (safe_init _ _ Hi) as (hist & acks & got & HC).
  exists hist, acks, got. pose proof (fresh_length _ _ Hi) as Hlen.
  constructor; simpl; rewrite ?length_map, ?length_replicate; try done.
  - intros s p sys q Hp Hsys Hq. rewrite list_lookup_fmap, Hp in Hsys. injection Hsys as <-.
    apply lookup_replicate in Hq as [-> _]. destruct (fresh_peer _ _ _ _ Hi Hp) as [i Hmk].
    pose proof (Make_fresh_recovers _ _ _ Hmk) as Hrec. pose proof (Make_persister _ _ _ _ Hmk) as Hps.
    pose proof (rec_applied _ _ Hrec) as Hla. pose proof (rec_lii _ _ Hrec) as Hlii. simpl in Hla, Hlii.
    pose proof (commit_got _ _ _ _ _ _ _ HC Hp) as Hgot. rewrite (rec_commit _ _ Hrec) in Hgot.
    apply start_ok; rewrite Hlii; [|done|lia]. left. by rewrite Hps.
  - unfold initCluster in Hi. by apply bind_Some in Hi as (w & _ & [= <-]).
  - unfold initCluster in Hi. apply bind_Some in Hi as (w & _ & [= <-]). by apply Forall_nil.
Qed.

Lemma logOf_reachable n t : rreachable n t → ∃ L, logOf n t L.
Proof.
  induction 1 as [t Hi|t t' _ [L I] (a & Hs & Hx)]; [by exists []; apply logOf_init|].
  destruct (logOf_step _ _ _ _ _ I Hs Hx) as (L' & _ & ?). eauto.
Qed.

(** The log explains all servers. *)
Lemma logOf_explains n t L : logOf n t L → explains L t.
Proof.
  intros (hist & acks & got & I) s sys Hs. pose proof (lookup_lt_Some _ _ _ Hs) as Hlt. rewrite <-(ri_nodes I) in Hlt.
  destruct (lookup_lt_is_Some_2 _ _ Hlt) as [p Hp].
  destruct (inv_lookup _ _ _ _ _ _ _ _ I Hp) as (sys1 & q & ops & Hs1 & _ & [HL Hst _ _ _ _ _ _ Ha]).
  rewrite Hs in Hs1. injection Hs1 as <-. split; [by eapply follows_prefix|by eapply answered_prefix].
Qed.

(** C5: all servers of a replicated service follow one log. In a run of a cluster of servers,
    with calls lost, delayed and reordered, elections, crashes and restarts, and snapshots that
    the servers take, send and install, also in the middle of a batch, whose steps are [rsafe]
    ([elect] is not overtaken by a change of term; a leader that moves its commit index moves it
    to an entry of its own term; when a peer crashes or sends its snapshot, the term of the
    snapshot is the one on its disk; a restarted peer applies only after its commit index has
    passed its snapshot again): at any two moments there are two sequences of commands, the later
    one a continuation of the earlier one, that explain all servers. The state of every server is
    that of the sequential service after some prefix; the answer it gave at an index is the
    answer that the sequential service gives to the command there after all the commands before
    it or after a longer prefix (a server that installs a snapshot in the middle of a batch runs
    the rest of the batch on the newer state). *)
Theorem servers_share_log n t1 t2 :
  rreachable n t1 → rtc rmove t1 t2 →
  ∃ L1 L2, L1 `prefix_of` L2 ∧ explains L1 t1 ∧ explains L2 t2.
Proof.
  intros Hr Hs. destruct (logOf_reachable _ _ Hr) as [L1 I1]. destruct (logOf_steps _ _ _ _ Hs I1) as (L2 & Hp & I2).
  exists L1, L2. eauto using logOf_explains.
Qed.

(** ** The request path of every server *)
Definition requestsOk t : Prop := ∀ s sys, r_servers t !! s = Some sys → ∃ owner, sysInv sys owner.

Lemma sysInv_peer p sys owner : sysInv sys owner → sysInv (with_rf p sys) owner.
Proof. by destruct 1. Qed.

Lemma requests_step t a t' : requestsOk t → rstep (Req := Req) t a = Some t' → requestsOk t'.
Proof.
  intros H Hx.
  assert (∀ s sys e sys' qs, serverAt t s = Some sys → sysStep (Req := Req) sys e = Some sys' → requestsOk (putServer t s sys' qs)) as Hput.
  { intros s sys e sys' qs (p & sys0 & _ & Hs & ->)%serverAt_Some Hxx j sysj. unfold putServer. simpl.
    intros [(-> & <- & _)|[_ Hj]]%list_lookup_insert_Some; [|by eapply H].
    destruct (H _ _ Hs) as [owner Ho]. eapply sysStep_inv; [by apply sysInv_peer|exact Hxx]. }
  destruct a as [r|s|s|s|k|s e]; simpl in Hx.
  - case_if_in Hx; [|done]. by apply bind_Some in Hx as (c' & _ & [= <-]).
  - apply bind_Some in Hx as (c' & _ & Hx). apply bind_Some in Hx as (p & _ & [= <-]). simpl.
    intros j sysj [(-> & <- & _)|[_ Hj]]%list_lookup_insert_Some; [|by eapply H]. exists []. apply initSys_inv.
  - apply bind_Some in Hx as (q & _ & Hx). destruct q; [|done]. apply bind_Some in Hx as (p & _ & Hx).
    by apply bind_Some in Hx as ([p' msgs] & _ & [= <-]).
  - apply bind_Some in Hx as (q & _ & Hx). destruct q as [|m q]; [done|]. apply bind_Some in Hx as (sys & Hs & Hx).
    apply bind_Some in Hx as (sys' & Hy & [= <-]). exact (Hput s sys (EvFetch m) sys' _ Hs Hy).
  - apply bind_Some in Hx as ([s m] & _ & Hx). apply bind_Some in Hx as (sys & Hs & Hx).
    apply bind_Some in Hx as (sys' & Hy & [= <-]). exact (Hput s sys (EvFetch m) sys' (r_queues t) Hs Hy).
  - case_if_in Hx; [|done]. apply bind_Some in Hx as (sys & Hs & Hx). apply bind_Some in Hx as (sys' & Hy & [= <-]).
    exact (Hput s sys e sys' _ Hs Hy).
Qed.

Lemma requests_reachable n t : rreachable n t → requestsOk t.
Proof.
  induction 1 as [t Hi|t t' _ IH (a & _ & Hx)]; [|by eapply requests_step].
  apply bind_Some in Hi as (c & _ & [= <-]). intros s sys Hs. simpl in Hs.
  rewrite list_lookup_fmap in Hs. apply fmap_Some in Hs as (p & _ & ->). exists []. apply initSys_inv.
Qed.

Lemma rmoves_reachable n t1 t2 : rreachable n t1 → rtc rmove t1 t2 → rreachable n t2.
Proof. intros Hr Hs. induction Hs as [|t1 t t2 Hx _ IH]; [done|]. apply IH. by eapply rreach_step. Qed.

(** An answer that a handler has taken is one that its server gave. *)
Lemma handler_answer n t s sys h op index a :
  rreachable n t → r_servers t !! s = Some sys → handlers sys !! h = Some (HReply op index (Some a)) →
  ∃ op', (index, op', a) ∈ applied sys ∧ svc_UId op' = svc_UId op ∧ svc_RequestId op' = svc_RequestId op.
Proof.
  intros Hr Hs Hh. destruct (requests_reachable _ _ Hr _ _ Hs) as [owner Ho]. exact (inv_handlers _ _ Ho _ _ Hh).
Qed.
End replicated.
Arguments so_pos {St Req Op Ans Service0 Replicates0 n hist acks L g p sys q ops} _.
Arguments so_reach {St Req Op Ans Service0 Replicates0 n hist acks L g p sys q ops} _.
Arguments ri_cluster {St Req Op Ans Gob0 Gob1 Service0 Replicates0 n t hist acks got L} _.
