(* ===== verification/ReplicatedOrigin.v ===== *)
(** Where the commands of a replicated service come from: every command that a server takes was
    started by a handler of some server, for a request that it was called with. *)
From S2P Require Import Prelude Labgob Persister Raft RaftLog RaftNode RaftProps RaftService RaftElection.
From S2P Require Import RaftCluster RaftMatching RaftCommit RaftSafety RaftApply RaftOrigin RequestServer RequestProps.
From S2P Require Import Replicated ReplicatedProps.
#[local] Open Scope Z_scope.

Section origin.
Context {St Req Op Ans : Type} `{!Gob Z, !Gob (list (Log Op)), !Service St Req Op Ans, !Replicates St Req Op Ans, !ReplicatedLaws St Req Op Ans}.
Context (P : Op → Prop).
Implicit Types (p : Raft Op) (sys : Sys St Req Op Ans) (q : list (ApplyMsg Op)) (t : RState St Req Op Ans) (L : list Op).

Definition handlerOp (hd : Handler (Req := Req) (Op := Op) (Ans := Ans)) : option Op :=
  match hd with
  | HStart op | HIndex op _ | HWait op _ _ | HReply op _ _ | HDone op _ => Some op
  | HEarly _ _ => None
  end.

Definition ownHandlers sys : Prop := ∀ hd op, hd ∈ handlers sys → handlerOp hd = Some op → P op.
Definition ownBatch q : Prop := ∀ m op, m ∈ q → am_Command m = Some op → P op.

Record fromHandlers t : Prop := {
  fh_cluster : originated P (r_cluster t);
  fh_queues : ∀ s q, r_queues t !! s = Some q → ownBatch q;
  fh_handlers : ∀ s sys, r_servers t !! s = Some sys → ownHandlers sys;
}.

(** The commands of new requests *)
Definition asks t (a : SAction Req Op) (op : Op) : Prop :=
  ∃ s req sys, a = SEvent s (EvCall req) ∧ serverAt t s = Some sys ∧ svc_handle (st sys) req = inl op.

(** The steps of a handler *)
Inductive moved : Handler (Req := Req) (Op := Op) (Ans := Ans) → Handler (Req := Req) (Op := Op) (Ans := Ans) → Prop :=
  | moved_index op index : moved (HStart op) (HIndex op index)
  | moved_no_leader op : moved (HStart op) (HDone op None)
  | moved_wait op index c : moved (HIndex op index) (HWait op index c)
  | moved_reply op index c a : moved (HWait op index c) (HReply op index a)
  | moved_done op index a : moved (HReply op index a) (HDone op a).

Lemma moved_op hd hd' : moved hd hd' → handlerOp hd' = handlerOp hd.
Proof. by destruct 1. Qed.

(** A step of a server makes at most one step of a handler, or a new one. *)
Lemma event_moves sys e sys' hd :
  sysStep (Req := Req) sys e = Some sys' → hd ∈ handlers sys' →
  hd ∈ handlers sys ∨ (∃ hd0, hd0 ∈ handlers sys ∧ moved hd0 hd) ∨
  ∃ req, e = EvCall req ∧ hd = match svc_handle (st sys) req with inl op => HStart op | inr a => HEarly req a end.
Proof.
  intros H Hin.
  assert (∀ h hd0 v, handlers sys !! h = Some hd0 → handlers sys' = <[h := v]> (handlers sys) → moved hd0 v →
    hd ∈ handlers sys ∨ ∃ hd0, hd0 ∈ handlers sys ∧ moved hd0 hd) as Hmoved.
  { intros h hd0 v Hh Hhs Hv. rewrite Hhs in Hin. apply list_elem_of_lookup in Hin as [j Hj].
    apply list_lookup_insert_Some in Hj as [(-> & <- & _)|[_ Hj]]; [right; exists hd0|left]; [split; [|done]|];
      by eapply list_elem_of_lookup_2. }
  assert (handlers sys' = handlers sys → hd ∈ handlers sys) as Hsame by (by intros <-).
  destruct e as [ro|req|h|h|h|h|h|m| | |]; cbn [sysStep] in H.
  2: { injection H as <-. apply elem_of_app in Hin as [Hin|Hin]; [by left|right; right].
       apply list_elem_of_singleton in Hin as ->. by exists req. }
  1: { apply bind_Some in H as (p' & _ & [= <-]). left. by apply Hsame. }
  1-5: apply or_assoc; left; unfold dealRequest in H; apply bind_Some in H as (hd0 & Hh & H); destruct hd0; try done.
  - destruct (Start (rf sys) op) as [[p' [[index term] isLeader]] eff]. injection H as <-.
    eapply Hmoved; [exact Hh|done|]. destruct isLeader; constructor.
  - destruct (getWaitChan _ _ _ _) as [w c]. injection H as <-. eapply Hmoved; [exact Hh|done|constructor].
  - apply bind_Some in H as ([w a] & _ & [= <-]). eapply Hmoved; [exact Hh|done|constructor].
  - injection H as <-. eapply Hmoved; [exact Hh|done|constructor].
  - injection H as <-. eapply Hmoved; [exact Hh|done|constructor].
  - left. apply Hsame. unfold fetchApply in H. destruct (fetcher sys); try done. case_if_in H.
    + apply bind_Some in H as (o & _ & H). by apply bind_Some in H as ([s1 a] & _ & [= <-]).
    + case_if_in H; [|by injection H as <-]. by apply bind_Some in H as ([p' s1] & _ & [= <-]).
  - left. apply Hsame. unfold fetchApply in H. destruct (fetcher sys); try done.
    case_if_in H; [destruct (getWaitChan _ _ _ _) as [w c]|]; by injection H as <-.
  - left. apply Hsame. unfold fetchApply in H. destruct (fetcher sys); try done. by apply bind_Some in H as (w & _ & [= <-]).
  - left. apply Hsame. unfold fetchApply in H. destruct (fetcher sys); try done. by apply bind_Some in H as (w & _ & [= <-]).
Qed.

Lemma event_handlers sys e sys' hd op :
  sysStep (Req := Req) sys e = Some sys' → hd ∈ handlers sys' → handlerOp hd = Some op →
  (∃ hd0, hd0 ∈ handlers sys ∧ handlerOp hd0 = Some op) ∨ ∃ req, e = EvCall req ∧ svc_handle (st sys) req = inl op.
Proof.
  intros H Hin Ho. destruct (event_moves _ _ _ _ H Hin) as [?|[(hd0 & ? & Hm%moved_op)|(req & ? & ->)]]; [by left; eauto| |].
  - left. exists hd0. split; [done|congruence].
  - right. exists req. split; [done|]. destruct (svc_handle _ _); [by injection Ho as ->|done].
Qed.

Lemma event_own sys e sys' :
  sysStep (Req := Req) sys e = Some sys' → (∀ req op, e = EvCall req → svc_handle (st sys) req = inl op → P op) →
  ownHandlers sys → ownHandlers sys'.
Proof.
  intros H Hreq Ho hd op Hin Hhd. destruct (event_handlers _ _ _ _ _ H Hin Hhd) as [(hd0 & ? & ?)|(req & ? & ?)]; eauto.
Qed.

(** A batch has commands from the log. *)
Lemma batch_origin n c hist acks got s p p' msgs :
  safeCluster n c hist acks got → nodes (world c) !! s = Some p → lastIncludedIndex p ≤ lastApplied p →
  updateApplied p = Some (p', msgs) → ownLog P p → ownBatch msgs.
Proof.
  intros HC Hp Hlo Hu Hl m op Hm Hop. pose proof (applied_range _ _ _ _ _ _ _ HC Hp) as [Hhi _].
  destruct (updateApplied_spec p) as (p2 & ms & Hx & _ & _ & Hms); [lia..|]. rewrite Hu in Hx. injection Hx as <- <-.
  apply list_elem_of_lookup in Hm as [j Hj]. pose proof (lookup_lt_Some _ _ _ Hj) as Hlt.
  rewrite <-go_index_of_nat, Hms in Hj by (unfold len; lia). unfold applyMsgAt in Hj.
  apply bind_Some in Hj as (e & He & [= <-]). simpl in Hop. unfold ownLog in Hl. rewrite Forall_lookup in Hl.
  rewrite go_index_nonneg in He by (unfold realIndex; lia).
  apply (Hl (Z.to_nat (realIndex p (lastApplied p + 1 + Z.of_nat j)) - 1)%nat e); [|done]. rewrite lookup_tail, <-He.
  f_equal. unfold realIndex. lia.
Qed.

(** ** The servers *)
Lemma fromHandlers_put t s c' sys' q' :
  fromHandlers t → originated P c' → ownHandlers sys' → ownBatch q' →
  fromHandlers (mkRState c' (<[s := sys']> (r_servers t)) (<[s := q']> (r_queues t))).
Proof.
  intros [Hc Hq Hh] Hc' Hs' Hq'. constructor; simpl; [done| |].
  - intros j q [(-> & <- & _)|[_ Hj]]%list_lookup_insert_Some; [done|by eapply Hq].
  - intros j sys [(-> & <- & _)|[_ Hj]]%list_lookup_insert_Some; [done|by eapply Hh].
Qed.

(** What a server does to its peer's log *)
Lemma server_log p sys e sys' :
  wf p → (∀ op, e ≠ EvRaft op) → sysStep (Req := Req) (with_rf p sys) e = Some sys' →
  ownHandlers sys → ownLog P p → ownLog P (rf sys').
Proof.
  intros Hwf He Hx Hh Hl. destruct (serverEvent e) eqn:Hse.
  - destruct (serverEvent_effect _ _ _ Hse Hx) as (_ & _ & _ & [->|[(op & Hin & ->)|(i & _ & Ha)]]); simpl in *; [done| |].
    + apply (node_origin P p (OpStart op)); [done..|]. constructor; [|done]. intros c [= <-]. by eapply Hh.
    + destruct (rep_after _ _ _ _ Ha) as [->|(_ & Hs & _)]; [done|].
      by apply (node_origin P p (OpSnapshot i (rep_save (st sys)))); [..|constructor].
  - destruct e as [| | | | | | |m| | |]; try done; [by destruct (He op)|]. destruct (CommandValid m) eqn:Hv.
    + by destruct (fetch_command _ _ _ Hx Hv) as (op & a & _ & _ & -> & _).
    + destruct (fetch_snapshot _ _ _ Hx Hv) as (_ & _ & [[-> _]|Hi]); [done|]. simpl in Hi.
      destruct (rep_install _ _ _ _ _ Hi) as [[-> _]|[Hc _]]; [done|].
      apply (node_origin P p (OpCondInstallSnapshot (SnapshotTerm m) (SnapshotIndex m) (am_Snapshot m))); [done| |done|constructor].
      simpl. by rewrite Hc.
Qed.

Lemma server_step n t s e sys sys' q' c' L :
  logOf n t L → fromHandlers t → serverAt t s = Some sys → (∀ op, e ≠ EvRaft op) → sysStep sys e = Some sys' →
  (∀ req op, e = EvCall req → svc_handle (st sys) req = inl op → P op) → ownBatch q' →
  nodes (world c') = <[s := rf sys']> (nodes (world (r_cluster t))) → appends c' = appends (r_cluster t) →
  fromHandlers (mkRState c' (<[s := sys']> (r_servers t)) (<[s := q']> (r_queues t))).
Proof.
  intros (hist & acks & got & I) HF (p & sys0 & Hp & Hs & ->)%serverAt_Some He Hx Hreq Hq Hn Ha.
  pose proof HF as [Hc _ Hh]. destruct (ri_cluster I) as ([V _] & _).
  apply fromHandlers_put; [done| |by eapply event_own; [exact Hx|exact Hreq|exact (Hh _ _ Hs)]|done].
  eapply originated_put; [exact Hc|exact Hp|exact Hn| |rewrite Ha; apply Hc].
  eapply server_log; [|exact He|exact Hx|by eapply Hh|by eapply Hc]. apply (no_wf _ _ _ (vi_nodes _ _ _ _ V _ _ Hp)).
Qed.

Lemma fromHandlers_step n t a t' L :
  logOf n t L → (∀ op, asks t a op → P op) → rstep t a = Some t' → fromHandlers t → fromHandlers t'.
Proof.
  intros HL Hask H HF. pose proof HF as [Hc Hq Hh]. pose proof HL as (hist & acks & got & I).
  destruct a as [r|s|s|s|k|s e]; simpl in H.
  - case_if_in H; [|done]. apply bind_Some in H as (c' & Hx & [= <-]). constructor; [|done..]. simpl.
    eapply originated_step; [apply I| |exact Hx|done]. by intros command [s ->].
  - apply bind_Some in H as (c' & Hx & H). apply bind_Some in H as (p & Hp & [= <-]). apply fromHandlers_put; [done| | |].
    + apply (originated_step P n (r_cluster t) (RAct (ACrash s)) c' hist acks got); [apply I| |exact Hx|done]. by intros command [j ?].
    + by intros hd op ?%not_elem_of_nil.
    + by intros m op ?%not_elem_of_nil.
  - apply bind_Some in H as (q & Hqs & H). destruct q; [|done]. apply bind_Some in H as (p & Hp & H).
    apply bind_Some in H as ([p' msgs] & Hu & [= <-]). destruct (inv_lookup _ _ _ _ _ _ _ _ I Hp) as (sys & q & ops & Hs & Hq' & Hok).
    rewrite Hqs in Hq'. injection Hq' as <-. rewrite <-(list_insert_id (r_servers t) s sys Hs).
    assert (lastIncludedIndex p ≤ lastApplied p) as Hla.
    { rewrite <-(so_reach Hok). pose proof (so_pos Hok). unfold reach. simpl. lia. }
    destruct (ri_cluster I) as ([V _] & _).
    apply fromHandlers_put; [done| |exact (Hh _ _ Hs)|eapply batch_origin; [apply I|exact Hp|exact Hla|exact Hu|by eapply Hc]].
    eapply (originated_put P _ _ s p p'); [done|done|done| |apply Hc].
    apply (node_origin P p OpUpdateApplied); [apply (no_wf _ _ _ (vi_nodes _ _ _ _ V _ _ Hp))|simpl; by rewrite Hu|by eapply Hc|constructor].
  - apply bind_Some in H as (q & Hqs & H). destruct q as [|m q]; [done|]. apply bind_Some in H as (sys & Hs & H).
    apply bind_Some in H as (sys' & Hx & [= <-]). eapply (server_step n t s (EvFetch m)); [exact HL|done|exact Hs|done|exact Hx|done| |done|done].
    intros m' op Hm. eapply Hq; [exact Hqs|by right].
  - apply bind_Some in H as ([s m] & Ho & H). apply bind_Some in H as (sys & Hs & H).
    apply bind_Some in H as (sys' & Hx & [= <-]). pose proof Hs as (p & sys0 & Hp & _ & _)%serverAt_Some.
    destruct (inv_lookup _ _ _ _ _ _ _ _ I Hp) as (_ & q & _ & _ & Hqs & _).
    simpl. rewrite <-(list_insert_id (r_queues t) s q Hqs).
    eapply (server_step n t s (EvFetch m)); [exact HL|done|exact Hs|done|exact Hx|done|by eapply Hq|done|done].
  - case_if_in H; [|done]. apply bind_Some in H as (sys & Hs & H). apply bind_Some in H as (sys' & Hx & [= <-]).
    pose proof Hs as (p & sys0 & Hp & _ & _)%serverAt_Some. destruct (inv_lookup _ _ _ _ _ _ _ _ I Hp) as (_ & q & _ & _ & Hqs & _).
    unfold putServer. rewrite <-(list_insert_id (r_queues t) s q Hqs).
    eapply (server_step n t s e); [exact HL|done|exact Hs|by destruct e|exact Hx| |by eapply Hq|done|done].
    intros req op -> Hr. apply Hask. by exists s, req, sys.
Qed.

Lemma fromHandlers_init n t : initReplicated n = Some t → fromHandlers t.
Proof.
  intros H. apply bind_Some in H as (c & Hi & [= <-]). constructor; simpl.
  - constructor.
    + intros s p Hp. destruct (fresh_peer _ _ _ _ Hi Hp) as [i Hmk%Make_fresh_recovers].
      unfold ownLog. rewrite (rec_log _ _ Hmk). constructor.
    + unfold initCluster in Hi. apply bind_Some in Hi as (w & _ & [= <-]). constructor.
  - intros s q [-> _]%lookup_replicate. by intros m op ?%not_elem_of_nil.
  - intros s sys Hs. rewrite list_lookup_fmap in Hs. apply fmap_Some in Hs as (p & _ & ->).
    by intros hd op ?%not_elem_of_nil.
Qed.

(** The handlers after a step *)
Lemma step_moves t a t' s sys' hd :
  rstep (Req := Req) t a = Some t' → r_servers t' !! s = Some sys' → hd ∈ handlers sys' →
  ∃ sys, r_servers t !! s = Some sys ∧
    (hd ∈ handlers sys ∨ (∃ hd0, hd0 ∈ handlers sys ∧ moved hd0 hd) ∨
     ∃ req, a = SEvent s (EvCall req) ∧ hd = match svc_handle (st sys) req with inl op => HStart op | inr b => HEarly req b end).
Proof.
  intros H Hs Hin.
  assert (∀ s0 sys0 e sys1 qs, serverAt t s0 = Some sys0 → sysStep sys0 e = Some sys1 → r_servers t' = r_servers (putServer t s0 sys1 qs) →
    ∃ sys, r_servers t !! s = Some sys ∧ (hd ∈ handlers sys ∨ (∃ hd0, hd0 ∈ handlers sys ∧ moved hd0 hd) ∨
      ∃ req, s0 = s ∧ e = EvCall req ∧ hd = match svc_handle (st sys) req with inl op => HStart op | inr b => HEarly req b end)) as Hput.
  { intros s0 sys0 e sys1 qs (p & sys2 & _ & Hs2 & ->)%serverAt_Some Hx Ht. rewrite Ht in Hs. unfold putServer in Hs. simpl in Hs.
    apply list_lookup_insert_Some in Hs as [(-> & -> & _)|[_ Hs]]; [|by exists sys'; auto].
    exists sys2. split; [done|]. destruct (event_moves _ _ _ _ Hx Hin) as [?|[?|(req & ? & ?)]]; auto. right; right. by exists req. }
  destruct a as [r|s0|s0|s0|k|s0 e]; simpl in H.
  - case_if_in H; [|done]. apply bind_Some in H as (c' & _ & [= <-]). exists sys'. auto.
  - apply bind_Some in H as (c' & _ & H). apply bind_Some in H as (p & _ & [= <-]). simpl in Hs.
    apply list_lookup_insert_Some in Hs as [(_ & <- & _)|[_ Hs]]; [by apply not_elem_of_nil in Hin|exists sys'; auto].
  - apply bind_Some in H as (q & _ & H). destruct q; [|done]. apply bind_Some in H as (p & _ & H).
    apply bind_Some in H as ([p' msgs] & _ & [= <-]). exists sys'. auto.
  - apply bind_Some in H as (q & _ & H). destruct q as [|m q]; [done|]. apply bind_Some in H as (sys & Hs0 & H).
    apply bind_Some in H as (sys1 & Hx & [= <-]). destruct (Hput _ _ (EvFetch m) _ _ Hs0 Hx eq_refl) as (sys2 & ? & [?|[?|(req & _ & ? & _)]]);
      [exists sys2; auto..|done].
  - apply bind_Some in H as ([s0 m] & _ & H). apply bind_Some in H as (sys & Hs0 & H).
    apply bind_Some in H as (sys1 & Hx & [= <-]). destruct (Hput _ _ (EvFetch m) _ (r_queues t) Hs0 Hx eq_refl) as (sys2 & ? & [?|[?|(req & _ & ? & _)]]);
      [exists sys2; auto..|done].
  - case_if_in H; [|done]. apply bind_Some in H as (sys & Hs0 & H). apply bind_Some in H as (sys1 & Hx & [= <-]).
    destruct (Hput _ _ e _ _ Hs0 Hx eq_refl) as (sys2 & ? & [?|[?|(req & -> & -> & ?)]]); exists sys2; eauto 6.
Qed.

(** A command that a server takes is one of a handler. *)
Lemma takes_own t a op : fromHandlers t → takes t a op → P op.
Proof. intros [_ Hq _] (s & m & q & _ & Hs & Hop). eapply Hq; [exact Hs| |exact Hop]. by left. Qed.
End origin.

Lemma fromHandlers_weaken {St Req Op Ans : Type} `{!Service St Req Op Ans} (P Q : Op → Prop) (t : RState St Req Op Ans) :
  (∀ op, P op → Q op) → fromHandlers P t → fromHandlers Q t.
Proof.
  intros HPQ [Hc Hq Hh]. constructor; [by eapply originated_weaken| |].
  - intros s q Hs m op Hm Hop. by eapply HPQ, Hq.
  - intros s sys Hs hd op Hhd Hop. by eapply HPQ, Hh.
Qed.
