(* ===== verification/ReplicatedKV.v ===== *)
(** The two services as replicated services: [kvraft] and [shardctrler] keep the laws of
    [Replicated], so that [servers_share_log] holds of both.  What it means for the clients of
    [kvraft] is in [KVClients]. *)
From S2P Require Import Prelude Labgob Persister Raft RaftLog RaftNode RaftProps RaftService RaftElection.
From S2P Require Import RaftCluster RaftMatching RaftCommit RaftSafety RaftApply RequestServer RequestProps.
From S2P Require Import KVServer KVModel KVProps ShardCtrler Replicated ReplicatedProps.
#[local] Open Scope Z_scope.

(** ** The key/value service *)
Section kv.
Import KV.
Context `{!Gob Z, !Gob (gmap Z Z), !Gob (gmap string string), !Gob (list (Log Op))}.
Context (maxraftstate : Z).
#[local] Instance kv_service : Service KVState Request Op Answer := kvService maxraftstate.

#[export] Instance kv_replicates : Replicates KVState Request Op Answer := {|
  rep_init := mkKV ∅ ∅;
  rep_snapshots := true;
  rep_load data kv := readSnapshot kv data;
  rep_save := createSnapshot;
|}.

Lemma svcRun_replay kv ops : svcRun kv ops = Some (replay kv ops).1.
Proof.
  revert kv. induction ops as [|op ops IH]; intros kv; [done|]. simpl.
  destruct (applyCommand kv op) as [kv1 a]. rewrite IH. by destruct (replay kv1 ops).
Qed.

(** A request that was applied is not above the last one of its client. *)
Lemma applied_below ops : ∀ kv op,
  op ∈ ops ∨ RequestId op ≤ lastReq kv (UId op) → RequestId op ≤ lastReq (replay kv ops).1 (UId op).
Proof.
  induction ops as [|o ops IH]; intros kv op H; simpl.
  - by destruct H as [?%not_elem_of_nil|].
  - pose proof (applyCommand_last kv o (UId op)) as Hl. destruct (applyCommand kv o) as [kv1 a]. simpl in Hl.
    specialize (IH kv1 op). destruct (replay kv1 ops) as [kv2 l]. simpl in *. apply IH.
    destruct H as [[->|?]%elem_of_cons|Hle]; [|by left|]; right; rewrite Hl; case_decide; congruence || lia.
Qed.

Lemma applyCommand_again kv op : RequestId op ≤ lastReq kv (UId op) → (applyCommand kv op).1 = kv.
Proof.
  intros H. unfold applyCommand. rewrite (proj2 (Z.leb_le _ _) H), (proj2 (Z.ltb_ge _ _) H).
  destruct (op_Op op =? GET)%string; simpl; [destruct (m kv !! Key op)|]; by destruct kv.
Qed.

#[export] Instance kv_laws : ReplicatedLaws KVState Request Op Answer.
Proof.
  split.
  - simpl. apply readSnapshot_nil.
  - intros p p' kv i H. simpl in H. unfold afterCommand in H. case_if_in H; [|injection H as <-; by left].
    right. split_and!; [done|done|]. intros kv'. apply readSnapshot_createSnapshot.
  - intros p p' kv kv' msg H. simpl in H. unfold installSnapshot in H.
    apply bind_Some in H as ([p1 ok] & Hx & [= <- <-]). destruct ok; [by right|left].
    unfold CondInstallSnapshot in Hx. case_if_in Hx; [by injection Hx as <-|].
    apply bind_Some in Hx as (? & _ & Hx). by apply bind_Some in Hx as (? & _ & Hx).
  - intros ops kv kv' op a _ Hr Hin Hx. rewrite svcRun_replay in Hr. injection Hr as <-. simpl in Hx. injection Hx as Hx.
    change kv' with ((kv', a).1). rewrite <-Hx. apply applyCommand_again. by apply applied_below; left.
Qed.

Lemma svcRun_init ops kv : svcRun rep_init ops = Some kv → kv = (replay (mkKV ∅ ∅) ops).1.
Proof. rewrite svcRun_replay. by intros [= <-]. Qed.

(** In order, the service is the plain map. *)
Lemma replay_plain ops :
  clientOrder [] ops →
  m (replay (mkKV ∅ ∅) ops).1 = (runSpec [] ∅ ops).1 ∧ (replay (mkKV ∅ ∅) ops).2 = (runSpec [] ∅ ops).2.
Proof. intros Ho. pose proof (replay_spec ops _ _ (remembers_empty ∅) Ho) as H. simpl in H. by rewrite <-H. Qed.
End kv.

(** ** The shard controller *)
Section ctrl.
Context `{!Gob Z, !Gob (list (Log SC.Op))} (ord : nat → SC.shardMap → list (Z * list Z)).
#[local] Existing Instance SC.ctrlService.

(** It takes no snapshots. *)
#[export] Instance ctrl_replicates : Replicates SC.ShardCtrler SC.Request SC.Op SC.Answer (Service0 := SC.ctrlService ord) := {|
  rep_init := SC.initSC;
  rep_snapshots := false;
  rep_load _ sc := sc;
  rep_save _ := [];
|}.

#[export] Instance ctrl_laws : ReplicatedLaws SC.ShardCtrler SC.Request SC.Op SC.Answer (Service0 := SC.ctrlService ord).
Proof.
  split.
  - done.
  - intros p p' sc i H. simpl in H. injection H as <-. by left.
  - intros p p' sc sc' msg H. simpl in H. injection H as <- <-. by left.
  - done.
Qed.
End ctrl.
