(* ===== verification/ServiceConfig.v ===== *)
(** Model of [src/src/kvraft/config.go] and [src/src/shardctrler/config.go], the harnesses of the
    tests of the two services on Raft: they run the servers on a network, partition it, stop and
    restart servers and make clerks.

    The two files are copies of each other, so what they share is written once, over the type of
    the servers ([Hosted]); [Module KVConfig] and [Module CtrlConfig] hold what differs.  Pointers to
    clerks are numbers.  [saved[i]] is the very persister of the server [i] while that server is up. *)
From S2P Require Import Prelude Labgob Labrpc TestNet Persister RaftConfig.
From S2P Require Import Raft RequestServer KVServer ShardCtrler.
#[local] Open Scope Z_scope.

(** What a harness needs of its server. *)
Class Hosted (Srv : Type) := {
  srvPersister : Srv → Persister;
  srvGetState : Srv → Z * bool;                    (* [server.rf.GetState()] *)
  srvKill : Srv → Srv;
  srvStart : nat → Z → Persister → option Srv;
}.

(** [randstring] and [nrand] are arguments, so are the numbers [js] of [rand.Intn(i + 1)]. *)
Definition random_handles {A} (js : list Z) (kvh : list A) : option (list A) :=
  go_for (length kvh) (λ i sa,
    j ← js.[i];
    a ← sa.[j]; b ← sa.[i];
    sa ← sa.[i <~ a];
    sa.[j <~ b]) kvh.

Section harness.
Context {Srv : Type} `{!Hosted Srv}.

Record config := mkConfig {
  net : Net;
  n : nat;
  kvservers : list (option Srv);
  saved : list (option Persister);
  endnames : Grid;
  clerks : gmap nat (list string);
  nextClientId : Z;
}.

Definition set_net v cfg := mkConfig v (n cfg) (kvservers cfg) (saved cfg) (endnames cfg) (clerks cfg) (nextClientId cfg).
Definition set_kvservers v cfg := mkConfig (net cfg) (n cfg) v (saved cfg) (endnames cfg) (clerks cfg) (nextClientId cfg).
Definition set_saved v cfg := mkConfig (net cfg) (n cfg) (kvservers cfg) v (endnames cfg) (clerks cfg) (nextClientId cfg).
Definition set_endnames v cfg := mkConfig (net cfg) (n cfg) (kvservers cfg) (saved cfg) v (clerks cfg) (nextClientId cfg).
Definition set_clerks v id cfg := mkConfig (net cfg) (n cfg) (kvservers cfg) (saved cfg) (endnames cfg) v id.

(** ** Servers on the network *)
Definition connectUnlocked (i : Z) (to : list Z) (cfg : config) : option config :=
  nt ← enableLoop (λ j, t ← to.[j]; endName (endnames cfg) i t) (λ _, Some true) true (upTo (length to)) (net cfg);
  nt ← enableLoop (λ j, t ← to.[j]; endName (endnames cfg) t i) (λ _, Some true) true (upTo (length to)) nt;
  Some (set_net nt cfg).

Definition connect := connectUnlocked.

(** The second test looks at the names of server [j], not of [from[j]]. *)
Definition disconnectUnlocked (i : Z) (from : list Z) (cfg : config) : option config :=
  nt ← enableLoop (λ j, f ← from.[j]; endName (endnames cfg) i f) (λ _, hasEnds (endnames cfg) i) false
         (upTo (length from)) (net cfg);
  nt ← enableLoop (λ j, f ← from.[j]; endName (endnames cfg) f i) (λ j, hasEnds (endnames cfg) j) false
         (upTo (length from)) nt;
  Some (set_net nt cfg).

Definition disconnect := disconnectUnlocked.

Definition All (cfg : config) : list Z := upTo (n cfg).

Definition ConnectAll (cfg : config) : option config :=
  go_for (n cfg) (λ i cfg, connectUnlocked i (All cfg) cfg) cfg.

Definition partition (p1 p2 : list Z) (cfg : config) : option config :=
  cfg ← go_for (length p1) (λ i cfg, x ← p1.[i]; cfg ← disconnectUnlocked x p2 cfg; connectUnlocked x p1 cfg) cfg;
  go_for (length p2) (λ i cfg, x ← p2.[i]; cfg ← disconnectUnlocked x p1 cfg; connectUnlocked x p2 cfg) cfg.

(** ** Clerks *)
Definition ConnectClientUnlocked (ck : nat) (to : list Z) (cfg : config) : option config :=
  let names := default [] (clerks cfg !! ck) in
  nt ← enableLoop (λ j, t ← to.[j]; names.[t]) (λ _, Some true) true (upTo (length to)) (net cfg);
  Some (set_net nt cfg).

Definition ConnectClient := ConnectClientUnlocked.

Definition DisconnectClientUnlocked (ck : nat) (from : list Z) (cfg : config) : option config :=
  let names := default [] (clerks cfg !! ck) in
  nt ← enableLoop (λ j, f ← from.[j]; names.[f]) (λ _, Some true) false (upTo (length from)) (net cfg);
  Some (set_net nt cfg).

Definition DisconnectClient := DisconnectClientUnlocked.

(** [ck]: the pointer of the new clerk, [names] its strings.  Also returned: the ends that
    [MakeClerk] is given. *)
Definition makeClient (ck : nat) (names : list string) (js : list Z) (to : list Z) (cfg : config) :
    option (config * list string) :=
  nt ← makeEnds names inr (n cfg) (net cfg);
  ends ← random_handles js names;
  cfg ← ConnectClientUnlocked ck to
          (set_clerks (<[ck := names]> (clerks cfg)) (nextClientId cfg + 1) (set_net nt cfg));
  Some (cfg, ends).

(** The files that [os.Remove] is asked to remove do not exist. *)
Definition deleteClient (ck : nat) (cfg : config) : config :=
  set_clerks (delete ck (clerks cfg)) (nextClientId cfg) cfg.

(** ** Stopping and starting servers *)

(** What [cfg.saved[i]] holds: a server that is up writes through the pointer it was given. *)
Definition savedNow (cfg : config) (i : Z) : option (option Persister) :=
  kv ← (kvservers cfg).[i];
  match kv with Some kv => Some (Some (srvPersister kv)) | None => (saved cfg).[i] end.

Definition ShutdownServer (i : Z) (cfg : config) : option config :=
  cfg ← disconnectUnlocked i (All cfg) cfg;
  let cfg := set_net (DeleteServer (inr i) (net cfg)) cfg in
  s ← savedNow cfg i;
  sv ← (saved cfg).[i <~ Copy <$> s];
  ks ← (kvservers cfg).[i <~ None];
  Some (set_kvservers ks (set_saved sv cfg)).

(** [names]: the strings that [randstring] returns; [srv]: the identity of the new [labrpc] server. *)
Definition StartServer (i : Z) (names : list string) (srv : nat) (cfg : config) : option config :=
  ens ← (endnames cfg).[i <~ Some names];
  nt ← makeEnds names inr (n cfg) (net cfg);
  s ← savedNow cfg i;
  let p := match s with Some p => Copy p | None => MakePersister end in
  sv ← (saved cfg).[i <~ Some p];
  kv ← srvStart (n cfg) i p;
  ks ← (kvservers cfg).[i <~ Some kv];
  Some (set_net (AddServer (inr i) srv nt) (set_kvservers ks (set_saved sv (set_endnames ens cfg)))).

(** The loop of [Leader] from server [i] on, [k] servers left; [skip]: whether servers that are
    down are skipped.  Without it they are a nil dereference. *)
Fixpoint findLeader (skip : bool) (k : nat) (i : Z) (cfg : config) : option (bool * Z) :=
  match k with
  | O => Some (false, 0)
  | S k =>
      kv ← (kvservers cfg).[i];
      match kv with
      | Some kv => if (srvGetState kv).2 then Some (true, i) else findLeader skip k (i + 1) cfg
      | None => if skip then findLeader skip k (i + 1) cfg else None
      end
  end.

(** [make_partition] around the leader [l] *)
Definition splitAround (l : Z) (n : nat) : option (list Z * list Z) :=
  p1 ← go_make (Z.of_nat n `quot` 2 + 1) 0;
  p2 ← go_make (Z.of_nat n `quot` 2) 0;
  '(_, p1, p2) ← go_for n (λ i '(j, p1, p2),
    if negb (i =? l) then
      '(p1, p2) ← (if j <? len p1 then p1 ← p1.[j <~ i]; Some (p1, p2)
                   else p2 ← p2.[j - len p1 <~ i]; Some (p1, p2));
      Some (j + 1, p1, p2)
    else Some (j, p1, p2)) (0, p1, p2);
  p2 ← p2.[len p2 - 1 <~ l];
  Some (p1, p2).

(** ** The whole harness *)
Definition emptyConfig (n : nat) : config :=
  mkConfig MakeNetwork n (replicate n None) (replicate n None) (replicate n None) ∅ (Z.of_nat n + 1000).

Definition make_config (n : nat) (unreliable : bool) (names : list (list string)) (srv : Z → nat) : option config :=
  cfg ← go_for n (λ i cfg, ns ← names.[i]; StartServer i ns (srv i) cfg) (emptyConfig n);
  cfg ← ConnectAll cfg;
  Some (set_net (Reliable (negb unreliable) (net cfg)) cfg).

Definition checkTimeout : bool → Z → Cfg.Outcome Empty_set unit := Cfg.checkTimeout.

Definition cleanup (failed : bool) (elapsed : Z) (cfg : config) : Cfg.Outcome Empty_set config :=
  let cfg := set_kvservers (map (fmap srvKill) (kvservers cfg)) cfg in
  nt ← Cfg.orPanic (Cleanup (net cfg));
  _ ← checkTimeout failed elapsed;
  Cfg.Pass (set_net nt cfg).

(** The maximum of a size over all servers; a server that was never started has no persister. *)
Definition maxSize (size : Persister → Z) (cfg : config) : option Z :=
  go_for (n cfg) (λ i m,
    s ← savedNow cfg i; p ← s;
    let sz := size p in
    Some (if sz >? m then sz else m)) 0.

Definition LogSize : config → option Z := maxSize RaftStateSize.
Definition SnapshotSize : config → option Z := maxSize Persister.SnapshotSize.
End harness.
Arguments config : clear implicits.

(** ** [kvraft/config.go] *)
Module KVConfig.
Import KV.
Section config.
Context `{!Gob Z, !Gob (gmap Z Z), !Gob (gmap string string), !Gob (list (Log Op))}.

(** The persister of a server is that of its Raft peer. *)
#[export] Instance kvHosted : Hosted (Sys KVState Request Op Answer) := {|
  srvPersister s := persister (rf s);
  srvGetState s := GetState (rf s);
  srvKill := Kill;
  srvStart := StartKVServer;
|}.

(** The fields that only this package has. *)
Record config := mkConfig {
  base : ServiceConfig.config (Sys KVState Request Op Answer);
  maxraftstate : Z;
  rpcs0 : Z;
  ops : Z;
}.

Definition make_config (n : nat) (unreliable : bool) (maxraftstate : Z) (names : list (list string)) (srv : Z → nat) :
    option config :=
  cfg ← ServiceConfig.make_config n unreliable names srv;
  Some (mkConfig cfg maxraftstate 0 0).

(** A server that is down is a nil dereference. *)
Definition Leader (cfg : config) : option (bool * Z) := findLeader false (n (base cfg)) 0 (base cfg).

Definition make_partition (cfg : config) : option (list Z * list Z) :=
  '(_, l) ← Leader cfg; splitAround l (n (base cfg)).

Definition rpcTotal (cfg : config) : Z := GetTotalCount (net (base cfg)).
Definition begin (cfg : config) : config := mkConfig (base cfg) (maxraftstate cfg) (rpcTotal cfg) 0.
(** [atomic.AddInt32] *)
Definition op (cfg : config) : config :=
  mkConfig (base cfg) (maxraftstate cfg) (rpcs0 cfg) (wrapS 32 (ops cfg + 1)).

(** What [end] prints: servers, calls, operations. *)
Definition end_ (failed : bool) (elapsed : Z) (cfg : config) : Cfg.Outcome Empty_set (option (nat * Z * Z)) :=
  _ ← checkTimeout failed elapsed;
  Cfg.Pass (if negb failed then Some (n (base cfg), rpcTotal cfg - rpcs0 cfg, ops cfg) else None).
End config.
End KVConfig.

(** ** [shardctrler/config.go] *)
Module CtrlConfig.
Import SC.
Abbreviation config := (ServiceConfig.config (Sys SC.ShardCtrler Request Op Answer)).

Section config.
Context `{!Gob Z, !Gob (list (Log Op))}.

#[export] Instance ctrlHosted : Hosted (Sys SC.ShardCtrler Request Op Answer) := {|
  srvPersister s := persister (rf s);
  srvGetState s := GetState (rf s);
  srvKill := Kill;
  srvStart := SC.StartServer;
|}.

(** The copies of the shared operations in this package. *)
Definition connectUnlocked : Z → list Z → config → option config := ServiceConfig.connectUnlocked.
Definition connect : Z → list Z → config → option config := connectUnlocked.
Definition disconnectUnlocked : Z → list Z → config → option config := ServiceConfig.disconnectUnlocked.
Definition disconnect : Z → list Z → config → option config := disconnectUnlocked.
Definition All : config → list Z := ServiceConfig.All.
Definition ConnectAll : config → option config := ServiceConfig.ConnectAll.
Definition partition : list Z → list Z → config → option config := ServiceConfig.partition.
Definition makeClient : nat → list string → list Z → list Z → config → option (config * list string) :=
  ServiceConfig.makeClient.
Definition deleteClient : nat → config → config := ServiceConfig.deleteClient.
Definition ConnectClientUnlocked : nat → list Z → config → option config := ServiceConfig.ConnectClientUnlocked.
Definition ConnectClient : nat → list Z → config → option config := ConnectClientUnlocked.
Definition DisconnectClientUnlocked : nat → list Z → config → option config := ServiceConfig.DisconnectClientUnlocked.
Definition DisconnectClient : nat → list Z → config → option config := DisconnectClientUnlocked.
Definition ShutdownServer : Z → config → option config := ServiceConfig.ShutdownServer.
Definition StartServer : Z → list string → nat → config → option config := ServiceConfig.StartServer.
Definition make_config : nat → bool → list (list string) → (Z → nat) → option config := ServiceConfig.make_config.
Definition checkTimeout : bool → Z → Cfg.Outcome Empty_set unit := ServiceConfig.checkTimeout.
Definition cleanup : bool → Z → config → Cfg.Outcome Empty_set config := ServiceConfig.cleanup.
Definition LogSize : config → option Z := ServiceConfig.LogSize.

(** Servers that are down are skipped. *)
Definition Leader (cfg : config) : option (bool * Z) := findLeader true (n cfg) 0 cfg.

Definition make_partition (cfg : config) : option (list Z * list Z) :=
  '(_, l) ← Leader cfg; splitAround l (n cfg).
End config.
End CtrlConfig.
