(* ===== verification/ServiceNet.v ===== *)
(** The harnesses of the services on the network: which servers [connect], [disconnect], [ConnectAll]
    and [partition] link to which, what [make_partition] splits, and that [random_handles] permutes. *)
From S2P Require Import Prelude Labgob Labrpc TestNet Persister RaftConfig ServiceConfig.
#[local] Open Scope Z_scope.

(** ** [random_handles] *)
Lemma swap_Permutation {A} (l : list A) i j a b :
  l.[i] = Some b → l.[j] = Some a → <[Z.to_nat j := b]> (<[Z.to_nat i := a]> l) ≡ₚ l.
Proof.
  intros Hi Hj. pose proof (go_index_Some_lt _ _ _ Hi). pose proof (go_index_Some_lt _ _ _ Hj).
  rewrite go_index_nonneg in Hi, Hj by lia. destruct (decide (i = j)) as [<-|Hij].
  { rewrite list_insert_insert_eq. assert (a = b) as -> by congruence. by rewrite list_insert_id. }
  apply Permutation_inj. split; [by rewrite !length_insert|].
  exists (λ k, if decide (k = Z.to_nat i) then Z.to_nat j else if decide (k = Z.to_nat j) then Z.to_nat i else k).
  split; [intros x y; repeat case_decide; lia|]. unfold len in *.
  intros k. repeat case_decide; subst.
  - by rewrite list_lookup_insert_ne, list_lookup_insert_eq by lia.
  - by rewrite list_lookup_insert_eq by (rewrite ?length_insert; lia).
  - by rewrite !list_lookup_insert_ne by lia.
Qed.

Lemma random_handles_perm {A} (js : list Z) (kvh : list A) :
  (∀ i, 0 ≤ i < len kvh → ∃ j, js.[i] = Some j ∧ 0 ≤ j ≤ i) →
  ∃ sa, random_handles js kvh = Some sa ∧ sa ≡ₚ kvh.
Proof.
  intros Hjs. unfold random_handles.
  edestruct (go_for_inv (λ i sa, sa ≡ₚ kvh)) as (sa & Hsa & Hp); [reflexivity| |by eexists].
  intros i sa Hi Hp; cbv beta. destruct (Hjs i) as (j & -> & Hj); [unfold len; lia|]. simpl.
  assert (len sa = len kvh) as Hlen by (unfold len; by rewrite Hp).
  destruct (go_index_lt_Some sa j) as [a Ha]; [rewrite Hlen; unfold len; lia|].
  destruct (go_index_lt_Some sa i) as [b Hb]; [rewrite Hlen; unfold len; lia|].
  rewrite Ha, Hb. simpl. rewrite !go_store_Some by (unfold len in *; rewrite ?length_insert; lia). simpl.
  rewrite go_store_Some by (unfold len in *; rewrite ?length_insert; lia).
  eexists. split; [reflexivity|]. by rewrite swap_Permutation.
Qed.

(** ** [make_partition] *)

(** What [append] would have made of a prefix [l] of a slice of [k] zeros. *)
Definition pad (k : nat) (l : list Z) : list Z := l ++ replicate (k - length l) 0.

Lemma len_pad k l : (length l ≤ k)%nat → len (pad k l) = Z.of_nat k.
Proof. unfold len, pad. rewrite length_app, length_replicate. lia. Qed.

Lemma pad_full k l : length l = k → pad k l = l.
Proof. intros <-. unfold pad. rewrite Nat.sub_diag. apply app_nil_r. Qed.

Lemma pad_store k l x : (length l < k)%nat → (pad k l).[len l <~ x] = Some (pad k (l ++ [x])).
Proof.
  intros Hl. rewrite go_store_Some by (rewrite len_pad by lia; unfold len; lia). f_equal.
  unfold pad, len. rewrite Nat2Z.id, length_app. simpl.
  destruct (k - length l)%nat as [|d] eqn:Hd; [lia|]. simpl.
  rewrite insert_app_r_alt, Nat.sub_diag by lia. simpl.
  rewrite <-app_assoc. simpl. do 3 f_equal. lia.
Qed.

Definition others (l : Z) (k : nat) : list Z := filter (λ i, i ≠ l) (upTo k).

Lemma length_upTo k : length (upTo k) = k.
Proof. unfold upTo. by rewrite length_map, length_seq. Qed.

Lemma NoDup_upTo k : NoDup (upTo k).
Proof. unfold upTo. apply (NoDup_fmap_2 Z.of_nat). apply NoDup_seq. Qed.

Lemma others_S l k : others l (S k) = others l k ++ (if decide (Z.of_nat k = l) then [] else [Z.of_nat k]).
Proof.
  unfold others. rewrite upTo_S, filter_app. f_equal. rewrite filter_cons, filter_nil. repeat case_decide; naive_solver.
Qed.

Lemma length_others l k : length (others l k) = if decide (0 ≤ l < Z.of_nat k) then (k - 1)%nat else k.
Proof.
  induction k as [|k IH]; [simpl; case_decide; lia|].
  rewrite others_S, length_app, IH. repeat case_decide; simpl; lia.
Qed.

(** The state of the loop of [make_partition] when [o] of the servers other than the leader were placed. *)
Definition placed (m : nat) (o : list Z) : Z * list Z * list Z :=
  (len o, pad (S m) (take (S m) o), pad m (drop (S m) o)).

Lemma placed_snoc m o x :
  (length o < 2 * m)%nat →
  (let '(j, p1, p2) := placed m o in
   '(p1, p2) ← (if j <? len p1 then p1 ← p1.[j <~ x]; Some (p1, p2)
                else p2 ← p2.[j - len p1 <~ x]; Some (p1, p2));
   Some (j + 1, p1, p2)) = Some (placed m (o ++ [x])).
Proof.
  intros Ho. unfold placed. rewrite len_pad by (rewrite length_take; lia).
  assert (len (o ++ [x]) = len o + 1) as -> by (unfold len; rewrite length_app; simpl; lia).
  destruct (len o <? Z.of_nat (S m)) eqn:Hlt; [apply Z.ltb_lt in Hlt|apply Z.ltb_ge in Hlt]; unfold len in Hlt.
  - rewrite !take_ge, !drop_ge by (rewrite ?length_app; simpl; lia).
    rewrite pad_store by lia. simpl. done.
  - rewrite take_app_le, drop_app_le by lia.
    replace (len o - Z.of_nat (S m)) with (len (drop (S m) o)) by (unfold len; rewrite length_drop; lia).
    rewrite pad_store by (rewrite length_drop; lia). simpl. done.
Qed.

(** With an odd number of servers, at least three, the two sides are a partition of them: a majority
    without the leader and a minority with it. *)
Lemma splitAround_odd l (m : nat) :
  (1 ≤ m)%nat → 0 ≤ l < Z.of_nat (2 * m + 1) →
  splitAround l (2 * m + 1) =
    Some (take (S m) (others l (2 * m + 1)), drop (S m) (others l (2 * m + 1)) ++ [l]).
Proof.
  intros Hm Hl. remember (2 * m + 1)%nat as k eqn:Hk. unfold splitAround.
  assert (Z.of_nat k `quot` 2 = Z.of_nat m) as ->.
  { rewrite Z.quot_div_nonneg by lia. symmetry. apply (Z.div_unique _ _ _ 1); lia. }
  rewrite !go_make_Some by lia. simpl.
  replace (Z.to_nat (Z.of_nat m + 1)) with (S m) by lia. rewrite Nat2Z.id.
  edestruct (go_for_inv (λ i s, s = placed m (others l (Z.to_nat i)))) as (s & -> & Hs); [| |].
  - simpl. unfold placed. simpl. unfold pad. simpl. by rewrite !Nat.sub_0_r.
  - intros i s Hi ->; cbv beta. replace (Z.to_nat (i + 1)) with (S (Z.to_nat i)) by lia.
    rewrite others_S, Z2Nat.id by lia. case_decide as Hil.
    + rewrite app_nil_r. unfold placed at 1. subst i. rewrite Z.eqb_refl. simpl. eauto.
    + apply Z.eqb_neq in Hil. unfold placed at 1. rewrite Hil. simpl negb. cbv iota.
      eexists. split; [|reflexivity]. apply placed_snoc. rewrite length_others. case_decide; lia.
  - rewrite Hs, Nat2Z.id. unfold placed. set (o := others l k).
    assert (length o = 2 * m)%nat as Ho by (unfold o; rewrite length_others, decide_True by lia; lia).
    assert (length (take (S m) o) = S m) as Ht by (rewrite length_take; lia).
    assert (length (drop (S m) o) = m - 1)%nat as Hd by (rewrite length_drop; lia).
    revert Ht Hd. generalize (take (S m) o) (drop (S m) o). intros t d Ht Hd. simpl.
    rewrite len_pad by lia. replace (Z.of_nat m - 1) with (len d) by (unfold len; lia).
    rewrite pad_store by lia. simpl. rewrite !pad_full; [done|rewrite length_app; simpl; lia|done].
Qed.

Lemma splitAround_spec l (m : nat) :
  (1 ≤ m)%nat → 0 ≤ l < Z.of_nat (2 * m + 1) →
  ∃ p1 p2, splitAround l (2 * m + 1) = Some (p1, p2) ∧ p1 ++ p2 ≡ₚ upTo (2 * m + 1) ∧
    length p1 = S m ∧ length p2 = m ∧ l ∈ p2.
Proof.
  intros Hm Hl. rewrite splitAround_odd by done. remember (2 * m + 1)%nat as k eqn:Hk. eexists _, _. split; [reflexivity|].
  assert (length (others l k) = 2 * m)%nat as Ho by (rewrite length_others, decide_True by lia; lia).
  rewrite app_assoc, take_drop, length_take, length_app, length_drop. cbn [length].
  split_and!; [|lia..|set_solver].
  apply NoDup_Permutation; [|apply NoDup_upTo|].
  - apply NoDup_app. split_and!; [apply NoDup_filter, NoDup_upTo| |apply NoDup_singleton].
    intros x [Hx _]%list_elem_of_filter ->%list_elem_of_singleton. done.
  - intros x. unfold others. rewrite elem_of_app, list_elem_of_singleton, list_elem_of_filter, elem_of_upTo.
    split; [|destruct (decide (x = l)); naive_solver]. intros [[_ ?]| ->]; lia.
Qed.

(** With an even number server 0 is on both sides, unless it leads. *)
Lemma make_partition_even : splitAround 1 4 = Some ([0; 2; 3], [0; 1]).
Proof. reflexivity. Qed.

(** ** Links between servers *)
Section links.
Context {Srv : Type} `{!Hosted Srv}.
Implicit Types (cfg : config Srv).

(** Every server has a row of names. *)
Record fullGrid cfg : Prop := {
  fg_grid : gridOk (n cfg) inr (endnames cfg) (net cfg);
  fg_all : ∀ i, 0 ≤ i < Z.of_nat (n cfg) → ∃ row, (endnames cfg).[i] = Some (Some row);
}.

(** The ends of server [i] to server [j] are enabled. *)
Definition linked cfg (i j : Z) : Prop := ∃ e, endName (endnames cfg) i j = Some e ∧ isEnabled (net cfg) e = true.

(** [e] is the present name of an end of a server. *)
Definition gridEnd cfg (e : string) : Prop := ∃ i j, endName (endnames cfg) i j = Some e.

(** [cfg'] differs from [cfg] at most in which of the ends of the servers are enabled. *)
Record rewired cfg cfg' : Prop := {
  rw_net : cfg' = set_net (net cfg') cfg;
  rw_wiring : sameWiring (net cfg) (net cfg');
  rw_apart : ∀ e, ¬ gridEnd cfg e → isEnabled (net cfg') e = isEnabled (net cfg) e;
}.

#[export] Instance rewired_po : PreOrder rewired.
Proof.
  split; [intros []; by constructor|]. intros a b c [H1 H2 H3] [H4 H5 H6]. constructor.
  - rewrite H4, H1. done.
  - by etransitivity.
  - intros e He. rewrite H6; [by apply H3|]. unfold gridEnd in *. by rewrite H1.
Qed.

Lemma rewired_fullGrid cfg cfg' : rewired cfg cfg' → fullGrid cfg → fullGrid cfg'.
Proof. intros [-> Hw _] [G A]. split; [|exact A]. simpl. by eapply gridOk_sameWiring. Qed.

Definition inRange cfg (js : list Z) : Prop := ∀ j, j ∈ js → 0 ≤ j < Z.of_nat (n cfg).

(** The ends between [i] and [js], in both directions. *)
Definition between (i : Z) (js : list Z) (a b : Z) : Prop := (a = i ∧ b ∈ js) ∨ (b = i ∧ a ∈ js).

#[export] Instance between_dec i js a b : Decision (between i js a b).
Proof. unfold between. apply _. Defined.

(** Loops over the ends to and from [js], with the tests that the code has in front. *)
Lemma switch_spec (v : bool) cfg i js (w1 w2 : Z → option bool) :
  fullGrid cfg → 0 ≤ i < Z.of_nat (n cfg) → inRange cfg js →
  (∀ j, j ∈ upTo (length js) → w1 j = Some true) → (∀ j, j ∈ upTo (length js) → w2 j = Some true) →
  ∃ cfg', (nt ← enableLoop (λ j, t ← js.[j]; endName (endnames cfg) i t) w1 v (upTo (length js)) (net cfg);
           nt ← enableLoop (λ j, t ← js.[j]; endName (endnames cfg) t i) w2 v (upTo (length js)) nt;
           Some (set_net nt cfg)) = Some cfg' ∧ rewired cfg cfg' ∧
    ∀ a b e, endName (endnames cfg) a b = Some e →
      isEnabled (net cfg') e = if decide (between i js a b) then v else isEnabled (net cfg) e.
Proof.
  intros [G A] Hi Hjs Hw1 Hw2.
  assert (∀ a b, 0 ≤ a < Z.of_nat (n cfg) → 0 ≤ b < Z.of_nat (n cfg) → is_Some (endName (endnames cfg) a b)) as Htot.
  { intros a b Ha Hb. destruct (A a Ha) as [row Hrow]. eapply endName_total; [apply G|exact Hrow|done]. }
  assert (∀ j, j ∈ upTo (length js) → ∃ t, js.[j] = Some t ∧ 0 ≤ t < Z.of_nat (n cfg)) as Hget.
  { intros j Hj%elem_of_upTo. destruct (go_index_lt_Some js j) as [t Ht]; [unfold len; lia|].
    exists t. split; [done|]. apply Hjs. rewrite go_index_nonneg in Ht by lia. by eapply list_elem_of_lookup_2. }
  destruct (enableLoop_spec (λ j, t ← js.[j]; endName (endnames cfg) i t) w1 v (upTo (length js)) (net cfg))
    as (nt1 & -> & Hs1 & He1).
  { intros j Hj. exists true. split; [by apply Hw1|]. intros _. destruct (Hget j Hj) as (t & -> & Ht). by apply Htot. }
  simpl. destruct (enableLoop_spec (λ j, t ← js.[j]; endName (endnames cfg) t i) w2 v (upTo (length js)) nt1)
    as (nt2 & -> & Hs2 & He2).
  { intros j Hj. exists true. split; [by apply Hw2|]. intros _. destruct (Hget j Hj) as (t & -> & Ht). by apply Htot. }
  simpl. eexists. split; [reflexivity|].
  assert (∀ (f : Z → option string) (w : Z → option bool) e, (∀ j, j ∈ upTo (length js) → w j = Some true) →
    (Exists (λ j, w j = Some true ∧ (t ← js.[j]; f t) = Some e) (upTo (length js)) ↔ ∃ t, t ∈ js ∧ f t = Some e)) as Hex.
  { intros f w e Hw. rewrite Exists_exists. split.
    - intros (j & Hj & _ & Ht). apply bind_Some in Ht as (t & Ht & Hf). exists t. split; [|done].
      pose proof (go_index_Some_lt _ _ _ Ht). rewrite go_index_nonneg in Ht by lia. by eapply list_elem_of_lookup_2.
    - intros (t & [k Hk]%list_elem_of_lookup & Hf). exists (Z.of_nat k).
      assert (Z.of_nat k ∈ upTo (length js)) as Hin by (apply elem_of_upTo; apply lookup_lt_Some in Hk; lia).
      split_and!; [done|by apply Hw|]. by rewrite go_index_of_nat, Hk. }
  split; [constructor; simpl|].
  - done.
  - by etransitivity.
  - intros e He. rewrite He2, He1. unfold gridEnd in He.
    rewrite !decide_False; [done|rewrite (Hex (endName (endnames cfg) i)) by done|
      rewrite (Hex (λ t, endName (endnames cfg) t i)) by done]; naive_solver.
  - intros a b e Hab. simpl. rewrite He2, He1. pose proof (gr_names _ _ _ _ G) as Hn.
    case_test H2; [|case_test H1].
    + rewrite (Hex (λ t, endName (endnames cfg) t i)) in H2 by done. destruct H2 as (t & Ht & Hte).
      destruct (Hn _ _ _ _ _ Hab Hte) as [-> ->]. rewrite decide_True; [done|by right].
    + rewrite (Hex (endName (endnames cfg) i)) in H1 by done. destruct H1 as (t & Ht & Hte).
      destruct (Hn _ _ _ _ _ Hab Hte) as [-> ->]. rewrite decide_True; [done|by left].
    + rewrite (Hex (λ t, endName (endnames cfg) t i)) in H2 by done.
      rewrite (Hex (endName (endnames cfg) i)) in H1 by done. rewrite decide_False; [done|].
      intros [[-> Hb]|[-> Ha]]; [destruct H1|destruct H2]; eauto.
Qed.

Lemma switch_linked (v : bool) cfg cfg' i js :
  rewired cfg cfg' → (∀ a b e, endName (endnames cfg) a b = Some e →
      isEnabled (net cfg') e = if decide (between i js a b) then v else isEnabled (net cfg) e) →
  ∀ a b, is_Some (endName (endnames cfg) a b) →
    linked cfg' a b ↔ if decide (between i js a b) then v = true else linked cfg a b.
Proof.
  intros [Hr _ _] He a b [e Hab]. unfold linked. rewrite Hr. simpl. split.
  - intros (e' & Hab' & H). rewrite (He _ _ _ Hab') in H. case_decide; [done|eauto].
  - intros H. exists e. split; [done|]. rewrite (He _ _ _ Hab). case_decide; [done|].
    destruct H as (e' & Hab' & H). congruence.
Qed.

Definition server cfg (a : Z) : Prop := 0 ≤ a < Z.of_nat (n cfg).

Lemma fullGrid_name cfg a b : fullGrid cfg → server cfg a → server cfg b → is_Some (endName (endnames cfg) a b).
Proof. intros [G A] Ha Hb. destruct (A a Ha) as [row Hrow]. eapply endName_total; [apply G|exact Hrow|done]. Qed.

Lemma connect_spec cfg i js :
  fullGrid cfg → server cfg i → inRange cfg js →
  ∃ cfg', connectUnlocked i js cfg = Some cfg' ∧ rewired cfg cfg' ∧
    ∀ a b, server cfg a → server cfg b → linked cfg' a b ↔ between i js a b ∨ linked cfg a b.
Proof.
  intros F Hi Hjs. destruct (switch_spec true cfg i js (λ _, Some true) (λ _, Some true)) as (cfg' & Hx & Hr & He); [done..|].
  exists cfg'. split_and!; [exact Hx|done|]. intros a b Ha Hb.
  rewrite (switch_linked true cfg cfg' i js Hr He) by by apply fullGrid_name. case_decide; tauto.
Qed.

Lemma disconnect_spec cfg i js :
  fullGrid cfg → server cfg i → inRange cfg js → NoDup js →
  ∃ cfg', disconnectUnlocked i js cfg = Some cfg' ∧ rewired cfg cfg' ∧
    ∀ a b, server cfg a → server cfg b → linked cfg' a b ↔ ¬ between i js a b ∧ linked cfg a b.
Proof.
  intros F Hi Hjs Hnd.
  assert (length js ≤ n cfg)%nat as Hl.
  { rewrite <-(length_upTo (n cfg)). apply submseteq_length, NoDup_submseteq; [done|].
    intros x Hx. by apply elem_of_upTo, Hjs. }
  assert (∀ j, server cfg j → hasEnds (endnames cfg) j = Some true) as Hh.
  { intros j Hj. destruct F as [_ A]. destruct (A j Hj) as [row Hrow]. unfold hasEnds. by rewrite Hrow. }
  destruct (switch_spec false cfg i js (λ _, hasEnds (endnames cfg) i) (λ j, hasEnds (endnames cfg) j)) as (cfg' & Hx & Hr & He); try done.
  { intros. by apply Hh. }
  { intros j Hj%elem_of_upTo. apply Hh. unfold server. lia. }
  exists cfg'. split_and!; [exact Hx|done|]. intros a b Ha Hb.
  rewrite (switch_linked false cfg cfg' i js Hr He) by by apply fullGrid_name. case_decide; intuition discriminate.
Qed.

Lemma rewired_server cfg cfg' a : rewired cfg cfg' → server cfg' a ↔ server cfg a.
Proof. intros [Hr _ _]. unfold server. rewrite Hr. done. Qed.

(** One of the two loops of [partition]: the servers of [p] leave those of [q] and join each other. *)
Lemma side_spec cfg p q :
  fullGrid cfg → inRange cfg p → inRange cfg q → NoDup q → (∀ x, x ∈ p → x ∉ q) →
  ∃ cfg', go_for (length p) (λ i cfg, x ← p.[i]; cfg ← disconnectUnlocked x q cfg; connectUnlocked x p cfg) cfg = Some cfg' ∧
    rewired cfg cfg' ∧
    ∀ a b, server cfg a → server cfg b →
      linked cfg' a b ↔ (a ∈ p ∧ b ∈ p) ∨ (¬ (a ∈ p ∧ b ∈ q) ∧ ¬ (a ∈ q ∧ b ∈ p) ∧ linked cfg a b).
Proof.
  intros F Hp Hq Hnd Hdis.
  edestruct (go_for_inv (λ i cfg', rewired cfg cfg' ∧ let d := take (Z.to_nat i) p in
    ∀ a b, server cfg a → server cfg b →
      linked cfg' a b ↔ (a ∈ d ∧ b ∈ p) ∨ (a ∈ p ∧ b ∈ d) ∨
        (¬ (a ∈ d ∧ b ∈ q) ∧ ¬ (a ∈ q ∧ b ∈ d) ∧ linked cfg a b))) as (cfg' & -> & Hr & Hl).
  - split; [done|]. simpl. intros a b _ _. set_solver.
  - intros i c Hi [Hr Hl]; cbv beta.
    destruct (go_index_lt_Some p i) as [x Hx]; [unfold len; lia|]. rewrite Hx. simpl.
    pose proof (rewired_fullGrid _ _ Hr F) as Fc. rewrite go_index_nonneg in Hx by lia.
    assert (x ∈ p) as Hxp by by eapply list_elem_of_lookup_2.
    assert (∀ js, inRange cfg js → inRange c js) as Hin.
    { intros js Hjs j Hj. apply (rewired_server _ _ _ Hr). by apply Hjs. }
    destruct (disconnect_spec c x q Fc) as (c1 & -> & Hr1 & Hl1); [by apply (Hin p)|by apply Hin|done|]. simpl.
    assert (rewired cfg c1) as Hr1' by by etransitivity.
    destruct (connect_spec c1 x p) as (c2 & -> & Hr2 & Hl2).
    { by eapply rewired_fullGrid. }
    { by apply (rewired_server _ _ _ Hr1'), Hp. }
    { intros j Hj. by apply (rewired_server _ _ _ Hr1'), Hp. }
    exists c2. split; [done|]. split; [by etransitivity|]. intros a b Ha Hb.
    replace (Z.to_nat (i + 1)) with (S (Z.to_nat i)) by lia. rewrite (take_S_r _ _ _ Hx). cbv zeta in Hl.
    assert (∀ z, server cfg z → server c z) as Hc by (intros z; apply (rewired_server _ _ _ Hr)).
    assert (∀ z, server cfg z → server c1 z) as Hc1 by (intros z; apply (rewired_server _ _ _ Hr1')).
    rewrite Hl2, Hl1, Hl by auto.
    assert (∀ z, z ∈ take (Z.to_nat i) p → z ∈ p) as Hsub by (intros z; apply (subseteq_take)).
    unfold between. rewrite !elem_of_app, !list_elem_of_singleton.
    pose proof (Hsub a). pose proof (Hsub b). pose proof (Hdis a). pose proof (Hdis b). pose proof (Hdis x Hxp).
    destruct (decide (a = x)) as [->|]; destruct (decide (b = x)) as [->|]; try tauto.
  - exists cfg'. split_and!; [done|done|]. intros a b Ha Hb. cbv zeta in Hl.
    assert (take (Z.to_nat (Z.of_nat (length p))) p = p) as Ht by (apply take_ge; lia). rewrite Hl, Ht by done.
    tauto.
Qed.

Lemma partition_spec cfg p1 p2 :
  fullGrid cfg → inRange cfg p1 → inRange cfg p2 → NoDup (p1 ++ p2) →
  ∃ cfg', partition p1 p2 cfg = Some cfg' ∧ rewired cfg cfg' ∧
    ∀ a b, server cfg a → server cfg b →
      linked cfg' a b ↔ (a ∈ p1 ∧ b ∈ p1) ∨ (a ∈ p2 ∧ b ∈ p2) ∨
        (¬ (a ∈ p1 ∧ b ∈ p2) ∧ ¬ (a ∈ p2 ∧ b ∈ p1) ∧ linked cfg a b).
Proof.
  intros F H1 H2 (Hn1 & Hdis & Hn2)%NoDup_app.
  assert (∀ x, x ∈ p2 → x ∉ p1) as Hdis' by (intros x Hx Hx'; by apply (Hdis x)).
  destruct (side_spec cfg p1 p2 F H1 H2 Hn2 Hdis) as (c & Hc & Hr & Hl). unfold partition. rewrite Hc. simpl.
  assert (∀ js, inRange cfg js → inRange c js) as Hin.
  { intros js Hjs j Hj. apply (rewired_server _ _ _ Hr). by apply Hjs. }
  destruct (side_spec c p2 p1) as (c' & Hc' & Hr' & Hl'); [by eapply rewired_fullGrid|by apply Hin|by apply Hin|done|done|].
  exists c'. split_and!; [exact Hc'|by etransitivity|]. intros a b Ha Hb.
  rewrite Hl', Hl by (done || by apply (rewired_server _ _ _ Hr)).
  pose proof (Hdis a). pose proof (Hdis b). tauto.
Qed.

Lemma ConnectAll_spec cfg :
  fullGrid cfg → ∃ cfg', ConnectAll cfg = Some cfg' ∧ rewired cfg cfg' ∧ ∀ a b, server cfg a → server cfg b → linked cfg' a b.
Proof.
  intros F. unfold ConnectAll.
  edestruct (go_for_inv (λ i cfg', rewired cfg cfg' ∧ ∀ a b, server cfg a → server cfg b → a < i → linked cfg' a b))
    as (cfg' & -> & Hr & Hl).
  - split; [done|]. unfold server. lia.
  - intros i c Hi [Hr Hl]; cbv beta.
    assert (n c = n cfg) as Hn by (rewrite (rw_net _ _ Hr); done).
    destruct (connect_spec c i (All c)) as (c' & -> & Hr' & Hl').
    { by eapply rewired_fullGrid. }
    { by apply (rewired_server _ _ _ Hr). }
    { intros j Hj%elem_of_upTo. done. }
    exists c'. split; [done|]. split; [by etransitivity|]. intros a b Ha Hb Hlt.
    assert (∀ z, server cfg z → server c z) as Hc by (intros z; apply (rewired_server _ _ _ Hr)).
    rewrite Hl' by auto. destruct (decide (a = i)) as [->|]; [left; left|right; apply Hl; [done..|lia]].
    split; [done|]. apply elem_of_upTo. by rewrite Hn.
  - exists cfg'. split_and!; [done..|]. intros a b Ha Hb. apply Hl; [done..|]. apply Ha.
Qed.
End links.
