(* ===== verification/ServiceConfigProps.v ===== *)
(** The harnesses of the services through the whole life of a test: the network invariant, the
    partition that isolates a leader, and that a restarted server continues where it was stopped.  The
    servers are seen through the interface [HostedLaws], which both services implement in
    [ServiceHosts]. *)
From S2P Require Import Prelude Labgob Labrpc TestNet Persister RaftConfig ServiceConfig ServiceNet.
#[local] Open Scope Z_scope.

(** What the harness relies on: a server in a good state ([srvOk k i]: as server [i] of [k]) stays in
    one, and started again on its persister it recovers. *)
Class HostedLaws (Srv : Type) `{!Hosted Srv} := {
  srvOk : nat → Z → Srv → Prop;
  srvStep : Srv → Srv → Prop;
  srvRecovers : Srv → Srv → Prop;
  srv_step_ok k i s s' : srvOk k i s → srvStep s s' → srvOk k i s';
  srv_fresh k i : ∃ s, srvStart k i MakePersister = Some s ∧ srvOk k i s;
  srv_restart k i s :
    srvOk k i s → ∃ s', srvStart k i (srvPersister s) = Some s' ∧ srvOk k i s' ∧ srvRecovers s s';
}.

Section life.
Context {Srv : Type} `{HostedLaws Srv}.
Implicit Types (cfg : config Srv).

Record harnessInv cfg : Prop := {
  hi_servers : length (kvservers cfg) = n cfg;
  hi_saved : length (saved cfg) = n cfg;
  hi_grid : gridOk (n cfg) inr (endnames cfg) (net cfg);
  hi_up : ∀ i, is_Some (serverAt (net cfg) (inr i)) ↔ ∃ kv, (kvservers cfg).[i] = Some (Some kv);
  hi_ok : ∀ i kv, (kvservers cfg).[i] = Some (Some kv) → srvOk (n cfg) i kv;
  hi_down : ∀ i p, (kvservers cfg).[i] = Some None → (saved cfg).[i] = Some (Some p) →
    ∃ s, srvOk (n cfg) i s ∧ srvPersister s = p;
  hi_clerks : ∀ ck names, clerks cfg !! ck = Some names → length names = n cfg ∧
    ∀ j e, names.[j] = Some e → hasEnd (net cfg) e ∧ connectionAt (net cfg) (inl e) = Some (inr j);
  hi_apart : ∀ ck names e, clerks cfg !! ck = Some names → e ∈ names → ¬ gridEnd cfg e;
}.

(** *** Calls that only switch ends on and off *)
Record switched cfg cfg' : Prop := {
  sd_net : cfg' = set_net (net cfg') cfg;
  sd_wiring : sameWiring (net cfg) (net cfg');
}.

#[export] Instance switched_po : PreOrder switched.
Proof.
  split; [intros []; by constructor|]. intros a b c [H1 H2] [H3 H4]. constructor; [by rewrite H3, H1|by etransitivity].
Qed.

Lemma switched_inv cfg cfg' : harnessInv cfg → switched cfg cfg' → harnessInv cfg'.
Proof.
  intros I [-> Hw]. simpl in Hw. pose proof Hw as [He Hs Hc]. constructor; simpl; try apply I.
  - by eapply gridOk_sameWiring; [apply I|].
  - intros i. unfold serverAt. rewrite Hs. apply I.
  - intros ck names Hck. destruct (hi_clerks _ I _ _ Hck) as [Hl Hn]. split; [done|].
    unfold hasEnd, connectionAt. rewrite He, Hc. exact Hn.
Qed.

Lemma switched_loops cfg cfg' name1 w1 b1 js1 name2 w2 b2 js2 :
  (nt ← enableLoop name1 w1 b1 js1 (net cfg); nt ← enableLoop name2 w2 b2 js2 nt; Some (set_net nt cfg)) = Some cfg' →
  switched cfg cfg'.
Proof.
  intros (nt1 & H1 & H2)%bind_Some. apply bind_Some in H2 as (nt2 & H2 & [= <-]).
  constructor; [done|]. simpl. etransitivity; by eapply enableLoop_keeps.
Qed.

Lemma connect_switched i to cfg cfg' : connectUnlocked i to cfg = Some cfg' → switched cfg cfg'.
Proof. apply switched_loops. Qed.
Lemma disconnect_switched i to cfg cfg' : disconnectUnlocked i to cfg = Some cfg' → switched cfg cfg'.
Proof. apply switched_loops. Qed.

Lemma go_for_switched k (body : Z → config Srv → option (config Srv)) cfg cfg' :
  (∀ i c c', body i c = Some c' → switched c c') → go_for k body cfg = Some cfg' → switched cfg cfg'.
Proof.
  intros Hb. unfold go_for. apply (go_for_from_preserves (switched cfg)); [done|].
  intros j c c' Hc Hx. etransitivity; [exact Hc|by eapply Hb].
Qed.

Lemma ConnectAll_switched cfg cfg' : ConnectAll cfg = Some cfg' → switched cfg cfg'.
Proof. apply go_for_switched. intros. by eapply connect_switched. Qed.

Lemma partition_switched p1 p2 cfg cfg' : partition p1 p2 cfg = Some cfg' → switched cfg cfg'.
Proof.
  intros (c & H1 & H2)%bind_Some.
  assert (∀ p q i c c', (x ← p.[i]; c ← disconnectUnlocked x q c; connectUnlocked x p c) = Some c' → switched c c') as Hb.
  { intros p q i a b (x & _ & Hx)%bind_Some. apply bind_Some in Hx as (d & Hd & Hx).
    etransitivity; [by eapply disconnect_switched|by eapply connect_switched]. }
  etransitivity; eapply go_for_switched; [|exact H1| |exact H2]; apply Hb.
Qed.

Lemma ConnectClient_switched ck to cfg cfg' : ConnectClientUnlocked ck to cfg = Some cfg' → switched cfg cfg'.
Proof. intros (nt & H1 & [= <-])%bind_Some. constructor; [done|]. by eapply enableLoop_keeps. Qed.
Lemma DisconnectClient_switched ck from cfg cfg' : DisconnectClientUnlocked ck from cfg = Some cfg' → switched cfg cfg'.
Proof. intros (nt & H1 & [= <-])%bind_Some. constructor; [done|]. by eapply enableLoop_keeps. Qed.

(** *** Stopping and starting *)
Definition allRows cfg : Prop := ∀ i, 0 ≤ i < Z.of_nat (n cfg) → ∃ row, (endnames cfg).[i] = Some (Some row).

Lemma inv_fullGrid cfg : harnessInv cfg → allRows cfg → fullGrid cfg.
Proof. intros I A. split; [apply I|done]. Qed.

Lemma savedNow_Some cfg i : harnessInv cfg → server cfg i → ∃ s, savedNow cfg i = Some s.
Proof.
  intros I Hi. unfold savedNow, server in *.
  destruct (go_index_lt_Some (kvservers cfg) i) as [r ->]; [unfold len; rewrite (hi_servers _ I); lia|]. simpl.
  destruct r; [eauto|]. apply go_index_lt_Some. unfold len. rewrite (hi_saved _ I). lia.
Qed.

Lemma savedNow_stored cfg i p :
  harnessInv cfg → savedNow cfg i = Some (Some p) → ∃ s, srvOk (n cfg) i s ∧ srvPersister s = p.
Proof.
  intros I Hs. unfold savedNow in Hs. apply bind_Some in Hs as ([kv|] & Hkv & Hs).
  - injection Hs as <-. exists kv. split; [by apply (hi_ok _ I)|done].
  - by apply (hi_down _ I).
Qed.

Lemma Copy_id p : Copy p = p.
Proof. by destruct p. Qed.

Lemma shutdown_spec cfg i :
  harnessInv cfg → allRows cfg → server cfg i →
  ∃ cfg' s, ShutdownServer i cfg = Some cfg' ∧ harnessInv cfg' ∧ n cfg' = n cfg ∧ endnames cfg' = endnames cfg ∧
    clerks cfg' = clerks cfg ∧ savedNow cfg i = Some s ∧
    kvservers cfg' = <[Z.to_nat i := None]> (kvservers cfg) ∧ saved cfg' = <[Z.to_nat i := s]> (saved cfg).
Proof.
  intros I A Hi.
  destruct (disconnect_spec cfg i (All cfg)) as (c & Hc & _); [by apply inv_fullGrid|done|by intros j ?%elem_of_upTo|apply NoDup_upTo|].
  pose proof (disconnect_switched _ _ _ _ Hc) as Hsw. pose proof (switched_inv _ _ I Hsw) as Ic.
  destruct Hsw as [Hnet Hw]. destruct (savedNow_Some cfg i I Hi) as [s Hs].
  assert (0 ≤ i < len (kvservers cfg)) as Rk by (unfold len; rewrite (hi_servers _ I); done).
  assert (0 ≤ i < len (saved cfg)) as Rs by (unfold len; rewrite (hi_saved _ I); done).
  unfold ShutdownServer. rewrite Hc. simpl.
  assert (savedNow (set_net (DeleteServer (inr i) (net c)) c) i = Some s) as ->.
  { rewrite Hnet. exact Hs. }
  cbn [mbind option_bind]. assert (Copy <$> s = s) as -> by (destruct s; simpl; by rewrite ?Copy_id). simpl. rewrite Hnet. simpl.
  rewrite !go_store_Some by done. simpl.
  eexists _, s. split_and!; [reflexivity| |done..]. rewrite Hnet in Ic. constructor; simpl.
  - rewrite length_insert. apply I.
  - rewrite length_insert. apply I.
  - by eapply gridOk_net; [apply Ic|].
  - intros j. unfold serverAt; simpl. destruct (decide (j = i)) as [->|Hj].
    + rewrite lookup_insert_eq, go_index_insert_eq by done. split; [by intros [? ?]|by intros [? ?]].
    + rewrite lookup_insert_ne, go_index_insert_ne by (congruence || lia). apply (hi_up _ Ic j).
  - intros j kv. destruct (decide (j = i)) as [->|]; [by rewrite go_index_insert_eq|].
    rewrite go_index_insert_ne by lia. apply I.
  - intros j p. destruct (decide (j = i)) as [->|]; [|rewrite !go_index_insert_ne by lia; apply I].
    rewrite !go_index_insert_eq by done. intros _ [= ->]. by apply (savedNow_stored _ _ _ I).
  - exact (hi_clerks _ Ic).
  - exact (hi_apart _ I).
Qed.

(** The server that [StartServer] makes from what [saved] holds. *)
Lemma started_server cfg i s :
  harnessInv cfg → (kvservers cfg).[i] = Some None → savedNow cfg i = Some s →
  ∃ kv, srvStart (n cfg) i (match s with Some p => Copy p | None => MakePersister end) = Some kv ∧ srvOk (n cfg) i kv ∧
    ∀ s0 q, srvOk (n cfg) i s0 → srvPersister s0 = q → (saved cfg).[i] = Some (Some q) → srvRecovers s0 kv.
Proof.
  intros I Hdown Hs. assert ((saved cfg).[i] = Some s) as Hsv by (unfold savedNow in Hs; by rewrite Hdown in Hs).
  destruct s as [q|].
  - destruct (savedNow_stored _ _ _ I Hs) as (s0 & Hs0 & <-). destruct (srv_restart _ _ _ Hs0) as (kv & Hkv & Hok & _).
    exists kv. rewrite Copy_id. split_and!; [done..|]. intros s1 q Hs1 <- Hq.
    destruct (srv_restart _ _ _ Hs1) as (kv' & Hkv' & _ & Hr). rewrite Hsv in Hq. injection Hq as Hp.
    rewrite <-Hp, Hkv in Hkv'. by injection Hkv' as <-.
  - destruct (srv_fresh (n cfg) i) as (kv & Hkv & Hok). exists kv. split_and!; [done..|]. intros s1 q _ _ Hq. congruence.
Qed.

Lemma start_spec cfg i names srv :
  harnessInv cfg → server cfg i → (kvservers cfg).[i] = Some None → newNames (n cfg) names (net cfg) →
  ∃ cfg' kv, StartServer i names srv cfg = Some cfg' ∧ harnessInv cfg' ∧ n cfg' = n cfg ∧ clerks cfg' = clerks cfg ∧
    endnames cfg' = <[Z.to_nat i := Some names]> (endnames cfg) ∧
    kvservers cfg' = <[Z.to_nat i := Some kv]> (kvservers cfg) ∧
    (∀ j, j ≠ i → (saved cfg').[j] = (saved cfg).[j]) ∧
    (∀ e, hasEnd (net cfg') e ↔ e ∈ names ∨ hasEnd (net cfg) e) ∧
    ∀ s p, srvOk (n cfg) i s → srvPersister s = p → (saved cfg).[i] = Some (Some p) → srvRecovers s kv.
Proof.
  intros I Hi Hdown Hnew. pose proof Hnew as [Hl Hnd Hfresh]. unfold server in Hi.
  assert (0 ≤ i < len (kvservers cfg)) as Rk by (unfold len; rewrite (hi_servers _ I); done).
  assert (0 ≤ i < len (saved cfg)) as Rs by (unfold len; rewrite (hi_saved _ I); done).
  assert (0 ≤ i < len (endnames cfg)) as Re by (unfold len; rewrite (gr_rows _ _ _ _ (hi_grid _ I)); done).
  destruct (makeEnds_spec names inr (n cfg) (net cfg) Hl Hnd Hfresh) as (nt & Hmk & Hsv & He & Hc1 & Hc2 & _).
  destruct (savedNow_Some cfg i I Hi) as [s Hs].
  set (p := match s with Some p => Copy p | None => MakePersister end).
  destruct (started_server _ _ _ I Hdown Hs) as (kv & Hkv & Hok & Hrec). fold p in Hkv.
  assert (∀ e, hasEnd (net cfg) e → hasEnd nt e ∧ connectionAt nt (inl e) = connectionAt (net cfg) (inl e)) as Hold.
  { intros e Hee. split; [by apply He; right|]. apply Hc2. intros Hin. by apply (Hfresh e). }
  unfold StartServer. rewrite (go_store_Some (endnames cfg)) by done. simpl. rewrite Hmk. simpl. rewrite Hs. simpl. fold p.
  rewrite go_store_Some by done. simpl. rewrite Hkv. simpl. rewrite go_store_Some by done. simpl.
  eexists _, kv. split_and!; [reflexivity| |done..| | |done].
  - constructor; simpl.
    + rewrite length_insert. apply I.
    + rewrite length_insert. apply I.
    + eapply gridOk_net; [eapply gridOk_insert; [apply I|done..]|done].
    + intros j. unfold serverAt; simpl. destruct (decide (j = i)) as [->|Hj].
      * rewrite lookup_insert_eq, go_index_insert_eq by done. split; intros _; eauto.
      * rewrite lookup_insert_ne, go_index_insert_ne by (congruence || lia). rewrite Hsv. apply (hi_up _ I j).
    + intros j kv'. destruct (decide (j = i)) as [->|]; [|rewrite go_index_insert_ne by lia; apply I].
      rewrite go_index_insert_eq by done. by intros [= <-].
    + intros j q. destruct (decide (j = i)) as [->|]; [by rewrite go_index_insert_eq|].
      rewrite !go_index_insert_ne by lia. apply I.
    + intros ck ns Hck. destruct (hi_clerks _ I _ _ Hck) as [Hln Hn]. split; [done|]. intros j e Hj.
      destruct (Hn _ _ Hj) as [Hee Hcc]. destruct (Hold e Hee) as [H1 H2]. split; [exact H1|].
      change (connectionAt nt (inl e) = Some (inr j)). congruence.
    + intros ck ns e Hck Hin (a & b & Hab). simpl in Hab. rewrite endName_insert in Hab by done.
      case_decide; [|by apply (hi_apart _ I ck ns e Hck Hin); exists a, b].
      destruct (hi_clerks _ I _ _ Hck) as [_ Hn]. apply list_elem_of_lookup in Hin as [m Hm].
      destruct (Hn (Z.of_nat m) e) as [Hee _]; [by rewrite go_index_of_nat|]. apply (Hfresh e); [|done].
      pose proof (go_index_Some_lt _ _ _ Hab). rewrite go_index_nonneg in Hab by lia. by eapply list_elem_of_lookup_2.
  - intros j Hj. simpl. by rewrite go_index_insert_ne by lia.
  - intros e. apply He.
Qed.

(** *** Clerks *)
Definition goodSwaps (k : nat) (js : list Z) : Prop := ∀ i, 0 ≤ i < Z.of_nat k → ∃ j, js.[i] = Some j ∧ 0 ≤ j ≤ i.

Lemma names_index (names : list string) e : e ∈ names ↔ ∃ j, names.[j] = Some e.
Proof.
  split; [intros [m Hm]%list_elem_of_lookup; exists (Z.of_nat m); by rewrite go_index_of_nat|].
  intros [j Hj]. pose proof (go_index_Some_lt _ _ _ Hj). rewrite go_index_nonneg in Hj by lia. by eapply list_elem_of_lookup_2.
Qed.

Lemma newClerk_inv cfg ck names nt id :
  harnessInv cfg → newNames (n cfg) names (net cfg) → makeEnds names inr (n cfg) (net cfg) = Some nt →
  harnessInv (set_clerks (<[ck := names]> (clerks cfg)) id (set_net nt cfg)).
Proof.
  intros I [Hl Hnd Hfresh] Hmk.
  destruct (makeEnds_spec names inr (n cfg) (net cfg) Hl Hnd Hfresh) as (nt' & Hmk' & Hsv & He & Hc1 & Hc2 & _).
  rewrite Hmk in Hmk'. injection Hmk' as <-.
  assert (∀ e, hasEnd (net cfg) e → hasEnd nt e ∧ connectionAt nt (inl e) = connectionAt (net cfg) (inl e)) as Hold.
  { intros e Hee. split; [by apply He; right|]. apply Hc2. intros Hin. by apply (Hfresh e). }
  constructor; simpl; try apply I.
  - by eapply gridOk_net; [apply I|].
  - intros i. unfold serverAt. rewrite Hsv. apply I.
  - intros ck' ns Hck. apply lookup_insert_Some in Hck as [[<- <-]|[_ Hck]].
    + split; [done|]. intros j e Hj. split; [|by apply Hc1]. apply He. left. apply names_index. eauto.
    + destruct (hi_clerks _ I _ _ Hck) as [Hln Hn]. split; [done|]. intros j e Hj. destruct (Hn _ _ Hj) as [Hee Hcc].
      destruct (Hold e Hee) as [H1 H2]. split; [done|congruence].
  - intros ck' ns e Hck Hin. apply lookup_insert_Some in Hck as [[<- <-]|[_ Hck]]; [|by apply (hi_apart _ I ck' ns)].
    intros (a & b & Hab). destruct (gr_made _ _ _ _ (hi_grid _ I) _ _ _ Hab) as [Hee _]. by apply (Hfresh e).
Qed.

Lemma makeClient_inv ck names js to cfg cfg' ends :
  harnessInv cfg → newNames (n cfg) names (net cfg) → makeClient ck names js to cfg = Some (cfg', ends) →
  harnessInv cfg' ∧ n cfg' = n cfg ∧ kvservers cfg' = kvservers cfg ∧ saved cfg' = saved cfg ∧ endnames cfg' = endnames cfg.
Proof.
  intros I Hnew (nt & Hmk & Hx)%bind_Some. apply bind_Some in Hx as (es & _ & Hx). apply bind_Some in Hx as (c & Hc & [= <- <-]).
  pose proof (newClerk_inv cfg ck names nt (nextClientId cfg + 1) I Hnew Hmk) as I1.
  pose proof (ConnectClient_switched _ _ _ _ Hc) as Hsw. split; [by eapply switched_inv|].
  rewrite (sd_net _ _ Hsw). done.
Qed.

Lemma deleteClient_inv ck cfg : harnessInv cfg → harnessInv (deleteClient ck cfg).
Proof.
  intros []. constructor; try done; simpl.
  - intros ck' ns [_ ?]%lookup_delete_Some. eauto.
  - intros ck' ns e [_ ?]%lookup_delete_Some. eauto.
Qed.

(** *** The life of a test *)

(** A call of the test or a step of a server; [may]: the servers that may be started. *)
Inductive harnessStep (may : Z → Prop) cfg : config Srv → Prop :=
  | hs_connect i to cfg' : connectUnlocked i to cfg = Some cfg' → harnessStep may cfg cfg'
  | hs_disconnect i from cfg' : disconnectUnlocked i from cfg = Some cfg' → harnessStep may cfg cfg'
  | hs_ConnectAll cfg' : ConnectAll cfg = Some cfg' → harnessStep may cfg cfg'
  | hs_partition p1 p2 cfg' : partition p1 p2 cfg = Some cfg' → harnessStep may cfg cfg'
  | hs_ConnectClient ck to cfg' : ConnectClientUnlocked ck to cfg = Some cfg' → harnessStep may cfg cfg'
  | hs_DisconnectClient ck from cfg' : DisconnectClientUnlocked ck from cfg = Some cfg' → harnessStep may cfg cfg'
  | hs_makeClient ck names js to cfg' ends : newNames (n cfg) names (net cfg) →
      makeClient ck names js to cfg = Some (cfg', ends) → harnessStep may cfg cfg'
  | hs_deleteClient ck : harnessStep may cfg (deleteClient ck cfg)
  | hs_shutdown i cfg' : server cfg i → ShutdownServer i cfg = Some cfg' → harnessStep may cfg cfg'
  | hs_start i names srv cfg' : may i → server cfg i → (kvservers cfg).[i] = Some None → newNames (n cfg) names (net cfg) →
      StartServer i names srv cfg = Some cfg' → harnessStep may cfg cfg'
  | hs_server i kv kv' : (kvservers cfg).[i] = Some (Some kv) → srvStep kv kv' →
      harnessStep may cfg (set_kvservers (<[Z.to_nat i := Some kv']> (kvservers cfg)) cfg).

Record alive cfg : Prop := { al_inv : harnessInv cfg; al_rows : allRows cfg }.

Lemma set_server_inv cfg i kv kv' :
  harnessInv cfg → (kvservers cfg).[i] = Some (Some kv) → srvOk (n cfg) i kv' →
  harnessInv (set_kvservers (<[Z.to_nat i := Some kv']> (kvservers cfg)) cfg).
Proof.
  intros I Hkv Hok. pose proof (go_index_Some_lt _ _ _ Hkv) as Hi. constructor; simpl; try apply I.
  - rewrite length_insert. apply I.
  - intros j. rewrite (hi_up _ I j). destruct (decide (j = i)) as [->|]; [|by rewrite go_index_insert_ne by lia].
    rewrite Hkv, go_index_insert_eq by done. split; intros _; eauto.
  - intros j s. destruct (decide (j = i)) as [->|]; [|rewrite go_index_insert_ne by lia; apply I].
    rewrite go_index_insert_eq by done. by intros [= <-].
  - intros j p. destruct (decide (j = i)) as [->|]; [by rewrite go_index_insert_eq|].
    rewrite go_index_insert_ne by lia. apply I.
Qed.

(** What a stopped server leaves behind stays until it is started. *)
Definition keptDown cfg cfg' (i : Z) : Prop :=
  (kvservers cfg).[i] = Some None → (kvservers cfg').[i] = Some None ∧ (saved cfg').[i] = (saved cfg).[i].

Lemma switched_step cfg cfg' (may : Z → Prop) :
  alive cfg → switched cfg cfg' → alive cfg' ∧ n cfg' = n cfg ∧ ∀ i, ¬ may i → keptDown cfg cfg' i.
Proof.
  intros [I A] Hsw. pose proof (switched_inv _ _ I Hsw) as I'. rewrite (sd_net _ _ Hsw) in I' |- *.
  split_and!; [by split|done|]. by intros i _ Hi.
Qed.

Lemma step_alive may cfg cfg' :
  alive cfg → harnessStep may cfg cfg' → alive cfg' ∧ n cfg' = n cfg ∧ ∀ i, ¬ may i → keptDown cfg cfg' i.
Proof.
  intros Al Hs. destruct Hs as [i to cfg' Hx|i to cfg' Hx|cfg' Hx|p1 p2 cfg' Hx|ck to cfg' Hx|ck to cfg' Hx
    |ck names js to cfg' ends Hnew Hx|ck|j cfg' Hj Hx|j names srv cfg' Hm Hj Hd Hnew Hx|j kv kv' Hkv Hst].
  1-6: by eapply switched_step;
    eauto using connect_switched, disconnect_switched, ConnectAll_switched, partition_switched, ConnectClient_switched, DisconnectClient_switched.
  all: destruct Al as [I A].
  - destruct (makeClient_inv _ _ _ _ _ _ _ I Hnew Hx) as (I' & Hn & Hk & Hs & He).
    split_and!; [split; [done|unfold allRows; by rewrite Hn, He]|done|]. intros i _ Hi. by rewrite Hk, Hs.
  - split_and!; [split; [by apply deleteClient_inv|done]|done|]. by intros i _ Hi.
  - destruct (shutdown_spec cfg j I A Hj) as (c & s & Hc & I' & Hn & He & _ & Hsn & Hk & Hsv). rewrite Hx in Hc. injection Hc as <-.
    split_and!; [split; [done|unfold allRows; by rewrite Hn, He]|done|]. intros i _ Hi. rewrite Hk, Hsv. unfold server in Hj.
    destruct (decide (i = j)) as [->|]; [|by rewrite !go_index_insert_ne by lia].
    rewrite !go_index_insert_eq by (unfold len; rewrite ?(hi_servers _ I), ?(hi_saved _ I); lia). split; [done|].
    unfold savedNow in Hsn. rewrite Hi in Hsn. by symmetry.
  - destruct (start_spec cfg j names srv I Hj Hd Hnew) as (c & kv & Hc & I' & Hn & _ & He & Hk & Hsv & _).
    rewrite Hx in Hc. injection Hc as <-. unfold server in Hj. split_and!; [split; [done|]|done|].
    + intros a Ha. rewrite Hn in Ha. rewrite He. destruct (decide (a = j)) as [->|]; [|rewrite go_index_insert_ne by lia; by apply A].
      exists names. apply go_index_insert_eq. unfold len. rewrite (gr_rows _ _ _ _ (hi_grid _ I)). lia.
    + intros i Hni Hi. assert (i ≠ j) by (by intros ->). rewrite Hk, Hsv, go_index_insert_ne by (done || lia). done.
  - assert (srvOk (n cfg) j kv') as Hok by (eapply srv_step_ok; [by apply (hi_ok _ I)|done]).
    split_and!; [split; [by eapply set_server_inv|done]|done|]. intros i _ Hi. simpl.
    pose proof (go_index_Some_lt _ _ _ Hkv). rewrite go_index_insert_ne by (lia || congruence). done.
Qed.

Lemma steps_alive may cfg cfg' :
  alive cfg → rtc (harnessStep may) cfg cfg' → alive cfg' ∧ n cfg' = n cfg ∧ ∀ i, ¬ may i → keptDown cfg cfg' i.
Proof.
  intros I Hs. revert I. induction Hs as [cfg|cfg c1 cfg' Hs _ IH]; intros I; [by split_and!; try done; intros i _ Hi|].
  destruct (step_alive _ _ _ I Hs) as (I1 & E1 & K1). destruct (IH I1) as (I2 & E2 & K2).
  split_and!; [done|congruence|]. intros i Hi Hd. destruct (K1 i Hi Hd) as [Hd1 Hs1]. destruct (K2 i Hi Hd1) as [Hd2 Hs2].
  split; [done|congruence].
Qed.

(** *** The set-up *)
Lemma emptyConfig_inv k : harnessInv (emptyConfig k).
Proof.
  pose proof (λ A, go_index_replicate_inv (A := A) k) as Hrep.
  assert (∀ i j e, endName (replicate k None) i j = Some e → False) as Hno.
  { intros i j e (row & Hi & _)%endName_Some. by apply Hrep in Hi. }
  constructor; simpl; try (by rewrite length_replicate).
  - constructor; [by rewrite length_replicate|by intros i row Hi%Hrep|by intros i j i' j' e H1%Hno|by intros i j e H1%Hno].
  - intros i. split; [by intros [? ?]|by intros [kv Hi%Hrep]].
  - by intros i kv Hi%Hrep.
  - intros i p _ Hi. by apply Hrep in Hi.
  - intros ck names Hck. by rewrite lookup_empty in Hck.
  - intros ck names e Hck. by rewrite lookup_empty in Hck.
Qed.

Lemma make_config_alive k unreliable names srv :
  goodNames k names →
  ∃ cfg, make_config k unreliable names srv = Some cfg ∧ alive cfg ∧ n cfg = k ∧ clerks cfg = ∅ ∧
    (∀ i, server cfg i → ∃ kv, (kvservers cfg).[i] = Some (Some kv)) ∧
    (∀ i j, server cfg i → server cfg j → linked cfg i j).
Proof.
  intros Hg. pose proof Hg as (Hl & _). unfold make_config.
  edestruct (go_for_inv (λ j cfg, harnessInv cfg ∧ n cfg = k ∧ clerks cfg = ∅ ∧
      (∀ i, 0 ≤ i < j → ∃ row kv, (endnames cfg).[i] = Some (Some row) ∧ (kvservers cfg).[i] = Some (Some kv)) ∧
      (∀ i, j ≤ i < Z.of_nat k → (kvservers cfg).[i] = Some None) ∧
      ∀ e, hasEnd (net cfg) e ↔ e ∈ concat (take (Z.to_nat j) names))) as (cfg1 & -> & I & Hn & Hck & Hrow & _ & _).
  - split_and!; [apply emptyConfig_inv|done|done|lia| |].
    + intros i Hi. simpl. by apply go_index_replicate.
    + intros e. simpl. split; [by intros [? ?]|by intros ?%not_elem_of_nil].
  - intros j cfg Hj (I & Hn & Hck & Hrow & Hdown & He); cbv beta.
    destruct (go_index_lt_Some names j) as [ns Hns]; [unfold len; lia|]. rewrite Hns. simpl.
    destruct (goodNames_at _ _ _ _ Hg Hns) as (Hnl & Hnd & Hdis).
    destruct (start_spec cfg j ns (srv j) I) as (cfg' & kv & -> & I' & Hn' & Hck' & En & Hk & _ & He' & _).
    { unfold server. by rewrite Hn. }
    { apply Hdown. lia. }
    { split; [by rewrite Hn|done|]. intros e Hin. rewrite He. by apply Hdis. }
    exists cfg'. split_and!; [done|done|by rewrite Hn'|by rewrite Hck'| | |].
    + intros i Hi. rewrite En, Hk. destruct (decide (i = j)) as [->|].
      * exists ns, kv. rewrite !go_index_insert_eq by (unfold len; rewrite ?(gr_rows _ _ _ _ (hi_grid _ I)), ?(hi_servers _ I); lia). done.
      * rewrite !go_index_insert_ne by lia. apply Hrow. lia.
    + intros i Hi. rewrite Hk, go_index_insert_ne by lia. apply Hdown. lia.
    + intros e. rewrite He', He. rewrite go_index_nonneg in Hns by lia.
      replace (Z.to_nat (j + 1)) with (S (Z.to_nat j)) by lia. rewrite (concat_take_S _ _ _ Hns), elem_of_app. tauto.
  - simpl. assert (allRows cfg1) as A1.
    { intros i Hi. rewrite Hn in Hi. destruct (Hrow i Hi) as (row & _ & Hi' & _). eauto. }
    destruct (ConnectAll_spec cfg1) as (cfg2 & Hx & Hr & Hlk); [by apply inv_fullGrid|]. rewrite Hx. simpl.
    pose proof (ConnectAll_switched _ _ Hx) as Hsw. pose proof (switched_inv _ _ I Hsw) as I2.
    destruct Hsw as [Hnet Hw]. rewrite Hnet in I2, Hlk |- *. simpl in *.
    eexists. split_and!; [reflexivity| |done|done| |done].
    + split; [|done]. eapply (switched_inv _ _ I2). by constructor; simpl.
    + intros i Hi. unfold server in Hi. simpl in Hi. rewrite Hn in Hi. destruct (Hrow i Hi) as (_ & kv & _ & Hkv). eauto.
Qed.

(** A moment of a test on [k] servers. *)
Definition moment (k : nat) cfg : Prop :=
  ∃ unreliable names srv cfg0, goodNames k names ∧ make_config k unreliable names srv = Some cfg0 ∧
    rtc (harnessStep (λ _, True)) cfg0 cfg.

Lemma moment_alive k cfg : moment k cfg → alive cfg ∧ n cfg = k.
Proof.
  intros (u & names & srv & cfg0 & Hg & H0 & Hs). destruct (make_config_alive k u names srv Hg) as (c & Hc & Al & Hn & _).
  rewrite H0 in Hc. injection Hc as <-. destruct (steps_alive _ _ _ Al Hs) as (Al' & Hn' & _). split; [done|congruence].
Qed.

(** *** What the tests rely on *)
Lemma findLeader_range skip k i cfg b l :
  0 ≤ i → findLeader skip k i cfg = Some (b, l) →
  (b = true ∧ i ≤ l < i + Z.of_nat k ∧ ∃ kv, (kvservers cfg).[l] = Some (Some kv) ∧ (srvGetState kv).2 = true) ∨ (b = false ∧ l = 0).
Proof.
  revert i. induction k as [|k IH]; intros i Hi; simpl; [intros [= <- <-]; by right|].
  intros ([kv|] & Hkv & Hx)%bind_Some.
  - destruct (srvGetState kv).2 eqn:Hst.
    + injection Hx as <- <-. left. split_and!; [done|lia|lia|eauto].
    + apply IH in Hx as [(-> & ? & ?)|?]; [left; split_and!; [done|lia|lia|done]|by right|lia].
  - destruct skip; [|done]. apply IH in Hx as [(-> & ? & ?)|?]; [left; split_and!; [done|lia|lia|done]|by right|lia].
Qed.

Lemma findLeader_total skip cfg :
  (∀ i, server cfg i → ∃ kv, (kvservers cfg).[i] = Some (Some kv)) → ∃ b l, findLeader skip (n cfg) 0 cfg = Some (b, l).
Proof.
  intros Hup. assert (∀ k i, 0 ≤ i → i + Z.of_nat k ≤ Z.of_nat (n cfg) → ∃ b l, findLeader skip k i cfg = Some (b, l)) as Hgen; [|apply Hgen; lia].
  induction k as [|k IH]; intros i Hi Hk; simpl; [eauto|].
  destruct (Hup i) as [kv ->]; [unfold server; lia|]. simpl. case_match; [eauto|]. apply IH; lia.
Qed.

(** The partition of the tests.  At any moment of a test on an odd number of servers, at least
    three, that are all up, [make_partition] gives two sides that share out the servers, a majority and
    a minority, with the server that [Leader] found in the minority; after [partition], a request of a
    server reaches another one exactly when they are on the same side, and the clerks reach whom they
    reached before. *)
Lemma partition_isolates skip (m : nat) cfg b l :
  (1 ≤ m)%nat → moment (2 * m + 1) cfg → (∀ i, server cfg i → ∃ kv, (kvservers cfg).[i] = Some (Some kv)) →
  findLeader skip (n cfg) 0 cfg = Some (b, l) →
  ∃ p1 p2 cfg', splitAround l (n cfg) = Some (p1, p2) ∧ partition p1 p2 cfg = Some cfg' ∧
    p1 ++ p2 ≡ₚ upTo (n cfg) ∧ length p1 = S m ∧ length p2 = m ∧ l ∈ p2 ∧
    (∀ i j e, endName (endnames cfg') i j = Some e → reaches (net cfg') e (inr j) ↔ (i ∈ p1 ↔ j ∈ p1)) ∧
    (∀ ck names e s, clerks cfg !! ck = Some names → e ∈ names → reaches (net cfg') e s ↔ reaches (net cfg) e s).
Proof.
  intros Hm Hmom Hup Hlead. destruct (moment_alive _ _ Hmom) as [[I A] Hn].
  assert (0 ≤ l < Z.of_nat (2 * m + 1)) as Hl.
  { apply findLeader_range in Hlead as [(_ & ? & _)|(_ & ->)]; [rewrite Hn in *; lia|lia|lia]. }
  destruct (splitAround_spec l m Hm Hl) as (p1 & p2 & Hsp & Hperm & Hl1 & Hl2 & Hin). rewrite <-Hn in Hsp, Hperm.
  assert (∀ x, x ∈ p1 ++ p2 ↔ server cfg x) as Hall by (intros x; rewrite Hperm; apply elem_of_upTo).
  assert (NoDup (p1 ++ p2)) as Hnd by (rewrite Hperm; apply NoDup_upTo).
  destruct (partition_spec cfg p1 p2) as (cfg' & Hp & [Hnet [He Hs Hc] Hapart] & Hlk).
  { by apply inv_fullGrid. }
  { intros x Hx. apply Hall, elem_of_app. by left. }
  { intros x Hx. apply Hall, elem_of_app. by right. }
  { done. }
  exists p1, p2, cfg'. split_and!; try done.
  - intros i j e Hij. assert (endName (endnames cfg) i j = Some e) as Hij' by (by rewrite Hnet in Hij).
    destruct (gridOk_range _ _ _ _ _ _ _ (hi_grid _ I) Hij') as [Ri Rj].
    pose proof (proj2 (Hall i) Ri) as Pi. pose proof (proj2 (Hall j) Rj) as Pj. rewrite elem_of_app in Pi, Pj.
    apply NoDup_app in Hnd as (_ & Hdis & _). pose proof (Hdis i). pose proof (Hdis j).
    assert (reaches (net cfg') e (inr j) ↔ linked cfg' i j) as ->.
    { unfold reaches, linked, connectionAt, serverAt. rewrite Hc, Hs. split; [intros [? _]; eauto|].
      intros (e' & He' & Hen). rewrite Hij in He'. injection He' as <-. split; [done|].
      split; [by eapply (gr_made _ _ _ _ (hi_grid _ I))|]. apply (hi_up _ I). by apply Hup. }
    rewrite Hlk by done. tauto.
  - intros ck names e s Hck Hine. unfold reaches, connectionAt, serverAt. rewrite Hc, Hs, Hapart; [done|].
    by eapply (hi_apart _ I).
Qed.

(** Stopping and starting a server.  While a server is stopped nobody reaches it, and when it is
    started again, after anything else may have happened in the test, it recovers from what it had
    stored. *)
Lemma service_restart k cfg i kv :
  moment k cfg → (kvservers cfg).[i] = Some (Some kv) →
  ∃ cfg1, ShutdownServer i cfg = Some cfg1 ∧
    ∀ cfg2 names srv, rtc (harnessStep (λ j, j ≠ i)) cfg1 cfg2 → newNames (n cfg2) names (net cfg2) →
      (∀ e, ¬ reaches (net cfg2) e (inr i)) ∧
      ∃ cfg3 kv', StartServer i names srv cfg2 = Some cfg3 ∧ (kvservers cfg3).[i] = Some (Some kv') ∧ srvRecovers kv kv'.
Proof.
  intros Hmom Hkv. destruct (moment_alive _ _ Hmom) as [[I A] Hn]. pose proof (go_index_Some_lt _ _ _ Hkv) as Rk.
  assert (server cfg i) as Hi by (unfold server, len in *; rewrite (hi_servers _ I) in Rk; done).
  destruct (shutdown_spec cfg i I A Hi) as (cfg1 & s & Hx & I1 & Hn1 & He1 & _ & Hs & Hk1 & Hsv1).
  exists cfg1. split; [done|]. intros cfg2 names srv Hsteps Hnew.
  assert (alive cfg1) as Al1 by (split; [done|unfold allRows; by rewrite Hn1, He1]).
  destruct (steps_alive _ _ _ Al1 Hsteps) as ([I2 A2] & Hn2 & Hkept).
  assert ((saved cfg1).[i] = Some (Some (srvPersister kv))) as Hp.
  { unfold savedNow in Hs. rewrite Hkv in Hs. injection Hs as <-. rewrite Hsv1.
    apply go_index_insert_eq. unfold len in *. rewrite (hi_saved _ I). rewrite (hi_servers _ I) in Rk. done. }
  destruct (Hkept i) as [Hd2 Hs2]; [by intros ?|rewrite Hk1; by apply go_index_insert_eq|].
  assert (server cfg2 i) as Hi2 by (unfold server; rewrite Hn2, Hn1; done).
  split.
  - intros e (_ & _ & Hup). apply (hi_up _ I2) in Hup as [s' Hup]. by rewrite Hd2 in Hup.
  - destruct (start_spec cfg2 i names srv I2 Hi2 Hd2 Hnew) as (cfg3 & kv' & Hst & I3 & Hn3 & _ & _ & Hk3 & _ & _ & Hrec).
    exists cfg3, kv'. split_and!; [done| |].
    + rewrite Hk3. apply go_index_insert_eq. unfold len. rewrite (hi_servers _ I2). exact Hi2.
    + apply (Hrec kv (srvPersister kv)); [|done|by rewrite Hs2]. rewrite Hn2, Hn1. by apply (hi_ok _ I).
Qed.
End life.
