(* ===== verification/ServiceHosts.v ===== *)
(** The key/value server and the shard controller as servers of their harnesses: both keep the laws
    that [ServiceConfigProps] asks for, so that what is proved there holds of both. *)
From S2P Require Import Prelude Labgob Labrpc TestNet Persister RaftConfig ServiceConfig ServiceNet ServiceConfigProps.
From S2P Require Import Raft RaftNode RaftService RequestServer KVServer ShardCtrler.
#[local] Open Scope Z_scope.

(** ** Servers of the request path *)
Section peers.
Context {St Req Op Ans : Type} `{!Service St Req Op Ans, !Gob Z, !Gob (list (Log Op))}.
Implicit Types (s : Sys St Req Op Ans).

(** The Raft peer [i] of [k] of a server. *)
Record peerOk (k : nat) (i : Z) s : Prop := {
  pk_durable : durable (rf s);
  pk_wf : wf (rf s);
  pk_peers : peers (rf s) = k;
  pk_me : me (rf s) = i;
}.

(** What the service itself does to the peer are operations of [RaftNode]. *)
Definition nodeOps : Prop :=
  (∀ r (st : St) i r', svc_after r st i = Some r' → r' = r ∨ ∃ op, nodeExec r op = Some r') ∧
  (∀ r (st : St) m r' st', svc_install r st m = Some (r', st') → ∃ op, nodeExec r op = Some r' ∨ r' = r).

Lemma sysStep_peer s e s' : nodeOps → sysStep s e = Some s' → rf s' = rf s ∨ ∃ op, nodeExec (rf s) op = Some (rf s').
Proof.
  intros [Ha Hi] H. destruct e as [op|req|h|h|h|h|h|msg| | |]; simpl in H.
  - apply bind_Some in H as (r & Hr & [= <-]). right. eauto.
  - injection H as <-. by left.
  - apply bind_Some in H as (hd & _ & H). destruct hd; try done.
    destruct (Start (rf s) op) as [[r [[ix t] l]] tr] eqn:Hs. injection H as <-. right. exists (OpStart op).
    simpl. by rewrite Hs; destruct l.
  - apply bind_Some in H as (hd & _ & H). destruct hd; try done. case_match. injection H as <-. by left.
  - apply bind_Some in H as (hd & _ & H). destruct hd; try done. apply bind_Some in H as ([w a] & _ & [= <-]). by left.
  - apply bind_Some in H as (hd & _ & H). destruct hd; try done. injection H as <-. by left.
  - apply bind_Some in H as (hd & _ & H). destruct hd; try done. injection H as <-. by left.
  - destruct (fetcher s); try done. case_match; [|case_match].
    + apply bind_Some in H as (op & _ & H). apply bind_Some in H as ([st' a] & _ & [= <-]). by left.
    + apply bind_Some in H as ([r st'] & Hr & [= <-]). destruct (Hi _ _ _ _ _ Hr) as (op & [?|?]); [right; eauto|by left].
    + injection H as <-. by left.
  - destruct (fetcher s); try done. case_match; [case_match|]; injection H as <-; by left.
  - destruct (fetcher s); try done. apply bind_Some in H as (w & _ & [= <-]). by left.
  - destruct (fetcher s); try done. apply bind_Some in H as (r & Hr & [= <-]). by apply Ha in Hr.
Qed.

Lemma peerOk_step k i s e s' : nodeOps → peerOk k i s → sysStep s e = Some s' → peerOk k i s'.
Proof.
  intros Ho [Hd Hw Hp Hm] Hs. destruct (sysStep_peer _ _ _ Ho Hs) as [Hr|[op Hop]].
  - split; by rewrite Hr.
  - destruct (term_vote _ _ _ Hop) as (_ & Hm' & Hp' & _). split; [..|congruence|congruence].
    + by eapply durable_preserved.
    + by eapply wf_preserved.
Qed.

Lemma peerOk_fresh k i (st : St) : ∃ r, Make k i MakePersister = Some r ∧ peerOk k i (initSys r st).
Proof. destruct (Make_fresh (C := Op) k i) as (r & Hr & Hw & Hd & Hp & Hm & _). exists r. split; [done|]. by split. Qed.

Lemma peerOk_restart k i s (st : St) :
  peerOk k i s → ∃ r, Make k i (persister (rf s)) = Some r ∧ peerOk k i (initSys r st) ∧ recovers (rf s) r.
Proof.
  intros [Hd _ <- <-]. destruct (Make_recovers _ Hd) as (r & Hr & Hrec). exists r. split; [done|].
  split; [|done]. destruct Hrec. by split.
Qed.
End peers.

(** ** The key/value server *)
Module KVHost.
Import KV KVConfig.
Section host.
Context `{!Gob Z, !Gob (gmap Z Z), !Gob (gmap string string), !Gob (list (Log Op))} (maxraftstate : Z).
#[local] Instance service : Service KVState Request Op Answer := kvService maxraftstate.

Lemma kv_nodeOps : nodeOps (St := KVState) (Req := Request) (Op := Op) (Ans := Answer).
Proof.
  split; simpl.
  - intros r st i r'. unfold afterCommand. case_match; [|intros [= <-]; by left]. intros Hx. right. by exists (OpSnapshot i (createSnapshot st)).
  - intros r st m r' st'. unfold installSnapshot. intros ([r1 b] & Hr & [= <- <-])%bind_Some.
    exists (OpCondInstallSnapshot (SnapshotTerm m) (SnapshotIndex m) (am_Snapshot m)). left. simpl. by rewrite Hr.
Qed.

(** The server [s'] started from what [s] had stored. *)
Record kvRecovers (s s' : Sys KVState Request Op Answer) : Prop := {
  kr_raft : recovers (rf s) (rf s');
  kr_state : st s' = readSnapshot (mkKV ∅ ∅) (ReadSnapshot (persister (rf s)));
  kr_chans : chans s' = mkChans ∅ [];
}.

#[export, program] Instance kvLaws : HostedLaws (Sys KVState Request Op Answer) := {|
  srvOk := peerOk;
  srvStep s s' := ∃ e, sysStep s e = Some s';
  srvRecovers := kvRecovers;
|}.
Next Obligation. intros k i s s' Hok [e Hs]. eapply peerOk_step; [apply kv_nodeOps|done..]. Qed.
Next Obligation.
  intros k i. destruct (peerOk_fresh (Req := Request) (Ans := Answer) k i (readSnapshot (mkKV ∅ ∅) (ReadSnapshot MakePersister))) as (r & Hr & Hok).
  exists (initSys r (readSnapshot (mkKV ∅ ∅) (ReadSnapshot MakePersister))). simpl. unfold StartKVServer. by rewrite Hr.
Qed.
Next Obligation.
  intros k i s Hok. set (st' := readSnapshot (mkKV ∅ ∅) (ReadSnapshot (persister (rf s)))).
  destruct (peerOk_restart k i s st' Hok) as (r & Hr & Hok' & Hrec).
  exists (initSys r st'). simpl. unfold StartKVServer. rewrite Hr. split_and!; [done..|]. by split.
Qed.

(** C39: the partition of the key/value tests.  At any moment of a test on an odd number of servers,
    at least three, that are all up, [make_partition] shares them out into a majority and a minority
    that has the leader, if there is one; after [partition] a request of a server reaches another one
    exactly when they are on the same side, and the clerks reach whom they reached before. *)
Theorem kv_partition_isolates (m : nat) (cfg : KVConfig.config) :
  (1 ≤ m)%nat → moment (2 * m + 1) (base cfg) →
  (∀ i, server (base cfg) i → ∃ kv, (kvservers (base cfg)).[i] = Some (Some kv)) →
  ∃ p1 p2 l b cfg', Leader cfg = Some (b, l) ∧ make_partition cfg = Some (p1, p2) ∧
    partition p1 p2 (base cfg) = Some cfg' ∧
    p1 ++ p2 ≡ₚ upTo (2 * m + 1) ∧ length p1 = S m ∧ length p2 = m ∧ l ∈ p2 ∧
    (b = true → ∃ kv, (kvservers (base cfg)).[l] = Some (Some kv) ∧ (GetState (rf kv)).2 = true) ∧
    (∀ i j e, endName (endnames cfg') i j = Some e → reaches (net cfg') e (inr j) ↔ (i ∈ p1 ↔ j ∈ p1)) ∧
    (∀ ck names e s, clerks (base cfg) !! ck = Some names → e ∈ names →
       reaches (net cfg') e s ↔ reaches (net (base cfg)) e s).
Proof.
  intros Hm Hmom Hup. destruct (moment_alive _ _ Hmom) as [_ Hn].
  destruct (findLeader_total false (base cfg)) as (b & l & Hl); [done|].
  destruct (partition_isolates false m (base cfg) b l Hm Hmom Hup Hl) as (p1 & p2 & cfg' & Hs & Hp & Hperm & H1 & H2 & Hin & Hr & Hck).
  exists p1, p2, l, b, cfg'. split; [exact Hl|]. split; [unfold make_partition, Leader; rewrite Hl; exact Hs|].
  rewrite <-Hn. split_and!; try done. intros ->.
  apply findLeader_range in Hl as [(_ & _ & kv & Hkv & Hst)|[? _]]; [by exists kv|done|lia].
Qed.

(** C40: stopping and starting a key/value server.  [ShutdownServer] succeeds; while the server is
    stopped nobody reaches it, and when it is started again, whatever else happened in the test in
    between, its Raft peer has the term, the vote and the log that the old one had stored, and its map
    and its table of requests are those of the snapshot. *)
Theorem kvserver_restart k (cfg : ServiceConfig.config (Sys KVState Request Op Answer)) i kv :
  moment k cfg → (kvservers cfg).[i] = Some (Some kv) →
  ∃ cfg1, ShutdownServer i cfg = Some cfg1 ∧
    ∀ cfg2 names srv, rtc (harnessStep (λ j, j ≠ i)) cfg1 cfg2 → newNames (n cfg2) names (net cfg2) →
      (∀ e, ¬ reaches (net cfg2) e (inr i)) ∧
      ∃ cfg3 kv', StartServer i names srv cfg2 = Some cfg3 ∧ (kvservers cfg3).[i] = Some (Some kv') ∧ kvRecovers kv kv'.
Proof. exact (service_restart k cfg i kv). Qed.
End host.
End KVHost.

(** ** The shard controller *)
Module CtrlHost.
Import SC CtrlConfig.
Section host.
Context `{!Gob Z, !Gob (list (Log Op))}.

Lemma ctrl_nodeOps ord : let _ := ctrlService ord in
  nodeOps (St := SC.ShardCtrler) (Req := Request) (Op := Op) (Ans := Answer).
Proof. split; simpl; [intros r st i r' [= <-]; by left|]. intros r st m r' st' [= <- <-]. exists OpKill. by right. Qed.

(** The controller takes no snapshots: it starts with the first configuration and applies its log again. *)
Record ctrlRecovers (s s' : Sys SC.ShardCtrler Request Op Answer) : Prop := {
  cr_raft : recovers (rf s) (rf s');
  cr_state : st s' = initSC;
}.

#[export, program] Instance ctrlLaws : HostedLaws (Sys SC.ShardCtrler Request Op Answer) := {|
  srvOk := peerOk;
  srvStep s s' := ∃ ord e, let _ := ctrlService ord in sysStep s e = Some s';
  srvRecovers := ctrlRecovers;
|}.
Next Obligation. intros k i s s' Hok (ord & e & Hs). eapply peerOk_step; [apply (ctrl_nodeOps ord)|done..]. Qed.
Next Obligation.
  intros k i. destruct (peerOk_fresh (Req := Request) (Ans := Answer) k i initSC) as (r & Hr & Hok).
  exists (initSys r initSC). simpl. unfold SC.StartServer. by rewrite Hr.
Qed.
Next Obligation.
  intros k i s Hok. destruct (peerOk_restart k i s initSC Hok) as (r & Hr & Hok' & Hrec).
  exists (initSys r initSC). simpl. unfold SC.StartServer. rewrite Hr. split_and!; [done..|]. by split.
Qed.

(** Stopping and starting a controller. *)
Theorem ctrlserver_restart k (cfg : CtrlConfig.config) i kv :
  moment k cfg → (kvservers cfg).[i] = Some (Some kv) →
  ∃ cfg1, ShutdownServer i cfg = Some cfg1 ∧
    ∀ cfg2 names srv, rtc (harnessStep (λ j, j ≠ i)) cfg1 cfg2 → newNames (n cfg2) names (net cfg2) →
      (∀ e, ¬ reaches (net cfg2) e (inr i)) ∧
      ∃ cfg3 kv', ServiceConfig.StartServer i names srv cfg2 = Some cfg3 ∧ (kvservers cfg3).[i] = Some (Some kv') ∧ ctrlRecovers kv kv'.
Proof. exact (service_restart k cfg i kv). Qed.
End host.
End CtrlHost.
