(* ===== verification/ServiceWitness.v ===== *)
(** Concrete runs of the key/value service and of the shard controller: the hypotheses of
    their theorems hold in them, and the situations in which the controller departs from
    its documentation are reached by them. *)
From S2P Require Import Prelude Labgob Persister Raft RaftLog RaftNode RaftProps RaftService RaftWitness.
From S2P Require Import RequestServer RequestProps KVServer KVModel KVProps ShardCtrler ShardBalance ShardProps ShardTypes.
Import SampleGob.
#[local] Open Scope Z_scope.

(** ** The key/value service *)
Module KVRun.
Import KV KvModel.

Definition op_code (o : Op) : string * string * string * (Z * Z) * string :=
  (Key o, Value o, op_Op o, (RequestId o, UId o), op_Err o).
Definition op_decode (p : string * string * string * (Z * Z) * string) : Op :=
  let '(k, v, o, (r, u), e) := p in mkOp k v o r u e.
Definition oplog_code (l : Log Op) := (op_code <$> Command l, Term l).
Definition oplog_decode (p : option (string * string * string * (Z * Z) * string) * Z) : Log Op :=
  mkLog (op_decode <$> p.1) p.2.
Lemma oplog_decode_code l : oplog_decode (oplog_code l) = l.
Proof. by destruct l as [[[]|] ?]. Qed.
#[export] Instance gob_oplog : Gob (Log Op) := gob_iso oplog_code oplog_decode oplog_decode_code.

#[local] Instance service : Service KVState Request Op Answer := kvService (-1).

Definition is_some_b {A} (o : option A) : bool := match o with Some _ => true | None => false end.

Definition thePut : Op := mkOp "k" "v" "Put" 1 7 "".

(** Peer 0 becomes leader; client 7 puts; the command is committed as entry 1. *)
Definition onePut : list (Event Request Op) :=
  [EvRaft OpTickElect; EvRaft (OpElectReply 1 (mkRVReply 1 true 1));
   EvCall (RPutAppend (mkPutAppendArgs "k" "v" "Put" 1 7)); EvStart 0; EvGetChan 0;
   EvFetch (mkApplyMsg true (Some thePut) 1 false [] 0 0); EvLeader].

Lemma onePut_sends_runs :
  (rf ← Make 3 0 MakePersister; s ← sysRun (initSys rf (mkKV ∅ ∅)) onePut; Some (fetcher s)) =
  Some (FSend thePut 1 0 (mkAnswer OK "")).
Proof. by vm_compute. Qed.

Lemma onePut_answers_runs :
  (rf ← Make 3 0 MakePersister; s ← sysRun (initSys rf (mkKV ∅ ∅)) (onePut ++ [EvSend; EvAnswer 0]);
   Some (handlers s !! 0%nat, appliedOps s)) =
  Some (Some (HReply thePut 1 (Some (mkAnswer OK ""))), [thePut]).
Proof. by vm_compute. Qed.

Lemma onePut_sends :
  ∃ rf s, sysRun (initSys rf (mkKV ∅ ∅)) onePut = Some s ∧
    fetcher s = FSend thePut 1 0 (mkAnswer OK "").
Proof.
  pose proof onePut_sends_runs as H.
  apply bind_Some in H as (rf & _ & H). apply bind_Some in H as (s & H1 & H).
  exists rf, s. split; [exact H1|]. exact (f_equal (default FIdle) H).
Qed.

Lemma onePut_answered :
  ∃ rf s, sysRun (initSys rf (mkKV ∅ ∅)) (onePut ++ [EvSend; EvAnswer 0]) = Some s ∧
    handlers s !! 0%nat = Some (HReply thePut 1 (Some (mkAnswer OK ""))) ∧
    appliedOps s = [thePut].
Proof.
  pose proof onePut_answers_runs as H.
  apply bind_Some in H as (rf & _ & H). apply bind_Some in H as (s & H1 & H).
  exists rf, s. split; [exact H1|]. split; [exact (f_equal (λ o, (default (None, []) o).1) H)|].
  exact (f_equal (λ o, (default (None, []) o).2) H).
Qed.

Lemma answers_are_own_witness :
  ∃ s : Sys KVState Request Op Answer,
    handlers s !! 0%nat = Some (HReply thePut 1 (Some (mkAnswer OK ""))) ∧
    ∃ op', (1, op', mkAnswer OK "") ∈ applied s ∧ svc_UId op' = svc_UId thePut.
Proof.
  destruct onePut_answered as (rf & s & H & Hh & _). exists s. split; [exact Hh|].
  destruct (answers_are_own rf (mkKV ∅ ∅) _ s 0 thePut 1 _ H Hh) as (op' & Hin & Hu & _).
  exists op'. exact (conj Hin Hu).
Defined.

Lemma answer_never_blocks_witness :
  ∃ s s' : Sys KVState Request Op Answer, fetcher s = FSend thePut 1 0 (mkAnswer OK "") ∧
    sysStep s EvSend = Some s' ∧ heap (chans s') !! 0%nat = Some (Some (mkAnswer OK "")).
Proof.
  destruct onePut_sends as (rf & s & H & Hf).
  destruct (answer_never_blocks rf (mkKV ∅ ∅) onePut s thePut 1 0 (mkAnswer OK "")) as (s' & Hs & Hh);
    [done|exact H|exact Hf|].
  exists s, s'. split_and!; [exact Hf|exact Hs|exact Hh].
Defined.

Lemma server_answers_witness :
  ∃ s : Sys KVState Request Op Answer, m (st s) = (runSpec [] ∅ [thePut]).1 ∧
    ∃ n, (runSpec [] ∅ (appliedOps s)).2 !! n = Some (mkAnswer OK "").
Proof.
  destruct onePut_answered as (rf & s & H & Hh & Ho). exists s.
  destruct (server_answers (-1) rf (onePut ++ [EvSend; EvAnswer 0]) s) as (Hm & Hans & _); [exact H| | |].
  - by repeat constructor.
  - rewrite Ho. split; [done|]. split; [|done]. right. by intros r ?%not_elem_of_nil.
  - destruct (Hans 0%nat thePut 1 (mkAnswer OK "") Hh) as (n & _ & _ & _ & _ & Hn).
    rewrite Ho in Hm. split; [exact Hm|]. by exists n.
Defined.

(** A log with a repeated request, which enters again after a later one. *)
Definition busyLog : list Op :=
  [mkOp "k" "a" "Put" 1 7 ""; mkOp "k" "b" "Append" 2 7 ""; mkOp "k" "a" "Put" 1 7 "";
   mkOp "k" "b" "Append" 2 7 ""; mkOp "k" "" "Get" 1 8 ""].

Lemma busyLog_ordered : clientOrder [] busyLog.
Proof.
  repeat split; simpl; try lia.
  - right. by intros r ?%not_elem_of_nil.
  - right. intros r [[= ->]|?%not_elem_of_nil]%elem_of_cons; [lia|done].
  - left. by right; left.
  - left. by right; left.
  - right. intros r Hr. repeat (apply elem_of_cons in Hr as [?|Hr]; [done|]).
    by apply not_elem_of_nil in Hr.
Qed.

Lemma busyLog_known : Forall known busyLog.
Proof.
  repeat (apply Forall_cons; split; [first [by left|by right; left|by right; right]|]). by constructor.
Qed.

Lemma exactly_once_witness :
  m (KVProps.replay (mkKV ∅ ∅) busyLog).1 !! "k" = Some "ab" ∧
  (KVProps.replay (mkKV ∅ ∅) busyLog).2 = (runSpec [] ∅ busyLog).2.
Proof.
  split; [by vm_compute|]. pose proof (exactly_once ∅ busyLog busyLog_ordered) as H.
  destruct (KVProps.replay (mkKV ∅ ∅) busyLog) as [kv an]. by rewrite <-H.
Defined.

Lemma log_is_linearization_witness :
  Partition (KVProps.history [] busyLog (KVProps.replay (mkKV ∅ ∅) busyLog).2) =
    [[(mkIn 1 "k" "a", mkOut ""); (mkIn 2 "k" "b", mkOut ""); (mkIn 0 "k" "", mkOut "ab")]] ∧
  Forall (λ part, legal Init part = true)
    (Partition (KVProps.history [] busyLog (KVProps.replay (mkKV ∅ ∅) busyLog).2)).
Proof.
  split; [by vm_compute|]. exact (log_is_linearization busyLog busyLog_ordered busyLog_known).
Defined.

(** A server that snapshots at every command, with two entries in its log. *)
Definition kvLeader : Raft Op :=
  persist (mkRaft 3 MakePersister 0 false 1 0
    [zero_Log; mkLog (Some thePut) 1; mkLog (Some thePut) 1] 0 0 1 1 [3; 3; 3] [0; 0; 0] LEADER
    [false; false; false] false).
Definition someKV : KVState := mkKV {["k" := "v"]} {[7 := 1]}.

Lemma restart_is_replay_witness :
  ∃ rf' s, afterCommand 0 kvLeader someKV 1 = Some rf' ∧
    StartKVServer 3 0 (persister rf') = Some s ∧ st s = someKV ∧ lastApplied (RequestServer.rf s) = 1.
Proof.
  assert (∃ rf', afterCommand 0 kvLeader someKV 1 = Some rf' ∧ lastIncludedIndex rf' = 1)
    as (rf' & H & Hi).
  { assert ((rf' ← afterCommand 0 kvLeader someKV 1; Some (lastIncludedIndex rf')) = Some 1) as H
      by (by vm_compute).
    destruct (afterCommand _ _ _ _) as [rf'|]; [|done]. exists rf'. split; [done|]. by injection H. }
  destruct (restart_is_replay 0 kvLeader someKV 1 rf') as (s & Hs & Hst & Ha & _);
    [by constructor|by vm_compute|exact H|exact Hi|].
  exists rf', s. split_and!; [exact H|exact Hs|exact Hst|exact Ha].
Defined.

Lemma install_takes_over_witness :
  ∃ rf' kv', installSnapshot kvLeader (mkKV ∅ ∅)
      (mkApplyMsg false None 0 true (createSnapshot someKV) 1 5) = Some (rf', kv') ∧
    kv' = someKV ∧ lastApplied rf' = 5.
Proof.
  destruct (installSnapshot kvLeader (mkKV ∅ ∅)
      (mkApplyMsg false None 0 true (createSnapshot someKV) 1 5)) as [[rf' kv']|] eqn:H.
  - exists rf', kv'. split; [done|].
    destruct (install_takes_over kvLeader (mkKV ∅ ∅) someKV 1 5 rf' kv' H) as (Hk & Ha & _).
    exact (conj Hk Ha).
  - exfalso. apply (f_equal is_some_b) in H. vm_compute in H. discriminate.
Defined.
End KVRun.

(** ** The shard controller *)
Module CtrlRun.
Import SC.

Definition inOrder : nat → shardMap → list (Z * list Z) := λ _ m, map_to_list m.
Definition backwards : nat → shardMap → list (Z * list Z) := λ _ m, reverse (map_to_list m).
Lemma inOrder_iteration : iteration inOrder.
Proof. by intros k m. Qed.
Lemma backwards_iteration : iteration backwards.
Proof. intros k m. apply reverse_Permutation. Qed.

Definition joinOp (gid req : Z) : Op := mkOp Join {[gid := ["s"%string]]} [] 0 0 0 req 7.
Definition moveOp (shard gid req : Z) : Op := mkOp Move ∅ [] shard gid 0 req 7.
Definition leaveOp (gid req : Z) : Op := mkOp Leave ∅ [gid] 0 0 0 req 7.

Lemma joinOp_ok gid req : 0 < gid → opOk (joinOp gid req).
Proof. intros H g. simpl. rewrite lookup_singleton_is_Some. by intros <-. Qed.

Definition threeJoins : list Op := [joinOp 1 1; joinOp 2 2; joinOp 3 3].

Lemma replicas_agree_witness :
  ∃ sc answers, replay (λ _, inOrder) 0 initSC threeJoins = Some (sc, answers) ∧
    replay (λ _, backwards) 0 initSC threeJoins = Some (sc, answers) ∧
    (∀ (i : nat) c, configs sc !! i = Some c → Num c = Z.of_nat i ∧ length (Shards c) = NShards).
Proof.
  destruct (replicas_agree (λ _, inOrder) (λ _, backwards) threeJoins [leaveOp 1 4])
    as (sc & an & H1 & H2 & H3 & _).
  - intros _. exact inOrder_iteration.
  - intros _. exact backwards_iteration.
  - repeat (apply Forall_cons; split; [by (apply joinOp_ok || idtac)|]). by constructor.
  - exists sc, an. exact (conj H1 (conj H2 H3)).
Defined.

(** Three groups join, shard 4 moves to group 1, group 2 leaves. *)
Definition joinsMoveLeave : list Op := threeJoins ++ [moveOp 4 1 4; leaveOp 2 5].

Lemma configs_typed_witness :
  ∃ sc answers, replay (λ _, backwards) 0 initSC joinsMoveLeave = Some (sc, answers) ∧
    ∀ i c, configs sc !! i = Some c → configTyped i c.
Proof.
  apply (configs_typed (λ _, backwards) joinsMoveLeave).
  - intros _. exact backwards_iteration.
  - repeat (apply Forall_cons; split; [by (apply joinOp_ok || idtac)|]). by constructor.
  - apply (bool_decide_unpack _). by vm_compute.
Defined.

Definition firstConfig : Config := zero_Config.

Lemma join_balances_witness :
  ∃ c', dealJoin inOrder initSC {[1 := ["a"%string]; 2 := ["b"%string]]} =
      Some (set_configs [firstConfig; c'] initSC) ∧ Num c' = 1 ∧ balanced c'.
Proof.
  destruct (join_balances inOrder initSC {[1 := ["a"%string]; 2 := ["b"%string]]} firstConfig)
    as (c' & Hd & _ & Hn & Hb).
  - exact inOrder_iteration.
  - exact initSC_wf.
  - reflexivity.
  - intros g Hg. left. by apply elem_of_replicate in Hg as [-> _].
  - intros g [v Hv]. apply lookup_insert_Some in Hv as [[<- _]|[_ Hv]]; [done|].
    by apply lookup_singleton_Some in Hv as [<- _].
  - done.
  - intros g [v Hv]. done.
  - exists c'. exact (conj Hd (conj Hn Hb)).
Defined.

Definition twoGroups : Config :=
  mkConfig 1 [1;1;1;1;1;1;1;1;1;2] {[1 := ["a"%string]; 2 := ["b"%string]; 3 := ["c"%string]]}.
Definition scTwo : ShardCtrler := mkSC [zero_Config; twoGroups] ∅.

Lemma scTwo_owners g : g ∈ Shards twoGroups → g = 1 ∨ g = 2.
Proof.
  simpl. intros Hg. repeat (apply elem_of_cons in Hg as [->|Hg]; [auto|]).
  by apply not_elem_of_nil in Hg.
Qed.

Lemma scTwo_groups g : is_Some (Groups twoGroups !! g) ↔ g = 1 ∨ g = 2 ∨ g = 3.
Proof.
  simpl. split.
  - intros [v Hv]. apply lookup_insert_Some in Hv as [[<- _]|[_ Hv]]; [auto|].
    apply lookup_insert_Some in Hv as [[<- _]|[_ Hv]]; [auto|].
    apply lookup_singleton_Some in Hv as [<- _]. auto.
  - by intros [->|[->| ->]]; eexists.
Qed.

Lemma scTwo_wf : scWf scTwo.
Proof.
  split; [done|]. intros [|[|i]] c Hi; simpl in Hi; simplify_eq.
  - split; [done|]. apply (sw_configs _ initSC_wf 0). done.
  - split; [done|]. split; [done| |].
    + intros g [-> | ->]%scTwo_owners; lia.
    + intros g [->|[->| ->]]%scTwo_groups; lia.
Qed.

Lemma leave_balances_witness :
  ∃ c', dealLeave inOrder scTwo [1] = Some (set_configs [zero_Config; twoGroups; c'] scTwo) ∧
    Num c' = 2 ∧ Groups c' !! 1 = None.
Proof.
  destruct (leave_balances inOrder scTwo [1] twoGroups) as (c' & Hd & Hn & Hg & _).
  - exact inOrder_iteration.
  - exact scTwo_wf.
  - reflexivity.
  - intros g Hg. right. apply scTwo_groups. destruct (scTwo_owners _ Hg); auto.
  - exists c'. split; [exact Hd|]. split; [exact Hn|]. rewrite Hg. done.
Defined.

Lemma query_returns_witness :
  ∃ c, dealQuery scTwo 0 = Some c ∧ Num c = 0.
Proof.
  destruct (query_returns scTwo 0 scTwo_wf) as (c & Hq & _ & Hn); [done|].
  exists c. split; [exact Hq|exact Hn].
Defined.

Lemma ctrl_duplicate_witness :
  ∃ sc' a, applyCommand inOrder scTwo (moveOp 0 2 5) = Some (sc', a) ∧
    applyCommand backwards sc' (moveOp 0 2 5) = Some (sc', mkAnswer false OK zero_Config).
Proof.
  destruct (applyCommand inOrder scTwo (moveOp 0 2 5)) as [[sc' a]|] eqn:H.
  - exists sc', a. split; [reflexivity|].
    exact (ctrl_duplicate inOrder backwards scTwo (moveOp 0 2 5) sc' a ltac:(done) ltac:(done) H).
  - exfalso. apply (f_equal KVRun.is_some_b) in H. vm_compute in H. discriminate.
Defined.

(** *** Join does not see groups without shards

    [dealJoin] balances over the groups that own shards and the joining ones.  Here group 3
    of the last configuration owns nothing (its shards were moved away). *)

(** After a Join the shards need not be evenly spread: a group of the last
    configuration that owns no shard still owns none, while others own several. *)
Theorem join_skips_empty_group :
  ∃ sc c, dealJoin inOrder scTwo {[4 := ["d"%string]]} = Some sc ∧ last (configs sc) = Some c ∧
    is_Some (Groups c !! 3) ∧ owned (Shards c) 3 = 0 ∧
    owned (Shards c) 1 = 4 ∧ owned (Shards c) 2 = 3 ∧ owned (Shards c) 4 = 3.
Proof.
  assert ((sc ← dealJoin inOrder scTwo {[4 := ["d"%string]]}; c ← last (configs sc);
           Some (KVRun.is_some_b (Groups c !! 3), map (owned (Shards c)) [3; 1; 2; 4])) =
          Some (true, [0; 4; 3; 3])) as H by (by vm_compute).
  apply bind_Some in H as (sc & H0 & H). apply bind_Some in H as (c & H1 & H).
  injection H as Hg Ha Hb Hc Hd. exists sc, c. split; [exact H0|]. split; [exact H1|].
  split; [by destruct (Groups c !! 3)|]. exact (conj Ha (conj Hb (conj Hc Hd))).
Qed.

(** A Move of a shard that does not exist panics in [dealMove], in every replica that
    applies the command. *)
Theorem move_out_of_range_panics sc gid uid req :
  applyCommand inOrder sc (mkOp Move ∅ [] 10 gid 0 req uid) = None ∨
  answered sc uid req = true.
Proof.
  destruct (answered sc uid req) eqn:Ha; [by right|left].
  unfold applyCommand; simpl. rewrite Ha; simpl. unfold dealMove.
  destruct (getLastConfig sc) as [c0|]; simpl; [|done].
  destruct (copyLastConfig sc) as [c|] eqn:Hc; simpl; [|done].
  assert (len (Shards c) = 10) as Hl.
  { unfold copyLastConfig in Hc. apply bind_Some in Hc as (c1 & _ & Hc). unfold cloneConfig in Hc.
    apply bind_Some in Hc as (sh & Hsh & [= <-]). simpl.
    eapply (go_for_from_preserves (λ l : list Z, len l = 10)) in Hsh; [done|done|].
    intros j l l' Hl Hb. apply bind_Some in Hb as (v & _ & Hb).
    apply go_store_inv in Hb as [_ ->]. by rewrite len_insert. }
  unfold go_store. rewrite bool_decide_false by lia. done.
Qed.
End CtrlRun.
