(* ===== verification/HarnessWitness.v ===== *)
(** Runs of the harnesses of the services: three key/value servers of which server 1 leads are
    partitioned, and a server is stopped and started again. *)
From S2P Require Import Labrpc TestNet RaftConfig ServiceConfig ServiceNet ServiceConfigProps.
From S2P Require Import Prelude Labgob Persister Raft RaftNode RaftService RaftWitness.
From S2P Require Import RequestServer KVServer ServiceHosts ServiceWitness TesterWitness.
Import SampleGob KV KVConfig KVHost KVRun.
#[local] Open Scope Z_scope.

Abbreviation kvSys := (Sys KVState Request Op Answer).
Abbreviation kvConfig := (ServiceConfig.config kvSys).
Abbreviation kvMoment := (moment (H := kvLaws (-1))).

Definition three : option kvConfig := ServiceConfig.make_config 3 false threeNames Z.to_nat.

#[local] Instance service : Service KVState Request Op Answer := kvService (-1).

(** Server 1 starts an election and gets the vote of server 0. *)
Definition election : list (Event Request Op) := [EvRaft OpTickElect; EvRaft (OpElectReply 1 (mkRVReply 1 true 1))].
Definition elect1 (cfg : kvConfig) : option kvConfig :=
  kv ← (kvservers cfg).[1]; kv ← kv; kv ← sysRun kv election;
  Some (set_kvservers (<[1%nat := Some kv]> (kvservers cfg)) cfg).
Definition led : option kvConfig := cfg ← three; elect1 cfg.

Lemma three_moment : ∃ cfg, three = Some cfg ∧ kvMoment 3 cfg ∧ n cfg = 3%nat ∧
  ∀ i, server cfg i → ∃ kv, (kvservers cfg).[i] = Some (Some kv).
Proof.
  destruct (make_config_alive (H := kvLaws (-1)) 3 false threeNames Z.to_nat threeNames_good) as (cfg & Hc & _ & Hn & _ & Hup & _).
  exists cfg. split; [exact Hc|]. split; [|exact (conj Hn Hup)].
  exists false, threeNames, Z.to_nat, cfg. split; [exact threeNames_good|]. split; [exact Hc|apply rtc_refl].
Qed.

Lemma elect1_steps cfg cfg' : elect1 cfg = Some cfg' →
  rtc (harnessStep (H := kvLaws (-1)) (λ _, True)) cfg cfg' ∧ n cfg' = n cfg ∧
  ((∀ i, server cfg i → ∃ kv, (kvservers cfg).[i] = Some (Some kv)) → ∀ i, server cfg' i → ∃ kv, (kvservers cfg').[i] = Some (Some kv)).
Proof.
  intros H. apply bind_Some in H as (r & Hr & H). apply bind_Some in H as (kv & -> & H). apply bind_Some in H as (kv' & Hrun & H).
  injection H as <-. unfold election in Hrun. cbn [sysRun] in Hrun. apply bind_Some in Hrun as (kv1 & H1 & H2). apply bind_Some in H2 as (kv2 & H2 & [= <-]).
  pose proof (go_index_Some_lt _ _ _ Hr) as Hi. split; [|split; [done|]].
  - eapply rtc_l; [eapply (hs_server (H := kvLaws (-1)) _ cfg 1 kv kv1 Hr); exists (EvRaft OpTickElect); exact H1|].
    eapply rtc_l; [eapply (hs_server (H := kvLaws (-1)) _ _ 1 kv1 kv2); [simpl; by apply (go_index_insert_eq _ 1)|]; eexists; exact H2|].
    unfold set_kvservers; simpl. rewrite list_insert_insert_eq. apply rtc_refl.
  - intros Hup i Hs. simpl. destruct (decide (i = 1)) as [->|]; [rewrite (go_index_insert_eq _ 1) by done; eauto|].
    rewrite (go_index_insert_ne _ 1) by lia. by apply Hup.
Qed.

Lemma led_runs : (cfg ← led; Some (Leader (mkConfig cfg (-1) 0 0), make_partition (mkConfig cfg (-1) 0 0)))
  = Some (Some (true, 1), Some ([0; 2], [1])).
Proof. vm_compute. reflexivity. Qed.

Lemma moment_step k (cfg cfg' : kvConfig) :
  kvMoment k cfg → rtc (harnessStep (H := kvLaws (-1)) (λ _, True)) cfg cfg' → kvMoment k cfg'.
Proof.
  intros (u & ns & srv & c0 & Hg & H0 & Hs) Hs'. exists u, ns, srv, c0. split; [done|]. split; [done|]. by etransitivity.
Qed.

(** Server 1 is alone after the partition. *)
Lemma kv_partition_isolates_witness :
  ∃ cfg p1 p2 l b cfg', led = Some cfg ∧ Leader (mkConfig cfg (-1) 0 0) = Some (b, l) ∧
    make_partition (mkConfig cfg (-1) 0 0) = Some (p1, p2) ∧ ServiceConfig.partition p1 p2 cfg = Some cfg' ∧
    (b, l, p1, p2) = (true, 1, [0; 2], [1]) ∧
    ∀ i j e, endName (endnames cfg') i j = Some e → reaches (net cfg') e (inr j) ↔ (i ∈ p1 ↔ j ∈ p1).
Proof.
  pose proof led_runs as H. apply bind_Some in H as (cfg & Hled & H). injection H as HL HP.
  destruct three_moment as (c0 & H0 & Hm & Hn & Hup).
  pose proof Hled as Hel. unfold led in Hel. rewrite H0 in Hel. cbn [mbind option_bind] in Hel.
  destruct (elect1_steps _ _ Hel) as (Hs & Hn' & Hup').
  destruct (kv_partition_isolates (-1) 1 (mkConfig cfg (-1) 0 0)) as (p1 & p2 & l & b & cfg' & H1 & H2 & H3 & _ & _ & _ & _ & _ & Hr & _).
  - lia.
  - exact (moment_step _ _ _ Hm Hs).
  - exact (Hup' Hup).
  - exists cfg, p1, p2, l, b, cfg'. split; [exact Hled|]. split; [exact H1|]. split; [exact H2|]. split; [exact H3|]. split; [|exact Hr].
    rewrite HL in H1. rewrite HP in H2. by injection H1 as <- <-; injection H2 as <- <-.
Defined.

(** Server 1 is stopped and started with other names while the others are partitioned from each other. *)
Lemma stopped_runs :
  (cfg ← led; cfg ← ShutdownServer 1 cfg; cfg ← ServiceConfig.partition [0] [2] cfg;
   Some (n cfg, map (λ e, bool_decide (is_Some (ends (net cfg) !! inl e))) moreNames, map (λ kv, bool_decide (is_Some kv)) (kvservers cfg)))
  = Some (3%nat, [false; false; false], [true; false; true]).
Proof. vm_compute. reflexivity. Qed.

Lemma led_server : (cfg ← led; kv ← (kvservers cfg).[1]; kv ← kv; Some (currentTerm (rf kv))) = Some 1.
Proof. vm_compute. reflexivity. Qed.

Lemma kvserver_restart_witness :
  ∃ cfg cfg2 cfg3 kv kv', led = Some cfg ∧ (kvservers cfg).[1] = Some (Some kv) ∧ currentTerm (rf kv) = 1 ∧
    (c ← ShutdownServer 1 cfg; ServiceConfig.partition [0] [2] c) = Some cfg2 ∧ (∀ e, ¬ reaches (net cfg2) e (inr 1)) ∧
    StartServer 1 moreNames 7 cfg2 = Some cfg3 ∧ (kvservers cfg3).[1] = Some (Some kv') ∧ kvRecovers kv kv'.
Proof.
  pose proof stopped_runs as H. apply bind_Some in H as (cfg & Hled & H).
  apply bind_Some in H as (c1 & Hc1 & H). apply bind_Some in H as (cfg2 & Hc2 & H). injection H as Hn2 Hf1 Hf2 Hf3 _.
  pose proof led_server as H. rewrite Hled in H. cbn [mbind option_bind] in H.
  apply bind_Some in H as (r & Hr & H). apply bind_Some in H as (kv & -> & H). injection H as Ht.
  destruct three_moment as (c0 & H0 & Hm & Hn & Hup).
  pose proof Hled as Hel. unfold led in Hel. rewrite H0 in Hel. cbn [mbind option_bind] in Hel.
  destruct (elect1_steps _ _ Hel) as (Hs & _ & _).
  destruct (kvserver_restart (-1) 3 cfg 1 kv (moment_step _ _ _ Hm Hs) Hr) as (c1' & Hc1' & Hrest).
  rewrite Hc1 in Hc1'. injection Hc1' as <-.
  destruct (Hrest cfg2 moreNames 7%nat) as (Hun & cfg3 & kv' & Hst & Hkv' & Hrec).
  - eapply rtc_once, hs_partition. exact Hc2.
  - split; [rewrite Hn2; reflexivity|by distinct|]. unfold hasEnd.
    intros e He. apply elem_of_cons in He as [->|He]; [by apply bool_decide_eq_false in Hf1|].
    apply elem_of_cons in He as [->|He]; [by apply bool_decide_eq_false in Hf2|].
    apply list_elem_of_singleton in He as ->. by apply bool_decide_eq_false in Hf3.
  - exists cfg, cfg2, cfg3, kv, kv'. rewrite Hc1. exact (conj Hled (conj Hr (conj Ht (conj Hc2 (conj Hun (conj Hst (conj Hkv' Hrec))))))).
Defined.
