(* ===== verification/ReplicatedWitness.v ===== *)
(** A run of three key/value servers: a client puts and gets, with a snapshot in between that a
    server installs which missed the put. *)
From S2P Require Import Prelude Labgob Persister Raft RaftLog RaftNode RaftProps RaftService RaftElection RaftWitness.
From S2P Require Import RaftCluster RaftMatching RaftCommit RaftSafety RaftApply ClusterWitness.
From S2P Require Import RequestServer RequestProps KVServer KVModel KVProps ServiceWitness Replicated ReplicatedProps ReplicatedKV.
Import SampleGob KV KVRun.
#[local] Open Scope Z_scope.

Section safe.
Context {St Req Op Ans : Type} `{!Gob Z, !Gob (list (Log Op)), !Service St Req Op Ans, !Replicates St Req Op Ans}.

(** [rsafe] decided. *)
Definition rsafeb (t : RState St Req Op Ans) (a : SAction Req Op) : bool :=
  let c := r_cluster t in
  match a with
  | SRaft r => safeStepb c r
  | SCrash s => safeStepb c (RAct (ACrash s))
  | SUpdate s => match nodes (world c) !! s with Some p => lastIncludedIndex p <=? commitIndex p | None => true end
  | _ => true
  end.

Lemma rsafeb_spec t a : rsafeb t a = true → rsafe t a.
Proof.
  destruct a as [r|s|s|s|k|s e]; try done; simpl.
  - apply safeStepb_spec.
  - by apply (safeStepb_spec _ (RAct (ACrash s))).
  - intros H p Hp. rewrite Hp in H. lia.
Qed.

Fixpoint rrunSafe (t : RState St Req Op Ans) (l : list (SAction Req Op)) : option (RState St Req Op Ans) :=
  match l with
  | [] => Some t
  | a :: l => if rsafeb t a then t' ← rstep t a; rrunSafe t' l else None
  end.

Lemma rrunSafe_moves t l t' : rrunSafe t l = Some t' → rtc rmove t t'.
Proof.
  revert t. induction l as [|a l IH]; intros t H; simpl in H; [by injection H as <-|].
  destruct (rsafeb t a) eqn:Hb; [|done]. apply bind_Some in H as (t1 & H1 & H).
  eapply rtc_l; [exists a; eauto using rsafeb_spec|by apply IH].
Qed.
End safe.

(** Every command is followed by a snapshot. *)
#[local] Instance service1 : Service KVState Request Op Answer := kvService 1.

Definition raft (l : list (RAction Op)) : list (SAction Request Op) := map SRaft l.

(** Peer 0 wins term 1 with the vote of peer 1. *)
Definition leads0 : list (SAction Request Op) :=
  raft [RAct (ATick 0); RAct (AElectSend 0); RAct (AElectSend 0); RAct (ADeliver 0); RAct (AReply 0)].

(** Server 0 handles a put, replicated to server 1, answers it and takes a snapshot. *)
Definition puts : list (SAction Request Op) :=
  leads0 ++
  [SEvent 0 (EvCall (RPutAppend (mkPutAppendArgs "x" "1" PUT 1 7))); SEvent 0 (EvStart 0); SEvent 0 (EvGetChan 0)] ++
  raft [RSend 0 1; RDeliver 0; RReply 0] ++
  [SUpdate 0; STake 0; SEvent 0 EvLeader; SEvent 0 EvSend; SEvent 0 EvAfter; SEvent 0 (EvAnswer 0)].

(** Server 2 installs the snapshot; then a get, replicated to server 2; server 1 crashes. *)
Definition gets : list (SAction Request Op) :=
  raft [RSend 0 2; RSnapDeliver 0; RSnapReply 0] ++
  [SOffer 0; SEvent 0 (EvCall (RGet (mkGetArgs "x" 2 7))); SEvent 0 (EvStart 1); SEvent 0 (EvGetChan 1)] ++
  raft [RSend 0 2; RDeliver 1; RReply 1] ++
  [SUpdate 0; STake 0; SEvent 0 EvLeader; SEvent 0 EvSend; SEvent 0 EvAfter; SEvent 0 (EvAnswer 1); SCrash 1].

Definition answerAt (t : RState KVState Request Op Answer) (s h : nat) : option (Z * Answer) :=
  sys ← r_servers t !! s; hd ← handlers sys !! h;
  match hd with HReply _ index (Some a) => Some (index, a) | _ => None end.
Definition mapAt (t : RState KVState Request Op Answer) (s : nat) : option (list (string * string)) :=
  sys ← r_servers t !! s; Some (map_to_list (m (st sys))).
Lemma put_get_runs :
  (t0 ← initReplicated 3; t1 ← rrunSafe t0 puts; t2 ← rrunSafe t1 gets;
   Some (answerAt t1 0 0, answerAt t2 0 1, mapAt t2 0, mapAt t2 1, mapAt t2 2)) =
  Some (Some (1, mkAnswer OK ""), Some (2, mkAnswer OK "1"),
        Some [("x", "1")], Some [], Some [("x", "1")])%string.
Proof. by vm_compute. Qed.

Lemma put_get_states :
  ∃ t1 t2, rreachable 3 t1 ∧ rtc rmove t1 t2 ∧ answerAt t1 0 0 = Some (1, mkAnswer OK "") ∧
    answerAt t2 0 1 = Some (2, mkAnswer OK "1") ∧ mapAt t2 2 = Some [("x", "1")]%string.
Proof.
  pose proof put_get_runs as H. apply bind_Some in H as (t0 & H0 & H).
  apply bind_Some in H as (t1 & H1 & H). apply bind_Some in H as (t2 & H2 & H). injection H as E1 E2 _ _ E3.
  exists t1, t2. split_and!; [|by eapply rrunSafe_moves|done..].
  eapply rmoves_reachable; [by apply rreach_init|by eapply rrunSafe_moves].
Qed.

Lemma servers_share_log_witness :
  ∃ t1 t2 L1 L2, answerAt t1 0 0 = Some (1, mkAnswer OK "") ∧ answerAt t2 0 1 = Some (2, mkAnswer OK "1") ∧
    L1 `prefix_of` L2 ∧ explains L1 t1 ∧ explains L2 t2.
Proof.
  destruct put_get_states as (t1 & t2 & Hr & Hs & A1 & A2 & _).
  destruct (servers_share_log 3 t1 t2 Hr Hs) as (L1 & L2 & H).
  exists t1, t2, L1, L2. exact (conj A1 (conj A2 H)).
Defined.
