(* ===== verification/Clerk.v ===== *)
(** Models of the clients: [src/src/kvraft/client.go], [src/src/shardctrler/client.go] and
    [src/src/shardkv/client.go] with [common.go].

    A [Call] depends on the network and on the servers, so it is a function of the state of
    the world outside the clerk ([W]), which it changes; [None] is a call that returned
    false.  The loops of the clerks have no bound: [fuel] bounds the number of attempts the
    model looks at, [Running] says that the clerk is still trying.  A clerk is used by one
    caller at a time. *)
From S2P Require Import Prelude Labgob Persister Raft RequestServer KVServer ShardCtrler.
#[local] Open Scope Z_scope.

(** ** The loop of the key/value clerk: ask the server believed to lead, then the next *)
Section retry.
Context {W R : Type} (n : Z) (call : W → Z → W * option R) (accept : R → bool).

Fixpoint retry (fuel : nat) (w : W) (leader : Z) : Loop (W * Z * R) :=
  match fuel with
  | O => Running
  | S fuel =>
      if (0 <=? leader) && (leader <? n) then
        match call w leader with
        | (w', Some r) =>
            if accept r then Returned (w', leader, r) else retry fuel w' (Z.rem (leader + 1) n)
        | (w', None) => retry fuel w' (Z.rem (leader + 1) n)
        end
      else Panicked
  end.

(** The [k]-th attempt, when the ones before it were not accepted. *)
Definition leaderAt (leader : Z) (k : nat) : Z := Z.rem (leader + Z.of_nat k) n.
Fixpoint worldAt (w : W) (leader : Z) (k : nat) : W :=
  match k with
  | O => w
  | S k => (call (worldAt w leader k) (leaderAt leader k)).1
  end.
Definition attempt (w : W) (leader : Z) (k : nat) : W * option R :=
  call (worldAt w leader k) (leaderAt leader k).
Definition accepted (o : option R) : bool :=
  match o with Some r => accept r | None => false end.

Lemma leaderAt_0 leader : 0 ≤ leader < n → leaderAt leader 0 = leader.
Proof. intros. unfold leaderAt. rewrite Z.add_0_r. by apply Z.rem_small. Qed.

Lemma leaderAt_S leader k :
  0 ≤ leader < n → leaderAt (Z.rem (leader + 1) n) k = leaderAt leader (S k).
Proof.
  intros H. unfold leaderAt.
  assert (0 ≤ Z.rem (leader + 1) n) by (apply Z.rem_nonneg; lia).
  rewrite (Z.rem_mod_nonneg (_ + Z.of_nat k)), (Z.rem_mod_nonneg (leader + 1)) by lia.
  rewrite Z.rem_mod_nonneg by lia.
  rewrite Z.add_mod_idemp_l by lia. f_equal. lia.
Qed.

Lemma worldAt_S w leader k :
  0 ≤ leader < n → worldAt (call w leader).1 (Z.rem (leader + 1) n) k = worldAt w leader (S k).
Proof.
  intros H. induction k as [|k IH]; simpl.
  - by rewrite leaderAt_0.
  - rewrite IH, leaderAt_S by done. done.
Qed.

Lemma attempt_S w leader k :
  0 ≤ leader < n → attempt (call w leader).1 (Z.rem (leader + 1) n) k = attempt w leader (S k).
Proof. intros H. unfold attempt. by rewrite worldAt_S, leaderAt_S. Qed.

(** The loop stops exactly at the first accepted attempt. *)
Lemma retry_first k : ∀ fuel w leader r,
  0 ≤ leader < n → (k < fuel)%nat →
  (∀ j, (j < k)%nat → accepted (attempt w leader j).2 = false) →
  (attempt w leader k).2 = Some r → accept r = true →
  retry fuel w leader = Returned ((attempt w leader k).1, leaderAt leader k, r).
Proof.
  induction k as [|k IH]; intros fuel w leader r Hl Hf Hno Hr Ha;
    (destruct fuel as [|fuel]; [lia|]); cbn [retry];
    rewrite (proj2 (Z.leb_le 0 leader)), (proj2 (Z.ltb_lt leader n)) by lia; simpl.
  - unfold attempt in *; simpl in *. rewrite leaderAt_0 in * by done.
    destruct (call w leader) as [w' o]; simpl in *. subst o. by rewrite Ha.
  - pose proof (Hno 0%nat ltac:(lia)) as H0. unfold attempt in H0; simpl in H0.
    rewrite leaderAt_0 in H0 by done.
    assert (0 ≤ Z.rem (leader + 1) n < n) as Hl' by (apply Z.rem_bound_pos; lia).
    rewrite <-attempt_S in Hr |- * by done. rewrite <-leaderAt_S by done.
    assert (∀ j, (j < k)%nat →
      accepted (attempt (call w leader).1 (Z.rem (leader + 1) n) j).2 = false) as Hno'.
    { intros j Hj. rewrite attempt_S by done. apply Hno. lia. }
    specialize (IH fuel _ _ r Hl' ltac:(lia) Hno' Hr Ha).
    destruct (call w leader) as [w' [r'|]]; simpl in *; [|done]. by rewrite H0.
Qed.

(** Some server that always answers is reached within [n] attempts. *)
Lemma retry_terminates w leader server :
  0 ≤ leader < n → 0 ≤ server < n → (∀ w, accepted (call w server).2 = true) →
  ∃ k r, Z.of_nat k < n ∧ retry (Z.to_nat n) w leader = Returned ((attempt w leader k).1, leaderAt leader k, r) ∧
    (attempt w leader k).2 = Some r ∧ accept r = true ∧
    ∀ j, (j < k)%nat → accepted (attempt w leader j).2 = false.
Proof.
  intros Hl Hs Hall.
  assert (∃ k, Z.of_nat k < n ∧ leaderAt leader k = server) as (k0 & Hk0 & Hat).
  { destruct (decide (leader ≤ server)).
    - exists (Z.to_nat (server - leader)). split; [lia|]. unfold leaderAt.
      rewrite Z2Nat.id by lia. replace (leader + (server - leader)) with server by lia.
      by apply Z.rem_small.
    - exists (Z.to_nat (server - leader + n)). split; [lia|]. unfold leaderAt.
      rewrite Z2Nat.id, Z.rem_mod_nonneg by lia.
      replace (leader + (server - leader + n)) with (server + 1 * n) by lia.
      rewrite Z.mod_add by lia. by apply Z.mod_small. }
  assert (accepted (attempt w leader k0).2 = true) as Hacc.
  { unfold attempt. rewrite Hat. apply Hall. }
  assert (∃ k, (k ≤ k0)%nat ∧ accepted (attempt w leader k).2 = true ∧
            ∀ j, (j < k)%nat → accepted (attempt w leader j).2 = false) as (k & Hk & Ha & Hno).
  { clear Hk0 Hat. induction k0 as [k0 IH] using lt_wf_ind.
    destruct (decide (Exists (λ j, accepted (attempt w leader j).2 = true) (seq 0 k0))) as [He|Hn].
    - apply Exists_exists in He as (j & Hj%elem_of_seq & Haj).
      destruct (IH j ltac:(lia) Haj) as (k & ? & ? & ?). exists k; split_and!; [lia|done..].
    - exists k0. split_and!; [done..|]. intros j Hj.
      destruct (accepted (attempt w leader j).2) eqn:Hx; [|done]. destruct Hn.
      apply Exists_exists. exists j. split; [apply elem_of_seq; lia|done]. }
  unfold accepted in Ha. destruct ((attempt w leader k).2) as [r|] eqn:Hr; [|done].
  exists k, r. split_and!; try done; [lia|]. apply (retry_first k); try done. lia.
Qed.
End retry.

(** ** [kvraft/client.go] *)
Module KVClerk.
Import KV.

Record Clerk := mkClerk { servers : Z; uid : Z; requestId : Z; leaderId : Z }.

(** [nrand] gives the identity. *)
Definition MakeClerk (servers nrand : Z) : Clerk := mkClerk servers nrand 0 0.

Definition nextRequest (ck : Clerk) : Clerk :=
  mkClerk (servers ck) (uid ck) (requestId ck + 1) (leaderId ck).
Definition foundLeader (ck : Clerk) (leader : Z) : Clerk :=
  if leaderId ck =? leader then ck else mkClerk (servers ck) (uid ck) (requestId ck) leader.

Definition getAccepts (r : GetReply) : bool := negb (gr_Err r =? ErrWrongLeader)%string.
Definition putAccepts (r : PutAppendReply) : bool := (par_Err r =? OK)%string.

Section clerk.
Context {W : Type}.
Context (callGet : GetArgs → W → Z → W * option GetReply).
Context (callPutAppend : PutAppendArgs → W → Z → W * option PutAppendReply).

Definition Get (fuel : nat) (ck : Clerk) (key : string) (w : W) : Loop (W * Clerk * string) :=
  let leader := leaderId ck in
  let ck := nextRequest ck in
  let args := mkGetArgs key (requestId ck) (uid ck) in
  match retry (servers ck) (callGet args) getAccepts fuel w leader with
  | Returned (w, leader, reply) =>
      Returned (w, foundLeader ck leader,
                if (gr_Err reply =? ErrNoKey)%string then "" else gr_Value reply)
  | Running => Running
  | Panicked => Panicked
  end.

Definition PutAppend (fuel : nat) (ck : Clerk) (key value op : string) (w : W) : Loop (W * Clerk) :=
  let leader := leaderId ck in
  let ck := nextRequest ck in
  let args := mkPutAppendArgs key value op (requestId ck) (uid ck) in
  match retry (servers ck) (callPutAppend args) putAccepts fuel w leader with
  | Returned (w, leader, _) => Returned (w, foundLeader ck leader)
  | Running => Running
  | Panicked => Panicked
  end.

Definition Put (fuel : nat) (ck : Clerk) (key value : string) (w : W) := PutAppend fuel ck key value "Put" w.
Definition Append (fuel : nat) (ck : Clerk) (key value : string) (w : W) :=
  PutAppend fuel ck key value "Append" w.

Definition clerkWf (ck : Clerk) : Prop := 0 ≤ leaderId ck < servers ck.

Lemma foundLeader_wf ck l : 0 ≤ l < servers ck → clerkWf ck → clerkWf (foundLeader ck l).
Proof. unfold foundLeader, clerkWf. intros. by case_if. Qed.

Lemma leaderAt_range n leader k : 0 ≤ leader < n → 0 ≤ leaderAt n leader k < n.
Proof. intros. apply Z.rem_bound_pos; lia. Qed.

(** C25: if one of the servers answers every Get of this client, with a value or with
    [ErrNoKey], the clerk returns within one round over the servers; what it returns is
    the value of the first reply that was not [ErrWrongLeader] (the empty string for
    [ErrNoKey]), no attempt before having got such a reply; the answering server is remembered
    as the leader, and the next request has the next number. *)
Theorem clerk_get_returns ck key w server :
  clerkWf ck → 0 ≤ server < servers ck →
  (∀ w, accepted getAccepts (callGet (mkGetArgs key (requestId ck + 1) (uid ck)) w server).2 = true) →
  ∃ w' ck' k reply, Get (Z.to_nat (servers ck)) ck key w =
      Returned (w', ck', if (gr_Err reply =? ErrNoKey)%string then "" else gr_Value reply) ∧
    attempt (servers ck) (callGet (mkGetArgs key (requestId ck + 1) (uid ck))) w (leaderId ck) k =
      (w', Some reply) ∧ gr_Err reply ≠ ErrWrongLeader ∧ Z.of_nat k < servers ck ∧
    (∀ j, (j < k)%nat → accepted getAccepts
      (attempt (servers ck) (callGet (mkGetArgs key (requestId ck + 1) (uid ck))) w (leaderId ck) j).2 = false) ∧
    clerkWf ck' ∧ requestId ck' = requestId ck + 1 ∧ uid ck' = uid ck ∧
    leaderId ck' = leaderAt (servers ck) (leaderId ck) k.
Proof.
  intros Hw Hs Hall. unfold Get; simpl.
  destruct (retry_terminates (servers ck) (callGet (mkGetArgs key (requestId ck + 1) (uid ck)))
              getAccepts w (leaderId ck) server Hw Hs Hall) as (k & r & Hk & -> & Hr & Ha & Hno).
  set (args := mkGetArgs _ _ _) in *.
  exists (attempt (servers ck) (callGet args) w (leaderId ck) k).1,
    (foundLeader (nextRequest ck) (leaderAt (servers ck) (leaderId ck) k)), k, r.
  split; [done|]. split; [rewrite <-Hr; by destruct (attempt _ _ _ _ _)|].
  split; [by intros He; unfold getAccepts in Ha; rewrite He in Ha|].
  split; [done|]. split; [exact Hno|].
  split; [apply foundLeader_wf; [by apply leaderAt_range|done]|].
  unfold foundLeader; simpl. case_if; done.
Qed.
End clerk.
End KVClerk.

(** ** [shardctrler/client.go] *)
Module CtrlClerk.
Import SC.

Record Clerk := mkClerk { servers : list nat; uid : Z; requestId : Z; leaderId : Z }.
Definition MakeClerk (servers : list nat) (nrand : Z) : Clerk := mkClerk servers nrand 0 0.
Definition nextRequest (ck : Clerk) : Clerk :=
  mkClerk (servers ck) (uid ck) (requestId ck + 1) (leaderId ck).

Section sweep.
Context {W R : Type} (call : W → nat → W * option R) (accept : R → bool) (sleep : W → W).

(** [for _, srv := range ck.servers]: the first accepted reply *)
Fixpoint sweep (servers : list nat) (w : W) : W * option R :=
  match servers with
  | [] => (w, None)
  | srv :: servers =>
      match call w srv with
      | (w', Some r) => if accept r then (w', Some r) else sweep servers w'
      | (w', None) => sweep servers w'
      end
  end.

Fixpoint rounds (fuel : nat) (servers : list nat) (w : W) : Loop (W * R) :=
  match fuel with
  | O => Running
  | S fuel =>
      match sweep servers w with
      | (w', Some r) => Returned (w', r)
      | (w', None) => rounds fuel servers (sleep w')
      end
  end.

Lemma sweep_accepts servers srv : ∀ w,
  srv ∈ servers → (∀ w, accepted accept (call w srv).2 = true) →
  ∃ w' r, sweep servers w = (w', Some r) ∧ accept r = true.
Proof.
  induction servers as [|s servers IH]; intros w Hin Hall; [by apply not_elem_of_nil in Hin|].
  simpl. destruct (call w s) as [w' o] eqn:Hc. destruct o as [r|].
  - destruct (accept r) eqn:Ha; [by eauto|]. apply elem_of_cons in Hin as [->|Hin]; [|by apply IH].
    specialize (Hall w). rewrite Hc in Hall; simpl in Hall. congruence.
  - apply elem_of_cons in Hin as [->|Hin]; [|by apply IH].
    specialize (Hall w). by rewrite Hc in Hall.
Qed.

Lemma sweep_from servers : ∀ w w' r,
  sweep servers w = (w', Some r) → ∃ w1 srv, srv ∈ servers ∧ (call w1 srv).2 = Some r ∧ accept r = true.
Proof.
  induction servers as [|s servers IH]; intros w w' r H; [done|]. simpl in H.
  destruct (call w s) as [w1 [r1|]] eqn:Hc.
  - destruct (accept r1) eqn:Ha.
    + injection H as <- <-. exists w, s. rewrite Hc. split_and!; [by left|done|done].
    + destruct (IH _ _ _ H) as (w2 & srv & ? & ?). exists w2, srv. split; [by right|done].
  - destruct (IH _ _ _ H) as (w2 & srv & ? & ?). exists w2, srv. split; [by right|done].
Qed.

(** The loop only returns accepted replies, and it has nothing that could panic. *)
Lemma rounds_from fuel servers : ∀ w,
  match rounds fuel servers w with
  | Returned (_, r) => ∃ w1 srv, srv ∈ servers ∧ (call w1 srv).2 = Some r ∧ accept r = true
  | Running => True
  | Panicked => False
  end.
Proof.
  induction fuel as [|fuel IH]; intros w; simpl; [done|].
  destruct (sweep servers w) as [w' [r|]] eqn:Hs; [by eapply sweep_from|apply IH].
Qed.
End sweep.

Section clerk.
Context {W : Type} (sleep : W → W).
Context (callQuery : QueryArgs → W → nat → W * option Answer).
Context (callJoin : JoinArgs → W → nat → W * option Answer).
Context (callLeave : LeaveArgs → W → nat → W * option Answer).
Context (callMove : MoveArgs → W → nat → W * option Answer).

Definition notWrongLeader (a : Answer) : bool := negb (WrongLeader a).

Definition finish {A} (ck : Clerk) (l : Loop (W * Answer)) (f : Answer → A) : Loop (W * Clerk * A) :=
  match l with
  | Returned (w, r) => Returned (w, ck, f r)
  | Running => Running
  | Panicked => Panicked
  end.

Definition Query (fuel : nat) (ck : Clerk) (num : Z) (w : W) : Loop (W * Clerk * Config) :=
  let ck := nextRequest ck in
  let args := mkQueryArgs num (requestId ck) (uid ck) in
  finish ck (rounds (callQuery args) notWrongLeader sleep fuel (servers ck) w) an_Config.

Definition Join (fuel : nat) (ck : Clerk) (groups : gmap Z (list string)) (w : W) : Loop (W * Clerk * unit) :=
  let ck := nextRequest ck in
  let args := mkJoinArgs groups (requestId ck) (uid ck) in
  finish ck (rounds (callJoin args) notWrongLeader sleep fuel (servers ck) w) (λ _, tt).

Definition Leave (fuel : nat) (ck : Clerk) (gids : list Z) (w : W) : Loop (W * Clerk * unit) :=
  let ck := nextRequest ck in
  let args := mkLeaveArgs gids (requestId ck) (uid ck) in
  finish ck (rounds (callLeave args) notWrongLeader sleep fuel (servers ck) w) (λ _, tt).

Definition Move (fuel : nat) (ck : Clerk) (shard gid : Z) (w : W) : Loop (W * Clerk * unit) :=
  let ck := nextRequest ck in
  let args := mkMoveArgs shard gid (requestId ck) (uid ck) in
  finish ck (rounds (callMove args) notWrongLeader sleep fuel (servers ck) w) (λ _, tt).

(** If some server of the controller answers every query of this client as the leader,
    the clerk returns in its first round, with a configuration that a server answered as
    the leader. *)
Theorem ctrl_query_returns ck num w srv :
  srv ∈ servers ck →
  (∀ w, accepted notWrongLeader
          (callQuery (mkQueryArgs num (requestId ck + 1) (uid ck)) w srv).2 = true) →
  ∃ w' a w1 srv1, Query 1 ck num w = Returned (w', nextRequest ck, an_Config a) ∧
    srv1 ∈ servers ck ∧
    (callQuery (mkQueryArgs num (requestId ck + 1) (uid ck)) w1 srv1).2 = Some a ∧
    WrongLeader a = false.
Proof.
  intros Hin Hall. unfold Query; simpl.
  destruct (sweep_accepts (callQuery (mkQueryArgs num (requestId ck + 1) (uid ck))) notWrongLeader
              (servers ck) srv w Hin Hall) as (w' & a & Hs & Ha).
  destruct (sweep_from _ _ _ _ _ _ Hs) as (w1 & srv1 & Hin1 & Hc & _).
  rewrite Hs; simpl. exists w', a, w1, srv1. split_and!; try done.
  unfold notWrongLeader in Ha. by destruct (WrongLeader a).
Qed.
End clerk.
End CtrlClerk.

(** ** [shardkv/client.go] and [shardkv/common.go] *)
Module ShardClerk.

Definition OK : string := "OK".
Definition ErrNoKey : string := "ErrNoKey".
Definition ErrWrongGroup : string := "ErrWrongGroup".
Definition ErrWrongLeader : string := "ErrWrongLeader".

Record PutAppendArgs := mkPutAppendArgs { pa_Key : string; pa_Value : string; pa_Op : string }.
Record PutAppendReply := mkPutAppendReply { par_Err : string }.
Record GetArgs := mkGetArgs { ga_Key : string }.
Record GetReply := mkGetReply { gr_Err : string; gr_Value : string }.

Definition key2shard (key : string) : Z :=
  let shard := match key with
               | EmptyString => 0
               | String c _ => Z.of_nat (Ascii.nat_of_ascii c)
               end in
  Z.rem shard (Z.of_nat SC.NShards).

Record Clerk := mkClerk { sm : CtrlClerk.Clerk; config : SC.Config }.
Definition MakeClerk (ctrlers : list nat) (nrand : Z) : Clerk :=
  mkClerk (CtrlClerk.MakeClerk ctrlers nrand) SC.zero_Config.

(** What a reply makes the inner loop do. *)
Inductive Verdict := Accept | NextGroup | NextServer.

Section clerk.
Context {W R : Type} (sleep : W → W).
Context (callQuery : SC.QueryArgs → W → nat → W * option SC.Answer).
Context (call : W → string → W * option R) (judge : R → Verdict).

(** [for si := 0; si < len(servers); si++] *)
Fixpoint tryServers (servers : list string) (w : W) : W * option R :=
  match servers with
  | [] => (w, None)
  | srv :: servers =>
      match call w srv with
      | (w', Some r) =>
          match judge r with
          | Accept => (w', Some r)
          | NextGroup => (w', None)
          | NextServer => tryServers servers w'
          end
      | (w', None) => tryServers servers w'
      end
  end.

(** The outer loop; the configuration whose group answered is part of the result. *)
Fixpoint serve (fuel : nat) (key : string) (ck : Clerk) (w : W) : Loop (W * Clerk * R) :=
  match fuel with
  | O => Running
  | S fuel' =>
      match (SC.Shards (config ck)).[key2shard key] with
      | None => Panicked
      | Some gid =>
          let '(w, reply) := match SC.Groups (config ck) !! gid with
                             | Some servers => tryServers servers w
                             | None => (w, None)
                             end in
          match reply with
          | Some r => Returned (w, ck, r)
          | None =>
              match CtrlClerk.Query sleep callQuery fuel (sm ck) (-1) (sleep w) with
              | Returned (w, sm', c) => serve fuel' key (mkClerk sm' c) w
              | Running => Running
              | Panicked => Panicked
              end
          end
      end
  end.
End clerk.

Definition judgeGet (r : GetReply) : Verdict :=
  if (gr_Err r =? OK)%string || (gr_Err r =? ErrNoKey)%string then Accept
  else if (gr_Err r =? ErrWrongGroup)%string then NextGroup else NextServer.
Definition judgePut (r : PutAppendReply) : Verdict :=
  if (par_Err r =? OK)%string then Accept
  else if (par_Err r =? ErrWrongGroup)%string then NextGroup else NextServer.

Section operations.
Context {W : Type} (sleep : W → W).
Context (callQuery : SC.QueryArgs → W → nat → W * option SC.Answer).
Context (callGet : GetArgs → W → string → W * option GetReply).
Context (callPutAppend : PutAppendArgs → W → string → W * option PutAppendReply).

Definition Get (fuel : nat) (ck : Clerk) (key : string) (w : W) : Loop (W * Clerk * string) :=
  match serve sleep callQuery (callGet (mkGetArgs key)) judgeGet fuel key ck w with
  | Returned (w, ck, reply) => Returned (w, ck, gr_Value reply)
  | Running => Running
  | Panicked => Panicked
  end.

Definition PutAppend (fuel : nat) (ck : Clerk) (key value op : string) (w : W) : Loop (W * Clerk) :=
  match serve sleep callQuery (callPutAppend (mkPutAppendArgs key value op)) judgePut fuel key ck w with
  | Returned (w, ck, _) => Returned (w, ck)
  | Running => Running
  | Panicked => Panicked
  end.

Definition Put (fuel : nat) (ck : Clerk) (key value : string) (w : W) := PutAppend fuel ck key value "Put" w.
Definition Append (fuel : nat) (ck : Clerk) (key value : string) (w : W) :=
  PutAppend fuel ck key value "Append" w.
End operations.

Lemma key2shard_range key : 0 ≤ key2shard key < Z.of_nat SC.NShards.
Proof.
  unfold key2shard. apply Z.rem_bound_pos; [destruct key; lia|done].
Qed.

Section served.
Context {W : Type} (sleep : W → W).
Context (callQuery : SC.QueryArgs → W → nat → W * option SC.Answer).
Context (callGet : GetArgs → W → string → W * option GetReply).

Lemma tryServers_from {R} (call : W → string → W * option R) judge servers w w' r :
  tryServers call judge servers w = (w', Some r) →
  ∃ srv w1, srv ∈ servers ∧ call w1 srv = (w', Some r) ∧ judge r = Accept.
Proof.
  revert w; induction servers as [|s servers IH]; intros w H; [done|]. simpl in H.
  destruct (call w s) as [w1 [r1|]] eqn:Hc.
  - destruct (judge r1) eqn:Hj; [|done|].
    + injection H as <- <-. exists s, w. split_and!; [by left|done|done].
    + destruct (IH _ H) as (srv & w2 & Hin & ?). exists srv, w2. split; [by right|done].
  - destruct (IH _ H) as (srv & w2 & Hin & ?). exists srv, w2. split; [by right|done].
Qed.

(** A Get of the sharded clerk only returns what a server of the responsible group
    replied with [OK] or [ErrNoKey]: the group that the configuration the clerk ends with
    assigns to the key's shard. *)
Theorem shard_get_served fuel ck key w w' ck' v :
  Get sleep callQuery callGet fuel ck key w = Returned (w', ck', v) →
  ∃ gid servers srv w1 reply,
    (SC.Shards (config ck')).[key2shard key] = Some gid ∧
    SC.Groups (config ck') !! gid = Some servers ∧ srv ∈ servers ∧
    callGet (mkGetArgs key) w1 srv = (w', Some reply) ∧ v = gr_Value reply ∧
    (gr_Err reply = OK ∨ gr_Err reply = ErrNoKey).
Proof.
  unfold Get. destruct (serve _ _ _ _ _ _ _ _) as [[[w2 ck2] reply]| |] eqn:H; try done.
  intros [= <- <- <-].
  revert ck w H; induction fuel as [|fuel IH]; intros ck w H; [done|]. cbn [serve] in H.
  destruct ((SC.Shards (config ck)).[key2shard key]) as [gid|] eqn:Hg; [|done].
  destruct (SC.Groups (config ck) !! gid) as [servers|] eqn:Hs.
  - destruct (tryServers _ _ servers w) as [w1 [r|]] eqn:Ht.
    + injection H as <- <- <-.
      destruct (tryServers_from _ _ _ _ _ _ Ht) as (srv & w3 & Hin & Hc & Hj).
      exists gid, servers, srv, w3, r. split_and!; try done. unfold judgeGet in Hj.
      destruct (String.eqb_spec (gr_Err r) OK); [by left|].
      destruct (String.eqb_spec (gr_Err r) ErrNoKey); [by right|].
      simpl in Hj. by case_if_in Hj.
    + destruct (CtrlClerk.Query _ _ _ _ _ _) as [[[w3 sm'] c]| |]; try done. by eapply IH.
  - destruct (CtrlClerk.Query _ _ _ _ _ _) as [[[w3 sm'] c]| |]; try done. by eapply IH.
Qed.

(** As long as the controller hands out configurations with ten shards, the clerk never
    indexes out of a configuration, whatever the key: it returns or keeps trying. *)
Lemma serve_no_panic {R} (call : W → string → W * option R) judge fuel key ck w :
  length (SC.Shards (config ck)) = SC.NShards →
  (∀ args w srv a, (callQuery args w srv).2 = Some a → length (SC.Shards (SC.an_Config a)) = SC.NShards) →
  serve sleep callQuery call judge fuel key ck w ≠ Panicked.
Proof.
  intros Hl Hq. revert ck w Hl; induction fuel as [|fuel IH]; intros ck w Hl; [done|]. cbn [serve].
  destruct (go_index_lt_Some (SC.Shards (config ck)) (key2shard key)) as [gid ->].
  { unfold len. rewrite Hl. apply key2shard_range. }
  destruct (match SC.Groups (config ck) !! gid with Some s => _ | None => _ end) as [w1 [r|]]; [done|].
  unfold CtrlClerk.Query, CtrlClerk.finish.
  set (args := SC.mkQueryArgs _ _ _).
  pose proof (CtrlClerk.rounds_from (callQuery args) CtrlClerk.notWrongLeader sleep (S fuel)
                (CtrlClerk.servers (CtrlClerk.nextRequest (sm ck))) (sleep w1)) as Hr.
  destruct (CtrlClerk.rounds _ _ _ _ _ _) as [[w2 a]| |]; [|done..].
  apply IH. destruct Hr as (w3 & srv & _ & Hc & _). by eapply Hq.
Qed.

(** One server that accepts is enough, if no server of the group says [ErrWrongGroup]. *)
Lemma tryServers_accepts {R} (call : W → string → W * option R) judge servers srv : ∀ w,
  srv ∈ servers →
  (∀ w, ∃ r, (call w srv).2 = Some r ∧ judge r = Accept) →
  (∀ w s r, s ∈ servers → (call w s).2 = Some r → judge r ≠ NextGroup) →
  ∃ w' r, tryServers call judge servers w = (w', Some r) ∧ judge r = Accept.
Proof.
  induction servers as [|s servers IH]; intros w Hin Hall Hno; [by apply not_elem_of_nil in Hin|].
  assert (srv ∈ servers → ∀ w, ∃ w' r, tryServers call judge servers w = (w', Some r) ∧
    judge r = Accept) as Hrest.
  { intros Hin' w1. apply IH; [done..|]. intros w2 s2 r2 Hs2. apply Hno. by right. }
  simpl. destruct (call w s) as [w1 o] eqn:Hc.
  assert (∀ r, o = Some r → judge r ≠ NextGroup) as Hng.
  { intros r ->. apply (Hno w s r); [by left|by rewrite Hc]. }
  apply elem_of_cons in Hin as [->|Hin].
  - destruct (Hall w) as (r & Hr & Ha). rewrite Hc in Hr; simpl in Hr. subst o.
    rewrite Ha. eauto.
  - destruct o as [r|]; [|by apply Hrest]. destruct (judge r) eqn:Hj; [by eauto| |by apply Hrest].
    by destruct (Hng r).
Qed.

(** C26: the sharded clerk returns.  If one server of the controller always answers as the
    leader, the configurations handed out all give the key's shard to the same group, one
    server of that group always accepts and none of them refuses the shard, then two
    iterations of the outer loop are enough, whatever stale configuration the clerk
    started from. *)
Theorem shard_clerk_returns {R} (call : W → string → W * option R) judge fuel key ck w
    gid servers srv csrv :
  (2 ≤ fuel)%nat →
  length (SC.Shards (config ck)) = SC.NShards →
  csrv ∈ CtrlClerk.servers (sm ck) →
  (∀ args w, accepted CtrlClerk.notWrongLeader (callQuery args w csrv).2 = true) →
  (∀ args w s a, (callQuery args w s).2 = Some a → SC.WrongLeader a = false →
     (SC.Shards (SC.an_Config a)).[key2shard key] = Some gid ∧
     SC.Groups (SC.an_Config a) !! gid = Some servers) →
  srv ∈ servers →
  (∀ w, ∃ r, (call w srv).2 = Some r ∧ judge r = Accept) →
  (∀ w s r, s ∈ servers → (call w s).2 = Some r → judge r ≠ NextGroup) →
  ∃ w' ck' r, serve sleep callQuery call judge fuel key ck w = Returned (w', ck', r).
Proof.
  intros Hf Hl Hcs Hq Hcfg Hs Hacc Hno.
  destruct fuel as [|[|fuel]]; [lia..|]. remember (S fuel) as fuel1 eqn:Hfuel1. cbn [serve].
  destruct (go_index_lt_Some (SC.Shards (config ck)) (key2shard key)) as [g0 ->].
  { unfold len. rewrite Hl. apply key2shard_range. }
  destruct (match SC.Groups (config ck) !! g0 with Some s => _ | None => _ end) as [w1 [r|]];
    [by eauto|].
  unfold CtrlClerk.Query, CtrlClerk.finish. set (args := SC.mkQueryArgs _ _ _). cbn [CtrlClerk.rounds].
  destruct (CtrlClerk.sweep_accepts (callQuery args) CtrlClerk.notWrongLeader
    (CtrlClerk.servers (CtrlClerk.nextRequest (sm ck))) csrv (sleep w1) Hcs (Hq args))
    as (w2 & a & Hsw & Ha).
  destruct (CtrlClerk.sweep_from _ _ _ _ _ _ Hsw) as (w3 & s1 & _ & Hc & _).
  rewrite Hsw. destruct (Hcfg args w3 s1 a Hc) as [Hg Hgs].
  { unfold CtrlClerk.notWrongLeader in Ha. by destruct (SC.WrongLeader a). }
  rewrite Hfuel1. cbn [serve]. cbn [config]. rewrite Hg, Hgs.
  destruct (tryServers_accepts call judge servers srv w2 Hs Hacc Hno) as (w4 & r & Ht & _).
  rewrite Ht. eauto.
Qed.
End served.
End ShardClerk.
