(* ===== verification/ShardKV.v ===== *)
(** Model of [src/src/shardkv/server.go], the server of the sharded key/value service, of which the
    repository has the frame only, and of [src/src/shardkv/config.go], the harness of its tests: three
    shard controllers and three groups of servers on one network, on which ends and servers are named
    by strings.

    Ends are their names; pointers to clerks are numbers; a closure [make_end] is the function below.
    [saved[i]] is the very persister of the server [i] of a group while that server is up. *)
From S2P Require Import Prelude Labgob Labrpc TestNet Persister RaftConfig.
From S2P Require Import Raft RequestServer ShardCtrler Clerk.
#[local] Open Scope Z_scope.

Module ShardKV.

(** An operation without fields. *)
Inductive Op := mkOp.

Record ShardKV := mkShardKV {
  me : Z;
  rf : Raft Op;
  gid : Z;
  ctrlers : list string;
  maxraftstate : Z;
}.

(** The handlers leave the reply as it is. *)
Definition Get (kv : ShardKV) (args : ShardClerk.GetArgs) (reply : ShardClerk.GetReply) : ShardKV * ShardClerk.GetReply :=
  (kv, reply).
Definition PutAppend (kv : ShardKV) (args : ShardClerk.PutAppendArgs) (reply : ShardClerk.PutAppendReply) :
    ShardKV * ShardClerk.PutAppendReply := (kv, reply).

Definition Kill (kv : ShardKV) : ShardKV := mkShardKV (me kv) (Raft.Kill (rf kv)) (gid kv) (ctrlers kv) (maxraftstate kv).

Definition StartServer `{!Gob Z, !Gob (list (Log Op))} (servers : nat) (me : Z) (persister : Persister)
    (maxraftstate gid : Z) (ctrlers : list string) : option ShardKV :=
  rf ← Make servers me persister;
  Some (mkShardKV me rf gid ctrlers maxraftstate).

End ShardKV.

Module ShardConfig.
Import ShardKV.

(** *** Names *)
Definition ctrlername (i : Z) : string := "ctrler" +:+ Sprint i.
Definition servername (gid i : Z) : string := "server-" +:+ Sprint gid +:+ "-" +:+ Sprint i.

(** *** Ends that are enabled from the start *)

(** [name := randstring(20); cfg.net.MakeEnd(name); cfg.net.Connect(name, servername);
    cfg.net.Enable(name, true)] *)
Definition make_end (name servername : string) (net : Net) : option Net :=
  net ← MakeEnd (inl name) net;
  Some (enableEnd name true (Connect (inl name) (Some (inl servername)) net)).

Definition make_ends (names : list string) (server : Z → string) (k : nat) (net : Net) : option Net :=
  go_for k (λ j net, name ← names.[j]; make_end name (server j) net) net.

Definition disableAll (names : list string) (k : nat) (net : Net) : option Net :=
  go_for k (λ j net, name ← names.[j]; Some (enableEnd name false net)) net.

Section config.
Context `{!Gob Z, !Gob (list (Log Op)), !Gob (list (Log SC.Op))}.

Abbreviation Ctrler := (Sys SC.ShardCtrler SC.Request SC.Op SC.Answer).

Record group := mkGroup {
  g_gid : Z;
  servers : list (option ShardKV);
  saved : list (option Persister);
  endnames : Grid;
  mendnames : Grid;
}.

Record config := mkConfig {
  net : Net;
  nctrlers : nat;
  ctrlerservers : list (option Ctrler);
  mck : list string;                       (* the ends of [cfg.mck] *)
  ngroups : nat;
  n : nat;
  groups : list group;
  clerks : gmap nat (list string);
  nextClientId : Z;
  cf_maxraftstate : Z;
}.

Definition set_net v cfg := mkConfig v (nctrlers cfg) (ctrlerservers cfg) (mck cfg) (ngroups cfg) (n cfg) (groups cfg)
  (clerks cfg) (nextClientId cfg) (cf_maxraftstate cfg).
Definition set_ctrlerservers v cfg := mkConfig (net cfg) (nctrlers cfg) v (mck cfg) (ngroups cfg) (n cfg) (groups cfg)
  (clerks cfg) (nextClientId cfg) (cf_maxraftstate cfg).
Definition set_mck v cfg := mkConfig (net cfg) (nctrlers cfg) (ctrlerservers cfg) v (ngroups cfg) (n cfg) (groups cfg)
  (clerks cfg) (nextClientId cfg) (cf_maxraftstate cfg).
Definition set_groups v cfg := mkConfig (net cfg) (nctrlers cfg) (ctrlerservers cfg) (mck cfg) (ngroups cfg) (n cfg) v
  (clerks cfg) (nextClientId cfg) (cf_maxraftstate cfg).
Definition set_clerks v id cfg := mkConfig (net cfg) (nctrlers cfg) (ctrlerservers cfg) (mck cfg) (ngroups cfg) (n cfg)
  (groups cfg) v id (cf_maxraftstate cfg).

(** *** Clerks *)

(** [endnames] has as many places as a group has servers, but is filled for the controllers. *)
Definition makeClient (ck : nat) (names : list string) (cfg : config) : option (config * list string) :=
  '(endnames, nt) ← go_for (nctrlers cfg) (λ j '(endnames, nt),
    name ← names.[j];
    endnames ← endnames.[j <~ name];
    nt ← make_end name (ctrlername j) nt;
    Some (endnames, nt)) (replicate (n cfg) ""%string, net cfg);
  Some (set_clerks (<[ck := endnames]> (clerks cfg)) (nextClientId cfg + 1) (set_net nt cfg), take (nctrlers cfg) names).

(** The files that [os.Remove] is asked to remove do not exist. *)
Definition deleteClient (ck : nat) (cfg : config) : config :=
  set_clerks (delete ck (clerks cfg)) (nextClientId cfg) cfg.

Definition shardclerk (names : list string) (cfg : config) : option (config * list string) :=
  nt ← make_ends names ctrlername (nctrlers cfg) (net cfg);
  Some (set_net nt cfg, names).

(** *** Servers *)

(** What [gg.saved[i]] holds: a server that is up writes through the pointer it was given. *)
Definition savedNow (gg : group) (i : Z) : option (option Persister) :=
  kv ← (servers gg).[i];
  match kv with Some kv => Some (Some (persister (rf kv))) | None => (saved gg).[i] end.

Definition rowOf (ens : Grid) (i : Z) : option (list string) := row ← ens.[i]; Some (default [] row).

Definition ShutdownServer (gi i : Z) (cfg : config) : option config :=
  gg ← (groups cfg).[gi];
  row ← rowOf (endnames gg) i;
  nt ← disableAll row (length (servers gg)) (net cfg);
  mrow ← rowOf (mendnames gg) i;
  nt ← disableAll mrow (length mrow) nt;
  let nt := DeleteServer (inl (servername (g_gid gg) i)) nt in
  s ← savedNow gg i;
  sv ← (saved gg).[i <~ Copy <$> s];
  ks ← (servers gg).[i <~ None];
  gs ← (groups cfg).[gi <~ mkGroup (g_gid gg) ks sv (endnames gg) (mendnames gg)];
  Some (set_groups gs (set_net nt cfg)).

Definition ShutdownGroup (gi : Z) (cfg : config) : option config :=
  go_for (n cfg) (λ i cfg, ShutdownServer gi i cfg) cfg.

(** [names], [mnames]: the strings that [randstring] returns; [srv]: the identity of the new
    [labrpc] server. *)
Definition StartServer (gi i : Z) (names mnames : list string) (srv : nat) (cfg : config) : option config :=
  gg ← (groups cfg).[gi];
  ens ← (endnames gg).[i <~ Some names];
  nt ← make_ends names (servername (g_gid gg)) (n cfg) (net cfg);
  mens ← (mendnames gg).[i <~ Some mnames];
  nt ← make_ends mnames ctrlername (nctrlers cfg) nt;
  s ← savedNow gg i;
  let p := match s with Some p => Copy p | None => MakePersister end in
  sv ← (saved gg).[i <~ Some p];
  kv ← ShardKV.StartServer (n cfg) i p (cf_maxraftstate cfg) (g_gid gg) mnames;
  ks ← (servers gg).[i <~ Some kv];
  gs ← (groups cfg).[gi <~ mkGroup (g_gid gg) ks sv ens mens];
  Some (set_groups gs (set_net (AddServer (inl (servername (g_gid gg) i)) srv nt) cfg)).

Definition StartGroup (gi : Z) (names mnames : list (list string)) (srv : Z → nat) (cfg : config) : option config :=
  go_for (n cfg) (λ i cfg, ns ← names.[i]; ms ← mnames.[i]; StartServer gi i ns ms (srv i) cfg) cfg.

Definition StartCtrlerserver (i : Z) (names : list string) (srv : nat) (cfg : config) : option config :=
  nt ← make_ends names ctrlername (nctrlers cfg) (net cfg);
  sc ← SC.StartServer (nctrlers cfg) i MakePersister;
  cs ← (ctrlerservers cfg).[i <~ Some sc];
  Some (set_ctrlerservers cs (set_net (AddServer (inl (ctrlername i)) srv nt) cfg)).

(** *** Joining and leaving: the argument of [cfg.mck.Join] and [cfg.mck.Leave] *)
Definition servernames (gid : Z) (n : nat) : list string := map (servername gid) (upTo n).

Definition joinm (gis : list Z) (cfg : config) : option (gmap Z (list string)) :=
  foldl (λ (acc : option (gmap Z (list string))) g,
    m ← acc; gg ← (groups cfg).[g];
    Some (<[g_gid gg := servernames (g_gid gg) (n cfg)]> m)) (Some ∅) gis.
Definition join (gi : Z) : config → option (gmap Z (list string)) := joinm [gi].

Definition leavem (gis : list Z) (cfg : config) : option (list Z) :=
  foldl (λ (acc : option (list Z)) g, gids ← acc; gg ← (groups cfg).[g]; Some (gids ++ [g_gid gg])) (Some []) gis.
Definition leave (gi : Z) : config → option (list Z) := leavem [gi].

(** *** The whole harness *)
Definition newGroup (n nctrlers : nat) (gi : Z) : group :=
  mkGroup (100 + gi) (replicate n None) (replicate n None) (replicate n None) (replicate nctrlers None).

(** The strings of the set-up: of the controllers, of [mck], and of the servers of the groups. *)
Record Names := mkNames {
  nm_ctrlers : list (list string);
  nm_mck : list string;
  nm_groups : list (list (list string));
  nm_mgroups : list (list (list string));
}.

Definition make_config (n : nat) (unreliable : bool) (maxraftstate : Z) (nm : Names) (csrv : Z → nat) (srv : Z → Z → nat) :
    option config :=
  let cfg := mkConfig MakeNetwork 3 (replicate 3 None) [] 0 0 [] ∅ 0 maxraftstate in
  cfg ← go_for 3 (λ i cfg, ns ← (nm_ctrlers nm).[i]; StartCtrlerserver i ns (csrv i) cfg) cfg;
  '(cfg, mck) ← shardclerk (nm_mck nm) cfg;
  let cfg := mkConfig (net cfg) (nctrlers cfg) (ctrlerservers cfg) mck 3 n [] ∅ 0 maxraftstate in
  cfg ← go_for 3 (λ gi cfg,
    let cfg := set_groups (groups cfg ++ [newGroup n (nctrlers cfg) gi]) cfg in
    ns ← (nm_groups nm).[gi]; ms ← (nm_mgroups nm).[gi];
    go_for n (λ i cfg, names ← ns.[i]; mnames ← ms.[i]; StartServer gi i names mnames (srv gi i) cfg) cfg) cfg;
  let cfg := set_clerks ∅ (Z.of_nat n + 1000) cfg in
  Some (set_net (Reliable (negb unreliable) (net cfg)) cfg).

Definition checkTimeout : bool → Z → Cfg.Outcome Empty_set unit := Cfg.checkTimeout.

Definition cleanup (failed : bool) (elapsed : Z) (cfg : config) : Cfg.Outcome Empty_set config :=
  cfg ← Cfg.orPanic (go_for (ngroups cfg) ShutdownGroup cfg);
  cs ← Cfg.orPanic (mapM (λ sc, SC.Kill <$> sc) (take (nctrlers cfg) (ctrlerservers cfg)));
  nt ← Cfg.orPanic (Cleanup (net cfg));
  _ ← checkTimeout failed elapsed;
  Cfg.Pass (set_net nt (set_ctrlerservers (map Some cs) cfg)).

(** What [checklogs] stops a test with. *)
Inductive LogFault := StateTooBig (size maxraftstate : Z) | UnwantedSnapshot.

(** [Some None]: no complaint. *)
Definition checkServer (maxraftstate : Z) (p : Persister) : option LogFault :=
  if (0 <=? maxraftstate) && (RaftStateSize p >? 8 * maxraftstate) then Some (StateTooBig (RaftStateSize p) maxraftstate)
  else if (maxraftstate <? 0) && (len (ReadSnapshot p) >? 0) then Some UnwantedSnapshot else None.

(** The first complaint; a server that was never started has no persister. *)
Definition checklogs (cfg : config) : option (option LogFault) :=
  go_for (ngroups cfg) (λ gi fault,
    go_for (n cfg) (λ i (fault : option LogFault),
      match fault with
      | Some f => Some (Some f)
      | None => gg ← (groups cfg).[gi]; s ← savedNow gg i; p ← s; Some (checkServer (cf_maxraftstate cfg) p)
      end) fault) None.
End config.
Arguments config : clear implicits.
End ShardConfig.
