(* ===== verification/ShardKVProps.v ===== *)
(** What the harness of the sharded service promises: server names are unambiguous, a client that
    follows the configuration reaches exactly the servers of the groups that joined, a stopped server
    is cut off and recovers when it is started again; and that it works for groups of three only.  The
    servers themselves never answer a clerk. *)
From S2P Require Import Prelude Labgob Labrpc TestNet Persister RaftConfig.
From S2P Require Import Raft RaftNode RaftProps RaftService RequestServer ShardCtrler Clerk ShardKV.
#[local] Open Scope Z_scope.
Import ShardConfig.

(** ** Names *)
Lemma servername_inj gid i gid' i' :
  0 ≤ gid → 0 ≤ gid' → servername gid i = servername gid' i' → gid = gid' ∧ i = i'.
Proof.
  unfold servername. intros Hg Hg' H. simplify_eq/=.
  match goal with H : _ = _ |- _ => apply no_char_app_inj in H as [H1 H2]; [|by apply no_dash_Sprint..] end.
  unfold Sprint in *. split; by apply (inj pretty).
Qed.

Lemma ctrlername_inj i j : ctrlername i = ctrlername j → i = j.
Proof. unfold ctrlername. intros H. simplify_eq/=. unfold Sprint in *. by apply (inj pretty). Qed.

Lemma ctrlername_servername i gid j : ctrlername i ≠ servername gid j.
Proof. by unfold ctrlername, servername. Qed.

(** ** Ends *)
Lemma make_end_spec (e s : string) nt :
  ¬ hasEnd nt e →
  ∃ nt', make_end e s nt = Some nt' ∧ Labrpc.servers nt' = Labrpc.servers nt ∧
    (∀ x, hasEnd nt' x ↔ x = e ∨ hasEnd nt x) ∧ connectionAt nt' (inl e) = Some (inl s) ∧ isEnabled nt' e = true ∧
    ∀ x, x ≠ e → connectionAt nt' (inl x) = connectionAt nt (inl x) ∧ isEnabled nt' x = isEnabled nt x.
Proof.
  intros Hn. destruct (makeEnd_spec e (inl s) nt Hn) as (nt1 & H1 & Hs & Hc & He & Hco & Hen).
  unfold make_end. rewrite H1. simpl. eexists. split; [reflexivity|]. cbv zeta in *. split_and!.
  - exact Hs.
  - exact He.
  - exact Hc.
  - by rewrite isEnabled_enableEnd, decide_True.
  - intros x Hx. split; [by apply Hco|]. by rewrite isEnabled_enableEnd, Hen, !decide_False.
Qed.

(** An end that the [make_end] of a clerk or of a server makes reaches the server with that name, and
    no other, whenever one is up. *)
Lemma make_end_reaches (e name : string) nt :
  ¬ hasEnd nt e → ∃ nt', make_end e name nt = Some nt' ∧
    ∀ s, reaches nt' e s ↔ s = inl name ∧ is_Some (serverAt nt' s).
Proof.
  intros Hn. destruct (make_end_spec e name nt Hn) as (nt' & Hx & Hs & _ & Hc & Hen & _). exists nt'. split; [done|].
  intros s. unfold reaches, serverAt. rewrite Hc, Hen, Hs. naive_solver.
Qed.

Lemma disableAll_spec names (k : nat) nt :
  (k ≤ length names)%nat →
  ∃ nt', disableAll names k nt = Some nt' ∧ sameWiring nt nt' ∧
    ∀ x, isEnabled nt' x = if decide (x ∈ take k names) then false else isEnabled nt x.
Proof.
  intros Hk. unfold disableAll.
  edestruct (go_for_inv (λ j nt', sameWiring nt nt' ∧
    ∀ x, isEnabled nt' x = if decide (x ∈ take (Z.to_nat j) names) then false else isEnabled nt x)) as (nt' & -> & Hw & He).
  - split; [done|]. intros x. by rewrite decide_False by (simpl; apply not_elem_of_nil).
  - intros j nt1 Hj [Hw He]; cbv beta. destruct (go_index_lt_Some names j) as [e Hn]; [unfold len; lia|]. rewrite Hn. simpl.
    eexists. split; [reflexivity|]. split; [etransitivity; [exact Hw|by constructor]|]. intros x.
    rewrite go_index_nonneg in Hn by lia. replace (Z.to_nat (j + 1)) with (S (Z.to_nat j)) by lia.
    rewrite (take_S_r _ _ _ Hn), isEnabled_enableEnd, He.
    repeat case_decide; try done; rewrite ?elem_of_app, ?list_elem_of_singleton in *; naive_solver.
  - rewrite Nat2Z.id in He. by exists nt'.
Qed.

Lemma make_ends_spec names (server : Z → string) (k : nat) nt :
  newNames k names nt →
  ∃ nt', make_ends names server k nt = Some nt' ∧ Labrpc.servers nt' = Labrpc.servers nt ∧
    (∀ x, hasEnd nt' x ↔ x ∈ names ∨ hasEnd nt x) ∧
    (∀ j x, names.[j] = Some x → connectionAt nt' (inl x) = Some (inl (server j)) ∧ isEnabled nt' x = true) ∧
    (∀ x, x ∉ names → connectionAt nt' (inl x) = connectionAt nt (inl x) ∧ isEnabled nt' x = isEnabled nt x).
Proof.
  intros [Hl Hnd Hnew]. unfold make_ends.
  edestruct (go_for_inv (λ j nt', let d := take (Z.to_nat j) names in
      Labrpc.servers nt' = Labrpc.servers nt ∧
      (∀ x, hasEnd nt' x ↔ x ∈ d ∨ hasEnd nt x) ∧
      (∀ i x, 0 ≤ i < j → names.[i] = Some x → connectionAt nt' (inl x) = Some (inl (server i)) ∧ isEnabled nt' x = true) ∧
      (∀ x, x ∉ d → connectionAt nt' (inl x) = connectionAt nt (inl x) ∧ isEnabled nt' x = isEnabled nt x)))
    as (nt' & -> & H1 & H2 & H3 & H4).
  - split_and!; [done|set_solver|lia|done].
  - intros j nt1 Hj (H1 & H2 & H3 & H4); cbv beta.
    destruct (go_index_lt_Some names j) as [e He]; [unfold len; lia|]. rewrite He. simpl.
    pose proof He as He'. rewrite go_index_nonneg in He' by lia.
    assert (e ∉ take (Z.to_nat j) names) as Hn.
    { intros [k' Hk]%list_elem_of_lookup. apply lookup_take_Some in Hk as [Hk Hlt].
      pose proof (NoDup_lookup _ _ _ _ Hnd Hk He'). lia. }
    destruct (make_end_spec e (server j) nt1) as (nt2 & -> & E1 & E2 & E3 & E4 & E5).
    { rewrite H2. intros [?|?]; [done|]. eapply Hnew; [by eapply list_elem_of_lookup_2|done]. }
    eexists. split; [reflexivity|]. replace (Z.to_nat (j + 1)) with (S (Z.to_nat j)) by lia. rewrite (take_S_r _ _ _ He').
    split_and!.
    + by rewrite E1.
    + intros x. rewrite E2, H2, elem_of_app, list_elem_of_singleton. tauto.
    + intros i x Hi Hx. destruct (decide (i = j)) as [->|]; [rewrite He in Hx; by injection Hx as <-|].
      assert (x ≠ e) as Hxe.
      { intros ->. apply Hn. rewrite go_index_nonneg in Hx by lia.
        apply list_elem_of_lookup. exists (Z.to_nat i). apply lookup_take_Some. split; [done|lia]. }
      destruct (E5 x Hxe) as [-> ->]. apply H3; [lia|done].
    + intros x Hx. rewrite elem_of_app, list_elem_of_singleton in Hx. destruct (E5 x) as [-> ->]; [tauto|]. apply H4. tauto.
  - cbv zeta in *. assert (take (Z.to_nat (Z.of_nat k)) names = names) as Ht by (apply take_ge; lia). rewrite Ht in *.
    exists nt'. split_and!; try done. intros j x Hx. pose proof (go_index_Some_lt _ _ _ Hx). apply H3; [unfold len in *; lia|done].
Qed.

(** ** Groups *)
Ltac store_ok := rewrite go_store_Some by (unfold len in *; rewrite ?length_insert; lia); simpl.

Section groups.
Context `{!Gob Z, !Gob (list (Log ShardKV.Op)), !Gob (list (Log SC.Op))}.
Implicit Types (cfg : config) (gg : group).

(** A configuration that follows from [joinm] leads to the servers of the group: the end that a client
    makes for the [i]-th name of a group reaches that group's server [i] while it is up, and nobody else. *)
Lemma joinm_spec gis cfg m :
  joinm gis cfg = Some m →
  ∀ gi gg, gi ∈ gis → (groups cfg).[gi] = Some gg → (∀ gi' gg', (groups cfg).[gi'] = Some gg' → g_gid gg' = g_gid gg → gi' = gi) →
  m !! g_gid gg = Some (servernames (g_gid gg) (n cfg)).
Proof.
  revert m. unfold joinm. induction gis as [|g gis IH] using rev_ind; intros m Hm gi gg Hin Hgg Huniq; [by apply not_elem_of_nil in Hin|].
  rewrite foldl_app in Hm. simpl in Hm. apply bind_Some in Hm as (m1 & Hm1 & Hm). apply bind_Some in Hm as (gg1 & Hg1 & [= <-]).
  destruct (decide (g_gid gg1 = g_gid gg)) as [Heq|Hne]; [by rewrite Heq, lookup_insert_eq|].
  rewrite lookup_insert_ne by done. apply elem_of_app in Hin as [Hin|Hin]; [by apply (IH _ Hm1 gi)|].
  apply list_elem_of_singleton in Hin as <-. congruence.
Qed.

Lemma servernames_index gid k i : 0 ≤ i < Z.of_nat k → (servernames gid k).[i] = Some (servername gid i).
Proof.
  intros Hi. unfold servernames, upTo. rewrite go_index_nonneg by lia. rewrite list_lookup_fmap, list_lookup_fmap.
  rewrite lookup_seq_lt by lia. simpl. by rewrite Z2Nat.id by lia.
Qed.

Theorem joined_reaches cfg gis gi gg i name e m :
  joinm gis cfg = Some m → gi ∈ gis → (groups cfg).[gi] = Some gg →
  (∀ gi' gg', (groups cfg).[gi'] = Some gg' → g_gid gg' = g_gid gg → gi' = gi) →
  (ns ← m !! g_gid gg; ns.[i]) = Some name → ¬ hasEnd (net cfg) e →
  ∃ nt, make_end e name (net cfg) = Some nt ∧
    ∀ s, reaches nt e s ↔ s = inl (servername (g_gid gg) i) ∧ is_Some (serverAt nt s).
Proof.
  intros Hm Hin Hgg Hu Hn He. rewrite (joinm_spec _ _ _ Hm _ _ Hin Hgg Hu) in Hn. simpl in Hn.
  assert (0 ≤ i < Z.of_nat (n cfg)) as Hi.
  { apply go_index_Some_lt in Hn. unfold len, servernames in Hn. rewrite length_map in Hn. unfold upTo in Hn.
    by rewrite length_map, length_seq in Hn. }
  rewrite servernames_index in Hn by done. injection Hn as <-. by apply make_end_reaches.
Qed.

(** The server [i] of a group that is up. *)
Record upServer cfg (gi i : Z) gg (kv : ShardKV.ShardKV) (row mrow : list string) : Prop := {
  us_group : (groups cfg).[gi] = Some gg;
  us_server : (servers gg).[i] = Some (Some kv);
  us_row : (endnames gg).[i] = Some (Some row);
  us_mrow : (mendnames gg).[i] = Some (Some mrow);
  us_length : length (servers gg) = n cfg;
  us_saved : length (saved gg) = n cfg;
  us_width : length row = n cfg;
  us_durable : durable (ShardKV.rf kv);
  us_peers : peers (ShardKV.rf kv) = n cfg;
  us_me : me (ShardKV.rf kv) = i;
}.

(** [ShutdownServer] cuts a server off: nobody reaches it, and its ends to its group and to the
    controllers reach nobody. *)
Lemma shutdown_cuts_off cfg gi i gg kv row mrow :
  upServer cfg gi i gg kv row mrow →
  ∃ cfg1, ShutdownServer gi i cfg = Some cfg1 ∧
    (∀ e, ¬ reaches (net cfg1) e (inl (servername (g_gid gg) i))) ∧
    (∀ e s, e ∈ row ++ mrow → ¬ reaches (net cfg1) e s) ∧
    n cfg1 = n cfg ∧ nctrlers cfg1 = nctrlers cfg ∧ cf_maxraftstate cfg1 = cf_maxraftstate cfg ∧
    groups cfg1 = <[Z.to_nat gi := mkGroup (g_gid gg) (<[Z.to_nat i := None]> (servers gg))
      (<[Z.to_nat i := Some (persister (ShardKV.rf kv))]> (saved gg)) (endnames gg) (mendnames gg)]> (groups cfg).
Proof.
  intros [Hg Hs Hr Hm Hl Hsl Hw _ _ _]. pose proof (go_index_Some_lt _ _ _ Hg) as Rg. pose proof (go_index_Some_lt _ _ _ Hs) as Ri.
  unfold ShutdownServer. rewrite Hg. simpl. unfold rowOf. rewrite Hr. simpl.
  destruct (disableAll_spec row (length (servers gg)) (net cfg)) as (nt1 & -> & Hw1 & He1); [lia|]. simpl.
  rewrite Hm. simpl. destruct (disableAll_spec mrow (length mrow) nt1) as (nt2 & -> & Hw2 & He2); [lia|]. simpl.
  unfold savedNow. rewrite Hs. simpl. do 3 store_ok.
  eexists. split; [reflexivity|]. split_and!.
  - intros e (_ & _ & [p Hp]). unfold serverAt in Hp. simpl in Hp. by rewrite lookup_insert_eq in Hp.
  - intros e s Hin (Hen & _). change (isEnabled nt2 e = true) in Hen. rewrite He2, He1, take_ge in Hen by lia.
    rewrite take_ge in Hen by lia. apply elem_of_app in Hin. repeat case_decide; naive_solver.
  - done.
  - done.
  - done.
  - simpl. by destruct (persister (ShardKV.rf kv)).
Qed.

(** Started again, it has the term, the vote and the log that it had stored, and its new ends lead to
    the servers of its group and to the controllers. *)
Theorem shard_restart cfg gi i gg kv row mrow :
  upServer cfg gi i gg kv row mrow →
  ∃ cfg1, ShutdownServer gi i cfg = Some cfg1 ∧
    (∀ e, ¬ reaches (net cfg1) e (inl (servername (g_gid gg) i))) ∧
    (∀ e s, e ∈ row ++ mrow → ¬ reaches (net cfg1) e s) ∧
    ∀ names mnames srv, newNames (n cfg) names (net cfg1) → newNames (nctrlers cfg) mnames (net cfg1) →
      (∀ e, e ∈ names → e ∉ mnames) →
      ∃ cfg2 gg2 kv2, StartServer gi i names mnames srv cfg1 = Some cfg2 ∧ (groups cfg2).[gi] = Some gg2 ∧
        (servers gg2).[i] = Some (Some kv2) ∧ recovers (ShardKV.rf kv) (ShardKV.rf kv2) ∧
        (∀ j e s, names.[j] = Some e →
           reaches (net cfg2) e s ↔ s = inl (servername (g_gid gg) j) ∧ is_Some (serverAt (net cfg2) s)) ∧
        (∀ j e s, mnames.[j] = Some e →
           reaches (net cfg2) e s ↔ s = inl (ctrlername j) ∧ is_Some (serverAt (net cfg2) s)).
Proof.
  intros U. destruct (shutdown_cuts_off _ _ _ _ _ _ _ U) as (cfg1 & Hsd & Hun & Hcut & Hn & Hnc & Hmax & Hgs).
  exists cfg1. split_and!; [done..|]. intros names mnames srv Hnew Hmnew Hdis.
  destruct U as [Hg Hs Hr Hm Hl Hsl Hw Hd Hp Hme].
  pose proof (go_index_Some_lt _ _ _ Hg) as Rg. pose proof (go_index_Some_lt _ _ _ Hs) as Ri.
  pose proof (go_index_Some_lt _ _ _ Hr) as Rr. pose proof (go_index_Some_lt _ _ _ Hm) as Rm.
  destruct (make_ends_spec names (servername (g_gid gg)) (n cfg) (net cfg1) Hnew) as (nt1 & Hnt1 & _ & He1 & Hc1 & _).
  assert (newNames (nctrlers cfg) mnames nt1) as Hmnew1.
  { destruct Hmnew as [? ? Hmn]. split; [done..|]. intros e Hin [He|He]%He1; [by apply (Hdis e)|by apply (Hmn e)]. }
  destruct (make_ends_spec mnames ctrlername (nctrlers cfg) nt1 Hmnew1) as (nt2 & Hnt2 & _ & _ & Hc2 & Hk2).
  destruct (Make_recovers (ShardKV.rf kv) Hd) as (r & Hmk & Hrec). rewrite Hp, Hme in Hmk.
  assert (Copy (persister (ShardKV.rf kv)) = persister (ShardKV.rf kv)) as HC by (by destruct (persister (ShardKV.rf kv))).
  unfold StartServer. rewrite Hgs, go_index_insert_eq by done. simpl. store_ok.
  rewrite Hn, Hnt1. simpl. store_ok. rewrite Hnc, Hnt2. simpl.
  unfold savedNow. simpl. do 2 (rewrite go_index_insert_eq by (unfold len in *; lia); simpl). store_ok. rewrite HC.
  unfold ShardKV.StartServer. rewrite Hmk. simpl. do 2 store_ok.
  eexists _, _, _. split; [reflexivity|]. simpl. rewrite list_insert_insert_eq, go_index_insert_eq by done.
  split; [reflexivity|]. simpl. rewrite list_insert_insert_eq, go_index_insert_eq by done. split; [reflexivity|]. split; [exact Hrec|].
  assert (∀ (nt : Net) e t s p q, connectionAt nt (inl e) = Some t → isEnabled nt e = true →
    reaches (AddServer q p nt) e s ↔ s = t ∧ is_Some (serverAt (AddServer q p nt) s)) as Hre.
  { intros nt e t s p q H1 H2. unfold reaches. change (isEnabled (AddServer q p nt) e) with (isEnabled nt e).
    change (connectionAt (AddServer q p nt) (inl e)) with (connectionAt nt (inl e)). rewrite H1, H2. naive_solver. }
  split; intros j e s Hj.
  - destruct (Hc1 _ _ Hj) as [H1 H2]. destruct (Hk2 e) as [H3 H4].
    { apply Hdis. pose proof (go_index_Some_lt _ _ _ Hj). rewrite go_index_nonneg in Hj by lia. by eapply list_elem_of_lookup_2. }
    apply Hre; congruence.
  - destruct (Hc2 _ _ Hj) as [H1 H2]. by apply Hre.
Qed.
End groups.

(** ** Groups of three *)
Section three.
Context `{!Gob Z, !Gob (list (Log ShardKV.Op)), !Gob (list (Log SC.Op))}.
Implicit Types (cfg : config).

Lemma StartServer_shape gi i names mnames srv cfg cfg' :
  StartServer gi i names mnames srv cfg = Some cfg' →
  nctrlers cfg' = nctrlers cfg ∧ n cfg' = n cfg ∧ length (groups cfg') = length (groups cfg) ∧
  ∃ gg, (groups cfg).[gi] = Some gg ∧ i < len (mendnames gg) ∧
    ∃ gg', groups cfg' = <[Z.to_nat gi := gg']> (groups cfg) ∧ length (mendnames gg') = length (mendnames gg).
Proof.
  unfold StartServer. intros H. apply bind_Some in H as (gg & Hg & H). go_inv. rewrite length_insert. split_and!; [done..|].
  exists gg. split_and!; [done|lia|]. eexists. split; [reflexivity|]. simpl. by rewrite length_insert.
Qed.

(** The part of the state that no round of the set-up changes. *)
Definition sized (k : nat) cfg : Prop := nctrlers cfg = 3%nat ∧ n cfg = k.

Lemma StartServers_sized k gi ns ms srv (m : nat) cfg cfg' :
  go_for m (λ i c, names ← ns.[i]; mnames ← ms.[i]; StartServer gi i names mnames (srv i) c) cfg = Some cfg' →
  sized k cfg → sized k cfg'.
Proof.
  intros Hx Hp. revert Hx. apply (go_for_from_preserves (sized k)); [done|]. intros j d d' [Hd1 Hd2] Hx.
  apply bind_Some in Hx as (nm & _ & Hx). apply bind_Some in Hx as (mn & _ & Hx).
  destruct (StartServer_shape _ _ _ _ _ _ _ Hx) as (E1 & E2 & _). unfold sized. by rewrite E1, E2.
Qed.

(** The group has room for the names of three servers. *)
Lemma StartServers_three k ns ms srv cfg cfg' :
  sized k cfg → groups cfg = [newGroup k 3 0] →
  go_for k (λ i c, names ← ns.[i]; mnames ← ms.[i]; StartServer 0 i names mnames (srv i) c) cfg = Some cfg' →
  (k ≤ 3)%nat.
Proof.
  intros Hs Hg Hx. destruct (decide (k ≤ 3)%nat) as [|Hk]; [done|exfalso].
  apply (go_for_from_call (λ c, ∃ gg, groups c = [gg] ∧ length (mendnames gg) = 3%nat)) with (j := 3) in Hx
    as (c1 & c2 & (gg & Hgg & Hl) & Hc); [|by eexists| |lia].
  - apply bind_Some in Hc as (nm & _ & Hc). apply bind_Some in Hc as (mn & _ & Hc).
    destruct (StartServer_shape _ _ _ _ _ _ _ Hc) as (_ & _ & _ & gg0 & Hg0 & Hlt & _).
    rewrite Hgg in Hg0. injection Hg0 as <-. unfold len in Hlt. rewrite Hl in Hlt. lia.
  - intros j c c' (gg & Hgg & Hl) Hc. apply bind_Some in Hc as (nm & _ & Hc). apply bind_Some in Hc as (mn & _ & Hc).
    destruct (StartServer_shape _ _ _ _ _ _ _ Hc) as (_ & _ & _ & gg0 & Hg0 & _ & gg' & -> & Hl').
    rewrite Hgg in Hg0 |- *. injection Hg0 as <-. exists gg'. split; [done|]. by rewrite Hl', Hl.
Qed.

Lemma makeClient_three k ck names cfg r : sized k cfg → makeClient ck names cfg = Some r → (3 ≤ k)%nat.
Proof.
  intros [Hn Hk] H. apply bind_Some in H as (p & Hp & _). rewrite Hn, Hk in Hp.
  apply (go_for_from_call (λ p : list string * Net, length p.1 = k)) with (j := 2) in Hp
    as ([ens nt] & s2 & Hl & Hc); [|simpl; by rewrite length_replicate| |lia].
  - apply bind_Some in Hc as (nm & _ & Hc). apply bind_Some in Hc as (ens' & He & _).
    apply go_store_inv in He as [Hr _]. simpl in Hl. unfold len in Hr. lia.
  - intros j [ens nt] p' Hl Hc. apply bind_Some in Hc as (nm & _ & Hc). apply bind_Some in Hc as (ens' & He & Hc).
    apply go_store_inv in He as [_ ->]. apply bind_Some in Hc as (nt' & _ & [= <-]). simpl. by rewrite length_insert.
Qed.

(** The harness works for groups of three servers only, although the number is an argument of
    [make_config]: the names of a server's ends to the controllers are kept in a slice with a place per
    controller that is indexed by server, and [makeClient] keeps the names of its ends to the controllers
    in a slice with a place per server. *)
Theorem only_groups_of_three k unreliable maxraftstate nm csrv srv ck names cfg r :
  make_config k unreliable maxraftstate nm csrv srv = Some cfg → makeClient ck names cfg = Some r → k = 3%nat.
Proof.
  intros Hc Hm. unfold make_config in Hc. apply bind_Some in Hc as (c1 & H1 & Hc).
  assert (nctrlers c1 = 3%nat) as Hn1.
  { revert H1. apply (go_for_from_preserves (λ c, nctrlers c = 3%nat)); [done|]. intros j c c' Hj Hx.
    apply bind_Some in Hx as (ns & _ & Hx). apply bind_Some in Hx as (nt & _ & Hx). apply bind_Some in Hx as (sc & _ & Hx).
    by apply bind_Some in Hx as (cs & _ & [= <-]). }
  apply bind_Some in Hc as ([c2 mc] & H2 & Hc). apply bind_Some in H2 as (nt & _ & [= <- <-]).
  apply bind_Some in Hc as (c3 & H3 & [= <-]).
  assert (sized k c3) as Hs3.
  { revert H3. apply (go_for_from_preserves (sized k)); [done|]. intros j c c' [Hc1 Hc2] Hx.
    apply bind_Some in Hx as (ns & _ & Hx). apply bind_Some in Hx as (ms & _ & Hx). by eapply StartServers_sized. }
  apply (makeClient_three k) in Hm; [|exact Hs3].
  apply bind_Some in H3 as (c4 & H4 & _). apply bind_Some in H4 as (ns & _ & H4). apply bind_Some in H4 as (ms & _ & H4).
  apply StartServers_three in H4; [lia|done|]. simpl. by rewrite Hn1.
Qed.
End three.

(** ** A clerk of unfinished servers *)

(** The handlers of the servers put nothing into the reply, which no clerk takes for an answer: a Get
    never returns, whatever the network and the controllers do. *)
Theorem shard_get_never_returns {W} (sleep : W → W) callQuery (callGet : ShardClerk.GetArgs → W → string → W * option ShardClerk.GetReply)
    fuel ck key w :
  (∀ args w srv r, (callGet args w srv).2 = Some r →
     ∃ kv, r = (ShardKV.Get kv args (ShardClerk.mkGetReply "" "")).2) →
  ∀ w' ck' v, ShardClerk.Get sleep callQuery callGet fuel ck key w ≠ Returned (w', ck', v).
Proof.
  intros Hcall w' ck' v H. apply ShardClerk.shard_get_served in H as (gid & servers & srv & w1 & reply & _ & _ & _ & Hc & _ & Ha).
  destruct (Hcall (ShardClerk.mkGetArgs key) w1 srv reply) as [kv Hkv]; [by rewrite Hc|]. subst reply.
  by destruct Ha.
Qed.
