(* ===== verification/Bitset.v ===== *)
(** Model of [src/src/porcupine/bitset.go]: sets of small numbers in 64-bit words, and the
    laws of the operations. *)
From S2P Require Import Prelude.
#[local] Open Scope Z_scope.

Module Bitset.

(** [[]uint64]; a word is a [Z] in [0, 2^64). *)
Abbreviation bitset := (list Z).

Definition newBitset (bits : Z) : option bitset :=
  let extra := if negb (Z.rem bits 64 =? 0) then 1 else 0 in
  go_make (Z.quot bits 64 + extra) 0.

Definition clone (b : bitset) : bitset := go_copy (replicate (length b) 0) b.

Definition bitsetIndex (pos : Z) : Z * Z := (Z.quot pos 64, Z.rem pos 64).

(** [1 << minor] on [uint64] *)
Definition bit (minor : Z) : Z := Z.land (Z.shiftl 1 minor) (Z.ones 64).

Definition set (b : bitset) (pos : Z) : option bitset :=
  let '(major, minor) := bitsetIndex pos in
  v ← b.[major]; b.[major <~ Z.lor v (bit minor)].

Definition clear (b : bitset) (pos : Z) : option bitset :=
  let '(major, minor) := bitsetIndex pos in
  v ← b.[major]; b.[major <~ Z.ldiff v (bit minor)].

Definition get (b : bitset) (pos : Z) : option bool :=
  let '(major, minor) := bitsetIndex pos in
  v ← b.[major]; Some (negb (Z.land v (bit minor) =? 0)).

(** [bits.OnesCount64] *)
Definition OnesCount64 (v : Z) : Z := len (List.filter (Z.testbit v) (seqZ 0 64)).

Definition popcnt (b : bitset) : Z := foldl (λ total v, total + OnesCount64 v) 0 b.

Definition hash (b : bitset) : Z := foldl Z.lxor (popcnt b) b.

Fixpoint equals (b b2 : bitset) : bool :=
  match b, b2 with
  | [], [] => true
  | v :: b, v2 :: b2 => (v =? v2) && equals b b2
  | _, _ => false
  end.

(** ** Words stay words *)
Definition word (v : Z) : Prop := 0 ≤ v < 2 ^ 64.
Definition wf (b : bitset) : Prop := Forall word b.

(** The positions a bitset can hold. *)
Definition inRange (b : bitset) (pos : Z) : Prop := 0 ≤ pos < 64 * len b.

Lemma word_testbit v : 0 ≤ v → (word v ↔ ∀ n, 64 ≤ n → Z.testbit v n = false).
Proof.
  intros Hv. split.
  - intros [_ Hlt] n Hn. destruct (Z.eq_dec v 0) as [->|]; [apply Z.bits_0|].
    apply Z.bits_above_log2; [done|]. apply Z.log2_lt_pow2 in Hlt; lia.
  - intros H. split; [done|]. destruct (Z.eq_dec v 0) as [->|]; [done|].
    apply Z.log2_lt_pow2; [lia|]. destruct (Z_lt_le_dec (Z.log2 v) 64) as [?|Hge]; [done|].
    specialize (H _ Hge). rewrite Z.bit_log2 in H by lia. done.
Qed.

Lemma bit_testbit minor n : 0 ≤ minor < 64 → 0 ≤ n → Z.testbit (bit minor) n = (n =? minor).
Proof.
  intros Hm Hn. unfold bit. rewrite Z.land_spec, Z.shiftl_spec, Z.testbit_ones_nonneg by lia.
  destruct (Z.eqb_spec n minor) as [->|Hne].
  - rewrite Z.sub_diag. simpl. apply Z.ltb_lt; lia.
  - destruct (Z_lt_le_dec n minor).
    + rewrite Z.testbit_neg_r by lia. done.
    + replace (n - minor) with (Z.succ (n - minor - 1)) by lia.
      change 1 with (2 * 0 + 1). rewrite Z.testbit_odd_succ by lia. by rewrite Z.bits_0.
Qed.

Lemma bit_word minor : 0 ≤ minor < 64 → word (bit minor).
Proof.
  intros Hm. assert (0 ≤ bit minor) by (apply Z.land_nonneg; right; done).
  apply word_testbit; [done|]. intros n Hn. rewrite bit_testbit by lia. lia.
Qed.

Lemma bitsetIndex_spec pos :
  0 ≤ pos → let '(major, minor) := bitsetIndex pos in
  0 ≤ major ∧ 0 ≤ minor < 64 ∧ pos = 64 * major + minor.
Proof.
  intros Hp. unfold bitsetIndex. rewrite Z.quot_div_nonneg, Z.rem_mod_nonneg by lia.
  pose proof (Z.div_mod pos 64 ltac:(lia)). pose proof (Z.mod_pos_bound pos 64 ltac:(lia)).
  pose proof (Z.div_pos pos 64). lia.
Qed.

Lemma wf_index b i v : wf b → b.[i] = Some v → word v.
Proof.
  intros Hw Hv. pose proof (go_index_Some_lt _ _ _ Hv). rewrite go_index_nonneg in Hv by lia.
  eapply Forall_lookup_1; [exact Hw|exact Hv].
Qed.

(** [get] is the bit of the word. *)
Lemma get_testbit b pos :
  inRange b pos → ∃ v, b.[(bitsetIndex pos).1] = Some v ∧
    get b pos = Some (Z.testbit v (bitsetIndex pos).2).
Proof.
  intros Hr. pose proof (bitsetIndex_spec pos) as Hi. unfold get.
  destruct (bitsetIndex pos) as [major minor]; simpl.
  destruct Hi as (H1 & H2 & ->); [apply Hr|].
  destruct (go_index_lt_Some b major) as [v Hv]; [unfold inRange in Hr; lia|].
  exists v. split; [done|]. rewrite Hv; simpl. f_equal.
  destruct (Z.testbit v minor) eqn:Hb.
  - destruct (Z.eqb_spec (Z.land v (bit minor)) 0) as [H0|]; [|done].
    apply (f_equal (λ x, Z.testbit x minor)) in H0.
    rewrite Z.land_spec, bit_testbit, Hb, Z.eqb_refl, Z.bits_0 in H0 by lia. done.
  - assert (Z.land v (bit minor) = 0) as ->; [|done].
    apply Z.bits_inj_0; intros n. destruct (Z_lt_le_dec n 0); [by rewrite Z.testbit_neg_r|].
    rewrite Z.land_spec, bit_testbit by lia.
    destruct (Z.eqb_spec n minor) as [->|]; [by rewrite Hb|apply andb_false_r].
Qed.

(** The effect of a word update on [get]; [f] and [g] are the update of the word and of one
    bit. *)
Lemma update_spec (f : Z → Z → Z) (c : bool) b pos :
  (∀ v minor n, 0 ≤ minor < 64 → 0 ≤ n → Z.testbit (f v (bit minor)) n =
     if n =? minor then c else Z.testbit v n) →
  (∀ v minor, 0 ≤ minor < 64 → word v → word (f v (bit minor))) →
  wf b → inRange b pos →
  ∃ b', (let '(major, minor) := bitsetIndex pos in
         v ← b.[major]; b.[major <~ f v (bit minor)]) = Some b' ∧
    wf b' ∧ len b' = len b ∧
    ∀ q, inRange b q → get b' q = if q =? pos then Some c else get b q.
Proof.
  intros Hf Hword Hw Hr. pose proof (bitsetIndex_spec pos) as Hi.
  destruct (bitsetIndex pos) as [major minor] eqn:Hidx.
  destruct Hi as (H1 & H2 & Hpos); [apply Hr|].
  assert (0 ≤ major < len b) as Hmaj by (unfold inRange in Hr; lia).
  destruct (go_index_lt_Some b major Hmaj) as [v Hv]. rewrite Hv; simpl.
  rewrite go_store_Some by done. eexists; split; [reflexivity|].
  assert (len (<[Z.to_nat major := f v (bit minor)]> b) = len b) as Hlen by apply len_insert.
  split_and!; [|done|].
  - apply Forall_insert; [done|]. apply Hword; [done|by eapply wf_index].
  - intros q Hq. destruct (get_testbit b q Hq) as (w & Hwq & ->).
    destruct (get_testbit (<[Z.to_nat major := f v (bit minor)]> b) q) as (w' & Hw' & ->).
    { unfold inRange in *. by rewrite Hlen. }
    pose proof (bitsetIndex_spec q) as Hiq. destruct (bitsetIndex q) as [mq nq]; simpl in *.
    destruct Hiq as (Hq1 & Hq2 & ->); [apply Hq|].
    destruct (Z.eqb_spec (64 * mq + nq) pos) as [Heq|Hne].
    + assert (mq = major ∧ nq = minor) as [-> ->] by lia.
      rewrite go_index_insert_eq in Hw' by done. injection Hw' as <-.
      by rewrite Hf, Z.eqb_refl by lia.
    + destruct (decide (mq = major)) as [->|Hm].
      * rewrite go_index_insert_eq in Hw' by done. injection Hw' as <-.
        rewrite Hf by lia. rewrite (proj2 (Z.eqb_neq nq minor)) by lia. congruence.
      * rewrite go_index_insert_ne in Hw' by lia. congruence.
Qed.

Lemma set_spec b pos :
  wf b → inRange b pos →
  ∃ b', set b pos = Some b' ∧ wf b' ∧ len b' = len b ∧
    ∀ q, inRange b q → get b' q = if q =? pos then Some true else get b q.
Proof.
  intros Hw Hr. apply (update_spec Z.lor true); try done.
  - intros v minor n Hm Hn. rewrite Z.lor_spec, bit_testbit by done.
    destruct (n =? minor); [apply orb_true_r|apply orb_false_r].
  - intros v minor Hm Hv. pose proof (bit_word minor Hm) as Hb.
    assert (0 ≤ Z.lor v (bit minor)) as H0 by (apply Z.lor_nonneg; destruct Hv, Hb; done).
    apply word_testbit; [done|]. intros n Hn. rewrite Z.lor_spec.
    by rewrite (proj1 (word_testbit v (proj1 Hv)) Hv), (proj1 (word_testbit _ (proj1 Hb)) Hb).
Qed.

Lemma clear_spec b pos :
  wf b → inRange b pos →
  ∃ b', clear b pos = Some b' ∧ wf b' ∧ len b' = len b ∧
    ∀ q, inRange b q → get b' q = if q =? pos then Some false else get b q.
Proof.
  intros Hw Hr. apply (update_spec Z.ldiff false); try done.
  - intros v minor n Hm Hn. rewrite Z.ldiff_spec, bit_testbit by done.
    destruct (n =? minor); simpl; [apply andb_false_r|apply andb_true_r].
  - intros v minor Hm Hv.
    assert (0 ≤ Z.ldiff v (bit minor)) as H0 by (apply Z.ldiff_nonneg; left; apply Hv).
    apply word_testbit; [done|]. intros n Hn. rewrite Z.ldiff_spec.
    by rewrite (proj1 (word_testbit v (proj1 Hv)) Hv).
Qed.

(** C29: [set] and [clear] on a bitset of 64-bit words: for a position in range they
    succeed, keep the number of words and the width of each, and change exactly the bit of
    that position, also across word boundaries. *)
Theorem set_clear_spec b pos :
  wf b → inRange b pos →
  (∃ b', set b pos = Some b' ∧ wf b' ∧ len b' = len b ∧
     ∀ q, inRange b q → get b' q = if q =? pos then Some true else get b q) ∧
  (∃ b', clear b pos = Some b' ∧ wf b' ∧ len b' = len b ∧
     ∀ q, inRange b q → get b' q = if q =? pos then Some false else get b q).
Proof. intros Hw Hr. split; [by apply set_spec|by apply clear_spec]. Qed.

Lemma newBitset_spec n :
  0 ≤ n → ∃ b, newBitset n = Some b ∧ wf b ∧ (∀ pos, 0 ≤ pos < n → inRange b pos) ∧
    ∀ pos, inRange b pos → get b pos = Some false.
Proof.
  intros Hn. unfold newBitset. set (extra := if negb (Z.rem n 64 =? 0) then 1 else 0).
  rewrite Z.quot_div_nonneg by lia.
  pose proof (Z.div_mod n 64 ltac:(lia)). pose proof (Z.mod_pos_bound n 64 ltac:(lia)).
  pose proof (Z.div_pos n 64 Hn ltac:(lia)).
  assert (0 ≤ extra ∧ (n mod 64 = 0 ∨ extra = 1)) as [He Hex].
  { unfold extra. rewrite Z.rem_mod_nonneg by lia. destruct (Z.eqb_spec (n mod 64) 0); simpl; lia. }
  rewrite go_make_Some by lia.
  exists (replicate (Z.to_nat (n / 64 + extra)) 0). split; [done|]. split_and!.
  - apply Forall_replicate. done.
  - intros pos Hp. unfold inRange. rewrite len_replicate. lia.
  - intros pos Hp. destruct (get_testbit _ _ Hp) as (v & Hv & ->).
    f_equal.
    pose proof (go_index_Some_lt _ _ _ Hv) as Hlt. rewrite go_index_nonneg in Hv by lia.
    apply lookup_replicate in Hv as [-> _]. apply Z.bits_0.
Qed.

Lemma equals_spec b b2 : equals b b2 = true ↔ b = b2.
Proof.
  revert b2; induction b as [|v b IH]; intros [|v2 b2]; simpl; [done..|].
  rewrite andb_true_iff, Z.eqb_eq, IH. naive_solver.
Qed.

Lemma bitset_clone_id b : clone b = b.
Proof. unfold clone. apply go_copy_same_length. by rewrite length_replicate. Qed.

End Bitset.
