(* ===== verification/ClerkWitness.v ===== *)
(** Concrete worlds for the theorems about the clerks and the bit sets: three replicas of
    which the last one leads, a controller with one configuration. *)
From S2P Require Import Prelude Labgob Persister Raft RequestServer KVServer ShardCtrler Clerk Bitset.
#[local] Open Scope Z_scope.

(** The world counts the calls; replica 2 is the leader. *)
Definition replicaGet (args : KV.GetArgs) (w : nat) (server : Z) : nat * option KV.GetReply :=
  (S w, if server =? 2 then Some (KV.mkGetReply "OK" "v")
        else if server =? 1 then None else Some (KV.mkGetReply "ErrWrongLeader" "")).

Lemma clerk_get_returns_witness :
  let ck := KVClerk.MakeClerk 3 42 in
  KVClerk.Get replicaGet 3 ck "k" 0%nat =
    Returned (3%nat, KVClerk.mkClerk 3 42 1 2, "v"%string) ∧
  ∃ w' ck' k reply,
    KVClerk.Get replicaGet (Z.to_nat (KVClerk.servers ck)) ck "k" 0%nat =
      Returned (w', ck', if (KV.gr_Err reply =? KV.ErrNoKey)%string then ""%string else KV.gr_Value reply) ∧
    attempt (KVClerk.servers ck) (replicaGet (KV.mkGetArgs "k" (KVClerk.requestId ck + 1) (KVClerk.uid ck)))
      0%nat (KVClerk.leaderId ck) k = (w', Some reply) ∧ KV.gr_Err reply ≠ KV.ErrWrongLeader ∧
    Z.of_nat k < KVClerk.servers ck ∧
    (∀ j, (j < k)%nat → accepted KVClerk.getAccepts
      (attempt (KVClerk.servers ck) (replicaGet (KV.mkGetArgs "k" (KVClerk.requestId ck + 1) (KVClerk.uid ck)))
        0%nat (KVClerk.leaderId ck) j).2 = false) ∧
    KVClerk.clerkWf ck' ∧ KVClerk.requestId ck' = KVClerk.requestId ck + 1 ∧
    KVClerk.uid ck' = KVClerk.uid ck ∧
    KVClerk.leaderId ck' = leaderAt (KVClerk.servers ck) (KVClerk.leaderId ck) k.
Proof.
  split; [vm_compute; reflexivity|].
  apply (KVClerk.clerk_get_returns replicaGet (KVClerk.MakeClerk 3 42) "k" 0%nat 2).
  - unfold KVClerk.clerkWf; simpl; lia.
  - simpl; lia.
  - reflexivity.
Defined.

Definition oneConfig : SC.Config :=
  SC.mkConfig 1 (replicate SC.NShards 100) {[ 100 := ["a"; "b"]%string ]}.
Definition controller (args : SC.QueryArgs) (w : nat) (srv : nat) : nat * option SC.Answer :=
  (S w, match srv with
        | 1%nat => Some (SC.mkAnswer false "OK" oneConfig)
        | _ => Some (SC.mkAnswer true "" SC.zero_Config)
        end).
Definition groupGet (args : ShardClerk.GetArgs) (w : nat) (srv : string) :
  nat * option ShardClerk.GetReply :=
  (S w, if (srv =? "b")%string then Some (ShardClerk.mkGetReply "OK" "v")
        else Some (ShardClerk.mkGetReply "ErrWrongLeader" "")).

Lemma ctrl_query_returns_witness :
  let ck := CtrlClerk.MakeClerk [0; 1; 2]%nat 42 in
  CtrlClerk.Query id controller 1 ck (-1) 0%nat =
    Returned (2%nat, CtrlClerk.nextRequest ck, oneConfig) ∧
  ∃ w' a w1 srv1,
    CtrlClerk.Query id controller 1 ck (-1) 0%nat =
      Returned (w', CtrlClerk.nextRequest ck, SC.an_Config a) ∧
    srv1 ∈ CtrlClerk.servers ck ∧
    (controller (SC.mkQueryArgs (-1) (CtrlClerk.requestId ck + 1) (CtrlClerk.uid ck)) w1 srv1).2 =
      Some a ∧
    SC.WrongLeader a = false.
Proof.
  split; [vm_compute; reflexivity|].
  apply (CtrlClerk.ctrl_query_returns id controller (CtrlClerk.MakeClerk [0; 1; 2]%nat 42) (-1) 0%nat
    1%nat); [right; left|reflexivity].
Defined.

(** The clerk starts with the empty configuration and learns the real one. *)
Definition shardClerk : ShardClerk.Clerk := ShardClerk.MakeClerk [0; 1; 2]%nat 42.

Lemma shard_get_runs :
  ShardClerk.Get id controller groupGet 2 shardClerk "k" 0%nat =
    Returned (4%nat, ShardClerk.mkClerk (CtrlClerk.nextRequest (ShardClerk.sm shardClerk)) oneConfig,
      "v"%string).
Proof. vm_compute. reflexivity. Qed.

Lemma shard_get_served_witness :
  ∃ gid servers srv w1 reply,
    (SC.Shards oneConfig).[ShardClerk.key2shard "k"] = Some gid ∧
    SC.Groups oneConfig !! gid = Some servers ∧ srv ∈ servers ∧
    groupGet (ShardClerk.mkGetArgs "k") w1 srv = (4%nat, Some reply) ∧
    "v"%string = ShardClerk.gr_Value reply ∧
    (ShardClerk.gr_Err reply = ShardClerk.OK ∨ ShardClerk.gr_Err reply = ShardClerk.ErrNoKey).
Proof.
  apply (ShardClerk.shard_get_served id controller groupGet 2 shardClerk "k" 0%nat 4%nat
    (ShardClerk.mkClerk (CtrlClerk.nextRequest (ShardClerk.sm shardClerk)) oneConfig) "v"%string).
  exact shard_get_runs.
Defined.

Lemma controller_answers args w s a :
  (controller args w s).2 = Some a → SC.WrongLeader a = false → SC.an_Config a = oneConfig.
Proof. unfold controller; simpl. destruct s as [|[|]]; by intros [= <-]. Qed.

Lemma shard_clerk_returns_witness :
  ∃ w' ck' r, ShardClerk.serve id controller (groupGet (ShardClerk.mkGetArgs "k"))
    ShardClerk.judgeGet 2 "k" shardClerk 0%nat = Returned (w', ck', r).
Proof.
  apply (ShardClerk.shard_clerk_returns id controller (groupGet (ShardClerk.mkGetArgs "k"))
    ShardClerk.judgeGet 2 "k" shardClerk 0%nat 100 ["a"; "b"]%string "b" 1%nat).
  - lia.
  - reflexivity.
  - right; left.
  - reflexivity.
  - intros args w s a Ha Hl. rewrite (controller_answers args w s a Ha Hl). split; reflexivity.
  - right; left.
  - intros w. exists (ShardClerk.mkGetReply "OK" "v"). split; reflexivity.
  - intros w s r _ Hr. unfold groupGet in Hr; simpl in Hr.
    destruct (s =? "b")%string; injection Hr as <-; discriminate.
Defined.

Lemma set_clear_spec_witness :
  Bitset.set [0; 0] 64 = Some [0; 1] ∧
  (∃ b', Bitset.set [0; 0] 64 = Some b' ∧ Bitset.wf b' ∧ len b' = len [0; 0] ∧
     ∀ q, Bitset.inRange [0; 0] q →
       Bitset.get b' q = if q =? 64 then Some true else Bitset.get [0; 0] q) ∧
  (∃ b', Bitset.clear [0; 0] 64 = Some b' ∧ Bitset.wf b' ∧ len b' = len [0; 0] ∧
     ∀ q, Bitset.inRange [0; 0] q →
       Bitset.get b' q = if q =? 64 then Some false else Bitset.get [0; 0] q).
Proof.
  split; [vm_compute; reflexivity|]. apply Bitset.set_clear_spec.
  - unfold Bitset.wf. repeat constructor; unfold Bitset.word; lia.
  - unfold Bitset.inRange, len; simpl; lia.
Defined.
