(* ===== verification/Checker.v ===== *)
(** Model of [src/src/porcupine/checker.go], [model.go] and [porcupine.go]: the
    linearizability checker the tests use.

    The entries of a history are a doubly linked list of nodes that [lift] and [unlift]
    take out and put back; the model keeps the nodes in a heap, an address for every
    [*node], and writes the pointers as the code does ([None] is a nil dereference or an
    index out of range).  [sort.Sort] is an argument.  [interface{}] values have type [V],
    states type [St]. *)
From S2P Require Import Prelude Bitset.
#[local] Open Scope Z_scope.

(** ** model.go *)
Section model.
Context {V St : Type}.

Record Operation := mkOperation { ClientId : Z; Input : V; Call : Z; Output : V; Return : Z }.

(** [EventKind]: false is [CallEvent] *)
Record Event := mkEvent { ev_ClientId : Z; Kind : bool; Value : V; Id : Z }.

(** A nil function is [None].  The two description functions only serve the visualization. *)
Record Model := mkModel {
  Partition : option (list Operation → list (list Operation));
  PartitionEvent : option (list Event → list (list Event));
  Init : St;
  Step : St → V → V → bool * St;
  Equal : option (St → St → bool);
}.

Definition NoPartition (history : list Operation) : list (list Operation) := [history].
Definition NoPartitionEvent (history : list Event) : list (list Event) := [history].
Definition ShallowEqual `{EqDecision St} (state1 state2 : St) : bool := bool_decide (state1 = state2).

Definition fillDefault `{EqDecision St} (model : Model) : Model :=
  mkModel (Some (default NoPartition (Partition model)))
    (Some (default NoPartitionEvent (PartitionEvent model)))
    (Init model) (Step model) (Some (default ShallowEqual (Equal model))).
End model.
Arguments Operation : clear implicits.
Arguments Event : clear implicits.
Arguments Model : clear implicits.

Inductive CheckResult := Unknown | Ok | Illegal.

(** ** Entries *)
Section entries.
Context {V : Type}.

(** [entryKind]: false is [callEntry] *)
Record entry := mkEntry { kind : bool; value : V; id : Z; time : Z; clientId : Z }.

(** [byTime.Less] on two elements *)
Definition Less (a b : entry) : bool :=
  if negb (time a =? time b) then time a <? time b
  else negb (kind a) && kind b.

Definition rawEntries (history : list (Operation V)) : list entry :=
  (foldl (λ s elem, let '(entries, id) := s in
     (entries ++ [mkEntry false (Input elem) id (Call elem) (ClientId elem);
                  mkEntry true (Output elem) id (Return elem) (ClientId elem)], id + 1))
    ([], 0) history).1.

Definition makeEntries (sort : list entry → list entry) (history : list (Operation V)) : list entry :=
  sort (rawEntries history).

Definition renumber (events : list (Event V)) : list (Event V) :=
  (foldl (λ s v, let '(e, m, id) := s in
     match m !! Id v with
     | Some r => (e ++ [mkEvent (ev_ClientId v) (Kind v) (Value v) r], m, id)
     | None => (e ++ [mkEvent (ev_ClientId v) (Kind v) (Value v) id], <[Id v := id]> m, id + 1)
     end) ([], (∅ : gmap Z Z), 0) events).1.1.

Definition convertEntries (events : list (Event V)) : list entry :=
  imap (λ i elem, mkEntry (Kind elem) (Value elem) (Id elem) (Z.of_nat i) (ev_ClientId elem)) events.

(** ** The linked list *)
Record node := mkNode {
  n_value : option V;                (* nil in the head *)
  n_match : option nat;              (* the return of a call *)
  n_id : Z;
  n_next : option nat;
  n_prev : option nat;
}.

Abbreviation memory := (gmap nat node).

Definition set_next (h : memory) (p : nat) (v : option nat) : option memory :=
  n ← h !! p; Some (<[p := mkNode (n_value n) (n_match n) (n_id n) v (n_prev n)]> h).
Definition set_prev (h : memory) (p : nat) (v : option nat) : option memory :=
  n ← h !! p; Some (<[p := mkNode (n_value n) (n_match n) (n_id n) (n_next n) v]> h).

Definition insertBefore (h : memory) (n : nat) (mark : option nat) : option memory :=
  match mark with
  | None => Some h
  | Some mark =>
      mk ← h !! mark;
      let beforeMark := n_prev mk in
      h ← set_prev h mark (Some n);
      h ← set_next h n (Some mark);
      match beforeMark with
      | Some b => h ← set_prev h n (Some b); set_next h b (Some n)
      | None => Some h
      end
  end.

(** [length], following at most [fuel] pointers *)
Fixpoint lengthFrom (h : memory) (fuel : nat) (n : option nat) (l : Z) : option Z :=
  match n, fuel with
  | None, _ => Some l
  | Some a, S fuel => nd ← h !! a; lengthFrom h fuel (n_next nd) (l + 1)
  | Some _, O => None
  end.

(** The state of the loop of [makeLinkedEntries]: memory, root, match, and the number of
    nodes allocated so far, the next address *)
Definition linkEntry (elem : entry) (s : memory * option nat * gmap Z nat * nat) :
    option (memory * option nat * gmap Z nat * nat) :=
  let '(h, root, mt, a) := s in
  let nd := mkNode (Some (value elem)) (if kind elem then None else mt !! id elem) (id elem) None None in
  h ← insertBefore (<[a := nd]> h) a root;
  Some (h, Some a, if kind elem then <[id elem := a]> mt else mt, S a).

Fixpoint makeLinkedEntries (entries : list entry) : option (memory * option nat * gmap Z nat * nat) :=
  match entries with
  | [] => Some (∅, None, ∅, 0%nat)
  | elem :: entries => s ← makeLinkedEntries entries; linkEntry elem s
  end.

Definition lift (h : memory) (e : nat) : option memory :=
  en ← h !! e;
  prev ← n_prev en; h ← set_next h prev (n_next en);
  en ← h !! e;
  next ← n_next en; h ← set_prev h next (n_prev en);
  en ← h !! e; mt ← n_match en;
  mn ← h !! mt;
  mprev ← n_prev mn; h ← set_next h mprev (n_next mn);
  mn ← h !! mt;
  match n_next mn with
  | Some mnext => set_prev h mnext (n_prev mn)
  | None => Some h
  end.

Definition unlift (h : memory) (e : nat) : option memory :=
  en ← h !! e; mt ← n_match en;
  mn ← h !! mt;
  mprev ← n_prev mn; h ← set_next h mprev (Some mt);
  mn ← h !! mt;
  h ← match n_next mn with
      | Some mnext => set_prev h mnext (Some mt)
      | None => Some h
      end;
  en ← h !! e;
  prev ← n_prev en; h ← set_next h prev (Some e);
  en ← h !! e;
  next ← n_next en; set_prev h next (Some e).
End entries.
Arguments entry : clear implicits.
Arguments node : clear implicits.

(** ** [checkSingle] *)
Section check.
Context {V St : Type} `{!EqDecision St} (model : Model V St).

Abbreviation memory := (gmap nat (node V)).

Record cacheEntry := mkCacheEntry { ce_linearized : list Z; ce_state : St }.

Definition modelEqual (s1 s2 : St) : bool := default ShallowEqual (Equal model) s1 s2.

Definition cacheContains (cache : gmap Z (list cacheEntry)) (e : cacheEntry) : bool :=
  existsb (λ elem, Bitset.equals (ce_linearized e) (ce_linearized elem)
                   && modelEqual (ce_state e) (ce_state elem))
    (default [] (cache !! Bitset.hash (ce_linearized e))).

(** [longest]: a [*[]int] is an identity with the ids it points to. *)
Abbreviation partial := (option (nat * list Z)).

Record CState := mkCState {
  c_mem : memory;
  c_entry : option nat;
  c_linearized : list Z;
  c_cache : gmap Z (list cacheEntry);
  c_calls : list (nat * St);
  c_state : St;
  c_longest : list partial;
}.

Definition callIds (h : memory) (calls : list (nat * St)) : option (list Z) :=
  mapM (λ c : nat * St, nd ← h !! c.1; Some (n_id nd)) calls.

(** The block under [if computePartial]; [k] is a fresh identity. *)
Fixpoint updateLongest (k : nat) (callsLen : Z) (seq : list Z) (ids : list Z) (longest : list partial) :
    option (list partial) :=
  match ids with
  | [] => Some longest
  | i :: ids =>
      old ← longest.[i];
      longest ← match old with
                | None => longest.[i <~ Some (k, seq)]
                | Some (_, o) => if callsLen >? len o then longest.[i <~ Some (k, seq)] else Some longest
                end;
      updateLongest k callsLen seq ids longest
  end.

(** One iteration of the loop: go on, or return.  [killed] is what the iteration reads from
    [kill]. *)
Definition checkStep (head : nat) (computePartial killed : bool) (k : nat) (s : CState) :
    option (CState + (bool * list partial)) :=
  let h := c_mem s in
  hd ← h !! head;
  if bool_decide (n_next hd = None) then
    seq ← callIds h (c_calls s);
    Some (inr (true, replicate (length (c_longest s)) (Some (k, seq))))
  else if killed then Some (inr (false, c_longest s))
  else
  e ← c_entry s; en ← h !! e;
  match n_match en with
  | Some matching =>
      mn ← h !! matching;
      inp ← n_value en; out ← n_value mn;
      let '(ok, newState) := Step model (c_state s) inp out in
      let skip := Some (inl (mkCState h (n_next en) (c_linearized s) (c_cache s) (c_calls s)
                               (c_state s) (c_longest s))) in
      if ok : bool then
        newLinearized ← Bitset.set (Bitset.clone (c_linearized s)) (n_id en);
        let newCacheEntry := mkCacheEntry newLinearized newState in
        if negb (cacheContains (c_cache s) newCacheEntry) then
          let hash := Bitset.hash newLinearized in
          let cache := <[hash := default [] (c_cache s !! hash) ++ [newCacheEntry]]> (c_cache s) in
          linearized ← Bitset.set (c_linearized s) (n_id en);
          h ← lift h e;
          hd ← h !! head;
          Some (inl (mkCState h (n_next hd) linearized cache (c_calls s ++ [(e, c_state s)])
                       newState (c_longest s)))
        else skip
      else skip
  | None =>
      match last (c_calls s) with
      | None => Some (inr (false, c_longest s))
      | Some (top, topState) =>
          longest ← (if computePartial then
                       ids ← callIds h (c_calls s);
                       updateLongest k (len (c_calls s)) ids ids (c_longest s)
                     else Some (c_longest s));
          tn ← h !! top;
          linearized ← Bitset.clear (c_linearized s) (n_id tn);
          h ← unlift h top;
          tn ← h !! top;
          Some (inl (mkCState h (n_next tn) linearized (c_cache s) (removelast (c_calls s))
                       topState longest))
      end
  end.

Fixpoint checkLoop (head : nat) (computePartial : bool) (kill : nat → bool) (fuel k : nat)
    (s : CState) : Loop (bool * list partial) :=
  match fuel with
  | O => Running
  | S fuel =>
      match checkStep head computePartial (kill k) k s with
      | None => Panicked
      | Some (inr r) => Returned r
      | Some (inl s) => checkLoop head computePartial kill fuel (S k) s
      end
  end.

(** The state before the loop, with the address of the head *)
Definition startCheck (history : list (entry V)) : option (nat * CState) :=
  '(h, root, _, a) ← makeLinkedEntries history;
  l ← lengthFrom h a root 0;
  let n := Z.quot l 2 in
  linearized ← Bitset.newBitset n;
  h ← insertBefore (<[a := mkNode None None (-1) None None]> h) a root;
  longest ← go_make n None;
  Some (a, mkCState h root linearized ∅ [] (Init model) longest).

Definition checkSingle (history : list (entry V)) (computePartial : bool) (kill : nat → bool)
    (fuel : nat) : Loop (bool * list partial) :=
  match startCheck history with
  | None => Panicked
  | Some (head, s) => checkLoop head computePartial kill fuel 0 s
  end.

(** ** [checkParallel]

    [results] are what the goroutines compute; [arrivals] is the order in which the [select]
    sees them, [None] being the timeout.  The loop blocks when nothing arrives. *)
Fixpoint collect (results : list (Loop bool)) (computeInfo : bool) (arrivals : list (option nat))
    (ok : bool) (count : nat) : Loop (bool * bool) :=
  match arrivals with
  | [] => Running
  | None :: _ => Returned (ok, true)
  | Some i :: arrivals =>
      match results !! i with
      | Some (Returned result) =>
          let count := S count in
          let ok := ok && result in
          if negb ok && negb computeInfo then Returned (ok, false)
          else if (length results <=? count)%nat then Returned (ok, false)
          else collect results computeInfo arrivals ok count
      | Some Running => Running
      | _ => Panicked
      end
  end.

Definition resultOf (ok timedOut : bool) : CheckResult :=
  if negb ok then Illegal else if timedOut then Unknown else Ok.

Definition checkParallel (history : list (list (entry V))) (computeInfo : bool)
    (kills : nat → nat → bool) (fuel : nat) (arrivals : list (option nat)) : Loop CheckResult :=
  let results := imap (λ i sub, match checkSingle sub computeInfo (kills i) fuel with
                                | Returned (ok, _) => Returned ok
                                | Running => Running
                                | Panicked => Panicked
                                end) history in
  match collect results computeInfo arrivals true 0 with
  | Returned (ok, timedOut) => Returned (resultOf ok timedOut)
  | Running => Running
  | Panicked => Panicked
  end.

Definition checkOperations (sort : list (entry V) → list (entry V)) (history : list (Operation V))
    (verbose : bool) (kills : nat → nat → bool) (fuel : nat) (arrivals : list (option nat)) :
    Loop CheckResult :=
  let partitions := default NoPartition (Partition (fillDefault model)) history in
  checkParallel (map (makeEntries sort) partitions) verbose kills fuel arrivals.

Definition checkEvents (history : list (Event V)) (verbose : bool)
    (kills : nat → nat → bool) (fuel : nat) (arrivals : list (option nat)) : Loop CheckResult :=
  let partitions := default NoPartitionEvent (PartitionEvent (fillDefault model)) history in
  checkParallel (map (λ p, convertEntries (renumber p)) partitions) verbose kills fuel arrivals.

(** porcupine.go *)
Definition CheckOperations (sort : list (entry V) → list (entry V)) (history : list (Operation V))
    (kills : nat → nat → bool) (fuel : nat) (arrivals : list (option nat)) : Loop bool :=
  match checkOperations sort history false kills fuel arrivals with
  | Returned res => Returned (match res with Ok => true | _ => false end)
  | Running => Running
  | Panicked => Panicked
  end.
End check.
