(* ===== verification/CheckerList.v ===== *)
(** The doubly linked list of the checker: [lift] takes a call and its return out of the
    list, and [unlift] gives back exactly the memory there was before. *)
From S2P Require Import Prelude Bitset Checker.
#[local] Open Scope Z_scope.

Section dll.
Context {V : Type}.
Abbreviation memory := (gmap nat (node V)).
Implicit Types (h : memory).

Definition nextOf h (a : nat) : option (option nat) := n_next <$> h !! a.
Definition prevOf h (a : nat) : option (option nat) := n_prev <$> h !! a.

(** The nodes after [a] are [l]. *)
Fixpoint seg h (a : nat) (l : list nat) : Prop :=
  match l with
  | [] => nextOf h a = Some None
  | b :: l => nextOf h a = Some (Some b) ∧ prevOf h b = Some (Some a) ∧ seg h b l
  end.

Lemma seg_frame h h' a l :
  (∀ x, x ∈ a :: l → nextOf h' x = nextOf h x) → (∀ x, x ∈ l → prevOf h' x = prevOf h x) →
  seg h a l → seg h' a l.
Proof.
  revert a; induction l as [|b l IH]; intros a Hn Hp; simpl.
  - rewrite Hn by (by left). done.
  - rewrite Hn, Hp by (by left). intros (? & ? & ?). split_and!; [done..|].
    apply IH; [intros; apply Hn; by right|intros; apply Hp; by right|done].
Qed.

(** *** Pointer assignments *)
Lemma set_next_Some h p v n :
  h !! p = Some n → set_next h p v =
    Some (<[p := mkNode (n_value n) (n_match n) (n_id n) v (n_prev n)]> h).
Proof. intros H. unfold set_next. by rewrite H. Qed.
Lemma set_prev_Some h p v n :
  h !! p = Some n → set_prev h p v =
    Some (<[p := mkNode (n_value n) (n_match n) (n_id n) (n_next n) v]> h).
Proof. intros H. unfold set_prev. by rewrite H. Qed.

Record onlyNext h h' (p : nat) (v : option nat) : Prop := {
  on_next : nextOf h' p = Some v;
  on_other : ∀ x, x ≠ p → h' !! x = h !! x;
  on_prev : ∀ x, prevOf h' x = prevOf h x;
  on_match : ∀ x, n_match <$> h' !! x = n_match <$> h !! x;
  on_id : ∀ x, n_id <$> h' !! x = n_id <$> h !! x;
  on_value : ∀ x, n_value <$> h' !! x = n_value <$> h !! x;
}.
Record onlyPrev h h' (p : nat) (v : option nat) : Prop := {
  op_prev : prevOf h' p = Some v;
  op_other : ∀ x, x ≠ p → h' !! x = h !! x;
  op_next : ∀ x, nextOf h' x = nextOf h x;
  op_match : ∀ x, n_match <$> h' !! x = n_match <$> h !! x;
  op_id : ∀ x, n_id <$> h' !! x = n_id <$> h !! x;
  op_value : ∀ x, n_value <$> h' !! x = n_value <$> h !! x;
}.

Lemma set_next_spec h p v :
  is_Some (h !! p) → ∃ h', set_next h p v = Some h' ∧ onlyNext h h' p v.
Proof.
  intros [n Hn]. rewrite (set_next_Some _ _ _ _ Hn). eexists; split; [reflexivity|].
  split; unfold nextOf, prevOf.
  1: by rewrite lookup_insert_eq.
  1: intros x Hx; by rewrite lookup_insert_ne.
  all: intros x; destruct (decide (p = x)) as [<-|];
    [by rewrite lookup_insert_eq, Hn|by rewrite lookup_insert_ne].
Qed.

Lemma set_prev_spec h p v :
  is_Some (h !! p) → ∃ h', set_prev h p v = Some h' ∧ onlyPrev h h' p v.
Proof.
  intros [n Hn]. rewrite (set_prev_Some _ _ _ _ Hn). eexists; split; [reflexivity|].
  split; unfold nextOf, prevOf.
  1: by rewrite lookup_insert_eq.
  1: intros x Hx; by rewrite lookup_insert_ne.
  all: intros x; destruct (decide (p = x)) as [<-|];
    [by rewrite lookup_insert_eq, Hn|by rewrite lookup_insert_ne].
Qed.

Lemma set_next_other h p v h' : ∀ x, set_next h p v = Some h' → x ≠ p → h' !! x = h !! x.
Proof.
  unfold set_next. intros x (n & _ & [= <-])%bind_Some Hx. by rewrite lookup_insert_ne.
Qed.

(** Writing back the old pointer restores the memory. *)
Lemma set_next_undo h h' p v old :
  set_next h p v = Some h' → nextOf h p = Some old → set_next h' p old = Some h.
Proof.
  unfold nextOf. intros H Ho. destruct (h !! p) as [n|] eqn:Hn; [|done].
  rewrite (set_next_Some _ _ _ _ Hn) in H. injection H as <-. injection Ho as <-.
  erewrite set_next_Some by apply lookup_insert_eq. simpl. f_equal.
  rewrite insert_insert_eq. apply insert_id. rewrite Hn. by destruct n.
Qed.
Lemma set_prev_undo h h' p v old :
  set_prev h p v = Some h' → prevOf h p = Some old → set_prev h' p old = Some h.
Proof.
  unfold prevOf. intros H Ho. destruct (h !! p) as [n|] eqn:Hn; [|done].
  rewrite (set_prev_Some _ _ _ _ Hn) in H. injection H as <-. injection Ho as <-.
  erewrite set_prev_Some by apply lookup_insert_eq. simpl. f_equal.
  rewrite insert_insert_eq. apply insert_id. rewrite Hn. by destruct n.
Qed.

(** Assignments to different nodes commute. *)
Lemma set_next_prev_comm h p v q w h1 h2 :
  p ≠ q → set_prev h q w = Some h1 → set_next h1 p v = Some h2 →
  ∃ h1', set_next h p v = Some h1' ∧ set_prev h1' q w = Some h2.
Proof.
  intros Hpq H1 H2. unfold set_prev in H1. apply bind_Some in H1 as (nq & Hq & [= <-]).
  unfold set_next in H2. apply bind_Some in H2 as (np & Hp & [= <-]).
  rewrite lookup_insert_ne in Hp by done. rewrite (set_next_Some _ _ _ _ Hp).
  eexists; split; [reflexivity|]. erewrite set_prev_Some by (by rewrite lookup_insert_ne).
  f_equal. by apply insert_insert_ne.
Qed.

(** *** One node out, and back *)
Definition unlink h (x : nat) : option memory :=
  xn ← h !! x; p ← n_prev xn; h ← set_next h p (n_next xn);
  xn ← h !! x;
  match n_next xn with Some q => set_prev h q (n_prev xn) | None => Some h end.
Definition relink h (x : nat) : option memory :=
  xn ← h !! x; p ← n_prev xn; h ← set_next h p (Some x);
  xn ← h !! x;
  match n_next xn with Some q => set_prev h q (Some x) | None => Some h end.

(** Everything but the next and previous pointers. *)
Definition sameData h h' : Prop :=
  (∀ x, n_match <$> h' !! x = n_match <$> h !! x) ∧ (∀ x, n_id <$> h' !! x = n_id <$> h !! x) ∧
  (∀ x, n_value <$> h' !! x = n_value <$> h !! x).

Lemma sameData_trans h1 h2 h3 : sameData h1 h2 → sameData h2 h3 → sameData h1 h3.
Proof. intros (H1 & H2 & H3) (H4 & H5 & H6). split_and!; intros; congruence. Qed.

(** [last (a :: l1)] is the node before [x] in [a :: l1 ++ x :: l2]. *)
Fixpoint lastOf (a : nat) (l : list nat) : nat :=
  match l with [] => a | b :: l => lastOf b l end.

Lemma lastOf_in a l : lastOf a l ∈ a :: l.
Proof.
  revert a; induction l as [|b l IH]; intros a; simpl; [by left|]. right. apply IH.
Qed.

Lemma lastOf_ne a l1 x l2 : NoDup (a :: l1 ++ x :: l2) → lastOf a l1 ≠ x.
Proof.
  intros Hnd Heq. pose proof (lastOf_in a l1) as Hin. rewrite Heq in Hin.
  rewrite app_comm_cons in Hnd. apply NoDup_app in Hnd as (_ & Hd & _).
  apply (Hd _ Hin). by left.
Qed.

Lemma seg_around h a l1 x l2 :
  seg h a (l1 ++ x :: l2) →
  nextOf h (lastOf a l1) = Some (Some x) ∧ prevOf h x = Some (Some (lastOf a l1)) ∧ seg h x l2.
Proof.
  revert a; induction l1 as [|b l1 IH]; intros a; simpl; [tauto|]. intros (_ & _ & H). by apply IH.
Qed.

Lemma seg_cut h h' x l2 : ∀ l1 a,
  NoDup (a :: l1 ++ x :: l2) → seg h a (l1 ++ x :: l2) →
  (∀ y, y ≠ lastOf a l1 → nextOf h' y = nextOf h y) → nextOf h' (lastOf a l1) = nextOf h x →
  (∀ y, head l2 ≠ Some y → prevOf h' y = prevOf h y) →
  (∀ q, head l2 = Some q → prevOf h' q = Some (Some (lastOf a l1))) →
  seg h' a (l1 ++ l2).
Proof.
  induction l1 as [|b l1 IH]; intros a Hnd Hs Hn Hp Hpr Hq; simpl in *.
  - destruct Hs as (_ & _ & Hs). destruct l2 as [|q l3]; simpl in *; [congruence|].
    destruct Hs as (Hxq & _ & Hs). split_and!; [congruence|by apply Hq|].
    apply NoDup_cons in Hnd as [Ha Hnd]. apply NoDup_cons in Hnd as [_ Hnd].
    apply NoDup_cons in Hnd as [Hq3 _]. apply (seg_frame h); [| |done].
    + intros y Hy. apply Hn. intros ->. apply Ha. by right.
    + intros y Hy. apply Hpr. intros [= ->]. done.
  - destruct Hs as (Hab & Hba & Hs). apply NoDup_cons in Hnd as [Ha Hnd].
    pose proof (lastOf_in b l1) as Hin. split_and!.
    + rewrite Hn; [done|]. intros ->. apply Ha. rewrite app_comm_cons. apply elem_of_app. by left.
    + rewrite Hpr; [done|]. intros Hh. destruct l2 as [|q l3]; [done|]. injection Hh as ->.
      apply NoDup_cons in Hnd as [Hb _]. apply Hb, elem_of_app; right. by right; left.
    + by apply IH.
Qed.

Lemma unlink_spec h a l1 x l2 :
  NoDup (a :: l1 ++ x :: l2) → seg h a (l1 ++ x :: l2) →
  ∃ h', unlink h x = Some h' ∧ seg h' a (l1 ++ l2) ∧ relink h' x = Some h ∧ sameData h h' ∧
    h' !! x = h !! x.
Proof.
  intros Hnd Hs. destruct (seg_around _ _ _ _ _ Hs) as (Hpn & Hxp & Hs2).
  pose proof (λ h', seg_cut h h' x l2 l1 a Hnd Hs) as Hcut.
  set (p := lastOf a l1) in *.
  destruct (h !! x) as [xn|] eqn:Hx; [|by unfold prevOf in Hxp; rewrite Hx in Hxp].
  assert (n_prev xn = Some p) as Hxp' by (unfold prevOf in Hxp; rewrite Hx in Hxp; by injection Hxp).
  assert (nextOf h x = Some (n_next xn)) as Hnx by (unfold nextOf; by rewrite Hx).
  assert (p ≠ x ∧ (p ∉ l2) ∧ (x ∉ l2)) as (Hpx & Hp2 & Hx2).
  { pose proof (lastOf_in a l1) as Hin. fold p in Hin. rewrite app_comm_cons in Hnd.
    apply NoDup_app in Hnd as (_ & Hd & Hnd2). specialize (Hd _ Hin). apply NoDup_cons in Hnd2.
    set_solver. }
  destruct (set_next_spec h p (n_next xn)) as (h1 & H1 & Ho1).
  { unfold nextOf in Hpn. destruct (h !! p); [by eexists|done]. }
  assert (h1 !! x = Some xn) as Hx1 by (by rewrite (on_other _ _ _ _ Ho1)).
  assert (sameData h h1) as Hsd1 by (split_and!; apply Ho1).
  assert (∀ y, y ≠ p → nextOf h1 y = nextOf h y) as Hn1.
  { intros y Hy. unfold nextOf. by rewrite (on_other _ _ _ _ Ho1). }
  unfold unlink. rewrite Hx; simpl. rewrite Hxp'; simpl. rewrite H1; simpl. rewrite Hx1; simpl.
  rewrite Hxp'.
  destruct l2 as [|q l2].
  - simpl in Hs2. assert (n_next xn = None) as Hnn by congruence. rewrite Hnn in *.
    exists h1. split_and!; [done| | |done|done].
    + apply Hcut; [done|by rewrite (on_next _ _ _ _ Ho1)|intros; apply Ho1|done].
    + unfold relink. rewrite Hx1; simpl. rewrite Hxp'; simpl.
      rewrite (set_next_undo _ _ _ _ _ H1 Hpn); simpl. rewrite Hx; simpl. by rewrite Hnn.
  - destruct Hs2 as (Hxq & Hqx & _). assert (n_next xn = Some q) as Hnn by congruence.
    rewrite Hnn in *. assert (q ≠ x) as Hqne by set_solver.
    destruct (set_prev_spec h1 q (Some p)) as (h2 & H2 & Ho2).
    { unfold prevOf in Hqx. rewrite (on_other _ _ _ _ Ho1) by set_solver.
      destruct (h !! q); [by eexists|done]. }
    assert (h2 !! x = Some xn) as Hx2' by (by rewrite (op_other _ _ _ _ Ho2)).
    exists h2. split_and!; [done| | | |congruence].
    + apply Hcut; simpl.
      * intros y Hy. rewrite (op_next _ _ _ _ Ho2). by apply Hn1.
      * by rewrite (op_next _ _ _ _ Ho2), (on_next _ _ _ _ Ho1).
      * intros y Hy. unfold prevOf. rewrite (op_other _ _ _ _ Ho2) by congruence. apply Ho1.
      * intros y [= <-]. apply Ho2.
    + unfold relink. rewrite Hx2'; simpl. rewrite Hxp'; simpl.
      assert (set_prev h2 q (Some x) = Some h1) as Hu2.
      { eapply set_prev_undo; [exact H2|]. by rewrite (on_prev _ _ _ _ Ho1). }
      assert (p ≠ q) as Hpq by set_solver.
      destruct (set_next_prev_comm _ _ (Some x) _ _ _ _ Hpq Hu2 (set_next_undo _ _ _ _ _ H1 Hpn))
        as (h3 & H3 & H4).
      rewrite H3; simpl.
      assert (h3 !! x = Some xn) as Hx3.
      { destruct (set_next_spec h2 p (Some x)) as (h3' & H3' & Ho3).
        { unfold set_next in H3. destruct (h2 !! p); [by eexists|done]. }
        rewrite H3 in H3'. injection H3' as <-. by rewrite (on_other _ _ _ _ Ho3). }
      rewrite Hx3; simpl. by rewrite Hnn.
    + eapply sameData_trans; [exact Hsd1|]. split_and!; apply Ho2.
Qed.

(** [lift] takes a call [e] and its return [m] out of the list, wherever they are in it, and
    [unlift] restores the memory. *)
Lemma lift_spec h a A e B m C :
  NoDup (a :: A ++ e :: B ++ m :: C) → seg h a (A ++ e :: B ++ m :: C) →
  n_match <$> h !! e = Some (Some m) →
  ∃ h', lift h e = Some h' ∧ seg h' a (A ++ B ++ C) ∧ unlift h' e = Some h ∧ sameData h h'.
Proof.
  intros Hnd Hs Hm.
  destruct (unlink_spec _ _ _ _ _ Hnd Hs) as (h1 & Hu1 & Hs1 & Hr1 & Hd1 & He1).
  rewrite app_assoc in Hs1.
  assert (NoDup (a :: (A ++ B) ++ m :: C)) as Hnd1.
  { eapply sublist_NoDup; [exact Hnd|]. rewrite <-app_assoc. apply sublist_skip, sublist_app; [done|].
    by apply sublist_cons. }
  destruct (unlink_spec _ _ _ _ _ Hnd1 Hs1) as (h2 & Hu2 & Hs2 & Hr2 & Hd2 & Hm2).
  destruct (seg_around _ _ _ _ _ Hs) as (_ & Hpe & Hse).
  pose proof (lastOf_ne _ _ _ _ Hnd) as Hpne. set (p := lastOf a A) in *.
  destruct (h !! e) as [en|] eqn:He; [|done]. injection Hm as Hm.
  unfold prevOf in Hpe. rewrite He in Hpe. injection Hpe as Hpe.
  assert (∃ q, n_next en = Some q) as [q Hq].
  { destruct B as [|b B]; simpl in Hse; destruct Hse as (Hn & _); unfold nextOf in Hn; rewrite He in Hn;
      injection Hn as Hn; eauto. }
  assert (sameData h h2) as Hd by (by eapply sameData_trans).
  assert (∃ en2, h2 !! e = Some en2 ∧ n_match en2 = Some m) as (en2 & He2 & Hm2').
  { destruct Hd as (Hdm & _). specialize (Hdm e). rewrite He in Hdm; simpl in Hdm.
    destruct (h2 !! e) as [en2|]; [|done]. exists en2. split; [done|]. injection Hdm as ->. done. }
  exists h2. rewrite <-app_assoc in Hs2. split_and!; [|done| |done].
  - unfold unlink in Hu1, Hu2. unfold lift. rewrite He in Hu1 |- *. simpl in Hu1 |- *.
    rewrite Hpe in Hu1 |- *. simpl in Hu1 |- *.
    apply bind_Some in Hu1 as (h' & Hh' & Hu1). rewrite Hh'; simpl.
    rewrite (set_next_other _ _ _ _ e Hh') in Hu1 |- * by done. rewrite He in Hu1 |- *.
    simpl in Hu1 |- *. rewrite Hq in Hu1 |- *. simpl in Hu1 |- *. rewrite Hu1; simpl.
    rewrite He1; simpl. rewrite Hm; simpl. exact Hu2.
  - unfold unlift. rewrite He2; simpl. rewrite Hm2'; simpl.
    unfold relink in Hr1, Hr2. apply bind_Some in Hr2 as (mn & Hmn & Hr2). rewrite Hmn; simpl.
    apply bind_Some in Hr2 as (pm & Hpm & Hr2). rewrite Hpm; simpl.
    apply bind_Some in Hr2 as (h' & Hh' & Hr2). rewrite Hh'; simpl.
    apply bind_Some in Hr2 as (mn' & Hmn' & Hr2). rewrite Hmn'; simpl. rewrite Hr2; simpl.
    rewrite He1 in Hr1 |- *. simpl in Hr1 |- *. rewrite Hpe in Hr1 |- *. simpl in Hr1 |- *.
    apply bind_Some in Hr1 as (h'' & Hh'' & Hr1). rewrite Hh''; simpl.
    rewrite (set_next_other _ _ _ _ e Hh'') in Hr1 |- * by done. rewrite He1 in Hr1 |- *.
    simpl in Hr1 |- *. by rewrite Hq in Hr1 |- *.
Qed.
End dll.
