(* ===== verification/CheckerSound.v ===== *)
(** Soundness of the linearizability checker: a history that [checkSingle] accepts has a
    sequential order that the model allows and that respects the real-time order of its
    operations.  First for the linked list, then for histories. *)
From S2P Require Import Prelude Bitset Checker CheckerList.
From stdpp Require Import sorting.
#[local] Open Scope Z_scope.

Lemma sublist_sorted {A} (R : relation A) l1 l2 :
  l1 `sublist_of` l2 → StronglySorted R l2 → StronglySorted R l1.
Proof.
  induction 1 as [|x l1 l2 Hs IH|x l1 l2 Hs IH]; intros H; [done|..];
    apply StronglySorted_cons in H as [Hx H].
  - apply StronglySorted_cons. split; [|by apply IH]. rewrite Forall_forall in Hx |- *.
    intros y Hy. apply Hx. by eapply elem_of_sublist.
  - by apply IH.
Qed.

Section search.
Context {V St : Type} `{!EqDecision St} (model : Model V St).
Abbreviation memory := (gmap nat (node V)).

(** The list the search starts from: nodes [L0] after [head], in the order of [pos]; [mt] is
    the return of a call, [val] the value of a node. *)
Context (head : nat) (h0 : memory) (L0 : list nat) (pos : nat → nat).
Context (mt : nat → option nat) (val : nat → option V).
Context (L0_nodup : NoDup (head :: L0)) (L0_seg : seg h0 head L0).
Context (L0_sorted : StronglySorted (λ a b, (pos a < pos b)%nat) L0).
Context (L0_match : ∀ a, a ∈ L0 → n_match <$> h0 !! a = Some (mt a)).
Context (L0_value : ∀ a, a ∈ L0 → n_value <$> h0 !! a = Some (val a)).
Context (L0_pair : ∀ a m, a ∈ L0 → mt a = Some m → m ∈ L0 ∧ (pos a < pos m)%nat ∧ mt m = None).
Context (L0_inj : ∀ a b m, a ∈ L0 → b ∈ L0 → mt a = Some m → mt b = Some m → a = b).

Definition isCall (a : nat) : Prop := is_Some (mt a).

(** The states of the search: the memory, the nodes left in the list, the stack of lifted
    calls with the model states before them, and the current model state. *)
Inductive stk : memory → list nat → list (nat * St) → St → Prop :=
  | stk_start : stk h0 L0 [] (Init model)
  | stk_lift h A e B m C calls s s' inp out h' :
      stk h (A ++ e :: B ++ m :: C) calls s →
      mt e = Some m → Forall isCall A → val e = Some inp → val m = Some out →
      Step model s inp out = (true, s') → lift h e = Some h' →
      stk h' (A ++ B ++ C) (calls ++ [(e, s)]) s'.

(** A run of the model through calls in this order. *)
Fixpoint runs (s : St) (es : list nat) (s' : St) : Prop :=
  match es with
  | [] => s = s'
  | e :: es => ∃ m inp out s1, mt e = Some m ∧ val e = Some inp ∧ val m = Some out ∧
                 Step model s inp out = (true, s1) ∧ runs s1 es s'
  end.

Lemma runs_snoc s es s1 e m inp out s2 :
  runs s es s1 → mt e = Some m → val e = Some inp → val m = Some out →
  Step model s1 inp out = (true, s2) → runs s (es ++ [e]) s2.
Proof.
  revert s; induction es as [|x es IH]; intros s; simpl.
  - intros <- ? ? ? ?. by exists m, inp, out, s2.
  - intros (m' & i & o & s' & ? & ? & ? & ? & H) ? ? ? ?. exists m', i, o, s'. eauto 10.
Qed.

Record stkOk (h : memory) (L : list nat) (es : list nat) (s : St) : Prop := {
  ok_nodup : NoDup (head :: L);
  ok_seg : seg h head L;
  ok_data : sameData h0 h;
  ok_sub : L `sublist_of` L0;
  ok_cover : ∀ a, a ∈ L0 → a ∈ L ∨ a ∈ es ∨ ∃ e, e ∈ es ∧ mt e = Some a;
  ok_lifted : ∀ e m, e ∈ es → mt e = Some m → (e ∉ L) ∧ (m ∉ L);
  ok_calls : ∀ e, e ∈ es → e ∈ L0 ∧ isCall e;
  ok_stack : NoDup es;
  ok_closed : ∀ e m, e ∈ L → mt e = Some m → m ∈ L;
  ok_time : ∀ k e a, es !! k = Some e → a ∈ L0 → mt a = None → (pos a < pos e)%nat →
              ∃ (j : nat) e', (j < k)%nat ∧ es !! j = Some e' ∧ mt e' = Some a;
  ok_runs : runs (Init model) es s;
}.

Lemma sorted_before L A e B x :
  L `sublist_of` L0 → L = A ++ e :: B → x ∈ L → (pos x < pos e)%nat → x ∈ A.
Proof using L0_sorted.
  intros Hsub -> Hx Hlt.
  assert (StronglySorted (λ a b, (pos a < pos b)%nat) (A ++ e :: B)) as Hs
    by (by eapply sublist_sorted).
  apply elem_of_app in Hx as [?|Hx]; [done|]. apply StronglySorted_app_1_r in Hs.
  apply StronglySorted_cons in Hs as [Hs _]. rewrite Forall_forall in Hs.
  apply elem_of_cons in Hx as [->|Hx]; [lia|]. specialize (Hs _ Hx). simpl in Hs. lia.
Qed.

Lemma stk_ok h L calls s : stk h L calls s → stkOk h L calls.*1 s.
Proof.
  induction 1 as [|h A e B m C calls s s' inp out h' Hst IH Hmt HA Hi Ho Hstep Hlift].
  { split; simpl; try done.
    - auto.
    - by intros e m ?%not_elem_of_nil.
    - by intros e ?%not_elem_of_nil.
    - constructor.
    - intros e m He Hm. by apply (L0_pair e m). }
  destruct IH as [Hnd Hseg Hdata Hsub Hcov Hlif Hcal Hsta Hclo Htime Hrun].
  set (L := A ++ e :: B ++ m :: C) in *.
  assert (e ∈ L) as HeL by (unfold L; set_solver).
  assert (m ∈ L) as HmL by (unfold L; set_solver).
  assert (e ∈ L0 ∧ m ∈ L0) as [HeL0 HmL0] by (split; by eapply elem_of_sublist).
  assert (A ++ B ++ C `sublist_of` L) as HsL.
  { unfold L. apply sublist_app; [done|]. apply sublist_cons, sublist_app; [done|by apply sublist_cons]. }
  assert (∀ x, x ∈ L → x = e ∨ x = m ∨ x ∈ A ++ B ++ C) as HL by (unfold L; set_solver).
  assert ((e ∉ A ++ B ++ C) ∧ (m ∉ A ++ B ++ C)) as [HeN HmN].
  { apply NoDup_cons in Hnd as [_ Hnd]. unfold L in Hnd.
    rewrite (Permutation_app_comm A), <-app_comm_cons in Hnd. apply NoDup_cons in Hnd as [H1 Hnd].
    rewrite <-app_assoc, (Permutation_app_comm B), <-app_assoc in Hnd. simpl in Hnd.
    apply NoDup_cons in Hnd as [H2 _]. set_solver. }
  destruct (lift_spec h head A e B m C Hnd Hseg) as (h1 & Hl1 & Hs1 & _ & Hd1).
  { destruct Hdata as [Hdm _]. rewrite Hdm, L0_match, Hmt by done. done. }
  rewrite Hlift in Hl1; injection Hl1 as <-. rewrite fmap_app; simpl.
  split.
  - eapply sublist_NoDup; [exact Hnd|]. by apply sublist_skip.
  - done.
  - by eapply sameData_trans.
  - by etransitivity.
  - intros a Ha. destruct (Hcov a Ha) as [HaL|[He|(e' & He' & Hm')]].
    + destruct (HL a HaL) as [->|[->|?]]; [right; left; set_solver| |by left].
      right; right. exists e; split; [set_solver|done].
    + right; left; set_solver.
    + right; right. exists e'; split; [set_solver|done].
  - intros e' m' [He'| ->%list_elem_of_singleton]%elem_of_app Hm'.
    + destruct (Hlif _ _ He' Hm') as [? ?]. split; intros Hin; eapply elem_of_sublist in Hin; eauto.
    + rewrite Hmt in Hm'; injection Hm' as <-. done.
  - intros e' [He'| ->%list_elem_of_singleton]%elem_of_app; [by apply Hcal|]. split; [done|by eexists].
  - apply NoDup_app; split_and!; [done| |by apply NoDup_singleton].
    intros x Hx ->%list_elem_of_singleton. by destruct (Hlif _ _ Hx Hmt).
  - intros e' m' He' Hm'. assert (e' ∈ L) as HeL' by (by eapply elem_of_sublist).
    destruct (HL m' (Hclo _ _ HeL' Hm')) as [->|[->|?]]; [| |done].
    + destruct (L0_pair e' e) as (_ & _ & Hn); [by eapply elem_of_sublist|done|]. congruence.
    + assert (e' = e) as ->; [|done]. eapply (L0_inj e' e); try done. by eapply elem_of_sublist.
  - intros k e' a Hk Ha Hn Hlt. apply lookup_app_Some in Hk as [Hk|[Hk1 Hk2]].
    + destruct (Htime _ _ _ Hk Ha Hn Hlt) as (j & e2 & Hj & Hj2 & Hm2). exists j, e2.
      split_and!; [done|by apply lookup_app_l_Some|done].
    + apply list_lookup_singleton_Some in Hk2 as [Hk2 <-].
      destruct (Hcov a Ha) as [HaL|[He|(e2 & He2 & Hm2)]].
      * pose proof (sorted_before L A e (B ++ m :: C) a Hsub eq_refl HaL Hlt) as HaA.
        rewrite Forall_forall in HA. destruct (HA _ HaA). congruence.
      * destruct (Hcal _ He) as [_ [? ?]]. congruence.
      * apply list_elem_of_lookup in He2 as [j Hj]. exists j, e2. split_and!; [|by apply lookup_app_l_Some|done].
        apply lookup_lt_Some in Hj. lia.
  - by eapply runs_snoc.
Qed.

(** The invariant of the loop: [c_entry] points into the list, behind calls only. *)
Definition CInv (s : CState (V := V) (St := St)) : Prop :=
  ∃ L pre suf, stk (c_mem s) L (c_calls s) (c_state s) ∧ L = pre ++ suf ∧
    c_entry s = List.hd_error suf ∧ Forall isCall pre.

Lemma seg_next (h : memory) a L A e R : seg h a L → L = A ++ e :: R → nextOf h e = Some (List.hd_error R).
Proof.
  intros Hs ->. apply seg_around in Hs as (_ & _ & Hs). destruct R as [|r R]; simpl in Hs; [done|].
  by destruct Hs.
Qed.

Lemma seg_first (h : memory) a L : seg h a L → nextOf h a = Some (List.hd_error L).
Proof. destruct L as [|b L]; simpl; [done|]. by intros []. Qed.

(** A call in the list is followed by its return. *)
Lemma split_call h L calls s pre e R :
  stk h L calls s → L = pre ++ e :: R → isCall e →
  ∃ m B C, mt e = Some m ∧ R = B ++ m :: C.
Proof using All.
  intros Hst HL [m Hm]. destruct (stk_ok _ _ _ _ Hst) as [Hnd Hseg Hdata Hsub Hcov Hlif Hcal Hsta Hclo Htime Hrun].
  assert (e ∈ L) as HeL by (rewrite HL; set_solver).
  pose proof (Hclo _ _ HeL Hm) as HmL.
  destruct (L0_pair e m) as (_ & Hlt & Hn); [by eapply elem_of_sublist|done|].
  assert (m ∈ R) as HmR.
  { rewrite HL in HmL. apply elem_of_app in HmL as [HmA|HmR].
    - apply list_elem_of_split in HmA as (A1 & A2 & ->).
      assert (e ∈ A1) as HeA.
      { eapply (sorted_before L A1 m (A2 ++ e :: R)); [done| |done|done].
        by rewrite HL, <-app_assoc. }
      apply NoDup_cons in Hnd as [_ Hnd]. rewrite HL, <-app_assoc in Hnd.
      apply NoDup_app in Hnd as (_ & Hd & _). destruct (Hd _ HeA). set_solver.
    - apply elem_of_cons in HmR as [->|?]; [congruence|done]. }
  apply list_elem_of_split in HmR as (B & C & ->). by exists m, B, C.
Qed.

Lemma stk_value h L calls s a :
  stk h L calls s → a ∈ L → n_value <$> h !! a = Some (val a) ∧ n_match <$> h !! a = Some (mt a).
Proof using All.
  intros Hst Ha. destruct (stk_ok _ _ _ _ Hst) as [_ _ (Hdm & _ & Hdv) Hsub _ _ _ _ _ _ _].
  assert (a ∈ L0) by (by eapply elem_of_sublist). rewrite Hdm, Hdv. auto.
Qed.

Lemma CInv_step computePartial killed k s r :
  CInv s → checkStep model head computePartial killed k s = Some r →
  match r with
  | inl s' => CInv s'
  | inr (true, _) => ∃ h calls st, stk h [] calls st
  | inr (false, _) => True
  end.
Proof using All.
  intros (L & pre & suf & Hst & HL & Hent & Hpre) H.
  pose proof (stk_ok _ _ _ _ Hst) as Hok. unfold checkStep in H.
  apply bind_Some in H as (hd & Hhd & H). case_bool_decide as Hnil.
  { apply bind_Some in H as (sq & _ & [= <-]). pose proof (seg_first _ _ _ (ok_seg _ _ _ _ Hok)) as Hf.
    unfold nextOf in Hf. rewrite Hhd in Hf; simpl in Hf. rewrite Hnil in Hf. injection Hf as Hf.
    destruct L as [|]; [|done]. eauto. }
  destruct killed; [by injection H as <-|].
  apply bind_Some in H as (e & He & H). apply bind_Some in H as (en & Hen & H).
  rewrite Hent in He. destruct suf as [|e' R]; [done|]. injection He as ->.
  assert (e ∈ L) as HeL by (rewrite HL; set_solver).
  destruct (stk_value _ _ _ _ _ Hst HeL) as [Hv Hm]. rewrite Hen in Hv, Hm.
  injection Hv as Hv. injection Hm as Hm. rewrite Hm in H.
  pose proof (seg_next _ _ _ _ _ _ (ok_seg _ _ _ _ Hok) HL) as Hnx.
  unfold nextOf in Hnx. rewrite Hen in Hnx. injection Hnx as Hnx.
  destruct (mt e) as [m|] eqn:Hmt.
  - (* a call *)
    assert (isCall e) as Hcall by (by eexists).
    destruct (split_call _ _ _ _ _ _ _ Hst HL Hcall) as (m' & B & C & Hm' & ->).
    rewrite Hmt in Hm'; injection Hm' as <-.
    apply bind_Some in H as (mn & Hmn & H). apply bind_Some in H as (inp & Hinp & H).
    apply bind_Some in H as (out & Hout & H).
    assert (m ∈ L) as HmL by (rewrite HL; set_solver).
    destruct (stk_value _ _ _ _ _ Hst HmL) as [Hvm _]. rewrite Hmn in Hvm. injection Hvm as Hvm.
    destruct (Step model (c_state s) inp out) as [ok st'] eqn:Hstep.
    assert (CInv (mkCState (c_mem s) (n_next en) (c_linearized s) (c_cache s) (c_calls s)
                           (c_state s) (c_longest s))) as Hskip.
    { exists L, (pre ++ [e]), (B ++ m :: C); simpl. split_and!; [done|by rewrite HL, <-app_assoc|done|].
      apply Forall_app; split; [done|by constructor]. }
    destruct ok; [|by injection H as <-].
    apply bind_Some in H as (nl & _ & H). case_if_in H; [|by injection H as <-].
    apply bind_Some in H as (lin & _ & H). apply bind_Some in H as (h' & Hlift & H).
    apply bind_Some in H as (hd' & Hhd' & [= <-]).
    assert (stk h' (pre ++ B ++ C) (c_calls s ++ [(e, c_state s)]) st') as Hst'.
    { rewrite HL in Hst. eapply stk_lift; try done; congruence. }
    exists (pre ++ B ++ C), [], (pre ++ B ++ C); simpl. split_and!; [done|done| |by constructor].
    pose proof (seg_first _ _ _ (ok_seg _ _ _ _ (stk_ok _ _ _ _ Hst'))) as Hf.
    unfold nextOf in Hf. rewrite Hhd' in Hf. by injection Hf as ->.
  - (* a return: backtrack *)
    destruct (last (c_calls s)) as [[top st1]|] eqn:Hlast; [|by injection H as <-].
    apply bind_Some in H as (lng & _ & H). apply bind_Some in H as (tn & Htn & H).
    apply bind_Some in H as (lin & _ & H). apply bind_Some in H as (h' & Hun & H).
    apply bind_Some in H as (tn' & Htn' & [= <-]).
    apply last_Some in Hlast as [calls' Hcalls].
    inversion Hst as [Hx1 Hx2 Hcs|h1 A t B m C calls1 s1 s2 inp out h2 Hst1 Hmt1 HA Hi Ho Hstep Hlift Hx1 Hx2 Hcs].
    { rewrite Hcalls in Hcs. by apply (f_equal length) in Hcs; rewrite length_app in Hcs; simpl in Hcs; lia. }
    rewrite Hcalls in Hcs. apply app_inj_2 in Hcs as [-> Hcs]; [|done]. injection Hcs as -> ->.
    pose proof (stk_ok _ _ _ _ Hst1) as Hok1.
    destruct (lift_spec h1 head A top B m C) as (h3 & Hl3 & _ & Hun3 & _);
      [apply Hok1|apply Hok1| |].
    { destruct (stk_value _ _ _ _ top Hst1) as [_ ->]; [set_solver|by rewrite Hmt1]. }
    rewrite Hlift in Hl3. injection Hl3 as <-. rewrite <-?Hx1 in *.
    assert (h' = h1) as -> by congruence.
    exists (A ++ top :: B ++ m :: C), (A ++ [top]), (B ++ m :: C); simpl.
    rewrite removelast_last. split_and!; [done|by rewrite <-app_assoc| |].
    + pose proof (seg_next _ _ _ _ _ _ (ok_seg _ _ _ _ Hok1) eq_refl) as Hn1.
      unfold nextOf in Hn1. rewrite Htn' in Hn1. by injection Hn1 as ->.
    + apply Forall_app; split; [done|]. constructor; [by eexists|constructor].
Qed.

Lemma checkLoop_sound computePartial kill fuel : ∀ k s lng,
  CInv s → checkLoop model head computePartial kill fuel k s = Returned (true, lng) →
  ∃ h calls st, stk h [] calls st.
Proof using All.
  induction fuel as [|fuel IH]; intros k s lng Hi H; [done|]. cbn [checkLoop] in H.
  destruct (checkStep model head computePartial (kill k) k s) as [r|] eqn:Hstep; [|done].
  pose proof (CInv_step _ _ _ _ _ Hi Hstep) as Hr. destruct r as [s'|[b l]]; [by eapply IH|].
  injection H as -> ->. done.
Qed.
End search.
