(* ===== verification/CheckerLink.v ===== *)
(** [makeLinkedEntries] and the head: the list that the search starts from. *)
From S2P Require Import Prelude Bitset Checker CheckerList CheckerSound.
From stdpp Require Import sorting.
#[local] Open Scope Z_scope.

(** Addresses are handed out from the last entry to the first. *)
Fixpoint downTo (n : nat) : list nat := match n with O => [] | S n => n :: downTo n end.

Lemma elem_of_downTo n a : a ∈ downTo n ↔ (a < n)%nat.
Proof.
  induction n as [|n IH]; simpl; [split; [by intros ?%not_elem_of_nil|lia]|].
  rewrite elem_of_cons, IH. lia.
Qed.

Lemma downTo_NoDup n : NoDup (n :: downTo n).
Proof.
  induction n as [|n IH]; simpl; [apply NoDup_singleton|].
  constructor; [|done]. intros Hin. apply (elem_of_downTo (S n)) in Hin. lia.
Qed.

Lemma downTo_sorted N n :
  (n ≤ N)%nat → StronglySorted (λ a b, (N - 1 - a < N - 1 - b)%nat) (downTo n).
Proof.
  induction n as [|n IH]; intros H; simpl; [constructor|]. apply StronglySorted_cons.
  split; [|apply IH; lia]. apply Forall_forall. intros a Ha%elem_of_downTo. lia.
Qed.

Section link.
Context {V : Type}.
Abbreviation memory := (gmap nat (node V)).
Abbreviation entry := (entry V).
Implicit Types (h : memory) (es : list entry).

(** The address of the first return with id [d]. *)
Fixpoint firstRet es (d : Z) : option nat :=
  match es with
  | [] => None
  | e :: es => if kind e && (id e =? d) then Some (length es) else firstRet es d
  end.

(** Value, id and match of the node at an address. *)
Definition data (nd : node V) : option V * Z * option nat := (n_value nd, n_id nd, n_match nd).
Fixpoint nodeData es (a : nat) : option (option V * Z * option nat) :=
  match es with
  | [] => None
  | e :: es =>
      if decide (a = length es)
      then Some (Some (value e), id e, if kind e then None else firstRet es (id e))
      else nodeData es a
  end.

Lemma insert_front h root l a nd :
  h !! a = None → NoDup (a :: l) → n_next nd = None → n_prev nd = None →
  root = List.hd_error l →
  match l with [] => True | r :: l => seg h r l ∧ prevOf h r = Some None end →
  ∃ h', insertBefore (<[a := nd]> h) a root = Some h' ∧ seg h' a l ∧ prevOf h' a = Some None ∧
    ∀ x, data <$> h' !! x = data <$> <[a := nd]> h !! x.
Proof.
  intros Ha Hnd Hnn Hnp -> Hl. destruct l as [|r l]; simpl.
  { eexists; split_and!; [reflexivity| | |done];
      unfold nextOf, prevOf; rewrite lookup_insert_eq; simpl; congruence. }
  destruct Hl as [Hseg Hpr]. apply NoDup_cons in Hnd as [Har Hnd].
  assert (a ≠ r) as Hne by set_solver.
  unfold prevOf in Hpr. destruct (h !! r) as [rn|] eqn:Hr; [|done]. injection Hpr as Hpr.
  rewrite lookup_insert_ne by done. rewrite Hr; simpl. rewrite Hpr.
  destruct (set_prev_spec (<[a := nd]> h) r (Some a)) as (h1 & H1 & Ho1).
  { rewrite lookup_insert_ne by done. by eexists. }
  rewrite H1; simpl.
  assert (h1 !! a = Some nd) as Ha1 by (by rewrite (op_other _ _ _ _ Ho1), lookup_insert_eq).
  destruct (set_next_spec h1 a (Some r)) as (h2 & H2 & Ho2); [by eexists|].
  rewrite H2; simpl. exists h2. split_and!; [done|by apply Ho2|..].
  - rewrite (on_prev _ _ _ _ Ho2). apply Ho1.
  - apply (seg_frame h); [| |done].
    + intros x Hx. assert (x ≠ a) by (intros ->; done). unfold nextOf.
      rewrite (on_other _ _ _ _ Ho2) by done. fold (nextOf h1 x). rewrite (op_next _ _ _ _ Ho1).
      unfold nextOf. by rewrite lookup_insert_ne.
    + intros x Hx. assert (x ≠ a) by (intros ->; apply Har; by right).
      assert (x ≠ r) by (intros ->; by apply NoDup_cons in Hnd as [? _]).
      rewrite (on_prev _ _ _ _ Ho2). unfold prevOf. rewrite (op_other _ _ _ _ Ho1) by done.
      by rewrite lookup_insert_ne.
  - rewrite (on_prev _ _ _ _ Ho2). unfold prevOf. rewrite Ha1; simpl. by rewrite Hnp.
  - intros x. pose proof (on_value _ _ _ _ Ho2 x) as Hv2. pose proof (op_value _ _ _ _ Ho1 x) as Hv1.
    pose proof (on_id _ _ _ _ Ho2 x) as Hi2. pose proof (op_id _ _ _ _ Ho1 x) as Hi1.
    pose proof (on_match _ _ _ _ Ho2 x) as Hm2. pose proof (op_match _ _ _ _ Ho1 x) as Hm1.
    destruct (h2 !! x), (h1 !! x), (<[a:=nd]> h !! x); simpl in *; simplify_eq; [|done].
    unfold data. congruence.
Qed.

Record built es (h : memory) (root : option nat) (mt : gmap Z nat) (a : nat) : Prop := {
  bt_next : a = length es;
  bt_root : root = List.hd_error (downTo (length es));
  bt_seg : match downTo (length es) with
           | [] => True | r :: l => seg h r l ∧ prevOf h r = Some None
           end;
  bt_data : ∀ x, data <$> h !! x = nodeData es x;
  bt_ret : ∀ d, mt !! d = firstRet es d;
}.

Lemma nodeData_ge es a : (length es ≤ a)%nat → nodeData es a = None.
Proof.
  induction es as [|e es IH]; simpl; intros H; [done|]. rewrite decide_False by lia. apply IH. lia.
Qed.

Lemma makeLinkedEntries_built es h root mt a :
  makeLinkedEntries es = Some (h, root, mt, a) → built es h root mt a.
Proof.
  revert h root mt a; induction es as [|e es IH]; intros h root mt a H; simpl in H.
  { injection H as <- <- <- <-. by split. }
  apply bind_Some in H as ([[[h1 root1] mt1] a1] & H1 & H).
  destruct (IH _ _ _ _ H1) as [-> Hroot Hseg Hdata Hret]. unfold linkEntry in H.
  apply bind_Some in H as (h2 & H2 & [= <- <- <- <-]).
  set (nd := mkNode _ _ _ _ _) in H2.
  assert (h1 !! length es = None) as Hfresh.
  { specialize (Hdata (length es)). rewrite nodeData_ge in Hdata by done. by destruct (h1 !! length es). }
  destruct (insert_front h1 root1 (downTo (length es)) (length es) nd) as (h3 & H3 & Hs & Hp & Hd);
    try done; [apply downTo_NoDup|].
  rewrite H2 in H3; injection H3 as <-. split; simpl; try done.
  - intros x. rewrite Hd. case_decide as Hx; subst.
    + rewrite lookup_insert_eq; simpl. unfold data; simpl. by rewrite Hret.
    + by rewrite lookup_insert_ne, Hdata.
  - intros d. destruct (kind e) eqn:Hk; simpl; [|done].
    destruct (Z.eqb_spec (id e) d) as [<-|Hne]; [by rewrite lookup_insert_eq|by rewrite lookup_insert_ne].
Qed.

(** *** Addresses and positions *)
Ltac at_index n :=
  match goal with |- context [(_ :: _) !! ?k] => replace k with n by lia end.
Ltac from_index n :=
  match goal with |- context [drop ?k (_ :: _)] => replace k with n by lia end.

Lemma firstRet_Some es d a :
  firstRet es d = Some a →
  (a < length es)%nat ∧ ∃ r, es !! (length es - 1 - a)%nat = Some r ∧ kind r = true ∧ id r = d.
Proof.
  induction es as [|e es IH]; cbn [firstRet length]; [done|]. destruct (kind e && (id e =? d)) eqn:Hk.
  - intros [= <-]. apply andb_true_iff in Hk as [Hk Hi]. split; [lia|].
    at_index 0%nat. exists e; split_and!; [done..|lia].
  - intros H. destruct (IH H) as (Hlt & r & Hr & ?). split; [lia|].
    at_index (S (length es - 1 - a)). by exists r.
Qed.

Lemma firstRet_is_Some es d j r :
  es !! j = Some r → kind r = true → id r = d → is_Some (firstRet es d).
Proof.
  revert j; induction es as [|e es IH]; intros j Hj Hk Hi; [done|]. simpl.
  destruct j as [|j]; simpl in Hj.
  - injection Hj as ->. rewrite Hk, Hi, Z.eqb_refl. by eexists.
  - destruct (kind e && (id e =? d)); [by eexists|]. by eapply IH.
Qed.

Lemma nodeData_lookup es a x :
  nodeData es a = Some x →
  (a < length es)%nat ∧ ∃ e, es !! (length es - 1 - a)%nat = Some e ∧
    x = (Some (value e), id e, if kind e then None else firstRet (drop (length es - a) es) (id e)).
Proof.
  induction es as [|e es IH]; cbn [nodeData length]; [done|]. case_decide as Ha.
  - intros [= <-]. subst a. split; [lia|].
    at_index 0%nat. from_index 1%nat. by exists e.
  - intros H. destruct (IH H) as (Hlt & e' & He' & ->). split; [lia|].
    at_index (S (length es - 1 - a)). from_index (S (length es - a)). by exists e'.
Qed.

Lemma nodeData_is_Some es a : (a < length es)%nat → is_Some (nodeData es a).
Proof.
  induction es as [|e es IH]; simpl; [lia|]. intros H. case_decide; [by eexists|]. apply IH. lia.
Qed.
End link.
