(* ===== verification/CheckerProps.v ===== *)
(** What the checker's verdict means for a history of operations. *)
From S2P Require Import Prelude Bitset Checker CheckerList CheckerSound CheckerLink.
From stdpp Require Import sorting.
#[local] Open Scope Z_scope.

Section history.
Context {V St : Type} (model : Model V St).
Implicit Types (history : list (Operation V)) (es : list (entry V)).

(** ** The specification *)

(** The model accepts the operations one after the other. *)
Fixpoint accepts (s : St) (ops : list (Operation V)) : Prop :=
  match ops with
  | [] => True
  | op :: ops => ∃ s', Step model s (Input op) (Output op) = (true, s') ∧ accepts s' ops
  end.

(** An order of all operations that the model accepts and in which no operation comes
    before one that had returned when it was called. *)
Definition linearizable history : Prop :=
  ∃ order : list nat, order ≡ₚ seq 0 (length history) ∧
    (∃ ops, mapM (history !!.) order = Some ops ∧ accepts (Init model) ops) ∧
    ∀ i j a b opa opb, order !! i = Some a → order !! j = Some b → (i < j)%nat →
      history !! a = Some opa → history !! b = Some opb → ¬ Return opb < Call opa.

(** [sort.Sort] by [Less] *)
Definition sortedBy es : Prop :=
  ∀ (i j : nat) a b, (i < j)%nat → es !! i = Some a → es !! j = Some b → Less b a = false.
Definition sorts (sort : list (entry V) → list (entry V)) : Prop :=
  ∀ l, sort l ≡ₚ l ∧ sortedBy (sort l).

(** ** The entries of a history *)
Definition callE (k : nat) (op : Operation V) : entry V :=
  mkEntry false (Input op) (Z.of_nat k) (Call op) (ClientId op).
Definition retE (k : nat) (op : Operation V) : entry V :=
  mkEntry true (Output op) (Z.of_nat k) (Return op) (ClientId op).

Lemma rawEntries_snoc history op :
  rawEntries (history ++ [op]) =
  rawEntries history ++ [callE (length history) op; retE (length history) op].
Proof.
  unfold rawEntries. set (f := λ s elem, _).
  assert (∀ h, (foldl f ([], 0) h).2 = Z.of_nat (length h)) as Hid.
  { induction h as [|o h IH] using rev_ind; [done|]. rewrite foldl_app, length_app; simpl.
    destruct (foldl f ([], 0) h); simpl in *. lia. }
  rewrite foldl_app; simpl. specialize (Hid history).
  destruct (foldl f ([], 0) history) as [l n]; simpl in *. by subst.
Qed.

Lemma rawEntries_in history e :
  e ∈ rawEntries history ↔ ∃ k op, history !! k = Some op ∧ (e = callE k op ∨ e = retE k op).
Proof.
  induction history as [|op history IH] using rev_ind.
  { split; [by intros ?%not_elem_of_nil|]. by intros (k & op & ? & _). }
  rewrite rawEntries_snoc, elem_of_app, IH. split.
  - intros [(k & o & Hk & He)|He].
    + exists k, o. split; [by apply lookup_app_l_Some|done].
    + exists (length history), op. split; [by apply list_lookup_middle|]. set_solver.
  - intros (k & o & [Hk|[Hk1 Hk2]]%lookup_app_Some & He); [left; eauto|right].
    apply list_lookup_singleton_Some in Hk2 as [Hk2 <-].
    replace k with (length history) in He by lia. set_solver.
Qed.

Lemma rawEntries_NoDup history : NoDup (rawEntries history).
Proof.
  induction history as [|op history IH] using rev_ind; [constructor|].
  rewrite rawEntries_snoc. apply NoDup_app. split_and!; [done| |].
  - intros e (k & o & Hk & He)%rawEntries_in Hin. apply lookup_lt_Some in Hk.
    repeat (apply elem_of_cons in Hin as [->|Hin]; [destruct He as [He|He]; inversion He; lia|]).
    by apply not_elem_of_nil in Hin.
  - constructor; [|by apply NoDup_singleton]. intros ?%list_elem_of_singleton. done.
Qed.

(** What the search needs of the sorted entries. *)
Record wfEntries history es : Prop := {
  we_in : ∀ i e, es !! i = Some e → ∃ k op, history !! k = Some op ∧ (e = callE k op ∨ e = retE k op);
  we_call : ∀ k op, history !! k = Some op → ∃ i j : nat, (i < j)%nat ∧
              es !! i = Some (callE k op) ∧ es !! j = Some (retE k op);
  we_inj : ∀ i j e, es !! i = Some e → es !! j = Some e → i = j;
  we_sorted : sortedBy es;
}.

Lemma makeEntries_wf sort history :
  sorts sort → Forall (λ op, Call op ≤ Return op) history →
  wfEntries history (makeEntries sort history).
Proof.
  intros Hsort Hcr. destruct (Hsort (rawEntries history)) as [Hp Hs]. fold (makeEntries sort history) in Hp, Hs.
  set (es := makeEntries sort history) in *.
  assert (NoDup es) as Hnd by (rewrite Hp; apply rawEntries_NoDup).
  assert (∀ e, e ∈ es ↔ ∃ k op, history !! k = Some op ∧ (e = callE k op ∨ e = retE k op)) as Hin.
  { intros e. rewrite Hp. apply rawEntries_in. }
  split; [|intros k op Hk| |done].
  - intros i e He. apply Hin. by eapply list_elem_of_lookup_2.
  - assert (callE k op ∈ es ∧ retE k op ∈ es) as [Hc Hr] by (split; apply Hin; eauto).
    apply list_elem_of_lookup in Hc as [i Hi]. apply list_elem_of_lookup in Hr as [j Hj].
    exists i, j. split_and!; try done.
    rewrite Forall_forall in Hcr. specialize (Hcr _ (list_elem_of_lookup_2 _ _ _ Hk)). simpl in Hcr.
    destruct (Nat.lt_trichotomy i j) as [?|[->|Hlt]]; [done|rewrite Hi in Hj; discriminate|].
    specialize (Hs _ _ _ _ Hlt Hj Hi). unfold Less in Hs; simpl in Hs.
    destruct (Z.eqb_spec (Call op) (Return op)); simpl in Hs; [done|]. apply Z.ltb_ge in Hs. lia.
  - intros i j e Hi Hj. by eapply NoDup_lookup.
Qed.

(** The index of an entry from its address. *)
Section addresses.
Context (history : list (Operation V)) (es : list (entry V)) (Hwf : wfEntries history es).
Abbreviation N := (length es).

Definition posOf (a : nat) : nat := N - 1 - a.
Definition matchOf (a : nat) : option nat := x ← nodeData es a; x.2.
Definition valueOf (a : nat) : option V := x ← nodeData es a; x.1.1.

Lemma nodeData_at a :
  (a < N)%nat → ∃ e, es !! posOf a = Some e ∧ valueOf a = Some (value e) ∧
    matchOf a = if kind e then None else firstRet (drop (N - a) es) (id e).
Proof.
  intros Ha. unfold valueOf, matchOf. destruct (nodeData_is_Some es a Ha) as [x Hx].
  destruct (nodeData_lookup es a x Hx) as (_ & e & He & ->). rewrite Hx; simpl. by exists e.
Qed.

Lemma matchOf_Some a m :
  (a < N)%nat → matchOf a = Some m →
  (m < a)%nat ∧ ∃ k op, history !! k = Some op ∧ es !! posOf a = Some (callE k op) ∧
    es !! posOf m = Some (retE k op).
Proof using Hwf.
  intros Ha Hm. destruct (nodeData_at a Ha) as (e & He & _ & Hmt). rewrite Hm in Hmt.
  destruct (kind e) eqn:Hk; [done|]. symmetry in Hmt.
  apply firstRet_Some in Hmt as (Hlt & r & Hr & Hkr & Hid). rewrite length_drop in *.
  split; [lia|]. rewrite lookup_drop in Hr.
  replace (N - a + (N - (N - a) - 1 - m))%nat with (posOf m) in Hr by (unfold posOf; lia).
  destruct (we_in _ _ Hwf _ _ He) as (k & op & Hop & [->| ->]); [|done].
  destruct (we_in _ _ Hwf _ _ Hr) as (k' & op' & Hop' & [->| ->]); [done|].
  simpl in Hid. assert (k' = k) as -> by lia. assert (op' = op) as -> by congruence.
  by exists k, op.
Qed.

Lemma matchOf_call a k op :
  (a < N)%nat → es !! posOf a = Some (callE k op) → is_Some (matchOf a).
Proof using Hwf.
  intros Ha He. destruct (nodeData_at a Ha) as (e & He' & _ & ->). rewrite He in He'.
  injection He' as <-. simpl.
  destruct (we_in _ _ Hwf _ _ He) as (k' & op' & Hop & [Heq|Heq]); [|done].
  assert (k = k') as -> by (inversion Heq; lia). rewrite Heq in He.
  destruct (we_call _ _ Hwf _ _ Hop) as (i & j & Hij & Hi & Hj).
  assert (i = posOf a) as -> by (by eapply (we_inj _ _ Hwf)).
  apply (firstRet_is_Some _ _ (j - (N - a)) (retE k' op')); [|done|done]. rewrite lookup_drop.
  replace (N - a + (j - (N - a)))%nat with j by (unfold posOf in Hij; lia). done.
Qed.

(** The hypotheses of the search. *)
Lemma matchOf_pair a m :
  a ∈ downTo N → matchOf a = Some m → m ∈ downTo N ∧ (posOf a < posOf m)%nat ∧ matchOf m = None.
Proof using Hwf.
  intros Ha%elem_of_downTo Hm. destruct (matchOf_Some a m Ha Hm) as (Hlt & k & op & _ & _ & Hr).
  split_and!; [apply elem_of_downTo; lia|unfold posOf; lia|].
  destruct (nodeData_at m ltac:(lia)) as (e & He & _ & ->). rewrite Hr in He. by injection He as <-.
Qed.

Lemma matchOf_inj a b m :
  a ∈ downTo N → b ∈ downTo N → matchOf a = Some m → matchOf b = Some m → a = b.
Proof using Hwf.
  intros Ha%elem_of_downTo Hb%elem_of_downTo Hma Hmb.
  destruct (matchOf_Some a m Ha Hma) as (_ & k & op & Hop & Hea & Hr).
  destruct (matchOf_Some b m Hb Hmb) as (_ & k' & op' & Hop' & Heb & Hr').
  rewrite Hr in Hr'. assert (k = k') as -> by (inversion Hr'; lia).
  rewrite Hop in Hop'. injection Hop' as <-.
  assert (posOf a = posOf b) by (by eapply (we_inj _ _ Hwf)). unfold posOf in *. lia.
Qed.

(** The operation a call node belongs to. *)
Definition opOf (a : nat) : nat := from_option (λ e, Z.to_nat (id e)) 0%nat (es !! posOf a).

Lemma opOf_call a :
  a ∈ downTo N → is_Some (matchOf a) →
  ∃ op m, history !! opOf a = Some op ∧ es !! posOf a = Some (callE (opOf a) op) ∧
    matchOf a = Some m ∧ es !! posOf m = Some (retE (opOf a) op) ∧ m ∈ downTo N ∧
    valueOf a = Some (Input op) ∧ valueOf m = Some (Output op).
Proof using Hwf.
  intros Ha [m Hm]. pose proof (proj1 (elem_of_downTo _ _) Ha) as Ha'.
  destruct (matchOf_Some a m Ha' Hm) as (Hlt & k & op & Hop & He & Hr).
  assert (opOf a = k) as Hk by (unfold opOf; rewrite He; simpl; lia).
  destruct (nodeData_at a Ha') as (e1 & He1 & Hv1 & _). rewrite He in He1. injection He1 as <-.
  destruct (nodeData_at m ltac:(lia)) as (e2 & He2 & Hv2 & _). rewrite Hr in He2. injection He2 as <-.
  rewrite Hk. exists op, m. split_and!; try done. apply elem_of_downTo. lia.
Qed.

Lemma opOf_inj a b :
  a ∈ downTo N → b ∈ downTo N → is_Some (matchOf a) → is_Some (matchOf b) →
  opOf a = opOf b → a = b.
Proof using Hwf.
  intros Ha Hb Hca Hcb Hk.
  destruct (opOf_call a Ha Hca) as (op & m & Hop & Hea & _).
  destruct (opOf_call b Hb Hcb) as (op' & m' & Hop' & Heb & _).
  rewrite Hk in Hea, Hop. rewrite Hop in Hop'. injection Hop' as <-.
  assert (posOf a = posOf b) by (by eapply (we_inj _ _ Hwf)).
  apply elem_of_downTo in Ha, Hb. unfold posOf in *. lia.
Qed.

Lemma runs_accepts calls : ∀ s s',
  Forall (λ a, a ∈ downTo N ∧ is_Some (matchOf a)) calls →
  runs model matchOf valueOf s calls s' →
  ∃ ops, mapM (history !!.) (map opOf calls) = Some ops ∧ accepts s ops.
Proof using Hwf.
  induction calls as [|a calls IH]; intros s s' Hall Hr; simpl; [by exists []|].
  apply Forall_cons in Hall as [[Ha Hc] Hall].
  destruct Hr as (m & inp & out & s1 & Hm & Hi & Ho & Hstep & Hr).
  destruct (opOf_call a Ha Hc) as (op & m' & Hop & _ & Hm' & _ & _ & Hvi & Hvo).
  assert (m' = m) as -> by congruence. rewrite Hi in Hvi. rewrite Ho in Hvo. simplify_eq.
  destruct (IH _ _ Hall Hr) as (ops & Hops & Hacc). rewrite Hop; simpl. rewrite Hops; simpl.
  exists (op :: ops). split; [done|]. by exists s1.
Qed.

(** An empty list of remaining nodes: the stack is a linearization. *)
Lemma found_linearization `{!EqDecision St} head h0 h calls st :
  NoDup (head :: downTo N) → seg h0 head (downTo N) →
  (∀ a, a ∈ downTo N → n_match <$> h0 !! a = Some (matchOf a)) →
  (∀ a, a ∈ downTo N → n_value <$> h0 !! a = Some (valueOf a)) →
  stk model h0 (downTo N) matchOf valueOf h [] calls st → linearizable history.
Proof using Hwf.
  intros Hnd Hseg Hdm Hdv Hst.
  destruct (stk_ok model head h0 (downTo N) posOf matchOf valueOf Hnd Hseg
              (downTo_sorted N N (Nat.le_refl _)) Hdm Hdv matchOf_pair matchOf_inj _ _ _ _ Hst)
    as [_ _ _ _ Hcov _ Hcal Hsta _ Htime Hrun].
  set (cs := calls.*1) in *.
  assert (Forall (λ a, a ∈ downTo N ∧ is_Some (matchOf a)) cs) as Hall.
  { apply Forall_forall. intros a Ha. apply (Hcal a Ha). }
  exists (map opOf cs). split_and!.
  - apply NoDup_Permutation.
    + apply NoDup_fmap_2_strong; [|done]. intros a b Ha Hb. apply opOf_inj; by apply Hcal.
    + apply NoDup_seq.
    + intros k. rewrite list_elem_of_fmap, elem_of_seq. split.
      * intros (a & -> & Ha). destruct (Hcal a Ha) as [Ha' Hc].
        destruct (opOf_call a Ha' Hc) as (op & _ & Hop & _). apply lookup_lt_Some in Hop. lia.
      * intros [_ Hk]. destruct (lookup_lt_is_Some_2 history k) as [op Hop]; [lia|].
        destruct (we_call _ _ Hwf _ _ Hop) as (i & j & _ & Hi & _).
        pose proof (lookup_lt_Some _ _ _ Hi) as HiN.
        assert (posOf (N - 1 - i) = i) as Hpos by (unfold posOf; lia).
        exists (N - 1 - i)%nat. split; [unfold opOf; rewrite Hpos, Hi; simpl; lia|].
        destruct (Hcov (N - 1 - i)%nat) as [Hin|[?|(e & He & Hm)]];
          [apply elem_of_downTo; lia|by apply not_elem_of_nil in Hin|done|].
        destruct (Hcal e He) as [He' Hc].
        destruct (opOf_call e He' Hc) as (op' & m & _ & _ & Hm' & Hr & _).
        rewrite Hm in Hm'. injection Hm' as <-. rewrite Hpos, Hi in Hr. done.
  - by eapply runs_accepts.
  - intros i j a b opa opb Hi Hj Hij Hoa Hob Hlt.
    apply list_lookup_fmap_Some_1 in Hi as (ea & -> & Hi). apply list_lookup_fmap_Some_1 in Hj as (eb & -> & Hj).
    destruct (Hcal ea (list_elem_of_lookup_2 _ _ _ Hi)) as [Ha Hca].
    destruct (Hcal eb (list_elem_of_lookup_2 _ _ _ Hj)) as [Hb Hcb].
    destruct (opOf_call ea Ha Hca) as (opa' & _ & Hoa' & Hea & _).
    destruct (opOf_call eb Hb Hcb) as (opb' & m & Hob' & _ & Hm & Hr & HmN & _).
    rewrite Hoa in Hoa'; injection Hoa' as <-. rewrite Hob in Hob'; injection Hob' as <-.
    destruct (matchOf_pair eb m Hb Hm) as (_ & _ & Hmn).
    assert (posOf m < posOf ea)%nat as Hpos.
    { destruct (Nat.lt_trichotomy (posOf m) (posOf ea)) as [?|[Heq|Hgt]]; [done| |].
      - rewrite Heq, Hea in Hr. done.
      - pose proof (we_sorted _ _ Hwf _ _ _ _ Hgt Hea Hr) as Hless. unfold Less in Hless; simpl in Hless.
        destruct (Z.eqb_spec (Return opb) (Call opa)); simpl in Hless; [lia|].
        apply Z.ltb_ge in Hless. lia. }
    destruct (Htime i ea m Hi HmN Hmn Hpos) as (j' & e' & Hj' & He' & Hm').
    destruct (Hcal e' (list_elem_of_lookup_2 _ _ _ He')) as [He'N _].
    assert (e' = eb) as -> by (by eapply matchOf_inj).
    assert (j' = j) by (by eapply NoDup_lookup). lia.
Qed.
End addresses.

(** ** The verdicts *)
Context `{!EqDecision St}.

Lemma checkSingle_sound sort history computePartial kill fuel lng :
  sorts sort → Forall (λ op, Call op ≤ Return op) history →
  checkSingle model (makeEntries sort history) computePartial kill fuel = Returned (true, lng) →
  linearizable history.
Proof.
  intros Hsort Hcr H. pose proof (makeEntries_wf sort history Hsort Hcr) as Hwf.
  set (es := makeEntries sort history) in *. unfold checkSingle in H.
  destruct (startCheck model es) as [[head s]|] eqn:Hst; [|done]. unfold startCheck in Hst.
  apply bind_Some in Hst as ([[[h1 root] mt] a] & Hmk & Hst).
  apply bind_Some in Hst as (l & _ & Hst). apply bind_Some in Hst as (lin & _ & Hst).
  apply bind_Some in Hst as (h0 & Hins & Hst). apply bind_Some in Hst as (lg & _ & [= <- <-]).
  destruct (makeLinkedEntries_built _ _ _ _ _ Hmk) as [-> Hroot Hseg Hdata _].
  set (hd := mkNode None None (-1) None None) in Hins.
  destruct (insert_front h1 root (downTo (length es)) (length es) hd) as (h0' & Hins' & Hseg0 & _ & Hd0);
    try done; [|apply downTo_NoDup|].
  { specialize (Hdata (length es)). rewrite nodeData_ge in Hdata by done. by destruct (h1 !! length es). }
  rewrite Hins in Hins'. injection Hins' as <-.
  assert (∀ x, x ∈ downTo (length es) → data <$> h0 !! x = nodeData es x) as Hd.
  { intros x Hx%elem_of_downTo. rewrite Hd0, lookup_insert_ne by lia. apply Hdata. }
  assert (∀ x, x ∈ downTo (length es) → n_match <$> h0 !! x = Some (matchOf es x) ∧
                                        n_value <$> h0 !! x = Some (valueOf es x)) as Hmv.
  { intros x Hx. unfold matchOf, valueOf. rewrite <-(Hd x Hx). apply elem_of_downTo in Hx.
    destruct (nodeData_is_Some es x Hx) as [y Hy]. rewrite <-Hd in Hy by (by apply elem_of_downTo).
    destruct (h0 !! x) as [nd|]; [|done]. done. }
  edestruct (checkLoop_sound model (length es) h0 (downTo (length es)) (posOf es) (matchOf es) (valueOf es)
              (downTo_NoDup _) Hseg0 (downTo_sorted _ _ (Nat.le_refl _)) (λ x Hx, proj1 (Hmv x Hx))
              (λ x Hx, proj2 (Hmv x Hx)) (matchOf_pair history es Hwf) (matchOf_inj history es Hwf)
              computePartial kill fuel 0) as (h & calls & st & Hstk); [|exact H|].
  { exists (downTo (length es)), [], (downTo (length es)); simpl. split_and!; [constructor|done|done|constructor]. }
  eapply (found_linearization history es Hwf (length es) h0); try done; [apply downTo_NoDup|..];
    intros x Hx; apply (Hmv x Hx).
Qed.

(** [collect] says yes only after a yes from every goroutine. *)
Lemma collect_ok results computeInfo arrivals : ∀ ok count,
  collect results computeInfo arrivals ok count = Returned (true, false) →
  ok = true ∧ ∃ pre, map Some pre `prefix_of` arrivals ∧ (length results ≤ count + length pre)%nat ∧
    ∀ i, i ∈ pre → results !! i = Some (Returned true).
Proof.
  induction arrivals as [|[i|] arrivals IH]; intros ok count H; [done| |done]. cbn [collect] in H.
  destruct (results !! i) as [[b| |]|] eqn:Hi; try done. case_if_in H.
  { injection H as H. exfalso. destruct ok, b; simpl in *; naive_solver. }
  destruct (Nat.leb_spec (length results) (S count)) as [Hle|_].
  - injection H as H. destruct ok, b; try discriminate. split; [done|]. exists [i]. split_and!.
    + simpl. apply prefix_cons, prefix_nil.
    + simpl. lia.
    + by intros j ->%list_elem_of_singleton.
  - destruct (IH _ _ H) as (Hok & pre & Hp & Hl & Hall). destruct ok, b; try done.
    split; [done|]. exists (i :: pre). split_and!.
    + simpl. by apply prefix_cons.
    + simpl. lia.
    + intros j [->|Hj]%elem_of_cons; auto.
Qed.

Lemma all_arrived (pre : list nat) n :
  NoDup pre → (∀ i, i ∈ pre → (i < n)%nat) → (n ≤ length pre)%nat → ∀ i, (i < n)%nat → i ∈ pre.
Proof.
  intros Hnd Hlt Hlen i Hi.
  assert (pre ≡ₚ seq 0 n) as Hp.
  { apply submseteq_length_Permutation; [|by rewrite length_seq].
    apply NoDup_submseteq; [done|]. intros j Hj. apply elem_of_seq. specialize (Hlt j Hj). lia. }
  rewrite Hp. apply elem_of_seq. lia.
Qed.

(** Soundness of the checker.  When [CheckOperations] accepts a history, in whatever
    order the goroutines of the partitions finish, every partition has a sequential order
    that the model allows and that respects real time.  The search is the one of the code:
    a stack of lifted calls over a doubly linked list of nodes, with the cache. *)
Theorem CheckOperations_sound sort history kills fuel arrivals :
  sorts sort → NoDup arrivals →
  let partitions := default NoPartition (Partition model) history in
  Forall (Forall (λ op, Call op ≤ Return op)) partitions →
  CheckOperations model sort history kills fuel arrivals = Returned true →
  Forall linearizable partitions.
Proof.
  intros Hsort Hnd partitions Hcr H. unfold CheckOperations, checkOperations, checkParallel in H.
  simpl in H. fold partitions in H.
  set (results := imap _ _) in H.
  destruct (collect results false arrivals true 0) as [[ok to]| |] eqn:Hc; try done.
  assert (ok = true ∧ to = false) as [-> ->] by (destruct ok, to; simpl in H; done).
  destruct (collect_ok _ _ _ _ _ Hc) as (_ & pre & Hp & Hl & Hall).
  assert (length results = length partitions) as Hlr by (unfold results; by rewrite length_imap, length_map).
  assert (NoDup pre) as Hndp.
  { destruct Hp as [rest ->]. apply NoDup_app in Hnd as (Hnd & _). by apply NoDup_fmap_1 in Hnd. }
  apply Forall_lookup. intros i part Hi.
  assert (i ∈ pre) as Hin.
  { apply (all_arrived pre (length partitions)); [done| |lia|by eapply lookup_lt_Some].
    intros j Hj%Hall%lookup_lt_Some. lia. }
  specialize (Hall i Hin). unfold results in Hall.
  rewrite list_lookup_imap, list_lookup_fmap, Hi in Hall; simpl in Hall.
  destruct (checkSingle model (makeEntries sort part) false (kills i) fuel) as [[b l]| |] eqn:Hs;
    try done. injection Hall as ->.
  eapply checkSingle_sound; [done| |done].
  rewrite Forall_lookup in Hcr. by eapply Hcr.
Qed.

(** With a partition function that gives an empty history no partition and without a
    timeout, the verdict never comes: no goroutine is started, so nothing arrives. *)
Theorem empty_history_blocks sort kills fuel arrivals :
  default NoPartition (Partition model) [] = [] → (∀ i, ¬ (Some i ∈ arrivals)) → ¬ (None ∈ arrivals) →
  CheckOperations model sort [] kills fuel arrivals = Running.
Proof.
  intros Hp Hno Hnt. unfold CheckOperations, checkOperations, checkParallel. simpl. rewrite Hp; simpl.
  destruct arrivals as [|[i|] arrivals]; simpl; [done| |].
  - destruct (Hno i). by left.
  - destruct Hnt. by left.
Qed.
End history.
