(* ===== verification/CheckerSearch.v ===== *)
(** Completeness and termination of the search of [checkSingle].  The search is depth first
    with a cache: what is in the cache is a configuration on the current stack or one that
    was explored in vain, and every configuration is explored within a number of iterations
    that only depends on the length of its list. *)
From S2P Require Import Prelude Bitset Checker CheckerList CheckerSound.
From stdpp Require Import sorting.
#[local] Open Scope Z_scope.

Lemma sublist_filter_in {A} `{EqDecision A} (l l0 : list A) :
  NoDup l0 → l `sublist_of` l0 → l = filter (λ a, a ∈ l) l0.
Proof.
  intros Hnd Hs. induction Hs as [|x l l0 Hs IH|x l l0 Hs IH]; [done|..];
    apply NoDup_cons in Hnd as [Hx Hnd].
  - rewrite filter_cons_True by (by left). f_equal. rewrite (IH Hnd) at 1.
    clear IH Hs. induction l0 as [|y l0 IH]; [done|].
    apply not_elem_of_cons in Hx as [Hxy Hx]. apply NoDup_cons in Hnd as [_ Hnd].
    rewrite !filter_cons, (IH Hx Hnd). repeat case_decide; set_solver.
  - rewrite filter_cons_False; [by apply IH|]. intros ?. apply Hx. by eapply elem_of_sublist.
Qed.

(** A sublist of a list without duplicates is given by its elements. *)
Lemma sublist_ext {A} `{EqDecision A} (l1 l2 l0 : list A) :
  NoDup l0 → l1 `sublist_of` l0 → l2 `sublist_of` l0 → (∀ a, a ∈ l1 ↔ a ∈ l2) → l1 = l2.
Proof.
  intros Hnd H1 H2 Heq. rewrite (sublist_filter_in l1 l0), (sublist_filter_in l2 l0) by done.
  by apply list_filter_iff.
Qed.

(** The split of a list at an element is unique, and so is what is left without two. *)
Lemma split_at_unique {A} (l1 l2 k1 k2 : list A) x :
  x ∉ l1 → x ∉ k1 → l1 ++ x :: k1 = l2 ++ x :: k2 → l1 = l2 ∧ k1 = k2.
Proof.
  revert l2; induction l1 as [|a l1 IH]; intros [|b l2] H1 Hk Heq; simpl in *; simplify_eq; [done|..].
  - destruct Hk. set_solver.
  - destruct H1. by left.
  - destruct (IH l2) as [-> ->]; [set_solver|done|done|done].
Qed.

Lemma split_two_unique {A} (L l1 l2 b1 b2 c1 c2 : list A) e m :
  NoDup L → L = l1 ++ e :: b1 ++ m :: c1 → L = l2 ++ e :: b2 ++ m :: c2 →
  l1 ++ b1 ++ c1 = l2 ++ b2 ++ c2.
Proof.
  intros Hnd -> H. apply NoDup_app in Hnd as (_ & Hd & Hnd). apply NoDup_cons in Hnd as [He Hnd].
  destruct (split_at_unique _ _ _ _ _ (λ Hin, Hd e Hin ltac:(by left)) He H) as [-> H'].
  apply NoDup_app in Hnd as (_ & Hd2 & Hnd2). apply NoDup_cons in Hnd2 as [Hm _].
  by destruct (split_at_unique _ _ _ _ _ (λ Hin, Hd2 m Hin ltac:(by left)) Hm H') as [-> ->].
Qed.

Section search.
Context {V St : Type} `{!EqDecision St} (model : Model V St).
Context (head : nat) (h0 : gmap nat (node V)) (L0 : list nat) (pos : nat → nat).
Context (mt : nat → option nat) (val : nat → option V).
Context (L0_nodup : NoDup (head :: L0)) (L0_seg : seg h0 head L0).
Context (L0_sorted : StronglySorted (λ a b, (pos a < pos b)%nat) L0).
Context (L0_match : ∀ a, a ∈ L0 → n_match <$> h0 !! a = Some (mt a)).
Context (L0_value : ∀ a, a ∈ L0 → n_value <$> h0 !! a = Some (val a)).
Context (L0_pair : ∀ a m, a ∈ L0 → mt a = Some m → m ∈ L0 ∧ (pos a < pos m)%nat ∧ mt m = None).
Context (L0_inj : ∀ a b m, a ∈ L0 → b ∈ L0 → mt a = Some m → mt b = Some m → a = b).

(** The ids of the calls are positions of the bitset with [nb] words; every node has a
    value; [longest] has [ln] places. *)
Context (idf : nat → Z) (nb ln : Z).
Context (L0_id : ∀ a, a ∈ L0 → n_id <$> h0 !! a = Some (idf a)).
Context (L0_range : ∀ a, a ∈ L0 → is_Some (mt a) → 0 ≤ idf a < 64 * nb ∧ idf a < ln).
Context (L0_idinj : ∀ a b, a ∈ L0 → b ∈ L0 → is_Some (mt a) → is_Some (mt b) → idf a = idf b → a = b).
Context (L0_hasval : ∀ a, a ∈ L0 → is_Some (val a)).

(** States that [Equal] identifies have the same steps. *)
Context (Equal_step : ∀ s1 s2 i o, modelEqual model s1 s2 = true →
  (Step model s1 i o).1 = (Step model s2 i o).1 ∧
  modelEqual model (Step model s1 i o).2 (Step model s2 i o).2 = true).

Context (computePartial : bool).
Abbreviation isCall := (isCall mt).
Abbreviation stk := (stk model h0 L0 mt val).
Abbreviation stkOk := (stkOk model head h0 L0 pos mt val).
Abbreviation checkLoop := (checkLoop model head computePartial (λ _, false)).
Abbreviation checkStep := (checkStep model head computePartial false).
Abbreviation CState := (CState (V := V) (St := St)).
Abbreviation cache := (gmap Z (list (cacheEntry (St := St)))).

(** ** The specification: the nodes [L] can be completed from the state [s]. *)
Inductive viable : list nat → St → Prop :=
  | viable_done s : viable [] s
  | viable_lift A e B m C s s' inp out :
      mt e = Some m → Forall isCall A → val e = Some inp → val m = Some out →
      Step model s inp out = (true, s') → viable (A ++ B ++ C) s' →
      viable (A ++ e :: B ++ m :: C) s.

Lemma viable_equal L s1 s2 : viable L s1 → modelEqual model s1 s2 = true → viable L s2.
Proof using All.
  intros Hv. revert s2. induction Hv as [|A e B m C s s' inp out Hm HA Hi Ho Hs Hv IH];
    intros s2 Heq; [constructor|].
  destruct (Equal_step s s2 inp out Heq) as [H1 H2]. rewrite Hs in H1, H2; simpl in *.
  destruct (Step model s2 inp out) as [b s2'] eqn:Hs2; simpl in *. subst b.
  econstructor; eauto.
Qed.

(** No continuation that lifts the call [e] next succeeds. *)
Definition childDead (L : list nat) (s : St) (e : nat) : Prop :=
  ∀ A B m C inp out s', L = A ++ e :: B ++ m :: C → mt e = Some m →
    val e = Some inp → val m = Some out → Step model s inp out = (true, s') →
    ¬ viable (A ++ B ++ C) s'.

(** When the calls before the first return are dead, so is the configuration. *)
Lemma front_dead L s pre r suf :
  L = pre ++ r :: suf → mt r = None → (∀ e, e ∈ pre → childDead L s e) → ¬ viable L s.
Proof using All.
  intros HL Hr Hd Hv. destruct Hv as [|A e B m C s s' inp out Hm HA Hi Ho Hs Hv]; [by destruct pre|].
  assert (e ∈ pre) as He; [|by apply (Hd e He A B m C inp out s')].
  apply app_eq_inv in HL as [(k & HA' & Hk)|(k & Hpre & Hk)].
  - destruct k as [|x k].
    + simpl in Hk. injection Hk as <- _. congruence.
    + injection Hk as -> _. rewrite HA' in HA. apply Forall_app in HA as [_ HA].
      apply Forall_cons in HA as [[? ?] _]. congruence.
  - destruct k as [|x k]; simpl in Hk; injection Hk as -> _; [congruence|].
    rewrite Hpre. set_solver.
Qed.

(** ** Bit sets and remaining lists of a stack of calls *)
Definition bitsFor (b : list Z) (es : list nat) : Prop :=
  Bitset.wf b ∧ len b = nb ∧
  ∀ e, e ∈ L0 → isCall e → Bitset.get b (idf e) = Some (bool_decide (e ∈ es)).

Definition remaining (es L : list nat) : Prop :=
  (∀ e, e ∈ es → e ∈ L0 ∧ isCall e) ∧ L `sublist_of` L0 ∧
  ∀ a, a ∈ L0 → a ∈ L ↔ (a ∉ es) ∧ ∀ e, e ∈ es → mt e ≠ Some a.

Lemma call_inRange b es e : bitsFor b es → e ∈ L0 → isCall e → Bitset.inRange b (idf e).
Proof using All.
  intros (_ & Hl & _) He Hc. unfold Bitset.inRange. rewrite Hl. by apply L0_range.
Qed.

Lemma bitsFor_add b es e :
  bitsFor b es → e ∈ L0 → isCall e →
  ∃ b', Bitset.set b (idf e) = Some b' ∧ bitsFor b' (es ++ [e]).
Proof using All.
  intros Hb He Hc. pose proof (call_inRange _ _ _ Hb He Hc) as Hr. pose proof Hb as (Hw & Hl & Hg).
  destruct (Bitset.set_spec b (idf e) Hw Hr) as (b' & Hs & Hw' & Hl' & Hg').
  exists b'. split; [done|]. split_and!; [done|congruence|]. intros x Hx Hcx.
  rewrite Hg' by (by eapply call_inRange). destruct (Z.eqb_spec (idf x) (idf e)) as [Heq|Hne].
  - assert (x = e) as -> by (by apply L0_idinj). rewrite bool_decide_true; [done|set_solver].
  - rewrite Hg by done. f_equal. apply bool_decide_ext. rewrite elem_of_app, list_elem_of_singleton.
    naive_solver.
Qed.

Lemma bitsFor_remove b es e :
  bitsFor b (es ++ [e]) → e ∈ L0 → isCall e → e ∉ es →
  ∃ b', Bitset.clear b (idf e) = Some b' ∧ bitsFor b' es.
Proof using All.
  intros Hb He Hc Hn. pose proof (call_inRange _ _ _ Hb He Hc) as Hr. pose proof Hb as (Hw & Hl & Hg).
  destruct (Bitset.clear_spec b (idf e) Hw Hr) as (b' & Hs & Hw' & Hl' & Hg').
  exists b'. split; [done|]. split_and!; [done|congruence|]. intros x Hx Hcx.
  rewrite Hg' by (by eapply call_inRange). destruct (Z.eqb_spec (idf x) (idf e)) as [Heq|Hne].
  - assert (x = e) as -> by (by apply L0_idinj). by rewrite bool_decide_false.
  - rewrite Hg by done. f_equal. apply bool_decide_ext. rewrite elem_of_app, list_elem_of_singleton.
    naive_solver.
Qed.

(** The bits determine the lifted calls. *)
Lemma bitsFor_same b es es' :
  bitsFor b es → bitsFor b es' → (∀ e, e ∈ es → e ∈ L0 ∧ isCall e) →
  (∀ e, e ∈ es' → e ∈ L0 ∧ isCall e) → ∀ e, e ∈ es ↔ e ∈ es'.
Proof using All.
  intros (_ & _ & H1) (_ & _ & H2) Hc1 Hc2.
  assert (∀ e, e ∈ L0 → isCall e → (e ∈ es ↔ e ∈ es')) as Hx.
  { intros e He Hc. specialize (H1 e He Hc). specialize (H2 e He Hc). rewrite H1 in H2.
    repeat case_bool_decide; naive_solver. }
  intros e. split; intros He; [destruct (Hc1 e He)|destruct (Hc2 e He)]; by apply Hx.
Qed.

Lemma remaining_same es es' L L' :
  remaining es L → remaining es' L' → (∀ e, e ∈ es ↔ e ∈ es') → L = L'.
Proof using All.
  intros (_ & Hs & Hin) (_ & Hs' & Hin') Heq. apply NoDup_cons in L0_nodup as [_ Hnd].
  apply (sublist_ext L L' L0); [done..|]. intros a. split; intros Ha;
    (assert (a ∈ L0) as Ha0 by (by eapply elem_of_sublist)).
  - apply Hin'; [done|]. apply Hin in Ha as [H1 H2]; [|done]. split; [by rewrite <-Heq|].
    intros e He. apply H2. by apply Heq.
  - apply Hin; [done|]. apply Hin' in Ha as [H1 H2]; [|done]. split; [by rewrite Heq|].
    intros e He. apply H2. by apply Heq.
Qed.

Lemma stk_remaining h L calls s : stk h L calls s → remaining calls.*1 L.
Proof using All.
  intros Hst. destruct (stk_ok model head h0 L0 pos mt val L0_nodup L0_seg L0_sorted L0_match
    L0_value L0_pair L0_inj _ _ _ _ Hst) as [Hnd _ _ Hsub Hcov Hlif Hcal _ Hclo _ _].
  split_and!; [done|done|]. intros a Ha. split.
  - intros HaL. split.
    + intros He. destruct (Hcal a He) as [_ [m Hm]]. by destruct (Hlif a m He Hm).
    + intros e He Hm. by destruct (Hlif e a He Hm).
  - intros [H1 H2]. destruct (Hcov a Ha) as [?|[?|(e & He & Hm)]]; [done|done|]. by destruct (H2 e He).
Qed.

(** ** The cache *)
Definition inCache (c : cache) (ce : cacheEntry (St := St)) : Prop :=
  ∃ k l, c !! k = Some l ∧ ce ∈ l.

(** Explored in vain, or a part of the stack [es]. *)
Definition dead (ce : cacheEntry (St := St)) : Prop :=
  ∃ es L, remaining es L ∧ bitsFor (ce_linearized ce) es ∧ ¬ viable L (ce_state ce).
Definition open (es : list nat) (ce : cacheEntry (St := St)) : Prop :=
  ∃ es', es' ⊆ es ∧ bitsFor (ce_linearized ce) es'.

Definition cacheOk (es : list nat) (c : cache) : Prop := ∀ ce, inCache c ce → dead ce ∨ open es ce.
Definition grown (c c' : cache) : Prop := ∀ ce, inCache c' ce → inCache c ce ∨ dead ce.

Lemma grown_trans c1 c2 c3 : grown c1 c2 → grown c2 c3 → grown c1 c3.
Proof. intros H1 H2 ce [?|?]%H2; [by apply H1|by right]. Qed.

Lemma cacheOk_grown es c c' : cacheOk es c → grown c c' → cacheOk es c'.
Proof. intros H1 H2 ce [?|?]%H2; [by apply H1|by left]. Qed.

(** A hit in the cache means that the configuration was explored in vain. *)
Lemma cache_hit c es e L b s :
  cacheOk es c → remaining (es ++ [e]) L → e ∉ es → bitsFor b (es ++ [e]) →
  cacheContains model c (mkCacheEntry b s) = true → ¬ viable L s.
Proof using All.
  intros Hok Hrem He Hb Hc Hv. unfold cacheContains in Hc.
  apply existsb_exists in Hc as (ce & Hin & [Hbits Hst]%andb_true_iff). simpl in *.
  apply Bitset.equals_spec in Hbits.
  assert (inCache c ce) as Hce.
  { destruct (c !! Bitset.hash b) as [l|] eqn:Hl; [|done].
    exists (Bitset.hash b), l. split; [done|by apply list_elem_of_In]. }
  assert (∀ es', (∀ x, x ∈ es' → x ∈ L0 ∧ isCall x) → bitsFor (ce_linearized ce) es' →
    ∀ x, x ∈ es ++ [e] ↔ x ∈ es') as Hsame.
  { intros es' Hes' Hb'. rewrite <-Hbits in Hb'. by apply (bitsFor_same b); [..|apply Hrem|]. }
  destruct (Hok ce Hce) as [(es' & L' & Hrem' & Hb' & Hnv)|(es' & Hsub & Hb')].
  - assert (L = L') as ->.
    { eapply remaining_same; [done|done|]. apply Hsame; [apply Hrem'|done]. }
    apply Hnv. by eapply viable_equal.
  - apply He, Hsub, Hsame; [|done|set_solver].
    intros x Hx. apply Hrem. apply Hsub in Hx. set_solver.
Qed.

Lemma inCache_add c b s ce :
  inCache (<[Bitset.hash b := default [] (c !! Bitset.hash b) ++ [mkCacheEntry b s]]> c) ce →
  inCache c ce ∨ ce = mkCacheEntry b s.
Proof.
  intros (k & l & Hk & Hin). apply lookup_insert_Some in Hk as [[<- <-]|[_ Hk]]; [|left; by exists k, l].
  apply elem_of_app in Hin as [Hin| ->%list_elem_of_singleton]; [|by right].
  left. destruct (c !! Bitset.hash b) as [l'|] eqn:Hl; [|by apply not_elem_of_nil in Hin].
  by exists (Bitset.hash b), l'.
Qed.

(** ** The iterations of the loop *)
Record atNode (s : CState) (L pre suf : list nat) : Prop := {
  an_stk : stk (c_mem s) L (c_calls s) (c_state s);
  an_split : L = pre ++ suf;
  an_entry : c_entry s = List.hd_error suf;
  an_pre : Forall isCall pre;
  an_bits : bitsFor (c_linearized s) (c_calls s).*1;
  an_longest : len (c_longest s) = ln;
}.

Definition skipTo (s : CState) (n : option nat) : CState :=
  mkCState (c_mem s) n (c_linearized s) (c_cache s) (c_calls s) (c_state s) (c_longest s).

Lemma atNode_ok s L pre suf : atNode s L pre suf → stkOk (c_mem s) L (c_calls s).*1 (c_state s).
Proof using All.
  intros Ha. by apply (stk_ok model head h0 L0 pos mt val L0_nodup L0_seg L0_sorted L0_match
    L0_value L0_pair L0_inj _ _ _ _ (an_stk _ _ _ _ Ha)).
Qed.

(** The data of a node does not change during the search. *)
Lemma stk_node h L calls s a :
  stk h L calls s → a ∈ L0 →
  ∃ nd, h !! a = Some nd ∧ n_match nd = mt a ∧ n_value nd = val a ∧ n_id nd = idf a.
Proof using All.
  intros Hst Ha. destruct (ok_data _ _ _ _ _ _ _ _ _ _ _ (stk_ok model head h0 L0 pos mt val L0_nodup
    L0_seg L0_sorted L0_match L0_value L0_pair L0_inj _ _ _ _ Hst)) as (Hm & Hi & Hv).
  specialize (Hm a). specialize (Hi a). specialize (Hv a).
  rewrite L0_match in Hm by done. rewrite L0_id in Hi by done. rewrite L0_value in Hv by done.
  destruct (h !! a) as [nd|]; [|done]. exists nd. split; [done|].
  injection Hm as ->. injection Hi as ->. by injection Hv as ->.
Qed.

Lemma callIds_total h L calls s :
  stk h L calls s → ∃ ids, callIds h calls = Some ids ∧ Forall (λ i, 0 ≤ i < ln) ids.
Proof using All.
  intros Hst. pose proof (stk_remaining _ _ _ _ Hst) as (Hcal & _).
  assert (∀ cs : list (nat * St), (∀ e, e ∈ cs.*1 → e ∈ L0 ∧ isCall e) →
    ∃ ids, callIds h cs = Some ids ∧ Forall (λ i, 0 ≤ i < ln) ids) as H; [|by apply H].
  induction cs as [|[e st] cs IH]; intros Hc; [by exists []|]. unfold callIds; simpl.
  destruct (Hc e) as [He He']; [by left|].
  destruct (stk_node _ _ _ _ e Hst He) as (nd & Hnd & _ & _ & Hid). rewrite Hnd; simpl.
  destruct IH as (ids & Hids & Hall); [intros x Hx; apply Hc; by right|].
  unfold callIds in Hids. rewrite Hids; simpl. eexists; split; [done|]. constructor; [|done].
  rewrite Hid. destruct (L0_range e He He') as [[? ?] ?]. lia.
Qed.

Lemma updateLongest_total k cl sq ids : ∀ longest,
  Forall (λ i, 0 ≤ i < len longest) ids →
  ∃ longest', updateLongest k cl sq ids longest = Some longest' ∧ len longest' = len longest.
Proof using Type.
  induction ids as [|i ids IH]; intros longest Hall; simpl; [by exists longest|].
  apply Forall_cons in Hall as [Hi Hall].
  destruct (go_index_lt_Some longest i Hi) as [old Hold]. rewrite Hold; simpl.
  assert (∃ l1, match old with
                | None => longest.[i <~ Some (k, sq)]
                | Some (_, o) => if cl >? len o then longest.[i <~ Some (k, sq)] else Some longest
                end = Some l1 ∧ len l1 = len longest) as (l1 & -> & Hl1).
  { destruct old as [[? o]|]; [destruct (cl >? len o)|]; rewrite ?go_store_Some by done;
      eexists; (split; [reflexivity|]); by rewrite ?len_insert. }
  simpl. destruct (IH l1) as (l2 & -> & Hl2).
  - rewrite Hl1. done.
  - eexists; split; [done|]. congruence.
Qed.

Lemma head_node h L calls s :
  stk h L calls s → ∃ hd, h !! head = Some hd ∧ n_next hd = List.hd_error L.
Proof using All.
  intros Hst. pose proof (ok_seg _ _ _ _ _ _ _ _ _ _ _ (stk_ok model head h0 L0 pos mt val L0_nodup
    L0_seg L0_sorted L0_match L0_value L0_pair L0_inj _ _ _ _ Hst)) as Hs.
  pose proof (seg_first _ _ _ Hs) as Hf. unfold nextOf in Hf.
  destruct (h !! head) as [hd|]; [|done]. injection Hf as Hf. eauto.
Qed.

Lemma step_empty s k :
  atNode s [] [] [] → ∃ lng, checkStep k s = Some (inr (true, lng)).
Proof using All.
  intros Ha. destruct (head_node _ _ _ _ (an_stk _ _ _ _ Ha)) as (hd & Hhd & Hn).
  destruct (callIds_total _ _ _ _ (an_stk _ _ _ _ Ha)) as (ids & Hids & _).
  unfold Checker.checkStep. rewrite Hhd; cbn [mbind option_bind]. rewrite bool_decide_true by done.
  rewrite Hids; cbn [mbind option_bind]. eauto.
Qed.

(** What every iteration on a non-empty list starts with. *)
Lemma step_node s L pre a suf :
  atNode s L pre (a :: suf) →
  ∃ hd nd, c_mem s !! head = Some hd ∧ bool_decide (n_next hd = None) = false ∧
    c_entry s = Some a ∧ c_mem s !! a = Some nd ∧ a ∈ L ∧ a ∈ L0 ∧
    n_match nd = mt a ∧ n_value nd = val a ∧ n_id nd = idf a ∧ n_next nd = List.hd_error suf.
Proof using All.
  intros Ha. destruct (head_node _ _ _ _ (an_stk _ _ _ _ Ha)) as (hd & Hhd & Hn).
  pose proof (an_split _ _ _ _ Ha) as HL. pose proof (atNode_ok _ _ _ _ Ha) as Hok.
  assert (a ∈ L) as HaL by (rewrite HL; set_solver).
  assert (a ∈ L0) as Ha0 by (eapply elem_of_sublist; [exact HaL|apply Hok]).
  destruct (stk_node _ _ _ _ a (an_stk _ _ _ _ Ha) Ha0) as (nd & Hnd & Hm & Hv & Hi).
  pose proof (seg_next _ _ _ _ _ _ (ok_seg _ _ _ _ _ _ _ _ _ _ _ Hok) HL) as Hx.
  unfold nextOf in Hx. rewrite Hnd in Hx. injection Hx as Hx.
  exists hd, nd. split_and!; try done.
  - apply bool_decide_eq_false. rewrite Hn, HL. by destruct pre.
  - by rewrite (an_entry _ _ _ _ Ha).
Qed.

Lemma step_bottom s k L pre r suf :
  atNode s L pre (r :: suf) → mt r = None → c_calls s = [] →
  ∃ lng, checkStep k s = Some (inr (false, lng)).
Proof using All.
  intros Ha Hr Hc. destruct (step_node s _ _ _ _ Ha) as (hd & nd & Hhd & Hnn & He & Hnd & _ & _ & Hm & _).
  unfold Checker.checkStep. rewrite Hhd; cbn [mbind option_bind]. rewrite Hnn, He; cbn [mbind option_bind].
  rewrite Hnd; cbn [mbind option_bind]. rewrite Hm, Hr, Hc; simpl. eauto.
Qed.

(** Backtracking restores the memory, the list and the state before the last call. *)
Lemma step_pop s k L pre r suf h A e B m C calls st :
  atNode s L pre (r :: suf) → mt r = None → c_calls s = calls ++ [(e, st)] →
  stk h (A ++ e :: B ++ m :: C) calls st → mt e = Some m → lift h e = Some (c_mem s) →
  ∃ b lng, checkStep k s = Some (inl (mkCState h (List.hd_error (B ++ m :: C)) b (c_cache s) calls st lng)) ∧
    bitsFor b calls.*1 ∧ len lng = ln.
Proof using All.
  intros Ha Hr Hc Hst Hme Hlift.
  destruct (step_node s _ _ _ _ Ha) as (hd & nd & Hhd & Hnn & He & Hnd & _ & _ & Hm & _).
  pose proof (stk_ok model head h0 L0 pos mt val L0_nodup L0_seg L0_sorted L0_match
    L0_value L0_pair L0_inj _ _ _ _ Hst) as Hok.
  assert (e ∈ L0) as He0 by (eapply elem_of_sublist; [|apply Hok]; set_solver).
  destruct (stk_node _ _ _ _ e (an_stk _ _ _ _ Ha) He0) as (en & Hen & _ & _ & Hei).
  destruct (stk_node _ _ _ _ e Hst He0) as (en' & Hen' & Hmt' & _ & _).
  destruct (lift_spec h head A e B m C) as (h3 & Hl3 & _ & Hun & _);
    [apply Hok|apply Hok|by rewrite Hen'; simpl; rewrite Hmt', Hme|].
  assert (h3 = c_mem s) as -> by congruence.
  pose proof (an_bits _ _ _ _ Ha) as Hb. rewrite Hc, fmap_app in Hb; simpl in Hb.
  assert (e ∉ calls.*1) as Hfresh.
  { intros Hin. destruct (ok_lifted _ _ _ _ _ _ _ _ _ _ _ Hok e m Hin Hme). set_solver. }
  destruct (bitsFor_remove _ _ _ Hb He0 ltac:(by eexists) Hfresh) as (b & Hclr & Hb').
  destruct (callIds_total _ _ _ _ (an_stk _ _ _ _ Ha)) as (ids & Hids & Hrange).
  destruct (updateLongest_total k (len (c_calls s)) ids ids (c_longest s)) as (lng' & Hul & Hln).
  { by rewrite (an_longest _ _ _ _ Ha). }
  pose proof (seg_next _ _ _ _ _ _ (ok_seg _ _ _ _ _ _ _ _ _ _ _ Hok) eq_refl) as Hx.
  unfold nextOf in Hx. rewrite Hen' in Hx. injection Hx as Hx.
  exists b, (if computePartial then lng' else c_longest s). split_and!; [|done|].
  - unfold Checker.checkStep. rewrite Hhd; cbn [mbind option_bind]. rewrite Hnn, He; cbn [mbind option_bind].
    rewrite Hnd; cbn [mbind option_bind]. rewrite Hm, Hr. rewrite Hc at 1. rewrite last_snoc.
    assert ((if computePartial then ids ← callIds (c_mem s) (c_calls s);
              updateLongest k (len (c_calls s)) ids ids (c_longest s) else Some (c_longest s)) =
            Some (if computePartial then lng' else c_longest s)) as ->.
    { destruct computePartial; [|done]. rewrite Hids. cbn [mbind option_bind]. by rewrite Hul. }
    cbn [mbind option_bind]. rewrite Hen; cbn [mbind option_bind]. rewrite Hei, Hclr; cbn [mbind option_bind].
    rewrite Hun; cbn [mbind option_bind]. rewrite Hen'; cbn [mbind option_bind].
    by rewrite Hx, Hc, removelast_last.
  - destruct computePartial; [rewrite Hln|]; apply Ha.
Qed.

(** A call: skipped, or pushed on the stack. *)
Definition pushed (s : CState) (h' : gmap nat (node V)) (L : list nat) (b : list Z) (e : nat)
    (s' : St) : CState :=
  mkCState h' (List.hd_error L) b
    (<[Bitset.hash b := default [] (c_cache s !! Bitset.hash b) ++ [mkCacheEntry b s']]> (c_cache s))
    (c_calls s ++ [(e, c_state s)]) s' (c_longest s).

Lemma step_call s k L pre e B m C :
  atNode s L pre (e :: B ++ m :: C) → mt e = Some m →
  ∃ inp out ok s', val e = Some inp ∧ val m = Some out ∧ Step model (c_state s) inp out = (ok, s') ∧
    if ok : bool then
      ∃ b, bitsFor b ((c_calls s).*1 ++ [e]) ∧
        if cacheContains model (c_cache s) (mkCacheEntry b s')
        then checkStep k s = Some (inl (skipTo s (List.hd_error (B ++ m :: C))))
        else ∃ h', lift (c_mem s) e = Some h' ∧ stk h' (pre ++ B ++ C) (c_calls s ++ [(e, c_state s)]) s' ∧
               checkStep k s = Some (inl (pushed s h' (pre ++ B ++ C) b e s'))
    else checkStep k s = Some (inl (skipTo s (List.hd_error (B ++ m :: C)))).
Proof using All.
  intros Ha Hme.
  destruct (step_node s _ _ _ _ Ha) as (hd & nd & Hhd & Hnn & He & Hnd & HeL & He0 & Hm & Hv & Hi & Hnx).
  pose proof (an_stk _ _ _ _ Ha) as Hst. pose proof (an_split _ _ _ _ Ha) as HL.
  pose proof (atNode_ok _ _ _ _ Ha) as Hok.
  assert (m ∈ L0) as Hm0 by (by apply (L0_pair e m)).
  destruct (stk_node _ _ _ _ m Hst Hm0) as (mn & Hmn & _ & Hmv & _).
  destruct (L0_hasval e He0) as [inp Hinp]. destruct (L0_hasval m Hm0) as [out Hout].
  destruct (Step model (c_state s) inp out) as [okb s'] eqn:Hstep.
  exists inp, out, okb, s'. split_and!; [done..|].
  unfold Checker.checkStep; rewrite Hhd; cbn [mbind option_bind]; rewrite Hnn, He; cbn [mbind option_bind];
    rewrite Hnd; cbn [mbind option_bind]; rewrite Hm, Hme, Hmn; cbn [mbind option_bind];
    rewrite Hv, Hinp, Hmv, Hout; cbn [mbind option_bind]; rewrite Hstep.
  destruct okb; [|by rewrite Hnx].
  destruct (bitsFor_add _ _ e (an_bits _ _ _ _ Ha) He0 ltac:(by eexists)) as (b & Hset & Hb).
  exists b. split; [done|]. rewrite Bitset.bitset_clone_id, Hi, Hset; cbn [mbind option_bind].
  destruct (cacheContains _ _ _); simpl; [by rewrite Hnx|].
  rewrite HL in Hst.
  destruct (lift_spec (c_mem s) head pre e B m C) as (h' & Hlift & _ & _ & _).
  { rewrite <-HL. apply Hok. }
  { rewrite <-HL. apply Hok. }
  { by rewrite Hnd; simpl; rewrite Hm, Hme. }
  assert (stk h' (pre ++ B ++ C) (c_calls s ++ [(e, c_state s)]) s') as Hst'.
  { eapply stk_lift; try done. apply Ha. }
  exists h'. split_and!; [done|done|]. rewrite Hlift; cbn [mbind option_bind].
  destruct (head_node _ _ _ _ Hst') as (hd' & Hhd' & Hn'). rewrite Hhd'; cbn [mbind option_bind].
  by rewrite Hn'.
Qed.

Lemma atNode_skip s L pre e R :
  atNode s L pre (e :: R) → isCall e → atNode (skipTo s (List.hd_error R)) L (pre ++ [e]) R.
Proof using All.
  intros [Hst HL He Hp Hb Hl] Hc. split; simpl; try done.
  - by rewrite HL, <-app_assoc.
  - apply Forall_app. split; [done|by constructor].
Qed.

(** A step that does not return. *)
Lemma checkLoop_step fuel k s s' :
  checkStep k s = Some (inl s') → checkLoop (S fuel) k s = checkLoop fuel (S k) s'.
Proof using All. intros H. cbn [Checker.checkLoop]. by rewrite H. Qed.

(** The iterations that exploring a list of [n] nodes takes at most. *)
Fixpoint work (n : nat) : nat := match n with O => 1 | S n => 1 + S n * (work n + 2) end%nat.

Lemma work_pos n : (1 ≤ work n)%nat.
Proof using Type. destruct n; simpl; lia. Qed.

(** Exploring from [s] ends at a return, with nothing changed but the cache, and with all
    calls before it dead; or it finds a linearization. *)
Record explored (s s' : CState) (L pre pre' suf' : list nat) : Prop := {
  ex_mem : c_mem s' = c_mem s;
  ex_calls : c_calls s' = c_calls s;
  ex_state : c_state s' = c_state s;
  ex_at : atNode s' L pre' suf';
  ex_return : ∃ r R, suf' = r :: R ∧ mt r = None;
  ex_pre : pre `prefix_of` pre';
  ex_dead : ∀ e, e ∈ pre' → e ∈ pre ∨ childDead L (c_state s) e;
  ex_cache : grown (c_cache s) (c_cache s');
}.

Definition outcome (s : CState) (L pre : list nat) (k bound : nat) : Prop :=
  ∃ j, (j ≤ bound)%nat ∧
    ((∃ lng, ∀ fuel, checkLoop (j + fuel) k s = Returned (true, lng)) ∨
     ∃ s' pre' suf', (∀ fuel, checkLoop (j + fuel) k s = checkLoop fuel (k + j) s') ∧
       explored s s' L pre pre' suf').

Definition explores (n : nat) : Prop := ∀ s L pre suf k,
  (length L ≤ n)%nat → atNode s L pre suf → cacheOk (c_calls s).*1 (c_cache s) →
  outcome s L pre k (1 + length suf * (match n with O => 0 | S n' => work n' + 2 end)).

Lemma childDead_here s L pre e B m C inp out s' :
  atNode s L pre (e :: B ++ m :: C) → mt e = Some m → val e = Some inp → val m = Some out →
  Step model (c_state s) inp out = (true, s') → ¬ viable (pre ++ B ++ C) s' →
  childDead L (c_state s) e.
Proof using All.
  intros Ha Hme Hi Ho Hs Hnv A B' m' C' inp' out' s1 HL Hm' Hi' Ho' Hs'.
  assert (m' = m) as -> by congruence. assert (inp' = inp) as -> by congruence.
  assert (out' = out) as -> by congruence. assert (s1 = s') as -> by congruence.
  replace (A ++ B' ++ C') with (pre ++ B ++ C); [done|].
  eapply (split_two_unique L); [|apply Ha|done].
  pose proof (ok_nodup _ _ _ _ _ _ _ _ _ _ _ (atNode_ok _ _ _ _ Ha)) as Hnd.
  by apply NoDup_cons in Hnd as [_ Hnd].
Qed.

(** What is explored after a call was skipped or came back is explored from before it. *)
Lemma explored_before s s2 s' L pre a pre' suf' :
  c_mem s2 = c_mem s → c_calls s2 = c_calls s → c_state s2 = c_state s →
  grown (c_cache s) (c_cache s2) → childDead L (c_state s) a →
  explored s2 s' L (pre ++ [a]) pre' suf' → explored s s' L pre pre' suf'.
Proof using All.
  intros Hm Hc Hs Hg Ha [Hm' Hc' Hs' Hat Hr Hp Hd Hg']. split; try congruence; try done.
  - etransitivity; [|exact Hp]. by apply prefix_app_r.
  - intros e He. destruct (Hd e He) as [[?| ->%list_elem_of_singleton]%elem_of_app|?].
    + by left.
    + by right.
    + right. by rewrite <-Hs.
  - by eapply grown_trans.
Qed.

Lemma explored_dead s s' L pre' suf' : explored s s' L [] pre' suf' → ¬ viable L (c_state s).
Proof using All.
  intros Hx. destruct (ex_return _ _ _ _ _ _ Hx) as (r & R & -> & Hr).
  eapply front_dead; [apply (ex_at _ _ _ _ _ _ Hx)|done|].
  intros e He. destruct (ex_dead _ _ _ _ _ _ Hx e He) as [?%not_elem_of_nil|?]; done.
Qed.

Lemma cacheOk_push s L' b e s' :
  cacheOk (c_calls s).*1 (c_cache s) → bitsFor b ((c_calls s).*1 ++ [e]) →
  cacheOk (c_calls s ++ [(e, c_state s)]).*1 (c_cache (pushed s L' [] b e s')).
Proof using All.
  intros Hok Hb ce [Hce| ->]%inCache_add; rewrite fmap_app; simpl.
  - destruct (Hok ce Hce) as [?|(es' & Hsub & ?)]; [by left|right]. exists es'. split; [set_solver|done].
  - right. exists ((c_calls s).*1 ++ [e]). done.
Qed.

(** The case of a call that is pushed, explored in vain and taken back. *)
Lemma explore_push n s L pre e B m C b s' h' k inp out :
  explores n → (length (pre ++ B ++ C) ≤ n)%nat →
  atNode s L pre (e :: B ++ m :: C) → cacheOk (c_calls s).*1 (c_cache s) →
  mt e = Some m → val e = Some inp → val m = Some out → Step model (c_state s) inp out = (true, s') →
  bitsFor b ((c_calls s).*1 ++ [e]) → lift (c_mem s) e = Some h' →
  stk h' (pre ++ B ++ C) (c_calls s ++ [(e, c_state s)]) s' →
  checkStep k s = Some (inl (pushed s h' (pre ++ B ++ C) b e s')) →
  ∃ j, (j ≤ work n + 2)%nat ∧
    ((∃ lng, ∀ fuel, checkLoop (j + fuel) k s = Returned (true, lng)) ∨
     ∃ s2, (∀ fuel, checkLoop (j + fuel) k s = checkLoop fuel (k + j) s2) ∧
       c_mem s2 = c_mem s ∧ c_calls s2 = c_calls s ∧ c_state s2 = c_state s ∧
       atNode s2 L (pre ++ [e]) (B ++ m :: C) ∧ grown (c_cache s) (c_cache s2) ∧
       childDead L (c_state s) e).
Proof using All.
  intros IH Hlen Ha Hok Hme Hi Ho Hst Hb Hlift Hstk Hstep.
  set (s1 := pushed s h' (pre ++ B ++ C) b e s') in *.
  assert (atNode s1 (pre ++ B ++ C) [] (pre ++ B ++ C)) as Ha1.
  { split; simpl; try done; [|apply Ha]. by rewrite fmap_app. }
  destruct (IH s1 _ [] (pre ++ B ++ C) (S k) Hlen Ha1) as (j & Hj & Hcase).
  { by apply (cacheOk_push s h'). }
  assert (j ≤ work n)%nat as Hjw.
  { destruct n as [|n]; simpl in Hj |- *; [lia|]. revert Hj Hlen. generalize (length (pre ++ B ++ C)).
    intros l Hj Hlen. assert (l * (work n + 2) ≤ S n * (work n + 2))%nat by (apply Nat.mul_le_mono_r; lia).
    simpl in *. lia. }
  destruct Hcase as [[lng Hret]|(s1' & pre1 & suf1 & Hrun & Hx)].
  { exists (S j). split; [lia|]. left. exists lng. intros fuel. cbn [Nat.add].
    rewrite (checkLoop_step _ _ _ _ Hstep). apply Hret. }
  pose proof (explored_dead _ _ _ _ _ Hx) as Hdead.
  destruct (ex_return _ _ _ _ _ _ Hx) as (r & R & -> & Hr).
  destruct (step_pop s1' (S k + j) (pre ++ B ++ C) pre1 r R (c_mem s) pre e B m C (c_calls s) (c_state s))
    as (b2 & lng & Hpop & Hb2 & Hl2).
  - apply Hx.
  - done.
  - rewrite (ex_calls _ _ _ _ _ _ Hx). done.
  - rewrite <-(an_split _ _ _ _ Ha). apply Ha.
  - done.
  - by rewrite (ex_mem _ _ _ _ _ _ Hx).
  - exists (S (j + 1)). split; [lia|]. right.
    exists (mkCState (c_mem s) (List.hd_error (B ++ m :: C)) b2 (c_cache s1') (c_calls s) (c_state s) lng).
    split_and!; [|reflexivity..| | |].
    + intros fuel. cbn [Nat.add]. rewrite (checkLoop_step _ _ _ _ Hstep), <-Nat.add_assoc, Hrun.
      cbn [Nat.add]. rewrite (checkLoop_step _ _ _ _ Hpop). f_equal. lia.
    + split; simpl; try done; [apply Ha|by rewrite <-app_assoc; apply Ha|].
      apply Forall_app. split; [apply Ha|]. constructor; [by eexists|constructor].
    + simpl. intros ce Hce. destruct (ex_cache _ _ _ _ _ _ Hx ce Hce) as [Hce'|?]; [|by right].
      destruct (inCache_add _ _ _ _ Hce') as [?| ->]; [by left|right].
      exists ((c_calls s).*1 ++ [e]), (pre ++ B ++ C). split_and!; [|done|done].
      pose proof (stk_remaining _ _ _ _ Hstk) as Hrem. by rewrite fmap_app in Hrem.
    + by eapply childDead_here.
Qed.

(** The list is empty, or the rest of it does not end before a return. *)
Lemma explore_end s L pre k bound :
  atNode s L pre [] → (1 ≤ bound)%nat → outcome s L pre k bound.
Proof using All.
  intros Ha Hb. exists 1%nat. split; [done|]. left.
  pose proof (an_split _ _ _ _ Ha) as HL. rewrite app_nil_r in HL. destruct L as [|x L].
  - subst pre. destruct (step_empty s k Ha) as [lng Hs]. exists lng. intros fuel.
    cbn [Nat.add Checker.checkLoop]. by rewrite Hs.
  - exfalso. pose proof (an_pre _ _ _ _ Ha) as Hp. rewrite <-HL, Forall_forall in Hp.
    destruct (Hp x ltac:(by left)) as [m Hm]. pose proof (atNode_ok _ _ _ _ Ha) as Ho.
    pose proof (ok_closed _ _ _ _ _ _ _ _ _ _ _ Ho x m ltac:(by left) Hm) as HmL.
    destruct (Hp m HmL) as [m' Hm']. destruct (L0_pair x m) as (_ & _ & ?); [|done|congruence].
    eapply elem_of_sublist; [|apply Ho]. by left.
Qed.

Lemma explore_return s L pre r R k bound :
  atNode s L pre (r :: R) → mt r = None → outcome s L pre k bound.
Proof using All.
  intros Ha Hr. exists 0%nat. split; [lia|]. right. exists s, pre, (r :: R). split.
  - intros fuel. by rewrite Nat.add_0_r.
  - split; try done; [by exists r, R|by left|]. by left.
Qed.

(** The first call is dealt with in [j1] iterations, then comes the rest. *)
Lemma explore_rest w j1 s s2 L pre a R k :
  (j1 ≤ w)%nat → (∀ fuel, checkLoop (j1 + fuel) k s = checkLoop fuel (k + j1) s2) →
  c_mem s2 = c_mem s → c_calls s2 = c_calls s → c_state s2 = c_state s →
  grown (c_cache s) (c_cache s2) → childDead L (c_state s) a →
  outcome s2 L (pre ++ [a]) (k + j1) (1 + length R * w) →
  outcome s L pre k (1 + length (a :: R) * w).
Proof using All.
  intros Hj1 Hrun Hm Hc Hs Hg Hd (j2 & Hj2 & Hres).
  exists (j1 + j2)%nat. split; [cbn [length]; lia|].
  destruct Hres as [[lng Hret]|(s3 & pre' & suf' & Hrun2 & Hx)].
  - left. exists lng. intros fuel. by rewrite <-Nat.add_assoc, Hrun.
  - right. exists s3, pre', suf'. split.
    + intros fuel. rewrite <-Nat.add_assoc, Hrun, Hrun2. f_equal. lia.
    + by eapply explored_before.
Qed.

(** A hit in the cache or a step that the model refuses: the call is dead. *)
Lemma hit_dead s L pre a B m C b s' inp out :
  atNode s L pre (a :: B ++ m :: C) → cacheOk (c_calls s).*1 (c_cache s) → mt a = Some m →
  val a = Some inp → val m = Some out → Step model (c_state s) inp out = (true, s') →
  bitsFor b ((c_calls s).*1 ++ [a]) → cacheContains model (c_cache s) (mkCacheEntry b s') = true →
  childDead L (c_state s) a.
Proof using All.
  intros Ha Hok Hma Hi Ho Hst Hb Hhit. eapply childDead_here; [done..|].
  pose proof (an_stk _ _ _ _ Ha) as Hstk. pose proof (atNode_ok _ _ _ _ Ha) as Hok0.
  pose proof (an_split _ _ _ _ Ha) as HL. rewrite HL in Hstk.
  assert (a ∉ (c_calls s).*1) as Hfresh.
  { intros Hin. destruct (ok_lifted _ _ _ _ _ _ _ _ _ _ _ Hok0 a m Hin Hma) as [Hn _]. apply Hn.
    rewrite HL. set_solver. }
  eapply cache_hit; [exact Hok| |exact Hfresh|exact Hb|exact Hhit].
  destruct (lift_spec (c_mem s) head pre a B m C) as (h' & Hlift & _).
  { rewrite <-HL. apply Hok0. }
  { rewrite <-HL. apply Hok0. }
  { destruct (step_node s _ _ _ _ Ha) as (? & nd & _ & _ & _ & Hnd & _ & _ & Hmn & _).
    by rewrite Hnd; simpl; rewrite Hmn, Hma. }
  assert (stk h' (pre ++ B ++ C) (c_calls s ++ [(a, c_state s)]) s') as Hst'.
  { eapply stk_lift; try done. apply Ha. }
  pose proof (stk_remaining _ _ _ _ Hst') as Hrem. by rewrite fmap_app in Hrem.
Qed.

Lemma explore_call n s L pre a R k :
  explores n → (length L ≤ S n)%nat → atNode s L pre (a :: R) → cacheOk (c_calls s).*1 (c_cache s) →
  isCall a →
  (∀ s2 k2, atNode s2 L (pre ++ [a]) R → cacheOk (c_calls s2).*1 (c_cache s2) →
     outcome s2 L (pre ++ [a]) k2 (1 + length R * (work n + 2))) →
  outcome s L pre k (1 + length (a :: R) * (work n + 2)).
Proof using All.
  intros IHn Hlen Ha Hok Hca IHR. pose proof Hca as [m Hma].
  destruct (split_call model head h0 L0 pos mt val L0_nodup L0_seg L0_sorted L0_match L0_value L0_pair
    L0_inj _ _ _ _ pre a R (an_stk _ _ _ _ Ha) (an_split _ _ _ _ Ha) Hca) as (m' & B & C & Hm' & ->).
  assert (m' = m) as -> by congruence.
  destruct (step_call s k L pre a B m C Ha Hma) as (inp & out & okb & s' & Hi & Ho & Hst & Hcase).
  assert (checkStep k s = Some (inl (skipTo s (List.hd_error (B ++ m :: C)))) →
    childDead L (c_state s) a → outcome s L pre k (1 + length (a :: B ++ m :: C) * (work n + 2))) as Hskip.
  { intros Hstep Hd. apply (explore_rest _ 1%nat s (skipTo s (List.hd_error (B ++ m :: C)))); try done; [lia|..].
    - intros fuel. cbn [Nat.add]. rewrite (checkLoop_step _ _ _ _ Hstep). f_equal. lia.
    - by left.
    - apply IHR; [by apply atNode_skip|done]. }
  destruct okb.
  2:{ apply Hskip; [done|]. intros A B' m1 C' i' o' s1 _ Hm1 Hi1 Ho1 Hs1. congruence. }
  destruct Hcase as (b & Hb & Hcase). destruct (cacheContains _ _ _) eqn:Hhit.
  - apply Hskip; [done|]. by eapply hit_dead.
  - destruct Hcase as (h' & Hlift & Hst' & Hstep).
    destruct (explore_push n s L pre a B m C b s' h' k inp out) as (j & Hj & [[lng Hret]|(s2 & Hrun & Hrec)]);
      try done.
    { rewrite (an_split _ _ _ _ Ha) in Hlen. rewrite !length_app in *; simpl in *.
      rewrite length_app in *; simpl in *. lia. }
    + exists j. split; [cbn [length]; lia|]. left. by exists lng.
    + destruct Hrec as (? & Hc & ? & ? & ? & ?). apply (explore_rest _ j s s2); try done.
      apply IHR; [done|]. rewrite Hc. by eapply cacheOk_grown.
Qed.

Lemma explore n : explores n.
Proof using All.
  induction n as [|n IHn]; intros s L pre suf k Hlen Ha Hok.
  - destruct L as [|]; [|simpl in Hlen; lia]. pose proof (an_split _ _ _ _ Ha) as HL.
    symmetry in HL. apply app_eq_nil in HL as [-> ->]. apply explore_end; [done|lia].
  - revert pre s k Ha Hok. induction suf as [|a suf IHs]; intros pre s k Ha Hok.
    + apply explore_end; [done|lia].
    + destruct (mt a) as [m|] eqn:Hma; [|by eapply explore_return].
      apply (explore_call n); try done; [by eexists|]. intros s2 k2 Ha2 Hok2. by apply IHs.
Qed.

(** The search terminates, and when it says no, there is no completion. *)
Lemma search_decides fuel s :
  atNode s L0 [] L0 → c_calls s = [] → c_state s = Init model → c_cache s = ∅ →
  (work (length L0) < fuel)%nat →
  ∃ b lng, checkLoop fuel 0 s = Returned (b, lng) ∧ (b = false → ¬ viable L0 (Init model)).
Proof using All.
  intros Ha Hc Hs Hca Hfuel.
  destruct (explore (length L0) s L0 [] L0 0%nat (Nat.le_refl _) Ha) as (j & Hj & Hres).
  { intros ce (k & l & Hk & _). rewrite Hca in Hk. by rewrite lookup_empty in Hk. }
  assert (j ≤ work (length L0))%nat as Hjw by (destruct (length L0); simpl in *; lia).
  destruct Hres as [[lng Hret]|(s' & pre' & suf' & Hrun & Hx)].
  - exists true, lng. split; [|done].
    replace fuel with (j + (fuel - j))%nat by lia. apply Hret.
  - destruct (ex_return _ _ _ _ _ _ Hx) as (r & R & -> & Hr).
    destruct (step_bottom s' (0 + j) L0 pre' r R) as [lng Hstep].
    { apply Hx. } { done. } { by rewrite (ex_calls _ _ _ _ _ _ Hx). }
    exists false, lng. split.
    + replace fuel with (j + S (fuel - j - 1))%nat by lia. rewrite Hrun.
      cbn [Checker.checkLoop]. by rewrite Hstep.
    + intros _. rewrite <-Hs. by eapply explored_dead.
Qed.
End search.
