(* ===== verification/CheckerComplete.v ===== *)
(** The checker decides linearizability: with enough fuel for the length of each partition
    [checkSingle] returns, and it says yes exactly for the linearizable histories. *)
From S2P Require Import Prelude Bitset Checker CheckerList CheckerSound CheckerLink CheckerProps CheckerSearch.
From stdpp Require Import sorting.
#[local] Open Scope Z_scope.

Lemma filter_all {A} (P : A → Prop) `{∀ x, Decision (P x)} (l : list A) : (∀ x, x ∈ l → P x) → filter P l = l.
Proof.
  induction l as [|x l IH]; intros Hall; [done|].
  rewrite filter_cons_True by (apply Hall; by left). f_equal. apply IH. intros y Hy. apply Hall. by right.
Qed.

(** ** The start of the search *)
Lemma downTo_length n : length (downTo n) = n.
Proof. induction n; simpl; lia. Qed.

Section start.
Context {V : Type}.
Implicit Types (es : list (entry V)).

Lemma makeLinkedEntries_total es : ∃ h root mt a, makeLinkedEntries es = Some (h, root, mt, a).
Proof.
  induction es as [|e es (h & root & mt & a & H)]; simpl; [eauto 10|]. rewrite H; simpl.
  destruct (makeLinkedEntries_built _ _ _ _ _ H) as [-> Hroot Hseg Hdata Hret].
  set (nd := mkNode _ _ _ _ _).
  destruct (insert_front h root (downTo (length es)) (length es) nd) as (h' & -> & _); try done;
    [|apply downTo_NoDup|eauto 10].
  specialize (Hdata (length es)). rewrite nodeData_ge in Hdata by done. by destruct (h !! length es).
Qed.

Lemma lengthFrom_seg (h : gmap nat (node V)) a l : ∀ fuel n,
  seg h a l → (length l < fuel)%nat → lengthFrom h fuel (Some a) n = Some (n + 1 + len l).
Proof.
  revert a. induction l as [|b l IH]; intros a fuel n Hs Hf; (destruct fuel as [|fuel]; [simpl in Hf; lia|]);
    cbn [lengthFrom]; simpl in Hs.
  - unfold nextOf in Hs. destruct (h !! a) as [nd|]; [|done]. injection Hs as Hs. simpl. rewrite Hs.
    destruct fuel; simpl; f_equal; rewrite len_nil; lia.
  - destruct Hs as (Hn & _ & Hs). unfold nextOf in Hn. destruct (h !! a) as [nd|]; [|done].
    injection Hn as Hn. simpl. rewrite Hn, (IH b fuel (n + 1) Hs) by (simpl in Hf; lia).
    f_equal. rewrite len_cons. lia.
Qed.

Definition idOf es (a : nat) : Z := from_option (λ x, x.1.2) 0 (nodeData es a).

(** The nodes of the list have the data of the entries. *)
Lemma start_nodes es (h0 : gmap nat (node V)) :
  (∀ x, x ∈ downTo (length es) → data <$> h0 !! x = nodeData es x) →
  ∀ x, x ∈ downTo (length es) → n_match <$> h0 !! x = Some (matchOf es x) ∧
    n_value <$> h0 !! x = Some (valueOf es x) ∧ n_id <$> h0 !! x = Some (idOf es x).
Proof.
  intros Hdata x Hx. unfold matchOf, valueOf, idOf. rewrite <-(Hdata x Hx). apply elem_of_downTo in Hx.
  destruct (nodeData_is_Some es x Hx) as [y Hy]. rewrite <-Hdata in Hy by (by apply elem_of_downTo).
  by destruct (h0 !! x).
Qed.

(** The state before the loop, for entries of an even number. *)
Lemma startCheck_total {St} (model : Model V St) es n :
  length es = (2 * n)%nat →
  ∃ h b, startCheck model es =
      Some (length es, mkCState h (List.hd_error (downTo (length es))) b ∅ [] (Init model) (replicate n None)) ∧
    seg h (length es) (downTo (length es)) ∧
    (∀ x, x ∈ downTo (length es) → data <$> h !! x = nodeData es x) ∧
    Bitset.wf b ∧ (∀ pos, 0 ≤ pos < Z.of_nat n → Bitset.inRange b pos) ∧
    (∀ pos, Bitset.inRange b pos → Bitset.get b pos = Some false).
Proof.
  intros Hlen. unfold startCheck.
  destruct (makeLinkedEntries_total es) as (h1 & root & mt & a & Hmk). rewrite Hmk; simpl.
  destruct (makeLinkedEntries_built _ _ _ _ _ Hmk) as [-> Hroot Hseg Hdata _].
  assert (lengthFrom h1 (length es) root 0 = Some (len es)) as ->.
  { rewrite Hroot. unfold len. destruct (length es) as [|m] eqn:Hm; [done|]. cbn [downTo List.hd_error].
    rewrite (lengthFrom_seg h1 m (downTo m)).
    - f_equal. unfold len. rewrite downTo_length. lia.
    - apply Hseg.
    - rewrite downTo_length. lia. }
  simpl. replace (len es ÷ 2) with (Z.of_nat n)
    by (unfold len; rewrite Hlen, Z.quot_div_nonneg by lia; rewrite Nat2Z.inj_mul, Z.mul_comm; by rewrite Z.div_mul).
  destruct (Bitset.newBitset_spec (Z.of_nat n)) as (b & -> & Hw & Hr & Hg); [lia|]. simpl.
  set (hd := mkNode None None (-1) None None).
  destruct (insert_front h1 root (downTo (length es)) (length es) hd) as (h0 & -> & Hs0 & _ & Hd0);
    try done; [|apply downTo_NoDup|].
  { specialize (Hdata (length es)). rewrite nodeData_ge in Hdata by done. by destruct (h1 !! length es). }
  simpl. rewrite go_make_Some by lia. simpl. rewrite Nat2Z.id, Hroot.
  exists h0, b. split_and!; try done. intros x Hx%elem_of_downTo.
  rewrite Hd0, lookup_insert_ne by lia. apply Hdata.
Qed.
End start.

Section complete.
Context {V St : Type} (model : Model V St).
Context (history : list (Operation V)) (es : list (entry V)) (Hwf : wfEntries history es).
Abbreviation N := (length es).
Abbreviation viable := (viable model (matchOf es) (valueOf es)).
Abbreviation opOf := (opOf es).
Abbreviation isCall := (isCall (matchOf es)).

Lemma valueOf_Some a : a ∈ downTo N → is_Some (valueOf es a).
Proof using Type.
  intros Ha%elem_of_downTo. destruct (nodeData_at es a Ha) as (e & _ & -> & _). by eexists.
Qed.

Lemma idOf_call a :
  a ∈ downTo N → isCall a → idOf es a = Z.of_nat (opOf a) ∧ (opOf a < length history)%nat.
Proof using Hwf.
  intros Ha Hc. destruct (opOf_call history es Hwf a Ha Hc) as (op & m & Hop & He & _).
  split; [|by eapply lookup_lt_Some]. unfold idOf.
  destruct (nodeData_is_Some es a) as [x Hx]; [by apply elem_of_downTo|].
  destruct (nodeData_lookup es a x Hx) as (_ & e & He' & ->). rewrite Hx; simpl.
  unfold posOf in He. rewrite He in He'. by injection He' as <-.
Qed.

(** The call node and the return node of an operation. *)
Lemma nodes_of k op :
  history !! k = Some op →
  ∃ e m, e ∈ downTo N ∧ m ∈ downTo N ∧ matchOf es e = Some m ∧ opOf e = k ∧ opOf m = k ∧
    es !! posOf es e = Some (callE k op) ∧ es !! posOf es m = Some (retE k op) ∧
    ∀ a, a ∈ downTo N → opOf a = k → a = e ∨ a = m.
Proof using Hwf.
  intros Hop. destruct (we_call _ _ Hwf _ _ Hop) as (i & j & _ & Hi & Hj).
  pose proof (lookup_lt_Some _ _ _ Hi) as HiN.
  set (c := (N - 1 - i)%nat).
  assert (posOf es c = i) as Hpi by (unfold posOf, c; lia).
  assert (c ∈ downTo N) as He by (apply elem_of_downTo; unfold c; lia).
  pose proof (matchOf_call history es Hwf c k op ltac:(unfold c; lia) ltac:(by rewrite Hpi)) as Hc.
  destruct (opOf_call history es Hwf _ He Hc) as (op' & m & Hop' & He' & Hm & Hr & HmN & _).
  assert (opOf c = k) as Hk by (unfold CheckerProps.opOf; rewrite Hpi, Hi; simpl; lia).
  rewrite Hk in Hop', Hr. rewrite Hop in Hop'. injection Hop' as <-.
  exists c, m. split_and!; try done; [unfold CheckerProps.opOf; rewrite Hr; simpl; lia|by rewrite Hpi|].
  intros a Ha Hka. pose proof (proj1 (elem_of_downTo _ _) Ha) as Ha'.
  destruct (nodeData_at es a Ha') as (x & Hx & _).
  destruct (we_in _ _ Hwf _ _ Hx) as (k' & op' & Hk' & Hx').
  assert (k' = k) as ->.
  { rewrite <-Hka. unfold CheckerProps.opOf. rewrite Hx. simpl.
    destruct Hx' as [->| ->]; simpl; lia. }
  assert (op' = op) as -> by congruence.
  destruct Hx' as [->| ->]; [left|right].
  - assert (posOf es a = i) as Hpa by (by eapply (we_inj _ _ Hwf)). unfold posOf in Hpa. unfold c. lia.
  - assert (posOf es a = posOf es m) as Hpa by (by eapply (we_inj _ _ Hwf)).
    apply elem_of_downTo in HmN. unfold posOf in Hpa. lia.
Qed.

(** The nodes of the operations [os]. *)
Definition nodesOf (os : list nat) : list nat := filter (λ a, opOf a ∈ os) (downTo N).

Lemma elem_of_nodesOf os a : a ∈ nodesOf os ↔ opOf a ∈ os ∧ a ∈ downTo N.
Proof using Type. unfold nodesOf. by rewrite list_elem_of_filter. Qed.

Lemma nodesOf_sub os : nodesOf os `sublist_of` downTo N.
Proof using Type. apply sublist_filter. Qed.

Lemma downTo_NoDup' : NoDup (downTo N).
Proof using Type. by destruct (proj1 (NoDup_cons _ _) (downTo_NoDup N)). Qed.

(** The nodes of [o :: os] are those of [os] with the call and the return of [o] in
    between. *)
Lemma nodesOf_split o os op e m :
  o ∉ os → history !! o = Some op → e ∈ downTo N → m ∈ downTo N → matchOf es e = Some m →
  opOf e = o → opOf m = o → (∀ a, a ∈ downTo N → opOf a = o → a = e ∨ a = m) →
  ∃ A B C, nodesOf (o :: os) = A ++ e :: B ++ m :: C ∧ nodesOf os = A ++ B ++ C.
Proof using Hwf.
  intros Ho Hop He Hm Hmt Hoe Hom Honly.
  destruct (matchOf_pair history es Hwf e m He Hmt) as (_ & Hlt & _).
  assert (e ∈ nodesOf (o :: os)) as HeL by (apply elem_of_nodesOf; split; [set_solver|done]).
  assert (m ∈ nodesOf (o :: os)) as HmL by (apply elem_of_nodesOf; split; [set_solver|done]).
  assert (NoDup (nodesOf (o :: os))) as Hnd by (apply NoDup_filter, downTo_NoDup').
  apply list_elem_of_split in HeL as (A & R & HA). rewrite HA in HmL, Hnd.
  assert (m ∈ R) as HmR.
  { apply elem_of_app in HmL as [HmA|[->|?]%elem_of_cons]; [|lia|done]. exfalso.
    apply list_elem_of_split in HmA as (A1 & A2 & ->).
    pose proof (sublist_sorted _ _ _ (nodesOf_sub (o :: os)) (downTo_sorted N N (Nat.le_refl _))) as Hs.
    rewrite HA, <-app_assoc in Hs. apply StronglySorted_app_1_r in Hs. simpl in Hs.
    apply StronglySorted_cons in Hs as [Hs _]. rewrite Forall_forall in Hs.
    assert (posOf es m < posOf es e)%nat; [|lia]. apply (Hs e). set_solver. }
  apply list_elem_of_split in HmR as (B & C & ->). exists A, B, C. split; [done|].
  apply (sublist_ext _ _ (downTo N)); [apply downTo_NoDup'|apply nodesOf_sub|..].
  - etransitivity; [|apply (nodesOf_sub (o :: os))]. rewrite HA. apply sublist_app; [done|].
    apply sublist_cons, sublist_app; [done|by apply sublist_cons].
  - intros a. rewrite elem_of_nodesOf.
    assert (a ∈ A ++ e :: B ++ m :: C ↔ (opOf a = o ∨ opOf a ∈ os) ∧ a ∈ downTo N) as Hin.
    { rewrite <-HA, elem_of_nodesOf, elem_of_cons. done. }
    assert ((e ∉ A ++ B ++ C) ∧ (m ∉ A ++ B ++ C)) as [HeN HmN].
    { apply NoDup_app in Hnd as (_ & Hd & Hnd). apply NoDup_cons in Hnd as [H1 Hnd].
      apply NoDup_app in Hnd as (_ & Hd2 & Hnd). apply NoDup_cons in Hnd as [H2 _].
      split; rewrite !elem_of_app; intros [Hx|[Hx|Hx]].
      - apply (Hd _ Hx). by left.
      - apply H1. set_solver.
      - apply H1. set_solver.
      - apply (Hd _ Hx). set_solver.
      - apply (Hd2 _ Hx). by left.
      - done. }
    split.
    + intros [Ha1 Ha2]. assert (a ∈ A ++ e :: B ++ m :: C) as Hx by (apply Hin; auto).
      assert (a ≠ e) by (intros ->; congruence). assert (a ≠ m) by (intros ->; congruence).
      set_solver.
    + intros Ha. assert (a ∈ A ++ e :: B ++ m :: C) as Hx by set_solver.
      apply Hin in Hx as [[Hk|?] Ha2]; [|done]. exfalso.
      destruct (Honly a Ha2 Hk) as [->| ->]; done.
Qed.

(** A return in front of the call of an operation belongs to an operation that had returned
    before the call. *)
Lemma return_before a e op o :
  a ∈ downTo N → matchOf es a = None → e ∈ downTo N → es !! posOf es e = Some (callE o op) →
  (posOf es a < posOf es e)%nat →
  ∃ opb, history !! opOf a = Some opb ∧ Return opb < Call op.
Proof using Hwf.
  intros Ha Hr He Hce Hlt. pose proof (proj1 (elem_of_downTo _ _) Ha) as Ha'.
  destruct (nodeData_at es a Ha') as (x & Hx & _).
  destruct (we_in _ _ Hwf _ _ Hx) as (k & opb & Hk & [->| ->]).
  { destruct (matchOf_call history es Hwf a k opb Ha' Hx) as [? ?]. congruence. }
  exists opb. split; [unfold CheckerProps.opOf; rewrite Hx; simpl; by rewrite Nat2Z.id|].
  pose proof (we_sorted _ _ Hwf _ _ _ _ Hlt Hx Hce) as Hless. unfold Less in Hless; simpl in Hless.
  destruct (Z.eqb_spec (Call op) (Return opb)); simpl in Hless; [done|]. apply Z.ltb_ge in Hless. lia.
Qed.

(** An order that the model accepts and that respects real time is found in the list. *)
Lemma order_viable os : ∀ s ops,
  NoDup os → (∀ k, k ∈ os → (k < length history)%nat) →
  mapM (history !!.) os = Some ops → accepts model s ops →
  (∀ i j a b opa opb, os !! i = Some a → os !! j = Some b → (i < j)%nat →
     history !! a = Some opa → history !! b = Some opb → ¬ Return opb < Call opa) →
  viable (nodesOf os) s.
Proof using Hwf.
  induction os as [|o os IH]; intros s ops Hnd Hlt Hops Hacc Htime.
  { assert (nodesOf [] = []) as ->; [|constructor]. unfold nodesOf.
    assert (∀ l, filter (λ a, opOf a ∈ []) l = []) as H; [|apply H].
    induction l as [|x l IHl]; [done|]. rewrite filter_cons_False by set_solver. done. }
  apply NoDup_cons in Hnd as [Ho Hnd]. simpl in Hops.
  apply bind_Some in Hops as (op & Hop & Hops). apply bind_Some in Hops as (ops' & Hops & [= <-]).
  destruct Hacc as (s' & Hstep & Hacc).
  destruct (nodes_of o op Hop) as (e & m & He & Hm & Hmt & Hoe & Hom & Hce & Hre & Honly).
  destruct (nodesOf_split o os op e m Ho Hop He Hm Hmt Hoe Hom Honly) as (A & B & C & HL & HL').
  rewrite HL. destruct (opOf_call history es Hwf e He ltac:(by eexists))
    as (op' & m' & Hop' & _ & Hm' & _ & _ & Hvi & Hvo).
  rewrite Hoe in Hop'. assert (op' = op) as -> by congruence. assert (m' = m) as -> by congruence.
  apply (viable_lift _ _ _ A e B m C s s' (Input op) (Output op)); try done.
  - apply Forall_forall. intros a HaA.
    assert (a ∈ nodesOf (o :: os)) as HaL by (rewrite HL; set_solver).
    apply elem_of_nodesOf in HaL as [Hao Ha].
    assert (posOf es a < posOf es e)%nat as Hpos.
    { pose proof (sublist_sorted _ _ _ (nodesOf_sub (o :: os)) (downTo_sorted N N (Nat.le_refl _))) as Hs.
      rewrite HL in Hs. apply list_elem_of_split in HaA as (A1 & A2 & ->).
      rewrite <-app_assoc in Hs. apply StronglySorted_app_1_r in Hs. simpl in Hs.
      apply StronglySorted_cons in Hs as [Hs _]. rewrite Forall_forall in Hs. apply (Hs e). set_solver. }
    destruct (matchOf es a) as [ma|] eqn:Hma; [by eexists|]. exfalso.
    destruct (return_before a e op o Ha Hma He ltac:(by rewrite Hce) Hpos) as (opb & Hopb & Hrt).
    apply elem_of_cons in Hao as [Hao|Hao].
    + destruct (Honly a Ha Hao) as [->| ->]; [congruence|].
      destruct (matchOf_pair history es Hwf e m He Hmt) as (_ & ? & _). lia.
    + apply list_elem_of_lookup in Hao as [j Hj].
      apply (Htime 0%nat (S j) o (opOf a) op opb); try done. lia.
  - rewrite <-HL'. apply (IH s' ops'); try done.
    + intros k Hk. apply Hlt. by right.
    + intros i j a b opa opb Hi Hj Hij. apply (Htime (S i) (S j)); [done|done|lia].
Qed.

Lemma linearizable_viable :
  linearizable model history → viable (downTo N) (Init model).
Proof using Hwf.
  intros (order & Hperm & (ops & Hops & Hacc) & Htime).
  assert (nodesOf order = downTo N) as <-.
  { unfold nodesOf. apply filter_all. intros a Ha. rewrite Hperm, elem_of_seq.
    pose proof (proj1 (elem_of_downTo _ _) Ha) as Ha'.
    destruct (nodeData_at es a Ha') as (x & Hx & _).
    destruct (we_in _ _ Hwf _ _ Hx) as (k & op & Hk & Hx'). apply lookup_lt_Some in Hk.
    unfold CheckerProps.opOf. rewrite Hx; simpl. destruct Hx' as [->| ->]; simpl; lia. }
  apply (order_viable order _ ops); try done.
  - rewrite Hperm. apply NoDup_seq.
  - intros k Hk. rewrite Hperm in Hk. apply elem_of_seq in Hk. lia.
Qed.
End complete.

Lemma rawEntries_length {V} (history : list (Operation V)) :
  length (rawEntries history) = (2 * length history)%nat.
Proof.
  induction history as [|op history IH] using rev_ind; [done|].
  rewrite rawEntries_snoc, !length_app, IH. simpl. lia.
Qed.

Lemma makeEntries_length {V} (sort : list (entry V) → list (entry V)) (history : list (Operation V)) :
  sorts sort → length (makeEntries sort history) = (2 * length history)%nat.
Proof.
  intros Hsort. destruct (Hsort (rawEntries history)) as [Hp _]. unfold makeEntries.
  by rewrite Hp, rawEntries_length.
Qed.

(** [Equal] only identifies states that the model cannot tell apart. *)
Definition equalRespected {V St} `{!EqDecision St} (model : Model V St) : Prop :=
  ∀ s1 s2 i o, modelEqual model s1 s2 = true →
    (Step model s1 i o).1 = (Step model s2 i o).1 ∧
    modelEqual model (Step model s1 i o).2 (Step model s2 i o).2 = true.

(** The iterations that are enough for a history of [n] operations. *)
Definition enough (n : nat) : nat := S (work (2 * n)).

Section verdict.
Context {V St : Type} `{!EqDecision St} (model : Model V St).
Context (sort : list (entry V) → list (entry V)).

Lemma checkSingle_decides history computePartial fuel :
  sorts sort → equalRespected model → Forall (λ op, Call op ≤ Return op) history →
  (enough (length history) ≤ fuel)%nat →
  ∃ b lng, checkSingle model (makeEntries sort history) computePartial (λ _, false) fuel =
      Returned (b, lng) ∧ (b = true ↔ linearizable model history).
Proof.
  intros Hsort Heq Hcr Hfuel. pose proof (makeEntries_wf sort history Hsort Hcr) as Hwf.
  set (es := makeEntries sort history) in *.
  pose proof (makeEntries_length sort history Hsort) as Hlen. fold es in Hlen.
  destruct (startCheck_total model es (length history) Hlen) as (h0 & b0 & Hst & Hseg & Hdata & Hw & Hr & Hg).
  pose proof (start_nodes es h0 Hdata) as Hmv.
  destruct (search_decides model (length es) h0 (downTo (length es)) (posOf es) (matchOf es) (valueOf es)
    (downTo_NoDup _) Hseg (downTo_sorted _ _ (Nat.le_refl _)) (λ x Hx, proj1 (Hmv x Hx))
    (λ x Hx, proj1 (proj2 (Hmv x Hx))) (matchOf_pair history es Hwf) (matchOf_inj history es Hwf)
    (idOf es) (len b0) (Z.of_nat (length history)) (λ x Hx, proj2 (proj2 (Hmv x Hx)))) with
    (computePartial := computePartial) (fuel := fuel)
    (s := mkCState h0 (List.hd_error (downTo (length es))) b0 ∅ [] (Init model) (replicate (length history) None))
    as (b & lng & Hret & Hno).
  - intros a Ha Hc. destruct (idOf_call history es Hwf a Ha Hc) as [-> Hk].
    specialize (Hr (Z.of_nat (opOf es a)) ltac:(lia)). unfold Bitset.inRange in Hr. lia.
  - intros a c Ha Hc Hca Hcc Hid. destruct (idOf_call history es Hwf a Ha Hca) as [Hia _].
    destruct (idOf_call history es Hwf c Hc Hcc) as [Hic _]. apply (opOf_inj history es Hwf); try done. lia.
  - apply valueOf_Some.
  - exact Heq.
  - split; simpl; try done; [apply stk_start| |by rewrite len_replicate]. split_and!; [done|done|].
    intros e He Hc. rewrite Hg, bool_decide_false; [done|apply not_elem_of_nil|].
    destruct (idOf_call history es Hwf e He Hc) as [-> Hk]. apply Hr. lia.
  - done.
  - done.
  - done.
  - unfold enough in Hfuel. rewrite downTo_length, Hlen. lia.
  - exists b, lng. assert (checkSingle model es computePartial (λ _, false) fuel = Returned (b, lng)) as Hcs.
    { unfold checkSingle. by rewrite Hst. }
    split; [done|]. split.
    + intros ->. by eapply checkSingle_sound.
    + intros Hlin. destruct b; [done|]. destruct (Hno eq_refl).
      by apply (linearizable_viable model history es Hwf).
Qed.

(** When all goroutines return and each is heard once, the loop of [checkParallel] ends. *)
Lemma collect_total computeInfo (results : list (Loop bool)) (bs : list bool) arr : ∀ ok0 count,
  results = map Returned bs → arr ≠ [] → (∀ i, i ∈ arr → (i < length bs)%nat) →
  (count + length arr = length bs)%nat → (computeInfo = false → ok0 = true) →
  ∃ ok, collect results computeInfo (map Some arr) ok0 count = Returned (ok, false) ∧
    (ok = true ↔ ok0 = true ∧ ∀ i, i ∈ arr → bs !! i = Some true).
Proof.
  induction arr as [|i arr IH]; intros ok0 count -> Hne Hlt Hlen Hok0; [done|]. cbn [map collect].
  destruct (lookup_lt_is_Some_2 bs i (Hlt i ltac:(by left))) as [b Hb].
  rewrite list_lookup_fmap, Hb; cbn [fmap option_fmap option_map].
  assert ((∀ j, j ∈ i :: arr → bs !! j = Some true) ↔ b = true ∧ ∀ j, j ∈ arr → bs !! j = Some true) as Hcons.
  { setoid_rewrite elem_of_cons. split; [|intros [-> H] j [->|Hj]; auto].
    intros H. specialize (H i ltac:(by left)) as Hi. split; [congruence|auto]. }
  rewrite length_map. destruct (negb (ok0 && b) && negb computeInfo) eqn:Hbreak.
  { exists (ok0 && b). split; [done|]. rewrite Hcons. destruct ok0, b; simpl in *; naive_solver. }
  destruct (Nat.leb_spec (length bs) (S count)) as [Hle|Hgt].
  - exists (ok0 && b). split; [done|]. rewrite Hcons, andb_true_iff.
    destruct arr; [|simpl in Hlen; lia]. set_solver.
  - destruct (IH (ok0 && b) (S count)) as (ok & -> & Hok); try done.
    + intros ->. simpl in Hlen. lia.
    + intros j Hj. apply Hlt. by right.
    + simpl in Hlen. lia.
    + intros ->. destruct (ok0 && b); [done|]. by simpl in Hbreak.
    + exists ok. split; [done|]. rewrite Hok, Hcons, andb_true_iff. tauto.
Qed.

(** All goroutines of the partitions return, each with the right answer. *)
Lemma partitions_decide ps computePartial fuel :
  sorts sort → equalRespected model → Forall (Forall (λ op, Call op ≤ Return op)) ps →
  Forall (λ p, (enough (length p) ≤ fuel)%nat) ps →
  ∃ bs lngs, imap (λ i sub, checkSingle model sub computePartial (λ _, false) fuel) (map (makeEntries sort) ps) =
      zip_with (λ b lng, Returned (b, lng)) bs lngs ∧ length lngs = length bs ∧
    Forall2 (λ b p, b = true ↔ linearizable model p) bs ps.
Proof.
  intros Hsort Heq. induction ps as [|p ps IH]; intros H1 H2; simpl; [by exists [], []|].
  apply Forall_cons in H1 as [Hp H1]. apply Forall_cons in H2 as [Hp2 H2].
  destruct (checkSingle_decides p computePartial fuel Hsort Heq Hp Hp2) as (b & lng & Hret & Hb).
  destruct (IH H1 H2) as (bs & lngs & Hbs & Hl & HF). exists (b :: bs), (lng :: lngs).
  split_and!; [|simpl; by rewrite Hl|by constructor]. simpl. rewrite Hret. f_equal. exact Hbs.
Qed.

Lemma checkParallel_decides ps computeInfo fuel arrivals :
  sorts sort → equalRespected model → ps ≠ [] → Forall (Forall (λ op, Call op ≤ Return op)) ps →
  Forall (λ p, (enough (length p) ≤ fuel)%nat) ps →
  arrivals ≡ₚ map Some (seq 0 (length ps)) →
  ∃ res, checkParallel model (map (makeEntries sort) ps) computeInfo (λ _ _, false) fuel arrivals =
      Returned res ∧ res ≠ Unknown ∧ (res = Ok ↔ Forall (linearizable model) ps).
Proof.
  intros Hsort Heq Hne Hcr Hfuel Harr. unfold checkParallel.
  destruct (partitions_decide ps computeInfo fuel Hsort Heq Hcr Hfuel) as (bs & lngs & Hres & Hl & HF).
  assert (imap (λ i sub, match checkSingle model sub computeInfo (λ _, false) fuel with
                         | Returned (ok, _) => Returned ok | Running => Running | Panicked => Panicked
                         end) (map (makeEntries sort) ps) = map Returned bs) as ->.
  { transitivity (map (λ r : Loop (bool * list (option (nat * list Z))), match r with
        | Returned (ok, _) => Returned ok | Running => Running | Panicked => Panicked end)
      (imap (λ i sub, checkSingle model sub computeInfo (λ _, false) fuel) (map (makeEntries sort) ps))).
    - apply list_eq. intros i. by rewrite list_lookup_fmap, !list_lookup_imap; destruct (_ !! i).
    - rewrite Hres. clear - Hl. revert lngs Hl. induction bs as [|b bs IH]; intros [|lng lngs] Hl; simpl in *;
        [done..|]. f_equal. apply IH. lia. }
  pose proof (Forall2_length _ _ _ HF) as Hlen.
  apply Permutation_map_inv in Harr as (arr & -> & Harr).
  destruct (collect_total computeInfo (map Returned bs) bs arr true 0) as (ok & -> & Hok); [done|..|done|].
  - intros ->. apply Permutation_length in Harr. rewrite length_seq in Harr. simpl in Harr.
    by destruct ps.
  - intros i Hi. rewrite <-Harr in Hi. apply elem_of_seq in Hi. lia.
  - rewrite <-Harr, length_seq. simpl. lia.
  - exists (resultOf ok false). split; [done|]. split; [by destruct ok|].
    transitivity (ok = true); [by destruct ok|]. rewrite Hok, Forall_lookup. split.
    + intros [_ H] i p Hp. assert (bs !! i = Some true) as Hb.
      { apply H. rewrite <-Harr. apply elem_of_seq. apply lookup_lt_Some in Hp. lia. }
      destruct (Forall2_lookup_lr _ _ _ _ _ _ HF Hb Hp) as [Hx _]. by apply Hx.
    + intros H. split; [done|]. intros i Hi. rewrite <-Harr in Hi. apply elem_of_seq in Hi.
      destruct (lookup_lt_is_Some_2 bs i) as [b Hb]; [lia|].
      destruct (lookup_lt_is_Some_2 ps i) as [p Hp]; [lia|].
      rewrite Hb. f_equal. apply (Forall2_lookup_lr _ _ _ _ _ _ HF Hb Hp). by eapply H.
Qed.

(** C18: the checker decides linearizability. For a model whose [Equal] respects its [Step], a
    history whose operations return after they are called and a partition function that gives at
    least one partition, [CheckOperations], without a timeout, returns, without a panic, within a
    number of iterations that depends on the lengths of the partitions only, in whatever order
    their goroutines finish; and it says yes exactly when every partition is linearizable. *)
Theorem CheckOperations_decides history fuel arrivals :
  sorts sort → equalRespected model →
  let partitions := default NoPartition (Partition model) history in
  partitions ≠ [] → Forall (Forall (λ op, Call op ≤ Return op)) partitions →
  Forall (λ p, (enough (length p) ≤ fuel)%nat) partitions →
  arrivals ≡ₚ map Some (seq 0 (length partitions)) →
  ∃ b, CheckOperations model sort history (λ _ _, false) fuel arrivals = Returned b ∧
    (b = true ↔ Forall (linearizable model) partitions).
Proof.
  intros Hsort Heq partitions Hne Hcr Hfuel Harr. unfold CheckOperations, checkOperations.
  destruct (checkParallel_decides partitions false fuel arrivals) as (res & Hres & Hun & Hok); try done.
  simpl. fold partitions. rewrite Hres. eexists. split; [done|]. rewrite <-Hok. by destruct res.
Qed.
End verdict.
