(* ===== verification/CheckerInfo.v ===== *)
(** Model of the part of [checkParallel] that collects partial linearizations, of the other
    entry points of [src/src/porcupine/porcupine.go], and of [computeVisualizationData] in
    [src/src/porcupine/visualization.go], which replays them: the model's panic on a partial
    linearization that the model refuses is never reached.

    The order of a range over the set of pointers and the result of the unstable
    [sort.Slice] are arguments.  The two description functions of a model are arguments; the
    zero value of a missing map entry, nil, never reaches [Step], so [None] stands for it. *)
From S2P Require Import Prelude Bitset Checker CheckerList CheckerSound CheckerLink CheckerProps CheckerSearch CheckerComplete.
From stdpp Require Import sorting.
#[local] Open Scope Z_scope.

Section info.
Context {V St : Type} `{!EqDecision St} (model : Model V St).

Record linearizationInfo := mkInfo {
  li_history : list (list (entry V));
  li_partials : list (list (list Z)) }.

(** The set of pointers in [longest], as the map from an identity to what it points to. *)
Definition pointerSet (longest : list (option (nat * list Z))) : gmap nat (list Z) :=
  go_range longest (λ v set, match v with Some (k, ids) => <[k := ids]> set | None => set end) ∅.

Definition uniquePartials (rangeSet : gmap nat (list Z) → list (nat * list Z))
    (longest : list (option (nat * list Z))) : list (list Z) :=
  go_range (rangeSet (pointerSet longest)) (λ k partials, partials ++ [k.2]) [].

(** Waiting for all goroutines: the values of [longest]. *)
Fixpoint allReturned {A B} (results : list (Loop (A * B))) : Loop (list B) :=
  match results with
  | [] => Returned []
  | Returned (_, l) :: results =>
      match allReturned results with Returned ls => Returned (l :: ls) | Running => Running | Panicked => Panicked end
  | Running :: _ => Running
  | Panicked :: _ => Panicked
  end.

Definition checkParallelInfo (history : list (list (entry V))) (kills : nat → nat → bool) (fuel : nat)
    (arrivals : list (option nat)) (rangeSet : gmap nat (list Z) → list (nat * list Z)) :
    Loop (CheckResult * linearizationInfo) :=
  match checkParallel model history true kills fuel arrivals with
  | Returned res =>
      match allReturned (imap (λ i sub, checkSingle model sub true (kills i) fuel) history) with
      | Returned longest => Returned (res, mkInfo history (map (uniquePartials rangeSet) longest))
      | Running => Running
      | Panicked => Panicked
      end
  | Running => Running
  | Panicked => Panicked
  end.

(** ** porcupine.go *)
Definition CheckOperationsTimeout (sort : list (entry V) → list (entry V)) (history : list (Operation V))
    (kills : nat → nat → bool) (fuel : nat) (arrivals : list (option nat)) : Loop CheckResult :=
  checkOperations model sort history false kills fuel arrivals.

Definition CheckOperationsVerbose (sort : list (entry V) → list (entry V)) (history : list (Operation V))
    (kills : nat → nat → bool) (fuel : nat) (arrivals : list (option nat))
    (rangeSet : gmap nat (list Z) → list (nat * list Z)) : Loop (CheckResult * linearizationInfo) :=
  let partitions := default NoPartition (Partition (fillDefault model)) history in
  checkParallelInfo (map (makeEntries sort) partitions) kills fuel arrivals rangeSet.

Definition CheckEvents (history : list (Event V)) (kills : nat → nat → bool) (fuel : nat)
    (arrivals : list (option nat)) : Loop bool :=
  match checkEvents model history false kills fuel arrivals with
  | Returned res => Returned (match res with Ok => true | _ => false end)
  | Running => Running
  | Panicked => Panicked
  end.

Definition CheckEventsTimeout (history : list (Event V)) (kills : nat → nat → bool) (fuel : nat)
    (arrivals : list (option nat)) : Loop CheckResult :=
  checkEvents model history false kills fuel arrivals.

Definition CheckEventsVerbose (history : list (Event V)) (kills : nat → nat → bool) (fuel : nat)
    (arrivals : list (option nat)) (rangeSet : gmap nat (list Z) → list (nat * list Z)) :
    Loop (CheckResult * linearizationInfo) :=
  let partitions := default NoPartitionEvent (PartitionEvent (fillDefault model)) history in
  checkParallelInfo (map (λ p, convertEntries (renumber p)) partitions) kills fuel arrivals rangeSet.

(** ** visualization.go *)
Context (DescribeOperation : option V → V → string) (DescribeState : St → string).

Record historyElement := mkElement { he_ClientId : Z; Start : Z; End : Z; Description : string }.
Record linearizationStep := mkStep { Index : Z; StateDescription : string }.
Record partitionVisualizationData := mkData {
  History : list historyElement;
  PartialLinearizations : list (list linearizationStep);
  Largest : gmap Z Z }.

(** The loop over the entries of a partition: history, [callValue] and [returnValue]. *)
Definition entryStep (elem : entry V) (s : list historyElement * gmap Z V * gmap Z V) :
    option (list historyElement * gmap Z V * gmap Z V) :=
  let '(history, callValue, returnValue) := s in
  h ← history.[id elem];
  if kind elem then
    history ← history.[id elem <~ mkElement (he_ClientId h) (Start h) (time elem)
                                     (DescribeOperation (callValue !! id elem) (value elem))];
    Some (history, callValue, <[id elem := value elem]> returnValue)
  else
    history ← history.[id elem <~ mkElement (clientId elem) (time elem) (End h) (Description h)];
    Some (history, <[id elem := value elem]> callValue, returnValue).

Fixpoint entryLoop (entries : list (entry V)) (s : list historyElement * gmap Z V * gmap Z V) :
    option (list historyElement * gmap Z V * gmap Z V) :=
  match entries with
  | [] => Some s
  | elem :: entries => s ← entryStep elem s; entryLoop entries s
  end.

(** The inner loop over one partial linearization; [i] is its index, [size] its length. *)
Fixpoint replay (callValue returnValue : gmap Z V) (i size : Z) (state : St) (partial : list Z)
    (largest : gmap Z Z * gmap Z Z) : option (list linearizationStep * (gmap Z Z * gmap Z Z)) :=
  match partial with
  | [] => Some ([], largest)
  | histId :: partial =>
      inp ← callValue !! histId; out ← returnValue !! histId;
      let '(ok, state) := Step model state inp out in
      if negb ok then None else
      let '(largestIndex, largestSize) := largest in
      let largest := if default 0 (largestSize !! histId) <? size
                     then (<[histId := i]> largestIndex, <[histId := size]> largestSize)
                     else (largestIndex, largestSize) in
      '(steps, largest) ← replay callValue returnValue i size state partial largest;
      Some (mkStep histId (DescribeState state) :: steps, largest)
  end.

Fixpoint replayAll (callValue returnValue : gmap Z V) (i : Z) (partials : list (list Z))
    (largest : gmap Z Z * gmap Z Z) : option (list (list linearizationStep) * (gmap Z Z * gmap Z Z)) :=
  match partials with
  | [] => Some ([], largest)
  | partial :: partials =>
      '(l, largest) ← replay callValue returnValue i (len partial) (Init model) partial largest;
      '(ls, largest) ← replayAll callValue returnValue (i + 1) partials largest;
      Some (l :: ls, largest)
  end.

Definition visualizePartition (sortPartials : list (list Z) → list (list Z)) (entries : list (entry V))
    (partials : list (list Z)) : option partitionVisualizationData :=
  history ← go_make (Z.quot (len entries) 2) (mkElement 0 0 0 "");
  '(history, callValue, returnValue) ← entryLoop entries (history, ∅, ∅);
  '(linearizations, largest) ← replayAll callValue returnValue 0 (sortPartials partials) (∅, ∅);
  Some (mkData history linearizations largest.1).

Definition computeVisualizationData (sortPartials : list (list Z) → list (list Z)) (info : linearizationInfo) :
    option (list partitionVisualizationData) :=
  mapM (λ p : nat * list (entry V), partials ← li_partials info !! p.1; visualizePartition sortPartials p.2 partials)
    (imap (λ i entries, (i, entries)) (li_history info)).
End info.
