(* ===== verification/CheckerPartials.v ===== *)
(** The partial linearizations that [checkSingle] reports are runs of the model, whatever
    the verdict and also when the search was killed; so their replay in
    [computeVisualizationData] does not panic, and shows the history and its operations. *)
From S2P Require Import Prelude Bitset Checker CheckerList CheckerSound CheckerLink CheckerProps CheckerSearch CheckerComplete CheckerInfo.
From stdpp Require Import sorting.
#[local] Open Scope Z_scope.

Section partials.
Context {V St : Type} `{!EqDecision St} (model : Model V St).
Context (head : nat) (h0 : gmap nat (node V)) (L0 : list nat) (pos : nat → nat).
Context (mt : nat → option nat) (val : nat → option V) (idf : nat → Z).
Context (L0_nodup : NoDup (head :: L0)) (L0_seg : seg h0 head L0).
Context (L0_sorted : StronglySorted (λ a b, (pos a < pos b)%nat) L0).
Context (L0_match : ∀ a, a ∈ L0 → n_match <$> h0 !! a = Some (mt a)).
Context (L0_value : ∀ a, a ∈ L0 → n_value <$> h0 !! a = Some (val a)).
Context (L0_id : ∀ a, a ∈ L0 → n_id <$> h0 !! a = Some (idf a)).
Context (L0_pair : ∀ a m, a ∈ L0 → mt a = Some m → m ∈ L0 ∧ (pos a < pos m)%nat ∧ mt m = None).
Context (L0_inj : ∀ a b m, a ∈ L0 → b ∈ L0 → mt a = Some m → mt b = Some m → a = b).
Abbreviation stk := (stk model h0 L0 mt val).
Abbreviation CInv := (CInv model h0 L0 mt val).

(** The ids of a run of the model through calls. *)
Definition validIds (ids : list Z) : Prop :=
  ∃ es st, ids = map idf es ∧ (∀ e, e ∈ es → e ∈ L0 ∧ isCall mt e) ∧ runs model mt val (Init model) es st.
Definition validPartial (p : option (nat * list Z)) : Prop :=
  match p with Some (_, ids) => validIds ids | None => True end.

Lemma callIds_valid h L calls s ids :
  stk h L calls s → callIds h calls = Some ids → validIds ids.
Proof using All.
  intros Hst Hids.
  destruct (stk_ok model head h0 L0 pos mt val L0_nodup L0_seg L0_sorted L0_match L0_value L0_pair L0_inj
    _ _ _ _ Hst) as [_ _ (_ & Hdi & _) _ _ _ Hcal _ _ _ Hrun].
  exists calls.*1, s. split_and!; [|done|done]. clear Hst Hrun.
  revert ids Hids. induction calls as [|[e st] calls IH]; intros ids Hids; [by injection Hids as <-|].
  unfold callIds in Hids. simpl in Hids.
  apply bind_Some in Hids as (i & Hi & Hids). apply bind_Some in Hids as (ids' & Hids & [= <-]).
  apply bind_Some in Hi as (nd & Hnd & [= <-]). simpl. f_equal.
  - specialize (Hdi e). rewrite Hnd, L0_id in Hdi by (apply Hcal; by left). by injection Hdi.
  - apply IH; [|done]. intros x Hx. apply Hcal. by right.
Qed.

Lemma updateLongest_valid k cl sq ids : ∀ longest longest',
  validIds sq → Forall validPartial longest → updateLongest k cl sq ids longest = Some longest' →
  Forall validPartial longest'.
Proof using Type.
  induction ids as [|i ids IH]; intros longest longest' Hsq Hall H; simpl in H; [by injection H as <-|].
  apply bind_Some in H as (old & _ & H). apply bind_Some in H as (l1 & Hl1 & H).
  apply (IH l1); [done| |done].
  destruct old as [[? o]|]; [case_if_in Hl1|]; go_inv; try done; by apply Forall_insert.
Qed.

Lemma checkStep_valid computePartial killed k s r :
  CInv s → Forall validPartial (c_longest s) →
  checkStep model head computePartial killed k s = Some r →
  match r with inl s' => Forall validPartial (c_longest s') | inr (_, lng) => Forall validPartial lng end.
Proof using All.
  intros (L & pre & suf & Hst & _) Hall H. unfold checkStep in H.
  apply bind_Some in H as (hd & Hhd & H). case_bool_decide as Hnil.
  { apply bind_Some in H as (sq & Hsq & [= <-]). apply Forall_replicate. simpl. by eapply callIds_valid. }
  destruct killed; [by injection H as <-|].
  apply bind_Some in H as (e & _ & H). apply bind_Some in H as (en & _ & H).
  destruct (n_match en) as [m|].
  - apply bind_Some in H as (mn & _ & H). apply bind_Some in H as (inp & _ & H).
    apply bind_Some in H as (out & _ & H).
    destruct (Step model (c_state s) inp out) as [ok st']. destruct ok; [|by injection H as <-].
    apply bind_Some in H as (nl & _ & H). case_if_in H; [|by injection H as <-].
    apply bind_Some in H as (lin & _ & H). apply bind_Some in H as (h' & _ & H).
    by apply bind_Some in H as (hd' & _ & [= <-]).
  - destruct (last (c_calls s)) as [[top st1]|]; [|by injection H as <-].
    apply bind_Some in H as (lng & Hlng & H). apply bind_Some in H as (tn & _ & H).
    apply bind_Some in H as (lin & _ & H). apply bind_Some in H as (h' & _ & H).
    apply bind_Some in H as (tn' & _ & [= <-]). simpl.
    destruct computePartial; [|by injection Hlng as <-].
    apply bind_Some in Hlng as (ids & Hids & Hlng).
    eapply updateLongest_valid; [by eapply callIds_valid|done|done].
Qed.

Lemma checkLoop_valid computePartial kill fuel : ∀ k s b lng,
  CInv s → Forall validPartial (c_longest s) →
  checkLoop model head computePartial kill fuel k s = Returned (b, lng) → Forall validPartial lng.
Proof using All.
  induction fuel as [|fuel IH]; intros k s b lng Hi Hall H; [done|]. cbn [checkLoop] in H.
  destruct (checkStep model head computePartial (kill k) k s) as [r|] eqn:Hstep; [|done].
  pose proof (checkStep_valid _ _ _ _ _ Hi Hall Hstep) as Hv.
  pose proof (CInv_step model head h0 L0 pos mt val L0_nodup L0_seg L0_sorted L0_match L0_value L0_pair
    L0_inj _ _ _ _ _ Hi Hstep) as Hc.
  destruct r as [s'|[b' l]]; [by eapply IH|]. by injection H as <- <-.
Qed.
End partials.

Section replay.
Context {V St : Type} `{!EqDecision St} (model : Model V St).
Implicit Types (history : list (Operation V)).

(** A sequence of indices of operations that the model accepts. *)
Definition acceptedIds history (ids : list Z) : Prop :=
  ∃ ks ops, ids = map Z.of_nat ks ∧ mapM (history !!.) ks = Some ops ∧ accepts model (Init model) ops.

Lemma checkSingle_partials sort history computePartial kill fuel b lng :
  sorts sort → Forall (λ op, Call op ≤ Return op) history →
  checkSingle model (makeEntries sort history) computePartial kill fuel = Returned (b, lng) →
  Forall (λ p, match p with Some (_, ids) => acceptedIds history ids | None => True end) lng.
Proof.
  intros Hsort Hcr H. pose proof (makeEntries_wf sort history Hsort Hcr) as Hwf.
  set (es := makeEntries sort history) in *.
  pose proof (makeEntries_length sort history Hsort) as Hlen. fold es in Hlen.
  destruct (startCheck_total model es (length history) Hlen) as (h0 & b0 & Hst & Hseg & Hdata & _).
  pose proof (start_nodes es h0 Hdata) as Hmv.
  unfold checkSingle in H. rewrite Hst in H.
  assert (Forall (validPartial model (downTo (length es)) (matchOf es) (valueOf es) (idOf es)) lng) as Hv.
  { eapply (checkLoop_valid model (length es) h0 (downTo (length es)) (posOf es) (matchOf es) (valueOf es)
      (idOf es) (downTo_NoDup _) Hseg (downTo_sorted _ _ (Nat.le_refl _)) (λ x Hx, proj1 (Hmv x Hx))
      (λ x Hx, proj1 (proj2 (Hmv x Hx))) (λ x Hx, proj2 (proj2 (Hmv x Hx)))
      (matchOf_pair history es Hwf) (matchOf_inj history es Hwf)); [| |exact H].
    - exists (downTo (length es)), [], (downTo (length es)); simpl.
      split_and!; [apply stk_start|done|done|constructor].
    - simpl. by apply Forall_replicate. }
  eapply Forall_impl; [exact Hv|]. intros [[k ids]|]; [|done]. intros (cs & st & -> & Hcs & Hruns).
  destruct (runs_accepts model history es Hwf cs (Init model) st) as (ops & Hops & Hacc); [|done|].
  - by apply Forall_forall.
  - exists (map (opOf es) cs), ops. split_and!; [|done|done]. rewrite map_map. apply map_ext_in.
    intros e He%list_elem_of_In. destruct (Hcs e He) as [He1 He2].
    by destruct (idOf_call history es Hwf e He1 He2).
Qed.

Context (DescribeOperation : option V → V → string) (DescribeState : St → string).

(** What the visualization shows of an operation. *)
Definition elementOf (op : Operation V) : historyElement :=
  mkElement (ClientId op) (Call op) (Return op) (DescribeOperation (Some (Input op)) (Output op)).

Section entries.
Context (history : list (Operation V)) (es : list (entry V)) (Hwf : wfEntries history es).

(** What the maps and the elements hold after the entries [l]. *)
Definition shown (l : list (entry V)) (s : list historyElement * gmap Z V * gmap Z V) : Prop :=
  let '(hs, cv, rv) := s in
  len hs = len history ∧
  ∀ k op, history !! k = Some op →
    (callE k op ∈ l → cv !! Z.of_nat k = Some (Input op)) ∧
    (retE k op ∈ l → rv !! Z.of_nat k = Some (Output op)) ∧
    ∃ h, hs.[Z.of_nat k] = Some h ∧
      (callE k op ∈ l → he_ClientId h = ClientId op ∧ Start h = Call op) ∧
      (retE k op ∈ l → End h = Return op ∧
         Description h = DescribeOperation (Some (Input op)) (Output op)).

Lemma of_entry k op k0 op0 :
  history !! k = Some op → history !! k0 = Some op0 →
  (callE k op = callE k0 op0 → k = k0) ∧ (retE k op = retE k0 op0 → k = k0).
Proof using Type. intros _ _. split; intros [= ? ? ?]; lia. Qed.

Lemma entryStep_shown l e r s :
  es = l ++ e :: r → shown l s → ∃ s', entryStep DescribeOperation e s = Some s' ∧ shown (l ++ [e]) s'.
Proof using Hwf.
  intros Hes. destruct s as [[hs cv] rv]. intros [Hlen Hsh].
  assert (es !! length l = Some e) as He by (rewrite Hes; by apply list_lookup_middle).
  destruct (we_in _ _ Hwf _ _ He) as (k0 & op0 & Hop0 & Hcase).
  destruct (Hsh k0 op0 Hop0) as (Hcv & Hrv & h & Hh & Hhc & Hhr).
  pose proof (go_index_Some_lt _ _ _ Hh) as Hrange.
  assert (id e = Z.of_nat k0) as Hid by (destruct Hcase as [->| ->]; done).
  unfold entryStep. rewrite Hid, Hh; cbn [mbind option_bind]. rewrite !go_store_Some by done.
  destruct Hcase as [->| ->]; simpl; (eexists; split; [reflexivity|]);
    (split; [by rewrite len_insert|]); intros k op Hop; setoid_rewrite elem_of_app; setoid_rewrite list_elem_of_singleton;
    (destruct (decide (k = k0)) as [->|Hne]; [assert (op = op0) as -> by congruence|]).
  - rewrite lookup_insert_eq. split_and!; [done|intros [?|?]; [by apply Hrv|done]|].
    eexists. rewrite go_index_insert_eq by lia. split; [reflexivity|]. simpl.
    split; [done|]. intros [?|?]; [by apply Hhr|done].
  - destruct (Hsh k op Hop) as (H1 & H2 & h' & Hh' & H3 & H4).
    destruct (of_entry k op k0 op0 Hop Hop0) as [Hc _].
    rewrite lookup_insert_ne by lia.
    split_and!; [intros [?|?]; naive_solver|intros [?|?]; [by apply H2|done]|].
    exists h'. rewrite go_index_insert_ne by lia.
    split_and!; [done|intros [?|?]; naive_solver|intros [?|?]; [by apply H4|done]].
  - assert (callE k0 op0 ∈ l) as Hcl.
    { destruct (we_call _ _ Hwf _ _ Hop0) as (i & j & Hij & Hi & Hj).
      assert (j = length l) as -> by (by eapply (we_inj _ _ Hwf)).
      rewrite Hes, lookup_app_l in Hi by done. by eapply list_elem_of_lookup_2. }
    rewrite lookup_insert_eq. split_and!; [intros [?|?]; [by apply Hcv|done]|done|].
    eexists. rewrite go_index_insert_eq by lia. split; [reflexivity|]. simpl.
    split; [intros [?|?]; [by apply Hhc|done]|]. intros _. by rewrite (Hcv Hcl).
  - destruct (Hsh k op Hop) as (H1 & H2 & h' & Hh' & H3 & H4).
    destruct (of_entry k op k0 op0 Hop Hop0) as [_ Hc].
    rewrite lookup_insert_ne by lia.
    split_and!; [intros [?|?]; [by apply H1|done]|intros [?|?]; naive_solver|].
    exists h'. rewrite go_index_insert_ne by lia.
    split_and!; [done|intros [?|?]; [by apply H3|done]|intros [?|?]; naive_solver].
Qed.

Lemma entryLoop_shown r : ∀ l s,
  es = l ++ r → shown l s → ∃ s', entryLoop DescribeOperation r s = Some s' ∧ shown es s'.
Proof using Hwf.
  induction r as [|e r IH]; intros l s Hes Hsh; simpl.
  - rewrite app_nil_r in Hes. exists s. by rewrite Hes.
  - destruct (entryStep_shown l e r s Hes Hsh) as (s1 & -> & Hsh1). simpl.
    apply (IH (l ++ [e])); [by rewrite <-app_assoc|done].
Qed.

Lemma entryLoop_total :
  ∃ cv rv, entryLoop DescribeOperation es (replicate (length history) (mkElement 0 0 0 ""), ∅, ∅) =
      Some (map elementOf history, cv, rv) ∧
    ∀ k op, history !! k = Some op → cv !! Z.of_nat k = Some (Input op) ∧ rv !! Z.of_nat k = Some (Output op).
Proof using Hwf.
  destruct (entryLoop_shown es [] (replicate (length history) (mkElement 0 0 0 ""), ∅, ∅))
    as ([[hs cv] rv] & -> & Hlen & Hsh); [done| |].
  { split; [by rewrite len_replicate|]. intros k op Hop.
    split_and!; [by intros ?%not_elem_of_nil..|]. apply lookup_lt_Some in Hop.
    eexists. split_and!; [by apply go_index_replicate; lia|by intros ?%not_elem_of_nil..]. }
  assert (∀ k op, history !! k = Some op → callE k op ∈ es ∧ retE k op ∈ es) as Hin.
  { intros k op Hop. destruct (we_call _ _ Hwf _ _ Hop) as (i & j & _ & Hi & Hj).
    split; by eapply list_elem_of_lookup_2. }
  exists cv, rv. split.
  - do 3 f_equal. apply list_eq. intros k. rewrite list_lookup_fmap.
    destruct (history !! k) as [op|] eqn:Hop; simpl.
    + destruct (Hsh k op Hop) as (_ & _ & h & Hh & Hc & Hr). destruct (Hin k op Hop) as [H1 H2].
      rewrite go_index_of_nat in Hh. rewrite Hh. f_equal. destruct h as [a b c d]; simpl in *.
      destruct (Hc H1) as [-> ->]. by destruct (Hr H2) as [-> ->].
    + apply lookup_ge_None. apply lookup_ge_None in Hop. unfold len in Hlen. lia.
  - intros k op Hop. destruct (Hsh k op Hop) as (Hc & Hr & _). destruct (Hin k op Hop). auto.
Qed.
End entries.

(** ** The replay of the partial linearizations *)
Section replayed.
Context (history : list (Operation V)) (cv rv : gmap Z V).
Context (Hmaps : ∀ k op, history !! k = Some op →
  cv !! Z.of_nat k = Some (Input op) ∧ rv !! Z.of_nat k = Some (Output op)).

(** [Largest] names, for every operation that occurs in some partial linearization, one of
    the longest of those in which it occurs. *)
Definition isLargest (ps : list (list Z)) (largest : gmap Z Z) : Prop :=
  ∀ i, match largest !! i with
       | Some j => ∃ p, ps.[j] = Some p ∧ i ∈ p ∧ ∀ p', p' ∈ ps → i ∈ p' → len p' ≤ len p
       | None => ∀ p, p ∈ ps → i ∉ p
       end.

(** The same after the partial linearizations [seen] and the prefix [q] of the next one, of
    length [size]. *)
Definition largestInv (ps seen : list (list Z)) (q : list Z) (size : Z) (lg : gmap Z Z * gmap Z Z) : Prop :=
  ∀ i, match lg.1 !! i, lg.2 !! i with
       | Some j, Some z => ∃ p, ps.[j] = Some p ∧ z = len p ∧ i ∈ p ∧
           (∀ p', p' ∈ seen → i ∈ p' → len p' ≤ z) ∧ (i ∈ q → size ≤ z)
       | None, None => (∀ p', p' ∈ seen → i ∉ p') ∧ i ∉ q
       | _, _ => False
       end.

Lemma largestInv_step ps seen q h rest p i lg :
  ps.[i] = Some p → p = q ++ h :: rest → largestInv ps seen q (len p) lg →
  largestInv ps seen (q ++ [h]) (len p)
    (if default 0 (lg.2 !! h) <? len p then (<[h := i]> lg.1, <[h := len p]> lg.2) else lg).
Proof using All.
  intros Hp Hq Hinv. pose proof (Hinv h) as Hh.
  assert (0 < len p) as Hpos by (rewrite Hq, len_app, len_cons; pose proof (len_nonneg q); pose proof (len_nonneg rest); lia).
  assert (h ∈ p) as Hhp by (rewrite Hq; set_solver).
  case_if; intros x; simpl; (destruct (decide (h = x)) as [<-|Hne]).
  - rewrite !lookup_insert_eq. exists p. split_and!; [done|done|done| |done].
    intros p' Hp' Hin. destruct (lg.1 !! h) as [j|], (lg.2 !! h) as [z|]; simpl in *; try done.
    + destruct Hh as (p0 & _ & -> & _ & Hb & _). specialize (Hb p' Hp' Hin). lia.
    + by destruct Hh as [Hb _]; destruct (Hb p' Hp').
  - rewrite !lookup_insert_ne by done. specialize (Hinv x).
    destruct (lg.1 !! x), (lg.2 !! x); try done; setoid_rewrite elem_of_app;
      setoid_rewrite list_elem_of_singleton; naive_solver.
  - destruct (lg.1 !! h) as [j|], (lg.2 !! h) as [z|]; simpl in *; try done; [|lia].
    destruct Hh as (p0 & ? & ? & ? & ? & _). exists p0. split_and!; try done.
  - specialize (Hinv x).
    destruct (lg.1 !! x), (lg.2 !! x); try done; setoid_rewrite elem_of_app;
      setoid_rewrite list_elem_of_singleton; naive_solver.
Qed.

Lemma replay_partial_total ps seen p i ks : ∀ q s lg ops,
  ps.[i] = Some p → p = q ++ map Z.of_nat ks → mapM (history !!.) ks = Some ops → accepts model s ops →
  largestInv ps seen q (len p) lg →
  ∃ steps lg', replay model DescribeState cv rv i (len p) s (map Z.of_nat ks) lg = Some (steps, lg') ∧
    map Index steps = map Z.of_nat ks ∧ largestInv ps seen p (len p) lg'.
Proof using All.
  induction ks as [|k ks IH]; intros q s lg ops Hp Hq Hops Hacc Hinv; simpl in *.
  { rewrite app_nil_r in Hq. subst q. by exists [], lg. }
  apply bind_Some in Hops as (op & Hop & Hops). apply bind_Some in Hops as (ops' & Hops & [= <-]).
  destruct Hacc as (s' & Hstep & Hacc). destruct (Hmaps k op Hop) as [-> ->]. simpl. rewrite Hstep. simpl.
  pose proof (largestInv_step ps seen q (Z.of_nat k) (map Z.of_nat ks) p i lg Hp Hq Hinv) as Hinv'.
  destruct lg as [l1 l2]; simpl in Hinv' |- *.
  destruct (IH (q ++ [Z.of_nat k]) s' (if default 0 (l2 !! Z.of_nat k) <? len p
      then (<[Z.of_nat k := i]> l1, <[Z.of_nat k := len p]> l2) else (l1, l2)) ops')
    as (steps & lg' & -> & Hix & Hlg); try done; [by rewrite <-app_assoc|].
  simpl. eexists _, lg'. split_and!; [reflexivity| |done]. simpl. by rewrite Hix.
Qed.

Lemma replayAll_total rest : ∀ ps seen lg,
  ps = seen ++ rest → Forall (acceptedIds history) rest → largestInv ps seen [] 0 lg →
  ∃ ls lg', replayAll model DescribeState cv rv (len seen) rest lg = Some (ls, lg') ∧
    map (map Index) ls = rest ∧ largestInv ps ps [] 0 lg'.
Proof using All.
  induction rest as [|p rest IH]; intros ps seen lg Hps Hall Hinv; simpl.
  { rewrite app_nil_r in Hps. subst ps. by exists [], lg. }
  apply Forall_cons in Hall as [(ks & ops & Hp & Hops & Hacc) Hall].
  assert (ps.[len seen] = Some p) as Hat.
  { unfold len. rewrite go_index_of_nat, Hps. by apply list_lookup_middle. }
  destruct (replay_partial_total ps seen p (len seen) ks [] (Init model) lg ops Hat)
    as (steps & lg1 & Hrun & Hix & Hinv1); [done|done|done| |].
  { intros x. specialize (Hinv x). destruct (lg.1 !! x), (lg.2 !! x); try done. naive_solver set_solver. }
  rewrite <-Hp in Hrun. rewrite Hrun. simpl.
  destruct (IH ps (seen ++ [p]) lg1) as (ls & lg2 & Hrest & Hils & Hinv2).
  - by rewrite <-app_assoc.
  - done.
  - intros x. specialize (Hinv1 x). destruct (lg1.1 !! x), (lg1.2 !! x); try done.
    + destruct Hinv1 as (p0 & ? & ? & ? & Hb & Hc). exists p0. split_and!; try done.
      * intros p' [?| ->%list_elem_of_singleton]%elem_of_app ?; [by apply Hb|by apply Hc].
      * by intros ?%not_elem_of_nil.
    + destruct Hinv1 as [Hb Hc]. split; [|apply not_elem_of_nil].
      by intros p' [?| ->%list_elem_of_singleton]%elem_of_app; [apply Hb|].
  - rewrite len_snoc in Hrest. rewrite Hrest. simpl. eexists _, lg2. split_and!; [reflexivity| |done].
    simpl. by rewrite Hils, Hix, Hp.
Qed.
End replayed.

Lemma visualizePartition_total sort sortPartials history partials :
  sorts sort → Forall (λ op, Call op ≤ Return op) history →
  (∀ l, sortPartials l ≡ₚ l) → Forall (acceptedIds history) partials →
  ∃ d, visualizePartition model DescribeOperation DescribeState sortPartials (makeEntries sort history) partials =
      Some d ∧
    History d = map elementOf history ∧
    map (map Index) (PartialLinearizations d) = sortPartials partials ∧
    isLargest (sortPartials partials) (Largest d).
Proof.
  intros Hsort Hcr Hperm Hall. pose proof (makeEntries_wf sort history Hsort Hcr) as Hwf.
  unfold visualizePartition. unfold len at 1. rewrite (makeEntries_length sort history Hsort).
  replace (Z.of_nat (2 * length history) ÷ 2) with (Z.of_nat (length history))
    by (rewrite Z.quot_div_nonneg by lia; rewrite Nat2Z.inj_mul, Z.mul_comm; by rewrite Z.div_mul).
  rewrite go_make_Some by lia. rewrite Nat2Z.id. cbn [mbind option_bind].
  destruct (entryLoop_total history _ Hwf) as (cv & rv & -> & Hmaps). cbn [mbind option_bind].
  destruct (replayAll_total history cv rv Hmaps (sortPartials partials) (sortPartials partials) [] (∅, ∅))
    as (ls & lg & Hrun & Hls & Hlg); [done|by rewrite Hperm| |].
  { intros x. simpl. rewrite !lookup_empty. split; [by intros p' ?%not_elem_of_nil|apply not_elem_of_nil]. }
  rewrite len_nil in Hrun. rewrite Hrun. cbn [mbind option_bind].
  eexists. split_and!; [reflexivity|done|done|]. simpl. intros i. specialize (Hlg i).
  destruct (lg.1 !! i), (lg.2 !! i); try done; [|by destruct Hlg].
  destruct Hlg as (p & ? & -> & ? & ? & _). eauto.
Qed.

Lemma uniquePartials_in rangeSet longest ids :
  (∀ m, rangeSet m ≡ₚ map_to_list m) → ids ∈ uniquePartials rangeSet longest →
  ∃ k, Some (k, ids) ∈ longest.
Proof using Type.
  intros Hr. unfold uniquePartials, go_range.
  assert (∀ l acc, foldl (λ (s : list (list Z)) (x : nat * list Z), s ++ [x.2]) acc l = acc ++ map snd l) as ->.
  { induction l as [|x l IH]; intros acc; simpl; [by rewrite app_nil_r|]. by rewrite IH, <-app_assoc. }
  simpl. intros ([k ids'] & -> & Hin)%list_elem_of_fmap. rewrite Hr in Hin.
  apply elem_of_map_to_list in Hin. exists k. simpl. revert k ids' Hin. unfold pointerSet, go_range.
  induction longest as [|v longest IH] using rev_ind; intros k ids Hin; [by simpl in Hin; rewrite lookup_empty in Hin|].
  rewrite foldl_app in Hin; simpl in Hin. apply elem_of_app.
  destruct v as [[k0 ids0]|]; [|left; by apply IH].
  apply lookup_insert_Some in Hin as [[<- <-]|[_ Hin]]; [right; by left|left; by apply IH].
Qed.

(** What [computeVisualizationData] makes of a partition. *)
Definition shows (part : list (Operation V)) (d : partitionVisualizationData) : Prop :=
  let partials := map (map Index) (PartialLinearizations d) in
  History d = map elementOf part ∧ Forall (acceptedIds part) partials ∧ isLargest partials (Largest d).

(** Whatever the verdict, also when the search was cut short: the data can be computed. *)
Lemma visualization_no_panic sort rangeSet sortPartials ps kills fuel arrivals res info :
  sorts sort → (∀ m, rangeSet m ≡ₚ map_to_list m) → (∀ l, sortPartials l ≡ₚ l) →
  Forall (Forall (λ op, Call op ≤ Return op)) ps →
  checkParallelInfo model (map (makeEntries sort) ps) kills fuel arrivals rangeSet = Returned (res, info) →
  ∃ data, computeVisualizationData model DescribeOperation DescribeState sortPartials info = Some data ∧
    Forall2 shows ps data.
Proof.
  intros Hsort Hrange Hperm Hcr H. unfold checkParallelInfo in H.
  destruct (checkParallel _ _ _ _ _ _) as [res'| |]; try done.
  destruct (allReturned _) as [lngs| |] eqn:Hall; try done. injection H as <- <-.
  assert (Forall2 (λ p lng, Forall (λ q, match q with Some (_, ids) => acceptedIds p ids | None => True end) lng)
    ps lngs) as Hlngs.
  { clear -Hall Hsort Hcr. revert kills lngs Hall. induction Hcr as [|p ps Hp Hcr IH]; intros kills lngs Hall.
    - injection Hall as <-. constructor.
    - simpl in Hall. destruct (checkSingle _ _ _ _ _) as [[b lng]| |] eqn:Hs; try done.
      destruct (allReturned _) as [ls| |] eqn:Hall'; try done. injection Hall as <-.
      constructor; [by eapply checkSingle_partials|]. by apply (IH (λ i, kills (S i))). }
  clear Hall. unfold computeVisualizationData; simpl.
  set (parts := map (uniquePartials rangeSet) lngs).
  assert (∀ off ps', Forall2 (λ p lng, Forall (λ q, match q with Some (_, ids) => acceptedIds p ids | None => True end) lng)
      ps' (drop off lngs) → Forall (Forall (λ op, Call op ≤ Return op)) ps' →
    ∃ data, mapM (λ p : nat * list (entry V), partials ← parts !! p.1;
        visualizePartition model DescribeOperation DescribeState sortPartials p.2 partials)
      (imap (λ i entries, ((off + i)%nat, entries)) (map (makeEntries sort) ps')) = Some data ∧
      Forall2 shows ps' data) as Hx.
  { intros off ps'. revert off. induction ps' as [|p ps' IH]; intros off HF Hcr'; simpl; [by exists []|].
    apply Forall_cons in Hcr' as [Hp Hcr'].
    destruct (drop off lngs) as [|lng rest] eqn:Hd; [by inversion HF|].
    apply Forall2_cons in HF as [Hlng HF].
    assert (lngs !! off = Some lng) as Hoff.
    { rewrite <-(Nat.add_0_r off), <-lookup_drop, Hd. done. }
    assert (parts !! (off + 0)%nat = Some (uniquePartials rangeSet lng)) as ->.
    { rewrite Nat.add_0_r. unfold parts. change (map ?f ?l) with (f <$> l). by rewrite list_lookup_fmap, Hoff. }
    cbn [mbind option_bind].
    destruct (visualizePartition_total sort sortPartials p (uniquePartials rangeSet lng) Hsort Hp Hperm)
      as (d & -> & Hh & Hl & Hlarge).
    { apply Forall_forall. intros ids Hids. destruct (uniquePartials_in _ _ _ Hrange Hids) as [k Hk].
      rewrite Forall_forall in Hlng. by apply (Hlng _ Hk). }
    cbn [mbind option_bind].
    destruct (IH (S off)) as (data & Hdata & Hs); [|done|].
    { replace rest with (drop (S off) lngs) in HF; [done|].
      replace (S off) with (off + 1)%nat by lia. by rewrite <-drop_drop, Hd. }
    erewrite imap_ext; [rewrite Hdata|]; [|intros; simpl; f_equal; lia].
    cbn [mbind option_bind]. eexists. split; [reflexivity|]. constructor; [|done].
    unfold shows. rewrite Hl. split_and!; [done| |done]. rewrite Hperm. apply Forall_forall. intros ids Hids.
    destruct (uniquePartials_in _ _ _ Hrange Hids) as [k Hk].
    rewrite Forall_forall in Hlng. by apply (Hlng _ Hk). }
  destruct (Hx 0%nat ps Hlngs Hcr) as (data & Hdata & HF). eauto.
Qed.

(** C28: a verbose check can be visualized. For a model whose [Equal] respects its [Step], a
    history whose operations return after they are called and a partition function that gives at
    least one partition, [CheckOperationsVerbose], without a timeout, returns within the same
    bound, its verdict is Ok exactly for linearizable histories, and on the information it
    returns [computeVisualizationData] does not reach its panic: every partial linearization is
    accepted by the model, the elements are the operations of the history, and [Largest] names a
    longest partial linearization for each operation that has one. *)
Theorem verbose_visualizes sort rangeSet sortPartials history fuel arrivals :
  sorts sort → equalRespected model →
  (∀ m, rangeSet m ≡ₚ map_to_list m) → (∀ l, sortPartials l ≡ₚ l) →
  let partitions := default NoPartition (Partition model) history in
  partitions ≠ [] → Forall (Forall (λ op, Call op ≤ Return op)) partitions →
  Forall (λ p, (enough (length p) ≤ fuel)%nat) partitions →
  arrivals ≡ₚ map Some (seq 0 (length partitions)) →
  ∃ res info data,
    CheckOperationsVerbose model sort history (λ _ _, false) fuel arrivals rangeSet = Returned (res, info) ∧
    (res = Ok ↔ Forall (linearizable model) partitions) ∧
    computeVisualizationData model DescribeOperation DescribeState sortPartials info = Some data ∧
    Forall2 shows partitions data.
Proof.
  intros Hsort Heq Hrange Hperm partitions Hne Hcr Hfuel Harr.
  destruct (checkParallel_decides model sort partitions true fuel arrivals) as (res & Hres & _ & Hok); try done.
  destruct (partitions_decide model sort partitions true fuel Hsort Heq Hcr Hfuel) as (bs & lngs & Hsingle & Hl & _).
  assert (allReturned (zip_with (λ b lng, Returned (b, lng)) bs lngs) = Returned lngs) as Hret.
  { clear -Hl. revert lngs Hl. induction bs as [|b bs IH]; intros [|lng lngs] Hl; simpl in *; try done.
    by rewrite IH by lia. }
  assert (checkParallelInfo model (map (makeEntries sort) partitions) (λ _ _, false) fuel arrivals rangeSet =
    Returned (res, mkInfo (map (makeEntries sort) partitions) (map (uniquePartials rangeSet) lngs))) as Hinfo.
  { unfold checkParallelInfo. by rewrite Hres, Hsingle, Hret. }
  destruct (visualization_no_panic _ _ _ _ _ _ _ _ _ Hsort Hrange Hperm Hcr Hinfo) as (data & Hdata & HF).
  exists res, (mkInfo (map (makeEntries sort) partitions) (map (uniquePartials rangeSet) lngs)), data.
  by split_and!.
Qed.
End replay.
