(* ===== verification/CheckerKV.v ===== *)
(** The checker with the key/value model of [models/kv.go]: the model as a [Model], its
    partition, and a sort. *)
From S2P Require Import Prelude Checker CheckerList CheckerSound CheckerLink CheckerProps CheckerSearch CheckerComplete KVModel.
From stdpp Require Import sorting.
#[local] Open Scope Z_scope.

(** ** Sorted lists *)
Lemma StronglySorted_weaken {A} (R S : A → A → Prop) l : (∀ a b, R a b → S a b) → StronglySorted R l → StronglySorted S l.
Proof. intros HRS. induction 1 as [|x l _ IH Hx]; constructor; [done|]. eapply Forall_impl; [exact Hx|auto]. Qed.

Lemma StronglySorted_at {A} (R : A → A → Prop) l (i j : nat) a b :
  StronglySorted R l → (i < j)%nat → l !! i = Some a → l !! j = Some b → R a b.
Proof.
  intros Hs. revert i j. induction Hs as [|x l _ IH Hx]; intros [|i] [|j] Hij Ha Hb; try lia; try done; simpl in *.
  - injection Ha as ->. rewrite Forall_lookup in Hx. by eapply Hx.
  - eapply (IH i j); [lia|done..].
Qed.

(** A sort by [Less]. *)
Section sort.
Context {V : Type}.
Definition notAfter (a b : entry V) : Prop := Less b a = false.
#[export] Instance notAfter_dec a b : Decision (notAfter a b).
Proof. unfold notAfter. apply _. Defined.

Lemma notAfter_spec a b :
  notAfter a b ↔ time a < time b ∨ (time a = time b ∧ (kind a = true → kind b = true)).
Proof.
  unfold notAfter, Less. destruct (Z.eqb_spec (time b) (time a)) as [Heq|Hne]; simpl.
  - destruct (kind a), (kind b); simpl; naive_solver lia.
  - rewrite Z.ltb_ge. lia.
Qed.

#[export] Instance notAfter_total : Total notAfter.
Proof.
  intros a b. rewrite !notAfter_spec. destruct (Z.lt_trichotomy (time a) (time b)) as [?|[?|?]]; [auto| |auto].
  destruct (kind a), (kind b); auto.
Qed.
#[export] Instance notAfter_trans : Transitive notAfter.
Proof. intros a b c. rewrite !notAfter_spec. intros [?|[? ?]] [?|[? ?]]; [left; lia..|right; split; [lia|auto]]. Qed.

Definition sortEntries (l : list (entry V)) : list (entry V) := merge_sort notAfter l.

Lemma sortEntries_sorts : sorts sortEntries.
Proof.
  intros l. split; [apply merge_sort_Permutation|].
  intros i j a b Hij Ha Hb. exact (StronglySorted_at notAfter _ i j a b (StronglySorted_merge_sort notAfter l) Hij Ha Hb).
Qed.
End sort.

(** [KvModel] as the checker sees it: inputs and outputs are [interface{}] values. *)
Abbreviation Val := (KvModel.KvInput + KvModel.KvOutput)%type.

Definition kvStep (st : string) (inp out : Val) : bool * string :=
  match inp, out with
  | inl i, inr o => KvModel.Step st i o
  | _, _ => (false, st)
  end.

(** The partition by key, on operations with their times. *)
Definition keyOf (op : Operation Val) : string :=
  match Input op with inl i => KvModel.in_Key i | _ => "" end.
Definition kvPartition (history : list (Operation Val)) : list (list (Operation Val)) :=
  let mp : gmap string (list (Operation Val)) :=
    foldl (λ mp v, <[keyOf v := default [] (mp !! keyOf v) ++ [v]]> mp) ∅ history in
  map (λ k, default [] (mp !! k)) (merge_sort String.le (map_to_list mp).*1).

Definition kvModel : Model Val string := mkModel (Some kvPartition) None KvModel.Init kvStep None.

(** ** The partition by key *)
Definition ofKey (k : string) (h : list (Operation Val)) : list (Operation Val) :=
  List.filter (λ op, (keyOf op =? k)%string) h.

Definition groups (h : list (Operation Val)) : gmap string (list (Operation Val)) :=
  foldl (λ mp v, <[keyOf v := default [] (mp !! keyOf v) ++ [v]]> mp) ∅ h.

Lemma groups_snoc h v : groups (h ++ [v]) = <[keyOf v := default [] (groups h !! keyOf v) ++ [v]]> (groups h).
Proof. unfold groups. by rewrite foldl_app. Qed.

Lemma groups_ofKey h k : default [] (groups h !! k) = ofKey k h.
Proof.
  induction h as [|v h IH] using rev_ind; [done|]. unfold ofKey. rewrite groups_snoc, List.filter_app. simpl.
  destruct (String.eqb_spec (keyOf v) k) as [<-|Hne].
  - rewrite lookup_insert_eq. simpl. by rewrite IH.
  - by rewrite lookup_insert_ne, app_nil_r.
Qed.

(** A partition is the history of one key. *)
Lemma kvPartition_keys h : ∃ keys, kvPartition h = map (λ k, ofKey k h) keys ∧ (h ≠ [] → keys ≠ []).
Proof.
  exists (merge_sort String.le (map_to_list (groups h)).*1). split.
  - unfold kvPartition. fold (groups h). apply map_ext. intros k. apply groups_ofKey.
  - intros Hne He. assert ((map_to_list (groups h)).*1 = []) as Hnil.
    { apply Permutation_nil. rewrite <-He. apply merge_sort_Permutation. }
    apply fmap_nil_inv in Hnil. apply map_to_list_empty_iff in Hnil.
    destruct h as [|v h _] using rev_ind; [done|]. rewrite groups_snoc in Hnil. by apply insert_non_empty in Hnil.
Qed.

Lemma kvModel_respected : equalRespected kvModel.
Proof. intros s1 s2 i o. unfold modelEqual, ShallowEqual; simpl. intros ->%bool_decide_eq_true. by rewrite bool_decide_true. Qed.
