(* ===== verification/CheckerWitness.v ===== *)
(** The checker with the key/value model of [models/kv.go]: a history it accepts, and one on
    which it never answers. *)
From S2P Require Import Prelude Bitset Checker CheckerList CheckerSound CheckerLink CheckerProps CheckerSearch CheckerComplete CheckerInfo CheckerPartials KVModel CheckerKV.
From stdpp Require Import sorting.
#[local] Open Scope Z_scope.

Definition kvOp (client : Z) (code : Z) (k v : string) (call : Z) (out : string) (ret : Z) : Operation Val :=
  mkOperation client (inl (KvModel.mkIn code k v)) call (inr (KvModel.mkOut out)) ret.

(** A read that overlaps a write and sees it, although the write was called later. *)
Definition overlapping : list (Operation Val) :=
  [kvOp 0 0 "x" "" 1 "a" 6; kvOp 1 1 "x" "a" 2 "" 5; kvOp 2 2 "y" "b" 3 "" 4].

Lemma overlapping_partitions :
  kvPartition overlapping =
  [[kvOp 0 0 "x" "" 1 "a" 6; kvOp 1 1 "x" "a" 2 "" 5]; [kvOp 2 2 "y" "b" 3 "" 4]].
Proof. by vm_compute. Qed.

Lemma CheckOperations_sound_witness :
  CheckOperations kvModel sortEntries overlapping (λ _ _, false) 20 [Some 1%nat; Some 0%nat] = Returned true ∧
  Forall (linearizable kvModel)
    [[kvOp 0 0 "x" "" 1 "a" 6; kvOp 1 1 "x" "a" 2 "" 5]; [kvOp 2 2 "y" "b" 3 "" 4]].
Proof.
  assert (CheckOperations kvModel sortEntries overlapping (λ _ _, false) 20 [Some 1%nat; Some 0%nat]
          = Returned true) as H by (by vm_compute).
  split; [exact H|]. rewrite <-overlapping_partitions.
  apply (CheckOperations_sound kvModel sortEntries overlapping (λ _ _, false) 20 [Some 1%nat; Some 0%nat]).
  - exact sortEntries_sorts.
  - apply NoDup_cons; split; [|apply NoDup_singleton]. by intros ?%list_elem_of_singleton.
  - change (Forall (Forall (λ op, Call op ≤ Return op)) (kvPartition overlapping)).
    rewrite overlapping_partitions. repeat constructor; simpl; lia.
  - exact H.
Defined.

(** The search rejects a read of a value that was never written. *)
Example stale_read_rejected :
  CheckOperations kvModel sortEntries [kvOp 0 1 "x" "a" 1 "" 2; kvOp 1 0 "x" "" 3 "" 4] (λ _ _, false) 20
    [Some 0%nat] = Returned false.
Proof. by vm_compute. Qed.

Definition staleRead : list (Operation Val) := [kvOp 0 1 "x" "a" 1 "" 2; kvOp 1 0 "x" "" 3 "" 4].

(** The verdict on the stale read is no, and it is right. *)
Lemma CheckOperations_decides_witness :
  ∃ b, CheckOperations kvModel sortEntries staleRead (λ _ _, false) 200 [Some 0%nat] = Returned b ∧
    b = false ∧ ¬ Forall (linearizable kvModel) (kvPartition staleRead).
Proof.
  assert (kvPartition staleRead = [staleRead]) as Hp by (vm_compute; reflexivity).
  destruct (CheckOperations_decides kvModel sortEntries staleRead 200 [Some 0%nat]) as (b & Hb & Hiff).
  - exact sortEntries_sorts.
  - exact kvModel_respected.
  - change (kvPartition staleRead ≠ []). rewrite Hp. discriminate.
  - change (Forall (Forall (λ op, Call op ≤ Return op)) (kvPartition staleRead)). rewrite Hp.
    repeat constructor; simpl; lia.
  - change (Forall (λ p, (enough (length p) ≤ 200)%nat) (kvPartition staleRead)). rewrite Hp.
    constructor; [|constructor]. apply Nat.leb_le. vm_compute. reflexivity.
  - change ([Some 0%nat] ≡ₚ map Some (seq 0 (length (kvPartition staleRead)))). rewrite Hp. reflexivity.
  - assert (CheckOperations kvModel sortEntries staleRead (λ _ _, false) 200 [Some 0%nat] = Returned false)
      as Hf by (vm_compute; reflexivity).
    exists b. split; [exact Hb|]. rewrite Hf in Hb. injection Hb as Hb. split; [symmetry; exact Hb|].
    intros Hl. apply Hiff in Hl. rewrite <-Hb in Hl. discriminate.
Defined.

(** The data of the stale read: both operations on the time axis, one partial linearization
    of the write alone. *)
Lemma verbose_visualizes_witness :
  ∃ res info data,
    CheckOperationsVerbose kvModel sortEntries staleRead (λ _ _, false) 200 [Some 0%nat] map_to_list =
      Returned (res, info) ∧ res = Illegal ∧
    computeVisualizationData kvModel (λ _ _, "") (λ s, s) (λ l, l) info = Some data ∧
    Forall2 (shows kvModel (λ _ _, "")) (kvPartition staleRead) data.
Proof.
  assert (kvPartition staleRead = [staleRead]) as Hp by (vm_compute; reflexivity).
  destruct (verbose_visualizes kvModel (λ _ _, "") (λ s, s) sortEntries map_to_list (λ l, l) staleRead 200 [Some 0%nat])
    as (res & info & data & Hrun & Hok & Hdata & Hshows).
  - exact sortEntries_sorts.
  - exact kvModel_respected.
  - intros m. reflexivity.
  - intros l. reflexivity.
  - change (kvPartition staleRead ≠ []). rewrite Hp. discriminate.
  - change (Forall (Forall (λ op, Call op ≤ Return op)) (kvPartition staleRead)). rewrite Hp.
    repeat constructor; simpl; lia.
  - change (Forall (λ p, (enough (length p) ≤ 200)%nat) (kvPartition staleRead)). rewrite Hp.
    constructor; [|constructor]. apply Nat.leb_le. vm_compute. reflexivity.
  - change ([Some 0%nat] ≡ₚ map Some (seq 0 (length (kvPartition staleRead)))). rewrite Hp. reflexivity.
  - exists res, info, data. split; [exact Hrun|]. split; [|split; [exact Hdata|exact Hshows]].
    assert (match CheckOperationsVerbose kvModel sortEntries staleRead (λ _ _, false) 200 [Some 0%nat] map_to_list with
            | Returned (r, _) => r = Illegal | _ => False end) as Hr by (vm_compute; reflexivity).
    rewrite Hrun in Hr. exact Hr.
Defined.

Lemma empty_history_blocks_witness :
  CheckOperations kvModel sortEntries [] (λ _ _, false) 20 [] = Running.
Proof.
  apply (empty_history_blocks kvModel sortEntries (λ _ _, false) 20 []).
  - reflexivity.
  - intros i H. inversion H.
  - intros H. inversion H.
Defined.
