(* ===== verification/KVPoints.v ===== *)
(** Linearization points: operations with a place in a log of key/value commands form a
    history that is linearizable in the sense of the checker, with the model of
    [models/kv.go].

    The place of a write is the position of its first occurrence in the log; the place of a
    read is a number of commands after which the log has the value that it returns.  The
    places are ordered as [rank]s, the write at position [p] between the reads after [p]
    and after [p + 1] commands. *)
From S2P Require Import Prelude Labgob Persister Raft RequestServer KVServer KVModel KVProps.
From S2P Require Import Checker CheckerList CheckerSound CheckerLink CheckerProps CheckerKV.
From stdpp Require Import sorting.
#[local] Open Scope Z_scope.
Import KV KvModel.

(** ** Orders *)
Section order.
Context {V St : Type} (model : Model V St).
Implicit Types (history ops : list (Checker.Operation V)).

(** An order by rank, and by time of call within a rank, respects time when ranks do. *)
Lemma ranked_linearizable history (rank : nat → Z) :
  (∀ a b opa opb, history !! a = Some opa → history !! b = Some opb → Return opa < Call opb → rank a ≤ rank b) →
  Forall (λ op, Call op ≤ Return op) history →
  (∀ order ops, order ≡ₚ seq 0 (length history) → StronglySorted (λ a b, rank a ≤ rank b) order →
    mapM (history !!.) order = Some ops → accepts model (Checker.Init model) ops) →
  linearizable model history.
Proof.
  intros Hrank Hcr Hacc.
  pose (called := λ a, from_option Call 0 (history !! a)).
  pose (before := λ a b, rank a < rank b ∨ (rank a = rank b ∧ called a ≤ called b)).
  assert (∀ a b, Decision (before a b)) as Hdec by (intros; apply _).
  assert (Total before) as Htot.
  { intros a b. unfold before. destruct (Z.lt_trichotomy (rank a) (rank b)) as [?|[?|?]]; [auto| |auto].
    destruct (Z.le_ge_cases (called a) (called b)); auto. }
  assert (Transitive before) as Htrans by (intros a b c; unfold before; lia).
  pose (order := merge_sort before (seq 0 (length history))).
  assert (order ≡ₚ seq 0 (length history)) as Hperm by apply merge_sort_Permutation.
  pose proof (StronglySorted_merge_sort before (seq 0 (length history))) as Hss. fold order in Hss.
  exists order. split; [done|]. split.
  - destruct (proj2 (mapM_is_Some (history !!.) order)) as [ops Hops].
    { apply Forall_forall. intros a Ha. rewrite Hperm in Ha. apply elem_of_seq in Ha. apply lookup_lt_is_Some_2. lia. }
    exists ops. split; [done|]. eapply Hacc; [done| |exact Hops]. eapply StronglySorted_weaken; [|exact Hss].
    unfold before. lia.
  - intros i j a b opa opb Hi Hj Hij Ha Hb Hlt. pose proof (Hrank _ _ _ _ Hb Ha Hlt) as Hr.
    pose proof (StronglySorted_at before order i j a b Hss Hij Hi Hj) as Hab.
    rewrite Forall_lookup in Hcr. specialize (Hcr _ _ Hb). unfold before, called in Hab. rewrite Ha, Hb in Hab. simpl in Hab. lia.
Qed.
End order.

(** ** The value of a key after some commands *)
Implicit Types (L : list Op) (k : string).

Lemma runSpec_snoc L op : ∀ seen mp,
  (runSpec seen mp (L ++ [op])).1 =
  let mp' := (runSpec seen mp L).1 in
  if isWrite op && bool_decide (reqOf op ∈ map reqOf L ++ seen) then mp' else (exec mp' op).1.
Proof.
  induction L as [|o L IH]; intros seen mp; simpl.
  - destruct (isWrite op && _); [done|]. by destruct (exec mp op).
  - destruct (if isWrite o && _ then _ else _) as [mp1 a]. specialize (IH (reqOf o :: seen) mp1).
    destruct (runSpec (reqOf o :: seen) mp1 (L ++ [op])) as [mp2 l], (runSpec (reqOf o :: seen) mp1 L) as [mp3 l3].
    simpl in *. rewrite IH. replace (bool_decide (reqOf op ∈ map reqOf L ++ reqOf o :: seen))
      with (bool_decide (reqOf op ∈ reqOf o :: map reqOf L ++ seen)); [done|].
    apply bool_decide_ext. rewrite elem_of_cons, !elem_of_app, elem_of_cons. tauto.
Qed.

(** The plain map after [p] commands, and what it has for a key *)
Definition mapAfter L (p : nat) : gmap string string := (runSpec [] ∅ (take p L)).1.
Definition valueAt L k (p : nat) : string := default "" (mapAfter L p !! k).

(** The command at [p] is a write to [k], and the first of its request. *)
Definition effective L k (p : nat) : Prop :=
  ∃ o, L !! p = Some o ∧ isWrite o = true ∧ (reqOf o ∉ map reqOf (take p L)) ∧ Key o = k.

Lemma valueAt_effective L k p o :
  known o → L !! p = Some o → isWrite o = true → reqOf o ∉ map reqOf (take p L) → Key o = k →
  valueAt L k (S p) = (Step (valueAt L k p) (mkIn (opCode o) k (Value o)) (mkOut "")).2.
Proof.
  intros Hk Ho Hw Hn <-. unfold valueAt, mapAfter. rewrite (take_S_r _ _ _ Ho), runSpec_snoc.
  rewrite app_nil_r, bool_decide_false, andb_false_r by done. cbv zeta.
  pose proof (exec_step (runSpec [] ∅ (take p L)).1 o (Key o) Hk) as H. destruct (exec _ o) as [mp' a]. simpl.
  rewrite H, String.eqb_refl. unfold Step, isWrite, opCode in *. simpl.
  destruct (op_Op o =? GET)%string; [done|]. by destruct (op_Op o =? PUT)%string.
Qed.

Lemma valueAt_same L k p : ¬ effective L k p → valueAt L k (S p) = valueAt L k p.
Proof.
  intros Hne. unfold valueAt, mapAfter. destruct (L !! p) as [o|] eqn:Ho.
  2: { apply lookup_ge_None in Ho. by rewrite !take_ge by lia. }
  rewrite (take_S_r _ _ _ Ho), runSpec_snoc, app_nil_r. cbv zeta. case_match eqn:Hc; [done|].
  destruct (isWrite o) eqn:Hw.
  - case_bool_decide as Hin; [done|]. assert (Key o ≠ k) as Hk by (intros <-; destruct Hne; by exists o).
    unfold exec, isWrite in *. destruct (op_Op o =? GET)%string; [done|]. simpl.
    destruct (op_Op o =? PUT)%string; [by rewrite lookup_insert_ne|].
    destruct (op_Op o =? APPEND)%string; [by rewrite lookup_insert_ne|done].
  - unfold exec, isWrite in *. by destruct (op_Op o =? GET)%string.
Qed.

Lemma valueAt_between L k p q : (p ≤ q)%nat → (∀ j, (p ≤ j < q)%nat → ¬ effective L k j) → valueAt L k q = valueAt L k p.
Proof.
  intros Hpq. induction q as [|q IH]; intros Hne; [by replace p with 0%nat by lia|].
  destruct (decide (p = S q)) as [->|]; [done|]. rewrite valueAt_same by (apply Hne; lia). apply IH; [lia|].
  intros j Hj. apply Hne. lia.
Qed.

(** ** Operations with a place in the log *)
Record Point := mkPoint { pt_op : Checker.Operation Val; pt_rank : Z; pt_call : nat }.

Definition readAt L k (p : nat) (inp : KvInput) (out : KvOutput) : Prop := in_Op inp = 0 ∧ out_Value out = valueAt L k p.
Definition writeAt L k (p : nat) (inp : KvInput) : Prop :=
  ∃ o, L !! p = Some o ∧ isWrite o = true ∧ (reqOf o ∉ map reqOf (take p L)) ∧ Key o = k ∧
    in_Op inp = opCode o ∧ in_Value inp = Value o.

(** [x] is an operation on [k] at its place. *)
Definition placed L k (x : Point) : Prop :=
  ∃ inp out (p : nat), Input (pt_op x) = inl inp ∧ Output (pt_op x) = inr out ∧ in_Key inp = k ∧
    ((pt_rank x = 2 * Z.of_nat p ∧ readAt L k p inp out) ∨ (pt_rank x = 2 * Z.of_nat p + 1 ∧ writeAt L k p inp)).

(** All writes from [p] on are among the points. *)
Definition complete L k (p : nat) (l : list Point) : Prop :=
  ∀ j, (p ≤ j)%nat → effective L k j → ∃ x, x ∈ l ∧ pt_rank x = 2 * Z.of_nat j + 1.

(** A write has one point. *)
Definition separate (l : list Point) : Prop :=
  ∀ x y, x ∈ l → y ∈ l → pt_rank x = pt_rank y → Z.odd (pt_rank x) = true → pt_call x = pt_call y.

Lemma write_step L k p inp out :
  Forall known L → writeAt L k p inp → kvStep (valueAt L k p) (inl inp) (inr out) = (true, valueAt L k (S p)).
Proof.
  intros HL (o & Ho & Hw & Hn & Hk & Hc & Hv). rewrite Forall_lookup in HL. pose proof (HL _ _ Ho) as Hkn.
  rewrite (valueAt_effective L k p o) by done. unfold kvStep, Step. simpl. rewrite Hc, Hv.
  unfold opCode, isWrite in *. destruct (op_Op o =? GET)%string; [done|]. by destruct (op_Op o =? PUT)%string.
Qed.

Lemma complete_later L k p q x l :
  (p ≤ q)%nat → complete L k p (x :: l) → (∀ j, (q ≤ j)%nat → pt_rank x ≠ 2 * Z.of_nat j + 1) → complete L k q l.
Proof.
  intros Hpq H Hx j Hj He. destruct (H j) as (y & [->|Hy]%elem_of_cons & Hr); [lia|done| |by exists y].
  by destruct (Hx j).
Qed.

(** The points in the order of their places are a run of the model. *)
Lemma accepts_points L k l : ∀ p,
  Forall known L → Forall (placed L k) l → StronglySorted (λ x y, pt_rank x ≤ pt_rank y) l →
  separate l → NoDup (map pt_call l) → Forall (λ x, 2 * Z.of_nat p ≤ pt_rank x) l → complete L k p l →
  accepts kvModel (valueAt L k p) (map pt_op l).
Proof.
  induction l as [|x l IH]; intros p HL Hpl Hs Hsep Hnd Hge Hco; [done|].
  apply Forall_cons in Hpl as [(inp & out & q & Hin & Hout & Hk & Hx) Hpl].
  apply Forall_cons in Hge as [Hgx Hge]. apply StronglySorted_inv in Hs as [Hs Hxs].
  apply NoDup_cons in Hnd as [Hnx Hnd].
  assert (p ≤ q)%nat as Hpq by (destruct Hx as [[? _]|[? _]]; lia).
  assert (valueAt L k q = valueAt L k p) as Hsame.
  { apply valueAt_between; [done|]. intros j Hj He. destruct (Hco j) as (y & [->|Hy]%elem_of_cons & Hr); [lia|done| |].
    - destruct Hx as [[? _]|[? _]]; lia.
    - rewrite Forall_forall in Hxs. specialize (Hxs _ Hy). destruct Hx as [[? _]|[? _]]; lia. }
  assert (separate l) as Hsep' by (intros y z Hy Hz; apply Hsep; by right).
  simpl. rewrite Hin, Hout, <-Hsame. destruct Hx as [[Hr [Hop Hval]]|[Hr Hw]].
  - exists (valueAt L k q). split.
    { unfold kvStep, Step. rewrite Hop, Hval. simpl. by rewrite String.eqb_refl. }
    apply IH; try done.
    + eapply Forall_impl; [exact Hxs|]. intros y Hy. simpl in Hy. lia.
    + eapply complete_later; [exact Hpq|exact Hco|]. lia.
  - exists (valueAt L k (S q)). split; [by apply write_step|]. apply IH; try done.
    + rewrite Forall_forall in Hxs |- *. intros y Hy. specialize (Hxs y Hy).
      assert (pt_rank y ≠ pt_rank x); [|lia]. intros He. destruct Hnx. rewrite (Hsep x y).
      * by apply list_elem_of_fmap_2.
      * by left.
      * by right.
      * done.
      * rewrite Hr. by rewrite Z.add_comm, Z.odd_add_mul_2.
    + eapply complete_later; [|exact Hco|]; [lia|]. lia.
Qed.

(** The list in another order of its indices *)
Lemma omap_seq {A} (l : list A) : omap (l !!.) (seq 0 (length l)) = l.
Proof.
  induction l as [|x l IH] using rev_ind; [done|].
  rewrite length_app, seq_app, omap_app. simpl. rewrite list_lookup_middle by done. f_equal.
  rewrite <-IH at 2.
  apply list_omap_ext, Forall_Forall2_diag, Forall_forall. intros j [_ Hj]%elem_of_seq. by rewrite lookup_app_l by lia.
Qed.

Lemma mapM_omap {A B} (f : A → option B) (l : list A) (ys : list B) : mapM f l = Some ys → ys = omap f l.
Proof.
  revert ys. induction l as [|x l IH]; intros ys H; simpl in H; [by injection H as <-|].
  apply bind_Some in H as (y & Hy & H). apply bind_Some in H as (ys' & Hk & [= <-]). simpl. rewrite Hy. f_equal. by apply IH.
Qed.

Lemma sorted_points (l : list Point) order ops :
  order ≡ₚ seq 0 (length l) → StronglySorted (λ a b, from_option pt_rank 0 (l !! a) ≤ from_option pt_rank 0 (l !! b)) order →
  mapM (map pt_op l !!.) order = Some ops →
  ∃ l', l' ≡ₚ l ∧ ops = map pt_op l' ∧ StronglySorted (λ x y, pt_rank x ≤ pt_rank y) l'.
Proof.
  intros Hp Hs Hops%mapM_omap. exists (omap (l !!.) order). split_and!.
  - etrans; [by apply omap_Permutation|]. by rewrite omap_seq.
  - rewrite Hops. change (omap (map pt_op l !!.) order = pt_op <$> omap (l !!.) order). rewrite list_fmap_omap.
    apply list_omap_ext, Forall_Forall2_diag, Forall_forall. intros a _. apply list_lookup_fmap.
  - clear -Hs. induction Hs as [|a order Hs IH Ha]; csimpl; [constructor|]. destruct (l !! a) as [x|] eqn:Hx; [|done].
    constructor; [done|]. apply Forall_forall. intros y (b & Hb & Hy)%list_elem_of_omap.
    rewrite Forall_forall in Ha. specialize (Ha b Hb). simpl in Ha. by rewrite Hy in Ha.
Qed.

(** Points in the log, with ranks that respect time *)
Record linearizes L k (l : list Point) : Prop := {
  lz_placed : Forall (placed L k) l;
  lz_separate : separate l;
  lz_calls : NoDup (map pt_call l);
  lz_complete : complete L k 0 l;
  lz_time : ∀ x y, x ∈ l → y ∈ l → Return (pt_op x) < Call (pt_op y) → pt_rank x ≤ pt_rank y;
  lz_return : Forall (λ x, Call (pt_op x) ≤ Return (pt_op x)) l;
}.

Lemma points_linearizable L k l : Forall known L → linearizes L k l → linearizable kvModel (map pt_op l).
Proof.
  intros HL [Hpl Hsep Hnd Hco Ht Hr]. apply (ranked_linearizable _ _ (λ a, from_option pt_rank 0 (l !! a))).
  - intros a b opa opb Ha Hb Hlt. rewrite list_lookup_fmap in Ha, Hb.
    apply fmap_Some in Ha as (x & Hx & ->). apply fmap_Some in Hb as (y & Hy & ->). rewrite Hx, Hy. simpl.
    apply Ht; [by eapply list_elem_of_lookup_2..|done].
  - by apply Forall_fmap.
  - intros order ops Hp Hs Hops. rewrite length_map in Hp.
    destruct (sorted_points _ _ _ Hp Hs Hops) as (l' & Hl' & -> & Hs').
    change (Checker.Init kvModel) with (valueAt L k 0). apply accepts_points; try done.
    + by rewrite Hl'.
    + intros x y Hx Hy. apply Hsep; by rewrite <-Hl'.
    + by rewrite Hl'.
    + rewrite Hl'. eapply Forall_impl; [exact Hpl|]. intros x (? & ? & p & _ & _ & _ & [[? _]|[? _]]); simpl; lia.
    + intros j Hj He. destruct (Hco j Hj He) as (x & Hx & ?). exists x. by rewrite Hl'.
Qed.
