(* ===== verification/KVClients.v ===== *)
(** The key/value service with its clerks: the replicated servers of [Replicated] and the
    clients of [kvraft/client.go], in real time.

    A clerk handles one call at a time.  Each call gets the next request number; its request
    is sent to any servers, any number of times, until the clerk takes a reply: [retry] of
    [Clerk] asks one server after the other, here every order and every repetition is
    possible, and a request may arrive long after the call returned.  Replies travel for any
    time and may be lost.  [ErrWrongLeader] replies are left out: they only make the clerk
    try again.

    The tests record for every call when it started, when it returned and what
    ([Operation]s of [porcupine/model.go]); the theorems of [KVLinear] are about this
    record. *)
From S2P Require Import Prelude Labgob Persister Raft RaftNode RaftElection RaftCluster.
From S2P Require Import RequestServer KVServer KVModel KVProps Replicated ReplicatedKV Clerk Checker CheckerKV.
#[local] Open Scope Z_scope.
Import KV.

#[export] Instance op_eq_dec : EqDecision Op.
Proof. solve_decision. Defined.

(** ** Calls *)
Inductive ClerkCall := CGet (key : string) | CPut (key value : string) | CAppend (key value : string).

(** The arguments of the RPC, when the clerk has taken the next request number *)
Definition callRequest (ck : KVClerk.Clerk) (c : ClerkCall) : Request :=
  match c with
  | CGet key => RGet (mkGetArgs key (KVClerk.requestId ck) (KVClerk.uid ck))
  | CPut key value => RPutAppend (mkPutAppendArgs key value "Put" (KVClerk.requestId ck) (KVClerk.uid ck))
  | CAppend key value => RPutAppend (mkPutAppendArgs key value "Append" (KVClerk.requestId ck) (KVClerk.uid ck))
  end.

(** The operation that the handlers make of a request *)
Definition requestOp (req : Request) : Op :=
  match req with
  | RGet args => Get args
  | RPutAppend args => mkOp (pa_Key args) (pa_Value args) (pa_Op args) (pa_RequestId args) (pa_UId args) ""
  end.

(** What the clerk's method returns for a reply, if it accepts it *)
Definition returns (req : Request) (a : Answer) : option string :=
  match req with
  | RGet _ =>
      let r := getReply (Some a) in
      if KVClerk.getAccepts r then Some (if (gr_Err r =? ErrNoKey)%string then "" else gr_Value r) else None
  | RPutAppend _ => if KVClerk.putAccepts (putAppendReply (Some a)) then Some "" else None
  end.

(** A call: its request, when it started, and what it returned and when. *)
Record ClientCall := mkClientCall { cc_request : Request; cc_start : Z; cc_end : option (string * Z) }.
Abbreviation cc_op c := (requestOp (cc_request c)).

Definition over (c : ClientCall) : bool := match cc_end c with Some _ => true | None => false end.

(** ** The machine *)
Section machine.
Context `{!Gob Z, !Gob (gmap Z Z), !Gob (gmap string string), !Gob (list (Log Op))}.
Context (maxraftstate : Z).
#[local] Instance clients_service : Service KVState Request Op Answer := kvService maxraftstate.

(** [k_replies]: the replies on their way. *)
Record KRun := mkRun {
  k_servers : RState KVState Request Op Answer;
  k_clerks : list KVClerk.Clerk;
  k_calls : list ClientCall;
  k_replies : list (Op * Answer);
  k_clock : Z;
}.

(** [KServer]: the servers and Raft; [KCall]: clerk [i] starts a call; [KDeliver]: the request
    of call [j] reaches server [s]; [KReply]: handler [h] of server [s] replies; [KReturn]: call
    [j] takes reply [r] and returns. *)
Inductive KAction :=
  | KServer (a : SAction Request Op)
  | KCall (i : nat) (c : ClerkCall) (now : Z)
  | KDeliver (s j : nat)
  | KReply (s h : nat)
  | KReturn (j r : nat) (now : Z).

(** Requests come from the clerks. *)
Definition ownStep (a : SAction Request Op) : bool := match a with SEvent _ (EvCall _) => false | _ => true end.

(** The clerk is not in a call. *)
Definition idle (ck : KVClerk.Clerk) (calls : list ClientCall) : bool :=
  forallb (λ c, negb (UId (cc_op c) =? KVClerk.uid ck) || over c) calls.

(** The answer that a handler has; the name of its channel is deleted by another goroutine. *)
Definition handlerReply (hd : Handler (Req := Request) (Op := Op) (Ans := Answer)) : option (Op * Answer) :=
  match hd with
  | HReply op _ (Some a) | HDone op (Some a) => Some (op, a)
  | HEarly req a => Some (requestOp req, a)
  | _ => None
  end.

Definition with_servers t (k : KRun) : KRun := mkRun t (k_clerks k) (k_calls k) (k_replies k) (k_clock k).

Definition kstep (k : KRun) (a : KAction) : option KRun :=
  match a with
  | KServer a => if ownStep a then t ← rstep (k_servers k) a; Some (with_servers t k) else None
  | KCall i c now =>
      ck ← k_clerks k !! i;
      if idle ck (k_calls k) && (k_clock k <=? now) then
        let ck := KVClerk.nextRequest ck in
        Some (mkRun (k_servers k) (<[i := ck]> (k_clerks k))
                (k_calls k ++ [mkClientCall (callRequest ck c) now None]) (k_replies k) now)
      else None
  | KDeliver s j =>
      c ← k_calls k !! j; t ← rstep (k_servers k) (SEvent s (EvCall (cc_request c))); Some (with_servers t k)
  | KReply s h =>
      sys ← r_servers (k_servers k) !! s; hd ← handlers sys !! h; r ← handlerReply hd;
      Some (mkRun (k_servers k) (k_clerks k) (k_calls k) (k_replies k ++ [r]) (k_clock k))
  | KReturn j r now =>
      c ← k_calls k !! j; '(op, a) ← k_replies k !! r;
      if bool_decide (op = cc_op c) && negb (over c) && (k_clock k <=? now) then
        v ← returns (cc_request c) a;
        Some (mkRun (k_servers k) (k_clerks k)
                (<[j := mkClientCall (cc_request c) (cc_start c) (Some (v, now))]> (k_calls k)) (k_replies k) now)
      else None
  end.

(** [ids]: what [nrand] gives to the clerks. *)
Definition initRun (n : nat) (ids : list Z) : option KRun :=
  t ← initReplicated n; Some (mkRun t (map (KVClerk.MakeClerk (Z.of_nat n)) ids) [] [] 0).

Definition ksafe (k : KRun) (a : KAction) : Prop :=
  match a with KServer a => rsafe (k_servers k) a | _ => True end.

Inductive kreachable (n : nat) (ids : list Z) : KRun → Prop :=
  | kreach_init k : initRun n ids = Some k → kreachable n ids k
  | kreach_step k a k' : kreachable n ids k → ksafe k a → kstep k a = Some k' → kreachable n ids k'.

(** ** The record of the tests *)
Definition operation (c : ClientCall) (v : string) (now : Z) : Checker.Operation Val :=
  mkOperation (UId (cc_op c)) (inl (KvModel.mkIn (opCode (cc_op c)) (Key (cc_op c)) (Value (cc_op c)))) (cc_start c)
    (inr (KvModel.mkOut v)) now.

Definition recorded (c : ClientCall) : option (Checker.Operation Val) :=
  '(v, now) ← cc_end c; Some (operation c v now).
Definition record (k : KRun) : list (Checker.Operation Val) := omap recorded (k_calls k).

(** The calls that have not returned *)
Definition pending (k : KRun) : list ClientCall := List.filter (λ c, negb (over c)) (k_calls k).
End machine.

(** ** The loop of the clerk

    A run of [Get] or [PutAppend] of [Clerk], with RPCs that are steps of the machine: it
    returns what [KReturn] returns for a reply on its way. *)
Section loop.
Context {W R : Type} (n : Z) (call : W → Z → W * option R) (accept : R → bool) (move : W → W → Prop).

Lemma retry_steps : (∀ w l, rtc move w (call w l).1) → ∀ fuel w leader w' l r,
  retry n call accept fuel w leader = Returned (w', l, r) →
  rtc move w w' ∧ accept r = true ∧ ∃ w1 l1, call w1 l1 = (w', Some r).
Proof.
  intros Hmove fuel. induction fuel as [|fuel IH]; intros w leader w' l r H; [done|]. simpl in H. case_if_in H; [|done].
  pose proof (Hmove w leader) as Hm. destruct (call w leader) as [w1 [r1|]] eqn:Hc; simpl in Hm.
  - destruct (accept r1) eqn:Ha; [injection H as <- <- <-; split_and!; eauto|].
    destruct (IH _ _ _ _ _ H) as (? & ? & ?). split_and!; [by etrans|done..].
  - destruct (IH _ _ _ _ _ H) as (? & ? & ?). split_and!; [by etrans|done..].
Qed.
End loop.

Section clerk.
Context `{!Gob Z, !Gob (gmap Z Z), !Gob (gmap string string), !Gob (list (Log Op))}.
Context (maxraftstate : Z).

Definition kmove (k k' : KRun) : Prop := ∃ a, ksafe k a ∧ kstep maxraftstate k a = Some k'.

(** An RPC for [op] makes steps of the machine; its reply, if any, is one on its way, or
    [ErrWrongLeader]. *)
Definition rpcSteps {R} (op : Op) (reply : option Answer → R) (call : KRun → Z → KRun * option R) : Prop :=
  (∀ k server, rtc kmove k (call k server).1) ∧
  ∀ k server k' r, call k server = (k', Some r) →
    ∃ a, r = reply a ∧ match a with Some a => (op, a) ∈ k_replies k' | None => True end.

(** The clerk can return with [v]. *)
Definition answeredWith (req : Request) (k : KRun) (v : string) : Prop :=
  ∃ (r : nat) a, k_replies k !! r = Some (requestOp req, a) ∧ returns req a = Some v.

Lemma clerk_get_steps callGet fuel ck key k k' ck' v :
  let ck1 := KVClerk.nextRequest ck in
  (∀ args, rpcSteps (Get args) getReply (callGet args)) →
  KVClerk.Get callGet fuel ck key k = Returned (k', ck', v) →
  rtc kmove k k' ∧ answeredWith (callRequest ck1 (CGet key)) k' v ∧ KVClerk.requestId ck' = KVClerk.requestId ck1.
Proof.
  intros ck1 Hrpc H. unfold KVClerk.Get in H. destruct (retry _ _ _ _ _ _) as [[[k1 l] r]| |] eqn:Hr; try done. injection H as -> <- <-.
  destruct (Hrpc (mkGetArgs key (KVClerk.requestId ck1) (KVClerk.uid ck1))) as [Hmove Hreply].
  destruct (retry_steps _ _ _ kmove Hmove _ _ _ _ _ _ Hr) as (Hk & Ha & k1 & l1 & Hc).
  destruct (Hreply _ _ _ _ Hc) as ([a|] & -> & Hin); [|done]. split_and!; [done| |].
  - apply list_elem_of_lookup in Hin as [i Hi]. exists i, a. split; [done|]. simpl. simpl in Ha. by rewrite Ha.
  - unfold KVClerk.foundLeader. by case_if.
Qed.

Lemma clerk_put_steps callPA fuel ck key value (append : bool) k k' ck' :
  let ck1 := KVClerk.nextRequest ck in
  let cl := if append then CAppend key value else CPut key value in
  (∀ args, rpcSteps (requestOp (RPutAppend args)) putAppendReply (callPA args)) →
  (if append then KVClerk.Append callPA else KVClerk.Put callPA) fuel ck key value k = Returned (k', ck') →
  rtc kmove k k' ∧ answeredWith (callRequest ck1 cl) k' "" ∧ KVClerk.requestId ck' = KVClerk.requestId ck1.
Proof.
  intros ck1 cl Hrpc H.
  assert (KVClerk.PutAppend callPA fuel ck key value (if append then "Append" else "Put") k = Returned (k', ck')) as H' by (by destruct append).
  clear H. unfold KVClerk.PutAppend in H'. destruct (retry _ _ _ _ _ _) as [[[k1 l] r]| |] eqn:Hr; try done. injection H' as -> <-.
  destruct (Hrpc (mkPutAppendArgs key value (if append then "Append" else "Put") (KVClerk.requestId ck1) (KVClerk.uid ck1))) as [Hmove Hreply].
  destruct (retry_steps _ _ _ kmove Hmove _ _ _ _ _ _ Hr) as (Hk & Ha & k1 & l1 & Hc).
  destruct (Hreply _ _ _ _ Hc) as ([a|] & -> & Hin); [|done]. split_and!; [done| |].
  - apply list_elem_of_lookup in Hin as [i Hi]. exists i, a. unfold cl. destruct append; (split; [done|]); simpl; by rewrite Ha.
  - unfold KVClerk.foundLeader. by case_if.
Qed.
End clerk.
