(* ===== verification/KVLinear.v ===== *)
(** The run of [KVClients] keeps its record in the log: every call that has returned has a
    place in the log of the servers, between its start and its return. *)
From S2P Require Import Prelude Labgob Persister Raft RaftLog RaftNode RaftElection RaftCluster RaftMatching RaftCommit RaftSafety RaftApply RaftOrigin.
From S2P Require Import RequestServer RequestProps KVServer KVModel KVProps Replicated ReplicatedProps ReplicatedOrigin ReplicatedKV.
From S2P Require Import Clerk Checker CheckerKV KVPoints KVClients.
#[local] Open Scope Z_scope.
Import KV.

(** ** The clerks *)
Implicit Types (L : list Op) (op : Op) (c d : ClientCall) (calls : list ClientCall) (clerks : list KVClerk.Clerk).

Definition called calls op : Prop := ∃ (j : nat) c, calls !! j = Some c ∧ cc_op c = op.

(** The requests of the clerks *)
Definition genuine (req : Request) : Prop :=
  match req with RGet _ => True | RPutAppend args => pa_Op args = PUT ∨ pa_Op args = APPEND end.

Lemma genuine_known req : genuine req → known (requestOp req).
Proof. unfold known. destruct req; simpl; tauto. Qed.

(** A clerk numbers its calls, and starts one when it is done with the last. *)
Record clerksOk clerks calls : Prop := {
  ck_ids : NoDup (map KVClerk.uid clerks);
  ck_nonneg : ∀ (i : nat) ck, clerks !! i = Some ck → 0 ≤ KVClerk.requestId ck;
  ck_calls : ∀ (j : nat) c, calls !! j = Some c → ∃ (i : nat) ck, clerks !! i = Some ck ∧ UId (cc_op c) = KVClerk.uid ck ∧
    0 < RequestId (cc_op c) ≤ KVClerk.requestId ck ∧ genuine (cc_request c);
  ck_order : ∀ (i j : nat) c d, calls !! i = Some c → calls !! j = Some d → (i < j)%nat → UId (cc_op c) = UId (cc_op d) →
    RequestId (cc_op c) < RequestId (cc_op d) ∧ over c = true;
}.
Arguments ck_ids {clerks calls}.
Arguments ck_nonneg {clerks calls}.
Arguments ck_calls {clerks calls}.
Arguments ck_order {clerks calls}.

(** A request is made by one call. *)
Lemma call_unique clerks calls (i j : nat) c d :
  clerksOk clerks calls → calls !! i = Some c → calls !! j = Some d → reqOf (cc_op c) = reqOf (cc_op d) → i = j ∧ c = d.
Proof.
  intros H Hi Hj [= Hu Hr]. assert (i = j) as ->; [|split; congruence].
  destruct (Nat.lt_trichotomy i j) as [Hlt|[?|Hlt]]; [|done|].
  - destruct (ck_order H _ _ _ _ Hi Hj Hlt Hu); lia.
  - destruct (ck_order H _ _ _ _ Hj Hi Hlt (eq_sym Hu)); lia.
Qed.

Lemma called_unique clerks calls op1 op2 :
  clerksOk clerks calls → called calls op1 → called calls op2 → reqOf op1 = reqOf op2 → op1 = op2.
Proof. intros H (i & c & Hi & <-) (j & d & Hj & <-) Hr. by destruct (call_unique _ _ _ _ _ _ H Hi Hj Hr) as [_ ->]. Qed.

Lemma called_known clerks calls op : clerksOk clerks calls → called calls op → 0 < RequestId op ∧ known op.
Proof. intros H (j & c & Hj & <-). destruct (ck_calls H _ _ Hj) as (i & ck & _ & _ & ? & ?%genuine_known). split; [lia|done]. Qed.

(** The next call of a clerk *)
Lemma call_ok clerks calls (i : nat) ck (cl : ClerkCall) now :
  clerksOk clerks calls → clerks !! i = Some ck → idle ck calls = true →
  let ck' := KVClerk.nextRequest ck in
  clerksOk (<[i := ck']> clerks) (calls ++ [mkClientCall (callRequest ck' cl) now None]) ∧
  ∀ op, called calls op → reqOf op ≠ reqOf (requestOp (callRequest ck' cl)).
Proof.
  intros H Hi Hidle ck'. pose proof (ck_nonneg H _ _ Hi) as H0.
  set (d := mkClientCall (callRequest ck' cl) now None).
  assert (UId (cc_op d) = KVClerk.uid ck ∧ RequestId (cc_op d) = KVClerk.requestId ck + 1 ∧ genuine (cc_request d)) as (Hu & Hr & Hk).
  { destruct cl; simpl; split_and!; auto. }
  assert (∀ (j : nat) e, calls !! j = Some e → UId (cc_op e) = KVClerk.uid ck → RequestId (cc_op e) ≤ KVClerk.requestId ck) as Hold.
  { intros j e Hj He. destruct (ck_calls H _ _ Hj) as (i' & ck1 & Hi' & Hu1 & Hr1 & _).
    assert (i' = i) as ->; [|by assert (ck1 = ck) as -> by congruence; lia].
    eapply NoDup_lookup; [apply H|rewrite list_lookup_fmap, Hi'; done|rewrite list_lookup_fmap, Hi; simpl; congruence]. }
  split; [constructor|].
  - change (map KVClerk.uid (<[i := ck']> clerks)) with (KVClerk.uid <$> <[i := ck']> clerks). rewrite list_fmap_insert.
    rewrite list_insert_id; [apply H|]. rewrite list_lookup_fmap, Hi. done.
  - intros j ck1 [(-> & <- & _)|[_ Hj]]%list_lookup_insert_Some; [simpl; lia|by eapply (ck_nonneg H)].
  - pose proof (lookup_lt_Some _ _ _ Hi) as Hlt. intros j e [Hj|[Hj He]]%lookup_app_Some.
    + destruct (ck_calls H _ _ Hj) as (i' & ck1 & Hi' & Hu1 & Hr1 & Hk1). destruct (decide (i' = i)) as [->|Hne].
      * exists i, ck'. rewrite list_lookup_insert_eq by done. assert (ck1 = ck) as -> by congruence.
        split_and!; [done|done|lia|simpl; lia|done].
      * exists i', ck1. rewrite list_lookup_insert_ne by done. done.
    + apply list_lookup_singleton_Some in He as [_ <-]. exists i, ck'. rewrite list_lookup_insert_eq by done.
      rewrite Hr. split_and!; [done|done|lia|simpl; lia|done].
  - intros j1 j2 e1 e2 [Hj1|[Hj1 He1]]%lookup_app_Some [Hj2|[Hj2 He2]]%lookup_app_Some Hlt He.
    + by eapply (ck_order H).
    + apply list_lookup_singleton_Some in He2 as [_ <-]. rewrite Hr. split; [specialize (Hold _ _ Hj1); rewrite Hu in He; lia|].
      unfold idle in Hidle. rewrite forallb_forall in Hidle. specialize (Hidle e1). rewrite He, Hu, Z.eqb_refl in Hidle.
      apply Hidle, list_elem_of_In. by eapply list_elem_of_lookup_2.
    + apply lookup_lt_Some in Hj2. lia.
    + apply list_lookup_singleton_Some in He1 as [? _]. apply list_lookup_singleton_Some in He2 as [? _]. lia.
  - intros op (j & e & Hj & <-) [= Hu1 Hr1]. fold d in Hu1, Hr1. change (requestOp (callRequest ck' cl)) with (cc_op d) in Hu1, Hr1.
    specialize (Hold _ _ Hj). rewrite Hu in Hu1. rewrite Hr in Hr1. specialize (Hold Hu1). lia.
Qed.

Lemma return_ok clerks calls (j : nat) c e :
  clerksOk clerks calls → calls !! j = Some c →
  clerksOk clerks (<[j := mkClientCall (cc_request c) (cc_start c) (Some e)]> calls).
Proof.
  intros H Hj. pose proof H as [H1 H2 H3 H4]. set (c' := mkClientCall _ _ _).
  assert (∀ (i : nat) d, <[j := c']> calls !! i = Some d → ∃ d0, calls !! i = Some d0 ∧ cc_request d = cc_request d0 ∧ (over d0 = true → over d = true)) as Hd.
  { intros i d [(-> & <- & _)|[_ Hi]]%list_lookup_insert_Some; [by exists c|by exists d]. }
  constructor; [done|done| |].
  - intros i d (d0 & Hi & -> & _)%Hd. by eapply H3.
  - intros i1 i2 d1 d2 (e1 & Hi1 & -> & Ho)%Hd (e2 & Hi2 & -> & _)%Hd Hlt Hu. destruct (H4 _ _ _ _ Hi1 Hi2 Hlt Hu). auto.
Qed.

(** ** The log *)
Lemma clientOrder_snoc L op : ∀ seen,
  clientOrder seen (L ++ [op]) ↔ clientOrder seen L ∧ 0 < RequestId op ∧
    (reqOf op ∈ map reqOf L ++ seen ∨ ∀ r, (UId op, r) ∈ map reqOf L ++ seen → r < RequestId op).
Proof.
  induction L as [|o L IH]; intros seen; simpl; [tauto|]. rewrite IH.
  assert (∀ x, x ∈ map reqOf L ++ reqOf o :: seen ↔ x ∈ reqOf o :: map reqOf L ++ seen) as Hin.
  { intros x. rewrite elem_of_cons, !elem_of_app, elem_of_cons. tauto. }
  rewrite Hin. setoid_rewrite Hin. tauto.
Qed.

Lemma clientOrder_take L seen k : clientOrder seen L → clientOrder seen (take k L).
Proof.
  revert seen k. induction L as [|o L IH]; intros seen [|k] H; [done..|]. simpl in *. destruct H as (? & ? & ?). auto.
Qed.

Lemma replay_remembers L : ∀ kv seen,
  remembers kv seen → clientOrder seen L → remembers (replay kv L).1 (reverse (map reqOf L) ++ seen).
Proof.
  induction L as [|o L IH]; intros kv seen Hr Ho; [done|]. destruct Ho as (Hp & _ & Ho). simpl.
  pose proof (applyCommand_remembers _ _ _ Hr Hp) as Hr1. destruct (applyCommand kv o) as [kv1 a].
  specialize (IH kv1 _ Hr1 Ho). destruct (replay kv1 L) as [kv2 l]. simpl in *.
  by rewrite reverse_cons, <-app_assoc.
Qed.

(** The last request number of a client is one of the log. *)
Lemma last_in_log L uid :
  clientOrder [] L → 0 < lastReq (replay (mkKV ∅ ∅) L).1 uid → (uid, lastReq (replay (mkKV ∅ ∅) L).1 uid) ∈ map reqOf L.
Proof.
  intros Ho Hpos. destruct (replay_remembers L _ _ (remembers_empty ∅) Ho uid) as [_ [?|Hin]]; [lia|].
  by rewrite app_nil_r, elem_of_reverse in Hin.
Qed.

Definition ownLogOf calls L : Prop := Forall (called calls) L.

Lemma in_reqs calls clerks L op :
  clerksOk clerks calls → ownLogOf calls L → called calls op → reqOf op ∈ map reqOf L → op ∈ L.
Proof.
  intros H HL Hop (o & Ho & Hin)%list_elem_of_fmap. unfold ownLogOf in HL. rewrite Forall_forall in HL.
  by rewrite (called_unique _ _ _ _ H Hop (HL _ Hin) Ho).
Qed.

(** The first occurrence of a request *)
Lemma first_occurrence calls clerks L op :
  clerksOk clerks calls → ownLogOf calls L → op ∈ L →
  ∃ p, L !! p = Some op ∧ (reqOf op ∉ map reqOf (take p L)).
Proof.
  intros H HL Hin. assert (called calls op) as Hop by (unfold ownLogOf in HL; rewrite Forall_forall in HL; by apply HL).
  induction L as [|o L IH] using rev_ind; [by apply not_elem_of_nil in Hin|].
  apply Forall_app in HL as [HL Ho]. destruct (decide (op ∈ L)) as [Hl|Hl].
  - destruct (IH HL Hl) as (p & Hp & Hn). exists p. split; [by apply lookup_app_l_Some|].
    rewrite take_app_le; [done|]. apply lookup_lt_Some in Hp. lia.
  - apply elem_of_app in Hin as [?|Hin]; [done|]. apply list_elem_of_singleton in Hin as ->.
    exists (length L). rewrite take_app_length. split; [by apply list_lookup_middle|].
    intros Hr. apply Hl. by eapply in_reqs.
Qed.

Lemma mapAfter_app L M q : (q ≤ length L)%nat → mapAfter (L ++ M) q = mapAfter L q.
Proof. intros Hq. unfold mapAfter. by rewrite take_app_le. Qed.

(** ** The invariant *)

(** The place of [op] in the log, if it was started when the log had [b] commands: the [rank] of
    [KVPoints]. *)
Definition placeOf L (b : nat) op (v : string) (rank : Z) : Prop :=
  (isWrite op = false ∧ ∃ q : nat, rank = 2 * Z.of_nat q ∧ (b ≤ q ≤ length L)%nat ∧ v = valueAt L (Key op) q) ∨
  (isWrite op = true ∧ ∃ p : nat, rank = 2 * Z.of_nat p + 1 ∧ (b ≤ p)%nat ∧ L !! p = Some op ∧ (reqOf op ∉ map reqOf (take p L))).

Lemma placeOf_range L b op v rank : placeOf L b op v rank → 2 * Z.of_nat b ≤ rank ≤ 2 * Z.of_nat (length L).
Proof. intros [(_ & q & -> & ? & _)|(_ & p & -> & ? & Hp & _)]; [lia|]. apply lookup_lt_Some in Hp. lia. Qed.

Lemma placeOf_app L M b op v rank : placeOf L b op v rank → placeOf (L ++ M) b op v rank.
Proof.
  intros [(? & q & -> & ? & ->)|(? & p & -> & ? & Hp & Hn)]; [left|right]; (split; [done|]).
  - exists q. rewrite length_app. unfold valueAt. rewrite mapAfter_app by lia. split_and!; [done|lia|lia|done].
  - exists p. split_and!; [done..|by apply lookup_app_l_Some|]. apply lookup_lt_Some in Hp. by rewrite take_app_le by lia.
Qed.

(** The answer to [op], which is in the log: that of the plain map at some time since the call. *)
Definition rightAnswer calls (started : nat → nat) L op (a : Answer) : Prop :=
  called calls op ∧ op ∈ L ∧
  (isWrite op = false → ∀ (j : nat) c, calls !! j = Some c → cc_op c = op →
    ∃ q, (started j ≤ q ≤ length L)%nat ∧ a = (exec (mapAfter L q) op).2).

Lemma rightAnswer_app calls started L M op a : rightAnswer calls started L op a → rightAnswer calls started (L ++ M) op a.
Proof.
  intros (Hc & Hin & Hr). split_and!; [done|apply elem_of_app; by left|]. intros Hw j c Hj Hop.
  destruct (Hr Hw j c Hj Hop) as (q & Hq & ->). exists q. rewrite length_app, mapAfter_app by lia. split; [lia|done].
Qed.

(** [started j]: the length of the log when call [j] started; [place j]: the place of call [j],
    when it has returned. *)
Record recordOk calls (clock : Z) L (started : nat → nat) (place : nat → Z) : Prop := {
  ro_start : ∀ (j : nat) c, calls !! j = Some c →
    (started j ≤ length L)%nat ∧ (reqOf (cc_op c) ∉ map reqOf (take (started j) L)) ∧ cc_start c ≤ clock;
  ro_end : ∀ (j : nat) c v now, calls !! j = Some c → cc_end c = Some (v, now) →
    cc_op c ∈ L ∧ placeOf L (started j) (cc_op c) v (place j) ∧ cc_start c ≤ now ≤ clock;
  ro_time : ∀ (i j : nat) c d v now, calls !! i = Some c → cc_end c = Some (v, now) → calls !! j = Some d →
    now < cc_start d → place i ≤ 2 * Z.of_nat (started j);
}.
Arguments ro_start {calls clock L started place}.
Arguments ro_end {calls clock L started place}.
Arguments ro_time {calls clock L started place}.

Section invariant.
Context `{!Gob Z, !Gob (gmap Z Z), !Gob (gmap string string), !Gob (list (Log Op))}.
Context (maxraftstate : Z).
#[local] Instance linear_service : Service KVState Request Op Answer := kvService maxraftstate.
#[local] Instance linear_replicates : Replicates KVState Request Op Answer := kv_replicates maxraftstate.
#[local] Instance linear_laws : ReplicatedLaws KVState Request Op Answer := kv_laws maxraftstate.
Implicit Types (t : RState KVState Request Op Answer) (k : KRun).

(** The handlers that still wait for the deletion have their answer from [taken_right]. *)
Definition hasReturned (hd : Handler (Req := Request) (Op := Op) (Ans := Answer)) : bool :=
  match hd with HReply _ _ _ => false | _ => true end.

Definition handlersOk calls started L t : Prop :=
  ∀ (s : nat) sys hd op a, r_servers t !! s = Some sys → hd ∈ handlers sys → hasReturned hd = true →
    handlerReply hd = Some (op, a) → rightAnswer calls started L op a.

Record runInv (n : nat) k L (started : nat → nat) (place : nat → Z) : Prop := {
  kv_log : logOf n (k_servers k) L;
  kv_reachable : rreachable n (k_servers k);
  kv_origin : fromHandlers (called (k_calls k)) (k_servers k);
  kv_own : ownLogOf (k_calls k) L;
  kv_order : clientOrder [] L;
  kv_clerks : clerksOk (k_clerks k) (k_calls k);
  kv_handlers : handlersOk (k_calls k) started L (k_servers k);
  kv_replies : ∀ op a, (op, a) ∈ k_replies k → rightAnswer (k_calls k) started L op a;
  kv_record : recordOk (k_calls k) (k_clock k) L started place;
}.

(** A call that is followed by another one of its clerk in the log is in the log. *)
Lemma followed_in_log n k L started place op op' :
  runInv n k L started place → called (k_calls k) op → op' ∈ L → UId op' = UId op → RequestId op < RequestId op' → op ∈ L.
Proof.
  intros I (i & c & Hi & <-) Hin Hu Hlt. pose proof (kv_own _ _ _ _ _ I) as HL. unfold ownLogOf in HL. rewrite Forall_forall in HL.
  destruct (HL _ Hin) as (j & d & Hj & <-). pose proof (kv_clerks _ _ _ _ _ I) as HC.
  destruct (Nat.lt_trichotomy i j) as [Hij|[->|Hij]].
  - destruct (ck_order HC _ _ _ _ Hi Hj Hij) as [_ Ho]; [done|]. unfold over in Ho.
    destruct (cc_end c) as [[v now]|] eqn:He; [|done]. by destruct (ro_end (kv_record _ _ _ _ _ I) _ _ _ _ Hi He).
  - assert (c = d) as -> by congruence. lia.
  - destruct (ck_order HC _ _ _ _ Hj Hi Hij); [done|lia].
Qed.

(** The answer that a handler takes from [fetchApply] *)
Lemma taken_right n k L started place s sys op index a :
  runInv n k L started place → r_servers (k_servers k) !! s = Some sys → HReply op index (Some a) ∈ handlers sys →
  rightAnswer (k_calls k) started L op a.
Proof.
  intros I Hs Hin. pose proof (kv_own _ _ _ _ _ I) as HL. unfold ownLogOf in HL. rewrite Forall_forall in HL.
  assert (called (k_calls k) op) as Hop by (by eapply (fh_handlers _ _ (kv_origin _ _ _ _ _ I) _ _ Hs)).
  apply list_elem_of_lookup in Hin as [h Hh].
  destruct (handler_answer _ _ _ _ _ _ _ _ (kv_reachable _ _ _ _ _ I) Hs Hh) as (op' & Happ & Hu & Hr).
  destruct (logOf_explains _ _ _ (kv_log _ _ _ _ _ I) _ _ Hs) as [_ Hans].
  destruct (Hans _ _ _ Happ) as (Hi & q & s0 & s1 & Hq & Hrun%svcRun_init & Hx).
  pose proof (go_index_Some_lt _ _ _ Hi) as Hi0. rewrite go_index_nonneg in Hi by lia.
  assert (op' = op) as ->.
  { eapply called_unique; [apply I|apply HL; by eapply list_elem_of_lookup_2|done|]. unfold reqOf. simpl in Hu, Hr. congruence. }
  split_and!; [done|by eapply list_elem_of_lookup_2|]. intros Hw j c Hj <-. exists q.
  destruct (ro_start (kv_record _ _ _ _ _ I) _ _ Hj) as (_ & Hn & _). split.
  - unfold len in Hq. split; [|lia]. apply Nat.nlt_ge. intros Hlt. destruct Hn. apply list_elem_of_fmap_2.
    apply (list_elem_of_lookup_2 _ (Z.to_nat (index - 1))). rewrite lookup_take_lt by lia. done.
  - destruct (replay_plain (take q L)) as [Hm _]; [by apply clientOrder_take, I|].
    unfold mapAfter. rewrite <-Hm, <-Hrun. simpl in Hx. injection Hx as Hx.
    change a with ((s1, a).2). rewrite <-Hx. unfold applyCommand, exec, isWrite in *.
    destruct (op_Op (cc_op c) =? GET)%string; [|done]. rewrite andb_false_r. simpl. by destruct (m s0 !! _).
Qed.
(** A request that its server has applied before is answered at once. *)
Lemma early_right n k L started place s sys j c a :
  runInv n k L started place → r_servers (k_servers k) !! s = Some sys → k_calls k !! j = Some c →
  handle (st sys) (cc_request c) = inr a → rightAnswer (k_calls k) started L (cc_op c) a.
Proof.
  intros I Hs Hj Hh. assert (called (k_calls k) (cc_op c)) as Hc by (by exists j, c).
  destruct (ck_calls (kv_clerks _ _ _ _ _ I) _ _ Hj) as (_ & _ & _ & _ & [Hpos _] & Hkn).
  destruct (cc_request c) as [args|args] eqn:Hreq; [done|]. simpl in Hh. unfold PutAppend in Hh. case_if_in Hh; [|done].
  destruct (logOf_explains _ _ _ (kv_log _ _ _ _ _ I) _ _ Hs) as [(q & Hq & Hrun%svcRun_init) _]. simpl in Hpos.
  pose proof (last_in_log (take q L) (pa_UId args) (clientOrder_take _ _ _ (kv_order _ _ _ _ _ I))) as Hin.
  rewrite <-Hrun in Hin. specialize (Hin ltac:(lia)). apply list_elem_of_fmap in Hin as (o & Ho & Hin).
  assert (o ∈ L) as HoL by (apply list_elem_of_lookup in Hin as [i Hi]; apply lookup_take_Some in Hi as [Hi _]; by eapply list_elem_of_lookup_2).
  injection Ho as Hu Hr. rewrite <-Hreq in *. split_and!; [done| |].
  - destruct (decide (RequestId o = pa_RequestId args)) as [He|Hne].
    + eapply in_reqs; [apply I|apply I|done|]. apply list_elem_of_fmap. exists o. split; [|done].
      rewrite Hreq. unfold reqOf. simpl. congruence.
    + eapply (followed_in_log _ _ _ _ _ _ o); [exact I|done|done|rewrite Hreq; simpl; congruence|rewrite Hreq; simpl; lia].
  - intros Hw. rewrite Hreq in Hw, Hkn. unfold isWrite in *. simpl in *.
    by destruct Hkn as [E|E]; rewrite E in Hw.
Qed.
(** ** The steps *)
Lemma recordOk_app calls clock L M started place : recordOk calls clock L started place → recordOk calls clock (L ++ M) started place.
Proof.
  intros [H1 H2 H3]. constructor; [| |done].
  - intros j c Hj. destruct (H1 _ _ Hj) as (? & ? & ?). rewrite length_app, take_app_le by lia. split_and!; [lia|done|done].
  - intros j c v now Hj He. destruct (H2 _ _ _ _ Hj He) as (? & ? & ?).
    split_and!; [apply elem_of_app; by left|by apply placeOf_app|lia..].
Qed.

(** The next command of the log keeps the order of its client. *)
Lemma next_in_order n k L started place op :
  runInv n k L started place → called (k_calls k) op → clientOrder [] (L ++ [op]).
Proof.
  intros I Hop. apply clientOrder_snoc. destruct (called_known _ _ _ (kv_clerks _ _ _ _ _ I) Hop) as [Hpos _].
  split_and!; [apply I|done|]. rewrite app_nil_r. destruct (decide (op ∈ L)) as [Hin|Hout]; [left; by apply list_elem_of_fmap_2|right].
  intros r (o & Ho & Hin)%list_elem_of_fmap. injection Ho as Hu Hr. apply Z.nle_gt. intros Hle.
  destruct (decide (RequestId o = RequestId op)) as [He|Hne].
  - apply Hout. eapply in_reqs; [apply I|apply I|done|]. apply list_elem_of_fmap. exists o. unfold reqOf. split; [congruence|done].
  - apply Hout. eapply (followed_in_log _ _ _ _ _ _ o); [exact I|done|done|congruence|lia].
Qed.

Lemma servers_step n k L started place a t' :
  runInv n k L started place → rsafe (k_servers k) a → rstep (k_servers k) a = Some t' →
  (∀ s req, a = SEvent s (EvCall req) → ∃ (j : nat) c, k_calls k !! j = Some c ∧ cc_request c = req) →
  ∃ L', runInv n (with_servers t' k) L' started place.
Proof.
  intros I Hsafe Hx Hreq. destruct (logOf_step _ _ _ _ _ (kv_log _ _ _ _ _ I) Hsafe Hx) as (L' & He & HL').
  pose proof (kv_origin _ _ _ _ _ I) as HF.
  assert (∃ M, L' = L ++ M ∧ ownLogOf (k_calls k) L' ∧ clientOrder [] L') as (M & -> & Hown & Hord).
  { destruct He as [->|(op & Ht & ->)]; [exists []; rewrite app_nil_r; split_and!; [done|apply I..]|].
    pose proof (takes_own _ _ _ _ HF Ht) as Hop. exists [op]. split_and!; [done| |by eapply next_in_order].
    apply Forall_app; split; [apply I|by constructor]. }
  exists (L ++ M). constructor; simpl; try done; try apply I.
  - eapply rreach_step; [apply I|]. by exists a.
  - eapply fromHandlers_step; [apply I| |exact Hx|exact HF].
    intros op (s & req & sys & -> & Hs & Hh). destruct (Hreq _ _ eq_refl) as (j & c & Hj & <-). exists j, c. split; [done|].
    simpl in Hh. destruct (cc_request c); simpl in *; [by injection Hh|]. unfold PutAppend in Hh. case_if_in Hh; [done|by injection Hh].
  - intros s sys' hd op b Hs Hin Hret Hrep. apply rightAnswer_app. destruct (step_moves _ _ _ _ _ _ Hx Hs Hin) as (sys & Hs0 & [Hold|[(hd0 & Hold & Hm)|(req & -> & ->)]]).
    + by eapply (kv_handlers _ _ _ _ _ I).
    + destruct Hm; try done. simpl in Hrep. destruct a0; [injection Hrep as -> ->|done]. by eapply taken_right.
    + destruct (Hreq _ _ eq_refl) as (j & c & Hj & <-). destruct (svc_handle _ _) eqn:Hh; [done|]. injection Hrep as <- <-. by eapply early_right.
  - intros op b Hin. by apply rightAnswer_app, (kv_replies _ _ _ _ _ I).
  - apply recordOk_app, I.
Qed.
(** A clerk starts a call. *)
Lemma call_step n k L started place i ck (cl : ClerkCall) now :
  runInv n k L started place → k_clerks k !! i = Some ck → idle ck (k_calls k) = true → k_clock k ≤ now →
  let ck' := KVClerk.nextRequest ck in
  runInv n (mkRun (k_servers k) (<[i := ck']> (k_clerks k)) (k_calls k ++ [mkClientCall (callRequest ck' cl) now None]) (k_replies k) now)
    L (λ j, if decide (j = length (k_calls k)) then length L else started j) place.
Proof.
  intros I Hi Hidle Hnow ck'. destruct (call_ok _ _ _ _ cl now (kv_clerks _ _ _ _ _ I) Hi Hidle) as [HC Hnew]. fold ck' in HC, Hnew.
  set (d := mkClientCall (callRequest ck' cl) now None) in *. pose proof (kv_record _ _ _ _ _ I) as HR.
  assert (∀ op, called (k_calls k) op → called (k_calls k ++ [d]) op) as Hmore.
  { intros op (j & c & Hj & <-). exists j, c. split; [by apply lookup_app_l_Some|done]. }
  assert (∀ op a, rightAnswer (k_calls k) started L op a →
    rightAnswer (k_calls k ++ [d]) (λ j, if decide (j = length (k_calls k)) then length L else started j) L op a) as Hright.
  { intros op a (Hc & Hin & Hr). split_and!; [by apply Hmore|done|]. intros Hw j c [Hj|[_ Hj]]%lookup_app_Some Hop.
    - rewrite decide_False by (apply lookup_lt_Some in Hj; lia). by eapply Hr.
    - apply list_lookup_singleton_Some in Hj as [_ <-]. destruct (Hnew _ Hc). by rewrite <-Hop. }
  constructor; simpl; try apply I; try done.
  - eapply fromHandlers_weaken; [exact Hmore|apply I].
  - unfold ownLogOf. eapply Forall_impl; [apply I|exact Hmore].
  - intros s sys hd op a Hs Hin Hret Hrep. by eapply Hright, (kv_handlers _ _ _ _ _ I).
  - intros op a Hin. by apply Hright, (kv_replies _ _ _ _ _ I).
  - constructor.
    + intros j c [Hj|[Hge Hj]]%lookup_app_Some.
      * rewrite decide_False by (apply lookup_lt_Some in Hj; lia). destruct (ro_start HR _ _ Hj) as (? & ? & ?). split_and!; [done|done|lia].
      * apply list_lookup_singleton_Some in Hj as [Hj <-]. rewrite decide_True by lia. split_and!; [done| |done].
        rewrite firstn_all. intros (o & Ho & Hin)%list_elem_of_fmap. pose proof (kv_own _ _ _ _ _ I) as HL.
        unfold ownLogOf in HL. rewrite Forall_forall in HL. by destruct (Hnew _ (HL _ Hin)).
    + intros j c v ret [Hj|[_ Hj]]%lookup_app_Some He; [|by apply list_lookup_singleton_Some in Hj as [_ <-]].
      rewrite decide_False by (apply lookup_lt_Some in Hj; lia). destruct (ro_end HR _ _ _ _ Hj He) as (? & ? & ? & ?). split_and!; [done..|lia].
    + intros j1 j2 c1 c2 v ret [Hj1|[_ Hj1]]%lookup_app_Some He Hj2 Hlt; [|by apply list_lookup_singleton_Some in Hj1 as [_ <-]].
      case_decide as Hd.
      * destruct (ro_end HR _ _ _ _ Hj1 He) as (_ & Hp%placeOf_range & _). lia.
      * eapply (ro_time HR _ _ _ _ _ _ Hj1 He); [|done]. apply lookup_app_Some in Hj2 as [?|[Hge Hj2]]; [done|].
        apply list_lookup_singleton_Some in Hj2 as [? _]. lia.
Qed.
(** What the clerk returns for a right answer has a place. *)
Lemma answer_placed n k L started place (j : nat) c a v :
  runInv n k L started place → k_calls k !! j = Some c → rightAnswer (k_calls k) started L (cc_op c) a →
  returns (cc_request c) a = Some v → ∃ rank, placeOf L (started j) (cc_op c) v rank.
Proof.
  intros I Hj (Hc & Hin & Hr) Hv. destruct (isWrite (cc_op c)) eqn:Hw.
  - destruct (first_occurrence _ _ _ _ (kv_clerks _ _ _ _ _ I) (kv_own _ _ _ _ _ I) Hin) as (p & Hp & Hn).
    exists (2 * Z.of_nat p + 1). right. split; [done|]. exists p. split_and!; [done| |done..].
    destruct (ro_start (kv_record _ _ _ _ _ I) _ _ Hj) as (_ & Hs & _). apply Nat.nlt_ge. intros Hlt. destruct Hs.
    apply list_elem_of_fmap_2, (list_elem_of_lookup_2 _ p). by rewrite lookup_take_lt by lia.
  - destruct (Hr eq_refl _ _ Hj eq_refl) as (q & Hq & ->). exists (2 * Z.of_nat q). left. split; [done|]. exists q.
    split_and!; [done|lia|lia|]. unfold valueAt.
    destruct (ck_calls (kv_clerks _ _ _ _ _ I) _ _ Hj) as (_ & _ & _ & _ & _ & Hg).
    destruct (cc_request c) as [args|args]; simpl in *.
    + unfold exec in Hv. simpl in Hv. by destruct (mapAfter L q !! ga_Key args); injection Hv as <-.
    + unfold isWrite in Hw. simpl in Hw. by destruct Hg as [E|E]; rewrite E in Hw.
Qed.

(** A call returns. *)
Lemma return_record n k L started place (j : nat) c v now rank :
  runInv n k L started place → k_calls k !! j = Some c → k_clock k ≤ now → cc_end c = None → cc_op c ∈ L →
  placeOf L (started j) (cc_op c) v rank →
  recordOk (<[j := mkClientCall (cc_request c) (cc_start c) (Some (v, now))]> (k_calls k)) now L started
    (λ i, if decide (i = j) then rank else place i).
Proof.
  intros I Hj Hnow Hend Hin Hp. pose proof (kv_record _ _ _ _ _ I) as HR. set (c' := mkClientCall _ _ _).
  assert (∀ (i : nat) d, <[j := c']> (k_calls k) !! i = Some d → ∃ d0, k_calls k !! i = Some d0 ∧ cc_request d = cc_request d0 ∧
    cc_start d = cc_start d0) as Hd.
  { intros i d [(-> & <- & _)|[_ Hi]]%list_lookup_insert_Some; [by exists c|by exists d]. }
  constructor.
  - intros i d (d0 & Hi & -> & ->)%Hd. destruct (ro_start HR _ _ Hi) as (? & ? & ?). split_and!; [done|done|lia].
  - intros i d w ret [(<- & <- & _)|[Hne Hi]]%list_lookup_insert_Some He.
    + injection He as <- <-. rewrite decide_True by done. destruct (ro_start HR _ _ Hj) as (_ & _ & ?). split_and!; [done|done|simpl; lia|lia].
    + rewrite decide_False by done. destruct (ro_end HR _ _ _ _ Hi He) as (? & ? & ? & ?). split_and!; [done..|lia].
  - intros i1 i2 d1 d2 w ret Hi1 He Hi2 Hlt. destruct (Hd _ _ Hi2) as (d0 & Hi2' & _ & Hst).
    destruct (ro_start HR _ _ Hi2') as (_ & _ & Hclock).
    apply list_lookup_insert_Some in Hi1 as [(<- & <- & _)|[Hne Hi1]].
    + injection He as <- <-. lia.
    + rewrite decide_False by done. eapply (ro_time HR _ _ _ _ _ _ Hi1 He); [exact Hi2'|lia].
Qed.
Lemma return_step n k L started place (j r : nat) c a v now :
  runInv n k L started place → k_calls k !! j = Some c → k_replies k !! r = Some (cc_op c, a) → cc_end c = None →
  k_clock k ≤ now → returns (cc_request c) a = Some v →
  ∃ place', runInv n (mkRun (k_servers k) (k_clerks k)
    (<[j := mkClientCall (cc_request c) (cc_start c) (Some (v, now))]> (k_calls k)) (k_replies k) now) L started place'.
Proof.
  intros I Hj Hr Hend Hnow Hv. pose proof (kv_replies _ _ _ _ _ I _ _ (list_elem_of_lookup_2 _ _ _ Hr)) as Hgood.
  destruct (answer_placed _ _ _ _ _ _ _ _ _ I Hj Hgood Hv) as (rank & Hp). set (c' := mkClientCall _ _ _).
  assert (∀ op, called (k_calls k) op → called (<[j := c']> (k_calls k)) op) as Hmore.
  { intros op (i & d & Hi & <-). destruct (decide (i = j)) as [->|Hne].
    - exists j, c'. rewrite list_lookup_insert_eq by (by eapply lookup_lt_Some). split; [done|].
      by assert (d = c) as -> by congruence.
    - exists i, d. by rewrite list_lookup_insert_ne. }
  assert (∀ op b, rightAnswer (k_calls k) started L op b → rightAnswer (<[j := c']> (k_calls k)) started L op b) as Hright.
  { intros op b (Hc & Hin & Hx). split_and!; [by apply Hmore|done|]. intros Hw i d Hi Hop.
    apply list_lookup_insert_Some in Hi as [(<- & <- & _)|[_ Hi]]; [|by eapply Hx]. by apply (Hx Hw j c). }
  exists (λ i, if decide (i = j) then rank else place i). constructor; simpl; try apply I; try done.
  - eapply fromHandlers_weaken; [exact Hmore|apply I].
  - unfold ownLogOf. eapply Forall_impl; [apply I|exact Hmore].
  - apply return_ok; [apply I|done].
  - intros s sys hd op b Hs Hin Hret Hrep. by eapply Hright, (kv_handlers _ _ _ _ _ I).
  - intros op b Hin. by apply Hright, (kv_replies _ _ _ _ _ I).
  - eapply return_record; [exact I|done..|apply Hgood|done].
Qed.

Lemma run_step n k L started place a k' :
  runInv n k L started place → ksafe k a → kstep maxraftstate k a = Some k' → ∃ L' started' place', runInv n k' L' started' place'.
Proof.
  intros I Hsafe H. destruct a as [a|i cl now|s j|s h|j r now]; simpl in H.
  - case_if_in H; [|done]. apply bind_Some in H as (t & Hx & [= <-]).
    destruct (servers_step n k L started place a t I Hsafe Hx) as (L' & ?); [by intros s req ->|]. eauto.
  - apply bind_Some in H as (ck & Hi & H). case_if_in H; [|done]. injection H as <-.
    destruct Hif as [Hidle Hnow]. eexists _, _, _. eapply call_step; [exact I|done|done|lia].
  - apply bind_Some in H as (c & Hj & H). apply bind_Some in H as (t & Hx & [= <-]).
    destruct (servers_step n k L started place (SEvent s (EvCall (cc_request c))) t I) as (L' & ?); [done|exact Hx| |by eauto].
    intros s0 req [= <- <-]. by exists j, c.
  - apply bind_Some in H as (sys & Hs & H). apply bind_Some in H as (hd & Hh & H). apply bind_Some in H as ([op a] & Hr & [= <-]).
    exists L, started, place. constructor; simpl; try apply I.
    intros op' a' [Hin|Hin]%elem_of_app; [by apply (kv_replies _ _ _ _ _ I)|].
    apply list_elem_of_singleton in Hin as [= -> ->]. apply list_elem_of_lookup_2 in Hh.
    destruct (hasReturned hd) eqn:Hret; [by eapply (kv_handlers _ _ _ _ _ I)|]. destruct hd as [| | |op' i' [b|]| |]; try done.
    injection Hr as -> ->. by eapply taken_right.
  - apply bind_Some in H as (c & Hj & H). apply bind_Some in H as ([op a] & Hr & H). case_if_in H; [|done].
    apply bind_Some in H as (v & Hv & [= <-]). destruct Hif as [[-> Hover] Hnow].
    unfold over in Hover.
    destruct (return_step n k L started place j r c a v now) as (place' & ?); [done..|by destruct (cc_end c)|lia|done|]. eauto.
Qed.

Lemma run_init n ids k : NoDup ids → initRun maxraftstate n ids = Some k → runInv n k [] (λ _, 0%nat) (λ _, 0).
Proof.
  intros Hids H. apply bind_Some in H as (t & Hi & [= <-]). constructor; simpl; try done.
  - by apply logOf_init.
  - by apply rreach_init.
  - by eapply fromHandlers_init.
  - constructor.
  - constructor; try done.
    + rewrite map_map. simpl. by rewrite map_id.
    + intros i ck Hck. rewrite list_lookup_fmap in Hck. by apply fmap_Some in Hck as (u & _ & ->).
  - intros s sys hd op a Hs. apply bind_Some in Hi as (c & _ & [= <-]). simpl in Hs.
    rewrite list_lookup_fmap in Hs. apply fmap_Some in Hs as (p & _ & ->). by intros ?%not_elem_of_nil.
  - by intros op a ?%not_elem_of_nil.
Qed.

Lemma kreachable_inv n ids k : NoDup ids → kreachable maxraftstate n ids k → ∃ L started place, runInv n k L started place.
Proof.
  intros Hids. induction 1 as [k Hi|k a k' _ (L & started & place & I) Hs Hx]; [|by eapply run_step].
  eexists _, _, _. by eapply run_init.
Qed.
End invariant.
