(* ===== verification/KVHistory.v ===== *)
(** The record of the clerks of [KVClients] is linearizable, and the checker of the tests
    says so. *)
From S2P Require Import Prelude Labgob Persister Raft RaftElection RaftCluster RequestServer KVServer KVModel KVProps Replicated ReplicatedProps ReplicatedKV.
From S2P Require Import Clerk Checker CheckerList CheckerSound CheckerLink CheckerProps CheckerSearch CheckerComplete CheckerKV KVPoints KVClients KVLinear.
#[local] Open Scope Z_scope.
Import KV.

Section history.
Context (L : list Op) (clock : Z) (clerks : list KVClerk.Clerk) (calls : list ClientCall) (started : nat → nat) (place : nat → Z).
Context (Hclerks : clerksOk clerks calls) (Hown : ownLogOf calls L) (Hrecord : recordOk calls clock L started place).
Implicit Types (c d : ClientCall).

(** A write that the servers have taken before its call returned takes part in the history: it
    may end at any time, say now. *)
Definition ending c : option (string * Z) :=
  match cc_end c with
  | Some e => Some e
  | None => if isWrite (cc_op c) && bool_decide (cc_op c ∈ L) then Some ("", clock) else None
  end.

Definition firstAt (op : Op) : nat := from_option fst 0%nat (list_find (λ o, reqOf o = reqOf op) L).

Definition rankOf (j : nat) c : Z := if over c then place j else 2 * Z.of_nat (firstAt (cc_op c)) + 1.

Definition pointAt (j : nat) c : option Point := '(v, now) ← ending c; Some (mkPoint (operation c v now) (rankOf j c) j).

Definition points : list Point := omap (λ o : option Point, o) (imap pointAt calls).

Lemma firstAt_spec op : op ∈ L → L !! firstAt op = Some op ∧ (reqOf op ∉ map reqOf (take (firstAt op) L)).
Proof.
  intros Hin. destruct (list_find_elem_of (λ o, reqOf o = reqOf op) L op Hin eq_refl) as [[i o] Hf].
  unfold firstAt. rewrite Hf. simpl. apply list_find_Some in Hf as (Hi & Ho & Hfirst). unfold ownLogOf in Hown. rewrite Forall_forall in Hown. split.
  - rewrite Hi. f_equal. eapply called_unique; [exact Hclerks|apply Hown; by eapply list_elem_of_lookup_2|by apply Hown|done].
  - intros (o' & Ho' & Hin')%list_elem_of_fmap. apply list_elem_of_lookup in Hin' as [i' Hi'].
    apply lookup_take_Some in Hi' as [Hi' Hlt]. by eapply Hfirst.
Qed.

Lemma points_elem x : x ∈ points ↔ ∃ (j : nat) c, calls !! j = Some c ∧ pointAt j c = Some x.
Proof.
  unfold points. rewrite list_elem_of_omap. split.
  - intros (o & Ho & Hx). apply elem_of_lookup_imap_1 in Ho as (j & c & -> & Hj). by exists j, c.
  - intros (j & c & Hj & Hx). exists (Some x). split; [|done]. rewrite <-Hx. by apply elem_of_lookup_imap_2.
Qed.

(** Every point is at the place of its call. *)
Lemma point_place j c v now :
  calls !! j = Some c → ending c = Some (v, now) →
  placeOf L (started j) (cc_op c) v (rankOf j c) ∧ cc_start c ≤ now ∧
  ∀ (i : nat) d, calls !! i = Some d → now < cc_start d → rankOf j c ≤ 2 * Z.of_nat (started i).
Proof.
  intros Hj He. unfold ending in He. unfold rankOf, over. destruct (ro_start Hrecord _ _ Hj) as (Hle & Hn & Hst).
  destruct (cc_end c) as [[v0 now0]|] eqn:Hend.
  - injection He as <- <-. destruct (ro_end Hrecord _ _ _ _ Hj Hend) as (_ & Hp & ? & _).
    split_and!; [done..|]. intros i d Hi Hlt. by eapply (ro_time Hrecord).
  - case_if_in He; [|done]. destruct Hif as [Hw Hin]. injection He as <- <-.
    destruct (firstAt_spec _ Hin) as [Hf Hnf]. split_and!; [|done|].
    + right. split; [done|]. exists (firstAt (cc_op c)). split_and!; [done| |done..].
      apply Nat.nlt_ge. intros Hlt. apply Hn, list_elem_of_fmap_2, (list_elem_of_lookup_2 _ (firstAt (cc_op c))).
      by rewrite lookup_take_lt by lia.
    + intros i d Hi Hlt. destruct (ro_start Hrecord _ _ Hi) as (_ & _ & ?). lia.
Qed.

Lemma points_calls : NoDup (map pt_call points).
Proof.
  unfold points. clear Hclerks Hown Hrecord. induction calls as [|c l IH] using rev_ind; [constructor|].
  rewrite imap_app, omap_app. change (map pt_call (?l1 ++ ?l2)) with (pt_call <$> (l1 ++ l2)). rewrite fmap_app.
  apply NoDup_app. split_and!; [done| |].
  - intros j (x & -> & Hx)%list_elem_of_fmap Hy. apply list_elem_of_omap in Hx as (o & Ho & Hx).
    apply elem_of_lookup_imap_1 in Ho as (j & c' & -> & Hj). apply lookup_lt_Some in Hj. unfold pointAt in Hx.
    apply bind_Some in Hx as ([v now] & _ & [= <-]). simpl in Hy. unfold pointAt in Hy.
    destruct (ending c) as [[v1 now1]|]; simpl in Hy; [|by apply not_elem_of_nil in Hy].
    apply list_elem_of_singleton in Hy. lia.
  - simpl. destruct (pointAt _ c); simpl; [apply NoDup_singleton|constructor].
Qed.

(** The points of one key *)
Definition pointKey (x : Point) : string := keyOf (pt_op x).
Definition pointsOf (k : string) : list Point := List.filter (λ x, (pointKey x =? k)%string) points.

Lemma pointsOf_elem k x :
  x ∈ pointsOf k ↔ ∃ (j : nat) c v now, calls !! j = Some c ∧ ending c = Some (v, now) ∧ Key (cc_op c) = k ∧
    x = mkPoint (operation c v now) (rankOf j c) j.
Proof.
  unfold pointsOf. rewrite list_elem_of_In, filter_In, <-list_elem_of_In, points_elem. split.
  - intros [(j & c & Hj & Hx) Hk%String.eqb_eq]. apply bind_Some in Hx as ([v now] & He & [= <-]). by exists j, c, v, now.
  - intros (j & c & v & now & Hj & He & <- & ->). split; [|apply String.eqb_refl].
    exists j, c. split; [done|]. unfold pointAt. by rewrite He.
Qed.

Lemma first_unique (p q : nat) op : L !! p = Some op → (reqOf op ∉ map reqOf (take p L)) → L !! q = Some op →
  (reqOf op ∉ map reqOf (take q L)) → p = q.
Proof.
  assert (∀ p q, L !! p = Some op → (reqOf op ∉ map reqOf (take q L)) → (q ≤ p)%nat) as Hle.
  { intros p' q' Hp Hq. apply Nat.nlt_ge. intros Hlt. apply Hq, list_elem_of_fmap_2, (list_elem_of_lookup_2 _ p').
    by rewrite lookup_take_lt by lia. }
  intros Hp Hp' Hq Hq'. pose proof (Hle _ _ Hp Hq'). pose proof (Hle _ _ Hq Hp'). lia.
Qed.

Lemma pointsOf_linearizes k : linearizes L k (pointsOf k).
Proof.
  constructor.
  - apply Forall_forall. intros x (j & c & v & now & Hj & He & <- & ->)%pointsOf_elem.
    destruct (point_place _ _ _ _ Hj He) as (Hp & _). exists (KvModel.mkIn (opCode (cc_op c)) (Key (cc_op c)) (Value (cc_op c))), (KvModel.mkOut v).
    destruct Hp as [(Hw & q & Hr & _ & Hv)|(Hw & p & Hr & _ & Hop & Hn)]; [exists q|exists p]; split_and!; try done.
    + left. split; [done|]. split; [|done]. simpl. unfold opCode, isWrite in *. by destruct (op_Op (cc_op c) =? GET)%string.
    + right. split; [done|]. by exists (cc_op c).
  - intros x y (j & c & v & now & Hj & He & _ & ->)%pointsOf_elem (i & d & w & ret & Hi & Hd & _ & ->)%pointsOf_elem. simpl.
    intros Hr Hodd. destruct (point_place _ _ _ _ Hj He) as ([(_ & q & Hq & _)|(_ & p & Hp & _ & Hop & _)] & _).
    { rewrite Hq, Z.odd_mul in Hodd. done. }
    destruct (point_place _ _ _ _ Hi Hd) as ([(_ & q & Hq & _)|(_ & p' & Hp' & _ & Hop' & _)] & _); [lia|].
    assert (p' = p) as -> by lia. rewrite Hop in Hop'. injection Hop' as Hop'.
    eapply (call_unique _ _ _ _ _ _ Hclerks Hj Hi). by rewrite Hop'.
  - unfold pointsOf. pose proof points_calls as Hnd. clear -Hnd. induction points as [|x l IH]; [done|]. simpl in *.
    apply NoDup_cons in Hnd as [Hx Hnd]. destruct (pointKey x =? k)%string; [|auto]. simpl. apply NoDup_cons. split; [|auto].
    intros (y & Hy & Hin)%list_elem_of_fmap. apply Hx. rewrite Hy. apply list_elem_of_fmap_2.
    apply list_elem_of_In, filter_In in Hin as [Hin _]. by apply list_elem_of_In.
  - intros p _ (o & Ho & Hw & Hn & Hk). pose proof Hown as Hown'. unfold ownLogOf in Hown'. rewrite Forall_lookup in Hown'.
    destruct (Hown' _ _ Ho) as (j & c & Hj & Hop). subst o.
    assert (∃ v now, ending c = Some (v, now)) as (v & now & He).
    { unfold ending. destruct (cc_end c) as [[v now]|]; [by exists v, now|]. rewrite Hw, bool_decide_true by (by eapply list_elem_of_lookup_2). by eauto. }
    exists (mkPoint (operation c v now) (rankOf j c) j). split; [apply pointsOf_elem; by exists j, c, v, now|]. simpl.
    destruct (point_place _ _ _ _ Hj He) as ([(Hw' & _)|(_ & p' & -> & _ & Hop' & Hn')] & _); [congruence|].
    by rewrite (first_unique p p' (cc_op c)).
  - intros x y (j & c & v & now & Hj & He & _ & ->)%pointsOf_elem (i & d & w & ret & Hi & Hd & _ & ->)%pointsOf_elem. simpl.
    intros Hlt. destruct (point_place _ _ _ _ Hj He) as (_ & _ & Ht). specialize (Ht _ _ Hi Hlt).
    destruct (point_place _ _ _ _ Hi Hd) as (Hp%placeOf_range & _). lia.
  - apply Forall_forall. intros x (j & c & v & now & Hj & He & _ & ->)%pointsOf_elem. simpl.
    by destruct (point_place _ _ _ _ Hj He) as (_ & ? & _).
Qed.
End history.

(** ** Histories *)
Lemma linearizes_perm (L : list Op) k (l l' : list Point) : l ≡ₚ l' → linearizes L k l → linearizes L k l'.
Proof.
  intros Hp [H1 H2 H3 H4 H5 H6]. constructor.
  - by rewrite <-Hp.
  - intros x y Hx Hy. apply H2; by rewrite Hp.
  - by rewrite <-Hp.
  - intros j Hj He. destruct (H4 j Hj He) as (x & Hx & ?). exists x. by rewrite <-Hp.
  - intros x y Hx Hy. apply H5; by rewrite Hp.
  - by rewrite <-Hp.
Qed.

Lemma filter_perm {A} (f : A → bool) (l l' : list A) : l ≡ₚ l' → List.filter f l ≡ₚ List.filter f l'.
Proof.
  induction 1 as [|x l l' _ IH|x y l|l1 l2 l3 _ IH1 _ IH2]; simpl; [done| | |by etrans].
  - destruct (f x); [by constructor|done].
  - destruct (f x), (f y); try reflexivity. apply perm_swap.
Qed.

(** The writes whose calls have not returned, but which servers have taken *)
Definition taken (L : list Op) (c : ClientCall) : bool := negb (over c) && (isWrite (cc_op c) && bool_decide (cc_op c ∈ L)).

Lemma points_record (L : list Op) clock place calls :
  map pt_op (points L clock calls place) ≡ₚ
  omap recorded calls ++ map (λ c, operation c "" clock) (List.filter (taken L) calls).
Proof.
  unfold points. induction calls as [|c l IH] using rev_ind; [done|].
  rewrite imap_app, !omap_app, List.filter_app, !map_app, IH. simpl.
  destruct (cc_end c) as [[v now]|] eqn:He.
  - assert (recorded c = Some (operation c v now)) as -> by (unfold recorded; by rewrite He).
    assert (taken L c = false) as -> by (unfold taken, over; by rewrite He).
    unfold pointAt, ending. rewrite He. simpl. rewrite app_nil_r. solve_Permutation.
  - assert (recorded c = None) as -> by (unfold recorded; by rewrite He).
    assert (taken L c = isWrite (cc_op c) && bool_decide (cc_op c ∈ L)) as -> by (unfold taken, over; by rewrite He).
    unfold pointAt, ending. rewrite He. rewrite app_nil_r.
    destruct (isWrite (cc_op c) && bool_decide (cc_op c ∈ L)); simpl; by rewrite <-?app_assoc.
Qed.

Section theorems.
Context `{!Gob Z, !Gob (gmap Z Z), !Gob (gmap string string), !Gob (list (Log Op))}.
Context (maxraftstate : Z).

(** A run has a history: what is recorded, and the writes that were taken. *)
Lemma run_history n ids k :
  NoDup ids → kreachable maxraftstate n ids k →
  ∃ took, took `sublist_of` pending k ∧
    ∀ history, history ≡ₚ record k ++ map (λ c, operation c "" (k_clock k)) took →
      Forall (linearizable kvModel) (kvPartition history) ∧
      Forall (Forall (λ op, Call op ≤ Return op)) (kvPartition history).
Proof.
  intros Hids Hk. destruct (kreachable_inv _ _ _ _ Hids Hk) as (L & started & place & I).
  pose proof (kv_clerks _ _ _ _ _ _ I) as HC. pose proof (kv_own _ _ _ _ _ _ I) as HL. pose proof (kv_record _ _ _ _ _ _ I) as HR.
  exists (List.filter (taken L) (k_calls k)). split.
  { unfold pending. generalize (k_calls k). intros l. induction l as [|c l IH]; [done|]. simpl. unfold taken at 1.
    destruct (negb (over c)); simpl; [|done]. destruct (isWrite (cc_op c) && _); by constructor. }
  intros history Hh. unfold record in Hh. rewrite <-(points_record L (k_clock k) place) in Hh.
  apply Permutation_map_inv in Hh as (l & -> & Hl). destruct (kvPartition_keys (map pt_op l)) as (keys & -> & _).
  assert (Forall known L) as Hkn.
  { unfold ownLogOf in HL. eapply Forall_impl; [exact HL|]. intros op Hop. by destruct (called_known _ _ _ HC Hop). }
  assert (∀ key, linearizes L key (List.filter (λ x, (pointKey x =? key)%string) l)) as Hlin.
  { intros key. eapply linearizes_perm; [apply filter_perm, Hl|]. by eapply pointsOf_linearizes. }
  assert (∀ key, CheckerKV.ofKey key (map pt_op l) = map pt_op (List.filter (λ x, (pointKey x =? key)%string) l)) as Hof.
  { intros key. unfold CheckerKV.ofKey, pointKey. clear. induction l as [|x l IH]; [done|]. simpl.
    destruct (keyOf (pt_op x) =? key)%string; simpl; by rewrite IH. }
  split; apply Forall_fmap, Forall_forall; intros key _; simpl; rewrite Hof.
  - by eapply points_linearizable.
  - apply Forall_fmap. eapply lz_return. apply Hlin.
Qed.

(** C6: the key/value service is linearizable. In a run of a cluster of servers with any clerks
    (elections, crashes and restarts, lost, delayed and repeated messages, snapshots taken, sent
    and installed; clerks with different identities, each doing one call at a time, whose
    requests reach any servers any number of times, also late), if the steps of the servers are
    [rsafe] (as for [servers_share_log]: [elect] not overtaken, commits of the leader's own term,
    the term of the snapshot on the disk at a crash or a transfer, no batch before the commit
    index has passed the snapshot): what the clerks' calls returned, together with some of the
    writes whose calls are not over, is for every key a linearizable history of [models/kv.go]:
    some order of the operations, which respects real time, is a run of the sequential store with
    these outputs. *)
Theorem kv_linearizable n ids k :
  NoDup ids → kreachable maxraftstate n ids k →
  ∃ took, took `sublist_of` pending k ∧
    ∀ history, history ≡ₚ record k ++ map (λ c, operation c "" (k_clock k)) took →
      Forall (linearizable kvModel) (kvPartition history).
Proof.
  intros Hids Hk. destruct (run_history _ _ _ Hids Hk) as (took & Ht & H). exists took. split; [done|].
  intros history Hh. by apply H.
Qed.

(** C7: the tests' verdict. When in a run as in [kv_linearizable] at least one call was made and
    all calls have returned, the linearizability checker, without a timeout, accepts their record
    within the given number of iterations, in whatever order the operations were logged and its
    goroutines finish. (It never returns on an empty record: [empty_history_blocks].) *)
Theorem checker_accepts_kv n ids k history sort fuel arrivals :
  NoDup ids → kreachable maxraftstate n ids k → pending k = [] → record k ≠ [] → history ≡ₚ record k → sorts sort →
  Forall (λ p, (enough (length p) ≤ fuel)%nat) (kvPartition history) →
  arrivals ≡ₚ map Some (seq 0 (length (kvPartition history))) →
  CheckOperations kvModel sort history (λ _ _, false) fuel arrivals = Returned true.
Proof.
  intros Hids Hk Hpend Hne Hh Hsort Hfuel Harr. destruct (run_history _ _ _ Hids Hk) as (took & Ht & H).
  rewrite Hpend in Ht. apply sublist_nil_r in Ht as ->. destruct (H history) as [Hlin Hcr]; [by rewrite app_nil_r|].
  destruct (kvPartition_keys history) as (keys & Hkeys & Hkne).
  destruct (checkParallel_decides kvModel sort (kvPartition history) false fuel arrivals) as (res & Hres & _ & Hok); try done.
  - apply kvModel_respected.
  - rewrite Hkeys. intros Hnil. apply map_eq_nil in Hnil. apply Hkne; [|done]. intros ->. by apply Permutation_nil_l in Hh.
  - unfold CheckOperations, checkOperations. simpl. rewrite Hres. by rewrite (proj2 Hok Hlin).
Qed.
End theorems.
