(* ===== verification/KVHistoryWitness.v ===== *)
(** A run of three key/value servers with two clerks: the record of their calls, with a snapshot
    that a server installs in between and a write that is not over. *)
From S2P Require Import Prelude Labgob Persister Raft RaftNode RaftElection RaftCluster RaftWitness ClusterWitness.
From S2P Require Import RequestServer KVServer KVModel KVProps ServiceWitness Replicated ReplicatedProps ReplicatedKV ReplicatedWitness.
From S2P Require Import Clerk Checker CheckerProps CheckerSearch CheckerComplete CheckerKV KVPoints KVClients KVLinear KVHistory.
Import SampleGob KV KVRun.
#[local] Open Scope Z_scope.

Fixpoint krunSafe (k : KRun) (l : list KAction) : option KRun :=
  match l with
  | [] => Some k
  | a :: l => if match a with KServer a => rsafeb (k_servers k) a | _ => true end
              then k' ← kstep 1 k a; krunSafe k' l else None
  end.

Lemma krunSafe_reachable n ids l : ∀ k k', kreachable 1 n ids k → krunSafe k l = Some k' → kreachable 1 n ids k'.
Proof.
  induction l as [|a l IH]; intros k k' Hk H; simpl in H; [by injection H as <-|].
  destruct (match a with KServer _ => _ | _ => _ end) eqn:Hb; [|done]. apply bind_Some in H as (k1 & H1 & H).
  eapply IH; [|exact H]. eapply kreach_step; [exact Hk| |exact H1]. destruct a; try done. by apply rsafeb_spec.
Qed.

Definition servers (l : list (SAction Request Op)) : list KAction := map KServer l.

(** Server 0 leads.  The first clerk puts; its request reaches a follower, and the leader
    twice. *)
Definition putCall : list KAction :=
  servers leads0 ++
  [KCall 0 (CPut "x" "1") 5; KDeliver 1 0; KServer (SEvent 1 (EvStart 0)); KDeliver 0 0] ++
  servers ([SEvent 0 (EvStart 0); SEvent 0 (EvGetChan 0)] ++
    raft [RSend 0 1; RDeliver 0; RReply 0] ++
    [SUpdate 0; STake 0; SEvent 0 EvLeader; SEvent 0 EvSend; SEvent 0 EvAfter; SEvent 0 (EvAnswer 0); SEvent 0 (EvDelete 0)]) ++
  [KReply 0 0; KReturn 0 0 10; KDeliver 0 0].

(** Server 2 installs the snapshot of server 0.  The second clerk gets; meanwhile the first one
    appends, and its request is applied before. *)
Definition getCall : list KAction :=
  servers (raft [RSend 0 2; RSnapDeliver 0; RSnapReply 0] ++ [SOffer 0]) ++
  [KCall 1 (CGet "x") 12; KCall 0 (CAppend "x" "2") 12; KDeliver 0 2; KDeliver 0 1] ++
  servers ([SEvent 0 (EvStart 2); SEvent 0 (EvGetChan 2); SEvent 0 (EvStart 3); SEvent 0 (EvGetChan 3)] ++
    raft [RSend 0 2; RDeliver 1; RReply 1] ++
    [SUpdate 0; STake 0; SEvent 0 EvLeader; SEvent 0 EvSend; SEvent 0 EvAfter;
     STake 0; SEvent 0 EvLeader; SEvent 0 EvSend; SEvent 0 EvAfter; SEvent 0 (EvAnswer 3); SEvent 0 (EvDelete 3)]) ++
  [KReply 0 3; KReturn 1 1 15].

(** Then the append returns, too; its server crashes. *)
Definition appendReturns : list KAction :=
  servers [SEvent 0 (EvAnswer 2); SEvent 0 (EvDelete 2)] ++ [KReply 0 2; KServer (SCrash 0); KReturn 2 2 20].

Definition put1 := mkOperation 7 (inl (KvModel.mkIn 1 "x" "1")) 5 (inr (KvModel.mkOut "")) 10 : Checker.Operation Val.
Definition get12 := mkOperation 9 (inl (KvModel.mkIn 0 "x" "")) 12 (inr (KvModel.mkOut "12")) 15 : Checker.Operation Val.
Definition append2 (now : Z) := mkOperation 7 (inl (KvModel.mkIn 2 "x" "2")) 12 (inr (KvModel.mkOut "")) now : Checker.Operation Val.

Lemma clerks_run :
  (k0 ← initRun 1 3 [7; 9]; k1 ← krunSafe k0 (putCall ++ getCall); k2 ← krunSafe k1 appendReturns;
   Some (record k1, length (pending k1), record k2, pending k2)) =
  Some ([put1; get12], 1%nat, [put1; get12; append2 20], []).
Proof. by vm_compute. Qed.

Lemma run_states :
  ∃ k1 k2, kreachable 1 3 [7; 9] k1 ∧ kreachable 1 3 [7; 9] k2 ∧ record k1 = [put1; get12] ∧ record k2 = [put1; get12; append2 20] ∧
    pending k2 = [].
Proof.
  pose proof clerks_run as H. apply bind_Some in H as (k0 & H0 & H). apply bind_Some in H as (k1 & H1 & H).
  apply bind_Some in H as (k2 & H2 & H). injection H as E1 _ E2 E3. exists k1, k2.
  assert (kreachable 1 3 [7; 9] k1) as Hk1 by (eapply krunSafe_reachable; [by apply kreach_init|exact H1]).
  split_and!; [done|by eapply krunSafe_reachable|done..].
Qed.

Lemma ids_distinct : NoDup [7; 9].
Proof. apply NoDup_cons; split; [by intros ?%list_elem_of_singleton|apply NoDup_singleton]. Qed.

(** The get has seen the append, which had not returned: without the append the record is not
    linearizable. *)
Lemma kv_linearizable_witness :
  ∃ k took, kreachable 1 3 [7; 9] k ∧ record k = [put1; get12] ∧
    took `sublist_of` pending k ∧
    ∀ history, history ≡ₚ record k ++ map (λ c, operation c "" (k_clock k)) took →
      Forall (linearizable kvModel) (kvPartition history).
Proof.
  destruct run_states as (k1 & _ & Hk & _ & Hr & _).
  destruct (kv_linearizable 1 3 [7; 9] k1) as (took & Hs & H); [exact ids_distinct|exact Hk|].
  exists k1, took. exact (conj Hk (conj Hr (conj Hs H))).
Defined.

Definition logged : list (Checker.Operation Val) := [get12; put1; append2 20].

Lemma logged_partition : kvPartition logged = [logged].
Proof. by vm_compute. Qed.

Lemma checker_accepts_kv_witness :
  CheckOperations kvModel sortEntries logged (λ _ _, false) (enough 3) [Some 0%nat] = Returned true.
Proof.
  destruct run_states as (_ & k2 & _ & Hk & _ & Hr & Hp).
  apply (checker_accepts_kv 1 3 [7; 9] k2 logged).
  - exact ids_distinct.
  - exact Hk.
  - exact Hp.
  - by rewrite Hr.
  - rewrite Hr. apply perm_swap.
  - exact sortEntries_sorts.
  - rewrite logged_partition. repeat constructor.
  - rewrite logged_partition. reflexivity.
Defined.
