(* ===== verification/MapReduce.v ===== *)
(** Models of the MapReduce programs: [src/src/mr/worker.go] ([KeyValue], [ihash]),
    [src/src/main/mrsequential.go] (the sequential driver) and the applications
    [src/src/mrapps/wc.go] and [src/src/mrapps/indexer.go].

    [sort.Sort] is not stable: the driver is a function of the order it produces, of which
    the theorems only assume that it is a sorted permutation.  The files are their names and
    contents, any bytes; words are found rune by rune ([Utf8]), [letters] is Unicode's table of
    the letters after Latin-1. *)
From S2P Require Import Prelude Utf8.
From stdpp Require Import sorting.
#[local] Open Scope Z_scope.

Record KeyValue := mkKV { Key : string; Value : string }.
#[export] Instance KeyValue_eq : EqDecision KeyValue.
Proof. solve_decision. Defined.

(** FNV-1a on 32 bits ([hash/fnv]), and the sign bit cleared. *)
Definition fnv32a (s : string) : Z :=
  foldl (λ h c, Z.modulo (Z.lxor h (Z.of_nat (nat_of_ascii c)) * 16777619) (2 ^ 32)) 2166136261
    (String.list_ascii_of_string s).
Definition ihash (key : string) : Z := Z.land (fnv32a key) 0x7fffffff.

(** [ByKey.Less] *)
Definition Less (a b : KeyValue) : bool := String.ltb (Key a) (Key b).

Section driver.
Context (mapf : string → string → list KeyValue) (reducef : string → list string → string).

(** [for _, filename := range os.Args[2:] { ... }] *)
Definition mapAll (files : list (string * string)) : list KeyValue :=
  go_range files (λ f intermediate, intermediate ++ mapf f.1 f.2) [].

(** [for j < len(intermediate) && intermediate[j].Key == intermediate[i].Key { j++ }] *)
Fixpoint nextKey (fuel : nat) (intermediate : list KeyValue) (i j : Z) : option Z :=
  match fuel with
  | O => None
  | S fuel =>
      if j <? len intermediate then
        a ← intermediate.[j];
        b ← intermediate.[i];
        if bool_decide (Key a = Key b) then nextKey fuel intermediate i (j + 1) else Some j
      else Some j
  end.

(** [for k := i; k < j; k++ { values = append(values, intermediate[k].Value) }] *)
Definition valuesBetween (intermediate : list KeyValue) (i j : Z) : option (list string) :=
  go_for_from i (Z.to_nat (j - i))
    (λ k values, kv ← intermediate.[k]; Some (values ++ [Value kv])) [].

(** The loop over the distinct keys: the lines printed, as key and output.  [None] is an
    index out of range or a loop that needs more than [fuel] iterations. *)
Fixpoint reduceLoop (fuel : nat) (intermediate : list KeyValue) (i : Z)
    (printed : list (string * string)) : option (list (string * string)) :=
  match fuel with
  | O => None
  | S fuel =>
      if i <? len intermediate then
        j ← nextKey fuel intermediate i (i + 1);
        values ← valuesBetween intermediate i j;
        kv ← intermediate.[i];
        let output := reducef (Key kv) values in
        reduceLoop fuel intermediate j (printed ++ [(Key kv, output)])
      else Some printed
  end.

(** [main] after the arguments and the plugin are read. *)
Definition mrsequential (sort : list KeyValue → list KeyValue)
    (files : list (string * string)) : option (list (string * string)) :=
  let intermediate := sort (mapAll files) in
  reduceLoop (S (length intermediate)) intermediate 0 [].
End driver.

Section words.
Context (letters : Z → bool).

Definition words (contents : string) : list string :=
  let ff r := negb (IsLetter letters r) in
  FieldsFunc contents ff.
End words.

Module Wc.
Definition Map (letters : Z → bool) (filename contents : string) : list KeyValue :=
  let words := words letters contents in
  go_range words (λ w kva, let kv := mkKV w "1" in kva ++ [kv]) [].
Definition Reduce (key : string) (values : list string) : string := Sprint (len values).
End Wc.

(** [order] is the order in which [for w := range m] visits the map. *)
Module Indexer.
Definition Map (letters : Z → bool) (order : gset string → list string) (document value : string) : list KeyValue :=
  let m := go_range (words letters value) (λ w (m : gset string), {[ w ]} ∪ m) ∅ in
  go_range (order m) (λ w res, res ++ [mkKV w document]) [].

Definition joinComma (l : list string) : string := String.concat "," l.
Definition Reduce (key : string) (values : list string) : string :=
  let values := merge_sort String.le values in
  Sprint (len values) +:+ " " +:+ joinComma values.
End Indexer.

(** ** The driver calls Reduce once for each key, with exactly the values of that key *)
Definition valuesOf (k : string) (l : list KeyValue) : list string :=
  map Value (filter (λ kv, Key kv = k) l).

Definition keyLe (a b : KeyValue) : Prop := String.le (Key a) (Key b).

(** What [sort.Sort(ByKey(l))] promises. *)
Definition sorts (sort : list KeyValue → list KeyValue) : Prop :=
  ∀ l, sort l ≡ₚ l ∧ StronglySorted keyLe (sort l).

Lemma valuesOf_app k l1 l2 : valuesOf k (l1 ++ l2) = valuesOf k l1 ++ valuesOf k l2.
Proof. unfold valuesOf. by rewrite filter_app, map_app. Qed.

Lemma valuesOf_all k l : Forall (λ kv, Key kv = k) l → valuesOf k l = map Value l.
Proof.
  unfold valuesOf. induction 1 as [|kv l Hk _ IH]; [done|].
  rewrite filter_cons_True by done. simpl. by rewrite IH.
Qed.

Lemma valuesOf_none k l : Forall (λ kv, Key kv ≠ k) l → valuesOf k l = [].
Proof.
  unfold valuesOf. induction 1 as [|kv l Hk _ IH]; [done|].
  by rewrite filter_cons_False.
Qed.

(** The run of equal keys at the front. *)
Fixpoint prefixOf (k : string) (l : list KeyValue) : list KeyValue :=
  match l with
  | kv :: l => if bool_decide (Key kv = k) then kv :: prefixOf k l else []
  | [] => []
  end.

Lemma prefixOf_keys k l : Forall (λ kv, Key kv = k) (prefixOf k l).
Proof. induction l; simpl; [done|]. case_bool_decide; [by constructor|done]. Qed.

Lemma prefixOf_length k l : (length (prefixOf k l) ≤ length l)%nat.
Proof. induction l; simpl; [done|]. case_bool_decide; simpl; lia. Qed.

Lemma prefixOf_take k l : take (length (prefixOf k l)) l = prefixOf k l.
Proof. induction l; simpl; [done|]. case_bool_decide; simpl; by f_equal. Qed.

(** In a sorted list, the rest has only other keys. *)
Lemma prefixOf_rest k l :
  StronglySorted keyLe l → Forall (λ kv, String.le k (Key kv)) l →
  Forall (λ kv, Key kv ≠ k) (drop (length (prefixOf k l)) l).
Proof.
  induction 1 as [|kv l Hs IH Hle]; simpl; [done|]. intros Hk.
  apply Forall_cons in Hk as [Hk0 Hk].
  case_bool_decide as Heq; simpl; [by apply IH|].
  constructor; [done|]. apply Forall_forall. intros x Hx Hxk. apply Heq.
  rewrite Forall_forall in Hle. specialize (Hle x Hx). unfold keyLe in Hle. rewrite Hxk in Hle.
  by apply (anti_symm String.le).
Qed.

Lemma nextKey_prefix fuel l i j kv :
  0 ≤ i → 0 ≤ j ≤ len l → l.[i] = Some kv → len l - j < Z.of_nat fuel →
  nextKey fuel l i j = Some (j + len (prefixOf (Key kv) (drop (Z.to_nat j) l))).
Proof.
  intros Hi. revert j. induction fuel as [|fuel IH]; intros j Hj Hkv Hf; [lia|]. cbn [nextKey].
  case_if.
  - destruct (go_index_lt_Some l j) as [a Ha]; [lia|]. rewrite Ha, Hkv; simpl.
    assert (drop (Z.to_nat j) l = a :: drop (Z.to_nat (j + 1)) l) as Hd.
    { rewrite go_index_nonneg in Ha by lia. rewrite (drop_S l a) by done.
      by replace (Z.to_nat (j + 1)) with (S (Z.to_nat j)) by lia. }
    rewrite Hd. simpl. case_bool_decide.
    + rewrite IH by (done || lia). f_equal. rewrite len_cons. lia.
    + f_equal. rewrite len_nil. lia.
  - assert (j = len l) as -> by lia. unfold len. rewrite Nat2Z.id, drop_all. simpl. f_equal. lia.
Qed.

Lemma valuesBetween_take (l : list KeyValue) (i : Z) (n : nat) :
  0 ≤ i → i + Z.of_nat n ≤ len l →
  valuesBetween l i (i + Z.of_nat n) = Some (map Value (take n (drop (Z.to_nat i) l))).
Proof.
  intros Hi Hn. unfold valuesBetween. replace (i + Z.of_nat n - i) with (Z.of_nat n) by lia.
  rewrite Nat2Z.id.
  destruct (go_for_from_inv
    (λ j vs, vs = map Value (take (Z.to_nat (j - i)) (drop (Z.to_nat i) l)))
    (λ k values, kv ← l.[k]; Some (values ++ [Value kv])) n i []) as (vs & -> & ->).
  - by rewrite Z.sub_diag.
  - intros j vs Hj ->. destruct (go_index_lt_Some l j) as [kv Hkv]; [lia|].
    rewrite Hkv; simpl. eexists. split; [done|].
    replace (Z.to_nat (j + 1 - i)) with (S (Z.to_nat (j - i))) by lia.
    rewrite (take_S_r _ _ kv), map_app; [done|].
    rewrite lookup_drop. rewrite go_index_nonneg in Hkv by lia. rewrite <-Hkv. f_equal. lia.
  - by replace (Z.to_nat (i + Z.of_nat n - i)) with n by lia.
Qed.

(** The lines of the output: the distinct keys in ascending order, each once. *)
Definition reduces (reducef : string → list string → string) (l : list KeyValue)
    (lines : list (string * string)) : Prop :=
  ∃ ks, StronglySorted String.le ks ∧ NoDup ks ∧ (∀ k, k ∈ ks ↔ k ∈ map Key l) ∧
    lines = map (λ k, (k, reducef k (valuesOf k l))) ks.

Lemma reduces_cons reducef kv l lines :
  let p := prefixOf (Key kv) l in
  StronglySorted keyLe (kv :: l) → reduces reducef (drop (length p) l) lines →
  reduces reducef (kv :: l) ((Key kv, reducef (Key kv) (map Value (kv :: p))) :: lines).
Proof.
  intros p Hs (ks & Hks & Hnd & Hin & ->).
  apply StronglySorted_inv in Hs as [Hs Hle].
  pose proof (prefixOf_rest (Key kv) l Hs Hle) as Hrest. fold p in Hrest.
  pose proof (prefixOf_keys (Key kv) l) as Hpre. fold p in Hpre.
  assert (l = p ++ drop (length p) l) as Hl.
  { unfold p at 1. rewrite <-(prefixOf_take (Key kv) l). fold p. by rewrite take_drop. }
  assert (∀ k, k ∈ map Key (drop (length p) l) → k ≠ Key kv ∧ String.le (Key kv) k) as Hk.
  { intros k (x & -> & Hx)%list_elem_of_fmap. split.
    - rewrite Forall_forall in Hrest. by apply Hrest.
    - rewrite Forall_forall in Hle. apply Hle. rewrite Hl. apply elem_of_app. by right. }
  exists (Key kv :: ks). split_and!.
  - constructor; [done|]. apply Forall_forall. intros k Hk'. apply Hk, Hin, Hk'.
  - constructor; [|done]. intros Hk'. by apply Hin, Hk in Hk' as [? _].
  - intros k. simpl. rewrite !elem_of_cons, Hin.
    rewrite Hl at 2. rewrite map_app, elem_of_app. split; [tauto|].
    intros [?|[(x & -> & Hx)%list_elem_of_fmap|?]]; [by left| |by right].
    left. rewrite Forall_forall in Hpre. by apply Hpre.
  - simpl. f_equal.
    + f_equal. f_equal. unfold valuesOf. rewrite filter_cons_True by done. simpl. f_equal.
      fold (valuesOf (Key kv) l). rewrite Hl, valuesOf_app.
      rewrite (valuesOf_all _ p) by done. by rewrite valuesOf_none, app_nil_r.
    + apply map_ext_in. intros k Hk'. apply list_elem_of_In, Hin, Hk in Hk' as [Hne _].
      f_equal. f_equal. unfold valuesOf at 2. rewrite filter_cons_False by done.
      fold (valuesOf k l). rewrite Hl at 2. rewrite valuesOf_app.
      rewrite (valuesOf_none _ p); [done|].
      eapply Forall_impl; [exact Hpre|]. simpl. congruence.
Qed.

Lemma StronglySorted_drop {A} (R : relation A) n (l : list A) :
  StronglySorted R l → StronglySorted R (drop n l).
Proof.
  revert n. induction l as [|x l IH]; intros n Hs; [by destruct n|].
  destruct n as [|n]; [done|]. apply StronglySorted_inv in Hs as [Hs _]. simpl. auto.
Qed.

Lemma reduceLoop_reduces reducef fuel l i printed :
  StronglySorted keyLe l → 0 ≤ i ≤ len l → len l - i < Z.of_nat fuel →
  ∃ lines, reduceLoop reducef fuel l i printed = Some (printed ++ lines) ∧
    reduces reducef (drop (Z.to_nat i) l) lines.
Proof.
  intros Hs. revert i printed. induction fuel as [|fuel IH]; intros i printed Hi Hf; [lia|].
  cbn [reduceLoop]. case_if.
  - destruct (go_index_lt_Some l i) as [kv Hkv]; [lia|].
    rewrite (nextKey_prefix fuel l i (i + 1) kv) by (done || lia). cbn [mbind option_bind].
    assert (drop (Z.to_nat i) l = kv :: drop (Z.to_nat (i + 1)) l) as Hd.
    { pose proof Hkv as Hkv'. rewrite go_index_nonneg in Hkv' by lia.
      rewrite (drop_S l kv) by done. by replace (Z.to_nat (i + 1)) with (S (Z.to_nat i)) by lia. }
    set (r := drop (Z.to_nat (i + 1)) l) in *. set (p := prefixOf (Key kv) r).
    assert (len r = len l - (i + 1)) as Hlr by (apply len_drop; lia).
    assert (len p ≤ len r) as Hlp by (unfold len, p; pose proof (prefixOf_length (Key kv) r); lia).
    pose proof (len_nonneg p) as Hp0.
    replace (i + 1 + len p) with (i + Z.of_nat (S (length p))) by (unfold len; lia).
    rewrite valuesBetween_take by (unfold len in *; lia). cbn [mbind option_bind].
    rewrite Hkv. cbn [mbind option_bind].
    destruct (IH (i + Z.of_nat (S (length p)))
      (printed ++ [(Key kv, reducef (Key kv) (map Value (take (S (length p)) (drop (Z.to_nat i) l))))]))
      as (lines & Hrun & Hred); [unfold len in *; lia..|].
    eexists. split; [rewrite Hrun, <-app_assoc; done|].
    rewrite Hd. simpl. unfold p. rewrite prefixOf_take. fold p. apply reduces_cons.
    + rewrite <-Hd. by apply StronglySorted_drop.
    + fold p. unfold r. rewrite drop_drop.
      by replace (Z.to_nat (i + 1) + length p)%nat with (Z.to_nat (i + Z.of_nat (S (length p)))) by lia.
  - exists []. rewrite app_nil_r. split; [done|].
    assert (i = len l) as -> by lia. unfold len. rewrite Nat2Z.id, drop_all.
    exists []. split_and!; [constructor|constructor|done|done].
Qed.

(** The intermediate pairs are those of all the files. *)
Lemma mapAll_spec mapf files :
  mapAll mapf files = concat (map (λ f, mapf f.1 f.2) files).
Proof.
  unfold mapAll, go_range.
  assert (∀ acc, foldl (λ s x, s ++ mapf x.1 x.2) acc files =
    acc ++ concat (map (λ f, mapf f.1 f.2) files)) as Hx; [|by rewrite Hx].
  induction files as [|f files IH]; intros acc; simpl; [by rewrite app_nil_r|].
  by rewrite IH, app_assoc.
Qed.

Lemma wcMap_spec letters filename contents :
  Wc.Map letters filename contents = map (λ w, mkKV w "1") (words letters contents).
Proof.
  unfold Wc.Map, go_range.
  assert (∀ ws acc, foldl (λ s x, s ++ [mkKV x "1"]) acc ws = acc ++ map (λ w, mkKV w "1") ws)
    as Hx; [|by rewrite Hx].
  induction ws as [|w ws IH]; intros acc; simpl; [by rewrite app_nil_r|].
  by rewrite IH, <-app_assoc.
Qed.

(** The words of all the files *)
Definition allWords (letters : Z → bool) (files : list (string * string)) : list string :=
  concat (map (λ f, words letters f.2) files).

Lemma wcMapAll letters files : mapAll (Wc.Map letters) files = map (λ w, mkKV w "1") (allWords letters files).
Proof.
  rewrite mapAll_spec. unfold allWords. induction files as [|f files IH]; [done|]; simpl.
  by rewrite wcMap_spec, map_app, IH.
Qed.

(** Whatever order the sort leaves equal keys in, the driver ends, and its lines are the
    distinct keys with what [reducef] makes of the values of each. *)
Lemma mrsequential_reduces mapf reducef sort files :
  sorts sort →
  ∃ lines, mrsequential mapf reducef sort files = Some lines ∧
    reduces reducef (sort (mapAll mapf files)) lines.
Proof.
  intros Hsort. destruct (Hsort (mapAll mapf files)) as [_ Hs]. unfold mrsequential.
  destruct (reduceLoop_reduces reducef (S (length (sort (mapAll mapf files))))
    (sort (mapAll mapf files)) 0 [] Hs) as (lines & -> & Hr); [unfold len; lia..|].
  exists lines. split; [done|]. by rewrite drop_0 in Hr.
Qed.

(** Map functions that give words the value 1, and a reduce function that counts values. *)
Lemma mrsequential_counts mapf reducef sort files ws :
  (∀ k vs, reducef k vs = Sprint (len vs)) →
  mapAll mapf files = map (λ w, mkKV w "1") ws → sorts sort →
  ∃ ks, mrsequential mapf reducef sort files =
      Some (map (λ w, (w, Sprint (len (filter (λ w', w' = w) ws)))) ks) ∧
    StronglySorted String.le ks ∧ NoDup ks ∧ ∀ w, w ∈ ks ↔ w ∈ ws.
Proof.
  intros Hr Hall Hsort. destruct (Hsort (mapAll mapf files)) as [Hperm _].
  destruct (mrsequential_reduces mapf reducef sort files Hsort)
    as (lines & -> & ks & Hks & Hnd & Hin & ->). rewrite Hall in Hperm, Hin |- *.
  exists ks. split_and!; [|done|done|].
  - f_equal. apply map_ext. intros w. rewrite Hr. do 2 f_equal.
    unfold len, valuesOf. rewrite length_map. f_equal.
    rewrite (Permutation_length (filter_Permutation _ _ _ Hperm)). clear.
    induction ws as [|w' ws IH]; [done|]; simpl.
    rewrite !filter_cons. simpl. case_decide; simpl; by rewrite IH.
  - intros w. rewrite Hin. rewrite (Permutation_map Key Hperm), map_map. simpl.
    by rewrite map_id.
Qed.

(** C27: word count is right.  The files hold any bytes; the words are the fields of letters that
    [strings.FieldsFunc] finds among the runes of their contents ([FieldsFunc_spec]), whatever
    Unicode's table of the letters after Latin-1.  Whatever order [sort.Sort] leaves equal keys
    in, the driver terminates and prints the distinct words of the files in ascending order,
    each once, with the number of its occurrences in all of them. *)
Theorem wordcount_correct letters sort files :
  sorts sort →
  ∃ ks, mrsequential (Wc.Map letters) Wc.Reduce sort files =
      Some (map (λ w, (w, Sprint (len (filter (λ w', w' = w) (allWords letters files))))) ks) ∧
    StronglySorted String.le ks ∧ NoDup ks ∧ ∀ w, w ∈ ks ↔ w ∈ allWords letters files.
Proof. apply mrsequential_counts; [done|apply wcMapAll]. Qed.

(** Insertion in key order: one order [sort.Sort] may produce. *)
#[local] Instance keyLe_dec a b : Decision (keyLe a b).
Proof. unfold keyLe. apply _. Defined.
#[local] Instance keyLe_total : Total keyLe.
Proof. intros a b. apply (total String.le). Qed.
#[local] Instance keyLe_trans : Transitive keyLe.
Proof. intros a b c. unfold keyLe. apply transitivity. Qed.

Lemma merge_sort_sorts : sorts (merge_sort keyLe).
Proof. intros l. split; [apply merge_sort_Permutation|by apply StronglySorted_merge_sort; apply _]. Qed.

(** The words of a text in UTF-8; no letter after Latin-1 is in it. *)
Lemma wordcount_correct_witness :
  let letters := λ _ : Z, false in
  let files := [("a.txt", "to be, café"); ("b.txt", "to be. cafés")]%string in
  mrsequential (Wc.Map letters) Wc.Reduce (merge_sort keyLe) files =
    Some [("be", "2"); ("café", "1"); ("cafés", "1"); ("to", "2")]%string ∧
  ∃ ks, mrsequential (Wc.Map letters) Wc.Reduce (merge_sort keyLe) files =
      Some (map (λ w, (w, Sprint (len (filter (λ w', w' = w) (allWords letters files))))) ks) ∧
    StronglySorted String.le ks ∧ NoDup ks ∧ ∀ w, w ∈ ks ↔ w ∈ allWords letters files.
Proof.
  split; [vm_compute; reflexivity|].
  apply (wordcount_correct (λ _, false) (merge_sort keyLe)), merge_sort_sorts.
Defined.
