(* ===== verification/MrApps.v ===== *)
(** Models of the applications of [src/src/mrapps] with which the tests try out a MapReduce:
    [crash.go], [nocrash.go], [early_exit.go], [jobcount.go], [mtiming.go], [rtiming.go], and of
    the stubs of [src/src/mr] ([coordinator.go], [rpc.go], [CallExample] of [worker.go]).

    The draws of random numbers and the process id are arguments.  The working directory is
    the set of the names in it; files can be written and the directory can be read.  [None]
    is a panic or the end of the process by [os.Exit].  A time that a call sleeps is part of
    its result, in milliseconds. *)
From S2P Require Import Prelude MapReduce.
From stdpp Require Import sorting gmap.
#[local] Open Scope Z_scope.

(** [sort.Strings]: two sorts of the same strings are the same list. *)
Definition sortStrings (l : list string) : list string := merge_sort String.le l.
Definition joinSpace (l : list string) : string := String.concat " " l.

Definition slen (s : string) : Z := Z.of_nat (String.length s).

(** [rr] and [ms] are the draws below 1000 and 10000. *)
Module Crash.
Definition maybeCrash (rr ms : Z) : option Z :=
  if rr <? 330 then None
  else if rr <? 660 then Some ms
  else Some 0.

Definition Map (rr ms : Z) (filename contents : string) : option (Z * list KeyValue) :=
  slept ← maybeCrash rr ms;
  let kva := [] in
  let kva := kva ++ [mkKV "a" filename] in
  let kva := kva ++ [mkKV "b" (Sprint (slen filename))] in
  let kva := kva ++ [mkKV "c" (Sprint (slen contents))] in
  let kva := kva ++ [mkKV "d" "xyzzy"] in
  Some (slept, kva).

Definition Reduce (rr ms : Z) (key : string) (values : list string) : option (Z * string) :=
  slept ← maybeCrash rr ms;
  let vv := sortStrings values in
  Some (slept, joinSpace vv).
End Crash.

Module Nocrash.
Definition maybeCrash (rr : Z) : option unit :=
  if false && (rr <? 500) then None else Some tt.

Definition Map (rr : Z) (filename contents : string) : option (list KeyValue) :=
  maybeCrash rr;;
  let kva := [] in
  let kva := kva ++ [mkKV "a" filename] in
  let kva := kva ++ [mkKV "b" (Sprint (slen filename))] in
  let kva := kva ++ [mkKV "c" (Sprint (slen contents))] in
  let kva := kva ++ [mkKV "d" "xyzzy"] in
  Some kva.

Definition Reduce (rr : Z) (key : string) (values : list string) : option string :=
  maybeCrash rr;;
  let vv := sortStrings values in
  Some (joinSpace vv).
End Nocrash.

(** [strings.Contains] *)
Fixpoint contains (s substr : string) : bool :=
  String.prefix substr s || match s with EmptyString => false | String _ s => contains s substr end.

Module EarlyExit.
Definition Map (filename contents : string) : list KeyValue :=
  let kva := [] in
  kva ++ [mkKV filename "1"].

Definition Reduce (key : string) (values : list string) : Z * string :=
  let slept := if contains key "sherlock" || contains key "tom" then 3000 else 0 in
  (slept, Sprint (len values)).
End EarlyExit.

(** [count] is the variable of the process [me]; [rnd] is drawn below 3000. *)
Module Jobcount.
Definition jobPrefix : string := "mr-worker-jobcount".
Definition jobFile (me count : Z) : string :=
  jobPrefix +:+ "-" +:+ Sprint me +:+ "-" +:+ Sprint count.

Definition Map (me rnd : Z) (filename contents : string) (count : Z) (files : gset string) :
    Z * gset string * Z * list KeyValue :=
  let f := jobFile me count in
  let count := count + 1 in
  let files := {[ f ]} ∪ files in
  (count, files, 2000 + rnd, [mkKV "a" "x"]).

(** [ioutil.ReadDir] lists the directory sorted by name. *)
Definition Reduce (key : string) (values : list string) (files : gset string) : string :=
  let invocations := go_range (sortStrings (elements files))
    (λ name invocations, if String.prefix jobPrefix name then invocations + 1 else invocations) 0 in
  Sprint invocations.
End Jobcount.

(** ** [nparallel], which [mtiming.go] and [rtiming.go] have in common *)

(** What [fmt.Sscanf] does for [%d] on ASCII: spaces are skipped, a line feed is an error,
    then an optional sign and at least one digit; the rest of the input is not looked at. *)
Fixpoint skipSpace (s : string) : option string :=
  match s with
  | String c s' =>
      let n := nat_of_ascii c in
      if (n =? 10)%nat then None
      else if ((9 <=? n) && (n <=? 13) || (n =? 32))%nat then skipSpace s'
      else Some s
  | EmptyString => Some EmptyString
  end.

Definition digit (c : ascii) : option N :=
  let n := nat_of_ascii c in
  if ((48 <=? n) && (n <=? 57))%nat then Some (N.of_nat (n - 48)) else None.

Fixpoint scanDigits (acc : N) (s : string) : N :=
  match s with
  | String c s => match digit c with Some d => scanDigits (acc * 10 + d) s | None => acc end
  | EmptyString => acc
  end.

Definition scanNumber (s : string) : option N :=
  match s with
  | String c _ => _ ← digit c; Some (scanDigits 0 s)
  | EmptyString => None
  end.

Definition scanSigned (s : string) : option Z :=
  match s with
  | String "-"%char s => n ← scanNumber s; Some (- Z.of_N n)
  | String "+"%char s => n ← scanNumber s; Some (Z.of_N n)
  | s => n ← scanNumber s; Some (Z.of_N n)
  end.

(** An [int] has 64 bits: other numbers are an error. *)
Definition scanInt (s : string) : option Z :=
  s ← skipSpace s;
  x ← scanSigned s;
  if (- 2 ^ 63 <=? x) && (x <? 2 ^ 63) then Some x else None.

Fixpoint scanLiteral (pat s : string) : option string :=
  match pat, s with
  | EmptyString, s => Some s
  | String c pat, String d s => if Ascii.eqb c d then scanLiteral pat s else None
  | String _ _, EmptyString => None
  end.

(** [fmt.Sscanf(name, pat+"%d", &xpid)] *)
Definition Sscanf (name pat : string) : option Z :=
  s ← scanLiteral pat name;
  scanInt s.

Section nparallel.
(** [kill0 p] says that [syscall.Kill(p, 0)] gives no error, [order] is the order in which
    the names of a directory are read. *)
Context (phase : string) (order : gset string → list string) (kill0 : Z → bool).

Definition workerFiles : string := "mr-worker-" +:+ phase +:+ "-".
Definition myfilename (pid : Z) : string := workerFiles +:+ Sprint pid.

Definition writeMine (pid : Z) (files : gset string) : gset string := {[ myfilename pid ]} ∪ files.

(** At most a million names are read; of an empty directory [Readdirnames] gives [io.EOF]. *)
Definition readNames (files : gset string) : option (list string) :=
  let names := take (Z.to_nat 1000000) (order files) in
  if decide (names = []) then None else Some names.

Definition countLive (names : list string) : Z :=
  go_range names
    (λ name ret, match Sscanf name workerFiles with
                 | Some xpid => if kill0 xpid then ret + 1 else ret
                 | None => ret
                 end) 0.

Definition removeMine (pid : Z) (files : gset string) : option (gset string) :=
  if decide (myfilename pid ∈ files) then Some (files ∖ {[ myfilename pid ]}) else None.

(** [others1] and [others2] are what the other processes do to the directory between the
    write and the scan, and while this one sleeps. *)
Definition nparallel (others1 others2 : gset string → gset string) (pid : Z)
    (files : gset string) : option (Z * gset string) :=
  let files := writeMine pid files in
  names ← readNames (others1 files);
  let ret := countLive names in
  files ← removeMine pid (others2 (others1 files));
  Some (ret, files).
End nparallel.

(** [ts] is the time as it is printed. *)
Module Mtiming.
Definition Map (order : gset string → list string) (kill0 : Z → bool)
    (others1 others2 : gset string → gset string) (pid : Z) (ts : string)
    (filename contents : string) (files : gset string) : option (list KeyValue * gset string) :=
  '(n, files) ← nparallel "map" order kill0 others1 others2 pid files;
  let kva := [] in
  let kva := kva ++ [mkKV ("times-" +:+ Sprint pid) ts] in
  let kva := kva ++ [mkKV ("parallel-" +:+ Sprint pid) (Sprint n)] in
  Some (kva, files).

Definition Reduce (key : string) (values : list string) : string :=
  let vv := sortStrings values in
  joinSpace vv.
End Mtiming.

Module Rtiming.
Definition Map (filename contents : string) : list KeyValue :=
  let kva := [] in
  let kva := kva ++ [mkKV "a" "1"] in
  let kva := kva ++ [mkKV "b" "1"] in
  let kva := kva ++ [mkKV "c" "1"] in
  let kva := kva ++ [mkKV "d" "1"] in
  let kva := kva ++ [mkKV "e" "1"] in
  let kva := kva ++ [mkKV "f" "1"] in
  let kva := kva ++ [mkKV "g" "1"] in
  let kva := kva ++ [mkKV "h" "1"] in
  let kva := kva ++ [mkKV "i" "1"] in
  let kva := kva ++ [mkKV "j" "1"] in
  kva.

Definition Reduce (order : gset string → list string) (kill0 : Z → bool)
    (others1 others2 : gset string → gset string) (pid : Z)
    (key : string) (values : list string) (files : gset string) : option (string * gset string) :=
  '(n, files) ← nparallel "reduce" order kill0 others1 others2 pid files;
  Some (Sprint n, files).
End Rtiming.

(** ** The coordinator and the worker, which the course left to be written *)
Module Mr.
Record ExampleArgs := mkExampleArgs { X : Z }.
Record ExampleReply := mkExampleReply { Y : Z }.

(** [reply.Y = args.X + 1] on 64 bits *)
Definition Example (args : ExampleArgs) (reply : ExampleReply) : ExampleReply :=
  mkExampleReply ((X args + 1 + 2 ^ 63) `mod` 2 ^ 64 - 2 ^ 63).

Definition Done : bool := let ret := false in ret.

Definition coordinatorSock (uid : Z) : string :=
  let s := "/var/tmp/824-mr-" in
  s +:+ Sprint uid.

(** [call "Coordinator.Example"] gives the reply as the call leaves it; what is printed. *)
Definition CallExample (call : ExampleArgs → ExampleReply → ExampleReply) : Z :=
  let args := mkExampleArgs 0 in
  let args := mkExampleArgs 99 in
  let reply := mkExampleReply 0 in
  let reply := call args reply in
  Y reply.

(** The loop of [main/mrcoordinator.go] *)
Fixpoint waitDone (fuel : nat) : Loop unit :=
  match fuel with
  | O => Running
  | S fuel => if Bool.eqb Done false then waitDone fuel else Returned tt
  end.
End Mr.

(** ** The output does not depend on the order of the sort, nor of the files *)
Lemma sortStrings_perm l l' : l ≡ₚ l' → sortStrings l = sortStrings l'.
Proof.
  intros Hp. unfold sortStrings.
  apply (StronglySorted_unique String.le); [apply StronglySorted_merge_sort; apply _..|].
  by rewrite !merge_sort_Permutation.
Qed.

Lemma valuesOf_perm k l l' : l ≡ₚ l' → valuesOf k l ≡ₚ valuesOf k l'.
Proof. intros Hp. unfold valuesOf. by rewrite Hp. Qed.

Lemma mapAll_perm mapf files files' : files ≡ₚ files' → mapAll mapf files ≡ₚ mapAll mapf files'.
Proof. intros Hp. rewrite !mapAll_spec. by rewrite Hp. Qed.

(** Reduce functions that agree up to the order of the values *)
Definition agree (r r' : string → list string → string) : Prop :=
  ∀ k vs vs', vs ≡ₚ vs' → r k vs = r' k vs'.

Lemma reduces_unique r r' l l' lines lines' :
  agree r r' → l ≡ₚ l' → reduces r l lines → reduces r' l' lines' → lines = lines'.
Proof.
  intros Hr Hp (ks & Hs & Hnd & Hin & ->) (ks' & Hs' & Hnd' & Hin' & ->).
  assert (ks = ks') as <-.
  { apply (StronglySorted_unique String.le); [done..|]. apply NoDup_Permutation; [done..|].
    intros k. by rewrite Hin, Hin', Hp. }
  apply map_ext. intros k. f_equal. by apply Hr, valuesOf_perm.
Qed.

Lemma mrsequential_unique mapf r r' sort sort' files files' :
  agree r r' → sorts sort → sorts sort' → files ≡ₚ files' →
  ∃ lines, mrsequential mapf r sort files = Some lines ∧
    mrsequential mapf r' sort' files' = Some lines.
Proof.
  intros Hr Hs Hs' Hf.
  destruct (mrsequential_reduces mapf r sort files Hs) as (lines & -> & Hl).
  destruct (mrsequential_reduces mapf r' sort' files' Hs') as (lines' & -> & Hl').
  exists lines. split; [done|]. f_equal. symmetry.
  eapply (reduces_unique r r'); [done| |done..].
  rewrite (proj1 (Hs _)), (proj1 (Hs' _)). by apply mapAll_perm.
Qed.

Lemma mrsequential_ext mapf mapf' r sort files :
  (∀ f c, mapf f c = mapf' f c) → mrsequential mapf r sort files = mrsequential mapf' r sort files.
Proof.
  intros Hm. unfold mrsequential. replace (mapAll mapf' files) with (mapAll mapf files); [done|].
  rewrite !mapAll_spec. f_equal. apply map_ext. intros. apply Hm.
Qed.

(** [mapf] and [reducef] are what the calls of [crash.go] give that do not end the process. *)
Definition survives (mapf : string → string → list KeyValue)
    (reducef : string → list string → string) : Prop :=
  (∀ f c, ∃ rr ms slept, Crash.Map rr ms f c = Some (slept, mapf f c)) ∧
  (∀ k vs, ∃ rr ms slept, Crash.Reduce rr ms k vs = Some (slept, reducef k vs)).

Lemma crash_map_survives rr ms f c slept kva :
  Crash.Map rr ms f c = Some (slept, kva) → Nocrash.Map 0 f c = Some kva.
Proof. unfold Crash.Map. destruct (Crash.maybeCrash rr ms); intros; simplify_eq/=; done. Qed.

Lemma crash_reduce_survives rr ms k vs slept out :
  Crash.Reduce rr ms k vs = Some (slept, out) → out = joinSpace (sortStrings vs).
Proof. unfold Crash.Reduce. destruct (Crash.maybeCrash rr ms); intros; simplify_eq/=; done. Qed.

(** A task of [crash.go] that survives its draws, whatever these were and however long it
    slept, has given what [nocrash.go] gives; so a driver that ends has the same output with
    both, for any order of the files and any order in which equal keys are sorted.  This is
    the comparison on which the crash test of [main/test-mr.sh] rests. *)
Theorem crash_output_is_nocrash mapf reducef mapn reducen sort sort' files files' :
  survives mapf reducef →
  (∀ f c, ∃ rr, Nocrash.Map rr f c = Some (mapn f c)) →
  (∀ k vs, ∃ rr, Nocrash.Reduce rr k vs = Some (reducen k vs)) →
  sorts sort → sorts sort' → files ≡ₚ files' →
  ∃ lines, mrsequential mapf reducef sort files = Some lines ∧
    mrsequential mapn reducen sort' files' = Some lines.
Proof.
  intros [Hm Hr] Hmn Hrn Hs Hs' Hf.
  rewrite (mrsequential_ext mapn mapf); [apply mrsequential_unique; [|done..]|].
  - intros k vs vs' Hp. destruct (Hr k vs) as (rr & ms & slept & ->%crash_reduce_survives).
    destruct (Hrn k vs') as (rr' & Hn). injection Hn as <-. by rewrite (sortStrings_perm vs vs').
  - intros f c. destruct (Hm f c) as (rr & ms & slept & H%crash_map_survives).
    destruct (Hmn f c) as (rr' & Hn). by assert (Some (mapn f c) = Some (mapf f c)) as [= ?]
      by (rewrite <-H, <-Hn; done).
Qed.

(** The calls of [early_exit.go]: the driver counts how often each name was given. *)
Theorem early_exit_counts sort files :
  sorts sort →
  ∃ ks, mrsequential EarlyExit.Map (λ k vs, (EarlyExit.Reduce k vs).2) sort files =
      Some (map (λ f, (f, Sprint (len (filter (λ f', f' = f) (map fst files))))) ks) ∧
    StronglySorted String.le ks ∧ NoDup ks ∧ ∀ f, f ∈ ks ↔ f ∈ map fst files.
Proof.
  apply mrsequential_counts; [done|].
  rewrite mapAll_spec. induction files as [|[f c] files IH]; simpl; [done|by f_equal].
Qed.

(** ** Counting names *)
Lemma go_range_count {A} (p : A → bool) l n :
  go_range l (λ x n, if p x then n + 1 else n) n = n + len (filter (λ x, p x) l).
Proof.
  unfold go_range. revert n. induction l as [|x l IH]; intros n; simpl; [by rewrite Z.add_0_r|].
  rewrite IH, filter_cons. destruct (p x); simpl; rewrite ?len_cons; lia.
Qed.

(** The calls of [jobcount.go] as process, draw, file name and contents; each process has
    its own variable [count]. *)
Definition jobcountCall (call : Z * Z * string * string) (s : gmap Z Z * gset string) :
    gmap Z Z * gset string :=
  let '(me, rnd, filename, contents) := call in
  let '(count, files, _, _) :=
    Jobcount.Map me rnd filename contents (default 0 (s.1 !! me)) s.2 in
  (<[me := count]> s.1, files).

Lemma jobFile_inj me me' c c' :
  0 ≤ me → 0 ≤ me' → Jobcount.jobFile me c = Jobcount.jobFile me' c' → me = me' ∧ c = c'.
Proof.
  intros Hme Hme' Heq. unfold Jobcount.jobFile, Jobcount.jobPrefix in Heq. simplify_eq/=.
  apply no_char_app_inj in Heq as [H1%(inj pretty) H2%(inj pretty)]; [done|by apply no_dash_Sprint|by apply no_dash_Sprint].
Qed.

Lemma jobFile_prefix me c : String.prefix Jobcount.jobPrefix (Jobcount.jobFile me c) = true.
Proof. reflexivity. Qed.

(** The files that the calls made. *)
Lemma jobcountCalls_files calls files0 :
  Forall (λ call : Z * Z * string * string, 0 ≤ call.1.1.1) calls →
  let s := go_range calls jobcountCall (∅, files0) in
  ∃ made, NoDup made ∧ length made = length calls ∧ s.2 = list_to_set made ∪ files0 ∧
    ∀ f, f ∈ made → ∃ me c, 0 ≤ me ∧ f = Jobcount.jobFile me c ∧ c < default 0 (s.1 !! me).
Proof.
  intros Hpids. simpl. induction calls as [|call calls IH] using rev_ind.
  { exists []. split_and!; [constructor|done|set_solver|set_solver]. }
  apply Forall_app in Hpids as [Hpids [Hme _]%Forall_cons].
  unfold go_range. rewrite foldl_app. fold (go_range calls jobcountCall (∅, files0)).
  destruct IH as (made & Hnd & Hlen & Hfiles & Hmade); [done|].
  destruct (go_range calls jobcountCall (∅, files0)) as [counts files]. simpl in *.
  destruct call as [[[me rnd] filename] contents]. simpl in *.
  set (c := default 0 (counts !! me)) in *.
  exists (Jobcount.jobFile me c :: made). split_and!.
  - constructor; [|done]. intros (me' & c' & Hme' & Heq & Hc)%Hmade.
    destruct (jobFile_inj me me' c c') as [<- <-]; [done..|]. unfold c in Hc. lia.
  - rewrite length_app. simpl. lia.
  - rewrite Hfiles. simpl. set_solver.
  - intros f [->|Hf]%elem_of_cons.
    + exists me, c. rewrite lookup_insert_eq. simpl. split_and!; [done|done|lia].
    + destruct (Hmade f Hf) as (me' & c' & Hme' & -> & Hc). exists me', c'. split_and!; [done..|].
      destruct (decide (me = me')) as [<-|]; [|by rewrite lookup_insert_ne].
      rewrite lookup_insert_eq. simpl. fold c in Hc. lia.
Qed.

(** [jobcount.go] counts the map tasks that were run: the calls of Map in all processes,
    each of which leaves a file of its own, and none was there before. *)
Theorem jobcount_counts_calls calls files0 key values :
  Forall (λ call : Z * Z * string * string, 0 ≤ call.1.1.1) calls →
  (∀ f, f ∈ files0 → String.prefix Jobcount.jobPrefix f = false) →
  Jobcount.Reduce key values (go_range calls jobcountCall (∅, files0)).2 = Sprint (len calls).
Proof.
  intros Hpids Hf0. destruct (jobcountCalls_files calls files0 Hpids)
    as (made & Hnd & Hlen & -> & Hmade). unfold Jobcount.Reduce. f_equal.
  rewrite go_range_count, Z.add_0_l. unfold len. rewrite <-Hlen. f_equal. apply Permutation_length.
  unfold sortStrings. rewrite merge_sort_Permutation.
  apply NoDup_Permutation; [apply NoDup_filter, NoDup_elements|done|].
  intros f. rewrite list_elem_of_filter, elem_of_elements, elem_of_union, elem_of_list_to_set.
  split.
  - intros [Hp [?|Hf]]; [done|]. apply Hf0 in Hf. by rewrite Hf in Hp.
  - intros Hf. destruct (Hmade f Hf) as (me & c & _ & -> & _). split; [|by left].
    by rewrite jobFile_prefix.
Qed.

(** ** What [Sscanf] reads is what [Sprintf] wrote *)
Lemma digit_pretty_N_char x : (x < 10)%N → digit (pretty_N_char x) = Some x.
Proof.
  intros Hx. assert (∃ n, (n < 10)%nat ∧ x = N.of_nat n) as (n & Hn & ->)
    by (exists (N.to_nat x); lia).
  do 10 (destruct n as [|n]; [reflexivity|]). lia.
Qed.

Lemma scanDigits_pretty x s : scanDigits 0 (pretty_N_go x s) = scanDigits x s.
Proof.
  revert s. induction (N.lt_wf_0 x) as [x _ IH]; intros s.
  assert (x = 0 ∨ 0 < x)%N as [->|?] by lia; [by rewrite pretty_N_go_0|].
  rewrite pretty_N_go_step, IH by (done || by apply N.div_lt). simpl.
  rewrite digit_pretty_N_char by (apply N.mod_upper_bound; lia).
  rewrite (N.mul_comm _ 10), <-N.div_mod by lia. done.
Qed.

Definition startsDigit (s : string) : Prop :=
  match s with String c _ => is_Some (digit c) | EmptyString => False end.

Lemma startsDigit_pretty_N_go x s : startsDigit s → startsDigit (pretty_N_go x s).
Proof.
  revert s. induction (N.lt_wf_0 x) as [x _ IH]; intros s Hs.
  assert (x = 0 ∨ 0 < x)%N as [->|?] by lia; [by rewrite pretty_N_go_0|].
  rewrite pretty_N_go_step by done. apply IH; [by apply N.div_lt|]. simpl.
  rewrite digit_pretty_N_char by (apply N.mod_upper_bound; lia). by eexists.
Qed.

Lemma startsDigit_pretty (n : N) : startsDigit (pretty n).
Proof.
  unfold pretty, pretty_N. case_decide; [by exists 0%N|].
  rewrite pretty_N_go_step by lia. apply startsDigit_pretty_N_go. simpl.
  rewrite digit_pretty_N_char by (apply N.mod_upper_bound; lia). by eexists.
Qed.

Lemma scanNumber_pretty (n : N) : scanNumber (pretty n) = Some n.
Proof.
  pose proof (startsDigit_pretty n) as Hd.
  assert (scanDigits 0 (pretty n) = n) as Hn.
  { unfold pretty, pretty_N. case_decide as H0; [by rewrite H0|]. apply scanDigits_pretty. }
  destruct (pretty n) as [|c s]; [done|]. destruct Hd as [d Hd]. unfold scanNumber.
  rewrite Hd. cbn [mbind option_bind]. by rewrite Hn.
Qed.

(** A number without sign is read as it is. *)
Lemma scanInt_digits s n :
  startsDigit s → scanNumber s = Some n → (Z.of_N n < 2 ^ 63)%Z → scanInt s = Some (Z.of_N n).
Proof.
  intros Hd Hn Hlt. destruct s as [|c s]; [done|]. destruct Hd as [d Hd].
  assert (skipSpace (String c s) = Some (String c s) ∧ c ≠ "-"%char ∧ c ≠ "+"%char) as (Hs & Hm & Hp).
  { unfold digit in Hd. case_match eqn:Hc; [|done]. apply andb_prop in Hc as [Hc1 Hc2].
    apply Nat.leb_le in Hc1, Hc2. split_and!; [|by intros ->; vm_compute in Hc1; lia..].
    simpl. replace (nat_of_ascii c =? 10)%nat with false by (symmetry; apply Nat.eqb_neq; lia).
    replace (nat_of_ascii c <=? 13)%nat with false by (symmetry; apply Nat.leb_gt; lia).
    replace (nat_of_ascii c =? 32)%nat with false by (symmetry; apply Nat.eqb_neq; lia).
    by rewrite andb_false_r. }
  unfold scanInt. rewrite Hs. cbn [mbind option_bind].
  assert (scanSigned (String c s) = Some (Z.of_N n)) as ->.
  { transitivity (n ← scanNumber (String c s); Some (Z.of_N n)); [|by rewrite Hn].
    by destruct c as [[] [] [] [] [] [] [] []]. }
  cbn [mbind option_bind].
  by rewrite (proj2 (Z.leb_le _ _)), (proj2 (Z.ltb_lt _ _)) by lia.
Qed.

Lemma scanInt_Sprint z : - 2 ^ 63 ≤ z < 2 ^ 63 → scanInt (Sprint z) = Some z.
Proof.
  intros Hz. destruct z as [|p|p]; [done| |].
  - apply (scanInt_digits _ (N.pos p)); [apply startsDigit_pretty|apply scanNumber_pretty|lia].
  - change (Sprint (Z.neg p)) with (String "-" (pretty (N.pos p))).
    unfold scanInt.
    change (skipSpace (String "-" (pretty (N.pos p)))) with (Some (String "-" (pretty (N.pos p)))).
    cbn [mbind option_bind scanSigned]. rewrite scanNumber_pretty. cbn [mbind option_bind].
    change (- Z.of_N (N.pos p)) with (Z.neg p).
    by rewrite (proj2 (Z.leb_le _ _)), (proj2 (Z.ltb_lt _ _)) by lia.
Qed.

Lemma scanLiteral_app pat s : scanLiteral pat (pat +:+ s) = Some s.
Proof. induction pat as [|c pat IH]; simpl; [done|]. by rewrite Ascii.eqb_refl. Qed.

Theorem Sscanf_Sprint pat z : - 2 ^ 63 ≤ z < 2 ^ 63 → Sscanf (pat +:+ Sprint z) pat = Some z.
Proof. intros Hz. unfold Sscanf. rewrite scanLiteral_app. by apply scanInt_Sprint. Qed.

(** ** The workers that run [nparallel] at the same time

    [running] are the processes between the write and the removal of their file, [killed]
    those that ended in between and left their file; a process id is not used again. *)
Record Workers := mkWorkers { files : gset string; running : gset Z; killed : gset Z }.

Section workers.
Context (phase : string) (order : gset string → list string) (base : gset string).

Definition isPid (pid : Z) : Prop := 0 ≤ pid < 2 ^ 63.

Inductive workerStep : Workers → Workers → Prop :=
  | WorkerWrites pid w :
      isPid pid → pid ∉ running w → pid ∉ killed w →
      workerStep w (mkWorkers (writeMine phase pid (files w)) ({[ pid ]} ∪ running w) (killed w))
  | WorkerRemoves pid w fs :
      pid ∈ running w → removeMine phase pid (files w) = Some fs →
      workerStep w (mkWorkers fs (running w ∖ {[ pid ]}) (killed w))
  | WorkerDies pid w :
      pid ∈ running w →
      workerStep w (mkWorkers (files w) (running w ∖ {[ pid ]}) ({[ pid ]} ∪ killed w)).

(** The directory holds the files of [base] and one for each process that wrote its own. *)
Record workersInv (w : Workers) : Prop := {
  wi_files : files w = base ∪ set_map (myfilename phase) (running w ∪ killed w);
  wi_pids : set_Forall isPid (running w ∪ killed w);
  wi_disjoint : running w ## killed w }.

Hypothesis base_other : ∀ f, f ∈ base → Sscanf f (workerFiles phase) = None.

#[local] Instance myfilename_inj : Inj (=) (=) (myfilename phase).
Proof.
  intros p q H. unfold myfilename in H.
  assert (∀ s t u, s +:+ t = s +:+ u → t = u) as Hcancel.
  { induction s as [|c s IH]; intros t u Heq; [done|]. injection Heq as Heq. auto. }
  apply Hcancel in H. by apply (inj pretty) in H.
Qed.

Lemma Sscanf_mine pid : isPid pid → Sscanf (myfilename phase pid) (workerFiles phase) = Some pid.
Proof. intros [? ?]. apply Sscanf_Sprint. lia. Qed.

Lemma mine_not_base pid : isPid pid → myfilename phase pid ∉ base.
Proof. intros Hp Hb%base_other. by rewrite Sscanf_mine in Hb. Qed.

Lemma workersInv_step w w' : workersInv w → workerStep w w' → workersInv w'.
Proof.
  intros [Hf Hp Hd]. destruct 1 as [pid w Hpid Hr Hk|pid w fs Hr Hrm|pid w Hr].
  - split; simpl.
    + unfold writeMine. rewrite Hf, !set_map_union_L, set_map_singleton_L. set_solver.
    + intros q. specialize (Hp q). rewrite !elem_of_union, elem_of_singleton in *. naive_solver.
    + set_solver.
  - assert (isPid pid) as Hpid by (apply Hp; set_solver).
    unfold removeMine in Hrm. case_decide; [|done]. injection Hrm as <-. split; simpl.
    + rewrite Hf. apply set_eq. intros f.
      pose proof (mine_not_base pid Hpid).
      rewrite elem_of_difference, !elem_of_union, !elem_of_map, elem_of_singleton. split.
      * intros [[?|(q & -> & Hq)] Hne]; [by left|right]. exists q. split; [done|].
        destruct (decide (q = pid)) as [->|]; set_solver.
      * intros [?|(q & -> & Hq)]; [set_solver|].
        assert (q ≠ pid) by (intros ->; set_solver).
        split; [right; exists q; set_solver|]. by intros ?%(inj _).
    + intros q. specialize (Hp q). set_solver.
    + set_solver.
  - split; simpl.
    + rewrite Hf. do 2 f_equal. apply set_eq. intros q. rewrite !elem_of_union, elem_of_difference,
        elem_of_singleton. destruct (decide (q = pid)) as [->|]; naive_solver.
    + intros q. specialize (Hp q). set_solver.
    + set_solver.
Qed.

Definition workersStart : Workers := mkWorkers base ∅ ∅.

Lemma workersInv_steps w w' : rtc workerStep w w' → workersInv w → workersInv w'.
Proof. induction 1; eauto using workersInv_step. Qed.

Lemma workersInv_start : workersInv workersStart.
Proof. split; simpl; [|set_solver..]. rewrite (union_empty_l_L ∅), set_map_empty. set_solver. Qed.

(** A process can always remove its own file. *)
Lemma removeMine_running w pid :
  workersInv w → pid ∈ running w →
  removeMine phase pid (files w) = Some (files w ∖ {[ myfilename phase pid ]}).
Proof.
  intros [Hf _ _] Hr. unfold removeMine. rewrite decide_True; [done|]. rewrite Hf. set_solver.
Qed.

(** The signal 0 reaches the processes that run and not those that were killed. *)
Definition lifelike (kill0 : Z → bool) (w : Workers) : Prop :=
  (∀ p, p ∈ running w → kill0 p = true) ∧ (∀ p, p ∈ killed w → kill0 p = false).

Lemma countLive_filter kill0 names :
  countLive phase kill0 names =
  len (filter (λ name, default false (kill0 <$> Sscanf name (workerFiles phase))) names).
Proof.
  rewrite <-(Z.add_0_l (len _)), <-go_range_count. unfold countLive, go_range.
  generalize 0. induction names as [|name names IH]; intros n; simpl; [done|].
  rewrite IH. by destruct (Sscanf name (workerFiles phase)).
Qed.

Lemma countLive_running kill0 w names :
  workersInv w → lifelike kill0 w → names ≡ₚ elements (files w) →
  countLive phase kill0 names = Z.of_nat (size (running w)).
Proof.
  intros [Hf Hp Hd] [Hrun Hkill] Hnames. rewrite countLive_filter. unfold len. f_equal.
  transitivity (length (map (myfilename phase) (elements (running w)))); [|by rewrite length_map].
  apply Permutation_length. rewrite Hnames. apply NoDup_Permutation.
  - apply NoDup_filter, NoDup_elements.
  - apply NoDup_fmap_2, NoDup_elements. apply _.
  - intros f. rewrite list_elem_of_filter, elem_of_elements, Hf, elem_of_union, elem_of_map.
    rewrite list_elem_of_fmap. split.
    + intros [Hl [Hb%base_other|(pid & -> & Hpid)]]; [by rewrite Hb in Hl|].
      rewrite Sscanf_mine in Hl by (by apply Hp). exists pid. split; [done|].
      apply elem_of_elements. apply elem_of_union in Hpid as [?|Hk]; [done|].
      apply Hkill in Hk. simpl in Hl. by rewrite Hk in Hl.
    + intros (pid & -> & Hpid%elem_of_elements). assert (pid ∈ running w ∪ killed w) by set_solver.
      split; [|right; eauto]. rewrite Sscanf_mine by (by apply Hp). simpl. by rewrite Hrun.
Qed.

Hypothesis order_elements : ∀ d, order d ≡ₚ elements d.

Lemma readNames_all d :
  d ≠ ∅ → Z.of_nat (size d) ≤ 1000000 → readNames order d = Some (order d).
Proof.
  intros Hne Hsize. assert (length (order d) = size d) as Hlen
    by (rewrite (Permutation_length (order_elements d)); done).
  unfold readNames. rewrite take_ge by lia. rewrite decide_False; [done|].
  intros Hnil. rewrite Hnil in Hlen. simpl in Hlen. by apply Hne, leibniz_equiv, size_empty_inv.
Qed.

(** The process [pid] calls [nparallel] in the state [w]; the others work before it scans, in
    [w1], and before it removes its file, in [w2].  It counts exactly the processes that are
    between their own write and removal when it scans, itself among them, and neither those
    that were killed, whose files are still there, nor any other file. *)
Theorem nparallel_counts kill0 others1 others2 pid w w1 w2 :
  rtc workerStep workersStart w → isPid pid → pid ∉ running w → pid ∉ killed w →
  let written := mkWorkers (writeMine phase pid (files w)) ({[ pid ]} ∪ running w) (killed w) in
  rtc workerStep written w1 → pid ∈ running w1 → others1 (files written) = files w1 →
  lifelike kill0 w1 → Z.of_nat (size (files w1)) ≤ 1000000 →
  rtc workerStep w1 w2 → pid ∈ running w2 → others2 (files w1) = files w2 →
  nparallel phase order kill0 others1 others2 pid (files w) =
    Some (Z.of_nat (size (running w1)), files w2 ∖ {[ myfilename phase pid ]}) ∧
  0 < Z.of_nat (size (running w1)).
Proof.
  intros Hw Hpid Hr Hk written Hw1 Hr1 Ho1 Hlife Hsize Hw2 Hr2 Ho2.
  assert (workersInv w1) as Hinv1.
  { apply (workersInv_steps written); [done|]. eapply workersInv_step; [|by apply WorkerWrites].
    by apply (workersInv_steps workersStart), workersInv_start. }
  assert (workersInv w2) as Hinv2 by (by apply (workersInv_steps w1)).
  unfold nparallel. change (writeMine phase pid (files w)) with (files written). rewrite Ho1.
  rewrite readNames_all; [|rewrite (wi_files _ Hinv1); set_solver|done]. cbn [mbind option_bind].
  rewrite (countLive_running kill0 w1) by done. rewrite Ho2, removeMine_running by done.
  cbn [mbind option_bind]. split; [done|].
  assert (size (running w1) ≠ 0)%nat; [|lia]. intros H0%size_empty_inv. set_solver.
Qed.
End workers.

(** The reduce task of [rtiming.go] prints that number. *)
Lemma rtiming_reduce order kill0 others1 others2 pid key values fs n fs' :
  nparallel "reduce" order kill0 others1 others2 pid fs = Some (n, fs') →
  Rtiming.Reduce order kill0 others1 others2 pid key values fs = Some (Sprint n, fs').
Proof. intros H. unfold Rtiming.Reduce. by rewrite H. Qed.

(** ** The stubs: CallExample would print 100, the coordinator never ends *)
Theorem call_example : Mr.CallExample Mr.Example = 100.
Proof. reflexivity. Qed.

Theorem waitDone_runs fuel : Mr.waitDone fuel = Running.
Proof. by induction fuel. Qed.

(** ** Concrete runs *)
#[local] Instance keyLe_dec_local a b : Decision (keyLe a b).
Proof. unfold keyLe. apply _. Defined.

Lemma crash_output_is_nocrash_witness :
  let mapf := λ f c, [mkKV "a" f; mkKV "b" (Sprint (slen f)); mkKV "c" (Sprint (slen c)); mkKV "d" "xyzzy"] in
  let reducef := λ k vs, joinSpace (sortStrings vs) in
  Crash.Map 329 0 "x.txt" "hello" = None ∧
  mrsequential mapf reducef (merge_sort keyLe) [("y.txt", "hello"); ("x.txt", "you")] =
    Some [("a", "x.txt y.txt"); ("b", "5 5"); ("c", "3 5"); ("d", "xyzzy xyzzy")] ∧
  ∃ lines, mrsequential mapf reducef (merge_sort keyLe) [("y.txt", "hello"); ("x.txt", "you")] = Some lines ∧
    mrsequential mapf reducef (merge_sort keyLe) [("x.txt", "you"); ("y.txt", "hello")] = Some lines.
Proof.
  split; [reflexivity|]. split; [vm_compute; reflexivity|].
  apply crash_output_is_nocrash; [split|..].
  - intros f c. by exists 400, 12, 12.
  - intros k vs. by exists 999, 0, 0.
  - intros f c. by exists 0.
  - intros k vs. by exists 0.
  - apply merge_sort_sorts.
  - apply merge_sort_sorts.
  - constructor.
Defined.

(** Two processes run three map tasks. *)
Lemma jobcount_counts_calls_witness :
  let calls := [(12, 0, "a", ""); (7, 5, "b", ""); (12, 9, "c", "")]%string in
  let s := go_range calls jobcountCall (∅, {[ "pg.txt" ]}) in
  Jobcount.Reduce "a" ["x"; "x"; "x"] s.2 = "3"%string ∧
  Jobcount.Reduce "a" ["x"; "x"; "x"] s.2 = Sprint (len calls).
Proof.
  split; [vm_compute; reflexivity|].
  apply jobcount_counts_calls.
  - repeat constructor; simpl; lia.
  - intros f ->%elem_of_singleton. reflexivity.
Defined.

(** Process 9 was killed, 7 is running when 8 calls [nparallel]; 7 ends while 8 sleeps. *)
Lemma nparallel_counts_witness :
  let kill0 p := bool_decide (p = 7) || bool_decide (p = 8) in
  let base : gset string := {[ "pg.txt" ]} in
  let f := myfilename "map" in
  nparallel "map" elements kill0 (λ d, d) (λ d, d ∖ {[ f 7 ]}) 8 ({[ f 7 ]} ∪ ({[ f 9 ]} ∪ base)) =
    Some (2, (({[ f 8 ]} ∪ ({[ f 7 ]} ∪ ({[ f 9 ]} ∪ base))) ∖ {[ f 7 ]}) ∖ {[ f 8 ]}) ∧ 0 < 2.
Proof.
  intros kill0 base f.
  set (fs := {[ f 7 ]} ∪ ({[ f 9 ]} ∪ base)).
  set (r7 := {[ 7 ]} ∪ ({[ 9 ]} ∪ ∅) ∖ {[ 9 ]} : gset Z). set (k9 := {[ 9 ]} ∪ ∅ : gset Z).
  set (r8 := {[ 8 ]} ∪ r7 : gset Z). set (fs8 := {[ f 8 ]} ∪ fs : gset string).
  replace 2 with (Z.of_nat (size r8)) by (vm_compute; reflexivity).
  refine (nparallel_counts "map" elements base _ _ kill0 (λ d, d) (λ d, d ∖ {[ f 7 ]}) 8
    (mkWorkers fs r7 k9) (mkWorkers fs8 r8 k9)
    (mkWorkers (fs8 ∖ {[ f 7 ]}) (r8 ∖ {[ 7 ]}) k9)
    _ _ _ _ _ _ _ _ _ _ _ _).
  - intros x ->%elem_of_singleton. reflexivity.
  - done.
  - eapply rtc_l; [apply (WorkerWrites _ 9); [done|set_solver..]|].
    eapply rtc_l; [apply (WorkerDies _ 9); simpl; set_solver|].
    eapply rtc_l; [apply (WorkerWrites _ 7); [done|simpl; set_solver..]|]. apply rtc_refl.
  - done.
  - simpl. by vm_compute.
  - simpl. by vm_compute.
  - apply rtc_refl.
  - simpl. set_solver.
  - done.
  - split; intros p Hp; unfold running, killed, r8, r7, k9 in Hp; unfold kill0.
    + assert (p = 7 ∨ p = 8) as [-> | ->] by (clear -Hp; set_solver); done.
    + assert (p = 9) as -> by (clear -Hp; set_solver). done.
  - vm_compute. discriminate.
  - eapply rtc_l; [apply (WorkerRemoves _ 7)|apply rtc_refl]; [simpl; set_solver|].
    unfold removeMine. rewrite decide_True by (simpl; set_solver). reflexivity.
  - simpl. set_solver.
  - done.
Defined.
